(* ===== verification/_CoqProject ===== *)
-Q . S2P
Prelude.v
Fs.v
Codec.v
Catalog.v
CatalogProofs.v
CatalogAtomic.v
CatalogRecovery.v
CatalogTheorems.v
Wire.v
Messages.v
Client.v
Config.v
ConfigProofs.v
Protocol.v
ProtocolProofs.v
Listener.v
Engine.v
Daemon.v
DaemonProofs.v
Directory.v
Restore.v
Slots.v
RestoreProofs.v
Startup.v
Import.v
ImportProofs.v
StartupProofs.v
Refusals.v
Setup.v
Api.v
ApiAdmin.v
ApiProofs.v
ApiRestore.v
Cli.v
CliProofs.v
