(* ===== verification/Prelude.v ===== *)
(** * A verification library for nostdb-server

    [nostd] (the crate under [src/src], with its client library under
    [src/client]) is a single-node database server.  It owns one data
    directory: a versioned catalog that maps names of Databases to identities,
    and one directory with one data file per Database, kept by the embedded
    engine [nostdb_engine].  Clients connect over a length-prefixed JSON
    protocol, authenticate with one of two credentials, select a Database and
    run queries and transactions; administrators create, rename, drop, inspect,
    export, import and restore Databases.  A second program serves one database
    over an HTTP API with sessions.  The hard parts are what the files mean
    after a crash, what an error in the middle of an operation leaves behind,
    and how concurrent tasks interleave.

    ** Files and what they model

    - [Prelude]: Rust's [Result] with the combinators the source uses, byte
      strings, machine integers, notation, shared list and string lemmas.
    - [Fs]: the part of [std::fs] the server uses.  A file system is a finite
      map from paths to files and directories.  A program is a computation
      [io A] on a world that also holds a schedule of faults, one per system
      call: it runs, it reports an I/O error after a partial effect, or the
      process dies at it after a partial effect.  [wp m c fs Q C] says that [c]
      from [fs] returns with [Q] or dies with [C]; the mode [m] says which
      faults may occur: none ([Calm]), crashes ([CrashOnly]) or both
      ([Hostile]).  A theorem that quantifies over the schedule therefore
      covers every combination of faults.
    - [Codec]: [serde_json] as an interface with its round-trip law and the
      rejection of proper prefixes, and a codec that satisfies it.
    - [Catalog] ([src/src/catalog.rs], every function): [validate_catalog],
      [write_atomic], [transition], [finish_transition], [load] with its three
      recoveries, [initialize] with its rollback.  [CatalogProofs],
      [CatalogAtomic] and [CatalogRecovery] hold the lemmas, [CatalogTheorems]
      the theorems and a concrete data directory.
    - [Wire] ([src/src/wire.rs]): JSON values, query values and the
      conversions.  An [f64] is its bit pattern.
    - [Messages] (types of [src/client/src/lib.rs] and [ProtocolFailure]).
    - [Client] ([src/client/src/lib.rs] and the two asynchronous framing
      functions of [src/src/protocol.rs]): [write_frame], [read_frame],
      [parse_server_address], [connect], [send], [request].
    - [Config], [ConfigProofs] ([src/src/config.rs]): [DaemonConfig], its
      validation, loading and writing, credential files and [authenticate].
    - [Protocol], [ProtocolProofs] ([src/src/protocol.rs], [handle_connection]
      and [dispatch]): a connection is a record of its state, its cancellation
      tokens, its tasks and the frames it has sent; [step] takes an event (a
      frame, a worker that ran, panicked or timed out, a task that finishes, a
      writer failure, shutdown) to the next connection; [run] takes a list of
      events, so a theorem over all lists covers every interleaving.  Each arm
      of [dispatch] is one definition.  The daemon is used through the class
      [DaemonOps], with an answer or the death of the process for each call.
    - [Listener] ([serve_database_protocol] of [src/src/protocol.rs]): the accept
      loop with its semaphore, its tasks and its shutdown, as a machine that
      takes one event at a time.
    - [Engine]: [nostdb_engine] as a class of operations with the laws the
      server relies on, and a small engine that satisfies them.
    - [Daemon], [DaemonProofs] ([src/src/daemon.rs]): the methods of
      [DatabaseDaemon] as computations that give the daemon's memory after them.
    - [Directory]: the abstract specification of the lifecycle operations, a map
      from names to identities, and the refinement.
    - [Restore], [RestoreProofs] ([src/src/daemon.rs]): [restore_snapshot],
      its cleanup, and [recover_snapshot_operations].  The proofs view the four
      files of a restore as four slots; [Slots] has that view and its rules, for
      any directory and names.
    - [Startup], [StartupProofs] ([src/src/daemon.rs]): [initialize] with its
      rollback, the data-directory lock, [open].  [Setup] composes them with the
      configuration.
    - [Import], [ImportProofs] ([src/src/daemon.rs]): [import_logical] and the
      module paths; [ProjectConfig] and [Synchronizer] are interfaces.
    - [Api], [ApiAdmin] ([src/src/api.rs], [src/src/lib.rs]): the HTTP API.  A
      handler takes the shared state to its response and the state after it;
      the parts that hold the lock of the sessions are definitions of their own,
      and the clock and scheduler of a worker are an argument.  [ApiProofs] has
      its theorems, [ApiRestore] those of its restore.
    - [Cli], [CliProofs] ([src/src/bin/nostd.rs], [src/src/main.rs]): argument
      parsing, the lookup of the configuration file, and the dispatch.

    ** What the theorems show

    - Durability of the catalog: a transition is all-or-nothing under every
      schedule of errors, partial writes and crashes; recovery at start-up
      succeeds from every state this leaves, gives one of the two catalogs, and
      tolerates its own interruption.
    - Lifecycle: rename is atomic under every schedule; create and drop are
      crash-safe, change exactly one entry, and agree with the daemon's memory.
      Together they implement the abstract directory: every history of requests,
      with a crash anywhere, is one of the directory, and a restart finds it
      before or after the interrupted request.
    - Restore and import: a successful restore installs exactly the uploaded
      content, an import exactly what the package compiles to, a refused one
      keeps the old content, a crash leaves one of the two, and recovery
      completes from every such state and tolerates its interruption.
    - Start-up: opening succeeds from every state crashes leave, gives every
      Database the content its directory stands for, tolerates its own
      interruption and refuses a directory another process owns; a new
      installation initializes, loads and opens with its credentials.
    - Connections: an invariant on transactions, uploads, tokens and tasks; the
      query role reaches only selection and queries; every request is answered;
      a commit runs exactly the queued statements in order; an exported
      snapshot uploads back unchanged; every frame sent fits its bound; which
      hello is accepted.  The listener never runs more connections than
      configured, and its shutdown ends.
    - HTTP: the same rules as the daemon for secrets, limits and paths; nothing
      happens without the key; sessions and transactions stay within their
      limits under every interleaving; a query's outcome is reported truthfully
      whatever the timer does; what a restore leaves when it returns or dies.
    - Command lines: reading them ends; exactly which are accepted by
      [nostd init]; printed arguments are read back.
    - Framing and client: both sides' framing round-trips, exactly the
      well-formed frames are read, cut frames are an end of file, identifiers
      increase and never wrap, an answer belongs to its request.
    - Configuration: exactly which configurations are valid, round trips of
      configurations and credentials, files are never overwritten,
      authentication grants exactly the presented credential's role.
    - Behaviours to know about, proved of the code as it is: a torn journal
      (lifecycle or restore) stops every later start; a failed preserving
      rename blocks later transitions; a failed rollback followed by another
      transition, or inside a create, loses or strands the catalog; an HTTP
      restore that dies between its renames lets the next start serve an empty
      database, and one whose checkpoint fails loses the handle for good.

    ** Assumptions and bounds

    Code outside the repository is an interface with laws: [Json]/[Payload]
    (serde_json), [Toml], [Uuid], [SocketAddr] parsing, [Base64],
    [Prepare], [PrepareWrite], [Listings], [Projects] and [Engine]
    (nostdb_engine), [FloatCast].  Every theorem that uses one has a concrete
    instance in the module at the end of its file, where it is applied.  A
    crash is the death of the process at a system call: completed calls are
    durable, a write may be cut at any byte, and the two syncs are calls that
    can fail.  The data directory has no other writer ([nostd] holds its lock).
    Fuel is used twice: in [chunks], where the length of the input bounds the
    number of pieces, and in the loops over command-line arguments, which are
    proved to end within the number of arguments.  Unsigned integers are integers with their bounds written
    out where the code checks or saturates.  The response channel of a
    connection is unbounded and the responses of one task enter it together.
    Poisoned locks are modelled for the HTTP database only: elsewhere they need a
    panic inside a critical section.
    A data directory that has kept [recovery/interrupted-catalog.pending] from
    an earlier crash is outside the hypotheses of the lifecycle theorems: the
    code asks for an operator after a second interrupted write.

    ** Not modelled

    The sockets, signals and log output of the programs; axum's request
    extraction and body-limit layer; the re-exports of [src/src/lib.rs]; the
    engine itself, the packaging, and the tests.  Next in the plan: an instance
    of [DaemonOps] from [Daemon], [Restore] and [Import], so that the theorems
    about connections and those about files compose; the contents of Databases
    in the abstract directory; errors of single system calls in the restores. *)

From stdpp Require Import base list strings gmap pretty.
From Stdlib Require Import ZArith Lia.
From Stdlib Require Export Strings.Byte.

(** Lemmas that the components' routine goals are closed with. *)
Create HintDb nostdb.

(** ** Fallible results

    Rust's [Result<T, E>], with the combinators the source uses. *)

Inductive result (A E : Type) : Type :=
| Ok (a : A)
| Err (e : E).
Arguments Ok {A E} a.
Arguments Err {A E} e.

Definition is_ok {A E} (r : result A E) : bool :=
  match r with Ok _ => true | Err _ => false end.

Definition is_err {A E} (r : result A E) : bool := negb (is_ok r).

Definition map_err {A E F} (f : E → F) (r : result A E) : result A F :=
  match r with Ok a => Ok a | Err e => Err (f e) end.

Definition map_ok {A B E} (f : A → B) (r : result A E) : result B E :=
  match r with Ok a => Ok (f a) | Err e => Err e end.

Definition ok_or {A E} (o : option A) (e : E) : result A E :=
  match o with Some a => Ok a | None => Err e end.

Definition result_bind {A B E} (r : result A E) (k : A → result B E) : result B E :=
  match r with Ok a => k a | Err e => Err e end.

(** [collect::<Result<Vec<_>, _>>()]: the first error wins. *)
Fixpoint collect {A E} (l : list (result A E)) : result (list A) E :=
  match l with
  | [] => Ok []
  | r :: l' => result_bind r (λ a, result_bind (collect l') (λ l'', Ok (a :: l'')))
  end.

#[global] Instance result_eq_dec {A E} `{EqDecision A, EqDecision E} : EqDecision (result A E).
Proof. solve_decision. Defined.

Declare Scope nostdb_scope.
Delimit Scope nostdb_scope with nostdb.
Notation "'let^' x := r 'in' k" := (result_bind r (λ x, k))
  (at level 10, x pattern, r at level 200, k at level 200,
   format "'[v' 'let^'  x  :=  r  'in' '/' k ']'") : nostdb_scope.
Open Scope nostdb_scope.

(** ** Bytes and machine integers *)

Abbreviation bytes := (list byte).

#[global] Instance byte_eq_dec : EqDecision byte := Byte.byte_eq_dec.

Definition newline : byte := x0a.

Definition u32_max : Z := 2 ^ 32 - 1.
Definition u64_max : Z := 2 ^ 64 - 1.

(** A length as the [u64] the source casts it to. *)
Definition len {A} (l : list A) : Z := Z.of_nat (length l).

(** ** Lists *)

Lemma collect_Ok_iff {A E} (l : list (result A E)) (l' : list A) :
  collect l = Ok l' ↔ Forall2 (λ r a, r = Ok a) l l'.
Proof.
  revert l'. induction l as [|r l IH]; intros l'; simpl.
  - split; [by intros [= <-]|by inversion 1].
  - destruct r as [a|e]; simpl; [|split; [done|by inversion 1]].
    destruct (collect l) as [k|e] eqn:Hc; simpl.
    + split.
      * intros [= <-]. constructor; [done|]. by apply IH.
      * inversion 1 as [|? b ? k' Hb Hk]; subst. apply IH in Hk. by simplify_eq.
    + split; [done|]. inversion 1 as [|? b ? k' Hb Hk]; subst. by apply IH in Hk.
Qed.

(** [strip_prefix p q] is [Some s] exactly when [q = p ++ s]. *)
Fixpoint strip_prefix {A} `{EqDecision A} (p q : list A) : option (list A) :=
  match p, q with
  | [], _ => Some q
  | x :: p', y :: q' => if decide (x = y) then strip_prefix p' q' else None
  | _ :: _, [] => None
  end.

Lemma strip_prefix_Some {A} `{EqDecision A} (p q s : list A) :
  strip_prefix p q = Some s ↔ q = p ++ s.
Proof.
  revert q. induction p as [|x p IH]; intros q; simpl; [naive_solver|].
  destruct q as [|y q]; [naive_solver|].
  case_decide; [|naive_solver]. subst. rewrite IH. naive_solver.
Qed.

Lemma strip_prefix_app {A} `{EqDecision A} (p s : list A) :
  strip_prefix p (p ++ s) = Some s.
Proof. by apply strip_prefix_Some. Qed.

Lemma strip_prefix_None {A} `{EqDecision A} (p q : list A) :
  strip_prefix p q = None ↔ ¬ p `prefix_of` q.
Proof.
  split.
  - intros H [s ->]. by rewrite strip_prefix_app in H.
  - intros H. destruct (strip_prefix p q) as [s|] eqn:Hs; [|done].
    apply strip_prefix_Some in Hs as ->. destruct H. by exists s.
Qed.

(** Decimal rendering of a [Z], as [format!] prints an integer. *)
Definition show (z : Z) : string := pretty z.

(** ** The byte order on strings *)

Definition string_lt (s t : string) : Prop := String.ltb s t = true.

Lemma string_lt_le s t : string_lt s t ↔ String.le s t ∧ s ≠ t.
Proof.
  unfold string_lt, String.le, String.ltb, String.leb.
  destruct (String.compare s t) eqn:Hc; simpl.
  - apply String.compare_eq_iff in Hc. naive_solver.
  - split; [|done]. intros _. split; [done|]. intros ->.
    pose proof (String.compare_antisym t t) as Ha. by rewrite Hc in Ha.
  - naive_solver.
Qed.

#[global] Instance string_lt_trans : Transitive string_lt.
Proof.
  intros s t u [H1 H2]%string_lt_le [H3 H4]%string_lt_le. apply string_lt_le. split.
  - by etrans.
  - intros ->. apply H4. by apply (anti_symm String.le).
Qed.

Lemma string_lt_irrefl s : ¬ string_lt s s.
Proof. intros [_ []]%string_lt_le. done. Qed.

Lemma string_lt_eqb s t : string_lt s t → String.eqb s t = false.
Proof. intros [_ Hne]%string_lt_le. by apply String.eqb_neq. Qed.

Lemma string_lt_asym s t : string_lt s t → String.ltb t s = false.
Proof.
  intros Hst. destruct (String.ltb t s) eqn:Hts; [|done].
  destruct (string_lt_irrefl s). by trans t.
Qed.

(** Of two different strings one is smaller. *)
Lemma string_lt_total s t : s ≠ t → String.ltb s t = false → string_lt t s.
Proof.
  intros Hne Hf. apply string_lt_le. split; [|done].
  destruct (total String.le s t) as [Hle|]; [|done].
  assert (string_lt s t) as Hlt by by apply string_lt_le. unfold string_lt in Hlt. congruence.
Qed.
