(* ===== verification/Fs.v ===== *)
(** * The file system, I/O faults and crashes

    The part of [std::fs], [std::path] and [std::io] the daemon uses.  A
    file system is a finite map from absolute paths (lists of components) to
    files and directories.  A program is a state-passing computation [io A];
    every system call first consults a schedule of faults, so that a theorem
    that quantifies over the schedule covers every combination of I/O errors,
    partial writes and process crashes at system-call granularity. *)

From stdpp Require Import base list strings gmap fin_maps sorting.
From Stdlib Require Import ZArith Lia.
From S2P Require Import Prelude.

(** ** Paths and nodes *)

Abbreviation path := (list string).

(** A regular file has a permission mode and a content. *)
Inductive node : Type :=
| NFile (mode : Z) (content : bytes)
| NDir.

#[global] Instance node_eq_dec : EqDecision node.
Proof. solve_decision. Defined.

Abbreviation fsys :=
  (@gmap (list string) (@list_eq_dec string String.eq_dec)
     (@list_countable string String.eq_dec String.countable) node).

(** [Path::join] for a relative component that is a plain name. *)
Definition join (p : path) (name : string) : path := p ++ [name].

(** [Path::parent] of a non-root path. *)
Definition parent (p : path) : path := removelast p.

(** [Path::display] *)
Fixpoint display (p : path) : string :=
  match p with
  | [] => ""
  | c :: p' => "/" +:+ c +:+ display p'
  end.

(** ** I/O errors *)

Inductive ErrorKind : Type := NotFound | AlreadyExists | OtherKind.

#[global] Instance ErrorKind_eq_dec : EqDecision ErrorKind.
Proof. solve_decision. Defined.

Record io_error : Type := IoError { kind : ErrorKind; io_text : string }.

Definition not_found : io_error := IoError NotFound "No such file or directory (os error 2)".
Definition file_exists : io_error := IoError AlreadyExists "File exists (os error 17)".
Definition not_a_directory : io_error := IoError OtherKind "Not a directory (os error 20)".
Definition is_a_directory : io_error := IoError OtherKind "Is a directory (os error 21)".
Definition invalid_input : io_error := IoError OtherKind "Invalid argument (os error 22)".
Definition not_empty : io_error := IoError OtherKind "Directory not empty (os error 39)".

(** ** Queries: [Path::exists], [is_dir], [is_file]; metadata reads do not fail here. *)

Definition exists_ (fs : fsys) (p : path) : bool :=
  match fs !! p with Some _ => true | None => false end.

Definition is_dir (fs : fsys) (p : path) : bool :=
  match fs !! p with Some NDir => true | _ => false end.

Definition is_file (fs : fsys) (p : path) : bool :=
  match fs !! p with Some (NFile _ _) => true | _ => false end.

(** The content of a regular file. *)
Definition content (fs : fsys) (p : path) : option bytes :=
  match fs !! p with Some (NFile _ b) => Some b | _ => None end.

(** The names of the entries directly inside a directory. *)
Definition children (fs : fsys) (p : path) : list string :=
  omap (λ '(q, _), match strip_prefix p q with Some [name] => Some name | _ => None end)
    (map_to_list fs).

(** ** The effect of each system call when no fault is injected *)

Definition do_create_dir (p : path) (fs : fsys) : result unit io_error * fsys :=
  if exists_ fs p then (Err file_exists, fs)
  else if is_dir fs (parent p) then (Ok tt, <[p := NDir]> fs)
  else (Err not_found, fs).

Definition do_open_new (mode : Z) (p : path) (fs : fsys) : result unit io_error * fsys :=
  if exists_ fs p then (Err file_exists, fs)
  else if is_dir fs (parent p) then (Ok tt, <[p := NFile mode []]> fs)
  else (Err not_found, fs).

(** Replaces the content of an open file by [b]. *)
Definition set_content (p : path) (b : bytes) (fs : fsys) : fsys :=
  match fs !! p with
  | Some (NFile m _) => <[p := NFile m b]> fs
  | _ => fs
  end.

Definition do_read (p : path) (fs : fsys) : result bytes io_error * fsys :=
  match fs !! p with
  | Some (NFile _ b) => (Ok b, fs)
  | Some NDir => (Err is_a_directory, fs)
  | None => (Err not_found, fs)
  end.

Definition do_read_dir (p : path) (fs : fsys) : result (list string) io_error * fsys :=
  match fs !! p with
  | Some NDir => (Ok (children fs p), fs)
  | Some (NFile _ _) => (Err not_a_directory, fs)
  | None => (Err not_found, fs)
  end.

Definition do_remove_file (p : path) (fs : fsys) : result unit io_error * fsys :=
  match fs !! p with
  | Some (NFile _ _) => (Ok tt, delete p fs)
  | Some NDir => (Err is_a_directory, fs)
  | None => (Err not_found, fs)
  end.

Definition do_remove_dir (p : path) (fs : fsys) : result unit io_error * fsys :=
  match fs !! p with
  | Some NDir =>
      match children fs p with
      | [] => (Ok tt, delete p fs)
      | _ => (Err not_empty, fs)
      end
  | Some (NFile _ _) => (Err not_a_directory, fs)
  | None => (Err not_found, fs)
  end.

(** No entry lies strictly below [p]. *)
Definition nothing_below (fs : fsys) (p : path) : Prop :=
  map_Forall (λ k _, ¬ (p `prefix_of` k ∧ k ≠ p)) fs.

(** Moves the whole tree below [p] to [q]. *)
Definition move_tree (p q : path) (fs : fsys) : fsys :=
  list_to_map ((λ '(k, n), (match strip_prefix p k with
                            | Some s => q ++ s
                            | None => k
                            end, n)) <$> map_to_list fs).

(** [fs::rename]: a file replaces a file; a directory moves with its whole
    tree onto an absent path or an empty directory, never below itself. *)
Definition do_rename (p q : path) (fs : fsys) : result unit io_error * fsys :=
  match fs !! p with
  | None => (Err not_found, fs)
  | Some (NFile m b) =>
      if is_dir fs q then (Err is_a_directory, fs)
      else if is_dir fs (parent q) then (Ok tt, <[q := NFile m b]> (delete p fs))
      else (Err not_found, fs)
  | Some NDir =>
      if decide (p `prefix_of` q) then (Err invalid_input, fs)
      else if is_file fs q then (Err not_a_directory, fs)
      else if decide (nothing_below fs q) then
        if is_dir fs (parent q) then (Ok tt, move_tree p q (delete q fs))
        else (Err not_found, fs)
      else (Err not_empty, fs)
  end.

(** ** Computations with faults *)

(** What happens at one system call: it runs, it reports an I/O error after
    a partial effect, or the process dies at it after a partial effect. *)
Inductive fault : Type :=
| NoFault
| IoFail (partial : nat) (text : string)
| CrashAt (partial : nat).

Record world : Type := World {
  w_fs : fsys;
  w_faults : list fault;   (* faults of the calls to come; none when exhausted *)
  w_umask : Z
}.

(** [None] is a crash: nothing later in the program runs. *)
Definition io (A : Type) : Type := world → option A * world.

Definition ret {A} (a : A) : io A := λ w, (Some a, w).

Definition bind {A B} (c : io A) (k : A → io B) : io B := λ w,
  match c w with
  | (Some a, w') => k a w'
  | (None, w') => (None, w')
  end.

Notation "'let*' x := c 'in' k" := (bind c (λ x, k))
  (at level 10, x pattern, c at level 200, k at level 200,
   format "'[v' 'let*'  x  :=  c  'in' '/' k ']'") : nostdb_scope.

(** The [?] operator: an error leaves the enclosing function at once. *)
Definition try_bind {A B E} (c : io (result A E)) (k : A → io (result B E)) : io (result B E) :=
  bind c (λ r, match r with Ok a => k a | Err e => ret (Err e) end).

Notation "'let?' x := c 'in' k" := (try_bind c (λ x, k))
  (at level 10, x pattern, c at level 200, k at level 200,
   format "'[v' 'let?'  x  :=  c  'in' '/' k ']'") : nostdb_scope.

Definition io_map_err {A E F} (f : E → F) (c : io (result A E)) : io (result A F) :=
  bind c (λ r, ret (map_err f r)).

(** Reads the file system without changing it. *)
Definition query {A} (q : fsys → A) : io A := λ w, (Some (q (w_fs w)), w).

Definition get_umask : io Z := λ w, (Some (w_umask w), w).

(** A system call: [op] is its effect, [torn n] its partial effect. *)
Definition syscall {A} (op : fsys → result A io_error * fsys) (torn : nat → fsys → fsys)
    : io (result A io_error) := λ w,
  match w_faults w with
  | IoFail n text :: fl =>
      (Some (Err (IoError OtherKind text)), World (torn n (w_fs w)) fl (w_umask w))
  | CrashAt n :: fl => (None, World (torn n (w_fs w)) fl (w_umask w))
  | NoFault :: fl => let '(r, fs') := op (w_fs w) in (Some r, World fs' fl (w_umask w))
  | [] => let '(r, fs') := op (w_fs w) in (Some r, World fs' [] (w_umask w))
  end.

(** Calls that either happen or do not. *)
Definition atomic {A} (op : fsys → result A io_error * fsys) : io (result A io_error) :=
  syscall op (λ _ fs, fs).

Definition create_dir (p : path) := atomic (do_create_dir p).
Definition read (p : path) := atomic (do_read p).
Definition read_dir (p : path) := atomic (do_read_dir p).
Definition remove_file (p : path) := atomic (do_remove_file p).
Definition remove_dir (p : path) := atomic (do_remove_dir p).
Definition rename (p q : path) := atomic (do_rename p q).

(** [OpenOptions::new().create_new(true).write(true).mode(m).open(p)] *)
Definition open_new (mode : Z) (p : path) : io (result unit io_error) :=
  let* u := get_umask in
  atomic (do_open_new (Z.land mode (Z.lnot u)) p).

(** [file.write_all(b)] on a freshly created file: a fault leaves a prefix. *)
Definition write_all (p : path) (b : bytes) : io (result unit io_error) :=
  syscall (λ fs, (Ok tt, set_content p b fs)) (λ n, set_content p (take n b)).

(** [file.sync_all()], and opening and syncing a directory: barriers that can fail. *)
Definition sync_all : io (result unit io_error) := atomic (λ fs, (Ok tt, fs)).
Definition sync_dir (p : path) : io (result unit io_error) :=
  atomic (λ fs, if exists_ fs p then (Ok tt, fs) else (Err not_found, fs)).

(** [file.write_all(b).and_then(|()| file.sync_all())] *)
Definition write_all_sync (p : path) (b : bytes) : io (result unit io_error) :=
  let? _ := write_all p b in sync_all.

(** [fs::create_dir_all]: creates the missing directories from the root down. *)
Fixpoint create_dirs (done rest : path) : io (result unit io_error) :=
  match rest with
  | [] => ret (Ok tt)
  | c :: rest' =>
      let p := join done c in
      let* present := query (λ fs, is_dir fs p) in
      if (present : bool) then create_dirs p rest'
      else let? _ := create_dir p in create_dirs p rest'
  end.

Definition create_dir_all (p : path) : io (result unit io_error) := create_dirs [] p.

(** [OpenOptions::new().create(true).write(true).open(p)]: keeps a file that is there. *)
Definition do_open_create (mode : Z) (p : path) (fs : fsys) : result unit io_error * fsys :=
  match fs !! p with
  | Some (NFile _ _) => (Ok tt, fs)
  | Some NDir => (Err is_a_directory, fs)
  | None => do_open_new mode p fs
  end.

Definition open_create (mode : Z) (p : path) : io (result unit io_error) :=
  let* u := get_umask in
  atomic (do_open_create (Z.land mode (Z.lnot u)) p).

(** [file.set_len(0)] *)
Definition set_len_zero (p : path) : io (result unit io_error) :=
  atomic (λ fs, (Ok tt, set_content p [] fs)).

(** [fs::write(p, b)]: creates or truncates the file, then writes it. *)
Definition write_file (mode : Z) (p : path) (b : bytes) : io (result unit io_error) :=
  let* u := get_umask in
  let? _ := atomic (λ fs,
    match do_open_create (Z.land mode (Z.lnot u)) p fs with
    | (Ok _, fs') => (Ok tt, set_content p [] fs')
    | (Err e, fs') => (Err e, fs')
    end) in
  write_all p b.

(** [fs::symlink_metadata(p)], for whether something is there. *)
Definition metadata (p : path) : io (result unit io_error) :=
  atomic (λ fs, (match fs !! p with Some _ => Ok tt | None => Err not_found end, fs)).

(** The entries at and below a directory, the deepest first. *)
Definition deeper (k k' : path) : Prop := length k' ≤ length k.

#[global] Instance deeper_dec k k' : Decision (deeper k k').
Proof. apply Nat.le_dec. Defined.

Definition tree_paths (p : path) (fs : fsys) : list path :=
  if is_dir fs p then merge_sort deeper (filter (λ k, p `prefix_of` k) (map_to_list fs).*1)
  else [].

Definition remove_paths (ks : list path) (fs : fsys) : fsys := foldr delete fs ks.

(** [fs::remove_dir_all(p)]: a fault leaves the entries it did not reach. *)
Definition remove_dir_all (p : path) : io (result unit io_error) :=
  syscall
    (λ fs, match fs !! p with
           | Some NDir => (Ok tt, remove_paths (tree_paths p fs) fs)
           | Some (NFile _ _) => (Err not_a_directory, fs)
           | None => (Err not_found, fs)
           end)
    (λ n fs, remove_paths (take n (tree_paths p fs)) fs).

(** ** Reasoning about computations

    [wp m c fs Q C] holds when [c], started on [fs], either returns with [Q] or
    dies in a file system that satisfies [C], under every schedule of faults
    the mode [m] admits: none at all ([Calm]), only crashes ([CrashOnly]), or
    any mix of I/O errors, partial effects and crashes ([Hostile]). *)

Inductive mode : Type := Calm | CrashOnly | Hostile.

Definition errors (m : mode) : bool := match m with Hostile => true | _ => false end.
Definition crashes (m : mode) : bool := match m with Calm => false | _ => true end.

Definition is_io_fail (f : fault) : bool := match f with IoFail _ _ => true | _ => false end.

Definition schedule_ok (m : mode) (fl : list fault) : Prop :=
  match m with
  | Calm => fl = []
  | CrashOnly => Forall (λ f, is_io_fail f = false) fl
  | Hostile => True
  end.

Definition wp {A} (m : mode) (c : io A) (fs : fsys)
    (Q : A → fsys → Prop) (C : fsys → Prop) : Prop :=
  ∀ w, schedule_ok m (w_faults w) → w_fs w = fs →
    match c w with
    | (Some a, w') => schedule_ok m (w_faults w') ∧ Q a (w_fs w')
    | (None, w') => crashes m = true ∧ C (w_fs w')
    end.

(** A process that starts on [fs] and meets no fault. *)
Definition fresh (fs : fsys) (umask : Z) : world := World fs [] umask.

Section rules.
Context (b : mode).
Implicit Types (fs : fsys) (C : fsys → Prop).

Lemma wp_ret {A} (a : A) fs (Q : A → fsys → Prop) C : Q a fs → wp b (ret a) fs Q C.
Proof. intros HQ w Hs <-. by split. Qed.

Lemma wp_bind {A B} (c : io A) (k : A → io B) fs Q C :
  wp b c fs (λ a fs', wp b (k a) fs' Q C) C → wp b (bind c k) fs Q C.
Proof.
  intros Hc w Hs Hfs. specialize (Hc w Hs Hfs). unfold bind.
  destruct (c w) as [[a|] w']; [|done]. destruct Hc as [Hs' Hk]. by apply Hk.
Qed.

Lemma wp_try {A B E} (c : io (result A E)) (k : A → io (result B E)) fs Q C :
  wp b c fs (λ r fs', match r with
                      | Ok a => wp b (k a) fs' Q C
                      | Err e => Q (Err e) fs'
                      end) C →
  wp b (try_bind c k) fs Q C.
Proof.
  intros Hc. apply (wp_bind c). intros w Hs Hfs. specialize (Hc w Hs Hfs).
  destruct (c w) as [[[a|e]|] w']; [done| |done].
  destruct Hc as [? HQ]. split; [done|]. by apply wp_ret.
Qed.

Lemma wp_mono {A} (c : io A) fs (Q Q' : A → fsys → Prop) C C' :
  wp b c fs Q C →
  (∀ a fs', Q a fs' → Q' a fs') → (∀ fs', C fs' → C' fs') →
  wp b c fs Q' C'.
Proof.
  intros Hc HQ HC w Hs Hfs. specialize (Hc w Hs Hfs).
  destruct (c w) as [[a|] w']; naive_solver.
Qed.

Lemma wp_query {A} (q : fsys → A) fs (Q : A → fsys → Prop) C :
  Q (q fs) fs → wp b (query q) fs Q C.
Proof. intros HQ w Hs <-. by split. Qed.

Lemma wp_umask fs (Q : Z → fsys → Prop) C : (∀ u, Q u fs) → wp b get_umask fs Q C.
Proof. intros HQ w Hs <-. by split. Qed.

Lemma wp_syscall {A} (op : fsys → result A io_error * fsys) (torn : nat → fsys → fsys) fs
    (Q : result A io_error → fsys → Prop) C :
  Q (op fs).1 (op fs).2 →
  (errors b = true → ∀ n text, Q (Err (IoError OtherKind text)) (torn n fs)) →
  (crashes b = true → ∀ n, C (torn n fs)) →
  wp b (syscall op torn) fs Q C.
Proof.
  intros HQ HE HC w Hs <-. unfold syscall.
  destruct (w_faults w) as [|f fl] eqn:Hfl; simpl.
  - destruct (op (w_fs w)) as [r fs']. by split.
  - assert (schedule_ok b fl) as Hs'.
    { destruct b; simpl in *; [done|by inversion Hs|done]. }
    destruct f; simpl.
    + destruct (op (w_fs w)) as [r fs']. by split.
    + split; [done|]. apply HE. destruct b; [done| |done]. by inversion Hs.
    + assert (crashes b = true) by by destruct b. split; [done|by apply HC].
Qed.

Lemma wp_atomic {A} (op : fsys → result A io_error * fsys) r fs' fs
    (Q : result A io_error → fsys → Prop) C :
  op fs = (r, fs') →
  Q r fs' →
  (errors b = true → ∀ text, Q (Err (IoError OtherKind text)) fs) →
  (crashes b = true → C fs) →
  wp b (atomic op) fs Q C.
Proof. intros Hop HQ HE HC. apply wp_syscall; rewrite ?Hop; eauto. Qed.

(** Without faults a computation returns, and returns what [Q] says. *)
Lemma wp_returns {A} (c : io A) fs (Q : A → fsys → Prop) C u :
  wp Calm c fs Q C → ∃ a w', c (fresh fs u) = (Some a, w') ∧ Q a (w_fs w').
Proof.
  intros Hc. specialize (Hc (fresh fs u) ltac:(done) eq_refl).
  destruct (c (fresh fs u)) as [[a|] w']; naive_solver.
Qed.
End rules.

Lemma wp_map_err {A E F} b (f : E → F) (c : io (result A E)) fs Q C :
  wp b c fs (λ r, Q (map_err f r)) C → wp b (io_map_err f c) fs Q C.
Proof. intros Hc. apply wp_bind. eapply wp_mono; [exact Hc| |done]. intros. by apply wp_ret. Qed.

Lemma wp_and {A} m (c : io A) fs (Q1 Q2 : A → fsys → Prop) C1 C2 :
  wp m c fs Q1 C1 → wp m c fs Q2 C2 →
  wp m c fs (λ a fs', Q1 a fs' ∧ Q2 a fs') (λ fs', C1 fs' ∧ C2 fs').
Proof.
  intros Hc1 Hc2 w Hs Hfs. specialize (Hc1 w Hs Hfs). specialize (Hc2 w Hs Hfs).
  destruct (c w) as [[a|] w']; naive_solver.
Qed.

(** ** Lemmas on paths and files *)

Lemma join_inj p n n' : join p n = join p n' → n = n'.
Proof. unfold join. intros Heq%app_inj_2; naive_solver. Qed.

Lemma parent_join p n : parent (join p n) = p.
Proof. unfold parent, join. apply removelast_last. Qed.

Lemma content_Some fs p b : content fs p = Some b ↔ ∃ m, fs !! p = Some (NFile m b).
Proof. unfold content. destruct (fs !! p) as [[]|]; naive_solver. Qed.

Lemma exists_true fs p : exists_ fs p = true ↔ is_Some (fs !! p).
Proof. unfold exists_, is_Some. destruct (fs !! p); naive_solver. Qed.

Lemma exists_false fs p : exists_ fs p = false ↔ fs !! p = None.
Proof. unfold exists_. destruct (fs !! p); naive_solver. Qed.

Lemma is_dir_true fs p : is_dir fs p = true ↔ fs !! p = Some NDir.
Proof. unfold is_dir. destruct (fs !! p) as [[]|]; naive_solver. Qed.

Lemma is_dir_false_cases fs p :
  is_dir fs p = false → fs !! p = None ∨ ∃ m b, fs !! p = Some (NFile m b).
Proof. unfold is_dir. destruct (fs !! p) as [[]|]; naive_solver. Qed.

(** [fs'] agrees with [fs] on every path outside [ps]. *)
Definition same_except (ps : list path) (fs fs' : fsys) : Prop :=
  ∀ p, p ∉ ps → fs' !! p = fs !! p.

Lemma same_except_refl ps fs : same_except ps fs fs.
Proof. by intros p Hp. Qed.

Lemma same_except_trans ps fs1 fs2 fs3 :
  same_except ps fs1 fs2 → same_except ps fs2 fs3 → same_except ps fs1 fs3.
Proof. intros H1 H2 p Hp. by rewrite H2, H1. Qed.

Lemma same_except_mono ps ps' fs fs' :
  ps ⊆ ps' → same_except ps fs fs' → same_except ps' fs fs'.
Proof. intros Hsub H p Hp. apply H. set_solver. Qed.

Lemma same_except_insert ps fs fs' p n :
  p ∈ ps → same_except ps fs fs' → same_except ps fs (<[p := n]> fs').
Proof. intros Hin H q Hq. rewrite lookup_insert_ne by set_solver. by apply H. Qed.

Lemma same_except_delete ps fs fs' p :
  p ∈ ps → same_except ps fs fs' → same_except ps fs (delete p fs').
Proof. intros Hin H q Hq. rewrite lookup_delete_ne by set_solver. by apply H. Qed.

(** Changes of single entries stay within the listed paths. *)
#[export] Hint Resolve same_except_refl same_except_insert same_except_delete : nostdb.
#[export] Hint Extern 2 (_ ∈ _ :: _) => set_solver : nostdb.

Ltac frame :=
  repeat first
    [ assumption
    | apply same_except_refl
    | apply same_except_insert; [set_solver|]
    | apply same_except_delete; [set_solver|] ].

(** The named paths below a data directory are told apart by their components. *)
Ltac path_ne :=
  first
    [ done
    | let Heq := fresh in
      intros Heq; unfold join in Heq; rewrite <-?app_assoc in Heq; simpl in Heq;
      first [ apply app_inv_head in Heq; first [congruence | cbv in Heq; congruence]
            | apply (f_equal (@length string)) in Heq; rewrite ?length_app in Heq;
              simpl in Heq; lia ] ].

(** Evaluates lookups of named paths in updated file systems. *)
Ltac fs_simpl :=
  repeat first
    [ rewrite lookup_insert_eq | rewrite lookup_delete_eq
    | rewrite lookup_insert_ne by path_ne | rewrite lookup_delete_ne by path_ne ].

(** ** Rules for single calls *)

Section calls.
Context (b : mode).
Implicit Types (fs : fsys) (C : fsys → Prop).

Lemma wp_remove_file p m c fs (Q : result unit io_error → fsys → Prop) C :
  fs !! p = Some (NFile m c) →
  Q (Ok tt) (delete p fs) →
  (errors b = true → ∀ text, Q (Err (IoError OtherKind text)) fs) →
  (crashes b = true → C fs) →
  wp b (remove_file p) fs Q C.
Proof. intros Hp HQ HE HC. eapply wp_atomic; eauto. unfold do_remove_file. by rewrite Hp. Qed.

Lemma wp_remove_absent p fs (Q : result unit io_error → fsys → Prop) C :
  fs !! p = None →
  Q (Err not_found) fs →
  (errors b = true → ∀ text, Q (Err (IoError OtherKind text)) fs) →
  (crashes b = true → C fs) →
  wp b (remove_file p) fs Q C.
Proof. intros Hp HQ HE HC. eapply wp_atomic; eauto. unfold do_remove_file. by rewrite Hp. Qed.

Lemma wp_rename_file p q m c fs (Q : result unit io_error → fsys → Prop) C :
  fs !! p = Some (NFile m c) → is_dir fs q = false → fs !! parent q = Some NDir →
  Q (Ok tt) (<[q := NFile m c]> (delete p fs)) →
  (errors b = true → ∀ text, Q (Err (IoError OtherKind text)) fs) →
  (crashes b = true → C fs) →
  wp b (rename p q) fs Q C.
Proof.
  intros Hp Hq Hd HQ HE HC. eapply wp_atomic; eauto. unfold do_rename.
  rewrite Hp, Hq. by rewrite (proj2 (is_dir_true _ _) Hd).
Qed.

Lemma wp_rename_absent p q fs (Q : result unit io_error → fsys → Prop) C :
  fs !! p = None →
  Q (Err not_found) fs →
  (errors b = true → ∀ text, Q (Err (IoError OtherKind text)) fs) →
  (crashes b = true → C fs) →
  wp b (rename p q) fs Q C.
Proof. intros Hp HQ HE HC. eapply wp_atomic; eauto. unfold do_rename. by rewrite Hp. Qed.

Lemma wp_read_file p c fs (Q : result bytes io_error → fsys → Prop) C :
  content fs p = Some c →
  Q (Ok c) fs →
  (errors b = true → ∀ text, Q (Err (IoError OtherKind text)) fs) →
  (crashes b = true → C fs) →
  wp b (read p) fs Q C.
Proof.
  intros [m Hp]%content_Some HQ HE HC. eapply wp_atomic; eauto. unfold do_read. by rewrite Hp.
Qed.

Lemma wp_sync_dir p fs (Q : result unit io_error → fsys → Prop) C :
  fs !! p = Some NDir →
  Q (Ok tt) fs →
  (errors b = true → ∀ text, Q (Err (IoError OtherKind text)) fs) →
  (crashes b = true → C fs) →
  wp b (sync_dir p) fs Q C.
Proof.
  intros Hp HQ HE HC. eapply wp_atomic; eauto.
  unfold exists_. by rewrite Hp.
Qed.

(** Creating a new file and writing it out: on success the whole content is
    there, on a fault the file is absent or holds a prefix. *)
Lemma wp_open_new p mode fs (Q : result unit io_error → fsys → Prop) C :
  fs !! p = None → fs !! parent p = Some NDir →
  (∀ u, Q (Ok tt) (<[p := NFile (Z.land mode (Z.lnot u)) []]> fs)) →
  (errors b = true → ∀ text, Q (Err (IoError OtherKind text)) fs) →
  (crashes b = true → C fs) →
  wp b (open_new mode p) fs Q C.
Proof.
  intros Hp Hd HQ HE HC. apply wp_bind, wp_umask. intros u.
  eapply wp_atomic; eauto.
  unfold do_open_new. rewrite (proj2 (exists_false _ _) Hp).
  by rewrite (proj2 (is_dir_true _ _) Hd).
Qed.

Lemma wp_write_all_sync p m old new fs (Q : result unit io_error → fsys → Prop) C :
  fs !! p = Some (NFile m old) →
  Q (Ok tt) (<[p := NFile m new]> fs) →
  (errors b = true → ∀ n text, Q (Err (IoError OtherKind text)) (<[p := NFile m (take n new)]> fs)) →
  (crashes b = true → ∀ n, C (<[p := NFile m (take n new)]> fs)) →
  wp b (write_all_sync p new) fs Q C.
Proof.
  intros Hp HQ HE HC.
  assert (∀ c, set_content p c fs = <[p := NFile m c]> fs) as Hset.
  { intros c. unfold set_content. by rewrite Hp. }
  apply wp_try, wp_syscall; simpl; rewrite ?Hset.
  - apply wp_syscall; simpl; [done|intros; rewrite <-(firstn_all new); by apply HE|].
    intros ? _. rewrite <-(firstn_all new). by apply HC.
  - intros ? n text. rewrite Hset. by apply HE.
  - intros ? n. rewrite Hset. by apply HC.
Qed.
End calls.

(** ** Moving a directory tree *)

(** Nothing at [p] or below it. *)
Definition vacant (fs : fsys) (p : path) : Prop := ∀ s, fs !! (p ++ s) = None.

Lemma vacant_lookup fs p k : vacant fs p → p `prefix_of` k → fs !! k = None.
Proof. intros Hv [s ->]. apply Hv. Qed.

Definition rebase (p q k : path) : path :=
  match strip_prefix p k with Some s => q ++ s | None => k end.

Lemma rebase_app p q s : rebase p q (p ++ s) = q ++ s.
Proof. unfold rebase. by rewrite strip_prefix_app. Qed.

Lemma rebase_other p q k : ¬ p `prefix_of` k → rebase p q k = k.
Proof. intros Hk. unfold rebase. by apply strip_prefix_None in Hk as ->. Qed.

Lemma rebase_cases p q k :
  (∃ s, k = p ++ s ∧ rebase p q k = q ++ s) ∨ (¬ p `prefix_of` k ∧ rebase p q k = k).
Proof.
  destruct (decide (p `prefix_of` k)) as [[s ->]|Hn].
  - left. exists s. by rewrite rebase_app.
  - right. by rewrite rebase_other.
Qed.

Lemma move_tree_eq p q fs :
  move_tree p q fs = list_to_map ((λ '(k, n), (rebase p q k, n)) <$> map_to_list fs).
Proof. done. Qed.

Section moving.
Context (p q : path) (fs : fsys).
Context (Hq : vacant fs q).

Lemma move_tree_keys :
  NoDup ((λ '(k, n), (rebase p q k, n)) <$> map_to_list fs).*1.
Proof.
  rewrite <-list_fmap_compose.
  rewrite (list_fmap_ext _ (rebase p q ∘ fst)) by (by intros ? [? ?]).
  rewrite list_fmap_compose. apply NoDup_fmap_2_strong; [|apply NoDup_fst_map_to_list].
  intros k1 k2 ([? n1] & -> & H1%elem_of_map_to_list)%list_elem_of_fmap
    ([? n2] & -> & H2%elem_of_map_to_list)%list_elem_of_fmap Heq; simpl in *.
  destruct (rebase_cases p q l) as [(s1 & -> & E1)|[N1 E1]];
    destruct (rebase_cases p q l0) as [(s2 & -> & E2)|[N2 E2]];
    rewrite E1, E2 in Heq; subst; try done.
  - by apply app_inv_head in Heq as ->.
  - by rewrite Hq in H2.
  - by rewrite Hq in H1.
Qed.

Lemma move_tree_Some k n :
  move_tree p q fs !! k = Some n ↔ ∃ k0, fs !! k0 = Some n ∧ k = rebase p q k0.
Proof.
  rewrite move_tree_eq, <-elem_of_list_to_map by apply move_tree_keys.
  rewrite list_elem_of_fmap. split.
  - intros ([k0 n0] & [= -> ->] & Hk%elem_of_map_to_list). eauto.
  - intros (k0 & Hk & ->). exists (k0, n). split; [done|]. by apply elem_of_map_to_list.
Qed.

(** The tree is found at its new place, ... *)
Lemma move_tree_new s : move_tree p q fs !! (q ++ s) = fs !! (p ++ s).
Proof.
  apply option_eq. intros n. rewrite move_tree_Some. split.
  - intros (k0 & Hk & Heq).
    destruct (rebase_cases p q k0) as [(s' & -> & E)|[Hn E]]; rewrite E in Heq.
    + by apply app_inv_head in Heq as ->.
    + subst. by rewrite Hq in Hk.
  - intros Hk. exists (p ++ s). by rewrite rebase_app.
Qed.

(** ... is gone from the old one, ... *)
Lemma move_tree_old s : ¬ q `prefix_of` (p ++ s) → move_tree p q fs !! (p ++ s) = None.
Proof.
  intros Hn. apply eq_None_not_Some. intros [n (k0 & Hk & Heq)%move_tree_Some].
  destruct (rebase_cases p q k0) as [(s' & -> & E)|[Hn' E]]; rewrite E in Heq.
  - apply Hn. exists s'. done.
  - subst. apply Hn'. by exists s.
Qed.

(** ... and everything else is as before. *)
Lemma move_tree_other k :
  ¬ p `prefix_of` k → ¬ q `prefix_of` k → move_tree p q fs !! k = fs !! k.
Proof.
  intros Hp Hnq. apply option_eq. intros n. rewrite move_tree_Some. split.
  - intros (k0 & Hk & Heq).
    destruct (rebase_cases p q k0) as [(s' & -> & E)|[Hn E]]; rewrite E in Heq; subst.
    + destruct Hnq. by exists s'.
    + done.
  - intros Hk. exists k. by rewrite rebase_other.
Qed.
End moving.

Lemma vacant_nothing_below fs q : vacant fs q → nothing_below fs q.
Proof. intros Hv k n Hk [[s ->] _]. by rewrite Hv in Hk. Qed.

Lemma wp_rename_dir (b : mode) p q fs (Q : result unit io_error → fsys → Prop) C :
  fs !! p = Some NDir → ¬ p `prefix_of` q → vacant fs q → fs !! parent q = Some NDir →
  Q (Ok tt) (move_tree p q fs) →
  (errors b = true → ∀ text, Q (Err (IoError OtherKind text)) fs) →
  (crashes b = true → C fs) →
  wp b (rename p q) fs Q C.
Proof.
  intros Hp Hpq Hv Hd HQ HE HC. eapply wp_atomic; eauto.
  pose proof (Hv []) as Hq. rewrite app_nil_r in Hq.
  unfold do_rename. rewrite Hp, decide_False by done.
  unfold is_file. rewrite Hq, decide_True by by apply vacant_nothing_below.
  rewrite (proj2 (is_dir_true _ _) Hd). by rewrite delete_id.
Qed.

(** ** Directory listings *)

Lemma elem_of_children fs p n : n ∈ children fs p ↔ is_Some (fs !! join p n).
Proof.
  unfold children. rewrite list_elem_of_omap. split.
  - intros ([q x] & Hq%elem_of_map_to_list & Hs).
    destruct (strip_prefix p q) as [[|a [|]]|] eqn:Hp; simplify_eq.
    apply strip_prefix_Some in Hp as ->. eauto.
  - intros [x Hx]. exists (join p n, x). split; [by apply elem_of_map_to_list|].
    unfold join. by rewrite strip_prefix_app.
Qed.

Lemma NoDup_omap_inj {A B} (f : A → option B) (l : list A) :
  (∀ x y z, x ∈ l → y ∈ l → f x = Some z → f y = Some z → x = y) →
  NoDup l → NoDup (omap f l).
Proof.
  intros Hinj Hnd. induction Hnd as [|x l Hx Hnd IH]; [constructor|].
  simpl. destruct (f x) as [z|] eqn:Hfx; [|apply IH; set_solver].
  constructor; [|apply IH; set_solver].
  intros (y & Hy & Hfy)%list_elem_of_omap. apply Hx.
  rewrite (Hinj x y z); [done|set_solver..|done|done].
Qed.

Lemma NoDup_children fs p : NoDup (children fs p).
Proof.
  apply NoDup_omap_inj; [|apply NoDup_map_to_list].
  intros [q1 x1] [q2 x2] n H1%elem_of_map_to_list H2%elem_of_map_to_list E1 E2.
  destruct (strip_prefix p q1) as [[|a1 [|]]|] eqn:Hp1; simplify_eq.
  destruct (strip_prefix p q2) as [[|a2 [|]]|] eqn:Hp2; simplify_eq.
  apply strip_prefix_Some in Hp1 as ->. apply strip_prefix_Some in Hp2 as ->.
  by simplify_eq.
Qed.

(** ** Changes below a directory *)

(** [fs'] agrees with [fs] outside the trees below [ps]. *)
Definition same_outside (ps : list path) (fs fs' : fsys) : Prop :=
  ∀ k, (∀ p, p ∈ ps → ¬ p `prefix_of` k) → fs' !! k = fs !! k.

Lemma same_outside_move p q fs :
  vacant fs q → same_outside [p; q] fs (move_tree p q fs).
Proof. intros Hq k Hk. apply move_tree_other; [done|apply Hk; set_solver..]. Qed.

Lemma same_outside_rename_file p q m c fs :
  same_outside [p; q] fs (<[q := NFile m c]> (delete p fs)).
Proof.
  intros k Hk. rewrite lookup_insert_ne, lookup_delete_ne; [done|..]; intros <-;
    [apply (Hk p)|apply (Hk q)]; (done || set_solver).
Qed.

Lemma same_outside_trans ps fs1 fs2 fs3 :
  same_outside ps fs1 fs2 → same_outside ps fs2 fs3 → same_outside ps fs1 fs3.
Proof. intros Hfs1 Hfs2 k Hk. by rewrite Hfs2, Hfs1. Qed.

Lemma same_outside_mono ps ps' fs fs' : ps ⊆ ps' → same_outside ps fs fs' → same_outside ps' fs fs'.
Proof. intros Hps Hs k Hk. apply Hs. intros p Hp. by apply Hk, Hps. Qed.

Lemma same_except_outside ps ps' fs fs' : ps ⊆ ps' → same_except ps fs fs' → same_outside ps' fs fs'.
Proof. intros Hps Hs k Hk. apply Hs. intros Hin. by apply (Hk k); [apply Hps|]. Qed.

Lemma same_outside_refl ps fs : same_outside ps fs fs.
Proof. by intros k _. Qed.

Lemma same_outside_insert p ps fs k n :
  p ∈ ps → p `prefix_of` k → same_outside ps fs (<[k := n]> fs).
Proof. intros Hp Hk k' Hk'. rewrite lookup_insert_ne; [done|]. intros <-. by apply (Hk' p). Qed.

Lemma same_outside_lookup q fs fs' k : same_outside [q] fs fs' → ¬ q `prefix_of` k → fs' !! k = fs !! k.
Proof. intros Hs Hk. apply Hs. by intros p ->%list_elem_of_singleton. Qed.

#[export] Hint Resolve same_outside_refl : nostdb.

(** Every directory above [p] is there. *)
Definition grounded (fs : fsys) (p : path) : Prop :=
  ∀ k, k ≠ [] → k `prefix_of` p → k ≠ p → fs !! k = Some NDir.

Lemma grounded_below q fs fs' : same_outside [q] fs fs' → grounded fs q → grounded fs' q.
Proof.
  intros Hs Hg k Hk Hpre Hne. rewrite (same_outside_lookup q fs); [by apply Hg|done|].
  intros Hq. apply Hne. by apply (anti_symm prefix).
Qed.

Lemma grounded_join fs g n : fs !! g = Some NDir → grounded fs g → grounded fs (join g n).
Proof.
  intros Hg Hgr k Hk Hpre Hne. destruct (decide (k = g)) as [->|Hng]; [done|]. apply Hgr; [done| |done].
  unfold join in *. destruct Hpre as [k' Hk']. destruct k' as [|x k' _] using rev_ind.
  - rewrite app_nil_r in Hk'. by subst.
  - rewrite app_assoc in Hk'. apply app_inj_tail in Hk' as [-> _]. by apply prefix_app_r.
Qed.

Section below.
Context (b : mode).
Implicit Types (fs : fsys) (C : fsys → Prop).

(** [create_dir_all] creates missing directories on the way and nothing else. *)
Definition adds_directories (p : path) (fs fs' : fsys) : Prop :=
  ∀ k, fs' !! k = fs !! k ∨ (k ≠ [] ∧ k `prefix_of` p ∧ fs !! k = None ∧ fs' !! k = Some NDir).

Lemma adds_directories_trans p fs1 fs2 fs3 :
  adds_directories p fs1 fs2 → adds_directories p fs2 fs3 → adds_directories p fs1 fs3.
Proof.
  intros H1 H2 k. destruct (H2 k) as [->|(? & ? & Hn & ?)]; [apply H1|].
  destruct (H1 k) as [Heq|(_ & _ & _ & ?)]; [|congruence]. right. rewrite <-Heq. done.
Qed.

Lemma wp_create_dirs_adds acc rest fs :
  wp b (create_dirs acc rest) fs
    (λ _, adds_directories (acc ++ rest) fs) (adds_directories (acc ++ rest) fs).
Proof.
  assert (∀ p fs, adds_directories p fs fs) as Hrefl by (by left).
  revert acc fs. induction rest as [|c rest IH]; intros acc fs; simpl; [by apply wp_ret|].
  assert (acc ++ c :: rest = join acc c ++ rest) as -> by (unfold join; by rewrite <-app_assoc).
  apply wp_bind, wp_query. destruct (is_dir fs (join acc c)); [apply IH|].
  apply wp_try, wp_syscall; [|done|done]. unfold do_create_dir, exists_.
  destruct (fs !! join acc c) as [n|] eqn:Hc; simpl; [done|].
  destruct (is_dir fs (parent (join acc c))); simpl; [|done].
  assert (adds_directories (join acc c ++ rest) fs (<[join acc c:=NDir]> fs)) as Hadd.
  { intros k. destruct (decide (k = join acc c)) as [->|];
      [right; rewrite lookup_insert_eq|left; by rewrite lookup_insert_ne].
    split_and!; [by destruct acc|by apply prefix_app_r|done|done]. }
  eapply wp_mono; [apply IH| |]; intros; by eapply adds_directories_trans.
Qed.

Lemma wp_create_dir_all_adds p fs :
  wp b (create_dir_all p) fs (λ _, adds_directories p fs) (adds_directories p fs).
Proof. apply (wp_create_dirs_adds []). Qed.

(** Below grounded directories only the tree is touched. *)
Lemma adds_directories_below q p fs fs' :
  grounded fs q → q `prefix_of` p → adds_directories p fs fs' → same_outside [q] fs fs'.
Proof.
  intros Hg Hq Ha k Hk. specialize (Hk q ltac:(by left)).
  destruct (Ha k) as [|(Hne & Hp & Hn & _)]; [done|]. exfalso.
  destruct (prefix_weak_total k q p) as [Hkq|?]; [done|done| |done].
  rewrite (Hg k) in Hn; [done|done|done|]. by intros ->.
Qed.

Lemma adds_directories_content p fs fs' k :
  adds_directories p fs fs' → content fs' k = content fs k.
Proof.
  intros Ha. unfold content. destruct (Ha k) as [->|(_ & _ & -> & ->)]; done.
Qed.

Lemma set_content_except p c fs : same_except [p] fs (set_content p c fs).
Proof. unfold set_content. repeat case_match; auto with nostdb. Qed.

Lemma open_create_except mode p fs : same_except [p] fs (do_open_create mode p fs).2.
Proof.
  unfold do_open_create, do_open_new. repeat case_match; simpl; auto with nostdb.
Qed.

(** [fs::write] changes its file only, and leaves the content when it succeeds. *)
Lemma wp_write_file mode p c fs :
  wp b (write_file mode p c) fs
    (λ r fs', same_except [p] fs fs' ∧ (r = Ok tt → content fs' p = Some c))
    (same_except [p] fs).
Proof.
  apply wp_bind, wp_umask. intros u.
  apply wp_try, wp_syscall; [|intros; split; [auto with nostdb|done]|auto with nostdb].
  pose proof (open_create_except (Z.land mode (Z.lnot u)) p fs) as Hopen.
  assert (∀ e fs', do_open_create (Z.land mode (Z.lnot u)) p fs = (Ok e, fs') → is_file fs' p = true)
    as Hfile.
  { unfold do_open_create, do_open_new, is_file. intros e fs'.
    destruct (fs !! p) as [[]|] eqn:Hp; simpl; intros Heq; simplify_eq; [by rewrite Hp|].
    unfold exists_ in Heq. rewrite Hp in Heq. case_match; simplify_eq. by rewrite lookup_insert_eq. }
  destruct (do_open_create (Z.land mode (Z.lnot u)) p fs) as [[[]|e] fs1] eqn:Ho; simpl; [|by split].
  specialize (Hfile _ _ eq_refl). simpl in Hopen.
  assert (∀ c', same_except [p] fs (set_content p c' (set_content p [] fs1))) as Hset.
  { intros c'. eapply same_except_trans; [|apply set_content_except].
    eapply same_except_trans; [exact Hopen|apply set_content_except]. }
  apply wp_syscall; simpl; [split; [apply Hset|]|intros _ n text; split; [apply Hset|done]|].
  - intros _. unfold is_file in Hfile. unfold set_content, content.
    destruct (fs1 !! p) as [[m c0|]|]; [|done..]. by rewrite !lookup_insert_eq.
  - intros _ n. apply Hset.
Qed.

Lemma same_except_below q p fs fs' : q `prefix_of` p → same_except [p] fs fs' → same_outside [q] fs fs'.
Proof.
  intros Hq Hs k Hk. apply Hs. intros ->%list_elem_of_singleton. by apply (Hk q); [left|].
Qed.

Lemma remove_paths_below q ks fs :
  Forall (prefix q) ks → same_outside [q] fs (remove_paths ks fs).
Proof.
  intros Hks k Hk. induction Hks as [|k' ks Hk' _ IH]; simpl; [done|].
  rewrite lookup_delete_ne; [done|]. intros ->. by apply (Hk q); [left|].
Qed.

Lemma tree_paths_below q fs : Forall (prefix q) (tree_paths q fs).
Proof.
  unfold tree_paths. destruct (is_dir fs q); [|done]. rewrite merge_sort_Permutation.
  apply Forall_forall. intros k Hk. by apply list_elem_of_filter in Hk as [? _].
Qed.

Lemma wp_remove_dir_all q fs :
  wp b (remove_dir_all q) fs (λ _, same_outside [q] fs) (same_outside [q] fs).
Proof.
  pose proof (tree_paths_below q fs) as Hall.
  apply wp_syscall.
  - destruct (fs !! q) as [[]|]; simpl; auto with nostdb. by apply remove_paths_below.
  - intros _ n _. by apply remove_paths_below, Forall_take.
  - intros _ n. by apply remove_paths_below, Forall_take.
Qed.
End below.
