(* ===== verification/Codec.v ===== *)
(** * JSON documents on disk

    [serde_json] is outside the repository.  What the code relies on is an
    interface: a class of encoders with the documented behaviour of
    [to_vec_pretty] and [from_slice], and a concrete codec that shows the
    interface can be met. *)

From stdpp Require Import base list strings countable.
From Stdlib Require Import Lia.
From S2P Require Import Prelude.

Class Json (A : Type) : Type := {
  to_vec_pretty : A → result bytes string;
  from_slice : bytes → result A string
}.

(** The derived serializers never fail on these types, decoding inverts
    encoding, trailing white space is ignored, and a document cut short does
    not parse (the closing brace of an object is its last byte). *)
Class JsonLaws (A : Type) `{Json A} : Prop := {
  json_encodes (a : A) : ∃ b, to_vec_pretty a = Ok b;
  json_round_trip (a : A) b : to_vec_pretty a = Ok b → from_slice b = Ok a;
  json_newline (a : A) b : to_vec_pretty a = Ok b → from_slice (b ++ [newline]) = Ok a;
  json_torn (a : A) b n :
    to_vec_pretty a = Ok b → n < length b → is_err (from_slice (A:=A) (take n b)) = true
}.

(** ** A concrete codec for countable types *)

Module Reference.

(** Bits as digits, closed by a brace. *)
Fixpoint encode_bits (p : positive) : bytes :=
  match p with
  | xH => [x7d]
  | xO p' => x30 :: encode_bits p'
  | xI p' => x31 :: encode_bits p'
  end.

Fixpoint decode_bits (b : bytes) : option (positive * bytes) :=
  match b with
  | x7d :: rest => Some (xH, rest)
  | x30 :: b' => match decode_bits b' with Some (p, r) => Some (xO p, r) | None => None end
  | x31 :: b' => match decode_bits b' with Some (p, r) => Some (xI p, r) | None => None end
  | _ => None
  end.

Definition decode_document {A} `{Countable A} (b : bytes) : result A string :=
  match decode_bits b with
  | Some (p, []) | Some (p, [x0a]) => ok_or (decode p) "invalid document"
  | _ => Err "invalid document"
  end.

Definition json {A} `{Countable A} : Json A := {|
  to_vec_pretty a := Ok (encode_bits (encode a));
  from_slice := decode_document
|}.

Lemma decode_encode_bits p rest : decode_bits (encode_bits p ++ rest) = Some (p, rest).
Proof. induction p as [p IH|p IH|]; simpl; by rewrite ?IH. Qed.

Lemma decode_bits_torn p n :
  n < length (encode_bits p) → decode_bits (take n (encode_bits p)) = None.
Proof.
  revert n. induction p as [p IH|p IH|]; intros [|n] Hn; simpl in *; try done.
  - rewrite IH; [done|lia].
  - rewrite IH; [done|lia].
  - lia.
Qed.

Lemma json_laws {A} `{Countable A} : @JsonLaws A json.
Proof.
  split; simpl.
  - intros a. by eexists.
  - intros a b [= <-]. unfold decode_document.
    rewrite <-(app_nil_r (encode_bits _)), decode_encode_bits. simpl. by rewrite decode_encode.
  - intros a b [= <-]. unfold decode_document. rewrite decode_encode_bits. simpl.
    by rewrite decode_encode.
  - intros a b n [= <-] Hn. unfold decode_document. by rewrite decode_bits_torn.
Qed.

End Reference.
