(* ===== verification/Catalog.v ===== *)
(** * The catalog store ([src/src/catalog.rs])

    The versioned catalog of managed Databases: its validation, the atomic
    replacement of its file, the journal of a lifecycle operation, and the
    recovery of both at start-up. *)

From Stdlib Require Import ZArith Lia Ascii.
From stdpp Require Import base list strings gmap.
From S2P Require Import Prelude Fs Codec.

Open Scope string_scope.
Open Scope list_scope.

(** [pub struct ServerError(String)] *)
Abbreviation ServerError := string.

(** [uuid::Uuid::parse_str], from the [uuid] crate. *)
Class Uuid : Type := { uuid_parse_ok : string → bool }.

Definition CATALOG_VERSION : Z := 1.
Definition OPERATION_VERSION : Z := 1.
Definition STATE_FILE : string := "server-state".
Definition PENDING_FILE : string := "server-state.pending".
Definition PREVIOUS_FILE : string := "server-state.previous".
Definition OPERATION_FILE : string := "server-operation".

(** ** Data *)

Record CatalogDatabase : Type := mkCatalogDatabase {
  id : string;
  name : string;
  state : string
}.

Record Catalog : Type := mkCatalog {
  catalog_version : Z;
  databases : list CatalogDatabase
}.

(** [nostdb_client::DatabaseSummary] *)
Record DatabaseSummary : Type := mkDatabaseSummary {
  summary_id : string;
  summary_name : string;
  summary_state : string
}.

Definition summary (d : CatalogDatabase) : DatabaseSummary :=
  mkDatabaseSummary (id d) (name d) (state d).

Inductive OperationKind : Type := Create | Rename | Drop.

Record OperationJournal : Type := mkOperationJournal {
  operation_version : Z;
  journal_kind : OperationKind;
  database_id : string;
  before : Catalog;
  after : Catalog
}.

Record CatalogStore : Type := mkCatalogStore {
  root : path;
  catalog : Catalog
}.

#[global] Instance CatalogDatabase_eq_dec : EqDecision CatalogDatabase.
Proof. solve_decision. Defined.
#[global] Instance Catalog_eq_dec : EqDecision Catalog.
Proof. solve_decision. Defined.
#[global] Instance OperationKind_eq_dec : EqDecision OperationKind.
Proof. solve_decision. Defined.
#[global] Instance OperationJournal_eq_dec : EqDecision OperationJournal.
Proof. solve_decision. Defined.
#[global] Instance DatabaseSummary_eq_dec : EqDecision DatabaseSummary.
Proof. solve_decision. Defined.

(** ** Validation *)

Definition is_ascii_lowercase (c : Ascii.ascii) : bool :=
  let n := Ascii.nat_of_ascii c in (97 <=? n)%nat && (n <=? 122)%nat.

Definition is_ascii_digit (c : Ascii.ascii) : bool :=
  let n := Ascii.nat_of_ascii c in (48 <=? n)%nat && (n <=? 57)%nat.

Definition name_byte (c : Ascii.ascii) : bool :=
  is_ascii_lowercase c || is_ascii_digit c
  || Ascii.eqb c "_"%char || Ascii.eqb c "-"%char.

(** [[a-z][a-z0-9_-]{0,62}] *)
Definition valid_database_name (value : string) : bool :=
  match String.list_ascii_of_string value with
  | [] => false
  | c :: _ as bs => (length bs <=? 63)%nat && is_ascii_lowercase c && forallb name_byte bs
  end.

(** [slice.windows(2).all(|pair| pair[0].name < pair[1].name)] *)
Fixpoint names_increasing (l : list CatalogDatabase) : bool :=
  match l with
  | d1 :: (d2 :: _) as l' => String.ltb (name d1) (name d2) && names_increasing l'
  | _ => true
  end.

Section validation.
Context `{Uuid}.

(** The loop over [catalog.databases]; [ids] and [names] are the two [BTreeSet]s. *)
Fixpoint validate_entries (l : list CatalogDatabase) (ids names : gset string)
    : result unit ServerError :=
  match l with
  | [] => Ok tt
  | d :: l' =>
      if negb (uuid_parse_ok (id d)) then
        Err ("catalog contains invalid stable Database ID `" +:+ id d +:+ "`")
      else if negb (valid_database_name (name d)) then
        Err ("catalog contains invalid Database name `" +:+ name d +:+ "`")
      else if negb (bool_decide (state d = "ready")) then
        Err ("catalog Database `" +:+ name d +:+ "` has unsupported state `" +:+ state d +:+ "`")
      else if bool_decide (id d ∈ ids) || bool_decide (name d ∈ names) then
        Err "catalog contains duplicate Database identity or name"
      else validate_entries l' ({[id d]} ∪ ids) ({[name d]} ∪ names)
  end.

Definition validate_catalog (c : Catalog) : result unit ServerError :=
  if negb (catalog_version c =? CATALOG_VERSION)%Z then
    Err ("unsupported catalog_version " +:+ show (catalog_version c)
         +:+ "; this binary supports exactly " +:+ show CATALOG_VERSION)
  else
    let^ _ := validate_entries (databases c) ∅ ∅ in
    if negb (names_increasing (databases c)) then
      Err "catalog Databases must be sorted by unique name"
    else Ok tt.
End validation.

(** ** Managed paths *)

Definition database_directory (root : path) (id : string) : path :=
  join (join root "databases") id.

Definition database_path (root : path) (id : string) : path :=
  join (database_directory root id) "database.nostdb".

Definition trash_directory (root : path) (id : string) : path :=
  join (join root "trash") id.

(** ** Durable files *)

Definition remove_if_exists (p : path) : io (result unit ServerError) :=
  let* r := remove_file p in
  match r with
  | Ok _ => ret (Ok tt)
  | Err e =>
      if decide (kind e = NotFound) then ret (Ok tt)
      else ret (Err ("cannot remove " +:+ display p +:+ ": " +:+ io_text e))
  end.

Definition sync_parent (root : path) : io (result unit ServerError) :=
  io_map_err (λ e, "cannot sync data directory: " +:+ io_text e) (sync_dir root).

(** The error path after a failed [write_all]/[sync_all]: the partial file is
    removed and the error says whether that worked. *)
Definition persist_failure (p : path) (e : io_error) : io (result unit ServerError) :=
  let* r := remove_file p in
  match r with
  | Ok _ => ret (Err ("cannot persist " +:+ display p +:+ ": " +:+ io_text e))
  | Err ce =>
      if decide (kind ce = NotFound) then
        ret (Err ("cannot persist " +:+ display p +:+ ": " +:+ io_text e))
      else
        ret (Err ("cannot persist " +:+ display p +:+ ": " +:+ io_text e
                  +:+ "; cannot remove partial file: " +:+ io_text ce))
  end.

(** Mode [0o666] before the umask: what [OpenOptions] asks for by default. *)
Definition default_mode : Z := 438.

Definition write_json_new `{Json A} (p : path) (value : A) : io (result unit ServerError) :=
  match to_vec_pretty value with
  | Err e => ret (Err ("cannot encode durable state: " +:+ e))
  | Ok b =>
      let* r := open_new default_mode p in
      match r with
      | Err e => ret (Err ("cannot create " +:+ display p +:+ ": " +:+ io_text e))
      | Ok _ =>
          let* r := write_all_sync p (b ++ [newline]) in
          match r with
          | Ok _ => ret (Ok tt)
          | Err e => persist_failure p e
          end
      end
  end.

Section store.
Context `{Uuid, !Json Catalog, !Json OperationJournal}.

Definition write_atomic (root : path) (c : Catalog) (create : bool)
    : io (result unit ServerError) :=
  let state := join root STATE_FILE in
  let pending := join root PENDING_FILE in
  let previous := join root PREVIOUS_FILE in
  let install :=
    let* r := rename pending state in
    match r with
    | Err e =>
        let* _ := remove_file pending in
        let* _ := (if create then ret (Ok tt) else rename previous state) in
        ret (Err ("cannot install catalog: " +:+ io_text e))
    | Ok _ =>
        let* r := sync_parent root in
        match r with
        | Err e =>
            let* _ := remove_file state in
            let* _ := (if create then ret (Ok tt)
                       else let* _ := rename previous state in sync_parent root) in
            ret (Err e)
        | Ok _ =>
            let* _ := remove_if_exists previous in
            ret (Ok tt)
        end
    end in
  let? _ := write_json_new pending c in
  if create then
    let* present := query (λ fs, exists_ fs state) in
    if (present : bool) then
      let* _ := remove_file pending in
      ret (Err "server-state already exists")
    else install
  else
    let? _ := remove_if_exists previous in
    let? _ := io_map_err (λ e, "cannot preserve previous catalog: " +:+ io_text e)
                (rename state previous) in
    install.

Definition read_catalog (p : path) : io (result Catalog ServerError) :=
  let? b := io_map_err (λ e, "cannot read catalog " +:+ display p +:+ ": " +:+ io_text e)
              (read p) in
  ret (map_err (λ e, "invalid catalog " +:+ display p +:+ ": " +:+ e) (from_slice b)).

(** *** Lifecycle transitions *)

Definition transition (store : CatalogStore) (next : Catalog) (k : OperationKind)
    (database_id : string) : io (result unit ServerError * CatalogStore) :=
  match validate_catalog next with
  | Err e => ret (Err e, store)
  | Ok _ =>
      let journal := mkOperationJournal OPERATION_VERSION k database_id (catalog store) next in
      let* r := write_json_new (join (root store) OPERATION_FILE) journal in
      match r with
      | Err e => ret (Err e, store)
      | Ok _ =>
          let* r := write_atomic (root store) next false in
          match r with
          | Err e =>
              let* _ := remove_file (join (root store) OPERATION_FILE) in
              ret (Err e, store)
          | Ok _ => ret (Ok tt, mkCatalogStore (root store) next)
          end
      end
  end.

Definition finish_transition (store : CatalogStore) : io (result unit ServerError) :=
  remove_if_exists (join (root store) OPERATION_FILE).

(** *** Recovery *)

Definition recover_atomic_state (root : path) : io (result unit ServerError) :=
  let state := join root STATE_FILE in
  let pending := join root PENDING_FILE in
  let previous := join root PREVIOUS_FILE in
  let? _ :=
    (let* lost := query (λ fs, negb (exists_ fs state) && exists_ fs previous) in
     if (lost : bool) then
       io_map_err (λ e, "cannot restore previous catalog: " +:+ io_text e)
         (rename previous state)
     else ret (Ok tt)) in
  let? _ :=
    (let* interrupted := query (λ fs, exists_ fs pending) in
     if (interrupted : bool) then
       let target := join (join root "recovery") "interrupted-catalog.pending" in
       let* kept := query (λ fs, exists_ fs target) in
       if (kept : bool) then
         ret (Err "multiple interrupted catalog writes require operator recovery")
       else
         io_map_err (λ e, "cannot preserve interrupted catalog: " +:+ io_text e)
           (rename pending target)
     else ret (Ok tt)) in
  let? _ :=
    (let* both := query (λ fs, exists_ fs state && exists_ fs previous) in
     if (both : bool) then
       let? _ := read_catalog state in
       remove_if_exists previous
     else ret (Ok tt)) in
  let* present := query (λ fs, exists_ fs state) in
  if (present : bool) then ret (Ok tt)
  else ret (Err "data directory has no server-state catalog; run `nostd init` for a fresh directory").

(** [catalog] is only compared, never assigned, by the source's [&mut Catalog]. *)
(** A committed operation is finished: what a create must have left is there,
    a dropped Database's directory goes to the trash. *)
Definition complete_operation (root : path) (journal : OperationJournal)
    : io (result unit ServerError) :=
  match journal_kind journal with
  | Create =>
      let* stored := query (λ fs, is_file fs (database_path root (database_id journal))) in
      if (stored : bool) then ret (Ok tt)
      else ret (Err "committed Database create has no storage; operator recovery is required")
  | Rename => ret (Ok tt)
  | Drop =>
      let source := database_directory root (database_id journal) in
      let target := trash_directory root (database_id journal) in
      let* active := query (λ fs, exists_ fs source) in
      if (active : bool) then
        let* kept := query (λ fs, exists_ fs target) in
        if (kept : bool) then ret (Err "drop recovery found both active and trash storage")
        else
          io_map_err (λ e, "cannot finish interrupted Database drop: " +:+ io_text e)
            (rename source target)
      else ret (Ok tt)
  end.

Definition recover_operation (root : path) (c : Catalog) : io (result unit ServerError) :=
  let p := join root OPERATION_FILE in
  let* present := query (λ fs, exists_ fs p) in
  if negb present then ret (Ok tt)
  else
    let? b := io_map_err (λ e, "cannot read lifecycle journal: " +:+ io_text e) (read p) in
    match from_slice b with
    | Err e => ret (Err ("invalid lifecycle journal: " +:+ e))
    | Ok journal =>
        if negb (operation_version journal =? OPERATION_VERSION)%Z then
          ret (Err ("unsupported lifecycle operation_version "
                    +:+ show (operation_version journal)))
        else if decide (c = before journal) then
          let? _ := remove_if_exists p in ret (Ok tt)
        else if decide (c ≠ after journal) then
          ret (Err "catalog matches neither side of the lifecycle journal; operator recovery is required")
        else
          let? _ := complete_operation root journal in
          remove_if_exists p
    end.

Fixpoint validate_storage_entries (fs : fsys) (root : path) (l : list CatalogDatabase)
    : result unit ServerError :=
  match l with
  | [] => Ok tt
  | d :: l' =>
      if negb (is_dir fs (database_directory root (id d)))
         || negb (is_file fs (database_path root (id d))) then
        Err ("catalog Database `" +:+ name d
             +:+ "` has missing managed storage; recovery is required")
      else validate_storage_entries fs root l'
  end.

Definition validate_storage (root : path) (c : Catalog) : io (result unit ServerError) :=
  query (λ fs, validate_storage_entries fs root (databases c)).

Fixpoint quarantine (root : path) (known : gset string) (names : list string)
    : io (result unit ServerError) :=
  match names with
  | [] => ret (Ok tt)
  | n :: names' =>
      if decide (n ∈ known) then quarantine root known names'
      else
        let target := join (join root "recovery") ("orphan-" +:+ n) in
        let* kept := query (λ fs, exists_ fs target) in
        if (kept : bool) then
          ret (Err ("orphan storage `" +:+ n
            +:+ "` and its recovery target both exist; operator recovery is required"))
        else
          let? _ := io_map_err
                      (λ e, "cannot quarantine orphan storage `" +:+ n +:+ "`: " +:+ io_text e)
                      (rename (database_directory root n) target) in
          quarantine root known names'
  end.

Definition recover_orphans (root : path) (c : Catalog) : io (result unit ServerError) :=
  let known : gset string := list_to_set (id <$> databases c) in
  let? names := io_map_err (λ e, "cannot inspect managed Databases: " +:+ io_text e)
                  (read_dir (join root "databases")) in
  quarantine root known names.

Definition load (root : path) : io (result CatalogStore ServerError) :=
  let* present := query (λ fs, is_dir fs root) in
  if negb present then
    ret (Err ("data directory " +:+ display root
              +:+ " does not exist or is not a directory; run `nostd init` first"))
  else
    let? _ := recover_atomic_state root in
    let? c := read_catalog (join root STATE_FILE) in
    match validate_catalog c with
    | Err e => ret (Err e)
    | Ok _ =>
        let? _ := recover_operation root c in
        let? _ := validate_storage root c in
        let? _ := recover_orphans root c in
        ret (Ok (mkCatalogStore root c))
    end.
End store.

(** ** Initialization of a data directory *)

Definition LAYOUT : list string := ["databases"; "snapshots"; "locks"; "recovery"; "trash"].

(** One entry of [failures]: a removal that failed for another reason than absence. *)
Definition removal_failure (p : path) (r : result unit io_error) : list string :=
  match r with
  | Ok _ => []
  | Err e =>
      if decide (kind e = NotFound) then []
      else ["cannot remove " +:+ display p +:+ ": " +:+ io_text e]
  end.

(** Removes each path with [rm], collecting the failures. *)
Fixpoint remove_each (rm : path → io (result unit io_error)) (ps : list path)
    : io (list string) :=
  match ps with
  | [] => ret []
  | p :: ps' =>
      let* r := rm p in
      let* failures := remove_each rm ps' in
      ret (removal_failure p r ++ failures)
  end.

Definition failures_result (failures : list string) : result unit ServerError :=
  match failures with
  | [] => Ok tt
  | _ => Err (String.concat "; " failures)
  end.

Definition rollback_created_directories (root : path) (root_existed : bool)
    (created_directories : list path) : io (result unit ServerError) :=
  let* failures := remove_each remove_dir (rev created_directories) in
  let* more := (if root_existed then ret [] else remove_each remove_dir [root]) in
  ret (failures_result (failures ++ more)).

Definition rollback_initialization (root : path) (root_existed : bool)
    : io (result unit ServerError) :=
  let* files := remove_each remove_file
      (join root <$> [PENDING_FILE; PREVIOUS_FILE; OPERATION_FILE; STATE_FILE]) in
  let* dirs := remove_each remove_dir
      (join root <$> ["trash"; "recovery"; "locks"; "snapshots"; "databases"]) in
  let* more := (if root_existed then ret [] else remove_each remove_dir [root]) in
  ret (failures_result (files ++ dirs ++ more)).

(** An error, annotated when the rollback failed too. *)
Definition with_rollback {A} (e : ServerError) (rollback : result unit ServerError)
    : result A ServerError :=
  match rollback with
  | Ok _ => Err e
  | Err re => Err (e +:+ "; catalog initialization rollback was incomplete: " +:+ re)
  end.

(** The layout loop, with the directories created so far. *)
Fixpoint create_layout (root : path) (names : list string) (created : list path)
    : io (result unit ServerError * list path) :=
  match names with
  | [] => ret (Ok tt, created)
  | n :: names' =>
      let* r := create_dir (join root n) in
      match r with
      | Err e => ret (Err ("cannot create data layout: " +:+ io_text e), created)
      | Ok _ => create_layout root names' (created ++ [join root n])
      end
  end.

Section initialization.
Context `{!Json Catalog}.

Definition empty_catalog : Catalog := mkCatalog CATALOG_VERSION [].

Definition initialize (root : path) : io (result CatalogStore ServerError) :=
  let* root_existed := query (λ fs, exists_ fs root) in
  let? _ :=
    (if (root_existed : bool) then
       let? entries := io_map_err
            (λ e, "cannot inspect data directory " +:+ display root +:+ ": " +:+ io_text e)
            (read_dir root) in
       match entries with
       | [] => ret (Ok tt)
       | _ => ret (Err ("data directory " +:+ display root
                        +:+ " is not empty; init never adopts existing files"))
       end
     else
       let* r := create_dir_all root in
       match r with
       | Ok _ => ret (Ok tt)
       | Err e =>
           let* rollback := rollback_created_directories root root_existed [] in
           ret (with_rollback
                  ("cannot create data directory " +:+ display root +:+ ": " +:+ io_text e)
                  rollback)
       end) in
  let* (made, created) := create_layout root LAYOUT [] in
  let* result :=
    match made with
    | Err e => ret (Err e)
    | Ok _ => write_atomic root empty_catalog true
    end in
  match result with
  | Ok _ => ret (Ok (mkCatalogStore root empty_catalog))
  | Err e =>
      let* rollback := rollback_created_directories root root_existed created in
      ret (with_rollback e rollback)
  end.
End initialization.
