(* ===== verification/CatalogProofs.v ===== *)
(** * Well-formed catalogs

    What [validate_catalog] accepts, as a predicate on catalogs. *)

From Stdlib Require Import ZArith Lia Ascii.
From stdpp Require Import base list strings gmap sorting.
From S2P Require Import Prelude Fs Codec Catalog.

Open Scope string_scope.
Open Scope list_scope.

(** ** What validation accepts *)

Section validation.
Context `{Uuid}.

Record valid_entry (d : CatalogDatabase) : Prop := {
  entry_id : uuid_parse_ok (id d) = true;
  entry_name : valid_database_name (name d) = true;
  entry_ready : state d = "ready"
}.

(** The catalog invariant: a known version, valid entries, unique stable
    identities, and names in strictly increasing (hence unique) order. *)
Record valid_catalog (c : Catalog) : Prop := {
  vc_version : catalog_version c = CATALOG_VERSION;
  vc_entries : Forall valid_entry (databases c);
  vc_ids : NoDup (id <$> databases c);
  vc_names : StronglySorted string_lt (name <$> databases c)
}.

Lemma names_increasing_sorted l :
  names_increasing l = true ↔ StronglySorted string_lt (name <$> l).
Proof.
  induction l as [|d l IH]; [split; [constructor|done]|].
  destruct l as [|d' l]; [split; [repeat constructor|done]|].
  change (names_increasing (d :: d' :: l))
    with (String.ltb (name d) (name d') && names_increasing (d' :: l)).
  rewrite andb_true_iff, IH. clear IH. split.
  - intros [Hlt Hs]. rewrite fmap_cons. constructor; [done|].
    inversion Hs as [|? ? Hs' Hall]; subst.
    constructor; [done|]. eapply Forall_impl; [exact Hall|]. intros x Hx. simpl in *. by etrans.
  - intros Hs. inversion Hs as [|? ? Hs' Hall]; subst. split; [|done].
    by inversion Hall.
Qed.

Lemma sorted_nodup l : StronglySorted string_lt l → NoDup l.
Proof.
  induction 1 as [|x l Hs IH Hall]; constructor; [|done].
  intros Hin. rewrite Forall_forall in Hall.
  by apply (string_lt_irrefl x), Hall.
Qed.

Lemma validate_entries_Ok l ids names :
  validate_entries l ids names = Ok tt ↔
  Forall valid_entry l ∧ NoDup (id <$> l) ∧ NoDup (name <$> l) ∧
  (∀ d, d ∈ l → id d ∉ ids ∧ name d ∉ names).
Proof.
  revert ids names. induction l as [|d l IH]; intros ids names.
  { split; [intros _|done]. repeat split; [constructor..|set_solver|set_solver]. }
  simpl. rewrite Forall_cons, !NoDup_cons.
  destruct (uuid_parse_ok (id d)) eqn:Hid; simpl;
    [|split; [done|intros ([[] _] & _); congruence]].
  destruct (valid_database_name (name d)) eqn:Hname; simpl;
    [|split; [done|intros ([[] _] & _); congruence]].
  case_bool_decide as Hst; simpl; [|split; [done|intros ([[] _] & _); congruence]].
  case_bool_decide as Hin; simpl.
  { split; [done|]. intros (_ & _ & _ & Hd). destruct (Hd d); set_solver. }
  case_bool_decide as Hin'; simpl.
  { split; [done|]. intros (_ & _ & _ & Hd). destruct (Hd d); set_solver. }
  rewrite IH. clear IH. split.
  - intros (Hall & Hn1 & Hn2 & Hd). repeat split; try done.
    + intros (d' & Heq & Hd')%list_elem_of_fmap. destruct (Hd _ Hd'). set_solver.
    + intros (d' & Heq & Hd')%list_elem_of_fmap. destruct (Hd _ Hd'). set_solver.
    + set_solver.
    + set_solver.
  - intros ([Hv Hall] & [Hi Hn1] & [Hn Hn2] & Hd). repeat split; try done.
    + assert (id d0 ≠ id d).
      { intros Heq. apply Hi, list_elem_of_fmap. eauto. }
      set_solver.
    + assert (name d0 ≠ name d).
      { intros Heq. apply Hn, list_elem_of_fmap. eauto. }
      set_solver.
Qed.

Lemma validate_catalog_valid c : validate_catalog c = Ok tt ↔ valid_catalog c.
Proof.
  unfold validate_catalog.
  destruct (catalog_version c =? CATALOG_VERSION)%Z eqn:Hv; simpl.
  - apply Z.eqb_eq in Hv.
    destruct (validate_entries _ _ _) as [[]|e] eqn:He; simpl.
    + apply validate_entries_Ok in He as (Hall & Hi & Hn & _).
      destruct (names_increasing _) eqn:Hs; simpl.
      * apply names_increasing_sorted in Hs. split; [by split|done].
      * split; [done|]. intros [? ? ? Hs']. apply names_increasing_sorted in Hs'. congruence.
    + split; [done|]. intros [? Hall Hi Hs]. exfalso.
      assert (validate_entries (databases c) ∅ ∅ = Ok tt) as Heq; [|congruence].
      apply validate_entries_Ok. split; [done|]. split; [done|].
      split; [by apply sorted_nodup|set_solver].
  - apply Z.eqb_neq in Hv. split; [done|]. intros []. congruence.
Qed.

(** [validate_catalog] accepts exactly the catalogs that satisfy the catalog
    invariant: the supported version, valid identities and names, the ready state,
    unique identities and strictly increasing names. *)
Theorem validate_catalog_accepts_exactly c :
  (validate_catalog c = Ok tt ↔ valid_catalog c) ∧
  (∀ e, validate_catalog c = Err e → ¬ valid_catalog c).
Proof.
  split; [apply validate_catalog_valid|].
  intros e He Hv%validate_catalog_valid. congruence.
Qed.
End validation.
