(* ===== verification/CatalogAtomic.v ===== *)
(** * Atomic replacement of the durable catalog

    Specifications of [write_json_new], [write_atomic] and [transition] under
    every schedule of I/O errors, partial writes and crashes. *)

From Stdlib Require Import ZArith Lia Ascii.
From stdpp Require Import base list strings gmap.
From S2P Require Import Prelude Fs Codec Catalog CatalogProofs.

Open Scope string_scope.
Open Scope list_scope.

Section atomicity.
Context `{Uuid, !Json Catalog, !Json OperationJournal, !JsonLaws Catalog, !JsonLaws OperationJournal}.
Context (r : path).

Abbreviation S_ := (join r STATE_FILE).
Abbreviation N_ := (join r PENDING_FILE).
Abbreviation V_ := (join r PREVIOUS_FILE).
Abbreviation J_ := (join r OPERATION_FILE).
Abbreviation I_ := (join (join r "recovery") "interrupted-catalog.pending").

Implicit Types (fs : fsys) (c next : Catalog).

(** The file at [p] is a complete catalog document for [c]. *)
Definition stores fs (p : path) c : Prop :=
  ∃ b, content fs p = Some b ∧ from_slice b = Ok c.

(** The catalog a restart finds: the installed file, or the preserved
    previous file when the installed one is missing. *)
Definition durable fs c : Prop :=
  stores fs S_ c ∨ (fs !! S_ = None ∧ stores fs V_ c).

(** Generic rule for [write_json_new] on a fresh path. *)
Lemma wp_write_json_new `{Json A, !JsonLaws A} bl p (v : A) enc fs Q C :
  to_vec_pretty v = Ok enc →
  fs !! p = None → fs !! parent p = Some NDir →
  (∀ m, Q (Ok tt) (<[p := NFile m (enc ++ [newline])]> fs)) →
  (errors bl = true → ∀ e, Q (Err e) fs) →
  (errors bl = true → ∀ e m n, Q (Err e) (<[p := NFile m (take n (enc ++ [newline]))]> fs)) →
  (crashes bl = true → C fs) →
  (crashes bl = true → ∀ m n, C (<[p := NFile m (take n (enc ++ [newline]))]> fs)) →
  wp bl (write_json_new p v) fs Q C.
Proof.
  intros Henc Hp Hd HOk HE1 HE2 HC1 HC2. unfold write_json_new. rewrite Henc.
  apply wp_bind, wp_open_new; [done..| |intros; by apply wp_ret, HE1|done].
  intros u. apply wp_bind. eapply wp_write_all_sync; [by rewrite lookup_insert_eq|..];
    rewrite ?insert_insert_eq.
  - apply wp_ret, HOk.
  - intros Hb n text. rewrite insert_insert_eq.
    apply wp_bind. eapply wp_remove_file; [by rewrite lookup_insert_eq|..].
    + rewrite delete_insert_id by done. by apply wp_ret, HE1.
    + intros _ text'. simpl. by apply wp_ret, HE2.
    + intros ?. by apply HC2.
  - intros Hb n. rewrite insert_insert_eq. by apply HC2.
Qed.

Lemma wp_remove_if_exists bl p fs (Q : result unit ServerError → fsys → Prop) C :
  is_dir fs p = false →
  Q (Ok tt) (delete p fs) →
  (errors bl = true → ∀ e, Q (Err e) fs) →
  (crashes bl = true → C fs) →
  wp bl (remove_if_exists p) fs Q C.
Proof.
  intros Hp HQ HE HC. apply wp_bind.
  destruct (is_dir_false_cases _ _ Hp) as [Hn|(m & c & Hf)].
  - eapply wp_remove_absent; [done|..].
    + simpl. apply wp_ret. by rewrite delete_id in HQ.
    + intros. apply wp_ret. by apply HE.
    + done.
  - eapply wp_remove_file; [done|by apply wp_ret|intros; by apply wp_ret, HE|done].
Qed.

(** *** The three outcomes of replacing the catalog file

    [kept old]: the old file is installed, or preserved for recovery.
    [installed new]: the new document is installed. *)
Definition kept (fs0 : fsys) (old : node) (fs' : fsys) : Prop :=
  same_except [S_; V_; N_] fs0 fs' ∧ is_dir fs' V_ = false ∧ is_dir fs' N_ = false ∧
  (fs' !! S_ = Some old ∨ (fs' !! S_ = None ∧ fs' !! V_ = Some old)).

Definition installed (fs0 : fsys) (new : bytes) (fs' : fsys) : Prop :=
  same_except [S_; V_; N_] fs0 fs' ∧ is_dir fs' V_ = false ∧ fs' !! N_ = None ∧
  ∃ m, fs' !! S_ = Some (NFile m new).

Ltac outcome :=
  repeat split; try (unfold is_dir); fs_simpl; eauto; try frame.

Definition replaced (fs0 : fsys) (old : node) (new : bytes) (fs' : fsys) : Prop :=
  kept fs0 old fs' ∨ installed fs0 new fs'.

Ltac done_with t := intros; simpl; try apply wp_ret; try (split; [done|]); t; outcome.
Ltac is_kept := done_with ltac:(unfold replaced; left).
Ltac is_installed := done_with ltac:(unfold replaced; right).
Ltac rename_step :=
  eapply wp_rename_file;
    [by fs_simpl|unfold is_dir; by fs_simpl|rewrite parent_join; by fs_simpl|..].

Lemma write_atomic_spec bl next enc ms bs fs :
  to_vec_pretty next = Ok enc →
  fs !! r = Some NDir → fs !! S_ = Some (NFile ms bs) →
  is_dir fs V_ = false → fs !! N_ = None →
  wp bl (write_atomic r next false) fs
    (λ res fs', match res with
                | Ok _ => installed fs (enc ++ [newline]) fs'
                | Err _ => errors bl = true ∧ replaced fs (NFile ms bs) (enc ++ [newline]) fs'
                end)
    (replaced fs (NFile ms bs) (enc ++ [newline])).
Proof.
  intros Henc Hr HS HV HN.
  assert (is_dir fs N_ = false) as HN' by (by unfold is_dir; rewrite HN).
  unfold write_atomic. apply wp_try.
  eapply wp_write_json_new; [done|done|by rewrite parent_join| | | | |]; [|is_kept..].
  intros mp. apply wp_try, wp_remove_if_exists; [unfold is_dir; by fs_simpl| |is_kept..].
  apply wp_try, wp_map_err. rename_step; [|is_kept..].
  apply wp_bind. rename_step; [| |is_kept].
  - apply wp_bind, wp_map_err, wp_sync_dir; [by fs_simpl| | |is_installed]; simpl.
    + apply wp_bind, wp_remove_if_exists; [unfold is_dir; by fs_simpl|..|is_installed];
        intros; apply wp_ret; outcome.
    + intros Hb text. apply wp_bind. eapply wp_remove_file; [by fs_simpl| | |is_installed].
      * apply wp_bind, wp_bind. rename_step; [| |is_kept];
          intros; apply wp_map_err, wp_sync_dir; first [by fs_simpl | is_kept].
      * intros _ _. apply wp_bind, wp_bind. rename_step; [| |is_installed];
          intros; apply wp_map_err, wp_sync_dir; first [by fs_simpl | by is_kept | is_installed].
  - intros Hb text. apply wp_bind. eapply wp_remove_file; [by fs_simpl| | |is_kept].
    all: intros; apply wp_bind; rename_step; is_kept.
Qed.

(** *** The durable state a restart may meet *)

Abbreviation durable_files := [S_; V_; N_; J_].

(** [fs'] differs from [fs0] in the catalog's own files only, and [c] is the
    catalog a restart finds in it. *)
Record holds_catalog (fs0 fs' : fsys) (c : Catalog) : Prop := {
  hc_frame : same_except durable_files fs0 fs';
  hc_previous : is_dir fs' V_ = false;
  hc_pending : is_dir fs' N_ = false;
  hc_durable : durable fs' c
}.

Definition journal_absent (fs' : fsys) : Prop := fs' !! J_ = None.
Definition journal_is (fs' : fsys) (j : OperationJournal) : Prop :=
  ∃ b, content fs' J_ = Some b ∧ from_slice b = Ok j.
Definition journal_torn (fs' : fsys) : Prop :=
  ∃ b e, content fs' J_ = Some b ∧ from_slice (A:=OperationJournal) b = Err e.

(** What an unfinished transition from [c] to [next] can leave behind: one
    of the two catalogs, with the journal complete or gone; only while the
    journal itself is being written can it be torn, and then [c] is in place. *)
Definition unfinished (fs0 : fsys) (c next : Catalog) (j : OperationJournal) (fs' : fsys) : Prop :=
  ((holds_catalog fs0 fs' c ∨ holds_catalog fs0 fs' next) ∧
   (journal_absent fs' ∨ journal_is fs' j)) ∨
  (holds_catalog fs0 fs' c ∧ stores fs' S_ c ∧ journal_torn fs').

(** A data directory at rest with catalog [c]. *)
Record at_rest (fs : fsys) (c : Catalog) : Prop := {
  ar_root : fs !! r = Some NDir;
  ar_state : stores fs S_ c;
  ar_previous : is_dir fs V_ = false;
  ar_pending : fs !! N_ = None;
  ar_journal : fs !! J_ = None
}.

Lemma content_lookup fs p b m : fs !! p = Some (NFile m b) → content fs p = Some b.
Proof. intros Hp. apply content_Some. eauto. Qed.

Lemma content_eq fs fs' p : fs' !! p = fs !! p → content fs' p = content fs p.
Proof. unfold content. by intros ->. Qed.

(** The files of a replacement seen from before the journal was written. *)
Lemma replaced_holds fs fsj m jdoc ms bs c next enc fs' :
  from_slice bs = Ok c → to_vec_pretty next = Ok enc →
  fsj = <[J_ := NFile m jdoc]> fs →
  replaced fsj (NFile ms bs) (enc ++ [newline]) fs' →
  (holds_catalog fs fs' c ∨ holds_catalog fs fs' next) ∧ content fs' J_ = Some jdoc.
Proof.
  intros Hc Henc -> Hrep. split.
  - destruct Hrep as [(Hsame & HV & HN & Hcase)|(Hsame & HV & HN & m' & HS)].
    + left. split; [|done|done|].
      * eapply same_except_trans; [|eapply same_except_mono; [|exact Hsame]; set_solver].
        frame.
      * destruct Hcase as [HS|[HS HV']]; [left|right; split; [done|]];
          eexists; (split; [by eapply content_lookup|done]).
    + right. split; [|done|unfold is_dir; by rewrite HN|].
      * eapply same_except_trans; [|eapply same_except_mono; [|exact Hsame]; set_solver].
        frame.
      * left. eexists. split; [by eapply content_lookup|by apply json_newline].
  - assert (same_except [S_; V_; N_] (<[J_ := NFile m jdoc]> fs) fs') as Hsame.
    { by destruct Hrep as [[? _]|[? _]]. }
    eapply content_lookup. rewrite Hsame; [by rewrite lookup_insert_eq|].
    rewrite !not_elem_of_cons. repeat split; try path_ne. apply not_elem_of_nil.
Qed.

Lemma at_rest_holds fs fs' c :
  at_rest fs c → same_except [J_] fs fs' → holds_catalog fs fs' c ∧ stores fs' S_ c.
Proof.
  intros [Hr (b & HS & Hb) HV HN HJ] Hsame.
  assert (∀ p, p ≠ J_ → fs' !! p = fs !! p) as Heq.
  { intros p Hp. apply Hsame. set_solver. }
  assert (stores fs' S_ c) as Hst.
  { exists b. split; [|done]. rewrite <-HS. apply content_eq, Heq. path_ne. }
  split; [|done]. split.
  - eapply same_except_mono; [|exact Hsame]. set_solver.
  - unfold is_dir. rewrite Heq by path_ne. done.
  - unfold is_dir. rewrite Heq by path_ne. by rewrite HN.
  - by left.
Qed.

(** A prefix of a document is the document or does not parse. *)
Lemma torn_prefix `{Json A, !JsonLaws A} (v : A) enc n :
  to_vec_pretty v = Ok enc →
  from_slice (take n (enc ++ [newline])) = Ok v ∨
  ∃ e, from_slice (A:=A) (take n (enc ++ [newline])) = Err e.
Proof.
  intros Henc. destruct (decide (n < length enc)) as [Hlt|Hge].
  - right. rewrite take_app_le by lia. pose proof (json_torn v enc n Henc Hlt) as Ht.
    destruct (from_slice _); [done|eauto].
  - left. destruct (decide (n = length enc)) as [->|Hne].
    + rewrite take_app_length. by apply json_round_trip.
    + rewrite take_ge by (rewrite length_app; simpl; lia). by apply json_newline.
Qed.

Lemma unfinished_journal_write fs c next j enc m n :
  at_rest fs c → to_vec_pretty j = Ok enc →
  unfinished fs c next j (<[J_ := NFile m (take n (enc ++ [newline]))]> fs).
Proof.
  intros Hrest Henc.
  destruct (at_rest_holds fs (<[J_ := NFile m (take n (enc ++ [newline]))]> fs) c Hrest) as [Hh Hs];
    [frame|].
  assert (content (<[J_ := NFile m (take n (enc ++ [newline]))]> fs) J_ =
          Some (take n (enc ++ [newline]))) as Hj.
  { eapply content_lookup. by fs_simpl. }
  destruct (torn_prefix j enc n Henc) as [Hok|[e He]].
  - left. split; [by left|]. right. by eexists.
  - right. split; [done|]. split; [done|]. by do 2 eexists.
Qed.

(** A transition: on success the new catalog is durable, in memory and
    journaled; on an error the store in memory is the old one; in every
    case, and after a crash at any point, one of the two catalogs is durable. *)
Lemma transition_spec bl store next k i fs :
  root store = r → at_rest fs (catalog store) → validate_catalog next = Ok tt →
  let j := mkOperationJournal OPERATION_VERSION k i (catalog store) next in
  wp bl (transition store next k i) fs
    (λ '(res, store') fs',
       match res with
       | Ok _ => store' = mkCatalogStore r next ∧
                 holds_catalog fs fs' next ∧ stores fs' S_ next ∧ journal_is fs' j ∧
                 fs' !! N_ = None
       | Err _ => errors bl = true ∧ store' = store ∧ unfinished fs (catalog store) next j fs'
       end)
    (unfinished fs (catalog store) next j).
Proof.
  intros Hroot Hrest Hval j. pose proof Hrest as [Hr (bs & HSc & Hbs) HV HN HJ].
  apply content_Some in HSc as [ms HS].
  destruct (json_encodes j) as [jenc Hjenc]. destruct (json_encodes next) as [enc Henc].
  assert (unfinished fs (catalog store) next j fs) as Hnone.
  { left. split; [left; apply (at_rest_holds fs fs _ Hrest); frame|by left]. }
  unfold transition. rewrite Hval, Hroot. fold j. apply wp_bind.
  eapply wp_write_json_new; [done|done|by rewrite parent_join| |..].
  2-5: intros; try apply wp_ret; repeat split; try done; by apply unfinished_journal_write.
  intros mj. apply wp_bind. set (fsj := <[_ := _]> fs).
  eapply wp_mono; [apply (write_atomic_spec bl next enc ms bs); [done|..]|..];
    try (subst fsj; try unfold is_dir; fs_simpl; done).
  - intros [[]|e] fs'.
    + intros Hin.
      destruct (replaced_holds fs fsj mj (jenc ++ [newline]) ms bs (catalog store) next enc fs')
        as [Hh Hj]; [done..|by right|].
      destruct Hin as (Hsame & HV' & HN' & m' & HS').
      assert (stores fs' S_ next) as Hst.
      { eexists. split; [by eapply content_lookup|by apply json_newline]. }
      apply wp_ret. split; [done|]. split; [|split; [done|split; [|done]]].
      * destruct Hh as [Hh|Hh]; destruct Hh; split; try done; by left.
      * eexists. split; [done|by apply json_newline].
    + intros [Hb Hrep].
      destruct (replaced_holds fs fsj mj (jenc ++ [newline]) ms bs (catalog store) next enc fs')
        as [Hh Hj]; [done..|].
      assert (journal_is fs' j) as Hji.
      { eexists. split; [done|by apply json_newline]. }
      apply content_Some in Hj as [mj' Hj].
      apply wp_bind. eapply wp_remove_file; [done|..].
      * apply wp_ret. split; [done|]. split; [done|]. left. split; [|left; by apply lookup_delete_eq].
        destruct Hh as [[]|[]]; [left|right]; split; unfold is_dir, durable, stores, content in *;
          fs_simpl; try done; frame.
      * intros. apply wp_ret. split; [done|]. split; [done|]. left. auto.
      * left. auto.
  - intros fs' Hrep.
    destruct (replaced_holds fs fsj mj (jenc ++ [newline]) ms bs (catalog store) next enc fs')
      as [Hh Hj]; [done..|].
    left. split; [done|]. right. eexists. split; [done|by apply json_newline].
Qed.
End atomicity.
