(* ===== verification/CatalogRecovery.v ===== *)
(** * Start-up recovery of the catalog

    From every state an interrupted lifecycle operation can leave, [load]
    settles on one catalog; a crash inside [load] leaves such a state again. *)

From Stdlib Require Import ZArith Lia Ascii.
From stdpp Require Import base list strings gmap.
From S2P Require Import Prelude Fs Codec Catalog CatalogProofs CatalogAtomic.

Open Scope string_scope.
Open Scope list_scope.

Ltac pne :=
  unfold database_path, database_directory, trash_directory in *;
  first [ path_ne
        | let s := fresh in let Heq := fresh in
          intros [s Heq]; revert Heq; path_ne ].

(** A path is none of a list of known ones. *)
Ltac not_in := rewrite !not_elem_of_cons; split_and!; try pne; apply not_elem_of_nil.

Section recovery.
Context `{Uuid, !Json Catalog, !Json OperationJournal, !JsonLaws Catalog, !JsonLaws OperationJournal}.
Context (r : path).

Abbreviation S_ := (join r STATE_FILE).
Abbreviation N_ := (join r PENDING_FILE).
Abbreviation V_ := (join r PREVIOUS_FILE).
Abbreviation J_ := (join r OPERATION_FILE).
Abbreviation I_ := (join (join r "recovery") "interrupted-catalog.pending").
Abbreviation dir_ n := (database_directory r n).
Abbreviation orphan_ n := (join (join r "recovery") ("orphan-" +:+ n)).

Implicit Types (fs : fsys) (c : Catalog).

Definition ids c : list string := id <$> databases c.

(** The managed tree: its directories, storage for every catalog entry,
    and a free recovery place for every directory the catalog does not know. *)
Record tree_ok fs c : Prop := {
  to_root : fs !! r = Some NDir;
  to_recovery : fs !! join r "recovery" = Some NDir;
  to_databases : fs !! join r "databases" = Some NDir;
  to_trash : fs !! join r "trash" = Some NDir;
  to_storage : ∀ n, n ∈ ids c →
    fs !! dir_ n = Some NDir ∧ is_file fs (database_path r n) = true;
  to_orphans : ∀ n, n ∉ ids c → is_Some (fs !! dir_ n) → vacant fs (orphan_ n)
}.

(** The journal [j] can be settled against the durable catalog [c]. *)
Definition settles fs c (j : OperationJournal) : Prop :=
  operation_version j = OPERATION_VERSION ∧
  (c = before j ∨
   (c = after j ∧
    match journal_kind j with
    | Create => database_id j ∈ ids c
    | Rename => True
    | Drop => database_id j ∉ ids c ∧
              (fs !! dir_ (database_id j) = None ∨
               fs !! dir_ (database_id j) = Some NDir ∧
               vacant fs (trash_directory r (database_id j)))
    end)).

Record recoverable fs c : Prop := {
  rc_tree : tree_ok fs c;
  rc_valid : validate_catalog c = Ok tt;
  rc_durable : durable r fs c;
  rc_previous : is_dir fs V_ = false;
  rc_pending : is_dir fs N_ = false;
  rc_interrupted : fs !! N_ = None ∨ fs !! I_ = None;
  rc_journal : fs !! J_ = None ∨ ∃ j, journal_is r fs j ∧ settles fs c j
}.

(** A data directory with nothing left to recover. *)
Record settled fs c : Prop := {
  st_tree : tree_ok fs c;
  st_valid : validate_catalog c = Ok tt;
  st_rest : at_rest r fs c
}.

Lemma tree_ok_frame fs fs' c :
  same_except [S_; V_; N_; J_; I_] fs fs' → tree_ok fs c → tree_ok fs' c.
Proof.
  intros Hsame [H1 H2 H3 H4 H5 H6]. split; try (by rewrite Hsame; [|not_in]).
  - intros n Hn. destruct (H5 n Hn) as [Hd Hf]. unfold is_file. by rewrite !Hsame; [|not_in..].
  - intros n Hn Hd s. rewrite Hsame in Hd by not_in. rewrite Hsame by not_in. by apply H6.
Qed.

Lemma settles_frame fs fs' c j :
  same_except [S_; V_; N_; J_; I_] fs fs' → settles fs c j → settles fs' c j.
Proof.
  intros Hsame [Hv [Hb|[Ha Hk]]]; split; auto. right. split; [done|].
  destruct (journal_kind j); [done..|]. destruct Hk as [Hi Hk]. split; [done|].
  rewrite Hsame by not_in. destruct Hk as [?|[? Hv']]; [by left|right].
  split; [done|]. intros s. rewrite Hsame by not_in. apply Hv'.
Qed.

(** Changes to the catalog's own files keep a state recoverable as long as
    the durable catalog is kept. *)
Lemma recoverable_frame fs fs' c :
  recoverable fs c → same_except [S_; V_; N_; I_] fs fs' →
  durable r fs' c → is_dir fs' V_ = false → is_dir fs' N_ = false →
  (fs' !! N_ = None ∨ fs' !! I_ = None) → recoverable fs' c.
Proof.
  intros [Ht Hval Hd HV HN HI HJ] Hsame Hd' HV' HN' HI'.
  assert (same_except [S_; V_; N_; J_; I_] fs fs') as Hsame'.
  { eapply same_except_mono; [|done]. set_solver. }
  split; try done.
  - by eapply tree_ok_frame.
  - unfold journal_is, content. rewrite Hsame by not_in.
    destruct HJ as [?|(j & Hj & Hs)]; [by left|right].
    exists j. split; [done|by eapply settles_frame].
Qed.

(** Recovery leaves the Databases' directories alone, or moves unknown ones
    away, and does not touch the locks. *)
Definition keeps_databases fs fs' c : Prop :=
  (∀ n, (∀ k, dir_ n `prefix_of` k → fs' !! k = fs !! k) ∨ (n ∉ ids c ∧ fs' !! dir_ n = None))
  ∧ ∀ k, join r "locks" `prefix_of` k → fs' !! k = fs !! k.

(** ... also through changes outside these directories. *)
Lemma keeps_databases_step fs0 fs fs' c :
  keeps_databases fs0 fs c →
  (∀ p k, join r "locks" = p ∨ (∃ n, dir_ n = p) → p `prefix_of` k → fs' !! k = fs !! k) →
  keeps_databases fs0 fs' c.
Proof.
  intros [Hk Hl] Hsame. split; [|intros k Hin; rewrite (Hsame (join r "locks") k); eauto].
  intros n. destruct (Hk n) as [Hl'|[Hn Hg]]; [left|right].
  - intros k Hin. rewrite (Hsame (dir_ n) k); eauto.
  - by rewrite (Hsame (dir_ n)); eauto.
Qed.

Lemma stores_insert fs p m b c : from_slice b = Ok c → stores (<[p := NFile m b]> fs) p c.
Proof. intros Hb. exists b. split; [|done]. eapply content_lookup. apply lookup_insert_eq. Qed.

Lemma stores_exists fs p c : stores fs p c → exists_ fs p = true.
Proof. intros (b & [m Hp]%content_Some & _). unfold exists_. by rewrite Hp. Qed.

(** Recovery is followed from a state [fs0] on. *)
Section tracking.
Context (fs0 : fsys).

Definition tracked fs c : Prop := recoverable fs c ∧ keeps_databases fs0 fs c.

Lemma tracked_frame fs fs' c :
  tracked fs c → same_except [S_; V_; N_; I_] fs fs' →
  durable r fs' c → is_dir fs' V_ = false → is_dir fs' N_ = false →
  (fs' !! N_ = None ∨ fs' !! I_ = None) → tracked fs' c.
Proof.
  intros [Hrc Hk] Hsame. split; [by eapply recoverable_frame|].
  eapply keeps_databases_step; [done|].
  intros p k [<-|[n <-]] [s ->]; (rewrite Hsame; [done|]; not_in).
Qed.

(** First step of recovery: the installed catalog is present. *)
Lemma restore_previous_spec bl fs c :
  tracked fs c →
  wp bl (let* lost := query (λ fs, negb (exists_ fs S_) && exists_ fs V_) in
         if (lost : bool) then
           io_map_err (λ e, "cannot restore previous catalog: " +:+ io_text e) (rename V_ S_)
         else ret (Ok tt)) fs
    (λ res fs', tracked fs' c ∧ (errors bl = false → is_ok res = true) ∧
                (is_ok res = true → stores fs' S_ c))
    (λ fs', tracked fs' c).
Proof.
  intros Hrc. pose proof Hrc as [[Ht _ [Hs|[HS (b & [m HVb]%content_Some & Hb)]] HV HN HI _] _].
  - apply wp_bind, wp_query. rewrite (stores_exists _ _ _ Hs). simpl. by apply wp_ret.
  - apply wp_bind, wp_query. unfold exists_. rewrite HS, HVb. simpl.
    apply wp_map_err. eapply wp_rename_file; [done|unfold is_dir; by rewrite HS| |..].
    + rewrite parent_join. apply Ht.
    + simpl. assert (stores (<[S_ := NFile m b]> (delete V_ fs)) S_ c) by by apply stores_insert.
      split; [|done].
      eapply tracked_frame; [done|..]; [frame|by left|unfold is_dir; by fs_simpl..|by fs_simpl].
    + intros. split; [done|naive_solver].
    + done.
Qed.

(** Second step: an interrupted write is set aside. *)
Lemma set_aside_spec bl fs c :
  tracked fs c → stores fs S_ c →
  wp bl (let* interrupted := query (λ fs, exists_ fs N_) in
         if (interrupted : bool) then
           let* kept := query (λ fs, exists_ fs I_) in
           if (kept : bool) then
             ret (Err "multiple interrupted catalog writes require operator recovery")
           else
             io_map_err (λ e, "cannot preserve interrupted catalog: " +:+ io_text e)
               (rename N_ I_)
         else ret (Ok tt)) fs
    (λ res fs', tracked fs' c ∧ stores fs' S_ c ∧ (errors bl = false → is_ok res = true) ∧
                (is_ok res = true → fs' !! N_ = None))
    (λ fs', tracked fs' c).
Proof.
  intros Hrc Hs. pose proof Hrc as [[Ht _ _ HV HN HI _] _].
  apply wp_bind, wp_query. destruct (exists_ fs N_) eqn:HexN; simpl.
  - apply exists_true in HexN as [n HNn].
    destruct HI as [?|HI]; [congruence|].
    apply wp_bind, wp_query. unfold exists_. rewrite HI. simpl.
    assert (∃ m b, n = NFile m b) as (m & b & ->).
    { unfold is_dir in HN. rewrite HNn in HN. destruct n; [eauto|done]. }
    apply wp_map_err.
    eapply wp_rename_file; [done|unfold is_dir; by rewrite HI|rewrite parent_join; apply Ht|..].
    + assert (stores (<[I_ := NFile m b]> (delete N_ fs)) S_ c) as Hs'.
      { unfold stores, content. fs_simpl. apply Hs. }
      split; [|by split; [|fs_simpl]].
      eapply tracked_frame; [done|frame|by left|unfold is_dir; by fs_simpl..|].
      left. by fs_simpl.
    + intros. split; [done|split; [done|naive_solver]].
    + done.
  - apply wp_ret. split; [done|]. split; [done|]. split; [done|]. by intros _; apply exists_false.
Qed.

Lemma wp_read_catalog bl p c fs Q C :
  stores fs p c →
  Q (Ok c) fs → (errors bl = true → ∀ e, Q (Err e) fs) → (crashes bl = true → C fs) →
  wp bl (read_catalog p) fs Q C.
Proof.
  intros (b & Hb & Hd) HQ HE HC. apply wp_try, wp_map_err.
  eapply wp_read_file; [done| | |done]; simpl.
  - apply wp_ret. by rewrite Hd.
  - intros. by apply HE.
Qed.

(** Third step: with the catalog readable, the previous copy goes. *)
Lemma drop_previous_spec bl fs c :
  tracked fs c → stores fs S_ c → fs !! N_ = None →
  wp bl (let* both := query (λ fs, exists_ fs S_ && exists_ fs V_) in
         if (both : bool) then
           let? _ := read_catalog S_ in remove_if_exists V_
         else ret (Ok tt)) fs
    (λ res fs', tracked fs' c ∧ stores fs' S_ c ∧ fs' !! N_ = None ∧
                (errors bl = false → is_ok res = true) ∧ (is_ok res = true → fs' !! V_ = None))
    (λ fs', tracked fs' c).
Proof.
  intros Hrc Hs HNn. pose proof Hrc as [[Ht _ _ HV HN HI _] _].
  apply wp_bind, wp_query. rewrite (stores_exists _ _ _ Hs). simpl.
  destruct (exists_ fs V_) eqn:HexV; simpl.
  - apply wp_try. eapply wp_read_catalog; [done| |naive_solver|done].
    apply wp_remove_if_exists; [done| |naive_solver|done].
    assert (stores (delete V_ fs) S_ c) as Hs'.
    { unfold stores, content. fs_simpl. apply Hs. }
    split; [|by fs_simpl].
    eapply tracked_frame; [done|frame|by left|unfold is_dir; by fs_simpl..|].
    left. by fs_simpl.
  - apply wp_ret. split; [done|]. split; [done|]. split; [done|]. split; [done|].
    by intros _; apply exists_false.
Qed.

Lemma recover_atomic_state_spec bl fs c :
  tracked fs c →
  wp bl (recover_atomic_state r) fs
    (λ res fs', tracked fs' c ∧ (errors bl = false → is_ok res = true) ∧
                (is_ok res = true → stores fs' S_ c ∧ fs' !! V_ = None ∧ fs' !! N_ = None))
    (λ fs', tracked fs' c).
Proof.
  intros Hrc. unfold recover_atomic_state.
  apply wp_try. eapply wp_mono; [by apply restore_previous_spec| |done].
  intros [[]|e] fs1 (Hrc1 & Hok1 & Hs1); [|naive_solver]. specialize (Hs1 eq_refl).
  apply wp_try. eapply wp_mono; [by apply set_aside_spec| |done].
  intros [[]|e] fs2 (Hrc2 & Hs2 & Hok2 & HN2); [|naive_solver]. specialize (HN2 eq_refl).
  apply wp_try. eapply wp_mono; [by apply drop_previous_spec| |done].
  intros [[]|e] fs3 (Hrc3 & Hs3 & HN3 & Hok3 & HV3); [|naive_solver]. specialize (HV3 eq_refl).
  apply wp_bind, wp_query. rewrite (stores_exists _ _ _ Hs3). by apply wp_ret.
Qed.

(** *** Moving a directory the catalog does not know out of the way *)

Definition out_of_the_way (n : string) (q : path) : Prop :=
  q = orphan_ n ∨ q = trash_directory r n.

Lemma outside_lookup n q fs fs' k :
  same_outside [dir_ n; q] fs fs' → ¬ dir_ n `prefix_of` k → ¬ q `prefix_of` k →
  fs' !! k = fs !! k.
Proof. intros Hout Hd Hq. apply Hout. set_solver. Qed.

Ltac outside Hq :=
  first [ pne | destruct Hq as [-> | ->]; pne ].

Lemma tree_ok_moved n q fs fs' c :
  n ∉ ids c → out_of_the_way n q → same_outside [dir_ n; q] fs fs' →
  fs' !! dir_ n = None → tree_ok fs c → tree_ok fs' c.
Proof.
  intros Hn Hq Hout Hgone [H1 H2 H3 H4 H5 H6].
  split; try (by rewrite (outside_lookup n q fs); [|done|outside Hq..]).
  - intros n' Hn'. assert (n' ≠ n) by set_solver. unfold is_file.
    rewrite !(outside_lookup n q fs fs'); try done; try (by outside Hq). by apply H5.
  - intros n' Hn' Hs s. assert (n' ≠ n) by (intros ->; rewrite Hgone in Hs; by destruct Hs).
    rewrite (outside_lookup n q fs) in Hs; [|done|outside Hq..].
    rewrite (outside_lookup n q fs); [by apply H6|done|pne|].
    destruct Hq as [-> | ->]; [|pne]. intros [s' Heq]. unfold join in Heq.
    rewrite <-!app_assoc in Heq. apply app_inv_head in Heq.
    injection Heq as Heq _. by change (n' = n) in Heq.
Qed.

Lemma recoverable_moved n q fs fs' c :
  n ∉ ids c → out_of_the_way n q → same_outside [dir_ n; q] fs fs' →
  fs' !! dir_ n = None →
  (∀ j, settles fs c j → settles fs' c j) →
  recoverable fs c → recoverable fs' c.
Proof.
  intros Hn Hq Hout Hgone Hset [Ht Hval Hd HV HN HI HJ].
  split; try done.
  - by eapply tree_ok_moved.
  - unfold durable, stores, content.
    rewrite !(outside_lookup n q fs fs'); try done; outside Hq.
  - unfold is_dir. by rewrite (outside_lookup n q fs); [|done|outside Hq..].
  - unfold is_dir. by rewrite (outside_lookup n q fs); [|done|outside Hq..].
  - rewrite !(outside_lookup n q fs fs'); try done; outside Hq.
  - unfold journal_is, content.
    rewrite !(outside_lookup n q fs fs'); try done; try outside Hq. naive_solver.
Qed.

Lemma trashed_gone n fs :
  vacant fs (trash_directory r n) → move_tree (dir_ n) (trash_directory r n) fs !! dir_ n = None.
Proof.
  intros Hvac. pose proof (move_tree_old (dir_ n) (trash_directory r n) fs Hvac []) as Hold.
  rewrite app_nil_r in Hold. apply Hold. pne.
Qed.

Lemma tracked_moved n q fs fs' c :
  n ∉ ids c → out_of_the_way n q → same_outside [dir_ n; q] fs fs' →
  fs' !! dir_ n = None →
  (∀ j, settles fs c j → settles fs' c j) →
  tracked fs c → tracked fs' c.
Proof.
  intros Hn Hq Hout Hgone Hset [Hrc [Hk Hl]]. split; [by eapply recoverable_moved|]. split; cycle 1.
  { intros k Hin. rewrite <-(Hl k Hin). destruct Hin as [s ->]. apply (outside_lookup n q); [done|outside Hq..]. }
  intros n'. destruct (decide (n' = n)) as [->|Hne]; [by right|].
  assert (∀ k, dir_ n' `prefix_of` k → fs' !! k = fs !! k) as Hsame.
  { intros k [s ->]. apply (outside_lookup n q); [done|outside Hq..]. }
  destruct (Hk n') as [Hl'|[Hn' Hg]]; [left|right; by rewrite Hsame].
  intros k Hin. rewrite (Hsame k Hin). by apply Hl'.
Qed.

(** Settled except for the journal and unknown directories. *)
Definition ready fs c : Prop :=
  tracked fs c ∧ stores fs S_ c ∧ fs !! V_ = None ∧ fs !! N_ = None.

Lemma ready_moved n q fs fs' c :
  n ∉ ids c → out_of_the_way n q → same_outside [dir_ n; q] fs fs' →
  fs' !! dir_ n = None →
  (∀ j, settles fs c j → settles fs' c j) →
  ready fs c → ready fs' c.
Proof.
  intros Hn Hq Hout Hgone Hset (Hrc & Hs & HV & HN).
  split; [by eapply tracked_moved|]. unfold stores, content.
  rewrite !(outside_lookup n q fs fs'); try done; outside Hq.
Qed.

Lemma ready_without_journal fs c : ready fs c → ready (delete J_ fs) c.
Proof.
  intros ([[Ht Hval Hd HV HN HI HJ] Hk] & Hs & HVn & HNn).
  unfold ready, stores, content. fs_simpl. split; [|done]. split.
  - split; unfold is_dir, durable, stores, content; fs_simpl; try done; auto.
    eapply tree_ok_frame; [|done]. frame.
  - eapply keeps_databases_step; [done|].
    intros p k [<-|[n <-]] [s ->]; (rewrite lookup_delete_ne; [done|]; pne).
Qed.

(** A journal that could be settled still can once a dropped Database's
    directory has gone to the trash. *)
Lemma settles_trashed i fs c j :
  vacant fs (trash_directory r i) → settles fs c j →
  settles (move_tree (dir_ i) (trash_directory r i) fs) c j.
Proof.
  intros Hvac [Hv Hside]. pose proof (same_outside_move (dir_ i) _ fs Hvac) as Hout.
  split; [done|]. destruct Hside as [?|[Ha Hkind]]; [by left|right]. split; [done|].
  destruct (journal_kind j); [done..|]. destruct Hkind as [Hu Hdir]. split; [done|].
  destruct (decide (database_id j = i)) as [->|Hne]; [left; by apply trashed_gone|].
  rewrite (outside_lookup _ _ fs _ _ Hout) by pne.
  destruct Hdir as [?|[? Hv']]; [by left|right; split; [done|]].
  intros s. rewrite (outside_lookup _ _ fs _ _ Hout) by pne. apply Hv'.
Qed.

Lemma complete_operation_spec bl fs c j :
  ready fs c → is_dir fs J_ = false → settles fs c j → c ≠ before j →
  wp bl (complete_operation r j) fs
    (λ res fs', ready fs' c ∧ is_dir fs' J_ = false ∧ (errors bl = false → is_ok res = true))
    (λ fs', ready fs' c).
Proof.
  intros Hready HJ [_ [?|[_ Hkind]]] Hb; [done|]. pose proof Hready as ([[Ht _ _ _ _ _ _] _] & _).
  unfold complete_operation. destruct (journal_kind j) eqn:Hk.
  - apply wp_bind, wp_query. destruct (to_storage _ _ Ht _ Hkind) as [_ ->]. by apply wp_ret.
  - by apply wp_ret.
  - destruct Hkind as [Hunk [Hnone|[Hdir Hvac]]]; apply wp_bind, wp_query.
    { rewrite (proj2 (exists_false _ _) Hnone). by apply wp_ret. }
    rewrite (proj2 (exists_true fs (dir_ _))) by eauto. apply wp_bind, wp_query.
    pose proof (Hvac []) as Hv0. rewrite app_nil_r in Hv0.
    rewrite (proj2 (exists_false _ _) Hv0). apply wp_map_err.
    eapply wp_rename_dir;
      [done|pne|done|unfold trash_directory; rewrite parent_join; apply Ht| |simpl; naive_solver|done].
    pose proof (same_outside_move (dir_ (database_id j)) _ fs Hvac) as Hout.
    simpl. split_and!; [|unfold is_dir; by rewrite (outside_lookup _ _ fs _ _ Hout) by pne|done].
    eapply ready_moved; [done|by right|done|by apply trashed_gone| |done].
    intros j'. by apply settles_trashed.
Qed.

(** The lifecycle journal is settled: rolled back when the catalog is still
    the old one, completed when it is the new one. *)
Lemma recover_operation_spec bl fs c :
  ready fs c →
  wp bl (recover_operation r c) fs
    (λ res fs', ready fs' c ∧ (errors bl = false → is_ok res = true) ∧
                (is_ok res = true → fs' !! J_ = None))
    (λ fs', ready fs' c).
Proof.
  intros Hready. pose proof Hready as ([[Ht Hval Hd HV HN HI HJ] _] & _).
  unfold recover_operation. apply wp_bind, wp_query.
  destruct HJ as [HJ|(j & (b & Hb & Hdec) & Hset)].
  { rewrite (proj2 (exists_false _ _) HJ). simpl. by apply wp_ret. }
  assert (∀ fs', ready fs' c → is_dir fs' J_ = false →
    wp bl (remove_if_exists J_) fs'
      (λ res fs'', ready fs'' c ∧ (errors bl = false → is_ok res = true) ∧
                  (is_ok res = true → fs'' !! J_ = None)) (λ fs'', ready fs'' c)) as Hfinish.
  { intros fs' Hr' HJ'. apply wp_remove_if_exists; [done| |naive_solver|done].
    split; [by apply ready_without_journal|]. split; [done|]. by fs_simpl. }
  apply content_Some in Hb as [mj HJf].
  assert (is_dir fs J_ = false) as HJd by (unfold is_dir; by rewrite HJf).
  rewrite (proj2 (exists_true fs J_)) by eauto. simpl. apply wp_try, wp_map_err.
  eapply wp_read_file; [by eapply content_lookup| |simpl; naive_solver|done].
  simpl. rewrite Hdec. rewrite (proj1 Hset). simpl.
  case_decide as Hbefore.
  { apply wp_try. eapply wp_mono; [by apply Hfinish| |done].
    intros [[]|e] fs' Hpost; [apply wp_ret|]; done. }
  rewrite decide_False by (destruct Hset as [_ [?|[? _]]]; naive_solver).
  apply wp_try. eapply wp_mono; [by apply complete_operation_spec| |done].
  intros [[]|e] fs' (Hr' & HJ' & Hok); [by apply Hfinish|]. naive_solver.
Qed.

(** Directories unknown to the catalog are moved below [recovery]. *)
Lemma quarantine_step bl n fs c :
  ready fs c → fs !! J_ = None → n ∉ ids c → is_Some (fs !! dir_ n) →
  wp bl (rename (dir_ n) (orphan_ n)) fs
    (λ res fs', ready fs' c ∧ fs' !! J_ = None ∧ (errors bl = false → is_ok res = true) ∧
                (is_ok res = true → ∀ n', n' ≠ n → fs' !! dir_ n' = fs !! dir_ n'))
    (λ fs', ready fs' c).
Proof.
  intros Hready HJ Hn Hs. pose proof Hready as ([[Ht _ _ _ _ _ _] _] & _).
  assert (vacant fs (orphan_ n)) as Hvac by by apply Ht.
  pose proof (Hvac []) as Hv0. rewrite app_nil_r in Hv0.
  assert (∀ fs', same_outside [dir_ n; orphan_ n] fs fs' → fs' !! dir_ n = None →
    ready fs' c ∧ fs' !! J_ = None ∧ ∀ n', n' ≠ n → fs' !! dir_ n' = fs !! dir_ n') as Hmoved.
  { intros fs' Hout Hgone.
    assert (fs' !! J_ = None) as HJ' by by rewrite (outside_lookup _ _ fs fs' _ Hout) by pne.
    split; [|split; [done|intros; by rewrite (outside_lookup _ _ fs fs' _ Hout) by pne]].
    destruct Hready as [Hrc Hrest].
    eapply (ready_moved n (orphan_ n) fs); [done|by left|done|done| |by split].
    intros j [Hv [?|[Ha Hk]]]; split; auto. right. split; [done|].
    destruct (journal_kind j); [done..|]. destruct Hk as [Hu Hd]. split; [done|].
    destruct (decide (database_id j = n)) as [->|Hne]; [by left|].
    rewrite (outside_lookup _ _ fs fs' _ Hout) by pne.
    destruct Hd as [?|[? Hv']]; [by left|right; split; [done|]].
    intros s. rewrite (outside_lookup _ _ fs fs' _ Hout) by pne. apply Hv'. }
  destruct Hs as [[m b|] Hs].
  - eapply wp_rename_file; [done|unfold is_dir; by rewrite Hv0|rewrite parent_join; apply Ht|..].
    + destruct (Hmoved (<[orphan_ n := NFile m b]> (delete (dir_ n) fs))) as (? & ? & ?);
        [|unfold database_directory; by fs_simpl|done].
      apply same_outside_rename_file.
    + intros. split; [done|naive_solver].
    + done.
  - eapply wp_rename_dir; [done|pne|done|rewrite parent_join; apply Ht|..].
    + destruct (Hmoved (move_tree (dir_ n) (orphan_ n) fs)) as (? & ? & ?); [| |done].
      * by apply same_outside_move.
      * pose proof (move_tree_old (dir_ n) (orphan_ n) fs Hvac []) as Hold.
        rewrite app_nil_r in Hold. apply Hold. pne.
    + intros. split; [done|naive_solver].
    + done.
Qed.

Lemma quarantine_spec bl names fs c :
  ready fs c → fs !! J_ = None → NoDup names →
  (∀ n, n ∈ names → is_Some (fs !! dir_ n)) →
  wp bl (quarantine r (list_to_set (ids c)) names) fs
    (λ res fs', ready fs' c ∧ fs' !! J_ = None ∧ (errors bl = false → is_ok res = true))
    (λ fs', ready fs' c).
Proof.
  revert fs. induction names as [|n names IH]; intros fs Hready HJ Hnd Hall; simpl.
  { by apply wp_ret. }
  inversion Hnd as [|? ? Hn Hnd']; subst.
  case_decide as Hk; [apply IH; set_solver|].
  assert (n ∉ ids c) as Hunk by set_solver.
  assert (vacant fs (orphan_ n)) as Hvac.
  { destruct Hready as ([[Ht _ _ _ _ _ _] _] & _). apply Ht; [done|apply Hall; set_solver]. }
  pose proof (Hvac []) as Hv0. rewrite app_nil_r in Hv0.
  apply wp_bind, wp_query. rewrite (proj2 (exists_false _ _) Hv0).
  apply wp_try, wp_map_err. eapply wp_mono; [apply quarantine_step; set_solver| |done].
  intros [[]|e] fs' (Hready' & HJ' & Hok & Hsame); simpl; [|naive_solver].
  apply IH; [done..|]. intros n' Hn'. rewrite Hsame; [|done|]; set_solver.
Qed.

Lemma validate_storage_ok fs l :
  (∀ d, d ∈ l → fs !! dir_ (id d) = Some NDir ∧ is_file fs (database_path r (id d)) = true) →
  validate_storage_entries fs r l = Ok tt.
Proof.
  induction l as [|d l IH]; intros Hl; simpl; [done|].
  destruct (Hl d) as [Hd ->]; [set_solver|].
  rewrite (proj2 (is_dir_true _ _) Hd). simpl. apply IH. set_solver.
Qed.

End tracking.

(** The whole of start-up recovery. *)
Lemma load_spec bl fs c :
  recoverable fs c →
  wp bl (load r) fs
    (λ res fs', tracked fs fs' c ∧ (errors bl = false → is_ok res = true) ∧
                (∀ store, res = Ok store → store = mkCatalogStore r c ∧ settled fs' c))
    (λ fs', tracked fs fs' c).
Proof.
  intros Hrc. assert (tracked fs fs c) as Htr by (split; [done|split; [by left|done]]). unfold load. apply wp_bind, wp_query.
  rewrite (proj2 (is_dir_true fs r)) by apply Hrc. simpl.
  apply wp_try. eapply wp_mono; [by apply recover_atomic_state_spec| |done].
  intros [[]|e] fs1 (Hrc1 & Hok1 & Hs1); [|naive_solver]. destruct (Hs1 eq_refl) as (Hst & HV & HN).
  apply wp_try. eapply wp_read_catalog; [done| |naive_solver|done].
  rewrite (rc_valid _ _ (proj1 Hrc1)).
  apply wp_try. eapply wp_mono; [by apply recover_operation_spec| |by intros ? []].
  intros [[]|e] fs2 ([Hrc2 Hrest2] & Hok2 & HJ2); [|naive_solver]. specialize (HJ2 eq_refl).
  apply wp_try, wp_query. rewrite validate_storage_ok.
  2: { intros d Hd. apply (proj1 Hrc2). by apply list_elem_of_fmap_2. }
  apply wp_try. unfold recover_orphans. apply wp_try, wp_map_err.
  eapply wp_atomic; [|simpl|simpl; naive_solver|done].
  { unfold do_read_dir. by rewrite (to_databases _ _ (rc_tree _ _ (proj1 Hrc2))). }
  eapply wp_mono; [apply quarantine_spec; [by split|done|apply NoDup_children|]| |by intros ? []].
  { intros n. by rewrite elem_of_children. }
  intros [[]|e] fs3 ((Hrc3 & Hs3 & HV3 & HN3) & HJ3 & Hok3); [|naive_solver].
  apply wp_ret. split; [done|]. split; [done|]. intros store [= <-]. split; [done|].
  destruct Hrc3 as [[Ht3 Hval3 _ HVd _ _ _] _]. split; [done..|]. by split; [apply Ht3|..].
Qed.
End recovery.
