(* ===== verification/CatalogTheorems.v ===== *)
(** * Theorems about the catalog store

    Transitions are atomic, start-up recovery completes and can be repeated,
    what a torn journal and failed clean-ups lead to; and a concrete data
    directory on which all of it runs. *)

From Stdlib Require Import ZArith Lia Ascii.
From stdpp Require Import base list strings gmap countable.
From S2P Require Import Prelude Fs Codec Catalog CatalogProofs CatalogAtomic CatalogRecovery.

Open Scope string_scope.
Open Scope list_scope.

Section theorems.
Context `{Uuid, !Json Catalog, !Json OperationJournal, !JsonLaws Catalog, !JsonLaws OperationJournal}.
Context (r : path).

Implicit Types (fs : fsys) (c next : Catalog).

Abbreviation I_ := (join (join r "recovery") "interrupted-catalog.pending").

(** The storage a transition relies on: the entries of both catalogs have
    storage, and the journal can be settled whichever catalog survives. *)
Record prepared fs c next (k : OperationKind) (i : string) : Prop := {
  pr_before : settled r fs c;
  pr_valid : validate_catalog next = Ok tt;
  pr_after : tree_ok r fs next;
  pr_settles : settles r fs next (mkOperationJournal OPERATION_VERSION k i c next);
  pr_interrupted : fs !! I_ = None
}.

(** After an interrupted transition from [c] to [next]. *)
Definition interrupted fs' c next : Prop :=
  recoverable r fs' c ∨ recoverable r fs' next ∨
  (tree_ok r fs' c ∧ stores fs' (join r STATE_FILE) c ∧ journal_torn r fs').

Lemma holds_recoverable fs fs' c d j :
  settled r fs c → validate_catalog d = Ok tt → tree_ok r fs d → settles r fs d j →
  fs !! I_ = None → holds_catalog r fs fs' d →
  journal_absent r fs' ∨ journal_is r fs' j → recoverable r fs' d.
Proof.
  intros Hst Hval Ht Hset HI [Hsame HV HN Hd] HJ.
  assert (same_except [join r STATE_FILE; join r PREVIOUS_FILE; join r PENDING_FILE;
                       join r OPERATION_FILE; I_] fs fs') as Hsame'.
  { eapply same_except_mono; [|done]. set_solver. }
  split; try done.
  - by eapply tree_ok_frame.
  - right. rewrite Hsame; [done|]. rewrite !not_elem_of_cons. repeat split; try pne.
    apply not_elem_of_nil.
  - destruct HJ as [?|?]; [by left|right]. exists j. split; [done|]. by eapply settles_frame.
Qed.

Lemma unfinished_interrupted fs fs' c next k i :
  prepared fs c next k i →
  unfinished r fs c next (mkOperationJournal OPERATION_VERSION k i c next) fs' →
  interrupted fs' c next.
Proof.
  intros [Hst Hval Ht Hset HI] [[[Hh|Hh] HJ]|(Hh & Hs & Htorn)].
  - left. eapply holds_recoverable; [done|apply Hst..| |done|done|done].
    split; [done|by left].
  - right. left. by eapply holds_recoverable.
  - right. right. split; [|done]. destruct Hh as [Hsame _ _ _].
    eapply tree_ok_frame; [|apply Hst]. eapply same_except_mono; [|done]. set_solver.
Qed.

(** C2: a lifecycle transition of the catalog is atomic under every schedule
    of I/O errors, partial writes and crashes.  If it returns [Ok] the new
    catalog is in memory and a restart recovers exactly it.  If it returns an
    error the catalog in memory is unchanged; after an error or a crash, at
    whatever system call, a restart recovers the old or the new catalog whole,
    or the old catalog is installed and the journal is a torn prefix. *)
Theorem transition_atomic (store : CatalogStore) next k i w :
  root store = r →
  prepared (w_fs w) (catalog store) next k i →
  match transition store next k i w with
  | (Some (Ok _, store'), w') =>
      store' = mkCatalogStore r next ∧ recoverable r (w_fs w') next
  | (Some (Err _, store'), w') =>
      store' = store ∧ interrupted (w_fs w') (catalog store) next
  | (None, w') => interrupted (w_fs w') (catalog store) next
  end.
Proof.
  intros Hroot Hp. pose proof Hp as [[Ht Hv Hrest] Hval Ht' Hset HI].
  pose proof (transition_spec r Hostile store next k i (w_fs w) Hroot Hrest Hval w I eq_refl) as Hwp.
  destruct (transition store next k i w) as [[[[[]|e] store']|] w'].
  - destruct Hwp as [_ (-> & Hh & _ & Hj & _)]. split; [done|].
    eapply holds_recoverable; [exact (pr_before _ _ _ _ _ Hp)|done..|by right].
  - destruct Hwp as [_ (_ & -> & Hu)]. split; [done|]. by eapply unfinished_interrupted.
  - destruct Hwp as [_ Hu]. by eapply unfinished_interrupted.
Qed.

(** Start-up recovery succeeds: from every recoverable state, [load]
    without I/O errors returns the durable catalog, and leaves the catalog
    file installed, no journal, no pending file and every entry with storage. *)
Theorem load_recovers fs c u :
  recoverable r fs c →
  ∃ w', load r (fresh fs u) = (Some (Ok (mkCatalogStore r c)), w') ∧ settled r (w_fs w') c.
Proof.
  intros Hrc. destruct (wp_returns _ _ _ _ u (load_spec r Calm fs c Hrc)) as (res & w' & Hrun & Hres).
  destruct Hres as (_ & Hok & Hst). specialize (Hok eq_refl).
  destruct res as [store|e]; [|done]. destruct (Hst store eq_refl) as [-> Hs].
  exists w'. by rewrite Hrun.
Qed.

(** Recovery tolerates its own interruption: whatever I/O errors and
    crashes strike during [load], the state stays recoverable to the same
    catalog, and [load] never returns another one. *)
Theorem load_restartable c w :
  recoverable r (w_fs w) c →
  let '(res, w') := load r w in
  recoverable r (w_fs w') c ∧
  ∀ store, res = Some (Ok store) → store = mkCatalogStore r c ∧ settled r (w_fs w') c.
Proof.
  intros Hrc. pose proof (load_spec r Hostile (w_fs w) c Hrc w I eq_refl) as Hwp.
  destruct (load r w) as [[res|] w'].
  - destruct Hwp as [_ ([Hr _] & _ & Hs)]. naive_solver.
  - destruct Hwp as [_ [Hr _]]. by split.
Qed.

(** C35: a torn lifecycle journal stops every later start: the catalog is
    intact, but [load] refuses the data directory. *)
Theorem torn_journal_blocks_load fs c u :
  tree_ok r fs c → validate_catalog c = Ok tt →
  stores fs (join r STATE_FILE) c → fs !! join r PREVIOUS_FILE = None →
  fs !! join r PENDING_FILE = None → journal_torn r fs →
  ∃ e w', load r (fresh fs u) = (Some (Err ("invalid lifecycle journal: " +:+ e)), w') ∧
          w_fs w' = fs.
Proof.
  intros Ht Hval Hs HV HN (b & e & HJ & He).
  assert (wp Calm (load r) fs
    (λ res fs', res = Err ("invalid lifecycle journal: " +:+ e) ∧ fs' = fs) (λ _, False)) as Hwp.
  { unfold load. apply wp_bind, wp_query.
    rewrite (proj2 (is_dir_true fs r)) by apply Ht. simpl.
    apply wp_try. unfold recover_atomic_state.
    apply wp_try, wp_bind, wp_query.
    rewrite (stores_exists _ _ _ Hs). simpl. apply wp_ret.
    apply wp_try, wp_bind, wp_query.
    rewrite (proj2 (exists_false _ _) HN). apply wp_ret.
    apply wp_try, wp_bind, wp_query.
    rewrite (stores_exists _ _ _ Hs), (proj2 (exists_false _ _) HV). apply wp_ret.
    apply wp_bind, wp_query. rewrite (stores_exists _ _ _ Hs). apply wp_ret.
    apply wp_try. eapply wp_read_catalog; [done| |done..]. rewrite Hval.
    apply wp_try, wp_bind, wp_query.
    assert (exists_ fs (join r OPERATION_FILE) = true) as ->.
    { apply content_Some in HJ as [m HJ]. unfold exists_. by rewrite HJ. }
    apply wp_try, wp_map_err. eapply wp_read_file; [done| |done..].
    simpl. rewrite He. by apply wp_ret. }
  destruct (wp_returns _ _ _ _ u Hwp) as (res & w' & -> & -> & Hfs). eauto.
Qed.
End theorems.

(** ** A concrete data directory *)

Module Concrete.

#[export] Instance database_countable : Countable CatalogDatabase.
Proof.
  apply (inj_countable' (λ d, (id d, name d, state d)) (λ '(i, n, s), mkCatalogDatabase i n s)).
  by intros [].
Defined.

#[export] Instance catalog_countable : Countable Catalog.
Proof.
  apply (inj_countable' (λ c, (catalog_version c, databases c)) (λ '(v, l), mkCatalog v l)).
  by intros [].
Defined.

#[export] Instance kind_countable : Countable OperationKind.
Proof.
  apply (inj_countable'
    (λ k, match k with Create => 0 | Rename => 1 | Drop => 2 end)
    (λ n, match n with 0 => Create | 1 => Rename | _ => Drop end)).
  by intros [].
Defined.

#[export] Instance journal_countable : Countable OperationJournal.
Proof.
  apply (inj_countable'
    (λ j, (operation_version j, journal_kind j, database_id j, before j, after j))
    (λ '(v, k, i, b, a), mkOperationJournal v k i b a)).
  by intros [].
Defined.

#[export] Instance catalog_json : Json Catalog := Reference.json.
#[export] Instance journal_json : Json OperationJournal := Reference.json.
#[export] Instance catalog_json_laws : JsonLaws Catalog := Reference.json_laws.
#[export] Instance journal_json_laws : JsonLaws OperationJournal := Reference.json_laws.

(** A syntactic check that stands for the [uuid] crate in the examples. *)
#[export] Instance uuid : Uuid := {| uuid_parse_ok s := (String.length s =? 36)%nat |}.

Definition root : path := ["data"].
Definition id1 : string := "00000000-0000-4000-8000-000000000001".
Definition old : Catalog := mkCatalog 1 [mkCatalogDatabase id1 "knowledge" "ready"].
Definition new : Catalog := mkCatalog 1 [mkCatalogDatabase id1 "notes" "ready"].

Definition document (c : Catalog) : bytes :=
  match to_vec_pretty c with Ok b => b ++ [newline] | Err _ => [] end.

Definition entries : list (path * node) :=
  [(["data"], NDir); (["data"; "databases"], NDir); (["data"; "snapshots"], NDir);
   (["data"; "locks"], NDir); (["data"; "recovery"], NDir); (["data"; "trash"], NDir);
   (["data"; "server-state"], NFile 420 (document old));
   (["data"; "databases"; id1], NDir);
   (["data"; "databases"; id1; "database.nostdb"], NFile 420 [x01])].

Definition fs : fsys := list_to_map entries.
Definition store : CatalogStore := mkCatalogStore root old.

Lemma tree_ok_ids c : ids c = [id1] → tree_ok root fs c.
Proof.
  intros Hids. split; try (vm_compute; reflexivity); rewrite Hids.
  - intros n ->%list_elem_of_singleton. split; vm_compute; reflexivity.
  - intros n Hn [x Hx]. exfalso. apply elem_of_list_to_map_2 in Hx.
    unfold entries, database_directory, join, root in Hx. simpl in Hx.
    set_unfold. naive_solver.
Qed.

Lemma old_settled : settled root fs old.
Proof.
  split; [by apply tree_ok_ids|vm_compute; reflexivity|].
  split; try (vm_compute; reflexivity).
  exists (document old). split; [vm_compute; reflexivity|]. by apply json_newline.
Qed.

Lemma rename_prepared : prepared root fs old new Rename id1.
Proof.
  split; [apply old_settled|vm_compute; reflexivity|by apply tree_ok_ids| |vm_compute; reflexivity].
  split; [done|]. by right.
Qed.

Lemma old_recoverable : recoverable root fs old.
Proof.
  destruct old_settled as [Ht Hv [Hr Hs HV HN HJ]].
  split; try done; by left.
Qed.

Lemma transition_atomic_witness :
  let w := World fs [NoFault; CrashAt 3] 18 in
  match transition store new Rename id1 w with
  | (Some (Ok _, store'), w') =>
      store' = mkCatalogStore root new ∧ recoverable root (w_fs w') new
  | (Some (Err _, store'), w') =>
      store' = store ∧ interrupted root (w_fs w') old new
  | (None, w') => interrupted root (w_fs w') old new
  end.
Proof. apply (transition_atomic root store new Rename id1); [reflexivity|apply rename_prepared]. Defined.

Lemma load_recovers_witness :
  ∃ w', load root (fresh fs 18) = (Some (Ok (mkCatalogStore root old)), w') ∧
        settled root (w_fs w') old.
Proof. apply (load_recovers root fs old 18). apply old_recoverable. Defined.

Lemma load_restartable_witness :
  let '(res, w') := load root (World fs [NoFault; IoFail 0 "disk"] 18) in
  recoverable root (w_fs w') old ∧
  ∀ store', res = Some (Ok store') → store' = mkCatalogStore root old ∧ settled root (w_fs w') old.
Proof. apply (load_restartable root old). apply old_recoverable. Defined.

(** The state a crash inside the write of the journal leaves behind. *)
Definition torn : fsys := <[join root OPERATION_FILE := NFile 420 [x30]]> fs.

Lemma torn_reached :
  (transition store new Rename id1 (World fs [NoFault; CrashAt 1] 18)).1 = None ∧
  content (w_fs (transition store new Rename id1 (World fs [NoFault; CrashAt 1] 18)).2)
    (join root OPERATION_FILE) = content torn (join root OPERATION_FILE).
Proof. split; vm_compute; reflexivity. Qed.

Lemma torn_journal_blocks_load_witness :
  ∃ e w', load root (fresh torn 18) = (Some (Err ("invalid lifecycle journal: " +:+ e)), w') ∧
          w_fs w' = torn.
Proof.
  apply (torn_journal_blocks_load root torn old 18); try (vm_compute; reflexivity).
  - apply (tree_ok_frame root fs); [|by apply tree_ok_ids].
    apply same_except_insert; [set_solver|auto with nostdb].
  - exists (document old). split; [vm_compute; reflexivity|]. by apply json_newline.
  - exists [x30], "invalid document". split; vm_compute; reflexivity.
Defined.

(** Schedules for the twelve system calls of a failing transition. *)
Definition fails_at_8 : list fault := replicate 7 NoFault ++ [IoFail 0 "disk full"].
Definition fails_at_9_and_11 : list fault :=
  replicate 8 NoFault ++ [IoFail 0 "disk full"; NoFault; IoFail 0 "disk full"].

(** Whether the transition returned [Ok], if it returned, and what it left. *)
Definition outcome (fl : list fault) (fs : fsys) : option bool * fsys :=
  match transition store new Rename id1 (World fs fl 18) with
  | (Some (res, _), w') => (Some (is_ok res), w_fs w')
  | (None, w') => (None, w_fs w')
  end.

(** One failing rename (of [server-state] to [server-state.previous]) makes
    a transition return an error and leaves [server-state.pending] behind; from
    then on a transition fails although no further I/O error occurs. *)
Theorem leftover_pending_blocks_transitions :
  let '(res1, fs1) := outcome fails_at_8 fs in
  res1 = Some false ∧ exists_ fs1 (join root PENDING_FILE) = true ∧
  (outcome [] fs1).1 = Some false.
Proof. vm_compute. repeat split. Qed.

End Concrete.
