(* ===== verification/Wire.v ===== *)
(** * JSON shapes of query values ([src/src/wire.rs])

    The conversion of JSON parameters to engine values and of engine results
    to JSON.  Strings are byte strings; an [f64] is its 64-bit pattern. *)

From Stdlib Require Import ZArith Lia Ascii.
From stdpp Require Import base list strings gmap sorting.
From S2P Require Import Prelude.

Open Scope string_scope.
Open Scope list_scope.

Definition i64_min : Z := - 2 ^ 63.
Definition i64_max : Z := 2 ^ 63 - 1.

(** ** JSON values

    [serde_json::Number] is an unsigned, a negative or a floating number;
    [serde_json::Map] keeps its keys in order. *)

Inductive Number : Type :=
| PosInt (n : Z)
| NegInt (n : Z)
| Flt (bits : Z).

Inductive Value : Type :=
| Null
| Bool (b : bool)
| Num (n : Number)
| Str (s : string)
| Array (l : list Value)
| Object (l : list (string * Value)).

(** [Map::insert] on the ordered representation. *)
Fixpoint map_insert {A} (k : string) (v : A) (l : list (string * A)) : list (string * A) :=
  match l with
  | [] => [(k, v)]
  | (k', v') :: l' =>
      if String.eqb k k' then (k, v) :: l'
      else if String.ltb k k' then (k, v) :: l
      else (k', v') :: map_insert k v l'
  end.

(** [collect::<Map<_, _>>()], and the objects of the [json!] macro. *)
Definition map_of_list {A} (l : list (string * A)) : list (string * A) :=
  fold_left (λ m '(k, v), map_insert k v m) l [].

Definition object (l : list (string * Value)) : Value := Object (map_of_list l).

(** [json!(n)] for integers and [json!(f)] for floats: a float that is not
    finite becomes [null]. *)
Definition json_int (z : Z) : Value := Num (if (z <? 0)%Z then NegInt z else PosInt z).

Definition is_finite (bits : Z) : bool :=
  negb (Z.land (Z.shiftr bits 52) 2047 =? 2047)%Z.

Definition json_float (bits : Z) : Value := if is_finite bits then Num (Flt bits) else Null.

(** [Number::as_i64] *)
Definition as_i64 (n : Number) : option Z :=
  match n with
  | PosInt z => if (z <=? i64_max)%Z then Some z else None
  | NegInt z => Some z
  | Flt _ => None
  end.

(** ** Engine values

    The constructors [wire.rs] matches on. *)

Inductive EdgeKind : Type := Directed | Undirected | Bidirectional.

Inductive QueryValue : Type :=
| QNull
| QBoolean (b : bool)
| QInteger (z : Z)
| QFloat (bits : Z)
| QString (s : string)
| QBytes (b : bytes)
| QDuration (nanoseconds : Z)
| QList (l : list QueryValue)
| QMap (l : list (string * QueryValue))
| QNode (id : Z) (state : string) (labels : list string) (properties : list (string * QueryValue))
| QEdge (id : Z) (kind : EdgeKind) (source target : Z) (relationship_type : string)
        (properties : list (string * QueryValue)).

Abbreviation Parameters := (list (string * QueryValue)).

Record QueryResult : Type := mkQueryResult {
  columns : list string;
  rows : list (list QueryValue);
  ordered : bool
}.

Record WriteSummary : Type := mkWriteSummary {
  nodes_created : Z;
  edges_created : Z;
  nodes_deleted : Z;
  edges_deleted : Z;
  properties_set : Z;
  properties_removed : Z
}.

Record WriteResult : Type := mkWriteResult {
  write_summary : WriteSummary;
  write_rows : option QueryResult
}.

Inductive StatementResult : Type :=
| Read (r : QueryResult)
| Write (r : WriteResult).

(** ** From JSON to engine values *)

(** The cast [n as f64] of an integer, by its bit pattern. *)
Class FloatCast : Type := { int_as_f64 : Z → Z }.

Section conversion.
Context `{FloatCast}.

(** [Number::as_f64] *)
Definition as_f64 (n : Number) : option Z :=
  match n with
  | PosInt z | NegInt z => Some (int_as_f64 z)
  | Flt bits => Some bits
  end.

Definition query_number (n : Number) : result QueryValue string :=
  match as_i64 n with
  | Some z => Ok (QInteger z)
  | None =>
      match as_f64 n with
      | Some bits => Ok (QFloat bits)
      | None => Err "parameter number is outside the supported range"
      end
  end.

Fixpoint query_value (value : Value) : result QueryValue string :=
  match value with
  | Null => Ok QNull
  | Bool b => Ok (QBoolean b)
  | Num n => query_number n
  | Str s => Ok (QString s)
  | Array l => map_ok QList (collect (map query_value l))
  | Object l =>
      map_ok (λ kvs, QMap (map_of_list kvs))
        (collect (map (λ '(k, v), map_ok (pair k) (query_value v)) l))
  end.

(** [parameters: BTreeMap<String, Value>] in key order. *)
Definition parameters (values : list (string * Value)) : result Parameters string :=
  map_ok map_of_list (collect (map (λ '(k, v), map_ok (pair k) (query_value v)) values)).
End conversion.

(** ** From engine values to JSON *)

Definition edge_kind_name (k : EdgeKind) : string :=
  match k with
  | Directed => "directed"
  | Undirected => "directionless"
  | Bidirectional => "bidirectional"
  end.

Definition DIGITS : list ascii := String.list_ascii_of_string "0123456789abcdef".

Definition byte_value (b : byte) : Z := Z.of_N (Byte.to_N b).

Definition digit (n : Z) : ascii := nth (Z.to_nat n) DIGITS "0"%char.

Fixpoint hex (b : bytes) : string :=
  match b with
  | [] => ""
  | x :: b' =>
      String (digit (Z.shiftr (byte_value x) 4))
        (String (digit (Z.land (byte_value x) 15)) (hex b'))
  end.

Definition ascii_lower (c : ascii) : ascii :=
  let n := nat_of_ascii c in
  if ((65 <=? n)%nat && (n <=? 90)%nat) then ascii_of_nat (n + 32) else c.

Fixpoint to_ascii_lowercase (s : string) : string :=
  match s with
  | EmptyString => EmptyString
  | String c s' => String (ascii_lower c) (to_ascii_lowercase s')
  end.

Fixpoint query_value_json (value : QueryValue) : Value :=
  match value with
  | QNull => Null
  | QBoolean b => Bool b
  | QInteger z => json_int z
  | QFloat bits => json_float bits
  | QString s => Str s
  | QBytes b => Str (hex b)
  | QDuration n => object [("nanoseconds", json_int n)]
  | QList l => Array (map query_value_json l)
  | QMap l => object (map (λ '(k, v), (k, query_value_json v)) l)
  | QNode i st labels props =>
      object [("id", json_int i); ("state", Str (to_ascii_lowercase st));
              ("labels", Array (map Str labels));
              ("properties", object (map (λ '(k, v), (k, query_value_json v)) props))]
  | QEdge i k s t ty props =>
      object [("id", json_int i); ("kind", Str (edge_kind_name k));
              ("source", json_int s); ("target", json_int t); ("type", Str ty);
              ("properties", object (map (λ '(k, v), (k, query_value_json v)) props))]
  end.

Definition query_result (r : QueryResult) : Value :=
  object [("columns", Array (map Str (columns r)));
          ("rows", Array (map (λ row, Array (map query_value_json row)) (rows r)));
          ("ordered", Bool (ordered r))].

Definition write_result (r : WriteResult) : Value :=
  let s := write_summary r in
  object [("summary",
           object [("nodes_created", json_int (nodes_created s));
                   ("edges_created", json_int (edges_created s));
                   ("nodes_deleted", json_int (nodes_deleted s));
                   ("edges_deleted", json_int (edges_deleted s));
                   ("properties_set", json_int (properties_set s));
                   ("properties_removed", json_int (properties_removed s))]);
          ("result", match write_rows r with Some q => query_result q | None => Null end)].

Definition statement (value : StatementResult) : Value :=
  match value with
  | Read r => object [("kind", Str "read"); ("result", query_result r)]
  | Write r => object [("kind", Str "write"); ("write", write_result r)]
  end.

(** [columns.iter().enumerate()] from [index] on. *)
Fixpoint row_pairs (index : nat) (cols : list string) (row : list QueryValue)
    : list (string * Value) :=
  match cols with
  | [] => []
  | c :: cols' =>
      (c, match row !! index with Some v => query_value_json v | None => Null end)
        :: row_pairs (S index) cols' row
  end.

Definition row_object (cols : list string) (row : list QueryValue) : Value :=
  object (row_pairs 0 cols row).

(** ** Induction on nested values *)

Lemma Value_nested_ind (P : Value → Prop) :
  P Null → (∀ b, P (Bool b)) → (∀ n, P (Num n)) → (∀ s, P (Str s)) →
  (∀ l, Forall P l → P (Array l)) →
  (∀ l, Forall (λ kv, P kv.2) l → P (Object l)) →
  ∀ v, P v.
Proof.
  intros H1 H2 H3 H4 H5 H6. fix IH 1.
  intros [|b|n|s|l|l]; [exact H1|apply H2|apply H3|apply H4| |].
  - apply H5. induction l as [|v l IHl]; constructor; [apply IH|apply IHl].
  - apply H6. induction l as [|[k v] l IHl]; constructor; [apply IH|apply IHl].
Qed.

Lemma QueryValue_nested_ind (P : QueryValue → Prop) :
  P QNull → (∀ b, P (QBoolean b)) → (∀ z, P (QInteger z)) → (∀ f, P (QFloat f)) →
  (∀ s, P (QString s)) → (∀ b, P (QBytes b)) → (∀ n, P (QDuration n)) →
  (∀ l, Forall P l → P (QList l)) →
  (∀ l, Forall (λ kv, P kv.2) l → P (QMap l)) →
  (∀ i st lb l, Forall (λ kv, P kv.2) l → P (QNode i st lb l)) →
  (∀ i k s t ty l, Forall (λ kv, P kv.2) l → P (QEdge i k s t ty l)) →
  ∀ v, P v.
Proof.
  intros H1 H2 H3 H4 H5 H6 H7 HL HM HN HE. fix IH 1.
  intros [| | | | | | |l|l|i st lb l|i k s t ty l];
    [exact H1|apply H2|apply H3|apply H4|apply H5|apply H6|apply H7| | | |].
  - apply HL. induction l as [|v l IHl]; constructor; [apply IH|apply IHl].
  - apply HM. induction l as [|[k v] l IHl]; constructor; [apply IH|apply IHl].
  - apply HN. induction l as [|[k v] l IHl]; constructor; [apply IH|apply IHl].
  - apply HE. induction l as [|[k' v] l IHl]; constructor; [apply IH|apply IHl].
Qed.

(** ** Ordered maps *)

Definition keys_sorted {A} (l : list (string * A)) : Prop := StronglySorted string_lt l.*1.

Lemma map_insert_elem {A} k (v : A) l x :
  x ∈ (map_insert k v l).*1 → x = k ∨ x ∈ l.*1.
Proof.
  induction l as [|[k' v'] l IH]; simpl; [set_solver|].
  destruct (String.eqb k k') eqn:He; simpl; [apply String.eqb_eq in He as ->; set_solver|].
  destruct (String.ltb k k'); simpl; set_solver.
Qed.

Lemma map_insert_sorted {A} k (v : A) l : keys_sorted l → keys_sorted (map_insert k v l).
Proof.
  unfold keys_sorted. induction l as [|[k' v'] l IH]; simpl; [repeat constructor|].
  intros Hs. inversion Hs as [|? ? Hs' Hall]; subst.
  destruct (String.eqb k k') eqn:He; [by apply String.eqb_eq in He as ->|].
  destruct (String.ltb k k') eqn:Hl; simpl.
  - constructor; [done|]. constructor; [done|]. eapply Forall_impl; [exact Hall|].
    intros x Hx. simpl in *. by trans k'.
  - constructor; [by apply IH|]. rewrite Forall_forall in *. intros x Hx.
    apply map_insert_elem in Hx as [->|Hx]; [|by apply Hall].
    apply string_lt_total; [|done]. by intros ->; apply String.eqb_neq in He.
Qed.

Lemma map_insert_last {A} k (v : A) l :
  Forall (λ k', string_lt k' k) l.*1 → map_insert k v l = l ++ [(k, v)].
Proof.
  induction l as [|[k' v'] l IH]; simpl; [done|]. inversion 1 as [|? ? Hk Hall]; subst.
  destruct (String.eqb k k') eqn:He.
  { apply String.eqb_eq in He as ->. by destruct (string_lt_irrefl k'). }
  rewrite (string_lt_asym _ _ Hk). by rewrite IH.
Qed.

Lemma map_of_list_sorted_id {A} (l : list (string * A)) : keys_sorted l → map_of_list l = l.
Proof.
  assert (∀ acc, keys_sorted (acc ++ l) →
    fold_left (λ m '(k, v), map_insert k v m) l acc = acc ++ l) as Hgen.
  { induction l as [|[k v] l IH]; intros acc Hs; simpl; [by rewrite app_nil_r|].
    assert (Forall (λ k', string_lt k' k) acc.*1) as Hlt.
    { unfold keys_sorted in Hs. rewrite fmap_app, fmap_cons in Hs. clear IH.
      induction acc as [|[a va] acc IH]; simpl in *; [constructor|].
      inversion Hs as [|? ? Hs' Hall]; subst. constructor; [|by apply IH].
      rewrite Forall_forall in Hall. apply Hall. set_solver. }
    rewrite map_insert_last by done. rewrite IH.
    - by rewrite <-app_assoc.
    - by rewrite <-app_assoc. }
  intros Hs. by apply (Hgen []).
Qed.

(** Every JSON object the server builds has its keys in strict order. *)
Lemma map_of_list_sorted {A} (l : list (string * A)) : keys_sorted (map_of_list l).
Proof.
  unfold map_of_list. assert (keys_sorted (A:=A) []) as H by constructor. revert H.
  generalize (@nil (string * A)) as acc. induction l as [|[k v] l IH]; intros acc Hacc; simpl; [done|].
  apply IH. by apply map_insert_sorted.
Qed.

(** ** Parameters *)

Section parameter_theorems.
Context `{FloatCast}.

Lemma query_number_total n : ∃ q, query_number n = Ok q.
Proof. destruct n as [z|z|f]; unfold query_number; simpl; [case_match|..]; eauto. Qed.

Lemma collect_total {A B E} (f : A → result B E) (l : list A) :
  Forall (λ a, ∃ b, f a = Ok b) l → ∃ l', collect (map f l) = Ok l'.
Proof.
  induction 1 as [|a l [b Hb] Hl [l' IH]]; simpl; [eauto|].
  rewrite Hb. simpl. rewrite IH. simpl. eauto.
Qed.

Lemma query_value_total v : ∃ q, query_value v = Ok q.
Proof.
  induction v as [|b|n|s|l IH|l IH] using Value_nested_ind; simpl; eauto.
  - apply query_number_total.
  - destruct (collect_total query_value l IH) as [l' ->]. simpl. eauto.
  - destruct (collect_total (λ '(k, v), map_ok (pair k) (query_value v)) l) as [l' ->];
      [|simpl; eauto].
    eapply Forall_impl; [exact IH|]. intros [k v] [q Hq]. simpl in *. rewrite Hq. simpl. eauto.
Qed.

(** The conversion of parameters never fails: the error
    about numbers outside the supported range cannot be produced. *)
Theorem parameters_never_fail values : ∃ ps, parameters values = Ok ps.
Proof.
  unfold parameters.
  destruct (collect_total (λ '(k, v), map_ok (pair k) (query_value v)) values) as [l' ->];
    [|simpl; eauto].
  apply Forall_forall. intros [k v] _. destruct (query_value_total v) as [q ->]. simpl. eauto.
Qed.

(** Values a client can send as a parameter: no bytes, durations, nodes or edges. *)
Inductive plain : QueryValue → Prop :=
| plain_null : plain QNull
| plain_bool b : plain (QBoolean b)
| plain_int z : (i64_min ≤ z ≤ i64_max)%Z → plain (QInteger z)
| plain_float f : is_finite f = true → plain (QFloat f)
| plain_string s : plain (QString s)
| plain_list l : Forall plain l → plain (QList l)
| plain_map l : Forall (λ kv, plain kv.2) l → keys_sorted l → plain (QMap l).

Lemma query_number_json_int z :
  (i64_min ≤ z ≤ i64_max)%Z → query_value (json_int z) = Ok (QInteger z).
Proof.
  intros Hz. unfold json_int, query_value, query_number.
  destruct (z <? 0)%Z eqn:Hneg; simpl; [done|].
  by rewrite (proj2 (Z.leb_le z i64_max)) by lia.
Qed.

Lemma collect_map_id {A B E} (f : A → result B E) (g : B → A) (l : list B) :
  Forall (λ b, f (g b) = Ok b) l → collect (map f (map g l)) = Ok l.
Proof. induction 1 as [|b l Hb Hl IH]; simpl; [done|]. rewrite Hb. simpl. by rewrite IH. Qed.

(** C33: what a query returns can be sent back as a parameter: for values made of
    null, Booleans, [i64] integers, finite floats, strings, lists and maps, the
    JSON rendering converts back to the same value. *)
Theorem parameter_round_trip q : plain q → query_value (query_value_json q) = Ok q.
Proof.
  induction q as [| | | | | | |l IH|l IH|i st lb l IH|i k s t ty l IH] using QueryValue_nested_ind;
    intros Hp; inversion Hp as [| |? Hz|? Hf| |? Hall|? Hall Hs]; subst; clear Hp; try reflexivity.
  - apply query_number_json_int, Hz.
  - change (query_value (json_float f) = Ok (QFloat f)). unfold json_float. rewrite Hf. reflexivity.
  - simpl. rewrite collect_map_id; [done|].
    rewrite Forall_forall in *. intros q Hq. by apply IH; [|apply Hall].
  - simpl. assert (keys_sorted (map (λ '(k, v), (k, query_value_json v)) l)) as Hs'.
    { unfold keys_sorted in *. rewrite <-list_fmap_compose.
      rewrite (list_fmap_ext _ fst) by by intros ? [? ?]. done. }
    rewrite (map_of_list_sorted_id _ Hs').
    rewrite (collect_map_id _ (λ '(k, v), (k, query_value_json v))).
    + simpl. by rewrite map_of_list_sorted_id.
    + rewrite Forall_forall in *. intros [k q] Hq. simpl.
      pose proof (IH (k, q) Hq (Hall (k, q) Hq)) as Heq. simpl in Heq. by rewrite Heq.
Qed.

End parameter_theorems.

(** ** Hexadecimal rendering *)

Definition digit_value (c : ascii) : option Z :=
  let n := Z.of_nat (nat_of_ascii c) in
  if ((48 <=? n) && (n <=? 57))%Z then Some (n - 48)%Z
  else if ((97 <=? n) && (n <=? 102))%Z then Some (n - 87)%Z
  else None.

(** The reader a client needs for [QueryValue::Bytes]. *)
Fixpoint unhex (s : string) : option bytes :=
  match s with
  | EmptyString => Some []
  | String h (String l s') =>
      match digit_value h, digit_value l, unhex s' with
      | Some h', Some l', Some b =>
          option_map (λ x, x :: b) (Byte.of_N (Z.to_N (Z.lor (Z.shiftl h' 4) l')))
      | _, _, _ => None
      end
  | String _ EmptyString => None
  end.

(** Byte strings are rendered without loss: two lower-case hexadecimal
    digits per byte, from which the bytes can be read back. *)
Theorem hex_round_trip b : unhex (hex b) = Some b ∧ String.length (hex b) = 2 * length b.
Proof.
  induction b as [|x b [IH1 IH2]]; [done|]. split.
  - simpl. rewrite IH1. by destruct x.
  - simpl. rewrite IH2. lia.
Qed.

Section wire_witness.
#[local] Instance truncating_cast : FloatCast := {| int_as_f64 z := z |}.

Lemma parameter_round_trip_witness :
  query_value (query_value_json (QMap [("a", QList [QInteger (-3); QNull]); ("b", QString "x")])) =
  Ok (QMap [("a", QList [QInteger (-3); QNull]); ("b", QString "x")]).
Proof.
  apply parameter_round_trip. constructor.
  - repeat constructor; vm_compute; discriminate.
  - repeat constructor.
Defined.
End wire_witness.
