(* ===== verification/Messages.v ===== *)
(** * Messages of the database protocol ([src/client/src/lib.rs])

    The wire types shared by the client and the server. *)

From Stdlib Require Import ZArith.
From stdpp Require Import base list strings.
From S2P Require Import Prelude Catalog Wire.

Definition DATABASE_PROTOCOL_VERSION : Z := 1.
Definition MAX_FRAME_BYTES : Z := 1024 * 1024.
Definition SNAPSHOT_CHUNK_BYTES : Z := 256 * 1024.

Inductive ClientRole : Type := RoleQuery | RoleAdmin.

#[global] Instance ClientRole_eq_dec : EqDecision ClientRole.
Proof. solve_decision. Defined.

Inductive ErrorCode : Type :=
| UnsupportedProtocol
| AuthenticationFailed
| ProtocolViolation
| PermissionDenied
| DatabaseNotSelected
| DatabaseNotFound
| DatabaseAlreadyExists
| InvalidDatabaseName
| DatabaseBusy
| QueryError
| ResourceLimit
| Cancelled
| TransactionAlreadyActive
| NoTransaction
| RequestTooLarge
| SnapshotIncompatible
| RecoveryRequired
| InternalError.

#[global] Instance ErrorCode_eq_dec : EqDecision ErrorCode.
Proof. solve_decision. Defined.

Record WireQueryLimits : Type := mkWireQueryLimits {
  wire_max_rows : option Z;
  wire_max_memory_bytes : option Z;
  wire_max_operations : option Z;
  wire_max_traversals : option Z
}.

Record DatabaseDetails : Type := mkDatabaseDetails {
  details_summary : DatabaseSummary;
  ndb_format_version : Z;
  schema_revision : Z;
  generation : Z;
  logical_checksum : string;
  healthy : bool;
  schemas : Z;
  nodes : Z;
  edges : Z
}.

Inductive ClientRequest : Type :=
| Hello (protocol_version : Z) (credential client_name : string)
| Ping
| SelectDatabase (database : string)
| Query (query : string) (parameters : list (string * Value)) (read_only stream : bool)
        (limits : option WireQueryLimits)
| Begin
| Commit
| Rollback
| Cancel (target_request_id : Z)
| DatabaseCreate (name : string)
| DatabaseList
| DatabaseInspect (database : string)
| DatabaseRename (database new_name : string)
| DatabaseDrop (database confirm_name : string)
| SnapshotExport (database : string)
| SnapshotRestoreBegin (database : string) (total_bytes : Z)
| SnapshotRestoreChunk (sequence : Z) (data : string)
| SnapshotRestoreCommit
| SnapshotRestoreAbort
| LogicalExport (database : string)
| LogicalImport (database : string) (package : Value).

Inductive ServerResponse : Type :=
| RHello (protocol_version : Z) (server_version : string) (role : ClientRole) (max_frame_bytes : Z)
| RPong
| RDatabaseSelected (database : DatabaseSummary)
| RResult (statement : Value)
| RStreamStart (columns : list string) (ordered : bool)
| RStreamRow (row : list Value)
| RStreamEnd (rows : Z)
| RQueued (statements : Z)
| RTransaction (state : string) (results : list Value)
| RCancelled (target_request_id : Z)
| RDatabaseCreated (database : DatabaseSummary)
| RDatabaseList (databases : list DatabaseSummary)
| RDatabaseInfo (database : DatabaseDetails)
| RDatabaseRenamed (database : DatabaseSummary)
| RDatabaseDropped (database_id name : string)
| RSnapshotStart (total_bytes : Z)
| RSnapshotChunk (sequence : Z) (data : string)
| RSnapshotEnd (chunks : Z)
| RSnapshotRestore (state : string) (bytes : Z)
| RLogicalPackage (package : Value)
| RLogicalImported (modules : Z)
| RError (code : ErrorCode) (message : string) (retryable : bool).

Record ClientFrame : Type := mkClientFrame {
  request_id : Z;
  request : ClientRequest
}.

Record ServerFrame : Type := mkServerFrame {
  response_id : Z;
  response : ServerResponse
}.

(** [daemon::ProtocolFailure] *)
Record ProtocolFailure : Type := mkProtocolFailure {
  failure_code : ErrorCode;
  failure_message : string;
  failure_retryable : bool
}.

Definition failure (code : ErrorCode) (message : string) : ProtocolFailure :=
  mkProtocolFailure code message false.

Definition retryable_failure (code : ErrorCode) (message : string) : ProtocolFailure :=
  mkProtocolFailure code message true.
