(* ===== verification/Client.v ===== *)
(** * Framing and the blocking client ([src/client/src/lib.rs])

    Length-prefixed JSON frames, as the blocking client and the asynchronous
    server ([src/src/protocol.rs]) read and write them, and the client's
    request identifiers. *)

From Stdlib Require Import ZArith Lia Ascii.
From stdpp Require Import base list strings sorting.
From S2P Require Import Prelude Codec Wire Messages.

Open Scope string_scope.
Open Scope list_scope.

(** ** Big-endian lengths *)

Definition byte_of_Z (z : Z) : byte :=
  match Byte.of_N (Z.to_N (z mod 256)) with Some b => b | None => x00 end.

(** [u32::to_be_bytes] and [u32::from_be_bytes] *)
Definition to_be_bytes (n : Z) : bytes :=
  [byte_of_Z (Z.shiftr n 24); byte_of_Z (Z.shiftr n 16); byte_of_Z (Z.shiftr n 8); byte_of_Z n].

Definition from_be_bytes (b : bytes) : Z :=
  fold_left (λ acc x, Z.lor (Z.shiftl acc 8) (byte_value x)) b 0%Z.

(** [serde_json::to_vec] and [serde_json::from_slice] for a message type. *)
Class Payload (T : Type) : Type := {
  to_vec : T → result bytes string;
  of_slice : bytes → result T string
}.

(** Whether a message carries a floating-point number. *)
Fixpoint value_float (v : Value) : bool :=
  match v with
  | Num (Flt _) => true
  | Array l => existsb value_float l
  | Object l => existsb (λ '(_, v), value_float v) l
  | _ => false
  end.

Class Floats (T : Type) : Type := { has_float : T → bool }.

#[export] Instance request_floats : Floats ClientFrame := {|
  has_float f :=
    match request f with
    | Query _ ps _ _ _ => existsb (λ '(_, v), value_float v) ps
    | LogicalImport _ package => value_float package
    | _ => false
    end
|}.

#[export] Instance response_floats : Floats ServerFrame := {|
  has_float f :=
    match response f with
    | RResult v => value_float v
    | RStreamRow l | RTransaction _ l => existsb value_float l
    | RLogicalPackage v => value_float v
    | _ => false
    end
|}.

(** Decoding inverts encoding, except for the last bits of an [f64]: without its
    [float_roundtrip] feature [serde_json] reads those only approximately. *)
Class PayloadLaws (T : Type) `{Payload T, Floats T} : Prop := {
  payload_round_trip (v : T) b : has_float v = false → to_vec v = Ok b → of_slice b = Ok v
}.

(** ** Byte streams *)

Inductive stream_error : Type := UnexpectedEof.

(** [Read::read_exact] *)
Definition read_exact (n : Z) (input : bytes) : result (bytes * bytes) stream_error :=
  if (len input <? n)%Z then Err UnexpectedEof
  else Ok (take (Z.to_nat n) input, drop (Z.to_nat n) input).

(** [ClientError] *)
Inductive ClientError : Type :=
| Io (e : stream_error)
| Protocol (message : string)
| Server (code : ErrorCode) (message : string) (retryable : bool).

Definition range_text : string := " is outside 1..=" +:+ show MAX_FRAME_BYTES.

Section framing.
Context {T : Type} `{Payload T}.

(** *** The blocking side *)

(** The bytes [write_frame] sends. *)
Definition write_frame (value : T) : result bytes ClientError :=
  let^ payload := map_err (λ e, Protocol ("cannot encode frame: " +:+ e)) (to_vec value) in
  if (len payload =? 0)%Z || (MAX_FRAME_BYTES <? len payload)%Z then
    Err (Protocol ("encoded frame size " +:+ show (len payload) +:+ range_text))
  else if (u32_max <? len payload)%Z then
    Err (Protocol "frame length is not representable")
  else Ok (to_be_bytes (len payload) ++ payload).

(** One frame off the input, and the input that remains. *)
Definition read_frame (input : bytes) : result (T * bytes) ClientError :=
  let^ (length, input) := map_err Io (read_exact 4 input) in
  let length := from_be_bytes length in
  if (length =? 0)%Z || (MAX_FRAME_BYTES <? length)%Z then
    Err (Protocol ("received frame size " +:+ show length +:+ range_text))
  else
    let^ (payload, input) := map_err Io (read_exact length input) in
    let^ value := map_err (λ e, Protocol ("cannot decode frame: " +:+ e)) (of_slice payload) in
    Ok (value, input).

(** *** The asynchronous side *)

Inductive frame_error : Type :=
| Eof                            (* [UnexpectedEof] *)
| InvalidData (message : string).

Definition write_async_frame (value : T) : result bytes frame_error :=
  let^ payload := map_err InvalidData (to_vec value) in
  if (len payload =? 0)%Z || (MAX_FRAME_BYTES <? len payload)%Z then
    Err (InvalidData ("encoded frame size " +:+ show (len payload) +:+ range_text))
  else Ok (to_be_bytes (len payload mod 2 ^ 32) ++ payload).

Definition read_async_frame (input : bytes) : result (T * bytes) frame_error :=
  let^ (length, input) := map_err (λ _, Eof) (read_exact 4 input) in
  let length := from_be_bytes length in
  if (length =? 0)%Z || (MAX_FRAME_BYTES <? length)%Z then
    Err (InvalidData ("frame size " +:+ show length +:+ range_text))
  else
    let^ (payload, input) := map_err (λ _, Eof) (read_exact length input) in
    let^ value := map_err InvalidData (of_slice payload) in
    Ok (value, input).
End framing.

(** ** Server addresses *)

Fixpoint strip_string_prefix (p s : string) : option string :=
  match p, s with
  | EmptyString, _ => Some s
  | String a p', String b s' => if Ascii.eqb a b then strip_string_prefix p' s' else None
  | String _ _, EmptyString => None
  end.

Definition contains_any (cs : list ascii) (s : string) : bool :=
  existsb (λ c, existsb (Ascii.eqb c) cs) (String.list_ascii_of_string s).

Definition starts_with_bracket (s : string) : bool :=
  match s with String c _ => Ascii.eqb c "["%char | EmptyString => false end.

Definition parse_server_address (server : string) : result string ClientError :=
  let^ address := ok_or (strip_string_prefix "nostdb://" server)
                    (Protocol "server address must start with nostdb://") in
  if String.eqb address ""
     || contains_any ["/"; "?"; "#"; "@"]%char address
     || (negb (starts_with_bracket address) && negb (contains_any [":"]%char address))
  then Err (Protocol "server address must contain only HOST:PORT")
  else Ok address.

(** ** The client *)

Record Client : Type := mkClient {
  next_request_id : Z;
  role : ClientRole
}.

Section client.
Context `{Payload ClientFrame, Payload ServerFrame}.

(** The frame that goes out, the identifier it carries and the client after. *)
Definition send (c : Client) (r : ClientRequest)
    : result (Z * bytes) ClientError * Client :=
  let id := next_request_id c in
  if (id =? u64_max)%Z then (Err (Protocol "request identifier exhausted"), c)
  else
    let c' := mkClient (id + 1) (role c) in
    match write_frame (mkClientFrame id r) with
    | Err e => (Err e, c')
    | Ok out => (Ok (id, out), c')
    end.

(** The outcome of [request] once [input] has arrived in answer. *)
Definition receive (id : Z) (input : bytes) : result (ServerResponse * bytes) ClientError :=
  let^ (frame, rest) := read_frame input in
  if negb (response_id frame =? id)%Z then
    Err (Protocol ("expected response " +:+ show id +:+ ", received "
                   +:+ show (response_id frame)))
  else
    match response frame with
    | RError code message retryable => Err (Server code message retryable)
    | r => Ok (r, rest)
    end.

(** [request] with the server as a function from what was sent to what arrives. *)
Definition request_response (server : bytes → bytes) (c : Client) (r : ClientRequest)
    : result ServerResponse ClientError * Client :=
  match send c r with
  | (Err e, c') => (Err e, c')
  | (Ok (id, out), c') => (map_ok fst (receive id (server out)), c')
  end.

(** [connect]: [to_socket_addrs] and [connect_timeout] belong to the operating
    system; [resolve] gives the endpoints of an address, and [dial] the peer
    behind an endpoint as a function from what is sent to what arrives. *)
Definition connect {endpoint : Type} (resolve : string → result (list endpoint) stream_error)
    (dial : endpoint → result (bytes → bytes) stream_error)
    (server credential client_name : string) : result Client ClientError :=
  let^ address := parse_server_address server in
  let^ addresses := map_err Io (resolve address) in
  let^ address := ok_or (head addresses) (Protocol "server address resolved to no endpoint") in
  let^ stream := map_err Io (dial address) in
  let client := mkClient 1 RoleQuery in
  let '(response, client) :=
    request_response stream client (Hello DATABASE_PROTOCOL_VERSION credential client_name) in
  let^ response := response in
  match response with
  | RHello protocol_version _ role max_frame_bytes =>
      if negb (protocol_version =? DATABASE_PROTOCOL_VERSION)%Z
         || negb (max_frame_bytes =? MAX_FRAME_BYTES)%Z then
        Err (Protocol "server negotiated an incompatible framing contract")
      else Ok (mkClient (next_request_id client) role)
  | _ => Err (Protocol "server did not answer hello with hello")
  end.

(** Sends requests one after the other; what is sent and with which identifiers. *)
Fixpoint send_all (c : Client) (rs : list ClientRequest) : list Z * Client :=
  match rs with
  | [] => ([], c)
  | r :: rs' =>
      match send c r with
      | (Ok (id, _), c') => let '(ids, c'') := send_all c' rs' in (id :: ids, c'')
      | (Err _, c') => send_all c' rs'
      end
  end.
End client.

(** ** Big-endian lengths round trip *)

Lemma byte_of_Z_value z : byte_value (byte_of_Z z) = (z mod 256)%Z.
Proof.
  unfold byte_value, byte_of_Z. pose proof (Z.mod_pos_bound z 256 ltac:(lia)) as Hb.
  destruct (Byte.of_N (Z.to_N (z mod 256))) as [b|] eqn:Ho.
  - apply Byte.to_of_N in Ho. rewrite Ho. lia.
  - apply Byte.of_N_None_iff in Ho. lia.
Qed.

Lemma byte_value_bound b : (0 <= byte_value b < 256)%Z.
Proof. unfold byte_value. pose proof (Byte.to_N_bounded b). lia. Qed.

(** Shifting in a byte is multiplying and adding. *)
Lemma shift_in acc x : (0 <= x < 256)%Z → Z.lor (Z.shiftl acc 8) x = (256 * acc + x)%Z.
Proof.
  intros Hx. rewrite Z.shiftl_mul_pow2 by lia. change (2 ^ 8)%Z with 256%Z.
  pose proof (Z.add_lor_land (acc * 256) x) as Hsum.
  assert (Z.land (acc * 256) x = 0)%Z as Hzero; [|lia].
  apply Z.bits_inj'. intros n Hn. rewrite Z.land_spec, Z.bits_0.
  destruct (Z.lt_ge_cases n 8) as [Hlt|Hge].
  - change 256%Z with (2 ^ 8)%Z. by rewrite Z.mul_pow2_bits_low.
  - rewrite <-(Z.mod_small x 256) by done. change 256%Z with (2 ^ 8)%Z.
    rewrite (Z.mod_pow2_bits_high x 8 n) by lia. by rewrite andb_false_r.
Qed.

Lemma be_length n : length (to_be_bytes n) = 4%nat.
Proof. done. Qed.

Lemma be_round_trip n : (0 <= n <= u32_max)%Z → from_be_bytes (to_be_bytes n) = n.
Proof.
  unfold u32_max. intros Hn. unfold from_be_bytes, to_be_bytes. simpl fold_left.
  rewrite !byte_of_Z_value, !Z.shiftr_div_pow2 by lia.
  rewrite !shift_in by (apply Z.mod_pos_bound; lia).
  change (2 ^ 24)%Z with 16777216%Z. change (2 ^ 16)%Z with 65536%Z. change (2 ^ 8)%Z with 256%Z.
  pose proof (Z.div_mod n 16777216 ltac:(lia)). 
  Z.to_euclidean_division_equations. lia.
Qed.

(** Four bytes are the encoding of the number they decode to. *)
Lemma be_inverse b : length b = 4%nat →
  to_be_bytes (from_be_bytes b) = b ∧ (0 <= from_be_bytes b <= u32_max)%Z.
Proof.
  destruct b as [|b3 [|b2 [|b1 [|b0 [|]]]]]; try done. intros _.
  unfold from_be_bytes. simpl fold_left. 
  pose proof (byte_value_bound b0). pose proof (byte_value_bound b1).
  pose proof (byte_value_bound b2). pose proof (byte_value_bound b3).
  rewrite !shift_in by done. unfold u32_max. split; [|lia].
  assert (∀ z b, (z mod 256 = byte_value b)%Z → byte_of_Z z = b) as Hb.
  { intros z b Hz. unfold byte_of_Z. rewrite Hz. unfold byte_value.
    by rewrite N2Z.id, Byte.of_to_N. }
  unfold to_be_bytes. rewrite !Z.shiftr_div_pow2 by lia.
  change (2 ^ 24)%Z with 16777216%Z. change (2 ^ 16)%Z with 65536%Z. change (2 ^ 8)%Z with 256%Z.
  f_equal; [|f_equal; [|f_equal; [|f_equal]]]; apply Hb;
    Z.to_euclidean_division_equations; lia.
Qed.

(** ** Framing *)

Lemma read_exact_app b rest : read_exact (len b) (b ++ rest) = Ok (b, rest).
Proof.
  unfold read_exact, len. rewrite length_app.
  destruct (Z.ltb_spec (Z.of_nat (length b + length rest)) (Z.of_nat (length b))); [lia|].
  by rewrite Nat2Z.id, take_app_length, drop_app_length.
Qed.

(** The length prefix of a frame. *)
Lemma read_length n rest : read_exact 4 (to_be_bytes n ++ rest) = Ok (to_be_bytes n, rest).
Proof. exact (read_exact_app (to_be_bytes n) rest). Qed.

Lemma read_exact_Ok n input b rest :
  (0 <= n)%Z → read_exact n input = Ok (b, rest) → input = b ++ rest ∧ len b = n.
Proof.
  unfold read_exact, len. intros Hn. destruct (Z.ltb_spec (Z.of_nat (length input)) n) as [|Hge];
    [done|]. intros [= <- <-]. rewrite take_drop. split; [done|].
  rewrite length_take. lia.
Qed.

Lemma read_exact_short n input : (len input < n)%Z → read_exact n input = Err UnexpectedEof.
Proof. unfold read_exact. intros Hn. by destruct (Z.ltb_spec (len input) n); [|lia]. Qed.

(** A payload that fits in a frame. *)
Definition frame_sized (payload : bytes) : Prop := (0 < len payload <= MAX_FRAME_BYTES)%Z.

(** The bytes of a frame around [payload]. *)
Definition framed (payload : bytes) : bytes := to_be_bytes (len payload) ++ payload.

Lemma size_check n :
  ((n =? 0)%Z || (MAX_FRAME_BYTES <? n)%Z = false) → (0 <= n)%Z → (0 < n <= MAX_FRAME_BYTES)%Z.
Proof.
  intros [H1%Z.eqb_neq H2%Z.ltb_ge]%orb_false_iff Hn. lia.
Qed.

Lemma size_check_intro n :
  (0 < n <= MAX_FRAME_BYTES)%Z → (n =? 0)%Z || (MAX_FRAME_BYTES <? n)%Z = false.
Proof. intros Hn. apply orb_false_iff. rewrite Z.eqb_neq, Z.ltb_ge. lia. Qed.

Lemma frame_size_u32 n : (0 < n <= MAX_FRAME_BYTES)%Z → (0 <= n <= u32_max)%Z.
Proof. unfold MAX_FRAME_BYTES, u32_max. lia. Qed.

Section framing_proofs.
Context {T : Type} `{PayloadLaws T}.
Implicit Types (v : T) (out rest payload input : bytes).

(** Both writers send a frame exactly for the payloads that fit. *)
Lemma write_frame_Ok v out :
  write_frame v = Ok out ↔ ∃ payload, to_vec v = Ok payload ∧ frame_sized payload ∧ out = framed payload.
Proof.
  unfold write_frame. destruct (to_vec v) as [payload|e]; simpl; [|naive_solver].
  assert (0 <= len payload)%Z by (unfold len; lia).
  destruct ((len payload =? 0)%Z || (MAX_FRAME_BYTES <? len payload)%Z) eqn:Hs.
  - split; [done|]. intros (p & [= <-] & Hp & _). apply size_check_intro in Hp. congruence.
  - apply size_check in Hs; [|done]. pose proof (frame_size_u32 _ Hs).
    destruct (Z.ltb_spec u32_max (len payload)); [lia|]. split.
    + intros [= <-]. by exists payload.
    + by intros (p & [= <-] & _ & ->).
Qed.


(** Both readers accept exactly a frame around a payload that decodes. *)
Lemma read_frame_Ok input v rest :
  read_frame input = Ok (v, rest) ↔
  ∃ payload, input = framed payload ++ rest ∧ frame_sized payload ∧ of_slice payload = Ok v.
Proof.
  unfold read_frame, framed. split.
  - destruct (read_exact 4 input) as [[l i]|] eqn:Hl; [|done]. cbn [map_err result_bind].
    apply read_exact_Ok in Hl as [-> Hlen]; [|lia].
    destruct (be_inverse l) as [Hi Hb]; [unfold len in Hlen; lia|].
    destruct (_ || _) eqn:Hs; [done|]. apply size_check in Hs; [|lia].
    destruct (read_exact (from_be_bytes l) i) as [[p r]|] eqn:Hp; [|done]. cbn [map_err result_bind].
    apply read_exact_Ok in Hp as [-> Hplen]; [|lia].
    destruct (of_slice p) as [v'|] eqn:Hv; [|done]. cbn [map_err result_bind]. intros [= <- <-].
    exists p. unfold frame_sized. rewrite Hplen, Hi, <-app_assoc. done.
  - intros (p & -> & Hp & Hv). rewrite <-app_assoc.
    rewrite read_length. cbn [map_err result_bind].
    rewrite be_round_trip by by apply frame_size_u32.
    rewrite size_check_intro by done. rewrite read_exact_app. cbn [map_err result_bind]. by rewrite Hv.
Qed.

Lemma read_async_frame_Ok input v rest :
  read_async_frame input = Ok (v, rest) ↔ read_frame input = Ok (v, rest).
Proof.
  unfold read_frame, read_async_frame.
  destruct (read_exact 4 input) as [[l i]|]; simpl; [|by split].
  destruct (_ || _); [by split|].
  destruct (read_exact _ i) as [[p r]|]; simpl; [|by split]. destruct (of_slice p); split; simpl; congruence.
Qed.


Lemma read_written v out rest :
  has_float v = false → write_frame v = Ok out → read_frame (out ++ rest) = Ok (v, rest).
Proof.
  intros Hv (p & Hp & Hs & ->)%write_frame_Ok. apply read_frame_Ok.
  exists p. split_and!; [done..|]. by apply payload_round_trip.
Qed.


(** C25: What a reader accepts is a well-formed frame.  A frame read off the
    stream is a four-byte big-endian length between 1 and [MAX_FRAME_BYTES],
    that many bytes that decode to the value, and nothing else is consumed; so
    no peer makes a reader allocate more than [MAX_FRAME_BYTES]. *)
Theorem read_frame_exact input v rest :
  read_async_frame input = Ok (v, rest) ↔
  ∃ payload, input = to_be_bytes (len payload) ++ payload ++ rest
    ∧ (0 < len payload <= MAX_FRAME_BYTES)%Z ∧ of_slice payload = Ok v.
Proof.
  rewrite read_async_frame_Ok, read_frame_Ok. unfold framed, frame_sized.
  split; intros (p & -> & ?); exists p; by rewrite <-?app_assoc.
Qed.

(** A connection cut in the middle of a frame is an end of file, never a
    different message: every proper prefix of a frame is rejected by both
    readers as [UnexpectedEof]. *)
Theorem truncated_frame_is_eof v out pre :
  write_frame v = Ok out → pre `prefix_of` out → pre ≠ out →
  read_frame pre = Err (Io UnexpectedEof) ∧ read_async_frame pre = Err Eof.
Proof.
  intros (p & Hp & Hs & ->)%write_frame_Ok [s Hpre] Hne. unfold framed in Hpre.
  assert (0 < length s)%nat as Hpos by (destruct s; [by rewrite app_nil_r in Hpre|simpl; lia]).
  assert (length (to_be_bytes (len p)) = 4)%nat as Hbe by done.
  pose proof (f_equal length Hpre) as Hlen. rewrite !length_app, Hbe in Hlen.
  unfold read_frame, read_async_frame.
  destruct (decide (length pre < 4)%nat) as [Hshort|Hlong].
  { rewrite read_exact_short by (unfold len; lia). done. }
  rewrite <-(take_drop 4 pre), <-app_assoc in Hpre.
  apply app_inj_1 in Hpre as [Hhd Htl]; [|rewrite length_take; lia].
  rewrite <-(take_drop 4 pre), <-Hhd, read_length. cbn [map_err result_bind].
  rewrite be_round_trip by by apply frame_size_u32.
  rewrite size_check_intro by done.
  rewrite read_exact_short; [done|]. apply (f_equal length) in Htl.
  rewrite length_app in Htl. unfold len. lia.
Qed.

(** Reads as many frames as the input holds, up to [fuel]. *)
Fixpoint read_frames (fuel : nat) (input : bytes) : list T * bytes :=
  match fuel with
  | O => ([], input)
  | S fuel =>
      match read_frame input with
      | Ok (v, rest) => let '(vs, rest) := read_frames fuel rest in (v :: vs, rest)
      | Err _ => ([], input)
      end
  end.

Lemma read_frames_all (vs : list T) outs rest :
  Forall2 (λ v out, has_float v = false ∧ write_frame v = Ok out) vs outs →
  read_frames (length vs) (concat outs ++ rest) = (vs, rest).
Proof.
  induction 1 as [|v out vs outs [Hv Hw] _ IH]; simpl; [done|].
  rewrite <-app_assoc. by rewrite (read_written _ _ _ Hv Hw), IH.
Qed.
End framing_proofs.

(** ** Server addresses *)

Lemma strip_string_prefix_Some p s t : strip_string_prefix p s = Some t ↔ s = p +:+ t.
Proof.
  revert s. induction p as [|a p IH]; intros s; simpl; [split; [by intros [= ->]|by intros ->]|].
  destruct s as [|b s]; [by split|]. destruct (Ascii.eqb_spec a b) as [->|Hne].
  - rewrite IH. split; [by intros ->|by intros [= ->]].
  - split; [done|by intros [= ->]].
Qed.

Lemma contains_any_spec cs s :
  contains_any cs s = true ↔ ∃ c, c ∈ String.list_ascii_of_string s ∧ c ∈ cs.
Proof.
  unfold contains_any. rewrite existsb_exists. setoid_rewrite existsb_exists.
  setoid_rewrite Ascii.eqb_eq. setoid_rewrite list_elem_of_In. naive_solver.
Qed.

(** [parse_server_address] accepts exactly [nostdb://] followed by a non-empty
    address without path, query, fragment or user part, that is either a
    bracketed address or has a port separator, and returns that address. *)
Theorem parse_server_address_accepts_exactly server address :
  parse_server_address server = Ok address ↔
  server = "nostdb://" +:+ address
  ∧ address ≠ ""
  ∧ (∀ c, c ∈ String.list_ascii_of_string address → c ∉ ["/"; "?"; "#"; "@"]%char)
  ∧ (head (String.list_ascii_of_string address) = Some "["%char
     ∨ ":"%char ∈ String.list_ascii_of_string address).
Proof.
  unfold parse_server_address.
  destruct (strip_string_prefix "nostdb://" server) as [a|] eqn:Hp; cycle 1.
  { split; [done|]. intros (-> & _).
    by rewrite (proj2 (strip_string_prefix_Some _ _ address)) in Hp. }
  apply strip_string_prefix_Some in Hp as ->. cbn [ok_or result_bind].
  transitivity (a = address ∧
    String.eqb a "" || contains_any ["/"; "?"; "#"; "@"]%char a
      || (negb (starts_with_bracket a) && negb (contains_any [":"]%char a)) = false).
  { destruct (_ || _); naive_solver. }
  split.
  - intros (<- & [[He%String.eqb_neq Hf]%orb_false_iff Hc]%orb_false_iff).
    split_and!; [done|done| |].
    + intros c Hin Hcs. apply not_true_iff_false in Hf. apply Hf, contains_any_spec. eauto.
    + rewrite <-negb_orb in Hc. apply negb_false_iff, orb_true_iff in Hc as [Hb|Hc].
      * left. destruct a as [|x a]; [done|]. simpl in *. by apply Ascii.eqb_eq in Hb as ->.
      * right. apply contains_any_spec in Hc as (x & Hin & ->%list_elem_of_singleton). done.
  - intros (Ha & He & Hf & Hc). assert (a = address) as -> by by injection Ha.
    split; [done|]. apply orb_false_iff. split; [apply orb_false_iff; split|].
    + by apply String.eqb_neq.
    + apply not_true_iff_false. intros (c & Hin & Hcs)%contains_any_spec. by apply (Hf c).
    + rewrite <-negb_orb. apply negb_false_iff, orb_true_iff. destruct Hc as [Hb|Hc].
      * left. destruct address as [|x s]; [done|]. simpl in *. apply Ascii.eqb_eq. congruence.
      * right. apply contains_any_spec. exists ":"%char. split; [done|]. by left.
Qed.

(** ** Request identifiers and answers *)

Section client_proofs.
Context `{PayloadLaws ClientFrame, PayloadLaws ServerFrame}.
Implicit Types (c : Client) (r : ClientRequest).

Definition client_ok c : Prop := (1 <= next_request_id c <= u64_max)%Z.

Lemma send_spec c r :
  client_ok c →
  let '(result, c') := send c r in
  client_ok c' ∧ (next_request_id c <= next_request_id c')%Z
  ∧ match result with
    | Ok (id, out) => id = next_request_id c ∧ next_request_id c' = (id + 1)%Z
                      ∧ write_frame (mkClientFrame id r) = Ok out
    | Err _ => True
    end.
Proof.
  intros Hc. unfold send. destruct (Z.eqb_spec (next_request_id c) u64_max) as [|Hne].
  { by split_and!. }
  unfold client_ok in *. destruct (write_frame _) as [out|e] eqn:Hw; simpl; split_and!; try lia; done.
Qed.

(** A client's request identifiers are positive, strictly increasing and
    never wrap: whatever requests are sent, in whatever order, and whichever of
    them fail, the identifiers that go out increase and stay below
    [u64::MAX], the order the server insists on. *)
Theorem request_ids_increase c rs :
  client_ok c →
  let '(ids, c') := send_all c rs in
  StronglySorted Z.lt ids ∧ Forall (λ id, next_request_id c <= id < u64_max)%Z ids ∧ client_ok c'.
Proof.
  revert c. induction rs as [|r rs IH]; intros c Hc; simpl; [by repeat constructor; apply Hc|].
  pose proof (send_spec c r Hc) as Hs. destruct (send c r) as [res c'].
  destruct Hs as (Hc' & Hle & Hres). specialize (IH c' Hc').
  destruct res as [[id out]|e].
  - destruct (send_all c' rs) as [ids c'']. destruct IH as (Hs & Hf & Hc'').
    destruct Hres as (-> & Hn & _). unfold client_ok in Hc'. split_and!; [| |done].
    + constructor; [done|]. eapply Forall_impl; [done|]. simpl. lia.
    + constructor; [lia|]. eapply Forall_impl; [done|]. simpl. lia.
  - destruct (send_all c' rs) as [ids c'']. destruct IH as (Hs & Hf & Hc'').
    split_and!; [done| |done]. eapply Forall_impl; [done|]. simpl. lia.
Qed.

(** The response the client returns for the bytes that arrive. *)
Lemma receive_Ok id input resp rest :
  receive id input = Ok (resp, rest) ↔
  read_frame input = Ok (mkServerFrame id resp, rest)
  ∧ (∀ code m rt, resp ≠ RError code m rt).
Proof.
  unfold receive. destruct (read_frame input) as [[[fid fr] rest']|e]; simpl.
  - destruct (Z.eqb_spec fid id) as [->|Hne]; simpl; [|naive_solver].
    split.
    + intros Hr. destruct fr; simplify_eq; split; by intros.
    + intros ([= -> ->] & Hn). destruct resp; try done. by destruct (Hn code message retryable).
  - naive_solver.
Qed.

(** A request never takes another request's answer.  When [request] succeeds,
    the frame that was sent carries the client's next identifier, the first
    frame that arrived carries the same identifier and the response returned,
    and that response is no error; the client's next identifier has moved on. *)
Theorem request_answer_matches server c r resp c' :
  client_ok c →
  request_response server c r = (Ok resp, c') →
  ∃ out rest,
    write_frame (mkClientFrame (next_request_id c) r) = Ok out
    ∧ read_frame (server out) = Ok (mkServerFrame (next_request_id c) resp, rest)
    ∧ (∀ code m rt, resp ≠ RError code m rt)
    ∧ next_request_id c' = (next_request_id c + 1)%Z.
Proof.
  intros Hc. unfold request_response. pose proof (send_spec c r Hc) as Hs.
  destruct (send c r) as [[[id out]|e] c1]; [|done].
  destruct Hs as (_ & _ & -> & Hn & Hw).
  destruct (receive _ (server out)) as [[resp' rest]|e] eqn:Hr; simpl; intros [= <- <-].
  apply receive_Ok in Hr as [Hr Hne]. eauto 6.
Qed.

(** [connect] yields a client only for a peer that agreed to this framing:
    the address parsed, the first frame out is a hello with identifier 1 and
    this protocol version, the first frame in answers identifier 1 with the same
    version and [MAX_FRAME_BYTES], and the role is the one the server assigned. *)
Theorem connect_negotiates {endpoint} resolve (dial : endpoint → _) server credential name client :
  connect resolve dial server credential name = Ok client →
  ∃ address e es stream out rest version_text,
    parse_server_address server = Ok address ∧ resolve address = Ok (e :: es) ∧ dial e = Ok stream
    ∧ write_frame (mkClientFrame 1 (Hello DATABASE_PROTOCOL_VERSION credential name)) = Ok out
    ∧ read_frame (stream out)
      = Ok (mkServerFrame 1 (RHello DATABASE_PROTOCOL_VERSION version_text (role client)
                               MAX_FRAME_BYTES), rest)
    ∧ next_request_id client = 2%Z.
Proof.
  unfold connect. destruct (parse_server_address server) as [address|] eqn:Ha; [|done].
  cbn [result_bind map_err]. destruct (resolve address) as [[|e es]|] eqn:Hr; [done| |done].
  cbn [result_bind map_err ok_or head]. destruct (dial e) as [stream|] eqn:Hd; [|done].
  cbn [result_bind map_err]. unfold request_response.
  pose proof (send_spec (mkClient 1 RoleQuery)
    (Hello DATABASE_PROTOCOL_VERSION credential name) ltac:(unfold client_ok; by simpl)) as Hs.
  destruct (send _ _) as [[[id out]|err] c1]; [|done]. destruct Hs as (_ & _ & -> & Hn & Hw).
  destruct (receive _ (stream out)) as [[resp rest]|] eqn:Hv; [|done].
  apply receive_Ok in Hv as [Hv _]. simpl.
  destruct resp; try done. destruct (Z.eqb_spec protocol_version DATABASE_PROTOCOL_VERSION); [|done].
  destruct (Z.eqb_spec max_frame_bytes MAX_FRAME_BYTES); [|done]. simpl. intros [= <-]. subst.
  simpl in *. eauto 15.
Qed.
End client_proofs.

(** ** A concrete peer *)

Module Concrete.

(** A codec for the messages without JSON documents inside. *)
Definition packed : Type := Z * Z * list Z * list string.

Definition pack_request (f : ClientFrame) : option packed :=
  match request f with
  | Hello v c n => Some (request_id f, 0, [v], [c; n])%Z
  | Ping => Some (request_id f, 1, [], [])%Z
  | SelectDatabase d => Some (request_id f, 2, [], [d])%Z
  | DatabaseCreate n => Some (request_id f, 3, [], [n])%Z
  | Query q [(k, Num (PosInt v))] false false None => Some (request_id f, 4, [v], [q; k])%Z
  | _ => None
  end.

Definition unpack_request (p : packed) : option ClientFrame :=
  match p with
  | (id, 0, [v], [c; n])%Z => Some (mkClientFrame id (Hello v c n))
  | (id, 1, [], [])%Z => Some (mkClientFrame id Ping)
  | (id, 2, [], [d])%Z => Some (mkClientFrame id (SelectDatabase d))
  | (id, 3, [], [n])%Z => Some (mkClientFrame id (DatabaseCreate n))
  | (id, 4, [v], [q; k])%Z =>
      Some (mkClientFrame id (Query q [(k, Num (PosInt v))] false false None))
  | _ => None
  end.

Definition pack_response (f : ServerFrame) : option packed :=
  match response f with
  | RHello v s RoleAdmin m => Some (response_id f, 0, [v; m], [s])%Z
  | RHello v s RoleQuery m => Some (response_id f, 1, [v; m], [s])%Z
  | RPong => Some (response_id f, 2, [], [])%Z
  | _ => None
  end.

Definition unpack_response (p : packed) : option ServerFrame :=
  match p with
  | (id, 0, [v; m], [s])%Z => Some (mkServerFrame id (RHello v s RoleAdmin m))
  | (id, 1, [v; m], [s])%Z => Some (mkServerFrame id (RHello v s RoleQuery m))
  | (id, 2, [], [])%Z => Some (mkServerFrame id RPong)
  | _ => None
  end.

Definition packed_payload {T} (pack : T → option packed) (unpack : packed → option T) : Payload T := {|
  to_vec v := ok_or (Reference.encode_bits ∘ countable.encode <$> pack v) "unsupported message";
  of_slice b := result_bind (Reference.decode_document b)
                  (λ p, ok_or (unpack p) "unsupported message")
|}.

Lemma packed_payload_laws {T} `{!Floats T} (pack : T → option packed) unpack :
  (∀ v p, pack v = Some p → unpack p = Some v) → @PayloadLaws T (packed_payload pack unpack) _.
Proof.
  intros Hu. constructor. simpl. intros v b _. destruct (pack v) as [p|] eqn:Hp; [|done].
  simpl. intros [= <-]. unfold Reference.decode_document.
  rewrite <-(app_nil_r (Reference.encode_bits _)), Reference.decode_encode_bits. simpl.
  rewrite countable.decode_encode. simpl. by rewrite (Hu v p).
Qed.

#[export] Instance request_payload : Payload ClientFrame := packed_payload pack_request unpack_request.
#[export] Instance response_payload : Payload ServerFrame := packed_payload pack_response unpack_response.

#[export] Instance request_laws : PayloadLaws ClientFrame.
Proof.
  apply packed_payload_laws. intros [id []] p; unfold pack_request; simpl; repeat case_match; try done;
    by intros [= <-].
Qed.

#[export] Instance response_laws : PayloadLaws ServerFrame.
Proof.
  apply packed_payload_laws. intros [id r] p. destruct r as [? ? []| | | | | | | | | | | | | | | | | | | | |];
    simpl; by intros [= <-].
Qed.

Definition ping : ClientFrame := mkClientFrame 9 Ping.

Definition ok_bytes {E} (r : result bytes E) : bytes := match r with Ok b => b | Err _ => [] end.

Definition ping_bytes : bytes := ok_bytes (write_frame ping).




Lemma truncated_frame_is_eof_witness :
  @read_async_frame ClientFrame _ (take 6 ping_bytes) = Err Eof.
Proof.
  apply (truncated_frame_is_eof ping ping_bytes (take 6 ping_bytes)).
  - vm_compute. reflexivity.
  - exists (drop 6 ping_bytes). by rewrite take_drop.
  - vm_compute. discriminate.
Defined.

Lemma request_ids_increase_witness :
  let '(ids, c') := send_all (mkClient 1 RoleQuery) [Ping; Commit; Ping; SelectDatabase "orders"] in
  StronglySorted Z.lt ids ∧ Forall (λ id, 1 <= id < u64_max)%Z ids ∧ client_ok c'.
Proof.
  apply (request_ids_increase (mkClient 1 RoleQuery) [Ping; Commit; Ping; SelectDatabase "orders"]).
  unfold client_ok. simpl. unfold u64_max. lia.
Defined.

(** A server that greets an administrator and answers everything else with a pong. *)
Definition peer (sent : bytes) : bytes :=
  match @read_async_frame ClientFrame _ sent with
  | Ok (f, _) =>
      ok_bytes (write_async_frame (mkServerFrame (request_id f)
        (match request f with
         | Hello _ _ _ => RHello 1 "0.1.0" RoleAdmin MAX_FRAME_BYTES
         | _ => RPong
         end)))
  | Err _ => []
  end.

Lemma request_answer_matches_witness :
  ∃ out rest, write_frame (mkClientFrame 5 Ping) = Ok out
    ∧ read_frame (peer out) = Ok (mkServerFrame 5 RPong, rest).
Proof.
  destruct (request_answer_matches peer (mkClient 5 RoleQuery) Ping RPong (mkClient 6 RoleQuery))
    as (out & rest & Hw & Hr & _).
  - unfold client_ok. simpl. unfold u64_max. lia.
  - vm_compute. reflexivity.
  - exists out, rest. split; [exact Hw|exact Hr].
Defined.

Lemma connect_negotiates_witness :
  ∃ address : string, parse_server_address "nostdb://127.0.0.1:7878" = Ok address.
Proof.
  destruct (connect_negotiates (λ a, Ok [a]) (λ _, Ok peer) "nostdb://127.0.0.1:7878" "secret" "test"
              (mkClient 2 RoleAdmin)) as (address & _ & _ & _ & _ & _ & _ & Ha & _).
  - vm_compute. reflexivity.
  - exists address. exact Ha.
Defined.

End Concrete.
