(* ===== verification/Config.v ===== *)
(** * Daemon configuration and credentials ([src/src/config.rs])

    The versioned [server.toml], the limits every component obeys, and the two
    protected credential files. *)

From Stdlib Require Import ZArith Lia Ascii.
From stdpp Require Import base list strings gmap.
From S2P Require Import Prelude Fs Codec Catalog Wire Messages.

Open Scope string_scope.
Open Scope list_scope.

Definition CONFIG_VERSION : Z := 1.

(** ** Paths

    [PathBuf] as its components; [std::path] compares paths this way. *)

Record PathBuf : Type := mkPathBuf {
  is_absolute : bool;
  components : path
}.

#[global] Instance PathBuf_eq_dec : EqDecision PathBuf.
Proof. solve_decision. Defined.

(** [value.as_os_str().is_empty()] *)
Definition path_is_empty (p : PathBuf) : bool :=
  negb (is_absolute p) && match components p with [] => true | _ => false end.

(** [Path::join]: an absolute path replaces the base. *)
Definition path_join (base value : PathBuf) : PathBuf :=
  if is_absolute value then value
  else mkPathBuf (is_absolute base) (components base ++ components value).

(** [Path::parent] *)
Definition path_parent (p : PathBuf) : option PathBuf :=
  match components p with
  | [] => None
  | c => Some (mkPathBuf (is_absolute p) (removelast c))
  end.

Definition current_directory : PathBuf := mkPathBuf false ["."].

Definition display_path (p : PathBuf) : string :=
  if is_absolute p then display (components p) else String.concat "/" (components p).

(** The file a path names for a process whose working directory is [cwd]. *)
Definition located (cwd : path) (p : PathBuf) : path :=
  if is_absolute p then components p
  else cwd ++ filter (λ c, c ≠ ".") (components p).

(** ** Data *)

Record LimitConfig : Type := mkLimitConfig {
  max_connections : Z;
  max_sessions : Z;
  max_transaction_statements : Z;
  query_timeout_ms : Z;
  max_rows : Z;
  max_memory_bytes : Z;
  max_operations : Z;
  max_traversals : Z;
  max_snapshot_bytes : Z
}.

Record AuthenticationConfig : Type := mkAuthenticationConfig {
  query_credential_file : PathBuf;
  admin_credential_file : PathBuf
}.

Record NetworkConfig : Type := mkNetworkConfig { listen : string }.

Record DaemonConfig : Type := mkDaemonConfig {
  config_version : Z;
  data_directory : PathBuf;
  network : NetworkConfig;
  authentication : AuthenticationConfig;
  limits : LimitConfig
}.

(** [nostdb_engine::QueryLimits] *)
Record QueryLimits : Type := mkQueryLimits {
  limit_rows : Z;
  limit_memory_bytes : Z;
  limit_operations : Z;
  limit_traversals : Z
}.

(** [std::net::SocketAddr]: parsing of [IP:PORT] and its canonical text. *)
Class SocketAddr : Type := {
  socket_addr : Type;
  socket_parse : string → result socket_addr string;
  socket_to_string : socket_addr → string
}.

(** The text of an address that was parsed parses back to it.  (An IPv6 address
    built by hand can carry a flow label that its text does not show.) *)
Class SocketAddrLaws `{SocketAddr} : Prop := {
  socket_round_trip s a : socket_parse s = Ok a → socket_parse (socket_to_string a) = Ok a
}.

(** ** Text *)

(** The [White_Space] characters of Unicode, as [char::is_whitespace] tests them. *)
Definition char_is_whitespace (c : Z) : bool :=
  ((9 <=? c) && (c <=? 13))%Z || (c =? 32)%Z || (c =? 0x85)%Z || (c =? 0xA0)%Z
  || (c =? 0x1680)%Z || ((0x2000 <=? c) && (c <=? 0x200A))%Z
  || (c =? 0x2028)%Z || (c =? 0x2029)%Z || (c =? 0x202F)%Z || (c =? 0x205F)%Z || (c =? 0x3000)%Z.

Definition continuation (b : byte) : bool := (Z.land (byte_value b) 0xC0 =? 0x80)%Z.

Definition low6 (b : byte) : Z := Z.land (byte_value b) 0x3F.

(** The characters of a UTF-8 text ([str::chars]); [None] where [from_utf8]
    reports invalid UTF-8: a stray or missing continuation byte, an overlong
    form, a surrogate or a value above U+10FFFF. *)
Fixpoint chars (b : bytes) : option (list Z) :=
  match b with
  | [] => Some []
  | b0 :: t0 =>
      let v0 := byte_value b0 in
      if (v0 <? 0x80)%Z then (λ cs, v0 :: cs) <$> chars t0
      else
        match t0 with
        | [] => None
        | b1 :: t1 =>
            if negb (continuation b1) then None
            else if (Z.land v0 0xE0 =? 0xC0)%Z then
              let c := Z.lor (Z.shiftl (Z.land v0 0x1F) 6) (low6 b1) in
              if (c <? 0x80)%Z then None else (λ cs, c :: cs) <$> chars t1
            else
              match t1 with
              | [] => None
              | b2 :: t2 =>
                  if negb (continuation b2) then None
                  else if (Z.land v0 0xF0 =? 0xE0)%Z then
                    let c := Z.lor (Z.shiftl (Z.land v0 0x0F) 12)
                               (Z.lor (Z.shiftl (low6 b1) 6) (low6 b2)) in
                    if (c <? 0x800)%Z || ((0xD800 <=? c) && (c <=? 0xDFFF))%Z then None
                    else (λ cs, c :: cs) <$> chars t2
                  else
                    match t2 with
                    | [] => None
                    | b3 :: t3 =>
                        if negb (continuation b3) then None
                        else if (Z.land v0 0xF8 =? 0xF0)%Z then
                          let c := Z.lor (Z.shiftl (Z.land v0 0x07) 18)
                                     (Z.lor (Z.shiftl (low6 b1) 12)
                                        (Z.lor (Z.shiftl (low6 b2) 6) (low6 b3))) in
                          if (c <? 0x10000)%Z || (0x10FFFF <? c)%Z then None
                          else (λ cs, c :: cs) <$> chars t3
                        else None
                    end
              end
        end
  end.

(** [toml::to_string_pretty] and [toml::from_str] for [DaemonConfig]. *)
Class Toml : Type := {
  to_string_pretty : DaemonConfig → result bytes string;
  toml_from_str : bytes → result DaemonConfig string
}.

(** What TOML can hold: paths that are UTF-8 and integers that fit [i64]. *)
Definition path_utf8 (p : PathBuf) : Prop :=
  Forall (λ n, is_Some (chars (String.list_byte_of_string n))) (components p).

Definition limit_values (l : LimitConfig) : list Z :=
  [max_connections l; max_sessions l; max_transaction_statements l; query_timeout_ms l;
   max_rows l; max_memory_bytes l; max_operations l; max_traversals l; max_snapshot_bytes l].

Definition toml_writable (c : DaemonConfig) : Prop :=
  path_utf8 (data_directory c)
  ∧ path_utf8 (query_credential_file (authentication c))
  ∧ path_utf8 (admin_credential_file (authentication c))
  ∧ Forall (λ z, 0 <= z <= i64_max)%Z (limit_values (limits c)).

(** Such a configuration can be written; what is written is UTF-8 text and reads
    back. *)
Class TomlLaws `{Toml} : Prop := {
  toml_round_trip c b : to_string_pretty c = Ok b → toml_from_str b = Ok c;
  toml_text c b : to_string_pretty c = Ok b → is_Some (chars b);
  toml_encodes c : toml_writable c → ∃ b, to_string_pretty c = Ok b
}.

(** [fs::read_to_string] *)
Definition invalid_utf8 : io_error := IoError OtherKind "stream did not contain valid UTF-8".

Definition read_to_string (p : path) : io (result bytes io_error) :=
  let? b := read p in
  match chars b with
  | None => ret (Err invalid_utf8)
  | Some _ => ret (Ok b)
  end.

(** [trim_end_matches(['\r', '\n'])] *)
Definition is_line_end (b : byte) : bool := bool_decide (b = x0d) || bool_decide (b = x0a).

Fixpoint drop_while (f : byte → bool) (b : bytes) : bytes :=
  match b with
  | [] => []
  | x :: b' => if f x then drop_while f b' else b
  end.

Definition trim_end_lines (b : bytes) : bytes := rev (drop_while is_line_end (rev b)).

(** [str::trim]; [validate] calls it only on a text that parsed as a socket
    address, which is ASCII. *)
Definition trim (s : string) : string :=
  let ws := λ b, char_is_whitespace (byte_value b) in
  String.string_of_list_byte
    (rev (drop_while ws (rev (drop_while ws (String.list_byte_of_string s))))).

(** ** Configuration *)

Definition credentials_directory (data_directory : PathBuf) : PathBuf :=
  path_join data_directory (mkPathBuf false ["credentials"]).

Definition default_limits : LimitConfig := {|
  max_connections := 256;
  max_sessions := 1024;
  max_transaction_statements := 1000;
  query_timeout_ms := 30000;
  max_rows := 10000;
  max_memory_bytes := 64 * 1024 * 1024;
  max_operations := 10000000;
  max_traversals := 1000000;
  max_snapshot_bytes := 1024 * 1024 * 1024
|}.

Definition config_new (data_directory : PathBuf) (listen : string) : DaemonConfig :=
  let credential_directory := credentials_directory data_directory in
  mkDaemonConfig CONFIG_VERSION data_directory (mkNetworkConfig listen)
    (mkAuthenticationConfig
       (path_join credential_directory (mkPathBuf false ["client.token"]))
       (path_join credential_directory (mkPathBuf false ["admin.token"])))
    default_limits.

Definition query_limits (c : DaemonConfig) : QueryLimits :=
  mkQueryLimits (max_rows (limits c)) (max_memory_bytes (limits c))
    (max_operations (limits c)) (max_traversals (limits c)).

Section config.
Context `{SocketAddr, Toml}.
Context (cwd : path).

Definition listen_address (c : DaemonConfig) : result socket_addr ServerError :=
  map_err (λ e, "invalid network.listen `" +:+ listen (network c) +:+ "`: " +:+ e)
    (socket_parse (listen (network c))).

Definition limits_zero (l : LimitConfig) : bool :=
  existsb (Z.eqb 0)
    [max_connections l; max_sessions l; max_transaction_statements l; query_timeout_ms l;
     max_rows l; max_memory_bytes l; max_operations l; max_traversals l; max_snapshot_bytes l].

Definition validate (c : DaemonConfig) : result unit ServerError :=
  if negb (config_version c =? CONFIG_VERSION)%Z then
    Err ("unsupported config_version " +:+ show (config_version c)
         +:+ "; this binary supports exactly " +:+ show CONFIG_VERSION)
  else
    let^ address := listen_address c in
    if negb (String.eqb (trim (listen (network c))) (socket_to_string address)) then
      Err "network.listen must be a canonical numeric IP:PORT address"
    else if path_is_empty (data_directory c) then
      Err "data_directory must not be empty"
    else if decide (query_credential_file (authentication c)
                    = admin_credential_file (authentication c)) then
      Err "query and admin credential files must be different"
    else if limits_zero (limits c) then
      Err "all daemon limits must be positive"
    else Ok tt.

Definition resolve_path (base value : PathBuf) : result PathBuf ServerError :=
  let joined := if is_absolute value then value else path_join base value in
  if path_is_empty joined then Err "configuration path must not be empty"
  else Ok joined.

Definition config_load (p : PathBuf) : io (result DaemonConfig ServerError) :=
  let? source := io_map_err
      (λ e, "cannot read configuration " +:+ display_path p +:+ ": " +:+ io_text e)
      (read_to_string (located cwd p)) in
  ret (
    let^ config := map_err (λ e, "invalid configuration " +:+ display_path p +:+ ": " +:+ e)
                     (toml_from_str source) in
    let base := default current_directory (path_parent p) in
    let^ data := resolve_path base (data_directory config) in
    let^ query := resolve_path base (query_credential_file (authentication config)) in
    let^ admin := resolve_path base (admin_credential_file (authentication config)) in
    let config := mkDaemonConfig (config_version config) data (network config)
                    (mkAuthenticationConfig query admin) (limits config) in
    let^ _ := validate config in
    Ok config).

(** [path.parent().filter(|value| !value.as_os_str().is_empty())] *)
Definition parent_to_create (p : PathBuf) : option PathBuf :=
  match path_parent p with
  | Some d => if path_is_empty d then None else Some d
  | None => None
  end.

(** [mode] is what [OpenOptions] asks for: [0o600] for a protected file. *)
Definition protected_mode : Z := 0x180.

Definition write_new_file (p : PathBuf) (b : bytes) (protected : bool)
    : io (result unit ServerError) :=
  let? _ :=
    match parent_to_create p with
    | Some d =>
        io_map_err (λ e, "cannot create directory " +:+ display_path d +:+ ": " +:+ io_text e)
          (create_dir_all (located cwd d))
    | None => ret (Ok tt)
    end in
  let file := located cwd p in
  let? _ := io_map_err (λ e, "cannot create " +:+ display_path p +:+ ": " +:+ io_text e)
              (open_new (if protected then protected_mode else default_mode) file) in
  let* r := write_all_sync file b in
  match r with
  | Ok _ => ret (Ok tt)
  | Err e =>
      let* r := remove_file file in
      match r with
      | Ok _ => ret (Err ("cannot persist " +:+ display_path p +:+ ": " +:+ io_text e))
      | Err ce =>
          if decide (kind ce = NotFound) then
            ret (Err ("cannot persist " +:+ display_path p +:+ ": " +:+ io_text e))
          else
            ret (Err ("cannot persist " +:+ display_path p +:+ ": " +:+ io_text e
                      +:+ "; cannot remove partial file: " +:+ io_text ce))
      end
  end.

Definition write_new (c : DaemonConfig) (p : PathBuf) : io (result unit ServerError) :=
  match validate c with
  | Err e => ret (Err e)
  | Ok _ =>
      let? _ :=
        match parent_to_create p with
        | Some d =>
            io_map_err (λ e, "cannot create configuration directory " +:+ display_path d
                             +:+ ": " +:+ io_text e)
              (create_dir_all (located cwd d))
        | None => ret (Ok tt)
        end in
      match to_string_pretty c with
      | Err e => ret (Err ("cannot encode configuration: " +:+ e))
      | Ok source => write_new_file p source false
      end
  end.

(** ** Credentials *)

Record Credentials : Type := mkCredentials {
  query_credential : bytes;
  admin_credential : bytes
}.

(** Octal constants are written in hexadecimal: [0o600] is [0x180], [0o777] is
    [0x1FF], [0o077] is [0x3F].

    [fs::metadata(path)?.permissions().mode()]; a directory has the bits its
    creation left under the umask. *)
Definition metadata_mode (p : path) : io (result Z io_error) :=
  let* u := get_umask in
  atomic (λ fs,
    match fs !! p with
    | Some (NFile m _) => (Ok m, fs)
    | Some NDir => (Ok (Z.land 0x1FF (Z.lnot u)), fs)
    | None => (Err not_found, fs)
    end).

(** [{mode:03o}] *)
Definition octal3 (m : Z) : string :=
  show (Z.land (Z.shiftr m 6) 7) +:+ show (Z.land (Z.shiftr m 3) 7) +:+ show (Z.land m 7).

Definition validate_credential_permissions (p : PathBuf) : io (result unit ServerError) :=
  let? raw := io_map_err
      (λ e, "cannot inspect credential file " +:+ display_path p +:+ ": " +:+ io_text e)
      (metadata_mode (located cwd p)) in
  let mode := Z.land raw 0x1FF in
  if negb (Z.land mode 0x3F =? 0)%Z then
    ret (Err ("credential file " +:+ display_path p +:+ " has mode " +:+ octal3 mode
      +:+ "; remove all group and other permissions (0600 or stricter is required)"))
  else ret (Ok tt).

(** [credential.chars().any(char::is_whitespace)] of a text that is valid UTF-8. *)
Definition any_whitespace (b : bytes) : bool :=
  match chars b with
  | Some cs => existsb char_is_whitespace cs
  | None => true
  end.

Definition read_credential (p : PathBuf) : io (result bytes ServerError) :=
  let? _ := validate_credential_permissions p in
  let? text := io_map_err
      (λ e, "cannot read credential file " +:+ display_path p +:+ ": " +:+ io_text e)
      (read_to_string (located cwd p)) in
  let credential := trim_end_lines text in
  if (len credential <? 32)%Z || any_whitespace credential then
    ret (Err ("credential file " +:+ display_path p
      +:+ " must contain one non-whitespace token of at least 32 characters"))
  else ret (Ok credential).

Definition write_credential (p : PathBuf) (credential : bytes) : io (result unit ServerError) :=
  write_new_file p (credential ++ [newline]) true.

Definition credentials_load (c : DaemonConfig) : io (result Credentials ServerError) :=
  let? query := read_credential (query_credential_file (authentication c)) in
  let? admin := read_credential (admin_credential_file (authentication c)) in
  if decide (query = admin) then
    ret (Err "query and admin credentials must not have the same value")
  else ret (Ok (mkCredentials query admin)).
End config.

(** [left.get(index).copied().unwrap_or_default()] *)
Definition byte_at (b : bytes) (i : nat) : Z :=
  match b !! i with Some x => byte_value x | None => 0%Z end.

Definition constant_time_equal (left right : bytes) : bool :=
  let difference := Z.lxor (len left) (len right) in
  let maximum := Nat.max (length left) (length right) in
  let difference :=
    fold_left (λ d i, Z.lor d (Z.lxor (byte_at left i) (byte_at right i))) (seq 0 maximum)
      difference in
  (difference =? 0)%Z.

Definition authenticate (c : Credentials) (supplied : bytes) : option ClientRole :=
  if constant_time_equal supplied (admin_credential c) then Some RoleAdmin
  else if constant_time_equal supplied (query_credential c) then Some RoleQuery
  else None.
