(* ===== verification/ConfigProofs.v ===== *)
(** * Properties of the configuration and the credentials

    Authentication, round trips through files, validation; and a concrete
    parser, printer and disk. *)

From Stdlib Require Import ZArith Lia Ascii.
From stdpp Require Import base list strings gmap.
From S2P Require Import Prelude Fs Codec Catalog Wire Messages Config.

Open Scope string_scope.
Open Scope list_scope.

(** ** Comparison of credentials *)

Lemma fold_lor_zero {A} (f : A → Z) (l : list A) d :
  fold_left (λ d i, Z.lor d (f i)) l d = 0%Z ↔ d = 0%Z ∧ Forall (λ i, f i = 0%Z) l.
Proof.
  revert d. induction l as [|x l IH]; intros d; simpl.
  - split; [by split|by intros [? _]].
  - rewrite IH, Z.lor_eq_0_iff, Forall_cons. tauto.
Qed.

Lemma byte_value_inj x y : byte_value x = byte_value y → x = y.
Proof.
  unfold byte_value. intros Hxy. apply (inj Z.of_N) in Hxy.
  apply (inj Some). by rewrite <-(Byte.of_to_N x), <-(Byte.of_to_N y), Hxy.
Qed.

Lemma constant_time_equal_spec l r : constant_time_equal l r = true ↔ l = r.
Proof.
  unfold constant_time_equal. rewrite Z.eqb_eq, fold_lor_zero, Z.lxor_eq_0_iff. unfold len.
  split; [|intros ->; split; [done|]].
  - intros [Hlen%(inj Z.of_nat) Hall]. rewrite Hlen, Nat.max_id in Hall.
    apply (list_eq_same_length _ _ (length r)); [done|done|]. intros i x y Hi Hx Hy.
    rewrite Forall_forall in Hall. specialize (Hall i ltac:(apply elem_of_seq; lia)).
    apply Z.lxor_eq in Hall. unfold byte_at in Hall. rewrite Hx, Hy in Hall.
    by apply byte_value_inj.
  - apply Forall_forall. intros i _. apply Z.lxor_nilpotent.
Qed.

(** C28: The byte-by-byte comparison without early exit decides equality, so
    authentication grants exactly the role whose credential was presented: the
    administrative role for the administrative credential, the query role for
    the query credential, and nothing for anything else. *)
Theorem authenticate_exact c supplied :
  query_credential c ≠ admin_credential c →
  (authenticate c supplied = Some RoleAdmin ↔ supplied = admin_credential c)
  ∧ (authenticate c supplied = Some RoleQuery ↔ supplied = query_credential c)
  ∧ (authenticate c supplied = None ↔
     supplied ≠ admin_credential c ∧ supplied ≠ query_credential c).
Proof.
  intros Hne. unfold authenticate.
  pose proof (constant_time_equal_spec supplied (admin_credential c)) as Ha.
  pose proof (constant_time_equal_spec supplied (query_credential c)) as Hq.
  destruct (constant_time_equal supplied (admin_credential c));
    destruct (constant_time_equal supplied (query_credential c)); naive_solver.
Qed.

(** ** UTF-8 texts *)

(** The first character of a text: the bytes it takes, whatever follows them. *)
Lemma chars_first b0 t cs :
  chars (b0 :: t) = Some cs →
  ∃ c cs' pre rest, b0 :: t = pre ++ rest ∧ pre ≠ [] ∧ cs = c :: cs' ∧ chars rest = Some cs'
    ∧ (∀ s, chars (pre ++ s) = (cons c) <$> chars s)
    ∧ (∀ x, x ∈ pre → (byte_value x < 128)%Z → c = byte_value x).
Proof.
  assert (∀ b, continuation b = true → (128 <= byte_value b)%Z) as Hcont.
  { intros b. destruct b; vm_compute; intros; congruence. }
  simpl. destruct (byte_value b0 <? 0x80)%Z eqn:H0.
  { intros (cs' & Ht & ->)%fmap_Some_1. exists (byte_value b0), cs', [b0], t.
    split_and!; [done..| |].
    - intros s. simpl. by rewrite H0.
    - by intros x ->%list_elem_of_singleton. }
  apply Z.ltb_ge in H0 as Hb0. 
  destruct t as [|b1 t1]; [done|]. destruct (continuation b1) eqn:H1; [|done]. simpl negb. cbn iota.
  apply Hcont in H1 as Hb1.
  destruct (Z.land (byte_value b0) 0xE0 =? 0xC0)%Z eqn:H2.
  { destruct (Z.lor _ _ <? 0x80)%Z eqn:H3; [done|]. intros (cs' & Ht & ->)%fmap_Some_1.
    eexists _, cs', [b0; b1], t1. split_and!; [done..| |].
    - intros s. simpl. by rewrite H0, H1, H2, H3.
    - intros x Hx Hlt. exfalso. repeat (apply elem_of_cons in Hx as [->|Hx]; [lia|]).
      by apply elem_of_nil in Hx. }
  destruct t1 as [|b2 t2]; [done|]. destruct (continuation b2) eqn:H3; [|done]. simpl negb. cbn iota.
  apply Hcont in H3 as Hb2.
  destruct (Z.land (byte_value b0) 0xF0 =? 0xE0)%Z eqn:H4.
  { destruct ((Z.lor _ _ <? 0x800)%Z || _) eqn:H5; [done|]. intros (cs' & Ht & ->)%fmap_Some_1.
    eexists _, cs', [b0; b1; b2], t2. split_and!; [done..| |].
    - intros s. simpl. by rewrite H0, H1, H2, H3, H4, H5.
    - intros x Hx Hlt. exfalso. repeat (apply elem_of_cons in Hx as [->|Hx]; [lia|]).
      by apply elem_of_nil in Hx. }
  destruct t2 as [|b3 t3]; [done|]. destruct (continuation b3) eqn:H5; [|done]. simpl negb. cbn iota.
  apply Hcont in H5 as Hb3.
  destruct (Z.land (byte_value b0) 0xF8 =? 0xF0)%Z eqn:H6; [|done].
  destruct ((Z.lor _ _ <? 0x10000)%Z || _) eqn:H7; [done|]. intros (cs' & Ht & ->)%fmap_Some_1.
  eexists _, cs', [b0; b1; b2; b3], t3. split_and!; [done..| |].
  - intros s. simpl. by rewrite H0, H1, H2, H3, H4, H5, H6, H7.
  - intros x Hx Hlt. exfalso. repeat (apply elem_of_cons in Hx as [->|Hx]; [lia|]).
    by apply elem_of_nil in Hx.
Qed.

(** Texts are induced on character by character. *)
Lemma chars_induction (P : bytes → list Z → Prop) :
  P [] [] →
  (∀ pre c rest cs,
     chars rest = Some cs → P rest cs →
     (∀ s, chars (pre ++ s) = (cons c) <$> chars s) →
     (∀ x, x ∈ pre → (byte_value x < 128)%Z → c = byte_value x) →
     P (pre ++ rest) (c :: cs)) →
  ∀ b cs, chars b = Some cs → P b cs.
Proof.
  intros Hnil Hcons b. remember (length b) as n eqn:Hn. revert b Hn.
  induction (lt_wf n) as [n _ IH]. intros b -> cs Hb. destruct b as [|b0 t].
  - by injection Hb as <-.
  - apply chars_first in Hb as (c & cs' & pre & rest & Heq & Hpre & -> & Hrest & Hs & Hx).
    rewrite Heq in IH |- *. apply Hcons; [done| |done|done].
    apply (IH (length rest)); [|done|done]. rewrite length_app. destruct pre; [done|simpl; lia].
Qed.

Lemma chars_app b cs b' cs' :
  chars b = Some cs → chars b' = Some cs' → chars (b ++ b') = Some (cs ++ cs').
Proof.
  intros Hb Hb'. revert b cs Hb. apply chars_induction; [done|].
  intros pre c rest cs _ IH Hs _. rewrite <-app_assoc, Hs, IH. done.
Qed.

(** An ASCII byte of a text is one of its characters. *)
Lemma chars_ascii b cs x :
  chars b = Some cs → x ∈ b → (byte_value x < 128)%Z → byte_value x ∈ cs.
Proof.
  intros Hb Hin Hx. revert b cs Hb Hin. apply (chars_induction (λ b cs, x ∈ b → byte_value x ∈ cs)).
  - by intros ?%elem_of_nil.
  - intros pre c rest cs _ IH _ Hpre [Hin|Hin]%elem_of_app.
    + rewrite (Hpre x) by done. by left.
    + right. by apply IH.
Qed.

(** ** Credential files *)

(** What a credential must be: a text of at least 32 bytes without white space. *)
Definition credential_ok (b : bytes) : Prop :=
  (32 <= len b)%Z ∧ any_whitespace b = false.

Lemma credential_ok_chars b :
  credential_ok b → ∃ cs, chars b = Some cs ∧ existsb char_is_whitespace cs = false.
Proof. intros [_ Hw]. unfold any_whitespace in Hw. destruct (chars b); naive_solver. Qed.

Lemma trim_end_credential b : credential_ok b → trim_end_lines (b ++ [newline]) = b.
Proof.
  intros Hb. apply credential_ok_chars in Hb as (cs & Hcs & Hw). unfold trim_end_lines.
  rewrite rev_app_distr. simpl. rewrite <-(rev_involutive b) at 2. f_equal.
  destruct (rev b) as [|x b'] eqn:Hr; [done|]. simpl.
  destruct (is_line_end x) eqn:Hx; [|done]. exfalso.
  assert (x ∈ b) as Hin.
  { apply list_elem_of_In. rewrite <-(rev_involutive b), Hr. apply in_rev. rewrite rev_involutive.
    by left. }
  apply not_true_iff_false in Hw. apply Hw, existsb_exists. exists (byte_value x).
  unfold is_line_end in Hx.
  apply orb_true_iff in Hx as [->%bool_decide_eq_true_1| ->%bool_decide_eq_true_1];
    (split; [apply list_elem_of_In, (chars_ascii b); done|done]).
Qed.

Lemma private_mode u : Z.land (Z.land (Z.land protected_mode (Z.lnot u)) 0x1FF) 0x3F = 0%Z.
Proof.
  rewrite <-!Z.land_assoc. rewrite (Z.land_comm (Z.lnot u)). rewrite !Z.land_assoc. done.
Qed.

(** *** Creating directories and files *)

Section files.
Context (cwd : path).
Implicit Types (fs : fsys) (p : path).

(** No file stands where a directory of [p] is needed. *)
Definition directories_possible fs p : Prop :=
  fs !! [] = Some NDir ∧ ∀ k, k `prefix_of` p → fs !! k = None ∨ fs !! k = Some NDir.

(** [fs'] has the directories down to [p] and is [fs] elsewhere. *)
Definition with_directories fs p fs' : Prop :=
  fs' !! p = Some NDir ∧
  ∀ k, fs' !! k = fs !! k ∨ (k `prefix_of` p ∧ fs !! k = None ∧ fs' !! k = Some NDir).

Lemma with_directories_refl fs p : fs !! p = Some NDir → with_directories fs p fs.
Proof. intros Hp. split; [done|]. intros k. by left. Qed.

Lemma wp_create_dirs acc rest fs C :
  fs !! acc = Some NDir →
  (∀ k, k `prefix_of` (acc ++ rest) → fs !! k = None ∨ fs !! k = Some NDir) →
  wp Calm (create_dirs acc rest) fs
    (λ r fs', r = Ok tt ∧ with_directories fs (acc ++ rest) fs') C.
Proof.
  revert acc fs. induction rest as [|c rest IH]; intros acc fs Hacc Hk; simpl.
  { apply wp_ret. rewrite app_nil_r. split; [done|by apply with_directories_refl]. }
  assert (acc ++ c :: rest = join acc c ++ rest) as Heq.
  { unfold join. by rewrite <-app_assoc. }
  rewrite Heq in Hk |- *. apply wp_bind, wp_query.
  destruct (Hk (join acc c) ltac:(by apply prefix_app_r)) as [Hn|Hd].
  - unfold is_dir. rewrite Hn. apply wp_try. eapply wp_atomic; [|simpl|done|done].
    { unfold do_create_dir, exists_, is_dir. by rewrite Hn, parent_join, Hacc. }
    eapply wp_mono; [apply IH| |done].
    + by rewrite lookup_insert_eq.
    + intros k Hpre. destruct (decide (k = join acc c)) as [->|];
        [rewrite lookup_insert_eq; by right|rewrite lookup_insert_ne by done; by apply Hk].
    + intros r fs' (-> & Hp & Hrest). split; [done|]. split; [done|]. intros k.
      destruct (Hrest k) as [He|(Hpre & He & Hd)].
      * destruct (decide (k = join acc c)) as [->|];
          [rewrite lookup_insert_eq in He; right; split_and!; [by apply prefix_app_r|done..]|].
        rewrite lookup_insert_ne in He by done. by left.
      * destruct (decide (k = join acc c)) as [->|]; [by rewrite lookup_insert_eq in He|].
        rewrite lookup_insert_ne in He by done. by right.
  - unfold is_dir. rewrite Hd. by apply IH.
Qed.

Lemma wp_create_dir_all p fs C :
  directories_possible fs p →
  wp Calm (create_dir_all p) fs (λ r fs', r = Ok tt ∧ with_directories fs p fs') C.
Proof. intros [Hroot Hk]. by apply (wp_create_dirs []). Qed.

(** A place where a new file can be written: nothing there, and every
    directory above it present or creatable. *)
Definition creatable fs (p : PathBuf) : Prop :=
  is_absolute p = true ∧ components p ≠ [] ∧ fs !! components p = None
  ∧ directories_possible fs (parent (components p)).

Lemma creatable_parent fs (p : PathBuf) :
  creatable fs p →
  path_parent p = Some (mkPathBuf true (parent (components p)))
  ∧ located cwd p = components p ∧ ¬ components p `prefix_of` parent (components p).
Proof.
  intros (Ha & Hn & _ & _). unfold path_parent, located, parent. rewrite Ha.
  destruct (components p) as [|c cs] eqn:Hc; [done|]. split_and!; [done|done|].
  intros Hpre%prefix_length. pose proof (app_removelast_last "" (l := c :: cs) ltac:(done)) as Hl.
  apply (f_equal length) in Hl. rewrite length_app in Hl. simpl length in Hl at 3. lia.
Qed.

(** A new file is written whole, its missing directories are created, and
    nothing else changes. *)
Lemma wp_write_new_file (p : PathBuf) b protected fs C :
  creatable fs p →
  wp Calm (write_new_file cwd p b protected) fs
    (λ r fs', r = Ok tt ∧ ∃ u,
       fs' !! components p
       = Some (NFile (Z.land (if protected then protected_mode else default_mode) (Z.lnot u)) b)
       ∧ ∀ k, k ≠ components p → fs' !! k = fs !! k
           ∨ (k `prefix_of` parent (components p) ∧ fs !! k = None ∧ fs' !! k = Some NDir)) C.
Proof.
  intros Hc. destruct (creatable_parent _ _ Hc) as (Hpar & Hloc & Hnp).
  destruct Hc as (_ & _ & Habs & Hdirs). unfold write_new_file, parent_to_create.
  rewrite Hpar, Hloc. apply wp_try. simpl. apply wp_map_err.
  eapply wp_mono; [by apply wp_create_dir_all| |done].
  intros r fs' (-> & Hd & Hsame). simpl. apply wp_try, wp_map_err.
  assert (fs' !! components p = None) as Habs'.
  { destruct (Hsame (components p)) as [->|(Hpre & _)]; done. }
  apply wp_open_new; [done|done| |done|done]. intros u. simpl. apply wp_bind.
  eapply wp_write_all_sync; [by rewrite lookup_insert_eq| |done|done].
  rewrite insert_insert_eq. apply wp_ret. split; [done|]. exists u.
  rewrite lookup_insert_eq. split; [done|]. intros k Hk. rewrite lookup_insert_ne by done.
  apply Hsame.
Qed.

Lemma wp_read_to_string mo p b fs m cs (C : fsys → Prop) :
  errors mo = false → (crashes mo = true → C fs) →
  fs !! p = Some (NFile m b) → chars b = Some cs →
  wp mo (read_to_string p) fs (λ r fs', r = Ok b ∧ fs' = fs) C.
Proof.
  intros He HC Hp Hb. apply wp_try. eapply wp_read_file; [apply content_Some; eauto| |congruence|done].
  simpl. rewrite Hb. by apply wp_ret.
Qed.

(** A credential file whose mode excludes group and others and whose content
    is a credential and a newline is read back as that credential. *)
Lemma wp_read_credential mo (p : PathBuf) m b fs (C : fsys → Prop) :
  errors mo = false → (crashes mo = true → C fs) →
  fs !! located cwd p = Some (NFile m (b ++ [newline])) →
  Z.land (Z.land m 0x1FF) 0x3F = 0%Z → credential_ok b →
  wp mo (read_credential cwd p) fs (λ r fs', r = Ok b ∧ fs' = fs) C.
Proof.
  intros He HC Hp Hm Hb. destruct (credential_ok_chars _ Hb) as (cs & Hcs & _).
  unfold read_credential. apply wp_try. unfold validate_credential_permissions. apply wp_try, wp_map_err.
  apply wp_bind, wp_umask. intros u. eapply wp_atomic; [by rewrite Hp| |congruence|done]. simpl.
  rewrite Hm. simpl. apply wp_ret. apply wp_try, wp_map_err.
  eapply wp_mono; [eapply wp_read_to_string; [done|done|exact Hp|by apply (chars_app _ cs _ [10%Z])]| |done].
  intros r fs' [-> ->]. simpl. rewrite trim_end_credential by done.
  destruct Hb as [Hlen Hw]. rewrite Hw.
  destruct (Z.ltb_spec (len b) 32); [lia|]. by apply wp_ret.
Qed.

(** A credential survives being written and read back.  Whatever the umask,
    writing a credential of at least 32 bytes without white space to a free
    place succeeds, and reading that file accepts its permissions and returns
    exactly the credential. *)
Theorem credential_round_trip (p : PathBuf) credential fs u :
  creatable fs p → credential_ok credential →
  ∃ w', (let? _ := write_credential cwd p credential in read_credential cwd p) (fresh fs u)
        = (Some (Ok credential), w').
Proof.
  intros Hc Hok. destruct (creatable_parent _ _ Hc) as (_ & Hloc & _).
  destruct (wp_returns (let? _ := write_credential cwd p credential in read_credential cwd p) fs
    (λ r _, r = Ok credential) (λ _, True) u) as (a & w' & Hrun & ->); [|by exists w'].
  apply wp_try. eapply (wp_mono _ _ _ _ _ (λ _, True)); [by apply wp_write_new_file| |done].
  intros r fs' (-> & v & Hp & _). eapply (wp_mono _ _ _ _ _ (λ _, True));
    [eapply wp_read_credential; [done|done|by rewrite Hloc|apply private_mode|done]|by intros ?? [? _]|done].
Qed.

(** C29: New files never replace old ones.  When something exists at the path,
    [write_new_file] reports an error and the entry is unchanged, under every
    schedule of I/O errors and crashes. *)
Theorem write_new_file_never_overwrites (p : PathBuf) b protected fs n w :
  is_absolute p = true → fs !! components p = Some n → w_fs w = fs →
  let '(r, w') := write_new_file cwd p b protected w in
  (match r with Some r => is_err r = true | None => True end)
  ∧ w_fs w' !! components p = Some n.
Proof.
  intros Ha Hp Hw.
  assert (wp Hostile (write_new_file cwd p b protected) fs
    (λ r fs', is_err r = true ∧ fs' !! components p = Some n)
    (λ fs', fs' !! components p = Some n)) as Hwp.
  { assert (located cwd p = components p) as Hloc by (unfold located; by rewrite Ha).
    unfold write_new_file. apply wp_try.
    assert (∀ acc rest fs1, fs1 !! components p = Some n →
      wp Hostile (create_dirs acc rest) fs1 (λ _ fs', fs' !! components p = Some n)
        (λ fs', fs' !! components p = Some n)) as Hdirs.
    { intros acc rest. revert acc. induction rest as [|c rest IH]; intros acc fs1 Hfs1; simpl;
        [by apply wp_ret|]. apply wp_bind, wp_query. case_match; [by apply IH|].
      apply wp_try, wp_syscall; [|done|done]. unfold do_create_dir. repeat case_match; simpl; try done.
      apply IH. rewrite lookup_insert_ne; [done|]. intros Heq.
      match goal with H : exists_ _ _ = false |- _ => apply exists_false in H end. congruence. }
    eapply (wp_mono _ _ _ (λ _ fs', fs' !! components p = Some n) _
              (λ fs', fs' !! components p = Some n)); [| |done].
    - destruct (parent_to_create p) as [d|]; [|by apply wp_ret].
      apply wp_map_err. by apply Hdirs.
    - intros [|e] fs' Hfs'; [|done]. apply wp_try, wp_map_err. rewrite Hloc.
      apply wp_bind, wp_umask. intros u. apply wp_syscall; [|done|done].
      unfold do_open_new. rewrite (proj2 (exists_true _ _)) by eauto. done. }
  specialize (Hwp w ltac:(done) Hw). destruct (write_new_file _ _ _ _ w) as [[r|] w'].
  - apply Hwp.
  - split; [done|]. apply Hwp.
Qed.
End files.

(** ** Configurations *)

Section configuration.
Context `{!SocketAddr, !Toml, !TomlLaws}.
Context (cwd : path).
Implicit Types (c : DaemonConfig) (l : LimitConfig).

(** Every limit of a configuration is a positive number, in the source's unsigned types. *)
Definition limits_positive l : Prop :=
  Forall (λ z, z ≠ 0%Z)
    [max_connections l; max_sessions l; max_transaction_statements l; query_timeout_ms l;
     max_rows l; max_memory_bytes l; max_operations l; max_traversals l; max_snapshot_bytes l].

Lemma limits_zero_spec l : limits_zero l = false ↔ limits_positive l.
Proof.
  unfold limits_zero, limits_positive. generalize
    [max_connections l; max_sessions l; max_transaction_statements l; query_timeout_ms l;
     max_rows l; max_memory_bytes l; max_operations l; max_traversals l; max_snapshot_bytes l].
  intros zs. induction zs as [|z zs IH]; cbn [existsb]; [by split|].
  rewrite orb_false_iff, Forall_cons, IH, Z.eqb_neq. naive_solver.
Qed.

(** [validate] accepts exactly the configurations of this version whose
    listener is a canonical socket address, whose data directory is named, whose
    two credential files differ and all of whose limits are positive. *)
Theorem validate_accepts_exactly c :
  validate c = Ok tt ↔
  config_version c = CONFIG_VERSION
  ∧ (∃ a, socket_parse (listen (network c)) = Ok a
          ∧ trim (listen (network c)) = socket_to_string a)
  ∧ path_is_empty (data_directory c) = false
  ∧ query_credential_file (authentication c) ≠ admin_credential_file (authentication c)
  ∧ limits_positive (limits c).
Proof.
  rewrite <-limits_zero_spec. unfold validate, listen_address.
  destruct (Z.eqb_spec (config_version c) CONFIG_VERSION); simpl; [|naive_solver].
  destruct (socket_parse _) as [a|err]; simpl; [|naive_solver].
  destruct (String.eqb_spec (trim (listen (network c))) (socket_to_string a)); simpl; [|naive_solver].
  destruct (path_is_empty _); [naive_solver|]. case_decide; [naive_solver|].
  destruct (limits_zero _); naive_solver.
Qed.

(** The paths of a configuration are absolute, as [nostd init] writes them. *)
Definition paths_absolute c : Prop :=
  is_absolute (data_directory c) = true
  ∧ is_absolute (query_credential_file (authentication c)) = true
  ∧ is_absolute (admin_credential_file (authentication c)) = true.

Lemma resolve_absolute base (v : PathBuf) : is_absolute v = true → resolve_path base v = Ok v.
Proof. intros Hv. unfold resolve_path. rewrite Hv. cbv zeta. unfold path_is_empty. by rewrite Hv. Qed.

(** A configuration is written to a free place like any new file. *)
Lemma wp_write_new c p fs C :
  validate c = Ok tt → toml_writable c → creatable fs p →
  wp Calm (write_new cwd c p) fs
    (λ r fs', r = Ok tt ∧ ∃ mo src,
       to_string_pretty c = Ok src ∧ fs' !! components p = Some (NFile mo src)
       ∧ ∀ k, k ≠ components p → fs' !! k = fs !! k
           ∨ (k `prefix_of` parent (components p) ∧ fs !! k = None ∧ fs' !! k = Some NDir)) C.
Proof.
  intros Hv Hw Hc. destruct (creatable_parent cwd _ _ Hc) as (Hpar & Hloc & Hnp).
  destruct (toml_encodes c Hw) as (src & Hsrc).
  unfold write_new. rewrite Hv, Hsrc. apply wp_try. unfold parent_to_create at 1.
  rewrite Hpar. simpl. apply wp_map_err. destruct Hc as (Habs & Hne & Hnone & Hdirs).
  eapply wp_mono; [by apply wp_create_dir_all| |done].
  intros r fs' (-> & Hpd & Hsame). simpl.
  assert (creatable fs' p) as Hc'.
  { split_and!; [done|done| |].
    - destruct (Hsame (components p)) as [->|(Hpre & _)]; done.
    - destruct Hdirs as [Hroot Hk]. split.
      + destruct (Hsame []) as [->|(_ & ? & _)]; congruence.
      + intros k Hkp. destruct (Hsame k) as [->|(_ & _ & ->)]; [by apply Hk|by right]. }
  eapply wp_mono; [by apply wp_write_new_file| |done].
  intros r fs2 (-> & v & Hp & Hrest). split; [done|]. eexists _, src. split_and!; [done|done|].
  intros k Hk. destruct (Hrest k Hk) as [->|(Hpre & Hn & ->)]; [apply Hsame|].
  destruct (Hsame k) as [<-|(_ & _ & ?)]; [by right|congruence].
Qed.

(** A configuration file is loaded back. *)
Lemma wp_config_load c p src mo fs C :
  validate c = Ok tt → paths_absolute c → is_absolute p = true →
  to_string_pretty c = Ok src → fs !! components p = Some (NFile mo src) →
  wp Calm (config_load cwd p) fs (λ r fs', r = Ok c ∧ fs' = fs) C.
Proof.
  intros Hv (Hd & Hq & Ha) Hp Hsrc Hf. destruct (toml_text c src Hsrc) as [cs Hcs].
  unfold config_load. apply wp_try, wp_map_err.
  eapply wp_mono; [eapply wp_read_to_string; [done|done| |done]; unfold located; by rewrite Hp| |done].
  intros r fs3 [-> ->]. simpl. apply wp_ret. rewrite (toml_round_trip c src Hsrc). simpl.
  rewrite !resolve_absolute by done. simpl. destruct c as [cv dd n [qf af] l]. simpl in *.
  by rewrite Hv.
Qed.

(** A configuration survives being written and loaded: a valid configuration
    with absolute paths that TOML can hold, written to a free place, loads back
    unchanged. *)
Theorem config_round_trip c p fs u :
  validate c = Ok tt → paths_absolute c → toml_writable c → creatable fs p →
  ∃ w', (let? _ := write_new cwd c p in config_load cwd p) (fresh fs u) = (Some (Ok c), w').
Proof.
  intros Hv Hpaths Hw Hc.
  destruct (wp_returns (let? _ := write_new cwd c p in config_load cwd p) fs
    (λ r _, r = Ok c) (λ _, True) u) as (a & w' & Hrun & ->); [|by exists w'].
  apply wp_try. eapply (wp_mono _ _ _ _ _ (λ _, True)); [by apply wp_write_new| |done].
  intros r fs' (-> & mo & src & Hsrc & Hf & _).
  eapply (wp_mono _ _ _ _ _ (λ _, True)); [by eapply wp_config_load; [..|apply Hc| |]|by intros ?? [? _]|done].
Qed.

(** The configuration [nostd init] writes for an absolute data directory is
    valid whenever its listener is canonical. *)
Lemma default_config_valid data address text :
  is_absolute data = true → socket_parse text = Ok address → trim text = socket_to_string address →
  validate (config_new data text) = Ok tt ∧ paths_absolute (config_new data text).
Proof.
  intros Hd Hp Ht. split.
  - unfold validate, listen_address. simpl. rewrite Hp. simpl. rewrite Ht, String.eqb_refl. simpl.
    unfold path_is_empty. rewrite Hd. simpl. rewrite decide_False; [done|].
    unfold path_join, credentials_directory. simpl. intros [= Heq%app_inj_2]; [|done]. naive_solver.
  - split_and!; simpl; unfold path_join; by simpl.
Qed.

(** It can be written when the data directory is UTF-8. *)
Lemma default_config_writable data text : path_utf8 data → toml_writable (config_new data text).
Proof.
  intros Hd. assert (∀ n, is_Some (chars (String.list_byte_of_string n)) →
    path_utf8 (path_join (credentials_directory data) (mkPathBuf false [n]))) as Hfile.
  { intros n Hn. unfold path_utf8, credentials_directory, path_join. simpl.
    rewrite !Forall_app, !Forall_singleton. split_and!; [done|by eexists|done]. }
  split_and!; [done|apply Hfile; by eexists..|]. simpl. unfold limit_values. simpl. unfold i64_max.
  repeat constructor; lia.
Qed.
End configuration.

(** ** A concrete installation *)

Module Concrete.

Definition packed_config : Type :=
  Z * (bool * path) * string * (bool * path) * (bool * path) * list Z.

Definition pack_path (p : PathBuf) : bool * path := (is_absolute p, components p).
Definition unpack_path (p : bool * path) : PathBuf := mkPathBuf p.1 p.2.

Definition pack_config (c : DaemonConfig) : packed_config :=
  let l := limits c in
  (config_version c, pack_path (data_directory c), listen (network c),
   pack_path (query_credential_file (authentication c)),
   pack_path (admin_credential_file (authentication c)),
   [max_connections l; max_sessions l; max_transaction_statements l; query_timeout_ms l;
    max_rows l; max_memory_bytes l; max_operations l; max_traversals l; max_snapshot_bytes l]).

Definition unpack_config (p : packed_config) : option DaemonConfig :=
  match p with
  | (v, d, l, q, a, [l1; l2; l3; l4; l5; l6; l7; l8; l9]) =>
      Some (mkDaemonConfig v (unpack_path d) (mkNetworkConfig l)
        (mkAuthenticationConfig (unpack_path q) (unpack_path a))
        (mkLimitConfig l1 l2 l3 l4 l5 l6 l7 l8 l9))
  | _ => None
  end.

#[local] Instance toml : Toml := {|
  to_string_pretty c := Ok (Reference.encode_bits (countable.encode (pack_config c)));
  toml_from_str b := result_bind (Reference.decode_document b)
                       (λ p, ok_or (unpack_config p) "invalid configuration")
|}.

Lemma encode_bits_chars p : is_Some (chars (Reference.encode_bits p)).
Proof.
  induction p as [p [cs IH]|p [cs IH]|]; simpl; [rewrite IH; by eexists..|by eexists].
Qed.

#[local] Instance toml_laws : TomlLaws.
Proof.
  constructor.
  - simpl. intros c b [= <-]. unfold Reference.decode_document.
    rewrite <-(app_nil_r (Reference.encode_bits _)), Reference.decode_encode_bits. simpl.
    rewrite countable.decode_encode. destruct c as [? [] [] [[] []] []]. done.
  - intros c b [= <-]. apply encode_bits_chars.
  - intros c _. by eexists.
Qed.

#[local] Instance socket : SocketAddr := {|
  socket_addr := string;
  socket_parse s := if String.eqb s "" then Err "invalid socket address syntax" else Ok s;
  socket_to_string s := s
|}.

Definition data : PathBuf := mkPathBuf true ["srv"; "nostdb"].
Definition example_config : DaemonConfig := config_new data "127.0.0.1:7878".
Definition config_path : PathBuf := mkPathBuf true ["etc"; "nostdb"; "server.toml"].
Definition empty_disk : fsys := {[ [] := NDir ]}.
Definition token : bytes := repeat x61 32.

Lemma empty_disk_lookup k : k ≠ [] → empty_disk !! k = None.
Proof. intros Hk. by apply lookup_singleton_ne. Qed.

Lemma example_creatable (p : PathBuf) :
  is_absolute p = true → components p ≠ [] → creatable empty_disk p.
Proof.
  intros Ha Hn. split_and!; [done|done|by apply empty_disk_lookup|].
  split; [apply lookup_singleton_eq|]. intros k _. destruct k; [by right|left].
  by apply empty_disk_lookup.
Qed.

Lemma authenticate_exact_witness :
  authenticate (mkCredentials [x61] [x62]) [x62] = Some RoleAdmin.
Proof. apply (authenticate_exact (mkCredentials [x61] [x62]) [x62]); [discriminate|reflexivity]. Defined.

Lemma credential_round_trip_witness :
  ∃ w', (let? _ := write_credential [] (mkPathBuf true ["t"]) token in
         read_credential [] (mkPathBuf true ["t"])) (fresh empty_disk 18) = (Some (Ok token), w').
Proof.
  apply (credential_round_trip [] (mkPathBuf true ["t"]) token empty_disk 18).
  - apply example_creatable; [reflexivity|discriminate].
  - split; [discriminate|reflexivity].
Defined.

Lemma write_new_file_never_overwrites_witness :
  let '(r, w') := write_new_file [] (mkPathBuf true []) token true (fresh empty_disk 18) in
  (match r with Some r => is_err r = true | None => True end) ∧ w_fs w' !! [] = Some NDir.
Proof.
  apply (write_new_file_never_overwrites [] (mkPathBuf true []) token true empty_disk NDir);
    reflexivity.
Defined.

Lemma config_round_trip_witness :
  ∃ w', (let? _ := write_new [] example_config config_path in config_load [] config_path)
          (fresh empty_disk 18) = (Some (Ok example_config), w').
Proof.
  apply (config_round_trip [] example_config config_path empty_disk 18).
  - reflexivity.
  - split_and!; reflexivity.
  - apply default_config_writable. repeat constructor; by eexists.
  - apply example_creatable; [reflexivity|discriminate].
Defined.

End Concrete.
