(* ===== verification/Protocol.v ===== *)
(** * Database protocol connections ([src/src/protocol.rs])

    One connection of the database protocol: the hello handshake, the order of
    request identifiers, the authorization and transaction guards, the handler
    of every request, snapshot upload and download, cancellation, time-outs and
    the end of the connection.  The daemon is used through an interface. *)

From Stdlib Require Import ZArith Lia Ascii.
From stdpp Require Import base list strings gmap.
From S2P Require Import Prelude Catalog Wire Messages Client Config.

Open Scope string_scope.
Open Scope list_scope.

(** [env!("CARGO_PKG_VERSION")] *)
Definition SERVER_VERSION : string := "0.0.3".

(** ** What a connection uses *)

(** [nostdb_engine::prepare_write(query).is_ok()] *)
Class PrepareWrite : Type := { prepare_write_ok : string → bool }.

(** The standard padded engine of the [base64] crate. *)
Class Base64 : Type := {
  base64_encode : bytes → string;
  base64_decode : string → result bytes string
}.

Class Base64Laws `{Base64} : Prop := {
  base64_round_trip b : base64_decode (base64_encode b) = Ok b
}.

(** A call into the daemon: [None] when the process dies in it. *)
Definition call (D A : Type) : Type := D → option (result A ProtocolFailure) * D.

(** The operations of [DatabaseDaemon] that the protocol calls. *)
Class DaemonOps (D : Type) : Type := {
  daemon_authenticate : D → string → option ClientRole;
  daemon_list_databases : call D (list DatabaseSummary);
  daemon_select_database : string → call D DatabaseSummary;
  daemon_create_database : string → call D DatabaseSummary;
  daemon_rename_database : string → string → call D DatabaseSummary;
  daemon_drop_database : string → string → call D DatabaseSummary;
  daemon_inspect_database : string → call D DatabaseDetails;
  daemon_execute_selected :
    string → string → list (string * Value) → bool → option WireQueryLimits →
    bool (* the token is cancelled *) → call D StatementResult;
  daemon_execute_selected_transaction :
    string → list (string * list (string * Value)) → bool → call D (list StatementResult);
  daemon_export_snapshot : string → call D bytes;
  daemon_restore_snapshot : string → bytes → call D unit;
  daemon_export_logical : string → call D Value;
  daemon_import_logical : string → Value → call D Z
}.

(** ** State *)

Record QueuedStatement : Type := mkQueuedStatement {
  queued_query : string;
  queued_parameters : list (string * Value);
  queued_read_only : bool
}.

Record SnapshotUpload : Type := mkSnapshotUpload {
  upload_database : string;
  upload_total_bytes : Z;
  upload_next_sequence : Z;
  upload_bytes : bytes
}.

Record ConnectionState : Type := mkConnectionState {
  conn_role : ClientRole;
  selected_database_id : option string;
  transaction : option (list QueuedStatement);
  restore : option SnapshotUpload;
  last_request_id : Z
}.

(** What a spawned task does on a worker thread. *)
Inductive work : Type :=
| WorkQuery (database_id query : string) (parameters : list (string * Value)) (read_only : bool)
            (limits : option WireQueryLimits) (stream : bool)
| WorkCommit (database_id : string) (statements : list (string * list (string * Value)))
| WorkExport (database : string).

(** How the worker ended; [Panicked] is a [JoinError]. *)
Inductive worker_result : Type :=
| Statement (r : result StatementResult ProtocolFailure)
| Batch (r : result (list StatementResult) ProtocolFailure)
| Snapshot (r : result bytes ProtocolFailure)
| Panicked (text : string).

Record task : Type := mkTask {
  task_id : Z;
  task_work : work;
  task_result : option worker_result;
  timed_out : bool
}.

Inductive phase : Type :=
| Serving
| Draining                          (* the loop has ended; tasks finish *)
| Closed (r : result unit string).

(** A connection after its handshake.  [active] maps a request to whether its
    token is cancelled; [sent] is what went into the response channel, oldest
    first; [writer_error] is set once the writer task has ended with an error,
    which closes the channel. *)
Record connection : Type := mkConnection {
  conn : ConnectionState;
  active : gmap Z bool;
  tasks : list task;
  sent : list ServerFrame;
  writer_error : option string;
  conn_phase : phase
}.

Definition set_conn (s : ConnectionState) (c : connection) : connection :=
  mkConnection s (active c) (tasks c) (sent c) (writer_error c) (conn_phase c).
Definition set_active (a : gmap Z bool) (c : connection) : connection :=
  mkConnection (conn c) a (tasks c) (sent c) (writer_error c) (conn_phase c).
Definition set_tasks (ts : list task) (c : connection) : connection :=
  mkConnection (conn c) (active c) ts (sent c) (writer_error c) (conn_phase c).
Definition push (f : ServerFrame) (c : connection) : connection :=
  mkConnection (conn c) (active c) (tasks c) (sent c ++ [f]) (writer_error c) (conn_phase c).
Definition set_writer_error (e : string) (c : connection) : connection :=
  mkConnection (conn c) (active c) (tasks c) (sent c) (Some e) (conn_phase c).
Definition set_phase (p : phase) (c : connection) : connection :=
  mkConnection (conn c) (active c) (tasks c) (sent c) (writer_error c) p.

Definition set_selected (id : option string) (s : ConnectionState) : ConnectionState :=
  mkConnectionState (conn_role s) id (transaction s) (restore s) (last_request_id s).
Definition set_transaction (t : option (list QueuedStatement)) (s : ConnectionState)
    : ConnectionState :=
  mkConnectionState (conn_role s) (selected_database_id s) t (restore s) (last_request_id s).
Definition set_restore (u : option SnapshotUpload) (s : ConnectionState) : ConnectionState :=
  mkConnectionState (conn_role s) (selected_database_id s) (transaction s) u (last_request_id s).
Definition set_last_request_id (id : Z) (s : ConnectionState) : ConnectionState :=
  mkConnectionState (conn_role s) (selected_database_id s) (transaction s) (restore s) id.

(** ** Guards *)

Definition is_admin_request (r : ClientRequest) : bool :=
  match r with
  | DatabaseCreate _ | DatabaseList | DatabaseInspect _ | DatabaseRename _ _ | DatabaseDrop _ _
  | SnapshotExport _ | SnapshotRestoreBegin _ _ | SnapshotRestoreChunk _ _
  | SnapshotRestoreCommit | SnapshotRestoreAbort | LogicalExport _ | LogicalImport _ _ => true
  | _ => false
  end.

Definition changes_database_context (r : ClientRequest) : bool :=
  match r with
  | SelectDatabase _ | DatabaseRename _ _ | DatabaseDrop _ _ | SnapshotRestoreBegin _ _
  | SnapshotRestoreChunk _ _ | SnapshotRestoreCommit | LogicalImport _ _ => true
  | _ => false
  end.

Definition internal_failure (message : string) : ProtocolFailure := failure InternalError message.

(** ** Responses *)

Definition failure_frame (request_id : Z) (e : ProtocolFailure) : ServerFrame :=
  mkServerFrame request_id (RError (failure_code e) (failure_message e) (failure_retryable e)).

(** The error sent in place of a response that does not fit in a frame. *)
Definition oversized : ProtocolFailure :=
  failure RequestTooLarge "response cannot be represented within the negotiated frame bound".

(** [sender.send(frame).await]: fails once the writer is gone. *)
Definition channel_send (f : ServerFrame) (c : connection) : result unit string * connection :=
  match writer_error c with
  | Some _ => (Err "response channel closed", c)
  | None => (Ok tt, push f c)
  end.

Section protocol.
Context `{!PrepareWrite, !Base64, !Payload ClientFrame, !Payload ServerFrame}.
Context {D : Type} `{!DaemonOps D, !FloatCast}.
Context (config : LimitConfig).

Definition send_response (request_id : Z) (r : ServerResponse) (c : connection)
    : result unit string * connection :=
  let frame := mkServerFrame request_id r in
  match to_vec frame with
  | Err e => (Err e, c)
  | Ok encoded =>
      if (len encoded =? 0)%Z || (MAX_FRAME_BYTES <? len encoded)%Z then
        match channel_send (failure_frame request_id oversized) c with
        | (Err e, c') => (Err e, c')
        | (Ok _, c') => (Err "response exceeded the negotiated frame bound", c')
        end
      else channel_send frame c
  end.

Definition send_failure (request_id : Z) (e : ProtocolFailure) (c : connection)
    : result unit string * connection :=
  send_response request_id (RError (failure_code e) (failure_message e) (failure_retryable e)) c.

(** One response after the other until one cannot be sent. *)
Fixpoint send_each (request_id : Z) (rs : list ServerResponse) (c : connection)
    : result unit string * connection :=
  match rs with
  | [] => (Ok tt, c)
  | r :: rs' =>
      match send_response request_id r c with
      | (Ok _, c') => send_each request_id rs' c'
      | (Err e, c') => (Err e, c')
      end
  end.

(** The events of a statement result: a stream of rows, or one result. *)
Definition statement_responses (result : StatementResult) (stream : bool) : list ServerResponse :=
  match stream, result with
  | true, Read q =>
      [RStreamStart (columns q) (ordered q)]
      ++ map (λ row, RStreamRow (map query_value_json row)) (rows q)
      ++ [RStreamEnd (len (rows q))]
  | _, _ => [RResult (statement result)]
  end.

Definition send_statement (request_id : Z) (result : StatementResult) (stream : bool)
    : connection → Prelude.result unit string * connection :=
  send_each request_id (statement_responses result stream).

(** [bytes.chunks(n)]: pieces of [n] bytes, the last one shorter. *)
Fixpoint chunks_fuel (fuel : nat) (n : nat) (b : bytes) : list bytes :=
  match fuel, b with
  | _, [] | O, _ => []
  | S fuel, _ => take n b :: chunks_fuel fuel n (drop n b)
  end.

Definition chunks (n : nat) (b : bytes) : list bytes := chunks_fuel (length b) n b.

Definition chunk_responses (b : bytes) : list ServerResponse :=
  imap (λ i chunk, RSnapshotChunk (Z.of_nat i) (base64_encode chunk))
    (chunks (Z.to_nat SNAPSHOT_CHUNK_BYTES) b).

Definition snapshot_responses (b : bytes) : list ServerResponse :=
  [RSnapshotStart (len b)] ++ chunk_responses b ++ [RSnapshotEnd (len (chunk_responses b))].

Definition send_snapshot (request_id : Z) (b : bytes)
    : connection → result unit string * connection :=
  send_each request_id (snapshot_responses b).

Definition respond_result {T} (request_id : Z) (r : result T ProtocolFailure)
    (response : T → ServerResponse) (c : connection) : result unit string * connection :=
  match r with
  | Ok value => send_response request_id (response value) c
  | Err e => send_failure request_id e c
  end.

(** ** Active requests *)

Definition insert_active (request_id : Z) (c : connection) : result unit string * connection :=
  let c' := set_active (<[request_id := false]> (active c)) c in
  match active c !! request_id with
  | Some _ => (Err "request identifier is already active", c')
  | None => (Ok tt, c')
  end.

Definition remove_active (request_id : Z) (c : connection) : connection :=
  set_active (delete request_id (active c)) c.

Definition cancel_token (request_id : Z) (c : connection) : connection :=
  set_active (alter (λ _, true) request_id (active c)) c.

Definition spawn (request_id : Z) (w : work) (c : connection) : connection :=
  set_tasks (tasks c ++ [mkTask request_id w None false]) c.

(** Registers the token of a request, then spawns its task. *)
Definition spawn_cancellable (request_id : Z) (w : work) (c : connection)
    : result unit string * connection :=
  match insert_active request_id c with
  | (Err e, c') => (Err e, c')
  | (Ok _, c') => (Ok tt, spawn request_id w c')
  end.

(** ** Handlers

    What a handler gives: its result and the connection, unless the process
    died, and the daemon. *)
Definition handled : Type := option (result unit string * connection) * D.

(** A handler's end without a call into the daemon. *)
Definition reply (rc : result unit string * connection) (d : D) : handled := (Some rc, d).

(** Calls the daemon and goes on with its answer. *)
Definition call_then {A} (op : call D A) (d : D) (k : result A ProtocolFailure → D → handled)
    : handled :=
  match op d with
  | (Some r, d') => k r d'
  | (None, d') => (None, d')
  end.

(** Answers with the daemon's result. *)
Definition answer {A} (request_id : Z) (op : call D A) (response : A → ServerResponse)
    (c : connection) (d : D) : handled :=
  call_then op d (λ r d', reply (respond_result request_id r response c) d').

Definition handle_select (request_id : Z) (database : string) (c : connection) (d : D) : handled :=
  call_then (daemon_select_database database) d (λ r d',
    match r with
    | Ok summary =>
        reply (send_response request_id (RDatabaseSelected summary)
                 (set_conn (set_selected (Some (summary_id summary)) (conn c)) c)) d'
    | Err e => reply (send_failure request_id e c) d'
    end).

(** A query inside a transaction is queued. *)
Definition queue_statement (request_id : Z) (queued : list QueuedStatement) (s : QueuedStatement)
    (stream : bool) (limits : option WireQueryLimits) (c : connection)
    : result unit string * connection :=
  if stream then
    send_failure request_id (failure ProtocolViolation
      "streaming is unavailable while a transaction is being queued") c
  else if bool_decide (is_Some limits) then
    send_failure request_id (failure ProtocolViolation
      "explicit transactions use the server transaction budget") c
  else if (max_transaction_statements config <=? len queued)%Z then
    send_failure request_id (failure ResourceLimit "transaction statement limit exceeded") c
  else
    let queued' := queued ++ [s] in
    send_response request_id (RQueued (len queued'))
      (set_conn (set_transaction (Some queued') (conn c)) c).

Definition handle_query (request_id : Z) (query : string) (parameters : list (string * Value))
    (read_only stream : bool) (limits : option WireQueryLimits) (c : connection)
    : result unit string * connection :=
  match selected_database_id (conn c) with
  | None =>
      send_failure request_id (failure DatabaseNotSelected "select a Database before querying") c
  | Some database_id =>
      match transaction (conn c) with
      | Some queued =>
          queue_statement request_id queued (mkQueuedStatement query parameters read_only)
            stream limits c
      | None =>
          spawn_cancellable request_id
            (WorkQuery database_id query parameters read_only limits stream) c
      end
  end.

Definition handle_begin (request_id : Z) (c : connection) : result unit string * connection :=
  match transaction (conn c), selected_database_id (conn c) with
  | Some _, _ =>
      send_failure request_id (failure TransactionAlreadyActive "a transaction is already active") c
  | None, None =>
      send_failure request_id (failure DatabaseNotSelected
        "select a Database before beginning a transaction") c
  | None, Some _ =>
      send_response request_id (RTransaction "begun" [])
        (set_conn (set_transaction (Some []) (conn c)) c)
  end.

Definition rejects_read_only (s : QueuedStatement) : bool :=
  queued_read_only s && prepare_write_ok (queued_query s).

Definition handle_commit (request_id : Z) (c : connection) : result unit string * connection :=
  match transaction (conn c) with
  | None => send_failure request_id (failure NoTransaction "no transaction is active") c
  | Some statements =>
      let c := set_conn (set_transaction None (conn c)) c in
      match selected_database_id (conn c) with
      | None =>
          send_failure request_id (failure DatabaseNotSelected "selected Database was cleared") c
      | Some database_id =>
          if existsb rejects_read_only statements then
            send_failure request_id (failure QueryError
              "read_only request rejected a mutating query") c
          else
            spawn_cancellable request_id
              (WorkCommit database_id
                 (map (λ s, (queued_query s, queued_parameters s)) statements)) c
      end
  end.

Definition handle_rollback (request_id : Z) (c : connection) : result unit string * connection :=
  match transaction (conn c) with
  | None => send_failure request_id (failure NoTransaction "no transaction is active") c
  | Some _ =>
      send_response request_id (RTransaction "rolled_back" [])
        (set_conn (set_transaction None (conn c)) c)
  end.

Definition handle_cancel (request_id target : Z) (c : connection)
    : result unit string * connection :=
  match active c !! target with
  | Some _ => send_response request_id (RCancelled target) (cancel_token target c)
  | None =>
      send_failure request_id (failure ProtocolViolation
        "target request is not active on this connection") c
  end.

Definition handle_drop (request_id : Z) (database confirm_name : string) (c : connection) (d : D)
    : handled :=
  call_then (daemon_drop_database database confirm_name) d (λ r d',
    let c :=
      match r with
      | Ok dropped =>
          if decide (selected_database_id (conn c) = Some (summary_id dropped)) then
            set_conn (set_transaction None (set_selected None (conn c))) c
          else c
      | Err _ => c
      end in
    reply (respond_result request_id r
             (λ database, RDatabaseDropped (summary_id database) (summary_name database)) c) d').

Definition handle_restore_begin (request_id : Z) (database : string) (total_bytes : Z)
    (c : connection) (d : D) : handled :=
  if bool_decide (is_Some (restore (conn c))) then
    reply (send_failure request_id
      (failure ProtocolViolation "a snapshot upload is already active") c) d
  else if (total_bytes =? 0)%Z || (max_snapshot_bytes config <? total_bytes)%Z then
    reply (send_failure request_id (failure RequestTooLarge
      "snapshot size is zero or exceeds max_snapshot_bytes") c) d
  else
    call_then (daemon_select_database database) d (λ r d',
      match r with
      | Err e => reply (send_failure request_id e c) d'
      | Ok _ =>
          reply (send_response request_id (RSnapshotRestore "ready" 0)
            (set_conn (set_restore (Some (mkSnapshotUpload database total_bytes 0 [])) (conn c)) c)) d'
      end).

(** [usize::saturating_add] *)
Definition saturating_add (a b : Z) : Z := Z.min (a + b) u64_max.

Definition handle_restore_chunk (request_id sequence : Z) (data : string) (c : connection)
    : result unit string * connection :=
  match restore (conn c) with
  | None =>
      send_failure request_id (failure ProtocolViolation "no snapshot upload is active") c
  | Some upload =>
      if negb (sequence =? upload_next_sequence upload)%Z then
        send_failure request_id
          (failure ProtocolViolation "snapshot chunk sequence is not contiguous") c
      else
        match base64_decode data with
        | Err e =>
            send_failure request_id (failure ProtocolViolation
              ("snapshot chunk is not valid base64: " +:+ e)) c
        | Ok chunk =>
            if (len chunk =? 0)%Z || (SNAPSHOT_CHUNK_BYTES <? len chunk)%Z then
              send_failure request_id (failure RequestTooLarge
                "snapshot chunk is empty or exceeds the chunk bound") c
            else if (upload_total_bytes upload
                     <? saturating_add (len (upload_bytes upload)) (len chunk))%Z then
              send_failure request_id (failure RequestTooLarge
                "snapshot chunks exceed declared total_bytes") c
            else
              let upload' := mkSnapshotUpload (upload_database upload) (upload_total_bytes upload)
                               (upload_next_sequence upload + 1) (upload_bytes upload ++ chunk) in
              send_response request_id (RSnapshotRestore "chunk_accepted" (len (upload_bytes upload')))
                (set_conn (set_restore (Some upload') (conn c)) c)
        end
  end.

Definition handle_restore_commit (request_id : Z) (c : connection) (d : D) : handled :=
  match restore (conn c) with
  | None =>
      reply (send_failure request_id
        (failure ProtocolViolation "no snapshot upload is active") c) d
  | Some upload =>
      if negb (len (upload_bytes upload) =? upload_total_bytes upload)%Z then
        reply (send_failure request_id (failure ProtocolViolation
          "snapshot upload byte count does not match total_bytes") c) d
      else
        let c := set_conn (set_restore None (conn c)) c in
        answer request_id (daemon_restore_snapshot (upload_database upload) (upload_bytes upload))
          (λ _, RSnapshotRestore "restored" (len (upload_bytes upload))) c d
  end.

Definition handle_restore_abort (request_id : Z) (c : connection)
    : result unit string * connection :=
  let bytes := match restore (conn c) with
               | Some upload => len (upload_bytes upload)
               | None => 0%Z
               end in
  send_response request_id (RSnapshotRestore "aborted" bytes)
    (set_conn (set_restore None (conn c)) c).

(** ** Dispatch *)

Definition handle_request (request_id : Z) (request : ClientRequest) (c : connection) (d : D)
    : handled :=
  match request with
  | Hello _ _ _ =>
      reply (send_failure request_id
        (failure ProtocolViolation "hello may only be sent as the first frame") c) d
  | Ping => reply (send_response request_id RPong c) d
  | SelectDatabase database => handle_select request_id database c d
  | Query query parameters read_only stream limits =>
      reply (handle_query request_id query parameters read_only stream limits c) d
  | Begin => reply (handle_begin request_id c) d
  | Commit => reply (handle_commit request_id c) d
  | Rollback => reply (handle_rollback request_id c) d
  | Cancel target => reply (handle_cancel request_id target c) d
  | DatabaseCreate name =>
      answer request_id (daemon_create_database name) RDatabaseCreated c d
  | DatabaseList => answer request_id daemon_list_databases RDatabaseList c d
  | DatabaseInspect database =>
      answer request_id (daemon_inspect_database database) RDatabaseInfo c d
  | DatabaseRename database new_name =>
      answer request_id (daemon_rename_database database new_name) RDatabaseRenamed c d
  | DatabaseDrop database confirm_name => handle_drop request_id database confirm_name c d
  | SnapshotExport database => reply (Ok tt, spawn request_id (WorkExport database) c) d
  | SnapshotRestoreBegin database total_bytes =>
      handle_restore_begin request_id database total_bytes c d
  | SnapshotRestoreChunk sequence data =>
      reply (handle_restore_chunk request_id sequence data c) d
  | SnapshotRestoreCommit => handle_restore_commit request_id c d
  | SnapshotRestoreAbort => reply (handle_restore_abort request_id c) d
  | LogicalExport database =>
      answer request_id (daemon_export_logical database) RLogicalPackage c d
  | LogicalImport database package =>
      answer request_id (daemon_import_logical database package) RLogicalImported c d
  end.

Definition dispatch (frame : ClientFrame) (c : connection) (d : D) : handled :=
  let id := request_id frame in
  if negb (bool_decide (conn_role (conn c) = RoleAdmin)) && is_admin_request (request frame) then
    reply (send_failure id
      (failure PermissionDenied "administrative credential is required") c) d
  else if bool_decide (is_Some (transaction (conn c)))
          && changes_database_context (request frame) then
    reply (send_failure id (failure ProtocolViolation
      "Database selection and lifecycle changes are unavailable during a transaction") c) d
  else handle_request id (request frame) c d.

(** One frame in the loop of [handle_connection]. *)
Definition on_frame (frame : ClientFrame) (c : connection) (d : D) : handled :=
  if (request_id frame <=? last_request_id (conn c))%Z then
    reply (send_failure (request_id frame) (failure ProtocolViolation
      "request identifiers must be positive and strictly increasing") c) d
  else
    dispatch frame (set_conn (set_last_request_id (request_id frame) (conn c)) c) d.

(** ** Tasks *)

(** The worker's call into the daemon, given whether the task's token is cancelled. *)
Definition run_work (w : work) (cancelled : bool) (d : D) : option worker_result * D :=
  match w with
  | WorkQuery database_id query parameters read_only limits _ =>
      let '(r, d') :=
        daemon_execute_selected database_id query parameters read_only limits cancelled d in
      (Statement <$> r, d')
  | WorkCommit database_id statements =>
      let '(r, d') := daemon_execute_selected_transaction database_id statements cancelled d in
      (Batch <$> r, d')
  | WorkExport database =>
      let '(r, d') := daemon_export_snapshot database d in (Snapshot <$> r, d')
  end.

(** What the task makes of its worker's result: after the time-out an error of
    the worker is reported as the time-out. *)
Definition settle {A} (timed_out : bool) (message : string) (r : result A ProtocolFailure)
    : result A ProtocolFailure :=
  match r with
  | Ok value => Ok value
  | Err e => Err (if timed_out then failure ResourceLimit message else e)
  end.

Definition finish_query (t : task) (stream : bool) (r : worker_result) (c : connection)
    : connection :=
  let c := remove_active (task_id t) c in
  match r with
  | Statement r =>
      match settle (timed_out t) "query timeout exceeded" r with
      | Ok result => (send_statement (task_id t) result stream c).2
      | Err e => (send_failure (task_id t) e c).2
      end
  | Panicked text => (send_failure (task_id t) (internal_failure text) c).2
  | _ => c
  end.

Definition finish_commit (t : task) (r : worker_result) (c : connection) : connection :=
  let c := remove_active (task_id t) c in
  match r with
  | Batch r =>
      match settle (timed_out t) "transaction timeout exceeded" r with
      | Ok results =>
          (send_response (task_id t) (RTransaction "committed" (map statement results)) c).2
      | Err e => (send_failure (task_id t) e c).2
      end
  | Panicked text => (send_failure (task_id t) (internal_failure text) c).2
  | _ => c
  end.

Definition finish_export (t : task) (r : worker_result) (c : connection) : connection :=
  match r with
  | Snapshot (Ok b) => (send_snapshot (task_id t) b c).2
  | Snapshot (Err e) => (send_failure (task_id t) e c).2
  | Panicked text => (send_failure (task_id t) (internal_failure text) c).2
  | _ => c
  end.

(** A task whose worker has ended sends its responses and is done. *)
Definition finish_task (t : task) (r : worker_result) (c : connection) : connection :=
  match task_work t with
  | WorkQuery _ _ _ _ _ stream => finish_query t stream r c
  | WorkCommit _ _ => finish_commit t r c
  | WorkExport _ => finish_export t r c
  end.

Definition find_task (id : Z) (c : connection) : option task :=
  List.find (λ t, task_id t =? id)%Z (tasks c).

Definition update_task (id : Z) (f : task → task) (c : connection) : connection :=
  set_tasks (map (λ t, if (task_id t =? id)%Z then f t else t) (tasks c)) c.

Definition remove_task (id : Z) (c : connection) : connection :=
  set_tasks (List.filter (λ t, negb (task_id t =? id)%Z) (tasks c)) c.

(** ** Steps of a connection *)

(** What [read_async_frame] gives. *)
Inductive incoming : Type :=
| Received (frame : ClientFrame)
| EndOfInput                        (* [UnexpectedEof] or [ConnectionReset] *)
| Broken (text : string).

Inductive event : Type :=
| OnInput (i : incoming)
| OnShutdown
| OnWork (id : Z)                   (* the worker of a task runs *)
| OnPanic (id : Z) (text : string)  (* the worker of a task panics *)
| OnTimeout (id : Z)                (* the time-out of a task passes *)
| OnFinish (id : Z)                 (* a task whose worker ended completes *)
| OnWriterError (text : string)     (* the writer task ends with an error *)
| OnDrained.                        (* every task has been joined *)

(** The loop ends: every active token is cancelled. *)
Definition drain (c : connection) : connection :=
  set_phase Draining (set_active ((λ _, true) <$> active c) c).

Definition serving (c : connection) : bool :=
  match conn_phase c with Serving => true | _ => false end.

Definition joined (c : connection) : bool :=
  match conn_phase c with Closed _ => false | _ => true end.

(** The result of the writer task. *)
Definition writer_result (c : connection) : result unit string :=
  match writer_error c with Some e => Err e | None => Ok tt end.

(** An event that cannot happen in a state leaves it unchanged.  After an error
    of [dispatch] the connection is closed and its tasks are dropped, but a
    blocking worker that was spawned still runs. *)
Definition step (e : event) (c : connection) (d : D) : option connection * D :=
  match e with
  | OnInput i =>
      if negb (serving c) then (Some c, d)
      else
        match i with
        | Received frame =>
            match on_frame frame c d with
            | (Some (Ok _, c'), d') => (Some c', d')
            | (Some (Err text, c'), d') => (Some (set_phase (Closed (Err text)) c'), d')
            | (None, d') => (None, d')
            end
        | EndOfInput => (Some (drain c), d)
        | Broken text => (Some (set_phase (Closed (Err text)) c), d)
        end
  | OnShutdown => (Some (if serving c then drain c else c), d)
  | OnWork id =>
      match find_task id c with
      | Some (mkTask _ w None _) =>
          match run_work w (default false (active c !! id)) d with
          | (Some r, d') =>
              (Some (update_task id
                 (λ t, mkTask (task_id t) (task_work t) (Some r) (timed_out t)) c), d')
          | (None, d') => (None, d')
          end
      | _ => (Some c, d)
      end
  | OnPanic id text =>
      match find_task id c with
      | Some (mkTask _ _ None _) =>
          (Some (update_task id
             (λ t, mkTask (task_id t) (task_work t) (Some (Panicked text)) (timed_out t)) c), d)
      | _ => (Some c, d)
      end
  | OnTimeout id =>
      match find_task id c with
      | Some (mkTask _ w None false) =>
          match joined c, w with
          | false, _ | _, WorkExport _ => (Some c, d)
          | true, _ =>
              (Some (cancel_token id (update_task id
                 (λ t, mkTask (task_id t) (task_work t) (task_result t) true) c)), d)
          end
      | _ => (Some c, d)
      end
  | OnFinish id =>
      match find_task id c with
      | Some (mkTask _ _ (Some r) _ as t) =>
          if joined c then (Some (remove_task id (finish_task t r c)), d) else (Some c, d)
      | _ => (Some c, d)
      end
  | OnWriterError text =>
      (Some (match writer_error c with None => set_writer_error text c | Some _ => c end), d)
  | OnDrained =>
      match conn_phase c, tasks c with
      | Draining, [] => (Some (set_phase (Closed (writer_result c)) c), d)
      | _, _ => (Some c, d)
      end
  end.

Fixpoint run (es : list event) (c : connection) (d : D) : option connection * D :=
  match es with
  | [] => (Some c, d)
  | e :: es' =>
      match step e c d with
      | (Some c', d') => run es' c' d'
      | (None, d') => (None, d')
      end
  end.

(** ** Handshake *)

Inductive handshake_outcome : Type :=
| Rejected (sent : list ServerFrame) (r : result unit string)
| Accepted (c : connection).

Definition frame_error_text (e : frame_error) : string :=
  match e with
  | Eof => "early eof"
  | InvalidData m => m
  end.

(** Writes one frame to the socket and goes on. *)
Definition write_then (f : ServerFrame) (k : handshake_outcome) : handshake_outcome :=
  match write_async_frame f with
  | Err e => Rejected [] (Err (frame_error_text e))
  | Ok _ => k
  end.

Definition reject (request_id : Z) (e : ProtocolFailure) : handshake_outcome :=
  let f := failure_frame request_id e in write_then f (Rejected [f] (Ok tt)).

Definition hello_frame (request_id : Z) (role : ClientRole) : ServerFrame :=
  mkServerFrame request_id (RHello DATABASE_PROTOCOL_VERSION SERVER_VERSION role MAX_FRAME_BYTES).

Definition handshake (first : incoming) (d : D) : handshake_outcome :=
  match first with
  | EndOfInput => Rejected [] (Err "early eof")
  | Broken text => Rejected [] (Err text)
  | Received frame =>
      let id := request_id frame in
      match request frame with
      | Hello protocol_version credential _ =>
          if (id =? 0)%Z then Rejected [] (Err "request identifiers must be positive")
          else if negb (protocol_version =? DATABASE_PROTOCOL_VERSION)%Z then
            reject id (failure UnsupportedProtocol
              ("client requested protocol " +:+ show protocol_version
               +:+ "; server supports exactly " +:+ show DATABASE_PROTOCOL_VERSION))
          else
            match daemon_authenticate d credential with
            | None => reject id (failure AuthenticationFailed "credential is invalid")
            | Some role =>
                write_then (hello_frame id role)
                  (Accepted (mkConnection (mkConnectionState role None None None id) ∅ []
                               [hello_frame id role] None Serving))
            end
      | _ => reject id (failure ProtocolViolation "the first frame must be hello")
      end
  end.
End protocol.
