(* ===== verification/ProtocolProofs.v ===== *)
(** * Properties of protocol connections

    An invariant of every reachable connection, confinement of the query role,
    that requests are answered, snapshot and transaction flows; and a concrete
    daemon with a run of events. *)

From Stdlib Require Import ZArith Lia Ascii.
From stdpp Require Import base list strings gmap.
From S2P Require Import Prelude Catalog Wire Messages Client Config Protocol.

Open Scope string_scope.
Open Scope list_scope.

(** [c'] is [c] after responses to request [id], and nothing else. *)
Definition after_sending (id : Z) (fs : list ServerFrame) (c c' : connection) : Prop :=
  c' = mkConnection (conn c) (active c) (tasks c) (sent c ++ fs) (writer_error c) (conn_phase c)
  ∧ Forall (λ f, response_id f = id) fs.

Lemma after_sending_refl id c : after_sending id [] c c.
Proof. split; [destruct c; simpl; by rewrite app_nil_r|done]. Qed.

Lemma after_sending_trans id fs1 fs2 c1 c2 c3 :
  after_sending id fs1 c1 c2 → after_sending id fs2 c2 c3 → after_sending id (fs1 ++ fs2) c1 c3.
Proof.
  intros [-> H1] [-> H2]. split; [simpl; by rewrite app_assoc|by apply Forall_app].
Qed.

(** Elements with pairwise distinct keys are determined by their key. *)
Lemma NoDup_fmap_inj {A B} (f : A → B) (l : list A) x y :
  NoDup (f <$> l) → x ∈ l → y ∈ l → f x = f y → x = y.
Proof.
  intros Hnd Hx Hy Hf. apply list_elem_of_lookup in Hx as [i Hi], Hy as [j Hj].
  assert (i = j) as ->; [|congruence].
  apply (NoDup_lookup (f <$> l) i j (f x)); [done|..]; rewrite list_lookup_fmap.
  - by rewrite Hi.
  - by rewrite Hj, Hf.
Qed.

Lemma NoDup_fmap_filter {A B} (f : A → B) (p : A → bool) (l : list A) :
  NoDup (f <$> l) → NoDup (f <$> List.filter p l).
Proof.
  induction l as [|x l IH]; simpl; [done|]. rewrite NoDup_cons. intros [Hx Hnd].
  destruct (p x); simpl; [|by apply IH]. apply NoDup_cons. split; [|by apply IH].
  intros (y & Hy & Hin)%list_elem_of_fmap. apply Hx, list_elem_of_fmap. exists y. split; [done|].
  apply list_elem_of_In in Hin. apply filter_In in Hin as [Hin _]. by apply list_elem_of_In.
Qed.

Section properties.
Context `{!PrepareWrite, !Base64, !Payload ClientFrame, !Payload ServerFrame}.
Context {D : Type} `{!DaemonOps D}.
Context (config : LimitConfig).
(** Limits are unsigned; a snapshot of [u64::MAX] bytes does not exist. *)
Hypothesis (Hconfig : (0 <= max_transaction_statements config)%Z
                      ∧ (max_snapshot_bytes config < u64_max)%Z).
Implicit Types (c : connection) (d : D) (id : Z).

(** ** Responses *)

Lemma channel_send_effect f c :
  ∃ fs, after_sending (response_id f) fs c (channel_send f c).2
        ∧ (writer_error c = None → fs = [f] ∧ (channel_send f c).1 = Ok tt).
Proof.
  unfold channel_send. destruct (writer_error c) eqn:He; simpl.
  - exists []. split; [apply after_sending_refl|done].
  - exists [f]. split; [|done]. split; [done|by repeat constructor].
Qed.

(** A frame that the writer task can write. *)
Definition fits (f : ServerFrame) : Prop := ∃ out, write_async_frame f = Ok out.

(** The replacement of an oversized response is itself representable. *)
Class SmallErrors : Prop := { oversized_fits id : fits (failure_frame id oversized) }.

(** The wire types always encode: their maps have string keys. *)
Class Encodable : Prop := { frame_encodes (f : ServerFrame) : ∃ b, to_vec f = Ok b }.

Lemma send_response_effect id r c :
  ∃ fs, after_sending id fs c (send_response id r c).2
        ∧ (SmallErrors → Forall fits fs)
        ∧ (Encodable → writer_error c = None → fs ≠ []).
Proof.
  unfold send_response. destruct (to_vec _) as [encoded|e] eqn:He; simpl; cycle 1.
  { exists []. split_and!; [apply after_sending_refl|done|].
    intros [Henc]. destruct (Henc (mkServerFrame id r)). congruence. }
  destruct (_ || _) eqn:Hs.
  - destruct (channel_send_effect (failure_frame id oversized) c) as (fs & Hfs & Hw).
    exists fs. split_and!.
    + destruct (channel_send _ c) as [[|] c']; done.
    + intros [Hsmall]. unfold channel_send in Hfs, Hw. destruct (writer_error c); simpl in *.
      * destruct Hfs as [Heq _]. destruct c; simpl in *. injection Heq as Heq.
        assert (fs = []) as -> by (apply (app_inv_head sent); by rewrite app_nil_r). done.
      * destruct Hw as [-> _]; [done|]. by repeat constructor.
    + intros _ Hn. by destruct Hw as [-> _].
  - destruct (channel_send_effect (mkServerFrame id r) c) as (fs & Hfs & Hw).
    exists fs. split_and!; [done| |].
    + intros _. unfold channel_send in Hfs, Hw. destruct (writer_error c); simpl in *.
      * destruct Hfs as [Heq _]. destruct c; simpl in *. injection Heq as Heq.
        assert (fs = []) as -> by (apply (app_inv_head sent); by rewrite app_nil_r). done.
      * destruct Hw as [-> _]; [done|]. repeat constructor. unfold fits, write_async_frame.
        rewrite He. simpl. rewrite Hs. by eexists.
    + intros _ Hn. by destruct Hw as [-> _].
Qed.

(** ** The invariant of a connection *)

Definition upload_ok (u : SnapshotUpload) : Prop :=
  (0 < upload_total_bytes u <= max_snapshot_bytes config)%Z
  ∧ (0 <= upload_next_sequence u <= len (upload_bytes u))%Z
  ∧ (len (upload_bytes u) <= upload_total_bytes u)%Z.

Record state_ok (s : ConnectionState) : Prop := {
  transaction_ok q : transaction s = Some q →
    is_Some (selected_database_id s) ∧ (len q <= max_transaction_statements config)%Z;
  restore_ok u : restore s = Some u → conn_role s = RoleAdmin ∧ upload_ok u
}.

(** Queries and commits have a cancellation token; exports have none. *)
Definition cancellable (w : work) : bool :=
  match w with WorkExport _ => false | _ => true end.

(** The result a worker can produce for its work. *)
Definition kind_ok (w : work) (r : worker_result) : Prop :=
  match w, r with
  | WorkQuery _ _ _ _ _ _, Statement _ | WorkCommit _ _, Batch _ | WorkExport _, Snapshot _
  | _, Panicked _ => True
  | _, _ => False
  end.

Record connection_ok c : Prop := {
  ok_state : state_ok (conn c);
  ok_active id : is_Some (active c !! id) →
    ∃ t, t ∈ tasks c ∧ task_id t = id ∧ cancellable (task_work t) = true;
  ok_result t r : t ∈ tasks c → task_result t = Some r → kind_ok (task_work t) r;
  ok_tasks t : t ∈ tasks c → (task_id t <= last_request_id (conn c))%Z;
  ok_distinct : NoDup (task_id <$> tasks c);
  ok_sent f : f ∈ sent c → (response_id f <= last_request_id (conn c))%Z;
  ok_fits : SmallErrors → Forall fits (sent c)
}.

Lemma connection_ok_after c id r :
  connection_ok c → (id <= last_request_id (conn c))%Z → connection_ok (send_response id r c).2.
Proof.
  intros [] Hid. destruct (send_response_effect id r c) as (fs & [-> Hids] & Hfit & _).
  split; simpl; try done.
  - intros f [?|Hf]%elem_of_app; [by apply ok_sent0|].
    rewrite Forall_forall in Hids. rewrite (Hids f) by done. done.
  - intros HS. apply Forall_app. split; [by apply ok_fits0|by apply Hfit].
Qed.

(** ** What a handler does to the connection

    A handler answers with one response, possibly after updating the connection
    state or cancelling a token, or it spawns a task that will answer. *)

Definition state_step (s s' : ConnectionState) : Prop :=
  state_ok s' ∧ conn_role s' = conn_role s ∧ last_request_id s' = last_request_id s.

Inductive effect id c : connection → Prop :=
| effect_answer s' r :
    state_step (conn c) s' → effect id c (send_response id r (set_conn s' c)).2
| effect_cancel target r :
    is_Some (active c !! target) → effect id c (send_response id r (cancel_token target c)).2
| effect_spawn s' w (a : gmap Z bool) :
    state_step (conn c) s' →
    a = active c ∨ (a = <[id := false]> (active c) ∧ cancellable w = true) →
    effect id c (spawn id w (set_active a (set_conn s' c))).

Lemma state_step_refl s : state_ok s → state_step s s.
Proof. by intros Hs. Qed.

Lemma set_conn_id c : set_conn (conn c) c = c.
Proof. by destruct c. Qed.

Lemma effect_response id r c :
  state_ok (conn c) → effect id c (send_response id r c).2.
Proof. intros Hs. rewrite <-(set_conn_id c) at 2. by apply effect_answer, state_step_refl. Qed.

Lemma effect_failure id e c : state_ok (conn c) → effect id c (send_failure id e c).2.
Proof. apply effect_response. Qed.

Lemma effect_result {T} id (r : result T ProtocolFailure) f c :
  state_ok (conn c) → effect id c (respond_result id r f c).2.
Proof. destruct r; [apply effect_response|apply effect_failure]. Qed.

(** The values a decoded frame can carry. *)
Definition request_ok (r : ClientRequest) : Prop :=
  match r with
  | SnapshotRestoreBegin _ total_bytes => (0 <= total_bytes <= u64_max)%Z
  | _ => True
  end.

(** The property [P] of the connection a handler leaves. *)
Definition leaves (P : connection → Prop) (h : handled (D:=D)) : Prop :=
  match h with
  | (Some (_, c'), _) => P c'
  | (None, _) => True
  end.

Lemma leaves_answer {A} P id (op : call D A) f c d :
  (∀ r, P (respond_result id r f c).2) → leaves P (answer id op f c d).
Proof.
  intros HP. unfold answer, call_then. destruct (op d) as [[r|] d']; simpl; [|done].
  specialize (HP r). by destruct (respond_result id r f c).
Qed.

Lemma leaves_reply P rc d : P rc.2 → leaves P (reply rc d).
Proof. by destruct rc. Qed.

Lemma leaves_call {A} P (op : call D A) d k :
  (∀ r d', leaves P (k r d')) → leaves P (call_then op d k).
Proof. intros HP. unfold call_then. destruct (op d) as [[r|] d']; simpl; [apply HP|done]. Qed.

Hint Resolve effect_response effect_failure effect_result leaves_answer leaves_reply : core.

Ltac state_ok_tac :=
  split; [split; simpl; try done; intros; simplify_eq; try done|by simpl..].

Section handlers.
Context (id : Z) (c : connection) (d : D).
Hypothesis (Hok : state_ok (conn c)).
Hypothesis (Hfresh : active c !! id = None).

Lemma queue_statement_effect q s stream lim :
  transaction (conn c) = Some q → effect id c (queue_statement config id q s stream lim c).2.
Proof.
  intros Hq. unfold queue_statement. destruct stream; [auto|]. case_bool_decide; [auto|].
  destruct (Z.leb_spec (max_transaction_statements config) (len q)); [auto|].
  apply effect_answer. state_ok_tac.
  - destruct (transaction_ok _ Hok _ Hq) as [Hs Hl]. split; [done|].
    unfold len in *. rewrite length_app. simpl. lia.
  - by apply (restore_ok _ Hok).
Qed.

Lemma spawn_cancellable_effect s' w :
  cancellable w = true → state_step (conn c) s' → effect id c (spawn_cancellable id w (set_conn s' c)).2.
Proof.
  intros Hw Hs. unfold spawn_cancellable, insert_active. simpl. rewrite Hfresh. simpl.
  apply (effect_spawn id c s' w (<[id := false]> (active c))); auto.
Qed.

Lemma handle_query_effect q ps ro stream lim :
  effect id c (handle_query config id q ps ro stream lim c).2.
Proof.
  unfold handle_query. destruct (selected_database_id (conn c)); [|auto].
  destruct (transaction (conn c)) as [qs|] eqn:Ht; [by apply queue_statement_effect|].
  rewrite <-(set_conn_id c) at 2. apply spawn_cancellable_effect; [done|by apply state_step_refl].
Qed.

Lemma cleared_transaction_ok : state_step (conn c) (set_transaction None (conn c)).
Proof. state_ok_tac. by apply (restore_ok _ Hok). Qed.

Lemma handle_begin_effect :
  effect id c (handle_begin id c).2.
Proof.
  destruct Hconfig as [Hmax _]. unfold handle_begin. destruct (transaction (conn c)); [auto|].
  destruct (selected_database_id (conn c)) eqn:Hs; [|auto]. apply effect_answer.
  split; [split; simpl|by simpl..].
  - intros q [= <-]. rewrite Hs. split; [by eexists|done].
  - apply (restore_ok _ Hok).
Qed.

Lemma handle_commit_effect : effect id c (handle_commit id c).2.
Proof.
  pose proof cleared_transaction_ok as Hc. unfold handle_commit.
  destruct (transaction (conn c)); [|auto]. simpl.
  destruct (selected_database_id (conn c)); [|by apply effect_answer].
  destruct (existsb _ _); [by apply effect_answer|by apply spawn_cancellable_effect].
Qed.

Lemma handle_rollback_effect : effect id c (handle_rollback id c).2.
Proof.
  unfold handle_rollback. destruct (transaction (conn c)); [|auto].
  apply effect_answer, cleared_transaction_ok.
Qed.

Lemma handle_cancel_effect target : effect id c (handle_cancel id target c).2.
Proof.
  unfold handle_cancel. destruct (active c !! target) eqn:Ha; [|auto].
  apply effect_cancel. by eexists.
Qed.

Lemma handle_restore_chunk_effect seq data :
  effect id c (handle_restore_chunk id seq data c).2.
Proof.
  unfold handle_restore_chunk. destruct (restore (conn c)) as [u|] eqn:Hu; [|auto].
  destruct (seq =? _)%Z; simpl; [|auto]. destruct (base64_decode data) as [chunk|]; [|auto].
  destruct ((len chunk =? 0)%Z || _) eqn:Hc; [auto|].
  destruct (Z.ltb_spec (upload_total_bytes u) (saturating_add (len (upload_bytes u)) (len chunk)));
    [auto|].
  apply orb_false_iff in Hc as [Hne%Z.eqb_neq Hle%Z.ltb_ge].
  destruct (restore_ok _ Hok _ Hu) as [Hadm (Htot & Hseq & Hlen)].
  apply effect_answer. state_ok_tac.
  - by apply (transaction_ok _ Hok).
  - split; [done|]. unfold upload_ok, saturating_add, len in *. simpl. rewrite length_app.
    destruct Hconfig as [_ Hmax]. split_and!; lia.
Qed.

Lemma handle_select_effect database : leaves (effect id c) (handle_select id database c d).
Proof.
  apply leaves_call. intros [summary|e] d'; apply leaves_reply; [|auto].
  apply effect_answer. state_ok_tac; [|by apply (restore_ok _ Hok)].
  split; [by eexists|]. by apply (transaction_ok _ Hok).
Qed.

Lemma handle_drop_effect database confirm :
  leaves (effect id c) (handle_drop id database confirm c d).
Proof.
  apply leaves_call. intros [dropped|e] d'; apply leaves_reply; [|apply effect_failure; done].
  simpl. case_decide; [|auto]. apply effect_answer. state_ok_tac. by apply (restore_ok _ Hok).
Qed.

Lemma handle_restore_begin_effect database total :
  conn_role (conn c) = RoleAdmin → (0 <= total)%Z →
  leaves (effect id c) (handle_restore_begin config id database total c d).
Proof.
  intros Hadmin Htotal. unfold handle_restore_begin. case_bool_decide; [auto|].
  destruct ((total =? 0)%Z || _) eqn:Ht; [auto|].
  apply orb_false_iff in Ht as [Hne%Z.eqb_neq Hle%Z.ltb_ge].
  apply leaves_call. intros [?|e] d'; apply leaves_reply; [|auto].
  apply effect_answer. split; [split; simpl|by simpl..].
  - apply (transaction_ok _ Hok).
  - intros u [= <-]. split; [done|]. unfold upload_ok. simpl. unfold len. simpl. lia.
Qed.

Lemma cleared_upload_ok : state_step (conn c) (set_restore None (conn c)).
Proof. state_ok_tac. by apply (transaction_ok _ Hok). Qed.

Lemma handle_restore_commit_effect : leaves (effect id c) (handle_restore_commit id c d).
Proof.
  unfold handle_restore_commit. destruct (restore (conn c)) as [u|]; [|auto].
  destruct (_ =? _)%Z; cbn [negb]; [|auto]. apply leaves_answer. intros [?|e].
  - apply effect_answer, cleared_upload_ok.
  - apply effect_answer, cleared_upload_ok.
Qed.

Lemma handle_restore_abort_effect : effect id c (handle_restore_abort id c).2.
Proof. apply effect_answer, cleared_upload_ok. Qed.

Lemma handle_request_effect request :
  request_ok request →
  conn_role (conn c) = RoleAdmin ∨ is_admin_request request = false →
  leaves (effect id c) (handle_request config id request c d).
Proof.
  intros Hreq Hrole. destruct request; cbn [handle_request]; auto using handle_select_effect, handle_query_effect,
    handle_begin_effect, handle_commit_effect, handle_rollback_effect, handle_cancel_effect,
    handle_drop_effect, handle_restore_chunk_effect, handle_restore_commit_effect,
    handle_restore_abort_effect.
  - apply leaves_reply. pose proof (effect_spawn id c (conn c) (WorkExport database) (active c)
      (state_step_refl _ Hok) (or_introl eq_refl)) as He. by destruct c.
  - destruct Hrole as [Hrole|]; [|done]. destruct Hreq. by apply handle_restore_begin_effect.
Qed.

Lemma dispatch_effect request :
  request_ok request → leaves (effect id c) (dispatch config (mkClientFrame id request) c d).
Proof.
  intros Hreq. unfold dispatch. cbn [Messages.request_id Messages.request].
  destruct (negb (bool_decide (conn_role _ = _)) && _) eqn:Hr; [by auto|].
  destruct (bool_decide (is_Some _) && _); [by auto|].
  apply handle_request_effect; [done|]. apply andb_false_iff in Hr as [Hr|Hr]; [|by right].
  left. apply negb_false_iff in Hr. by apply bool_decide_eq_true in Hr.
Qed.
End handlers.

(** ** The invariant holds along every execution *)

Lemma effect_ok id c c' :
  connection_ok c → (id <= last_request_id (conn c))%Z →
  (∀ t, t ∈ tasks c → task_id t ≠ id) → effect id c c' → connection_ok c'.
Proof.
  intros Hc Hid Hnew He. destruct He as [s' r (Hs & Hrole & Hlast)|target r Ht|s' w a (Hs & Hrole & Hlast) Ha].
  - apply connection_ok_after; simpl; [|lia]. destruct Hc.
    split; simpl; rewrite ?Hlast; done.
  - apply connection_ok_after; [|done]. destruct Hc. split; simpl; try done.
    intros i Hi. apply ok_active0. unfold is_Some in *.
    rewrite lookup_alter in Hi. case_decide; subst; [|done].
    destruct (active c !! i); [by eexists|by destruct Hi].
  - destruct Hc. split; simpl; rewrite ?Hlast; try done.
    + intros i Hi. setoid_rewrite elem_of_app.
      assert ((i = id ∧ cancellable w = true) ∨ is_Some (active c !! i)) as [[-> Hw]|Hold].
      { destruct Ha as [->|[-> Hw]]; [by right|]. destruct (decide (i = id)); [by left|right].
        by rewrite lookup_insert_ne in Hi. }
      * eexists. split; [right; by apply list_elem_of_singleton|done].
      * destruct (ok_active0 i Hold) as (t & Hin & Ht). exists t. auto.
    + intros t res [Hin| ->%list_elem_of_singleton]%elem_of_app; [by apply ok_result0|done].
    + intros t [Hin| ->%list_elem_of_singleton]%elem_of_app; [by apply ok_tasks0|done].
    + rewrite fmap_app. apply NoDup_app. split_and!; [done| |apply NoDup_singleton].
      intros i (t & -> & Hin)%list_elem_of_fmap Hi%list_elem_of_singleton.
      by apply (Hnew t).
Qed.

Lemma on_frame_ok frame c d :
  connection_ok c → request_ok (request frame) → leaves connection_ok (on_frame config frame c d).
Proof.
  intros Hc Hreq. unfold on_frame.
  destruct (Z.leb_spec (request_id frame) (last_request_id (conn c))) as [Hle|Hgt].
  { apply leaves_reply. by apply connection_ok_after. }
  set (c0 := set_conn _ c). assert (connection_ok c0) as Hc0.
  { destruct Hc. split; simpl; try done.
    - destruct ok_state0. by split.
    - intros t Ht. specialize (ok_tasks0 t Ht). lia.
    - intros f Hf. specialize (ok_sent0 f Hf). lia. }
  assert (active c0 !! request_id frame = None) as Hnone.
  { destruct (active c0 !! request_id frame) eqn:Ha; [|done].
    destruct (ok_active _ Hc (request_id frame)) as (t & Hin & Ht & _); [by eexists|].
    pose proof (ok_tasks _ Hc t Hin). lia. }
  pose proof (dispatch_effect (request_id frame) c0 d (ok_state _ Hc0) Hnone (request frame) Hreq) as He.
  destruct frame as [id req]. simpl in *.
  destruct (dispatch config (mkClientFrame id req) c0 d) as [[[r c']|] d']; [|done].
  simpl in *. apply (effect_ok id c0 c'); [exact Hc0|unfold c0; simpl; lia| |exact He].
  intros t Hin. pose proof (ok_tasks _ Hc t Hin). lia.
Qed.

(** *** Tasks *)

(** What sending leaves behind: frames that fit, at least one if the channel works. *)
Definition sends id c c' : Prop :=
  ∃ fs, after_sending id fs c c' ∧ (SmallErrors → Forall fits fs)
        ∧ (Encodable → writer_error c = None → fs ≠ []).

Lemma sends_each id rs c : rs ≠ [] → sends id c (send_each id rs c).2.
Proof.
  revert c. induction rs as [|r rs IH]; intros c Hrs; [done|]. simpl.
  destruct (send_response_effect id r c) as (fs & Hfs & Hfit & Hne).
  destruct (send_response id r c) as [[|e] c'] eqn:Hsend; simpl in *; [|by exists fs].
  destruct rs as [|r' rs]; [by exists fs|].
  destruct (IH c' ltac:(done)) as (fs' & Hfs' & Hfit' & _).
  exists (fs ++ fs'). split_and!; [by eapply after_sending_trans|..].
  - intros HS. apply Forall_app. auto.
  - intros HE Hw Happ. apply app_eq_nil in Happ as [-> _]. by apply (Hne HE Hw).
Qed.

Lemma finish_task_sends t r c :
  kind_ok (task_work t) r →
  sends (task_id t) (if cancellable (task_work t) then remove_active (task_id t) c else c)
    (finish_task t r c).
Proof.
  unfold finish_task. destruct (task_work t), r as [r|r|[b|e]|text]; intros Hk; try done; simpl;
    try apply send_response_effect.
  - destruct (settle _ _ r) as [v|e]; [|apply send_response_effect].
    apply sends_each. unfold statement_responses. destruct stream, v; done.
  - destruct (settle _ _ r) as [v|e]; apply send_response_effect.
  - by apply sends_each.
Qed.

Lemma finish_task_ok t r c :
  connection_ok c → t ∈ tasks c → task_result t = Some r →
  connection_ok (remove_task (task_id t) (finish_task t r c)).
Proof.
  intros Hc Hin Hr. pose proof (ok_result _ Hc t r Hin Hr) as Hk.
  destruct (finish_task_sends t r c Hk) as (fs & [-> Hids] & Hfit & _).
  set (c1 := if cancellable _ then _ else _).
  assert (conn c1 = conn c ∧ tasks c1 = tasks c ∧ sent c1 = sent c
          ∧ ∀ i, is_Some (active c1 !! i) → i ≠ task_id t ∧ is_Some (active c !! i))
    as (Hconn & Htasks & Hsent & Hact).
  { unfold c1. destruct (cancellable (task_work t)) eqn:Hw; simpl; split_and!; try done; intros i Hi.
    - destruct (decide (i = task_id t)) as [->|]; [rewrite lookup_delete_eq in Hi; by destruct Hi|].
      by rewrite lookup_delete_ne in Hi.
    - split; [|done]. intros ->. destruct (ok_active _ Hc _ Hi) as (t' & Hin' & Hid & Hw').
      assert (t' = t) as -> by (eapply NoDup_fmap_inj; [apply (ok_distinct _ Hc)|done..]).
      congruence. }
  assert (∀ x, x ∈ List.filter (λ t0, negb (task_id t0 =? task_id t)%Z) (tasks c) ↔
               x ∈ tasks c ∧ task_id x ≠ task_id t) as Hfilter.
  { intros x. rewrite !list_elem_of_In, filter_In, negb_true_iff, Z.eqb_neq. done. }
  destruct Hc. split; simpl; rewrite ?Hconn, ?Htasks, ?Hsent; try done.
  - intros i Hi. destruct (Hact i Hi) as [Hne Hold]. destruct (ok_active0 i Hold) as (x & Hx & <- & Hw).
    exists x. split; [by apply Hfilter|done].
  - intros x res [Hx _]%Hfilter. by apply ok_result0.
  - intros x [Hx _]%Hfilter. by apply ok_tasks0.
  - apply NoDup_fmap_filter. done.
  - intros f [Hf|Hf]%elem_of_app; [by apply ok_sent0|].
    rewrite Forall_forall in Hids. rewrite (Hids f) by done. by apply ok_tasks0.
  - intros HS. apply Forall_app. split; [by apply ok_fits0|by apply Hfit].
Qed.

Lemma find_task_Some id c t : find_task id c = Some t → t ∈ tasks c ∧ task_id t = id.
Proof.
  intros [Hin Hid%Z.eqb_eq]%find_some. split; [by apply list_elem_of_In|done].
Qed.

(** Updating a task keeps its identifier and work. *)
Lemma update_task_ok id f c :
  (∀ t, task_id (f t) = task_id t ∧ task_work (f t) = task_work t) →
  (∀ t r, t ∈ tasks c → task_id t = id → task_result (f t) = Some r → kind_ok (task_work t) r) →
  connection_ok c → connection_ok (update_task id f c).
Proof.
  intros Hf Hres [].
  set (g := λ t, if (task_id t =? id)%Z then f t else t).
  assert (∀ t, task_id (g t) = task_id t ∧ task_work (g t) = task_work t) as Hg.
  { intros t. unfold g. destruct (task_id t =? id)%Z; auto. }
  change (update_task id f c) with (set_tasks (g <$> tasks c) c). split; simpl; try done.
  - intros i Hi. destruct (ok_active0 i Hi) as (t & Hin & Ht & Hw). exists (g t).
    destruct (Hg t) as [-> ->]. split; [|done]. by apply list_elem_of_fmap_2.
  - intros t' r (t & -> & Hin)%list_elem_of_fmap. destruct (Hg t) as [_ ->]. unfold g.
    destruct (Z.eqb_spec (task_id t) id); [by apply Hres|by apply ok_result0].
  - intros t' (t & -> & Hin)%list_elem_of_fmap. destruct (Hg t) as [-> _]. by apply ok_tasks0.
  - rewrite <-list_fmap_compose. by rewrite (list_fmap_ext (task_id ∘ g) task_id (tasks c)
      ltac:(intros; simpl; apply Hg)).
Qed.

Lemma set_phase_ok p c : connection_ok c → connection_ok (set_phase p c).
Proof. by intros []. Qed.

Lemma cancel_tokens_ok (f : gmap Z bool → gmap Z bool) c :
  (∀ a i, is_Some (f a !! i) → is_Some (a !! i)) →
  connection_ok c → connection_ok (set_active (f (active c)) c).
Proof. intros Hf []. split; simpl; eauto. Qed.

Lemma run_work_kind w cancelled d r d' :
  run_work (D:=D) w cancelled d = (Some r, d') → kind_ok w r.
Proof.
  destruct w; simpl;
    [destruct (daemon_execute_selected _ _ _ _ _ _ _) as [[?|] ?]
    |destruct (daemon_execute_selected_transaction _ _ _ _) as [[?|] ?]
    |destruct (daemon_export_snapshot _ _) as [[?|] ?]]; simpl; by intros [= <- _].
Qed.

Definition event_ok (e : event) : Prop :=
  match e with OnInput (Received f) => request_ok (request f) | _ => True end.

Lemma step_ok e c d c' d' :
  event_ok e → connection_ok c → step config e c d = (Some c', d') → connection_ok c'.
Proof.
  intros He Hc. destruct e as [i| |id|id text|id|id|text|]; simpl.
  - destruct (serving c); simpl; [|by intros [= <- _]]. destruct i as [f| |text].
    + pose proof (on_frame_ok f c d Hc He) as Hf.
      destruct (on_frame config f c d) as [[[[|e] c1]|] d1]; intros [= <- _]; simpl in *; [done|].
      by apply set_phase_ok.
    + intros [= <- _]. apply set_phase_ok, (cancel_tokens_ok (fmap (λ _, true))); [|done].
      intros a i. rewrite lookup_fmap, fmap_is_Some. done.
    + intros [= <- _]. by apply set_phase_ok.
  - intros [= <- _]. destruct (serving c); [|done].
    apply set_phase_ok, (cancel_tokens_ok (fmap (λ _, true))); [|done].
    intros a i. rewrite lookup_fmap, fmap_is_Some. done.
  - destruct (find_task id c) as [[tid w [r|] tm]|] eqn:Ht; try by intros [= <- _].
    apply find_task_Some in Ht as [Hin Hid]. simpl in Hid. subst tid.
    destruct (run_work w _ d) as [[r|] d1] eqn:Hr; [|done]. intros [= <- _].
    apply update_task_ok; [done| |done]. intros t res Hin' Hid'. simpl. intros [= <-].
    assert (t = mkTask id w None tm) as -> by
      (eapply NoDup_fmap_inj; [apply (ok_distinct _ Hc)|done..]). by eapply run_work_kind.
  - destruct (find_task id c) as [[tid w [r|] tm]|] eqn:Ht; try by intros [= <- _].
    intros [= <- _]. apply update_task_ok; [done| |done]. intros t res _ _. simpl.
    intros [= <-]. by destruct (task_work t).
  - destruct (find_task id c) as [[tid w [r|] [|]]|] eqn:Ht; try by intros [= <- _].
    assert (connection_ok (cancel_token id (update_task id
      (λ t, mkTask (task_id t) (task_work t) (task_result t) true) c))) as Hcancel.
    { apply (cancel_tokens_ok (alter (λ _, true) id)).
      { intros a i. rewrite lookup_alter. case_decide; subst; [|done].
        by destruct (a !! i); [|intros []]. }
      apply update_task_ok; [done| |done]. intros t res Hin _. simpl. by apply (ok_result _ Hc). }
    destruct (joined c), w; intros [= <- _]; done.
  - destruct (find_task id c) as [[tid w [r|] tm]|] eqn:Ht; try by intros [= <- _].
    apply find_task_Some in Ht as [Hin Hid]. simpl in Hid. subst tid.
    destruct (joined c); intros [= <- _]; [|done].
    by apply (finish_task_ok (mkTask id w (Some r) tm) r c).
  - intros [= <- _]. destruct (writer_error c); [done|]. by destruct Hc.
  - destruct (conn_phase c), (tasks c); intros [= <- _]; try done. by apply set_phase_ok.
Qed.

Lemma run_ok es c d c' d' :
  Forall event_ok es → connection_ok c → run config es c d = (Some c', d') → connection_ok c'.
Proof.
  revert c d. induction es as [|e es IH]; intros c d Hes Hc; simpl; [by intros [= <- _]|].
  apply Forall_cons in Hes as [He Hes].
  destruct (step config e c d) as [[c1|] d1] eqn:Hs; [|done].
  apply IH; [done|]. by eapply step_ok.
Qed.

(** ** Handshake *)

Lemma handshake_accepted first d c :
  handshake first d = Accepted c →
  ∃ id credential name role,
    first = Received (mkClientFrame id (Hello DATABASE_PROTOCOL_VERSION credential name))
    ∧ id ≠ 0%Z ∧ daemon_authenticate d credential = Some role ∧ fits (hello_frame id role)
    ∧ c = mkConnection (mkConnectionState role None None None id) ∅ [] [hello_frame id role]
            None Serving.
Proof.
  unfold handshake, reject, write_then. destruct first as [[id req]| |]; try done. simpl.
  destruct req; simpl; try (destruct (write_async_frame _); done).
  destruct (Z.eqb_spec id 0); [done|].
  destruct (Z.eqb_spec protocol_version DATABASE_PROTOCOL_VERSION); simpl;
    [|destruct (write_async_frame _); done]. subst.
  destruct (daemon_authenticate d credential) as [role|] eqn:Ha;
    [|destruct (write_async_frame _); done].
  destruct (write_async_frame (hello_frame id role)) as [out|] eqn:Hw; [|done].
  intros [= <-]. exists id, credential, client_name, role. split_and!; try done. by exists out.
Qed.

Lemma handshake_ok first d c : handshake first d = Accepted c → connection_ok c.
Proof.
  intros (id & credential & name & role & -> & Hid & Hrole & Hfits & ->)%handshake_accepted.
  split; simpl; try done.
  - intros i Hi. rewrite lookup_empty in Hi. by destruct Hi.
  - intros t r Ht. by apply elem_of_nil in Ht.
  - intros t Ht. by apply elem_of_nil in Ht.
  - apply NoDup_nil_2.
  - intros f ->%list_elem_of_singleton. done.
  - intros _. by repeat constructor.
Qed.

(** C7: The invariant of a connection.  From an accepted hello on, after any
    sequence of frames, worker completions, panics, time-outs, writer failures
    and shutdown: an open transaction has a selected Database and at most
    [max_transaction_statements] statements; a snapshot upload belongs to an
    administrator, was declared within [max_snapshot_bytes], never holds more
    than its declared size and has counted its chunks; every active token
    belongs to exactly one unfinished task, so an identifier that the loop would
    accept is never already active; and responses only carry identifiers of
    requests already received. *)
Theorem connection_invariant first d0 c0 es d c d' :
  handshake first d0 = Accepted c0 → Forall event_ok es → run config es c0 d = (Some c, d') →
  (∀ q, transaction (conn c) = Some q →
     is_Some (selected_database_id (conn c)) ∧ (len q <= max_transaction_statements config)%Z)
  ∧ (∀ u, restore (conn c) = Some u →
       conn_role (conn c) = RoleAdmin
       ∧ (0 < upload_total_bytes u <= max_snapshot_bytes config)%Z
       ∧ (len (upload_bytes u) <= upload_total_bytes u)%Z
       ∧ (0 <= upload_next_sequence u <= len (upload_bytes u))%Z)
  ∧ (∀ id, is_Some (active c !! id) → ∃ t, t ∈ tasks c ∧ task_id t = id)
  ∧ NoDup (task_id <$> tasks c)
  ∧ (∀ id, (last_request_id (conn c) < id)%Z → active c !! id = None)
  ∧ (∀ f, f ∈ sent c → (response_id f <= last_request_id (conn c))%Z).
Proof.
  intros Hh He Hr. pose proof (run_ok _ _ _ _ _ He (handshake_ok _ _ _ Hh) Hr) as [].
  destruct ok_state0. split_and!; try done.
  - intros u Hu. destruct (restore_ok0 u Hu) as [? (? & ? & ?)]. done.
  - intros id Hid. destruct (ok_active0 id Hid) as (t & ? & ? & _). eauto.
  - intros id Hid. destruct (active c !! id) eqn:Ha; [|done].
    destruct (ok_active0 id) as (t & Hin & <- & _); [by eexists|].
    specialize (ok_tasks0 t Hin). lia.
Qed.

(** C27: Every response that reaches the channel can be written as a frame: an
    oversized response is replaced by a [request_too_large] error before it is
    queued, so the writer task never fails on the size of a response. *)
Theorem sent_frames_fit first d0 c0 es d c d' :
  SmallErrors → handshake first d0 = Accepted c0 → Forall event_ok es →
  run config es c0 d = (Some c, d') →
  Forall (λ f, ∃ out, write_async_frame f = Ok out) (sent c).
Proof. intros HS Hh He Hr. by apply (run_ok _ _ _ _ _ He (handshake_ok _ _ _ Hh) Hr). Qed.

(** C26: The hello decides a connection.  A connection is accepted exactly when
    its first frame is a hello with a positive identifier, the supported
    protocol version and a credential the daemon knows, its role is the one the
    daemon assigned, nothing is selected, open or uploaded yet, and the only
    frame sent is the hello answer with that role and the frame bound. *)
Theorem handshake_exact first d c :
  (∀ id role, fits (hello_frame id role)) →
  handshake first d = Accepted c ↔
  ∃ id credential name role,
    first = Received (mkClientFrame id (Hello DATABASE_PROTOCOL_VERSION credential name))
    ∧ id ≠ 0%Z ∧ daemon_authenticate d credential = Some role
    ∧ c = mkConnection (mkConnectionState role None None None id) ∅ []
            [mkServerFrame id (RHello DATABASE_PROTOCOL_VERSION SERVER_VERSION role MAX_FRAME_BYTES)]
            None Serving.
Proof.
  intros Hfits. split.
  - intros (id & cred & name & role & -> & Hid & Hrole & _ & ->)%handshake_accepted.
    by exists id, cred, name, role.
  - intros (id & cred & name & role & -> & Hid & Hrole & ->). simpl.
    destruct (Z.eqb_spec id 0); [done|]. rewrite Hrole. unfold write_then.
    destruct (Hfits id role) as [out Hout]. by rewrite Hout.
Qed.

(** ** What a query-role connection can do to the daemon *)

Section confinement.
Context (P : D → Prop).

(** [P] is kept by the three operations open to the query role. *)
Record query_operations_keep : Prop := {
  keeps_select name d : P d → P (daemon_select_database name d).2;
  keeps_execute i q ps ro lim tok d : P d → P (daemon_execute_selected i q ps ro lim tok d).2;
  keeps_transaction i ss tok d : P d → P (daemon_execute_selected_transaction i ss tok d).2
}.

Hypothesis (HP : query_operations_keep).

(** Tasks of a query-role connection export nothing. *)
Definition confined c : Prop :=
  conn_role (conn c) = RoleQuery ∧ ∀ t, t ∈ tasks c → cancellable (task_work t) = true.

Lemma confined_sends id fs c c' : after_sending id fs c c' → confined c → confined c'.
Proof. by intros [-> _] [? ?]. Qed.

Lemma confined_response id r c : confined c → confined (send_response id r c).2.
Proof.
  destruct (send_response_effect id r c) as (fs & Hfs & _). by apply (confined_sends id fs).
Qed.

Lemma confined_set s' c : conn_role s' = conn_role (conn c) → confined c → confined (set_conn s' c).
Proof. intros Hr [Hq Ht]. split; simpl; [congruence|done]. Qed.

Lemma confined_spawn id w c :
  cancellable w = true → confined c → confined (spawn_cancellable id w c).2.
Proof.
  intros Hw [Hq Ht]. unfold spawn_cancellable, insert_active.
  destruct (active c !! id); simpl; [done|]. split; [done|]. simpl.
  intros t [Hin| ->%list_elem_of_singleton]%elem_of_app; [by apply Ht|done].
Qed.

Hint Resolve confined_response : core.

(** Both the connection and the daemon, also when the process dies. *)
Definition keeps (h : handled (D:=D)) : Prop := leaves confined h ∧ P h.2.

Lemma keeps_reply rc d : confined rc.2 → P d → keeps (reply rc d).
Proof. destruct rc. by split. Qed.

Lemma handle_request_confined id request c d :
  is_admin_request request = false → confined c → P d → keeps (handle_request config id request c d).
Proof.
  intros Hreq Hc Hd. destruct request; try done; cbn [handle_request];
    try (apply keeps_reply; [by apply confined_response|done]).
  - unfold handle_select, call_then. pose proof (keeps_select HP database d Hd) as Hd'.
    destruct (daemon_select_database database d) as [[[s|e]|] d1]; simpl in *; [| |by split].
    + apply keeps_reply; [|done]. apply confined_response. by apply confined_set.
    + apply keeps_reply; [|done]. by apply confined_response.
  - apply keeps_reply; [|done]. unfold handle_query, queue_statement.
    destruct (selected_database_id (conn c)); [|by apply confined_response].
    destruct (transaction (conn c)); [|by apply confined_spawn].
    destruct stream; [by apply confined_response|]. case_bool_decide; [by apply confined_response|].
    destruct (_ <=? _)%Z; [by apply confined_response|].
    apply confined_response. by apply confined_set.
  - apply keeps_reply; [|done]. unfold handle_begin.
    destruct (transaction (conn c)); [by apply confined_response|].
    destruct (selected_database_id (conn c)); [|by apply confined_response].
    apply confined_response. by apply confined_set.
  - apply keeps_reply; [|done]. unfold handle_commit.
    destruct (transaction (conn c)); [|by apply confined_response].
    simpl. destruct (selected_database_id (conn c)).
    + destruct (existsb _ _); [apply confined_response|apply confined_spawn; [done|]];
        by apply confined_set.
    + apply confined_response. by apply confined_set.
  - apply keeps_reply; [|done]. unfold handle_rollback.
    destruct (transaction (conn c)); [|by apply confined_response].
    apply confined_response. by apply confined_set.
  - apply keeps_reply; [|done]. unfold handle_cancel. destruct (active c !! target_request_id);
      [|by apply confined_response]. apply confined_response. by destruct Hc.
Qed.

Lemma on_frame_confined frame c d : confined c → P d → keeps (on_frame config frame c d).
Proof.
  intros Hc Hd. unfold on_frame, dispatch.
  destruct (_ <=? _)%Z; [apply keeps_reply; [by apply confined_response|done]|].
  assert (confined (set_conn (set_last_request_id (request_id frame) (conn c)) c)) as Hc'
    by by apply confined_set.
  destruct Hc as [Hq _]. simpl. rewrite Hq, (bool_decide_eq_false_2 (RoleQuery = RoleAdmin)) by done.
  simpl. destruct (is_admin_request (request frame)) eqn:Ha.
  { apply keeps_reply; [by apply confined_response|done]. }
  destruct (_ && _); [apply keeps_reply; [by apply confined_response|done]|].
  by apply handle_request_confined.
Qed.

Lemma finish_task_confined t r c :
  confined c → confined (remove_task (task_id t) (finish_task t r c)).
Proof.
  intros Hc. assert (confined (finish_task t r c)) as [Hq Ht].
  { assert (confined (remove_active (task_id t) c)) as Hc' by by destruct Hc.
    assert (∀ rs c0, confined c0 → confined (send_each (task_id t) rs c0).2) as Heach.
    { intros rs. induction rs as [|x rs IH]; intros c0 Hc0; simpl; [done|].
      pose proof (confined_response (task_id t) x c0 Hc0) as H1.
      destruct (send_response _ x c0) as [[|] c1]; simpl in *; [by apply IH|done]. }
    unfold finish_task, finish_query, finish_commit, finish_export, send_statement, send_snapshot.
    repeat case_match; try done; try (by apply confined_response); by apply Heach. }
  split; [done|]. simpl. intros x Hx%list_elem_of_In%filter_In. apply Ht, list_elem_of_In, Hx.
Qed.

Lemma confined_update id f c :
  (∀ t, task_work (f t) = task_work t) → confined c → confined (update_task id f c).
Proof.
  intros Hf [Hq Ht]. split; [done|]. simpl. intros x (t & -> & Hin)%list_elem_of_fmap.
  destruct (_ =? _)%Z; rewrite ?Hf; by apply Ht.
Qed.

Lemma step_confined e c d :
  confined c → P d →
  match step config e c d with
  | (Some c', d') => confined c' ∧ P d'
  | (None, d') => P d'
  end.
Proof.
  intros Hc Hd. destruct e as [i| |id|id text|id|id|text|]; simpl.
  - destruct (serving c); simpl; [|done]. destruct i as [f| |text]; [|done..].
    destruct (on_frame_confined f c d Hc Hd) as [H1 H2].
    by destruct (on_frame config f c d) as [[[[|] ?]|] ?].
  - split; [|done]. by destruct (serving c).
  - destruct (find_task id c) as [[tid w [r|] tm]|] eqn:Ht; try done.
    apply find_task_Some in Ht as [Hin _]. destruct Hc as [Hq Ht]. specialize (Ht _ Hin) as Hw.
    simpl in Hw. assert (P (run_work w (default false (active c !! id)) d).2) as Hr.
    { destruct w as [i q ps ro lim st|i ss|]; simpl; [| |done].
      - pose proof (keeps_execute HP i q ps ro lim (default false (active c !! id)) d Hd) as Hk.
        by destruct (daemon_execute_selected _ _ _ _ _ _ _).
      - pose proof (keeps_transaction HP i ss (default false (active c !! id)) d Hd) as Hk.
        by destruct (daemon_execute_selected_transaction _ _ _ _). }
    destruct (run_work w _ d) as [[r|] d1]; [|done]. split; [|done]. by apply confined_update.
  - destruct (find_task id c) as [[tid w [r|] tm]|]; try done. split; [|done].
    by apply confined_update.
  - destruct (find_task id c) as [[tid w [r|] [|]]|]; try done.
    destruct (joined c), w; try done; (split; [|done]);
      by apply (confined_update id (λ t, mkTask (task_id t) (task_work t) (task_result t) true)) in Hc.
  - destruct (find_task id c) as [[tid w [r|] tm]|] eqn:Ht; try done.
    apply find_task_Some in Ht as [Hin Hid]. simpl in Hid. subst tid.
    destruct (joined c); [|done]. split; [|done].
    by apply (finish_task_confined (mkTask id w (Some r) tm) r c).
  - split; [|done]. by destruct (writer_error c).
  - destruct (conn_phase c), (tasks c); done.
Qed.

Lemma run_confined es c d :
  confined c → P d → P (run config es c d).2.
Proof.
  revert c d. induction es as [|e es IH]; intros c d Hc Hd; simpl; [done|].
  pose proof (step_confined e c d Hc Hd) as Hs.
  destruct (step config e c d) as [[c1|] d1]; [|done]. destruct Hs. by apply IH.
Qed.
End confinement.

(** C8: The query role is confined.  Whatever frames a connection authenticated
    with the query credential sends, and however its tasks, time-outs and
    failures interleave, the daemon only goes through Database selection and
    query execution: every property of the daemon that those three operations
    keep is kept, so no lifecycle, snapshot or logical-package operation runs. *)
Theorem query_role_confined (P : D → Prop) first d0 c es d :
  query_operations_keep P →
  handshake first d0 = Accepted c → conn_role (conn c) = RoleQuery → P d →
  P (run config es c d).2.
Proof.
  intros HP (id & cred & name & role & -> & _ & _ & _ & ->)%handshake_accepted Hrole Hd.
  apply run_confined; [done| |done]. split; [done|]. intros t Ht. by apply elem_of_nil in Ht.
Qed.

(** ** Every request is answered *)

Definition answered id c : Prop := ∃ f, f ∈ sent c ∧ response_id f = id.

(** The request has a task that has not been joined. *)
Definition listed id c : Prop := ∃ t, t ∈ tasks c ∧ task_id t = id.

(** While the connection serves or drains, that task runs and will be joined;
    once [handle_connection] has returned an error its tasks are dropped, which
    aborts them. *)
Definition owed id c : Prop := listed id c ∧ joined c = true.
Definition aborted id c : Prop := listed id c ∧ ∃ e, conn_phase c = Closed (Err e).

(** The identifiers of the frames handled while the connection was serving. *)
Fixpoint served (es : list event) c d : list Z :=
  match es with
  | [] => []
  | e :: es' =>
      match e with
      | OnInput (Received f) => if serving c then [request_id f] else []
      | _ => []
      end ++
      match step config e c d with
      | (Some c', d') => served es' c' d'
      | (None, _) => []
      end
  end.

(** A connection that ended well has no task left. *)
Definition drained c : Prop := conn_phase c = Closed (Ok tt) → tasks c = [].

(** [c'] keeps what [c] has answered and still owes. *)
Definition keeps_debts c c' : Prop :=
  (writer_error c' = None → writer_error c = None)
  ∧ (∀ id, answered id c → answered id c')
  ∧ (∀ id, listed id c → listed id c' ∨ answered id c').

Lemma keeps_debts_refl c : keeps_debts c c.
Proof. split_and!; auto. Qed.

Lemma keeps_debts_same c c' :
  writer_error c' = writer_error c → sent c `prefix_of` sent c' →
  (∀ id, listed id c → listed id c') → keeps_debts c c'.
Proof.
  intros Hw [l Hs] Ht. split_and!; [congruence| |auto].
  intros id (f & Hf & <-). exists f. rewrite Hs. split; [apply elem_of_app; by left|done].
Qed.

Lemma keeps_debts_eq c c' :
  writer_error c' = writer_error c → sent c' = sent c → tasks c' = tasks c → keeps_debts c c'.
Proof.
  intros Hw Hs Ht. apply keeps_debts_same; [done|by rewrite Hs|]. unfold listed. by rewrite Ht.
Qed.

Lemma sends_answers id c c' :
  Encodable → writer_error c = None → sends id c c' → answered id c'.
Proof.
  intros HE Hw (fs & [-> Hids] & _ & Hne). destruct fs as [|f fs]; [by destruct (Hne HE Hw)|].
  exists f. split; [simpl; apply elem_of_app; right; by left|]. by inversion Hids.
Qed.

Lemma effect_debts id c c' :
  Encodable → effect id c c' →
  (writer_error c' = writer_error c ∧ conn_phase c' = conn_phase c) ∧ sent c `prefix_of` sent c'
  ∧ (∀ i, listed i c → listed i c')
  ∧ (writer_error c = None → answered id c' ∨ listed id c').
Proof.
  intros HE He. destruct He as [s' r _|target r _|s' w a _ _].
  - destruct (send_response_effect id r (set_conn s' c)) as (fs & [Heq Hids] & Hrest).
    split_and!; try (rewrite Heq; simpl; (done || by apply prefix_app_r)).
    intros Hw. left. apply (sends_answers id (set_conn s' c)); [done|done|]. by exists fs.
  - destruct (send_response_effect id r (cancel_token target c)) as (fs & [Heq Hids] & Hrest).
    split_and!; try (rewrite Heq; simpl; (done || by apply prefix_app_r)).
    intros Hw. left. apply (sends_answers id (cancel_token target c)); [done|done|]. by exists fs.
  - split_and!; simpl; [done|done|done| |].
    + intros i (t & Hin & Ht). exists t. split; [apply elem_of_app; by left|done].
    + intros _. right. eexists. split; [apply elem_of_app; right; by apply list_elem_of_singleton|done].
Qed.

Lemma on_frame_debts frame c d r c' d' :
  Encodable → connection_ok c → request_ok (request frame) →
  on_frame config frame c d = (Some (r, c'), d') →
  keeps_debts c c'
  ∧ (writer_error c' = None → answered (request_id frame) c' ∨ listed (request_id frame) c')
  ∧ conn_phase c' = conn_phase c.
Proof.
  intros HE Hc Hreq. unfold on_frame.
  destruct (Z.leb_spec (request_id frame) (last_request_id (conn c))) as [Hle|Hgt].
  { intros [= Heq <-]. change c' with (r, c').2. rewrite <-Heq. unfold send_failure.
    pose proof (effect_debts _ c _ HE (effect_response (request_id frame)
      (RError ProtocolViolation "request identifiers must be positive and strictly increasing" false)
      c (ok_state _ Hc))) as ([Hw Hph] & Hs & Ht & Ha).
    split_and!; [by apply keeps_debts_same| |exact Hph]. intros Hn. apply Ha. rewrite <-Hw. exact Hn. }
  intros Hd. set (c0 := set_conn _ c) in Hd.
  assert (active c0 !! request_id frame = None) as Hnone.
  { destruct (active c0 !! request_id frame) eqn:Ha; [|done].
    destruct (ok_active _ Hc (request_id frame)) as (t & Hin & Ht & _); [by eexists|].
    pose proof (ok_tasks _ Hc t Hin). lia. }
  assert (state_ok (conn c0)) as Hok by (destruct Hc as [[]]; by split).
  pose proof (dispatch_effect (request_id frame) c0 d Hok Hnone (request frame) Hreq) as He.
  destruct frame as [id req]. simpl in *. rewrite Hd in He. simpl in He.
  apply (effect_debts _ _ _ HE) in He as ([Hw Hph] & Hs & Ht & Ha).
  split_and!; [by apply keeps_debts_same| |exact Hph]. intros Hn. apply Ha. congruence.
Qed.

Lemma finish_task_debts t r c :
  Encodable → connection_ok c → t ∈ tasks c → task_result t = Some r →
  keeps_debts c (remove_task (task_id t) (finish_task t r c)) ∨
  writer_error (remove_task (task_id t) (finish_task t r c)) ≠ None.
Proof.
  intros HE Hc Hin Hr. pose proof (ok_result _ Hc t r Hin Hr) as Hk.
  pose proof (finish_task_sends t r c Hk) as Hsend.
  destruct (writer_error c) eqn:Hw.
  { right. destruct Hsend as (fs & [-> _] & _). simpl.
    by destruct (cancellable (task_work t)); simpl; rewrite Hw. }
  left. assert (answered (task_id t) (finish_task t r c)) as Ha.
  { eapply sends_answers; [done| |exact Hsend]. by destruct (cancellable (task_work t)). }
  destruct Hsend as (fs & [Heq _] & _).
  assert (sent (finish_task t r c) = sent c ++ fs ∧ tasks (finish_task t r c) = tasks c)
    as [Hs Ht] by (rewrite Heq; by destruct (cancellable (task_work t))).
  split_and!; simpl; [done| |].
  - intros id (f & Hf & <-). exists f. split; [|done]. simpl. rewrite Hs. apply elem_of_app. by left.
  - intros id (x & Hx & <-). destruct (decide (task_id x = task_id t)) as [->|Hne]; [by right|].
    left. exists x. split; [|done]. simpl. rewrite Ht. apply list_elem_of_In, filter_In.
    split; [by apply list_elem_of_In|]. by apply negb_true_iff, Z.eqb_neq.
Qed.

Lemma update_task_debts id f c :
  (∀ t, task_id (f t) = task_id t) → keeps_debts c (update_task id f c).
Proof.
  intros Hf. apply keeps_debts_same; [done|done|]. intros i (t & Hin & Ht).
  eexists. split; [simpl; apply list_elem_of_fmap_2, Hin|]. simpl.
  destruct (_ =? _)%Z; by rewrite ?Hf.
Qed.

Lemma step_debts e c d c' d' :
  Encodable → event_ok e → connection_ok c → step config e c d = (Some c', d') →
  writer_error c' = None →
  keeps_debts c c'
  ∧ match e with
    | OnInput (Received f) =>
        serving c = true → answered (request_id f) c' ∨ listed (request_id f) c'
    | _ => True
    end.
Proof.
  intros HE He Hc. destruct e as [i| |id|id text|id|id|text|]; simpl.
  - destruct (serving c); simpl; [|by intros [= <- _] _; split; [apply keeps_debts_refl|destruct i]].
    destruct i as [f| |text]; [|intros [= <- _] _; split; [by apply keeps_debts_eq|done]..].
    destruct (on_frame config f c d) as [[[r c1]|] d1] eqn:Hf; [|done].
    destruct (on_frame_debts f c d r c1 d1 HE Hc He Hf) as (Hk & Ha & _).
    destruct r; intros [= <- _] Hw; (split; [exact Hk|intros _; by apply Ha]).
  - intros [= <- _] _. split; [|done]. by destruct (serving c); apply keeps_debts_eq.
  - destruct (find_task id c) as [[tid w [r|] tm]|]; try by intros [= <- _] _; split; [apply keeps_debts_refl|].
    destruct (run_work w _ d) as [[r|] d1]; [|done]. intros [= <- _] _.
    split; [by apply update_task_debts|done].
  - destruct (find_task id c) as [[tid w [r|] tm]|]; try by intros [= <- _] _; split; [apply keeps_debts_refl|].
    intros [= <- _] _. split; [by apply update_task_debts|done].
  - destruct (find_task id c) as [[tid w [r|] [|]]|]; try by intros [= <- _] _; split; [apply keeps_debts_refl|].
    pose proof (update_task_debts id (λ t, mkTask (task_id t) (task_work t) (task_result t) true) c
      ltac:(done)) as Hk.
    destruct (joined c), w; intros [= <- _] _; (split; [first [exact Hk|apply keeps_debts_refl]|done]).
  - destruct (find_task id c) as [[tid w [r|] tm]|] eqn:Ht;
      try by intros [= <- _] _; split; [apply keeps_debts_refl|].
    apply find_task_Some in Ht as [Hin Hid]. simpl in Hid. subst tid.
    destruct (joined c); intros [= <- _] Hw; [|split; [apply keeps_debts_refl|done]].
    destruct (finish_task_debts (mkTask id w (Some r) tm) r c HE Hc Hin eq_refl); [|done].
    by split.
  - intros [= <- _]. destruct (writer_error c) eqn:Hw; simpl; [congruence|done].
  - destruct (conn_phase c), (tasks c) eqn:Ht; intros [= <- _] _; (split; [by apply keeps_debts_eq|done]).
Qed.

Lemma finish_task_phase t r c :
  kind_ok (task_work t) r → conn_phase (finish_task t r c) = conn_phase c.
Proof.
  intros Hk. destruct (finish_task_sends t r c Hk) as (fs & [-> _] & _).
  by destruct (cancellable (task_work t)).
Qed.

Lemma step_drained e c d c' d' :
  Encodable → event_ok e → connection_ok c →
  drained c → step config e c d = (Some c', d') → drained c'.
Proof.
  unfold drained. intros HE He Hc Hd.
  assert (∀ id f, conn_phase c = Closed (Ok tt) → tasks (update_task id f c) = []) as Hup.
  { intros id f Hp. simpl. by rewrite Hd. }
  destruct e as [i| |id|id text|id|id|text|]; simpl.
  - destruct (serving c) eqn:Hs; simpl; [|by intros [= <- _]].
    assert (conn_phase c = Serving) as Hp by (unfold serving in Hs; by destruct (conn_phase c)).
    destruct i as [f| |text]; [|by intros [= <- _]..].
    destruct (on_frame config f c d) as [[[r c1]|] d1] eqn:Hf; [|done].
    destruct (on_frame_debts f c d r c1 d1 HE Hc He Hf) as (_ & _ & Hph).
    destruct r; intros [= <- _]; simpl; [|done]. rewrite Hph, Hp. done.
  - intros [= <- _]. by destruct (serving c).
  - destruct (find_task id c) as [[tid w [r|] tm]|]; try by intros [= <- _].
    destruct (run_work w _ d) as [[r|] d1]; [|done]. intros [= <- _]. apply Hup.
  - destruct (find_task id c) as [[tid w [r|] tm]|]; try by intros [= <- _].
    intros [= <- _]. apply Hup.
  - destruct (find_task id c) as [[tid w [r|] [|]]|]; try by intros [= <- _].
    destruct (joined c), w; intros [= <- _]; (exact Hd || apply Hup).
  - destruct (find_task id c) as [[tid w [r|] tm]|] eqn:Ht; try by intros [= <- _].
    apply find_task_Some in Ht as [Hin Hid]. simpl in Hid. subst tid.
    destruct (joined c) eqn:Hj; intros [= <- _]; [|done]. intros Hp. simpl in Hp.
    rewrite finish_task_phase in Hp by (by apply (ok_result _ Hc (mkTask id w (Some r) tm) r)).
    unfold joined in Hj. by rewrite Hp in Hj.
  - intros [= <- _]. by destruct (writer_error c).
  - destruct (conn_phase c) eqn:Hp; [by intros [= <- _]; rewrite Hp| |intros [= <- _]; by rewrite Hp].
    destruct (tasks c) eqn:Ht; intros [= <- _]; simpl; [by rewrite Ht|by rewrite Hp].
Qed.

Lemma keeps_debts_trans c1 c2 c3 : keeps_debts c1 c2 → keeps_debts c2 c3 → keeps_debts c1 c3.
Proof.
  intros (Hw1 & Ha1 & Hp1) (Hw2 & Ha2 & Hp2). split_and!; [auto|auto|].
  intros id [Hp|Ha]%Hp1; [by apply Hp2|right; by apply Ha2].
Qed.

Lemma run_debts es c d c' d' :
  Encodable → Forall event_ok es → connection_ok c → drained c →
  run config es c d = (Some c', d') → writer_error c' = None →
  keeps_debts c c' ∧ (∀ id, id ∈ served es c d → answered id c' ∨ listed id c') ∧ drained c'.
Proof.
  intros HE. revert c d. induction es as [|e es IH]; intros c d Hes Hc Hd; simpl.
  { intros [= <- _] _. split_and!; [apply keeps_debts_refl| |done].
    intros id Hid. by apply elem_of_nil in Hid. }
  apply Forall_cons in Hes as [He Hes].
  destruct (step config e c d) as [[c1|] d1] eqn:Hs; [|done]. intros Hr Hw.
  destruct (IH c1 d1 Hes (step_ok _ _ _ _ _ He Hc Hs) (step_drained _ _ _ _ _ HE He Hc Hd Hs) Hr Hw)
    as (Hk & Hall & Hdr).
  destruct (step_debts e c d c1 d1 HE He Hc Hs (proj1 Hk Hw)) as [Hk1 Hnew].
  split_and!; [by eapply keeps_debts_trans| |done].
  intros id [Hid|Hid]%elem_of_app; [|by apply Hall].
  destruct e as [[f| |]| | | | | | |]; try by apply elem_of_nil in Hid.
  destruct (serving c); [|by apply elem_of_nil in Hid].
  apply list_elem_of_singleton in Hid as ->. destruct Hk as (_ & Ha & Hp).
  destruct (Hnew eq_refl) as [Hn|Hn]; [left; by apply Ha|]. destruct (Hp _ Hn); auto.
Qed.

(** The worker of request [id] ends. *)
Definition work_ends id (e : event) : Prop := e = OnWork id ∨ ∃ text, e = OnPanic id text.

Lemma find_task_update id f c :
  (∀ t, task_id (f t) = task_id t) → find_task id (update_task id f c) = f <$> find_task id c.
Proof.
  intros Hf. unfold find_task. simpl. induction (tasks c) as [|t ts IH]; [done|]. simpl.
  destruct (task_id t =? id)%Z eqn:Ht; simpl; [by rewrite Hf, Ht|by rewrite Ht].
Qed.

Lemma listed_find id c : listed id c → ∃ t, find_task id c = Some t ∧ task_id t = id.
Proof.
  intros (t & Hin & Hid). destruct (find_task id c) as [t'|] eqn:Hf.
  - exists t'. split; [done|]. by apply find_task_Some in Hf as [_ ?].
  - apply list_elem_of_In in Hin. pose proof (find_none _ _ Hf t Hin) as Hn. simpl in Hn.
    by apply Z.eqb_neq in Hn.
Qed.

Lemma work_step_result id e c d c' d' :
  work_ends id e → listed id c → step config e c d = (Some c', d') →
  writer_error c' = writer_error c ∧ conn_phase c' = conn_phase c
  ∧ ∃ t r, find_task id c' = Some t ∧ task_result t = Some r.
Proof.
  intros He (t & Ht & Hid)%listed_find. destruct t as [tid w [r|] tm];
    (destruct He as [->|[text ->]]; simpl; rewrite Ht).
  1,2: intros [= <- _]; eauto 10.
  - destruct (run_work w _ d) as [[r|] d1]; [|done]. intros [= <- _]. split_and!; [done..|].
    rewrite find_task_update, Ht by done. simpl. eauto.
  - intros [= <- _]. split_and!; [done..|]. rewrite find_task_update, Ht by done. simpl. eauto.
Qed.

(** Joining the task of an owed request sends its response. *)
Lemma owed_answered id e c d c' d' :
  Encodable → connection_ok c → writer_error c = None → owed id c → work_ends id e →
  run config [e; OnFinish id] c d = (Some c', d') → answered id c'.
Proof.
  intros HE Hc Hw [Hl Hj] He. cbn [run].
  destruct (step config e c d) as [[c1|] d1] eqn:Hs; [|done].
  destruct (work_step_result id e c d c1 d1 He Hl Hs) as (Hw1 & Hp1 & t & r & Ht & Hr).
  assert (connection_ok c1) as Hc1.
  { eapply step_ok; [|done..]. by destruct He as [->|[text ->]]. }
  apply find_task_Some in Ht as Hin. destruct Hin as [Hin Hid]. simpl. rewrite Ht.
  destruct t as [tid w res tm]; simpl in *; subst.
  assert (joined c1 = true) as -> by (unfold joined in *; by rewrite Hp1). intros [= <- _].
  set (t := mkTask id w (Some r) tm) in *.
  assert (answered id (finish_task t r c1)) as (f & Hf & Hfid).
  { eapply (sends_answers (task_id t)); [done| |apply finish_task_sends, (ok_result _ Hc1 t r Hin eq_refl)].
    destruct (cancellable (task_work t)); simpl; congruence. }
  by exists f.
Qed.

(** C9: No request is lost while its connection lives.  While the response
    channel works, after every interleaving of frames, workers, panics,
    time-outs and shutdown, every request handled on a connection has been
    answered, or the connection is still open or draining and the end of the
    request's worker answers it, or the connection ended with an error (a broken
    frame, say) while the request was in flight: its task is then aborted and no
    response is sent.  Once the connection has ended normally every request has
    been answered. *)
Theorem every_request_answered first d0 c0 es d c d' :
  Encodable → handshake first d0 = Accepted c0 → Forall event_ok es →
  run config es c0 d = (Some c, d') → writer_error c = None →
  ∀ id, id ∈ served es c0 d →
    (conn_phase c = Closed (Ok tt) → answered id c)
    ∧ (answered id c
       ∨ aborted id c
       ∨ (owed id c
          ∧ ∀ e d1 c2 d2, work_ends id e →
              run config [e; OnFinish id] c d1 = (Some c2, d2) → answered id c2)).
Proof.
  intros HE Hh Hes Hrun Hw.
  pose proof (handshake_ok _ _ _ Hh) as Hc0. assert (drained c0) as Hd0.
  { by apply handshake_accepted in Hh as (? & ? & ? & ? & _ & _ & _ & _ & ->). }
  pose proof (run_ok es c0 d c d' Hes Hc0 Hrun) as Hc.
  destruct (run_debts es c0 d c d' HE Hes Hc0 Hd0 Hrun Hw) as (_ & Hall & Hd).
  intros id Hid. destruct (Hall id Hid) as [|Hp]; [by split; [|left]|]. split.
  { intros Hcl. destruct Hp as (t & Hin & _). rewrite (Hd Hcl) in Hin. by apply elem_of_nil in Hin. }
  right. assert (joined c = true → owed id c) as Howed by done.
  destruct (conn_phase c) as [| |[[]|e]] eqn:Hph; [| |exfalso|left; split; [done|by exists e]].
  1,2: right; assert (owed id c) as Ho by (apply Howed; unfold joined; by rewrite Hph);
    split; [done|]; intros; by eapply owed_answered.
  destruct Hp as (t & Hin & _). rewrite (Hd Hph) in Hin. by apply elem_of_nil in Hin.
Qed.

(** ** Snapshot transfer *)

Lemma conn_send id r c : conn (send_response id r c).2 = conn c.
Proof. by destruct (send_response_effect id r c) as (fs & [-> _] & _). Qed.

Lemma chunks_fuel_spec fuel n b :
  (0 < n)%nat → (length b <= fuel)%nat →
  concat (chunks_fuel fuel n b) = b
  ∧ Forall (λ x, 0 < length x <= n)%nat (chunks_fuel fuel n b).
Proof.
  intros Hn. revert b. induction fuel as [|fuel IH]; intros [|x b] Hlen; simpl in *; try done; [lia|].
  destruct n as [|n]; [lia|]. simpl.
  destruct (IH (drop n b)) as [Hc Hf]; [rewrite length_drop; lia|]. split.
  - by rewrite Hc, take_drop.
  - constructor; [|done]. simpl. rewrite length_take. lia.
Qed.

(** Sends the chunk events of a download back as upload requests. *)
Fixpoint upload_all (id : Z) (rs : list ServerResponse) c : connection :=
  match rs with
  | RSnapshotChunk sequence data :: rs' =>
      upload_all (id + 1) rs' (handle_restore_chunk id sequence data c).2
  | _ => c
  end.

Definition numbered (i : nat) (cs : list bytes) : list ServerResponse :=
  imap (λ k chunk, RSnapshotChunk (Z.of_nat (i + k)) (base64_encode chunk)) cs.

Lemma upload_numbered `{!Base64Laws} cs id c u i :
  restore (conn c) = Some u →
  upload_next_sequence u = Z.of_nat i →
  Forall (λ x, 0 < length x <= Z.to_nat SNAPSHOT_CHUNK_BYTES)%nat cs →
  (len (upload_bytes u) + len (concat cs) <= upload_total_bytes u)%Z →
  (upload_total_bytes u < u64_max)%Z →
  conn (upload_all id (numbered i cs) c)
  = set_restore (Some (mkSnapshotUpload (upload_database u) (upload_total_bytes u)
      (upload_next_sequence u + len cs) (upload_bytes u ++ concat cs))) (conn c).
Proof.
  revert id c u i. induction cs as [|x cs IH]; intros id c u i Hu Hi Hcs Hlen Hmax.
  { unfold numbered, len, set_restore. simpl. rewrite app_nil_r, Z.add_0_r.
    destruct u, (conn c) as [ro se tr re la]. simpl in *. by subst. }
  apply Forall_cons in Hcs as [Hx Hcs]. unfold numbered. rewrite imap_cons. simpl.
  rewrite Nat.add_0_r. unfold handle_restore_chunk. rewrite Hu, <-Hi, Z.eqb_refl. simpl.
  rewrite base64_round_trip. unfold len in *. simpl concat in Hlen. rewrite length_app in Hlen.
  assert ((Z.of_nat (length x) =? 0)%Z || (SNAPSHOT_CHUNK_BYTES <? Z.of_nat (length x))%Z = false) as ->.
  { apply orb_false_iff. rewrite Z.eqb_neq, Z.ltb_ge. unfold SNAPSHOT_CHUNK_BYTES in *. lia. }
  destruct (Z.ltb_spec (upload_total_bytes u)
    (saturating_add (Z.of_nat (length (upload_bytes u))) (Z.of_nat (length x)))) as [Hb|_];
    [unfold saturating_add in Hb; lia|].
  set (u' := mkSnapshotUpload _ _ _ _).
  set (c' := (send_response _ _ _).2).
  assert (conn c' = set_restore (Some u') (conn c)) as Hc' by (unfold c'; by rewrite conn_send).
  pose proof (IH (id + 1)%Z c' u' (S i)) as IH'. unfold numbered in IH'.
  rewrite (imap_ext _ (λ k chunk, RSnapshotChunk (Z.of_nat (S i + k)) (base64_encode chunk)))
    by (intros k y _; simpl; by rewrite Nat.add_succ_r).
  rewrite IH'; [| |simpl; rewrite Hi; lia|done| |done].
  - rewrite Hc'. unfold set_restore. simpl. rewrite <-app_assoc. f_equal. f_equal. f_equal. lia.
  - by rewrite Hc'.
  - simpl. rewrite length_app. lia.
Qed.

(** C11: A downloaded snapshot uploads back unchanged.  The chunk events sent for
    a snapshot, sent back as the chunks of an upload declared with the
    snapshot's size, are accepted one by one, and the commit then asks the
    daemon to install exactly the original bytes. *)
Theorem snapshot_transfer `{!Base64Laws} (b : bytes) database id id' c d :
  restore (conn c) = Some (mkSnapshotUpload database (len b) 0 []) →
  (len b < u64_max)%Z →
  let c' := upload_all id (chunk_responses b) c in
  restore (conn c') = Some (mkSnapshotUpload database (len b) (len (chunk_responses b)) b)
  ∧ handle_restore_commit id' c' d
    = answer id' (daemon_restore_snapshot database b)
        (λ _, RSnapshotRestore "restored" (len b)) (set_conn (set_restore None (conn c')) c') d.
Proof.
  intros Hu Hmax c'.
  assert (0 < Z.to_nat SNAPSHOT_CHUNK_BYTES)%nat as Hpos by (unfold SNAPSHOT_CHUNK_BYTES; lia).
  pose proof (chunks_fuel_spec (length b) _ b Hpos (Nat.le_refl _)) as [Hcat Hfor].
  assert (chunk_responses b = numbered 0 (chunks (Z.to_nat SNAPSHOT_CHUNK_BYTES) b)) as Hnum
    by (unfold chunk_responses, numbered; reflexivity).
  assert (restore (conn c')
    = Some (mkSnapshotUpload database (len b) (len (chunk_responses b)) b)) as Hr.
  { unfold c'. rewrite Hnum. erewrite upload_numbered; [|exact Hu|done|exact Hfor| |done].
    - simpl. unfold chunks. rewrite Hcat. unfold numbered, len. by rewrite length_imap.
    - simpl. unfold chunks. rewrite Hcat. unfold len. simpl. lia. }
  split; [done|]. unfold handle_restore_commit. rewrite Hr. simpl. by rewrite Z.eqb_refl.
Qed.

(** ** Transactions *)

(** Queues statements one after the other under increasing identifiers. *)
Fixpoint queue_all (id : Z) (ss : list QueuedStatement) c : connection :=
  match ss with
  | [] => c
  | s :: ss' =>
      queue_all (id + 1) ss'
        (handle_query config id (queued_query s) (queued_parameters s) (queued_read_only s)
           false None c).2
  end.

Lemma send_keeps id r c :
  conn (send_response id r c).2 = conn c ∧ active (send_response id r c).2 = active c
  ∧ tasks (send_response id r c).2 = tasks c.
Proof. by destruct (send_response_effect id r c) as (fs & [-> _] & _). Qed.

Ltac rewrite_send_keeps :=
  match goal with
  | |- context [send_response ?i ?r ?x] =>
      let H1 := fresh in let H2 := fresh in let H3 := fresh in
      destruct (send_keeps i r x) as (H1 & H2 & H3); rewrite H1, H2, H3
  end.

Lemma queue_all_spec ss id c q db :
  selected_database_id (conn c) = Some db → transaction (conn c) = Some q →
  (len q + len ss <= max_transaction_statements config)%Z →
  conn (queue_all id ss c) = set_transaction (Some (q ++ ss)) (conn c)
  ∧ active (queue_all id ss c) = active c ∧ tasks (queue_all id ss c) = tasks c.
Proof.
  revert id c q. induction ss as [|s ss IH]; intros id c q Hdb Hq Hlen; simpl.
  { rewrite app_nil_r. split_and!; [|done..]. destruct (conn c) as [ro se tr re la].
    simpl in *. by subst. }
  unfold handle_query. rewrite Hdb, Hq. unfold queue_statement.
  rewrite bool_decide_eq_false_2 by (by intros []).
  destruct (Z.leb_spec (max_transaction_statements config) (len q)) as [Hle|_].
  { unfold len in *. simpl in Hlen. lia. }
  set (c' := (send_response _ _ _).2).
  assert (conn c' = set_transaction (Some (q ++ [s])) (conn c) ∧ active c' = active c
          ∧ tasks c' = tasks c) as (Hc' & Ha' & Ht').
  { unfold c'. destruct s. rewrite_send_keeps. done. }
  destruct (IH (id + 1)%Z c' (q ++ [s])) as (Hc & Ha & Ht).
  - by rewrite Hc'.
  - by rewrite Hc'.
  - unfold len in *. rewrite length_app. simpl in *. lia.
  - rewrite Hc, Ha, Ht, Hc', Ha', Ht', <-app_assoc. done.
Qed.

(** C10: A transaction commits what was queued.  On a connection with a selected
    Database, [begin], then at most [max_transaction_statements] queries, then
    [commit] runs exactly one batch on that Database: the queued statements, all
    of them, in the order they were sent, with their parameters; the
    transaction is closed by the commit.  A commit is refused instead when a
    queued read-only statement would write. *)
Theorem transaction_commits_in_order ss id0 id1 id2 c db :
  selected_database_id (conn c) = Some db → transaction (conn c) = None →
  (len ss <= max_transaction_statements config)%Z → active c !! id2 = None →
  let c2 := queue_all id1 ss (handle_begin id0 c).2 in
  let '(r, c3) := handle_commit id2 c2 in
  conn c3 = conn c
  ∧ if existsb rejects_read_only ss then tasks c3 = tasks c
    else r = Ok tt
         ∧ tasks c3 = tasks c ++
             [mkTask id2 (WorkCommit db (map (λ s, (queued_query s, queued_parameters s)) ss))
                None false].
Proof.
  intros Hdb Ht Hlen Hfresh c2.
  assert (conn c2 = set_transaction (Some ss) (conn c) ∧ active c2 = active c ∧ tasks c2 = tasks c)
    as (Hc2 & Ha2 & Ht2).
  { unfold c2, handle_begin. rewrite Ht, Hdb.
    set (c1 := (send_response _ _ _).2).
    assert (conn c1 = set_transaction (Some []) (conn c) ∧ active c1 = active c
            ∧ tasks c1 = tasks c) as (Hc1 & Ha1 & Ht1).
    { unfold c1. rewrite_send_keeps. done. }
    destruct (queue_all_spec ss id1 c1 [] db) as (Hq & Hqa & Hqt);
      [by rewrite Hc1|by rewrite Hc1|done|]. by rewrite Hq, Hqa, Hqt, Hc1, Ha1, Ht1. }
  assert (set_transaction None (conn c2) = conn c) as Hback.
  { rewrite Hc2. destruct (conn c). simpl in *. by subst. }
  assert (transaction (conn c2) = Some ss) as Htr by by rewrite Hc2.
  clearbody c2. unfold handle_commit. rewrite Htr, Hback. simpl. rewrite Hdb.
  destruct (existsb rejects_read_only ss) eqn:Hro.
  - destruct (send_failure _ _ _) as [r c3] eqn:Hs.
    pose proof (send_keeps id2 (RError QueryError "read_only request rejected a mutating query" false)
      (set_conn (conn c) c2)) as (H1 & _ & H2).
    unfold send_failure in Hs. simpl in Hs. rewrite Hs in H1, H2. simpl in *.
    split; [done|congruence].
  - unfold spawn_cancellable, insert_active. simpl. rewrite Ha2, Hfresh. simpl.
    split_and!; [done|done|by rewrite Ht2].
Qed.
End properties.

(** ** A concrete daemon *)

Module Concrete.

#[local] Instance prepare_write : PrepareWrite :=
  {| prepare_write_ok q := String.prefix "CREATE" q |}.

#[local] Instance base64 : Base64 := {|
  base64_encode := String.string_of_list_byte;
  base64_decode s := Ok (String.list_byte_of_string s)
|}.

#[local] Instance base64_laws : Base64Laws.
Proof. constructor. intros b. simpl. by rewrite String.list_byte_of_string_of_list_byte. Qed.

#[local] Instance request_codec : Payload ClientFrame :=
  {| to_vec _ := Ok [x7b; x7d]; of_slice _ := Err "not used" |}.
#[local] Instance response_codec : Payload ServerFrame :=
  {| to_vec _ := Ok [x7b; x7d]; of_slice _ := Err "not used" |}.

#[local] Instance encodable : Encodable.
Proof. constructor. intros f. by eexists. Qed.

#[local] Instance small_errors : SmallErrors.
Proof. constructor. intros id. eexists. vm_compute. reflexivity. Qed.

(** The daemon as the log of the operations called on it. *)
Definition log (A : Type) (op : string) (a : A) : call (list string) A := λ d, (Some (Ok a), d ++ [op]).

Definition orders : DatabaseSummary := mkDatabaseSummary "id-1" "orders" "ready".

#[local] Instance logging : DaemonOps (list string) := {|
  daemon_authenticate _ s :=
    if String.eqb s "admin" then Some RoleAdmin
    else if String.eqb s "query" then Some RoleQuery else None;
  daemon_list_databases := log _ "list" [orders];
  daemon_select_database _ := log _ "select" orders;
  daemon_create_database _ := log _ "create" orders;
  daemon_rename_database _ _ := log _ "rename" orders;
  daemon_drop_database _ _ := log _ "drop" orders;
  daemon_inspect_database _ := log _ "inspect" (mkDatabaseDetails orders 1 1 1 "0" true 0 0 0);
  daemon_execute_selected _ _ _ _ _ _ := log _ "execute" (Read (mkQueryResult [] [] true));
  daemon_execute_selected_transaction _ _ _ := log _ "transaction" [];
  daemon_export_snapshot _ := log _ "export" [x01];
  daemon_restore_snapshot _ _ := log _ "restore" tt;
  daemon_export_logical _ := log _ "export logical" Null;
  daemon_import_logical _ _ := log _ "import logical" 0%Z
|}.

Definition limits : LimitConfig := default_limits.

Lemma limits_ok : (0 <= max_transaction_statements limits)%Z ∧ (max_snapshot_bytes limits < u64_max)%Z.
Proof. split; vm_compute; congruence. Qed.

Definition hello (credential : string) : incoming :=
  Received (mkClientFrame 1 (Hello 1 credential "test")).

Definition opened (credential : string) : connection :=
  match handshake (D:=list string) (hello credential) [] with
  | Accepted c => c
  | Rejected _ _ => mkConnection (mkConnectionState RoleQuery None None None 0) ∅ [] [] None Serving
  end.

Definition frame (id : Z) (r : ClientRequest) : event := OnInput (Received (mkClientFrame id r)).

(** A client that selects, queries, tries to drop, and closes. *)
Definition session : list event :=
  [frame 2 (SelectDatabase "orders"); frame 3 (Query "MATCH" [] true false None); OnTimeout 3;
   frame 4 (DatabaseDrop "orders" "orders"); OnWork 3; OnFinish 3; OnInput EndOfInput; OnDrained].

Definition final (es : list event) (credential : string) : connection :=
  default (opened credential) (run limits es (opened credential) []).1.

Lemma session_ok : Forall event_ok session.
Proof. by repeat constructor. Qed.

Lemma connection_invariant_witness :
  let c := final session "query" in
  NoDup (task_id <$> tasks c) ∧ ∀ f, f ∈ sent c → (response_id f <= last_request_id (conn c))%Z.
Proof.
  destruct (connection_invariant limits limits_ok (hello "query") [] (opened "query") session []
    (final session "query") (run limits session (opened "query") []).2)
    as (_ & _ & _ & Hnd & _ & Hs).
  - reflexivity.
  - exact session_ok.
  - vm_compute. reflexivity.
  - split; [exact Hnd|exact Hs].
Defined.

Lemma sent_frames_fit_witness :
  Forall (λ f, ∃ out, write_async_frame f = Ok out) (sent (final session "query")).
Proof.
  apply (sent_frames_fit limits limits_ok (hello "query") [] (opened "query") session []
    (final session "query") (run limits session (opened "query") []).2).
  - exact small_errors.
  - reflexivity.
  - exact session_ok.
  - vm_compute. reflexivity.
Defined.

Lemma handshake_exact_witness :
  handshake (D:=list string) (hello "admin") [] = Accepted (opened "admin").
Proof.
  apply (handshake_exact (hello "admin") [] (opened "admin")).
  - intros id role. eexists. vm_compute. reflexivity.
  - exists 1%Z, "admin", "test", RoleAdmin. split_and!; [reflexivity|discriminate|reflexivity..].
Defined.

(** The log of a query-role session never mentions a drop. *)
Lemma query_role_confined_witness :
  "drop" ∉ (run limits session (opened "query") []).2.
Proof.
  apply (query_role_confined limits (λ d, "drop" ∉ d) (hello "query") [] (opened "query") session []).
  - split; intros; simpl; rewrite elem_of_app, list_elem_of_singleton; intros [?|?]; by try done.
  - reflexivity.
  - reflexivity.
  - apply not_elem_of_nil.
Defined.

(** The same session still open, and one that a broken frame ends. *)
Definition still_open : list event := firstn 4 session.
Definition broken_off : list event := firstn 3 session ++ [OnInput (Broken "bad"); OnWork 3; OnFinish 3].

Lemma every_request_answered_witness :
  answered 3 (final session "query")
  ∧ (∃ c2 d2, run limits [OnWork 3; OnFinish 3] (final still_open "query") [] = (Some c2, d2)
              ∧ answered 3 c2)
  ∧ aborted 3 (final broken_off "query").
Proof.
  split_and!.
  - apply (every_request_answered limits limits_ok (hello "query") [] (opened "query") session []
      (final session "query") (run limits session (opened "query") []).2);
      [exact encodable|reflexivity|exact session_ok|vm_compute; reflexivity..|vm_compute; right; left|].
    vm_compute. reflexivity.
  - eexists _, _. split; [vm_compute; reflexivity|].
    destruct (every_request_answered limits limits_ok (hello "query") [] (opened "query") still_open []
      (final still_open "query") (run limits still_open (opened "query") []).2)
      with (id := 3%Z) as (_ & [Ha|[[_ [e Ha]]|[_ Ha]]]);
      [exact encodable|reflexivity|by repeat constructor|vm_compute; reflexivity..|vm_compute; right; left| | |].
    + vm_compute in Ha. destruct Ha as (f & Hf & Hid). exfalso. clear -Hf Hid.
      repeat (apply elem_of_cons in Hf as [->|Hf]; [discriminate Hid|]). by apply elem_of_nil in Hf.
    + vm_compute in Ha. discriminate Ha.
    + eapply (Ha (OnWork 3) [] _ _ (or_introl eq_refl)). vm_compute. reflexivity.
  - destruct (every_request_answered limits limits_ok (hello "query") [] (opened "query") broken_off []
      (final broken_off "query") (run limits broken_off (opened "query") []).2)
      with (id := 3%Z) as (_ & [Ha|[Ha|[[_ Ha] _]]]);
      [exact encodable|reflexivity|by repeat constructor|vm_compute; reflexivity..|vm_compute; right; left| | |].
    + vm_compute in Ha. destruct Ha as (f & Hf & Hid). exfalso. clear -Hf Hid.
      repeat (apply elem_of_cons in Hf as [->|Hf]; [discriminate Hid|]). by apply elem_of_nil in Hf.
    + exact Ha.
    + vm_compute in Ha. discriminate Ha.
Defined.

Definition uploading : connection :=
  set_conn (mkConnectionState RoleAdmin None None (Some (mkSnapshotUpload "orders" 3 0 [])) 5)
    (opened "admin").

Lemma snapshot_transfer_witness :
  restore (conn (upload_all 6 (chunk_responses [x01; x02; x03]) uploading))
  = Some (mkSnapshotUpload "orders" 3 (len (chunk_responses [x01; x02; x03])) [x01; x02; x03]).
Proof.
  apply (snapshot_transfer (D:=list string) [x01; x02; x03] "orders" 6 9 uploading []);
    reflexivity.
Defined.

Definition selected : connection :=
  set_conn (mkConnectionState RoleQuery (Some "id-1") None None 5) (opened "query").

Definition batch : list QueuedStatement :=
  [mkQueuedStatement "CREATE" [] false; mkQueuedStatement "MATCH" [] true].

Lemma transaction_commits_in_order_witness :
  tasks (handle_commit 9 (queue_all limits 7 batch (handle_begin 6 selected).2)).2
  = [mkTask 9 (WorkCommit "id-1" [("CREATE", []); ("MATCH", [])]) None false].
Proof.
  pose proof (transaction_commits_in_order limits batch 6 7 9 selected "id-1"
    ltac:(reflexivity) ltac:(reflexivity) ltac:(vm_compute; discriminate) ltac:(reflexivity)) as H.
  cbv zeta in H. destruct (handle_commit 9 _) as [r c3]. exact (proj2 (proj2 H)).
Defined.

End Concrete.
