(* ===== verification/Listener.v ===== *)
(** * The protocol listener ([serve_database_protocol] of [src/src/protocol.rs])

    The accept loop with its semaphore, its set of connection tasks and its
    shutdown, as a machine that takes one event at a time: which branch of a
    [select!] completes, that a task ends, that a join completes, that the five
    seconds are over.  A connection's own behaviour is [Protocol]'s. *)

From Stdlib Require Import ZArith Lia Ascii.
From stdpp Require Import base list strings gmap.
From S2P Require Import Prelude Fs Codec Catalog Wire Messages Config.

Open Scope string_scope.
Open Scope list_scope.
Open Scope nat_scope.

(** Where the function is. *)
Inductive phase : Type :=
| WaitPermit                                (* the first [select!] *)
| WaitAccept                                (* the second one, holding a permit *)
| Draining                                  (* waiting for the tasks, at most five seconds *)
| Aborting                                  (* after [abort_all] *)
| Returned (r : result unit ServerError).

Record listener : Type := mkListener {
  permits : nat;          (* available in the semaphore *)
  running : nat;          (* tasks that hold a permit *)
  finished : nat;         (* tasks that ended and were not joined *)
  at_phase : phase;
  told : bool             (* [shutdown_sender.send(true)] was called *)
}.

(** [Semaphore::new] panics above [max_permits]; the limit is the smaller of the
    two configured ones. *)
Definition connection_limit (c : DaemonConfig) : Z :=
  Z.min (max_connections (limits c)) (max_sessions (limits c)).

Definition listener_new (max_permits : Z) (c : DaemonConfig) : option listener :=
  if (max_permits <? connection_limit c)%Z then None
  else Some (mkListener (Z.to_nat (connection_limit c)) 0 0 WaitPermit false).

Inductive event : Type :=
| Acquired                        (* a permit was acquired *)
| Shutdown                        (* the shutdown future resolved *)
| Accepted                        (* a connection was accepted and configured *)
| AcceptFailed (text : string)
| NodelayFailed (text : string)
| Ended                           (* a task ended, or was cancelled after an abort *)
| Joined                          (* [join_next] returned *)
| TimedOut.

(** [None] is an event that cannot happen there.  The semaphore is never
    closed, so acquiring a permit does not fail. *)
Definition listener_step (s : listener) (e : event) : option listener :=
  let '(mkListener p r f ph t) := s in
  match e, ph with
  | Acquired, WaitPermit =>
      match p with O => None | S p' => Some (mkListener p' r f WaitAccept t) end
  | Shutdown, WaitPermit => Some (mkListener p r f Draining true)
  | Shutdown, WaitAccept => Some (mkListener (S p) r f Draining true)
  | Accepted, WaitAccept => Some (mkListener p (S r) 0 WaitPermit t)
  | AcceptFailed text, WaitAccept =>
      Some (mkListener (S p) r 0 (Returned (Err ("database protocol accept failed: " +:+ text))) t)
  | NodelayFailed text, WaitAccept =>
      Some (mkListener (S p) r 0 (Returned (Err ("cannot configure client socket: " +:+ text))) t)
  | Ended, Returned _ => match r with O => None | S r' => Some (mkListener (S p) r' f ph t) end
  | Ended, _ => match r with O => None | S r' => Some (mkListener (S p) r' (S f) ph t) end
  | Joined, Draining | Joined, Aborting =>
      match f, r with
      | S f', _ => Some (mkListener p r f' ph t)
      | O, O => Some (mkListener p r f (Returned (Ok tt)) t)
      | O, S _ => None
      end
  | TimedOut, Draining => Some (mkListener p r f Aborting t)
  | _, _ => None
  end.

Fixpoint listener_run (s : listener) (es : list event) : option listener :=
  match es with
  | [] => Some s
  | e :: es' => match listener_step s e with Some s' => listener_run s' es' | None => None end
  end.

(** ** Connections are bounded *)

Definition held (ph : phase) : nat := match ph with WaitAccept => 1 | _ => 0 end.

(** Every permit is in the semaphore, with the loop, or with a running task. *)
Definition accounted (n : nat) (s : listener) : Prop :=
  permits s + held (at_phase s) + running s = n.

Lemma listener_step_accounted n s e s' :
  accounted n s → listener_step s e = Some s' → accounted n s'.
Proof.
  destruct s as [p r f ph t]. unfold accounted. simpl. intros Ha.
  destruct e, ph; simpl; try done; repeat case_match; intros [= <-]; simpl in *; lia.
Qed.

Lemma listener_run_invariant (P : listener → Prop) s es s' :
  (∀ s e s', P s → listener_step s e = Some s' → P s') →
  P s → listener_run s es = Some s' → P s'.
Proof.
  intros Hstep. revert s. induction es as [|e es IH]; intros s Hs; simpl; [by intros [= <-]|].
  destruct (listener_step s e) as [s1|] eqn:He; [|done]. eauto.
Qed.

(** C16: Connections are bounded.  Whatever the order of connections, ends,
    errors and the shutdown, the number of connections that run at the same
    time is never above either configured limit, and no permit is lost: when
    nothing runs and the loop holds none, all are available again. *)
Theorem listener_bounded max_permits c s0 es s :
  (0 <= connection_limit c)%Z → listener_new max_permits c = Some s0 → listener_run s0 es = Some s →
  (Z.of_nat (running s) <= max_connections (limits c))%Z
  ∧ (Z.of_nat (running s) <= max_sessions (limits c))%Z
  ∧ (running s = 0 → at_phase s ≠ WaitAccept → Z.of_nat (permits s) = connection_limit c).
Proof.
  intros Hpos Hnew Hrun. unfold listener_new in Hnew. case_match; [done|]. injection Hnew as <-.
  assert (accounted (Z.to_nat (connection_limit c)) s) as Ha.
  { eapply listener_run_invariant; [by intros; eapply listener_step_accounted| |exact Hrun].
    unfold accounted. simpl. lia. }
  unfold accounted in Ha. unfold connection_limit in *. split_and!; [lia|lia|].
  intros H0 Hph. assert (held (at_phase s) = 0) as Hh by (destruct (at_phase s); done). lia.
Qed.

(** ** Shutdown *)

(** The shutdown began and the function has not returned an error. *)
Definition shutting_down (s : listener) : Prop :=
  match at_phase s with
  | Draining | Aborting => True
  | Returned (Ok _) => running s = 0 ∧ finished s = 0
  | _ => False
  end.

Definition remaining (s : listener) : nat :=
  2 * running s + finished s
  + match at_phase s with Draining => 2 | Aborting => 1 | _ => 0 end.

Lemma shutting_down_step s e s' :
  shutting_down s → listener_step s e = Some s' →
  shutting_down s' ∧ remaining s' < remaining s ∧ running s' <= running s.
Proof.
  destruct s as [p r f ph t]. unfold shutting_down, remaining. simpl.
  destruct e, ph as [| | | |[]]; simpl; try done; intros Hs; repeat case_match; intros [= <-]; simpl;
    try lia; split; try done; lia.
Qed.

Lemma shutting_down_run s es s' :
  shutting_down s → listener_run s es = Some s' →
  shutting_down s' ∧ length es + remaining s' <= remaining s ∧ running s' <= running s.
Proof.
  revert s. induction es as [|e es IH]; intros s Hs; simpl; [intros [= <-]; split; [done|lia]|].
  destruct (listener_step s e) as [s1|] eqn:He; [|done]. intros Hrun.
  destruct (shutting_down_step _ _ _ Hs He) as (Hs1 & Hm & Hr).
  destruct (IH _ Hs1 Hrun) as (Hs' & Hm' & Hr'). split; [done|lia].
Qed.

(** C17: Shutdown ends.  From the moment the shutdown future resolves, in either
    [select!], no connection is accepted any more, the tasks were told, at most
    [2 * running + finished + 2] events can still happen, some event can happen
    as long as the function has not returned, and when it has returned the result
    is [Ok] and nothing runs. *)
Theorem shutdown_ends s s1 :
  listener_step s Shutdown = Some s1 →
  told s1 = true
  ∧ ∀ es s', listener_run s1 es = Some s' →
      length es <= 2 * running s + finished s + 2
      ∧ running s' <= running s
      ∧ (at_phase s' = Returned (Ok tt) ∧ running s' = 0 ∧ finished s' = 0
         ∨ ∃ e s'', listener_step s' e = Some s'').
Proof.
  intros Hs. destruct s as [p r f ph t].
  assert (told s1 = true ∧ shutting_down s1 ∧ remaining s1 = 2 * r + f + 2 ∧ running s1 = r) as (Ht & Hd & Hm & Hr).
  { destruct ph; simpl in Hs; try done; injection Hs as <-; unfold remaining; simpl; split_and!; try done; lia. }
  split; [done|]. intros es s' Hrun. destruct (shutting_down_run _ _ _ Hd Hrun) as (Hd' & Hm' & Hr').
  simpl. split_and!; [lia|lia|]. clear -Hd'. destruct s' as [p r f ph t]. unfold shutting_down in Hd'. simpl in *.
  destruct ph as [| | | |[[]|]]; try done.
  - right. by exists TimedOut, (mkListener p r f Aborting t).
  - right. destruct f as [|f]; [destruct r as [|r]|].
    + by eexists Joined, _.
    + by eexists Ended, _.
    + by eexists Joined, _.
  - left. naive_solver.
Qed.

(** ** A concrete listener *)

Module Listening.

Definition settings : DaemonConfig :=
  let c := config_new (mkPathBuf true ["data"]) "127.0.0.1:7878" in
  mkDaemonConfig (config_version c) (data_directory c) (network c) (authentication c)
    (mkLimitConfig 2 1 1 1 1 1 1 1 1).

Definition started : listener := mkListener 1 0 0 WaitPermit false.

(** One connection runs; a second one finds no permit until it ends. *)
Lemma listener_bounded_witness :
  listener_run started [Acquired; Accepted; Acquired] = None
  ∧ ∃ s, listener_run started [Acquired; Accepted; Ended; Acquired; Accepted] = Some s
         ∧ (Z.of_nat (running s) <= 2)%Z ∧ (Z.of_nat (running s) <= 1)%Z.
Proof.
  split; [reflexivity|]. eexists. split; [reflexivity|].
  pose proof (listener_bounded 100 settings started [Acquired; Accepted; Ended; Acquired; Accepted] _
    ltac:(vm_compute; congruence) eq_refl eq_refl) as (Hc & Hs & _). split; [exact Hc|exact Hs].
Defined.

(** Shutdown while one connection runs and another was being waited for. *)
Lemma shutdown_ends_witness :
  listener_step (mkListener 3 1 0 WaitAccept false) Shutdown = Some (mkListener 4 1 0 Draining true)
  ∧ listener_run (mkListener 4 1 0 Draining true) [TimedOut; Ended; Joined; Joined]
    = Some (mkListener 5 0 0 (Returned (Ok tt)) true)
  ∧ length [TimedOut; Ended; Joined; Joined] <= 2 * 1 + 0 + 2.
Proof.
  split; [reflexivity|]. split; [reflexivity|].
  exact (proj1 (proj2 (shutdown_ends (mkListener 3 1 0 WaitAccept false) (mkListener 4 1 0 Draining true)
    eq_refl) [TimedOut; Ended; Joined; Joined] (mkListener 5 0 0 (Returned (Ok tt)) true) eq_refl)).
Defined.

End Listening.
