(* ===== verification/Engine.v ===== *)
(** * The embedded engine as the server uses it

    [nostdb_engine] is outside the repository.  The operations of
    [EmbeddedDatabase] that the server calls are an interface of computations
    on the file system, and what the server relies on are its laws: an open
    database touches its own file and lock file only, and never removes its
    data file. *)

From Stdlib Require Import ZArith Lia Ascii.
From stdpp Require Import base list strings gmap.
From S2P Require Import Prelude Fs Codec Catalog Wire Messages Config.

Open Scope string_scope.
Open Scope list_scope.

(** [DatabaseError]: a query error, which may be a resource limit
    ([QueryErrorCode::ResourceLimit]), or a storage error, which may be
    [StorageErrorKind::Busy]; with the text it displays. *)
Inductive DatabaseError : Type :=
| QueryFailure (resource_limit : bool) (text : string)
| StorageFailure (busy : bool) (text : string).

Definition database_error_text (e : DatabaseError) : string :=
  match e with QueryFailure _ t | StorageFailure _ t => t end.

Record DatabaseInfo : Type := mkDatabaseInfo {
  info_ndb_format_version : Z;
  info_schema_revision : Z;
  info_value_codec_version : Z;
  info_checksum_codec_version : Z;
  info_generation : Z;
  info_logical_checksum : Z;
  info_source_enabled : bool
}.

Record DatabaseCounts : Type := mkDatabaseCounts {
  count_schemas : Z;
  count_nodes : Z;
  count_edges : Z;
  count_adjacency : Z;
  count_properties : Z
}.

Record LogicalModule : Type := mkLogicalModule {
  module_path : string;
  module_id : string;
  module_source : string
}.

Record LogicalPackage : Type := mkLogicalPackage {
  package_version : Z;
  package_settings : string;
  package_modules : list LogicalModule
}.

(** The lock file beside a database file: [path] with [.lock] appended. *)
Definition sidecar (p : path) : path :=
  match rev p with
  | [] => [".lock"]
  | last :: rest => rev rest ++ [last +:+ ".lock"]
  end.

Class Engine : Type := {
  edb : Type;
  edb_path : edb → path;
  engine_create : path → io (result edb DatabaseError);
  engine_open : path → io (result edb DatabaseError);
  engine_close : edb → io unit;                          (* [drop] *)
  engine_checkpoint : edb → io (result unit DatabaseError * edb);
  engine_adopt_server_authority : edb → io (result unit DatabaseError * edb);
  engine_info : edb → io (result DatabaseInfo DatabaseError);
  engine_counts : edb → io (result DatabaseCounts DatabaseError);
  engine_check : edb → io (result bool DatabaseError);   (* [is_valid] of the report *)
  engine_execute_limited :
    edb → string → list (string * QueryValue) → QueryLimits → bool →
    io (result StatementResult DatabaseError * edb);
  engine_execute_transaction_limited :
    edb → list (string * list (string * QueryValue)) → QueryLimits → bool →
    io (result (list StatementResult) DatabaseError * edb);
  engine_export_logical : edb → io (result LogicalPackage string)
}.

(** The file system outside a database's own two files is untouched. *)
Definition own_files (p : path) (fs fs' : fsys) : Prop := same_except [p; sidecar p] fs fs'.
#[export] Hint Unfold own_files : nostdb.

(** An operation on an open database keeps to its files and keeps its data file. *)
Definition stays_within (p : path) (fs fs' : fsys) : Prop :=
  own_files p fs fs' ∧ is_file fs' p = is_file fs p.

Class EngineLaws `{Engine} : Prop := {
  create_law m p fs : fs !! p = None → fs !! parent p = Some NDir →
    wp m (engine_create p) fs
      (λ r fs', own_files p fs fs' ∧
                match r with
                | Ok db => is_file fs' p = true ∧ edb_path db = p
                | Err _ => True
                end)
      (own_files p fs);
  open_law m p fs :
    wp m (engine_open p) fs
      (λ r fs', stays_within p fs fs' ∧ match r with Ok db => edb_path db = p | Err _ => True end)
      (stays_within p fs);
  close_law m db fs :
    wp m (engine_close db) fs (λ _, stays_within (edb_path db) fs) (stays_within (edb_path db) fs);
  checkpoint_law m db fs :
    wp m (engine_checkpoint db) fs
      (λ '(_, db') fs', stays_within (edb_path db) fs fs' ∧ edb_path db' = edb_path db)
      (stays_within (edb_path db) fs)
}.

(** ** A small engine that satisfies the laws

    A database is a file that starts with the byte 1. *)

Module Toy.

Definition storage_error (e : io_error) : DatabaseError := StorageFailure false (io_text e).

Definition create (p : path) : io (result path DatabaseError) :=
  let* r := open_new default_mode p in
  match r with
  | Err e => ret (Err (storage_error e))
  | Ok _ =>
      let* r := write_all_sync p [x01] in
      ret (match r with Ok _ => Ok p | Err e => Err (storage_error e) end)
  end.

Definition open (p : path) : io (result path DatabaseError) :=
  let* r := read p in
  ret (match r with
       | Ok (x01 :: _) => Ok p
       | Ok _ => Err (StorageFailure false "not a database")
       | Err e => Err (storage_error e)
       end).

Definition check (p : path) : io (result bool DatabaseError) :=
  let* r := read p in
  ret (match r with
       | Ok (x01 :: _) => Ok true
       | Ok _ => Ok false
       | Err e => Err (storage_error e)
       end).

#[export] Instance engine : Engine := {|
  edb := path;
  edb_path p := p;
  engine_create := create;
  engine_open := open;
  engine_close _ := ret tt;
  engine_checkpoint p := ret (Ok tt, p);
  engine_adopt_server_authority p := ret (Ok tt, p);
  engine_info _ := ret (Ok (mkDatabaseInfo 1 1 1 1 1 0 false));
  engine_counts _ := ret (Ok (mkDatabaseCounts 0 0 0 0 0));
  engine_check := check;
  engine_execute_limited p _ _ _ _ := ret (Ok (Read (mkQueryResult [] [] true)), p);
  engine_execute_transaction_limited p _ _ _ := ret (Ok [], p);
  engine_export_logical _ := ret (Ok (mkLogicalPackage 1 "{}" []))
|}.

Lemma stays_within_refl p fs : stays_within p fs fs.
Proof. split; [apply same_except_refl|done]. Qed.

#[export] Instance engine_laws : EngineLaws.
Proof.
  split.
  - intros m p fs Hp Hd. simpl. unfold create.
    assert (∀ mode b, own_files p fs (<[p := NFile mode b]> fs)) as Hown.
    { intros. auto with nostdb. }
    apply wp_bind, wp_open_new; [done|done| | |].
    + intros u. apply wp_bind. eapply wp_write_all_sync; [by rewrite lookup_insert_eq|..].
      * rewrite insert_insert_eq. apply wp_ret. split; [apply Hown|]. unfold is_file.
        by rewrite lookup_insert_eq.
      * intros _ n text. rewrite insert_insert_eq. apply wp_ret. split; [apply Hown|done].
      * intros _ n. rewrite insert_insert_eq. apply Hown.
    + intros _ text. apply wp_ret. split; [apply same_except_refl|done].
    + intros _. apply same_except_refl.
  - intros m p fs. simpl. unfold open. apply wp_bind, wp_syscall.
    + unfold do_read. destruct (fs !! p) as [[mode b|]|]; simpl; apply wp_ret;
        (split; [apply stays_within_refl|]); try done. destruct b as [|[] b]; done.
    + intros _ n text. apply wp_ret. split; [apply stays_within_refl|done].
    + intros _ n. apply stays_within_refl.
  - intros m db fs. apply wp_ret, stays_within_refl.
  - intros m db fs. apply wp_ret. split; [apply stays_within_refl|done].
Qed.

End Toy.
