(* ===== verification/Daemon.v ===== *)
(** * The database daemon ([src/src/daemon.rs])

    The managed data directory at run time: the catalog, one handle per
    Database, and the operations the protocol calls.  A method of
    [DatabaseDaemon] is a computation on the file system that also gives the
    daemon's memory after it. *)

From Stdlib Require Import ZArith Lia Ascii.
From stdpp Require Import base list strings gmap.
From S2P Require Import Prelude Fs Codec Catalog Wire Messages Config Protocol Engine.

Open Scope string_scope.
Open Scope list_scope.

(** ** Failures *)

Definition not_found (name : string) : ProtocolFailure :=
  failure DatabaseNotFound ("Database `" +:+ name +:+ "` does not exist").

Definition internal (text : string) : ProtocolFailure := failure InternalError text.

Definition unavailable : ProtocolFailure := retryable_failure DatabaseBusy "Database is unavailable".

(** [cancellation] is the state of the token, when there is one. *)
Definition database_failure (e : DatabaseError) (cancellation : option bool) : ProtocolFailure :=
  match e with
  | QueryFailure true text =>
      if bool_decide (cancellation = Some true) then failure Cancelled text
      else failure ResourceLimit text
  | QueryFailure false text => failure QueryError text
  | StorageFailure true text => retryable_failure DatabaseBusy text
  | StorageFailure false text => failure InternalError text
  end.

(** [requested.map_or(default, |value| default.min(value))] *)
Definition lowered (default : Z) (requested : option Z) : Z :=
  match requested with Some value => Z.min default value | None => default end.

Definition lower_limits (defaults : QueryLimits) (requested : option WireQueryLimits) : QueryLimits :=
  match requested with
  | None => defaults
  | Some r =>
      mkQueryLimits
        (lowered (limit_rows defaults) (wire_max_rows r))
        (lowered (limit_memory_bytes defaults) (wire_max_memory_bytes r))
        (lowered (limit_operations defaults) (wire_max_operations r))
        (lowered (limit_traversals defaults) (wire_max_traversals r))
  end.

(** ** Catalog entries *)

(** [slice::sort_by] on names, a stable sort. *)
Fixpoint insert_by_name (d : CatalogDatabase) (l : list CatalogDatabase) : list CatalogDatabase :=
  match l with
  | [] => [d]
  | d' :: l' => if String.ltb (name d') (name d) then d' :: insert_by_name d l' else d :: l
  end.

Definition sort_by_name (l : list CatalogDatabase) : list CatalogDatabase :=
  foldr insert_by_name [] l.

Definition find_name (n : string) (c : Catalog) : option CatalogDatabase :=
  List.find (λ d, String.eqb (name d) n) (databases c).

Definition has_name (n : string) (c : Catalog) : bool :=
  existsb (λ d, String.eqb (name d) n) (databases c).

(** The first entry with identity [i] renamed, and that entry: the
    [iter_mut().find(..)] of [rename_database]. *)
Fixpoint rename_entry (i n : string) (l : list CatalogDatabase)
    : option (list CatalogDatabase * CatalogDatabase) :=
  match l with
  | [] => None
  | d :: l' =>
      if String.eqb (id d) i then
        let d' := mkCatalogDatabase (id d) n (state d) in Some (d' :: l', d')
      else
        match rename_entry i n l' with
        | Some (l'', d') => Some (d :: l'', d')
        | None => None
        end
  end.

Definition without_id (i : string) (l : list CatalogDatabase) : list CatalogDatabase :=
  List.filter (λ d, negb (String.eqb (id d) i)) l.

(** [format!("{:016x}", checksum)] *)
Fixpoint hex_digits (n : nat) (z : Z) : string :=
  match n with
  | O => ""
  | S n' => hex_digits n' (Z.shiftr z 4) +:+ String (digit (Z.land z 15)) ""
  end.

(** ** The logical package document *)

(** [serde_json::to_value(LogicalPackageDocument::from(package))] *)
Definition module_document (m : LogicalModule) : Value :=
  object [("path", Str (module_path m)); ("stable_module_id", Str (module_id m));
          ("source", Str (module_source m))].

Definition package_document (p : LogicalPackage) : Value :=
  object [("package_version", json_int (package_version p)); ("language_version", json_int 1);
          ("settings", Str (package_settings p));
          ("modules", Array (map module_document (package_modules p)))].

Section daemon.
Context `{!Engine, !Uuid, !Json Catalog, !Json OperationJournal, !PrepareWrite, !FloatCast}.

(** ** State *)

Record ManagedDatabase : Type := mkManagedDatabase {
  handle_id : string;
  handle_path : path;
  handle_database : option edb
}.

Record DatabaseDaemon : Type := mkDatabaseDaemon {
  daemon_config : DaemonConfig;
  daemon_credentials : Credentials;
  daemon_catalog : CatalogStore;
  daemon_databases : gmap string ManagedDatabase
}.

Definition set_catalog (s : CatalogStore) (d : DatabaseDaemon) : DatabaseDaemon :=
  mkDatabaseDaemon (daemon_config d) (daemon_credentials d) s (daemon_databases d).

Definition set_databases (m : gmap string ManagedDatabase) (d : DatabaseDaemon) : DatabaseDaemon :=
  mkDatabaseDaemon (daemon_config d) (daemon_credentials d) (daemon_catalog d) m.

Definition set_database (db : option edb) (h : ManagedDatabase) : ManagedDatabase :=
  mkManagedDatabase (handle_id h) (handle_path h) db.

(** The current catalog and the data directory: the root of the catalog store
    is the configured data directory, which [open] loads it from. *)
Definition entries (d : DatabaseDaemon) : Catalog := catalog (daemon_catalog d).
Definition directory_root (d : DatabaseDaemon) : path := root (daemon_catalog d).

(** What a method gives. *)
Definition outcome (A : Type) : Type := result A ProtocolFailure * DatabaseDaemon.

(** A failure that leaves the daemon's memory as it is. *)
Definition fail {A} (e : ProtocolFailure) (d : DatabaseDaemon) : io (outcome A) := ret (Err e, d).

(** ** Looking things up *)

Definition list_databases (d : DatabaseDaemon) : result (list DatabaseSummary) ProtocolFailure :=
  Ok (map summary (databases (entries d))).

Definition select_database (n : string) (d : DatabaseDaemon)
    : result DatabaseSummary ProtocolFailure :=
  match find_name n (entries d) with
  | Some e => Ok (summary e)
  | None => Err (not_found n)
  end.

Definition entry (n : string) (d : DatabaseDaemon) : result CatalogDatabase ProtocolFailure :=
  ok_or (find_name n (entries d)) (not_found n).

Definition handle (i : string) (d : DatabaseDaemon) : result ManagedDatabase ProtocolFailure :=
  ok_or (daemon_databases d !! i) unavailable.

Definition handle_for_name (n : string) (d : DatabaseDaemon) : result ManagedDatabase ProtocolFailure :=
  let^ e := entry n d in handle (id e) d.

Definition handle_for_selected_id (i : string) (d : DatabaseDaemon)
    : result ManagedDatabase ProtocolFailure :=
  if existsb (λ e, String.eqb (id e) i) (databases (entries d)) then handle i d
  else Err (failure DatabaseNotFound
              "the selected Database no longer exists; select a Database again").

(** Runs [f] on the open database behind a handle and stores it back. *)
Definition with_database {A} (h : result ManagedDatabase ProtocolFailure) (d : DatabaseDaemon)
    (f : ManagedDatabase → edb → io (result A ProtocolFailure * edb)) : io (outcome A) :=
  match h with
  | Err e => fail e d
  | Ok h =>
      match handle_database h with
      | None => fail unavailable d
      | Some db =>
          let* (r, db') := f h db in
          ret (r, set_databases (<[handle_id h := set_database (Some db') h]> (daemon_databases d)) d)
      end
  end.

(** ** Lifecycle *)

Definition invalid_name : ProtocolFailure :=
  failure InvalidDatabaseName "Database names must match [a-z][a-z0-9_-]{0,62}".

Definition already_exists (n : string) : ProtocolFailure :=
  failure DatabaseAlreadyExists ("Database `" +:+ n +:+ "` already exists").

(** The operation is committed: a failed cleanup of its journal is only logged. *)
Definition preserve_committed_lifecycle_result {T} (value : T) (operation : string)
    (cleanup : result unit ServerError) : T := value.

(** The new Database's storage is in place: its entry is committed. *)
Definition commit_create (new_id n : string) (p : path) (db : edb) (d : DatabaseDaemon)
    : io (outcome DatabaseSummary) :=
  let directory := database_directory (directory_root d) new_id in
  let e := mkCatalogDatabase new_id n "ready" in
  let next := mkCatalog (catalog_version (entries d))
                (sort_by_name (databases (entries d) ++ [e])) in
  let* (r, store) := transition (daemon_catalog d) next Create new_id in
  match r with
  | Err text =>
      let* _ := engine_close db in
      let target := join (join (directory_root d) "recovery") ("failed-create-" +:+ new_id) in
      let* _ := rename directory target in
      ret (Err (internal text), set_catalog store d)
  | Ok _ =>
      let d := set_databases
                 (<[new_id := mkManagedDatabase new_id p (Some db)]> (daemon_databases d))
                 (set_catalog store d) in
      let* cleanup := finish_transition store in
      ret (Ok (preserve_committed_lifecycle_result (summary e) "create" cleanup), d)
  end.

(** [new_id] is what [Uuid::new_v4] gives. *)
Definition create_database (new_id n : string) (d : DatabaseDaemon) : io (outcome DatabaseSummary) :=
  if negb (valid_database_name n) then fail invalid_name d
  else if has_name n (entries d) then fail (already_exists n) d
  else
    let root := directory_root d in
    let directory := database_directory root new_id in
    let* r := create_dir directory in
    match r with
    | Err e => fail (internal (io_text e)) d
    | Ok _ =>
        let p := database_path root new_id in
        let* r := engine_create p in
        match r with
        | Err e =>
            let* _ := remove_dir directory in
            fail (database_failure e None) d
        | Ok db =>
            commit_create new_id n p db d
        end
    end.

(** The [None] of [rename_entry] is the panic of the source's [expect]; it
    cannot happen, since the copied catalog holds the entry just found. *)
Definition rename_database (n new_name : string) (d : DatabaseDaemon)
    : io (outcome DatabaseSummary) :=
  if negb (valid_database_name new_name) then fail invalid_name d
  else if has_name new_name (entries d) then fail (already_exists new_name) d
  else
    match find_name n (entries d) with
    | None => fail (not_found n) d
    | Some existing =>
        match rename_entry (id existing) new_name (databases (entries d)) with
        | None => fail (internal "copied catalog contains the selected Database") d
        | Some (renamed, updated) =>
            let next := mkCatalog (catalog_version (entries d)) (sort_by_name renamed) in
            let* (r, store) := transition (daemon_catalog d) next Rename (id existing) in
            match r with
            | Err text => ret (Err (internal text), set_catalog store d)
            | Ok _ =>
                let* cleanup := finish_transition store in
                ret (Ok (preserve_committed_lifecycle_result (summary updated) "rename" cleanup),
                     set_catalog store d)
            end
        end
    end.

(** The Database is closed and its handle gone: its entry is removed and its
    directory goes to the trash; on a failed transition it is reopened. *)
Definition commit_drop (e : CatalogDatabase) (h : ManagedDatabase) (d : DatabaseDaemon)
    : io (outcome DatabaseSummary) :=
  let next := mkCatalog (catalog_version (entries d)) (without_id (id e) (databases (entries d))) in
  let* (r, store) := transition (daemon_catalog d) next Drop (id e) in
  let d := set_catalog store d in
  match r with
  | Err text =>
      let* r := engine_open (handle_path h) in
      match r with
      | Err oe =>
          fail (internal ("catalog drop failed (" +:+ text
            +:+ ") and Database could not reopen: " +:+ database_error_text oe)) d
      | Ok db =>
          ret (Err (internal text),
               set_databases (<[id e := set_database (Some db) h]> (daemon_databases d)) d)
      end
  | Ok _ =>
      let* r := rename (database_directory (directory_root d) (id e))
                       (trash_directory (directory_root d) (id e)) in
      match r with
      | Err io => fail (internal (io_text io)) d
      | Ok _ =>
          let* cleanup := finish_transition store in
          ret (Ok (preserve_committed_lifecycle_result (summary e) "drop" cleanup), d)
      end
  end.

Definition drop_database (n confirm_name : string) (d : DatabaseDaemon)
    : io (outcome DatabaseSummary) :=
  if negb (String.eqb n confirm_name) then
    fail (failure ProtocolViolation "confirm_name must exactly equal the Database name") d
  else
    match find_name n (entries d) with
    | None => fail (not_found n) d
    | Some e =>
        let trash := trash_directory (directory_root d) (id e) in
        let* occupied := query (λ fs, exists_ fs trash) in
        if (occupied : bool) then fail (internal "Database trash target already exists") d
        else
          match daemon_databases d !! id e with
          | None => fail (internal "managed Database handle is missing") d
          | Some h =>
              match handle_database h with
              | None => fail unavailable d
              | Some db =>
                  let* (r, db) := engine_checkpoint db in
                  match r with
                  | Err err =>
                      ret (Err (database_failure err None),
                           set_databases (<[id e := set_database (Some db) h]> (daemon_databases d)) d)
                  | Ok _ =>
                      let* _ := engine_close db in
                      let d := set_databases (delete (id e) (daemon_databases d)) d in
                      commit_drop e h d
                  end
              end
          end
    end.

(** ** Inspection and queries *)

Definition inspect_database (n : string) (d : DatabaseDaemon) : io (result DatabaseDetails ProtocolFailure) :=
  match entry n d with
  | Err e => ret (Err e)
  | Ok e =>
      match handle (id e) d with
      | Err err => ret (Err err)
      | Ok h =>
          match handle_database h with
          | None => ret (Err unavailable)
          | Some db =>
              let fails := λ err, database_failure err None in
              let? info := io_map_err fails (engine_info db) in
              let? counts := io_map_err fails (engine_counts db) in
              let? healthy := io_map_err fails (engine_check db) in
              ret (Ok (mkDatabaseDetails (summary e) (info_ndb_format_version info)
                (info_schema_revision info) (info_generation info)
                (hex_digits 16 (info_logical_checksum info)) healthy
                (count_schemas counts) (count_nodes counts) (count_edges counts)))
          end
      end
  end.

Definition execute_selected (i q : string) (ps : list (string * Value)) (read_only : bool)
    (requested : option WireQueryLimits) (cancelled : bool) (d : DatabaseDaemon)
    : io (outcome StatementResult) :=
  if read_only && prepare_write_ok q then
    fail (failure QueryError "read_only request rejected a mutating query") d
  else
    match parameters ps with
    | Err message => fail (failure QueryError message) d
    | Ok ps =>
        with_database (handle_for_selected_id i d) d (λ _ db,
          let limits := lower_limits (query_limits (daemon_config d)) requested in
          let* (r, db') := engine_execute_limited db q ps limits cancelled in
          ret (map_err (λ e, database_failure e (Some cancelled)) r, db'))
    end.

Definition execute_selected_transaction (i : string)
    (statements : list (string * list (string * Value))) (cancelled : bool) (d : DatabaseDaemon)
    : io (outcome (list StatementResult)) :=
  match collect (map (λ '(q, ps), map_err (failure QueryError) (map_ok (pair q) (parameters ps)))
                   statements) with
  | Err e => fail e d
  | Ok statements =>
      with_database (handle_for_selected_id i d) d (λ _ db,
        let* (r, db') := engine_execute_transaction_limited db statements
                           (query_limits (daemon_config d)) cancelled in
        ret (map_err (λ e, database_failure e (Some cancelled)) r, db'))
  end.

Definition export_snapshot (n : string) (d : DatabaseDaemon) : io (outcome bytes) :=
  with_database (handle_for_name n d) d (λ h db,
    let* (r, db') := engine_checkpoint db in
    match r with
    | Err e => ret (Err (database_failure e None), db')
    | Ok _ =>
        let* r := read (handle_path h) in
        ret (map_err (λ e, internal (io_text e)) r, db')
    end).

Definition export_logical (n : string) (d : DatabaseDaemon) : io (result Value ProtocolFailure) :=
  match handle_for_name n d with
  | Err e => ret (Err e)
  | Ok h =>
      match handle_database h with
      | None => ret (Err unavailable)
      | Some db =>
          let? package := io_map_err (failure QueryError) (engine_export_logical db) in
          ret (Ok (package_document package))
      end
  end.
End daemon.
