(* ===== verification/DaemonProofs.v ===== *)
(** * Properties of the daemon's lifecycle operations

    [daemon_ok] relates the daemon's memory to a settled data directory; create,
    rename and drop keep it and survive crashes; and a concrete daemon. *)

From Stdlib Require Import ZArith Lia Ascii.
From stdpp Require Import base list strings gmap sorting.
From S2P Require Import Prelude Fs Codec Catalog CatalogProofs CatalogAtomic CatalogRecovery.
From S2P Require Import CatalogTheorems Wire Messages Config Protocol Engine Daemon.

Open Scope string_scope.
Open Scope list_scope.

(** ** Limits *)

(** A client can only lower the server's limits: whatever a request asks for,
    every limit the engine gets is at most the configured one, and at most the
    requested one where the request names one; a request without limits runs
    under the configured ones. *)
Theorem lower_limits_only_lowers defaults requested :
  let l := lower_limits defaults requested in
  (limit_rows l <= limit_rows defaults ∧ limit_memory_bytes l <= limit_memory_bytes defaults
   ∧ limit_operations l <= limit_operations defaults
   ∧ limit_traversals l <= limit_traversals defaults)%Z
  ∧ match requested with
    | None => l = defaults
    | Some r =>
        (∀ v, wire_max_rows r = Some v → limit_rows l = Z.min (limit_rows defaults) v)
        ∧ (∀ v, wire_max_memory_bytes r = Some v →
             limit_memory_bytes l = Z.min (limit_memory_bytes defaults) v)
        ∧ (∀ v, wire_max_operations r = Some v →
             limit_operations l = Z.min (limit_operations defaults) v)
        ∧ (∀ v, wire_max_traversals r = Some v →
             limit_traversals l = Z.min (limit_traversals defaults) v)
    end.
Proof.
  assert (∀ d o, (lowered d o <= d)%Z) as Hle by (intros d [v|]; simpl; lia).
  destruct requested as [[[] [] [] []]|]; simpl; split_and!; try done; try lia; naive_solver.
Qed.

(** ** Catalog entries *)

Lemma insert_by_name_perm d l : insert_by_name d l ≡ₚ d :: l.
Proof.
  induction l as [|d' l IH]; simpl; [done|]. destruct (String.ltb _ _); [|done].
  rewrite IH. apply Permutation_swap.
Qed.

Lemma sort_by_name_perm l : sort_by_name l ≡ₚ l.
Proof. induction l as [|d l IH]; simpl; [done|]. by rewrite insert_by_name_perm, IH. Qed.

Lemma insert_by_name_sorted d l :
  StronglySorted string_lt (name <$> l) → name d ∉ name <$> l →
  StronglySorted string_lt (name <$> insert_by_name d l).
Proof.
  induction l as [|d' l IH]; simpl; [repeat constructor|]. intros Hs Hn.
  inversion Hs as [|? ? Hs' Hall]; subst. rewrite not_elem_of_cons in Hn. destruct Hn as [Hne Hn].
  destruct (String.ltb (name d') (name d)) eqn:Hlt; simpl.
  - constructor; [by apply IH|]. rewrite Forall_forall in *.
    intros x (y & -> & Hy)%list_elem_of_fmap. rewrite insert_by_name_perm in Hy.
    apply elem_of_cons in Hy as [->|Hy]; [done|]. apply Hall. by apply list_elem_of_fmap_2.
  - assert (string_lt (name d) (name d')) as Hdd by (by apply string_lt_total).
    constructor; [done|]. constructor; [done|]. eapply Forall_impl; [exact Hall|].
    intros x Hx. by etrans.
Qed.

Lemma sort_by_name_sorted l :
  NoDup (name <$> l) → StronglySorted string_lt (name <$> sort_by_name l).
Proof.
  induction l as [|d l IH]; simpl; [constructor|]. rewrite NoDup_cons. intros [Hd Hnd].
  apply insert_by_name_sorted; [by apply IH|]. by rewrite sort_by_name_perm.
Qed.

Lemma find_name_Some n c e :
  find_name n c = Some e → e ∈ databases c ∧ name e = n.
Proof.
  intros [Hin Hn%String.eqb_eq]%find_some. split; [by apply list_elem_of_In|done].
Qed.

Lemma has_name_false n c : has_name n c = false → n ∉ name <$> databases c.
Proof.
  intros Hf (e & -> & Hin)%list_elem_of_fmap. apply not_true_iff_false in Hf. apply Hf.
  apply existsb_exists. exists e. rewrite String.eqb_refl. split; [by apply list_elem_of_In|done].
Qed.

(** Renaming an entry changes one name and nothing else. *)
Lemma rename_entry_spec i n l l' d :
  rename_entry i n l = Some (l', d) →
  id <$> l' = id <$> l ∧ id d = i ∧ name d = n ∧ d ∈ l'
  ∧ (∀ x, x ∈ l' → x = d ∨ x ∈ l)
  ∧ (∃ old, old ∈ l ∧ id old = i ∧ state d = state old)
  ∧ (NoDup (name <$> l) → n ∉ name <$> l → NoDup (name <$> l')).
Proof.
  revert l'. induction l as [|x l IH]; intros l'; simpl; [done|].
  destruct (String.eqb_spec (id x) i) as [Hx|Hx].
  - intros [= <- <-]. simpl. split_and!; try done.
    + by left.
    + intros y [->|Hy]%elem_of_cons; [by left|right; by right].
    + exists x. split; [by left|done].
    + rewrite !NoDup_cons, not_elem_of_cons. intros [_ Hnd] [_ Hn]. done.
  - destruct (rename_entry i n l) as [[l1 d1]|]; [|done]. intros [= <- <-].
    destruct (IH l1 eq_refl) as (Hids & Hi & Hn & Hin & Hsub & (old & Ho & Hoi & Hos) & Hnd).
    simpl. split_and!; try done.
    + f_equal. exact Hids.
    + by right.
    + intros y [->|Hy]%elem_of_cons; [right; by left|].
      destruct (Hsub y Hy); [by left|right; by right].
    + exists old. split; [by right|done].
    + rewrite !NoDup_cons, not_elem_of_cons. intros [Hxn Hnd'] [Hne Hnn]. split; [|by apply Hnd].
      intros (y & Hy & Hyin)%list_elem_of_fmap. destruct (Hsub y Hyin) as [->|Hyl].
      * congruence.
      * apply Hxn. rewrite Hy. by apply list_elem_of_fmap_2.
Qed.

Lemma rename_entry_finds i n l : i ∈ id <$> l → is_Some (rename_entry i n l).
Proof.
  induction l as [|x l IH]; simpl; [by intros ?%elem_of_nil|].
  destruct (String.eqb_spec (id x) i) as [|Hne]; [by eexists|].
  intros [->|Hin]%elem_of_cons; [done|]. destruct (IH Hin) as [[l' d] ->]. by eexists.
Qed.

Section validity.
Context `{!Uuid}.
Implicit Types (c : Catalog).

Lemma valid_reordered v l :
  v = CATALOG_VERSION → Forall valid_entry l → NoDup (id <$> l) → NoDup (name <$> l) →
  valid_catalog (mkCatalog v (sort_by_name l)).
Proof.
  intros -> He Hi Hn. split; simpl; [done| | |by apply sort_by_name_sorted].
  - by rewrite sort_by_name_perm.
  - by rewrite sort_by_name_perm.
Qed.

Lemma valid_created c i n :
  valid_catalog c → uuid_parse_ok i = true → valid_database_name n = true →
  i ∉ id <$> databases c → has_name n c = false →
  valid_catalog (mkCatalog (catalog_version c)
    (sort_by_name (databases c ++ [mkCatalogDatabase i n "ready"]))).
Proof.
  intros [Hv He Hi Hs] Hu Hn Hfresh Hnew%has_name_false. apply valid_reordered; [done|..].
  - apply Forall_app. split; [done|]. constructor; [done|constructor].
  - rewrite fmap_app. apply NoDup_app. split_and!; [done| |apply NoDup_singleton].
    intros x Hx ->%list_elem_of_singleton. done.
  - rewrite fmap_app. apply NoDup_app. split_and!; [by apply sorted_nodup| |apply NoDup_singleton].
    intros x Hx ->%list_elem_of_singleton. done.
Qed.

Lemma valid_renamed c i n l d :
  valid_catalog c → valid_database_name n = true → has_name n c = false →
  rename_entry i n (databases c) = Some (l, d) →
  valid_catalog (mkCatalog (catalog_version c) (sort_by_name l)).
Proof.
  intros [Hv He Hi Hs] Hn Hnew%has_name_false Hr.
  destruct (rename_entry_spec _ _ _ _ _ Hr) as (Hids & Hid & Hname & _ & Hsub & (old & Ho & Hoi & Hos) & Hnd).
  rewrite Forall_forall in He. apply valid_reordered; [done|..].
  - apply Forall_forall. intros x [->|Hx]%Hsub; [|by apply He].
    destruct (He old Ho). split; congruence.
  - by rewrite Hids.
  - apply Hnd; [by apply sorted_nodup|done].
Qed.

Lemma StronglySorted_filter {A} (R : A → A → Prop) {B} (f : B → A) (p : B → bool) l :
  StronglySorted R (f <$> l) → StronglySorted R (f <$> List.filter p l).
Proof.
  induction l as [|x l IH]; simpl; [done|]. intros Hs. inversion Hs as [|? ? Hs' Hall]; subst.
  destruct (p x); simpl; [|by apply IH]. constructor; [by apply IH|].
  rewrite Forall_forall in *. intros y (z & -> & Hz%list_elem_of_In%filter_In)%list_elem_of_fmap.
  apply Hall, list_elem_of_fmap_2, list_elem_of_In, Hz.
Qed.

Lemma elem_of_without_id i (l : list CatalogDatabase) x :
  x ∈ without_id i l ↔ x ∈ l ∧ id x ≠ i.
Proof.
  unfold without_id. rewrite !list_elem_of_In, filter_In, negb_true_iff, String.eqb_neq. done.
Qed.

Lemma valid_dropped c i :
  valid_catalog c →
  valid_catalog (mkCatalog (catalog_version c) (without_id i (databases c))).
Proof.
  intros [Hv He Hi Hs]. split; simpl; [done| | |].
  - rewrite Forall_forall in *. intros x [Hx _]%elem_of_without_id. by apply He.
  - unfold without_id. clear He Hs. induction (databases c) as [|x l IH]; simpl in *; [done|].
    apply NoDup_cons in Hi as [Hx Hi]. destruct (negb _); simpl; [|by apply IH].
    apply NoDup_cons. split; [|by apply IH].
    intros (y & Hy & Hin%list_elem_of_In%filter_In)%list_elem_of_fmap. apply Hx. rewrite Hy.
    apply list_elem_of_fmap_2, list_elem_of_In, Hin.
  - by apply StronglySorted_filter.
Qed.
End validity.

(** ** Committing a lifecycle transition *)

Section lifecycle.
Context `{!Engine, !EngineLaws, !Uuid, !Json Catalog, !Json OperationJournal,
          !JsonLaws Catalog, !JsonLaws OperationJournal}.
Context (r : path).
Implicit Types (fs : fsys) (c next : Catalog) (d : DatabaseDaemon).

Abbreviation S_ := (join r STATE_FILE).
Abbreviation N_ := (join r PENDING_FILE).
Abbreviation V_ := (join r PREVIOUS_FILE).
Abbreviation J_ := (join r OPERATION_FILE).
Abbreviation I_ := (join (join r "recovery") "interrupted-catalog.pending").
Abbreviation dir_ n := (database_directory r n).

(** The catalog [c] is installed; only the journal may be left to clear. *)
Definition committed fs c : Prop := recoverable r fs c ∧ stores fs S_ c ∧ fs !! N_ = None.

Lemma journal_not_directory fs c : recoverable r fs c → is_dir fs J_ = false.
Proof.
  intros [_ _ _ _ _ _ [HJ|(j & (b & Hb & _) & _)]]; unfold is_dir; [by rewrite HJ|].
  apply content_Some in Hb as [m ->]. done.
Qed.

Lemma finish_spec m store fs c :
  root store = r → committed fs c →
  wp m (finish_transition store) fs
    (λ res fs', recoverable r fs' c ∧ (is_ok res = true → settled r fs' c)
                ∧ (errors m = false → is_ok res = true) ∧ same_except [J_] fs fs')
    (λ fs', recoverable r fs' c).
Proof.
  intros Hroot (Hrc & Hs & HN). unfold finish_transition. rewrite Hroot.
  pose proof (journal_not_directory _ _ Hrc) as HJ.
  apply wp_remove_if_exists; [done| | |done]; cycle 1.
  { intros He e. split_and!; [done|done|congruence|apply same_except_refl]. }
  destruct Hrc as [Ht Hval Hd HV HNd HI _].
  assert (tree_ok r (delete J_ fs) c) as Ht'.
  { eapply tree_ok_frame; [|exact Ht]. auto with nostdb. }
  assert (stores (delete J_ fs) S_ c) as Hs' by (unfold stores, content; fs_simpl; exact Hs).
  split_and!; [| |done|]; cycle 2.
  { auto with nostdb. }
  - split; unfold is_dir; fs_simpl; try done; [by left|auto..].
  - intros _. split; [done|done|]. split; unfold is_dir; fs_simpl; try done. apply Ht.
Qed.

Lemma transition_committed m store next k i fs :
  root store = r → prepared r fs (catalog store) next k i →
  wp m (transition store next k i) fs
    (λ '(res, store') fs',
       match res with
       | Ok _ => store' = mkCatalogStore r next ∧ committed fs' next
                 ∧ same_except [S_; V_; N_; J_] fs fs'
       | Err _ => errors m = true ∧ store' = store ∧ interrupted r fs' (catalog store) next
       end)
    (λ fs', interrupted r fs' (catalog store) next).
Proof.
  intros Hroot Hp. pose proof Hp as [[Ht Hv Hrest] Hval Ht' Hset HI].
  eapply wp_mono; [by apply (transition_spec r)| |].
  - intros [[[]|e] store'] fs'.
    + intros (-> & Hh & Hs & Hj & HN). split; [done|]. split; [|apply Hh].
      split_and!; [|done|done]. eapply holds_recoverable; [exact (pr_before _ _ _ _ _ _ Hp)|done..|by right].
    + intros (He & -> & Hu). split_and!; [done|done|]. by eapply unfinished_interrupted.
  - intros fs' Hu. by eapply unfinished_interrupted.
Qed.

(** The catalog of a running daemon is the durable one. *)
Record daemon_ok fs d : Prop := {
  dk_root : directory_root d = r;
  dk_settled : settled r fs (entries d);
  dk_interrupted : fs !! I_ = None
}.

Lemma recoverable_interrupted fs c next : recoverable r fs next → interrupted r fs c next.
Proof. intros Hrc. right. by left. Qed.

Lemma tree_ok_same_ids fs c c' :
  (∀ n, n ∈ ids c' ↔ n ∈ ids c) → tree_ok r fs c → tree_ok r fs c'.
Proof.
  intros Hids []. split; try done.
  - intros n Hn%Hids. by apply to_storage.
  - intros n Hn. apply to_orphans. by rewrite <-Hids.
Qed.

(** ** Renaming *)

(** The catalog [rename_database] asks for. *)
Definition renamed (n new_name : string) (c : Catalog) : Catalog :=
  match find_name n c with
  | Some e =>
      match rename_entry (id e) new_name (databases c) with
      | Some (l, _) => mkCatalog (catalog_version c) (sort_by_name l)
      | None => c
      end
  | None => c
  end.

Lemma without_id_absent i (l : list CatalogDatabase) : i ∉ id <$> l → without_id i l = l.
Proof.
  induction l as [|x l IH]; simpl; [done|]. rewrite not_elem_of_cons. intros [Hne Hl].
  destruct (String.eqb_spec (id x) i); [done|]. simpl. by rewrite IH.
Qed.

Lemma rename_entry_perm i n l l' e :
  NoDup (id <$> l) → rename_entry i n l = Some (l', e) → l' ≡ₚ e :: without_id i l.
Proof.
  revert l'. induction l as [|x l IH]; intros l'; simpl; [done|]. rewrite NoDup_cons.
  intros [Hx Hnd]. destruct (String.eqb_spec (id x) i) as [<-|Hne]; simpl.
  - intros [= <- <-]. by rewrite without_id_absent.
  - destruct (rename_entry i n l) as [[l1 d1]|]; [|done]. intros [= <- <-].
    rewrite (IH l1) by done. apply Permutation_swap.
Qed.

Lemma renamed_prepared fs d n new_name e l e' :
  daemon_ok fs d → valid_database_name new_name = true → has_name new_name (entries d) = false →
  find_name n (entries d) = Some e →
  rename_entry (id e) new_name (databases (entries d)) = Some (l, e') →
  let next := mkCatalog (catalog_version (entries d)) (sort_by_name l) in
  prepared r fs (entries d) next Rename (id e) ∧ valid_catalog next
  ∧ e' = mkCatalogDatabase (id e) new_name "ready"
  ∧ databases next ≡ₚ e' :: without_id (id e) (databases (entries d)).
Proof.
  intros [_ Hst HI] Hv Hn Hf Hr next.
  pose proof Hst as [Ht Hval%validate_catalog_valid Hrest].
  pose proof (valid_renamed _ _ _ _ _ Hval Hv Hn Hr) as Hnext.
  destruct (rename_entry_spec _ _ _ _ _ Hr) as (Hids & Hid & Hname & _ & _ & (old & Ho & Hoi & Hos) & _).
  split_and!; [|done| |].
  - split; [done|by apply validate_catalog_valid| |split; [done|by right]|done].
    eapply tree_ok_same_ids; [|exact Ht]. intros i. unfold ids, next. simpl.
    by rewrite sort_by_name_perm, Hids.
  - destruct Hval as [_ He _ _]. rewrite Forall_forall in He. destruct (He old Ho) as [_ _ Hready].
    destruct e' as [i' n' s']. simpl in *. congruence.
  - unfold next. simpl. rewrite sort_by_name_perm. eapply rename_entry_perm; [apply Hval|done].
Qed.

(** C21: Renaming a Database is atomic.  Under every schedule of I/O errors and
    crashes: a successful rename has replaced exactly the one entry, with the
    same identity and the new name, in the catalog in memory, and a restart
    recovers that catalog; a failed one leaves the daemon's memory as it was,
    and after a failure or a crash a restart recovers the catalog before or
    after the rename (or finds the torn-journal state).  The entry being renamed
    is always found in the copied catalog, so the [expect] there never fires. *)
Theorem rename_database_atomic n new_name d w :
  daemon_ok (w_fs w) d →
  let next := renamed n new_name (entries d) in
  (∀ e, find_name n (entries d) = Some e →
     is_Some (rename_entry (id e) new_name (databases (entries d)))) ∧
  match rename_database n new_name d w with
  | (Some (Ok s, d'), w') =>
      ∃ e, find_name n (entries d) = Some e
        ∧ s = mkDatabaseSummary (id e) new_name "ready"
        ∧ databases next ≡ₚ mkCatalogDatabase (id e) new_name "ready"
                             :: without_id (id e) (databases (entries d))
        ∧ valid_catalog next
        ∧ d' = set_catalog (mkCatalogStore r next) d ∧ recoverable r (w_fs w') next
  | (Some (Err f, d'), w') => d' = d ∧ interrupted r (w_fs w') (entries d) next
  | (None, w') => interrupted r (w_fs w') (entries d) next
  end.
Proof.
  intros Hd next. pose proof Hd as [Hroot Hst HI].
  assert (∀ e, find_name n (entries d) = Some e →
    is_Some (rename_entry (id e) new_name (databases (entries d)))) as Hfound.
  { intros e [Hin _]%find_name_Some. apply rename_entry_finds. by apply list_elem_of_fmap_2. }
  split; [done|].
  assert (interrupted r (w_fs w) (entries d) next) as Hnow.
  { left. pose proof Hst as [? ? []]. split; try done; [by left|unfold is_dir; by rewrite ar_pending|
      by left|by left]. }
  enough (wp Hostile (rename_database n new_name d) (w_fs w)
    (λ '(res, d') fs', match res with
       | Ok s => ∃ e, find_name n (entries d) = Some e
           ∧ s = mkDatabaseSummary (id e) new_name "ready"
           ∧ databases next ≡ₚ mkCatalogDatabase (id e) new_name "ready"
                                :: without_id (id e) (databases (entries d))
           ∧ valid_catalog next
           ∧ d' = set_catalog (mkCatalogStore r next) d ∧ recoverable r fs' next
       | Err _ => d' = d ∧ interrupted r fs' (entries d) next
       end) (λ fs', interrupted r fs' (entries d) next)) as Hwp.
  { specialize (Hwp w I eq_refl). destruct (rename_database n new_name d w) as [[[[s|f] d']|] w'];
      apply Hwp. }
  unfold rename_database. destruct (valid_database_name new_name) eqn:Hv; simpl; [|by apply wp_ret].
  destruct (has_name new_name (entries d)) eqn:Hn; [by apply wp_ret|].
  destruct (find_name n (entries d)) as [e|] eqn:Hf; [|by apply wp_ret].
  destruct (Hfound e eq_refl) as [[l e'] Hr]. rewrite Hr.
  destruct (renamed_prepared _ _ _ _ _ _ _ Hd Hv Hn Hf Hr) as (Hp & Hnext & -> & Hperm).
  assert (next = mkCatalog (catalog_version (entries d)) (sort_by_name l)) as Heq.
  { unfold next, renamed. by rewrite Hf, Hr. }
  rewrite <-Heq in *. apply wp_bind.
  eapply wp_mono; [by apply transition_committed| |done].
  intros [[[]|text] store] fs'.
  - intros (-> & Hcm & _). apply wp_bind. eapply wp_mono; [by apply finish_spec| |].
    + intros res fs2 (Hrc & _). apply wp_ret. exists e. by split_and!.
    + intros fs2 Hrc. by apply recoverable_interrupted.
  - intros (_ & -> & Hint). apply wp_ret. split; [by destruct d|done].
Qed.

(** ** Creating *)

Lemma sidecar_join p n : sidecar (join p n) = join p (n +:+ ".lock").
Proof. unfold sidecar, join. rewrite rev_app_distr. simpl. by rewrite rev_involutive. Qed.

(** The two files of a Database lie in its directory. *)
Lemma own_files_inside i fs fs' :
  own_files (database_path r i) fs fs' → same_outside [dir_ i] fs fs'.
Proof.
  intros Hown k Hk. apply Hown. unfold database_path. rewrite sidecar_join.
  specialize (Hk (dir_ i) ltac:(by left)).
  rewrite !not_elem_of_cons. split_and!; [| |apply not_elem_of_nil];
    intros ->; apply Hk; unfold join; by apply prefix_app_r.
Qed.

(** A new identity: nothing stored under it, in use or set aside. *)
Record fresh_id fs (i : string) : Prop := {
  fi_uuid : uuid_parse_ok i = true;
  fi_vacant : vacant fs (dir_ i);
  fi_orphan : vacant fs (join (join r "recovery") ("orphan-" +:+ i))
}.

Lemma fresh_id_unknown fs c i : settled r fs c → fresh_id fs i → i ∉ ids c.
Proof.
  intros [Ht _ _] [_ Hv _] Hin. destruct (to_storage _ _ _ Ht i Hin) as [Hd _].
  specialize (Hv []). rewrite app_nil_r in Hv. congruence.
Qed.

(** What happens below an unknown identity's directory leaves the state settled. *)
Lemma settled_inside i fs fs' c :
  settled r fs c → i ∉ ids c → vacant fs (join (join r "recovery") ("orphan-" +:+ i)) →
  same_outside [dir_ i] fs fs' → settled r fs' c.
Proof.
  intros [[T1 T2 T3 T4 T5 T6] Hv [A1 (b & A2 & A2') A3 A4 A5]] Hi Ho Hout.
  assert (∀ k, ¬ dir_ i `prefix_of` k → fs' !! k = fs !! k) as Hk.
  { intros k Hn. apply Hout. by intros ? ->%list_elem_of_singleton. }
  split; [|done|].
  - split; try (by rewrite Hk; [|pne]).
    + intros n Hn. assert (n ≠ i) by congruence. unfold is_file. rewrite !Hk by pne. by apply T5.
    + intros n Hn Hd s. destruct (decide (n = i)) as [->|Hne].
      * rewrite Hk by pne. apply Ho.
      * rewrite Hk in Hd by pne. rewrite Hk by pne. by apply T6.
  - split; unfold stores, content, is_dir; rewrite ?Hk by pne; try done. by exists b.
Qed.

Lemma daemon_ok_inside i fs fs' d :
  daemon_ok fs d → i ∉ ids (entries d) →
  vacant fs (join (join r "recovery") ("orphan-" +:+ i)) →
  same_outside [dir_ i] fs fs' → daemon_ok fs' d.
Proof.
  intros [Hr Hs HI] Hi Ho Hout. split; [done|by eapply settled_inside|].
  rewrite Hout; [done|]. intros ? ->%list_elem_of_singleton. pne.
Qed.

Lemma daemon_ok_recoverable fs d : daemon_ok fs d → recoverable r fs (entries d).
Proof.
  intros [_ [? ? []] _]. split; try done;
    [by left|unfold is_dir; by rewrite ar_pending|by left|by left].
Qed.

(** The catalog [create_database] asks for. *)
Definition created (i n : string) (c : Catalog) : Catalog :=
  mkCatalog (catalog_version c) (sort_by_name (databases c ++ [mkCatalogDatabase i n "ready"])).

Lemma created_perm i n c :
  databases (created i n c) ≡ₚ mkCatalogDatabase i n "ready" :: databases c.
Proof.
  unfold created. cbn [databases]. rewrite sort_by_name_perm, Permutation_app_comm. done.
Qed.

Lemma created_ids i n c x : x ∈ ids (created i n c) ↔ x = i ∨ x ∈ ids c.
Proof. unfold ids. rewrite created_perm. simpl. apply elem_of_cons. Qed.

(** With its storage in place the new entry can be committed. *)
Lemma created_prepared fs d i n :
  daemon_ok fs d → i ∉ ids (entries d) → uuid_parse_ok i = true →
  valid_database_name n = true → has_name n (entries d) = false →
  fs !! dir_ i = Some NDir → is_file fs (database_path r i) = true →
  prepared r fs (entries d) (created i n (entries d)) Create i
  ∧ valid_catalog (created i n (entries d)).
Proof.
  intros [_ Hst HI] Hi Hu Hv Hn Hd Hf.
  pose proof Hst as [Ht Hval%validate_catalog_valid Hrest].
  assert (valid_catalog (created i n (entries d))) as Hnext by (by apply valid_created).
  split; [|done]. split; [done|by apply validate_catalog_valid| | |done].
  - destruct Ht. split; try done.
    + intros x [->|Hx]%created_ids; [done|by apply to_storage].
    + intros x Hx. apply to_orphans. intros ?. apply Hx, created_ids. by right.
  - split; [done|]. right. split; [done|]. simpl. apply created_ids. by left.
Qed.

Lemma daemon_ok_committed fs d next fs' :
  daemon_ok fs d → settled r fs' next → fs' !! I_ = None →
  ∀ m, daemon_ok fs' (set_databases m (set_catalog (mkCatalogStore r next) d)).
Proof. intros [Hr _ _] Hs HI m. by split. Qed.

Lemma remove_dir_inside p fs : same_outside [p] fs (do_remove_dir p fs).2.
Proof.
  unfold do_remove_dir. intros k Hk. repeat case_match; try done. simpl.
  rewrite lookup_delete_ne; [done|]. intros <-. by apply (Hk p); [left|].
Qed.

(** What [create_database] ends with, and what it leaves when the process dies. *)
Definition create_post i n d fs (res : outcome DatabaseSummary) fs' : Prop :=
  same_outside [dir_ i; S_; V_; N_; J_] fs fs' ∧
  match res.1 with
  | Ok s =>
      s = mkDatabaseSummary i n "ready" ∧ valid_catalog (created i n (entries d))
      ∧ daemon_ok fs' res.2
      ∧ ∃ db, edb_path db = database_path r i
              ∧ res.2 = set_databases
                  (<[i := mkManagedDatabase i (database_path r i) (Some db)]> (daemon_databases d))
                  (set_catalog (mkCatalogStore r (created i n (entries d))) d)
  | Err _ => res.2 = d ∧ daemon_ok fs' d
  end.

Definition create_crash i n d fs' : Prop :=
  interrupted r fs' (entries d) (created i n (entries d)).

Lemma commit_create_spec i n db d fs0 fs :
  same_outside [dir_ i] fs0 fs → edb_path db = database_path r i → daemon_ok fs d → i ∉ ids (entries d) → uuid_parse_ok i = true →
  valid_database_name n = true → has_name n (entries d) = false →
  fs !! dir_ i = Some NDir → is_file fs (database_path r i) = true →
  wp CrashOnly (commit_create i n (database_path r i) db d) fs
    (create_post i n d fs0) (create_crash i n d).
Proof.
  intros Hout Hdb Hd Hi Hu Hv Hn Hdir Hfile.
  destruct (created_prepared fs d i n Hd Hi Hu Hv Hn Hdir Hfile) as [Hp Hnext].
  pose proof (dk_root _ _ Hd) as Hroot. unfold commit_create.
  apply wp_bind. eapply wp_mono; [by apply transition_committed| |done].
  intros [[[]|text] store] fs3; [|by intros (? & _)].
  intros (-> & Hcm & Hsame). apply wp_bind. eapply wp_mono; [by apply finish_spec| |].
  - intros res fs4 (Hrc & Hset & Hok & Hsame4). apply wp_ret. split; [|split_and!; [done|done| |by exists db]].
    + apply (same_outside_trans _ _ fs); [eapply same_outside_mono; [|exact Hout]; set_solver|].
      apply (same_outside_trans _ _ fs3); eapply same_except_outside; [|done| |done]; set_solver.
    + apply (daemon_ok_committed fs); [done|by apply Hset, Hok|].
      rewrite Hsame4, Hsame by not_in. apply Hd.
  - intros fs4 Hrc. by apply recoverable_interrupted.
Qed.

Lemma create_database_spec i n d fs :
  daemon_ok fs d → fresh_id fs i →
  wp CrashOnly (create_database i n d) fs (create_post i n d fs) (create_crash i n d).
Proof.
  intros Hd Hfresh. pose proof Hd as [Hroot Hst HI].
  pose proof (fresh_id_unknown _ _ _ Hst Hfresh) as Hi. destruct Hfresh as [Hu Hvac Hor].
  unfold create_database. destruct (valid_database_name n) eqn:Hv; simpl;
    [|apply wp_ret; split; [auto with nostdb|done]].
  destruct (has_name n (entries d)) eqn:Hn; [apply wp_ret; split; [auto with nostdb|done]|]. rewrite Hroot.
  pose proof (Hvac []) as Hdir. rewrite app_nil_r in Hdir.
  assert (fs !! join r "databases" = Some NDir) as Hdbs by apply Hst.
  assert (∀ fs', same_outside [dir_ i] fs fs' → daemon_ok fs' d ∧ create_crash i n d fs') as Hstay.
  { intros fs' Ho. assert (daemon_ok fs' d) by (by eapply daemon_ok_inside).
    split; [done|]. left. by apply daemon_ok_recoverable. }
  apply wp_bind. eapply wp_atomic; [|simpl|done|intros _; by apply Hstay].
  { unfold do_create_dir, exists_, is_dir. unfold database_directory in *.
    by rewrite Hdir, parent_join, Hdbs. }
  set (fs1 := <[dir_ i := NDir]> fs).
  assert (∀ fs2, own_files (database_path r i) fs1 fs2 → same_outside [dir_ i] fs fs2) as Hout.
  { intros fs2 Hown. eapply same_outside_trans; [|by apply own_files_inside].
    intros k Hk. unfold fs1. rewrite lookup_insert_ne; [done|]. intros <-.
    by apply (Hk (dir_ i)); [left|]. }
  apply wp_bind. eapply wp_mono; [apply create_law| |].
  - unfold fs1, database_path. rewrite lookup_insert_ne by pne. apply (Hvac ["database.nostdb"]).
  - unfold fs1, database_path. rewrite parent_join. by rewrite lookup_insert_eq.
  - intros [db|err] fs2 [Hown Hres].
    + destruct Hres as [Hfile Hdb]. apply commit_create_spec; try done; [by apply Hout|by apply Hstay, Hout|].
      rewrite Hown; [unfold fs1; by rewrite lookup_insert_eq|]. unfold database_path.
      rewrite sidecar_join. not_in.
    + apply wp_bind, wp_syscall; [|done|intros _ _; by apply Hstay, Hout].
      assert (same_outside [dir_ i] fs (do_remove_dir (dir_ i) fs2).2) as Hgone.
      { eapply same_outside_trans; [by apply Hout|]. apply remove_dir_inside. }
      apply wp_ret. split; [eapply same_outside_mono; [|exact Hgone]; set_solver|]. split; [done|by apply Hstay].
  - intros fs2 Hown. by apply Hstay, Hout.
Qed.

(** C19: Creating a Database is crash-safe.  When the system calls do not fail and
    the process may die at any point: a successful create has added exactly the
    new entry, the daemon's memory agrees with a settled data directory and has
    an open handle for it; a refused or failed create changes neither the
    daemon's memory nor the settled catalog; and after a crash a restart
    recovers the catalog with or without the new entry, never a part of it (or
    finds the torn-journal state). *)
Theorem create_database_crash_safe i n d w :
  daemon_ok (w_fs w) d → fresh_id (w_fs w) i → schedule_ok CrashOnly (w_faults w) →
  let next := created i n (entries d) in
  databases next ≡ₚ mkCatalogDatabase i n "ready" :: databases (entries d) ∧
  match create_database i n d w with
  | (Some (Ok s, d'), w') =>
      s = mkDatabaseSummary i n "ready" ∧ entries d' = next ∧ valid_catalog next
      ∧ daemon_ok (w_fs w') d'
      ∧ ∃ db, daemon_databases d' !! i = Some (mkManagedDatabase i (database_path r i) (Some db))
  | (Some (Err _, d'), w') => d' = d ∧ daemon_ok (w_fs w') d
  | (None, w') => interrupted r (w_fs w') (entries d) next
  end.
Proof.
  intros Hd Hfresh Hsch next. split; [apply created_perm|].
  pose proof (create_database_spec i n d _ Hd Hfresh w Hsch eq_refl) as Hwp.
  destruct (create_database i n d w) as [[[[s|f] d']|] w']; [|apply Hwp..].
  destruct Hwp as (_ & _ & Hs & Hv & Hd' & db & _ & Heq). simpl in Heq. subst d'. split_and!; [done..|].
  exists db. simpl. by rewrite lookup_insert_eq.
Qed.

(** ** Dropping *)

(** Every handle is filed under its identity and opened the managed file. *)
Definition handles_ok d : Prop :=
  ∀ i h, daemon_databases d !! i = Some h →
    handle_id h = i ∧ handle_path h = database_path r i
    ∧ ∀ db, handle_database h = Some db → edb_path db = database_path r i.

(** The places a dropped Database may be moved to are free, below an absent
    directory there is nothing. *)
Record droppable fs (i : string) : Prop := {
  dp_trash : fs !! trash_directory r i = None → vacant fs (trash_directory r i);
  dp_orphan : vacant fs (join (join r "recovery") ("orphan-" +:+ i))
}.

Ltac not_own := unfold database_path; rewrite sidecar_join, !not_elem_of_cons;
  split_and!; [pne|pne|apply not_elem_of_nil].

(** An open database at work leaves the managed tree as it was. *)
Lemma daemon_ok_within i fs fs' d :
  stays_within (database_path r i) fs fs' → daemon_ok fs d → daemon_ok fs' d.
Proof.
  intros [Hown Hfile] [Hr [[T1 T2 T3 T4 T5 T6] Hv [A1 (b & A2 & A2') A3 A4 A5]] HI].
  split; [done| |by rewrite Hown; [|not_own]]. split; [|done|].
  - split; try (by rewrite Hown; [|not_own]).
    + intros n Hn. destruct (T5 n Hn) as [Hd Hf]. split; [by rewrite Hown; [|not_own]|].
      destruct (decide (n = i)) as [->|Hne]; [by rewrite Hfile|].
      unfold is_file. rewrite Hown; [done|]. not_own.
    + intros n Hn Hd s. rewrite Hown in Hd by not_own. rewrite Hown by not_own. by apply T6.
  - split; unfold stores, content, is_dir; rewrite ?Hown by not_own; try done. by exists b.
Qed.

Lemma droppable_within i fs fs' :
  stays_within (database_path r i) fs fs' → droppable fs i → droppable fs' i.
Proof.
  intros [Hown _] [Ht Ho]. split.
  - intros Hn s. rewrite Hown in Hn by not_own. rewrite Hown by not_own. by apply Ht.
  - intros s. rewrite Hown by not_own. apply Ho.
Qed.

(** The catalog [drop_database] asks for. *)
Definition dropped (i : string) (c : Catalog) : Catalog :=
  mkCatalog (catalog_version c) (without_id i (databases c)).

Lemma dropped_ids i c x : x ∈ ids (dropped i c) ↔ x ∈ ids c ∧ x ≠ i.
Proof.
  unfold ids, dropped. simpl. rewrite !list_elem_of_fmap. setoid_rewrite elem_of_without_id.
  naive_solver.
Qed.

Lemma dropped_prepared fs d i :
  daemon_ok fs d → i ∈ ids (entries d) → droppable fs i → fs !! trash_directory r i = None →
  prepared r fs (entries d) (dropped i (entries d)) Drop i
  ∧ valid_catalog (dropped i (entries d)).
Proof.
  intros [_ Hst HI] Hi [Htr Hor] Hn.
  pose proof Hst as [Ht Hval%validate_catalog_valid Hrest].
  assert (valid_catalog (dropped i (entries d))) as Hnext by (by apply valid_dropped).
  split; [|done]. split; [done|by apply validate_catalog_valid| | |done].
  - destruct Ht. split; try done.
    + intros x [Hx _]%dropped_ids. by apply to_storage.
    + intros x Hx Hd. destruct (decide (x = i)) as [->|Hne]; [done|].
      apply to_orphans; [|done]. intros ?. apply Hx, dropped_ids. done.
  - split; [done|]. right. split; [done|]. simpl. split; [by intros [_ ?]%dropped_ids|].
    right. split; [by apply (to_storage _ _ _ Ht)|by apply Htr].
Qed.

(** Moving a dropped Database's directory to the trash keeps the commit. *)
Lemma committed_trashed i fs c :
  committed fs c → i ∉ ids c → vacant fs (trash_directory r i) →
  committed (move_tree (dir_ i) (trash_directory r i) fs) c.
Proof.
  intros (Hrc & (b & Hb & Hb') & HN) Hi Hvac.
  pose proof (same_outside_move (dir_ i) _ fs Hvac) as Hout.
  assert (∀ k, ¬ dir_ i `prefix_of` k → ¬ trash_directory r i `prefix_of` k →
    move_tree (dir_ i) (trash_directory r i) fs !! k = fs !! k) as Hk.
  { intros k Hk1 Hk2. apply Hout. set_solver. }
  split_and!.
  - eapply recoverable_moved; [done|by right|exact Hout|by apply trashed_gone| |done].
    intros j. by apply settles_trashed.
  - exists b. split; [|done]. unfold content. rewrite Hk; [done|pne..].
  - rewrite Hk; [done|pne..].
Qed.

Lemma stays_within_trans p fs1 fs2 fs3 :
  stays_within p fs1 fs2 → stays_within p fs2 fs3 → stays_within p fs1 fs3.
Proof.
  intros [Ha Ha'] [Hb Hb']. split; [by eapply same_except_trans|congruence].
Qed.

(** The invariant speaks of the catalog only. *)
Lemma daemon_ok_same_catalog fs d d' :
  daemon_catalog d' = daemon_catalog d → daemon_ok fs d → daemon_ok fs d'.
Proof.
  intros Hc [Hr Hs HI]. unfold directory_root, entries in *. split; unfold directory_root, entries;
    by rewrite ?Hc.
Qed.

(** With the drop committed, the directory goes to the trash and the journal goes. *)
Lemma trash_spec i fs next d (s : DatabaseSummary) :
  committed fs next → i ∉ ids next → vacant fs (trash_directory r i) →
  fs !! dir_ i = Some NDir → is_file fs (database_path r i) = true → fs !! I_ = None →
  daemon_catalog d = mkCatalogStore r next →
  wp CrashOnly
    (let* res := rename (dir_ i) (trash_directory r i) in
     match res with
     | Err io => fail (internal (io_text io)) d
     | Ok _ => let* _ := finish_transition (daemon_catalog d) in ret (Ok s, d)
     end) fs
    (λ '(res, d') fs', res = Ok s ∧ d' = d ∧ daemon_ok fs' d
       ∧ same_outside [dir_ i; trash_directory r i; S_; V_; N_; J_] fs fs'
       ∧ is_file fs' (join (trash_directory r i) "database.nostdb") = true)
    (λ fs', recoverable r fs' next).
Proof.
  intros Hcm Hni Hvac Hdir Hfile HI Hcat. apply wp_bind.
  eapply wp_rename_dir; [exact Hdir|pne|exact Hvac| | |done|intros _; apply Hcm].
  { unfold trash_directory. rewrite parent_join. apply Hcm. }
  pose proof (committed_trashed i fs _ Hcm Hni Hvac) as Hcm4. simpl. rewrite Hcat.
  apply wp_bind. eapply wp_mono; [by apply finish_spec| |done].
  intros res fs5 (_ & Hset & Hok & Hsame5). apply wp_ret.
  assert (∀ k, k ≠ J_ → fs5 !! k = move_tree (dir_ i) (trash_directory r i) fs !! k) as Hk5.
  { intros k Hne. apply Hsame5. by intros ->%list_elem_of_singleton. }
  split_and!; [done|done| | |].
  - split; unfold directory_root, entries; rewrite ?Hcat; [done|by apply Hset, Hok|].
    rewrite Hk5 by pne. rewrite move_tree_other; [done|done|pne..].
  - eapply same_outside_trans; [|eapply same_except_outside; [|exact Hsame5]; set_solver].
    eapply same_outside_mono; [|by apply same_outside_move]. set_solver.
  - unfold is_file. rewrite Hk5 by pne. unfold join at 1.
    rewrite (move_tree_new _ _ _ Hvac). exact Hfile.
Qed.

(** The same handle: a Database that was open is open, at the same path. *)
Definition same_handle (h h' : ManagedDatabase) : Prop :=
  handle_id h' = handle_id h ∧ handle_path h' = handle_path h
  ∧ option_Forall2 (λ db db', edb_path db' = edb_path db) (handle_database h) (handle_database h').

(** Every handle is still there. *)
Definition same_handles d d' : Prop :=
  ∀ i, option_Forall2 same_handle (daemon_databases d !! i) (daemon_databases d' !! i).

Lemma same_handles_refl d : same_handles d d.
Proof.
  intros i. destruct (daemon_databases d !! i) as [h|]; constructor. split_and!; [done..|].
  destruct (handle_database h); by constructor.
Qed.

(** Putting a Database back into the handle it was taken from. *)
Lemma same_handles_put_back i h db db' d :
  daemon_databases d !! i = Some h → handle_database h = Some db → edb_path db' = edb_path db →
  same_handles d (set_databases (<[i := set_database (Some db') h]> (daemon_databases d)) d).
Proof.
  intros Hh Hdb Hp j. simpl. destruct (decide (j = i)) as [->|Hne].
  - rewrite Hh, lookup_insert_eq. constructor. split_and!; [done..|]. simpl. rewrite Hdb. by constructor.
  - rewrite lookup_insert_ne by done. apply same_handles_refl.
Qed.

(** What [drop_database] ends with, and what it leaves when the process dies. *)
Definition drop_post n d fs (res : outcome DatabaseSummary) fs' : Prop :=
  match res.1 with
  | Ok s =>
      same_outside [dir_ (summary_id s); trash_directory r (summary_id s); S_; V_; N_; J_] fs fs'
      ∧ (∃ e, find_name n (entries d) = Some e ∧ s = summary e)
      ∧ entries res.2 = dropped (summary_id s) (entries d)
      ∧ daemon_databases res.2 = delete (summary_id s) (daemon_databases d)
      ∧ daemon_ok fs' res.2
      ∧ is_file fs' (join (trash_directory r (summary_id s)) "database.nostdb") = true
  | Err _ =>
      entries res.2 = entries d ∧ daemon_ok fs' res.2
      ∧ dom (daemon_databases res.2) = dom (daemon_databases d)
      ∧ same_handles d res.2
      ∧ handles_ok res.2
      ∧ (fs' = fs ∨ ∃ i, i ∈ ids (entries d) ∧ stays_within (database_path r i) fs fs')
  end.

Definition drop_crash n d fs' : Prop :=
  ∃ e, find_name n (entries d) = Some e
       ∧ interrupted r fs' (entries d) (dropped (id e) (entries d)).

Lemma find_name_id n d e : find_name n (entries d) = Some e → id e ∈ ids (entries d).
Proof. intros [Hin _]%find_name_Some. by apply list_elem_of_fmap_2. Qed.

Lemma commit_drop_spec n e h d fs0 fs :
  same_outside [dir_ (id e)] fs0 fs → find_name n (entries d) = Some e → daemon_ok fs d → droppable fs (id e) →
  fs !! trash_directory r (id e) = None →
  wp CrashOnly (commit_drop e h (set_databases (delete (id e) (daemon_databases d)) d)) fs
    (drop_post n d fs0) (drop_crash n d).
Proof.
  intros Hout Hf Hd Hdr Htr. pose proof (find_name_id _ _ _ Hf) as Hin.
  pose proof (dk_root _ _ Hd) as Hroot.
  set (d0 := set_databases (delete (id e) (daemon_databases d)) d).
  destruct (dropped_prepared fs d (id e) Hd Hin Hdr Htr) as [Hp Hnext].
  apply wp_bind. eapply wp_mono; [by apply (transition_committed CrashOnly (daemon_catalog d0))| |];
    cycle 1.
  { intros fs' Hint. by exists e. }
  intros [[[]|text] store] fs3; [|by intros (? & _)].
  intros (-> & Hcm & Hk3).
  destruct (to_storage r fs (entries d)) with (n := id e) as [Hdir Hfile];
    [apply Hd|done|]. unfold is_file in Hfile.
  eapply wp_mono; [apply (trash_spec (id e) fs3 (dropped (id e) (entries d))
    (set_catalog (mkCatalogStore r (dropped (id e) (entries d))) d0) (summary e))| |].
  - done.
  - by intros [_ ?]%dropped_ids.
  - intros s. rewrite Hk3 by not_in. by apply Hdr.
  - by rewrite Hk3 by not_in.
  - unfold is_file. by rewrite Hk3 by not_in.
  - rewrite Hk3 by not_in. apply Hd.
  - done.
  - intros [res d'] fs5 (-> & -> & Hd5 & Ho5 & Hf5). split_and!; [|by exists e|done..].
    apply (same_outside_trans _ _ fs); [eapply same_outside_mono; [|exact Hout]; set_solver|].
    apply (same_outside_trans _ _ fs3); [|exact Ho5]. eapply same_except_outside; [|exact Hk3]. set_solver.
  - intros fs' Hrc. exists e. split; [done|]. by apply recoverable_interrupted.
Qed.

(** A drop while nothing but the Database's own files has changed. *)
Lemma within_droppable i fs fs' d :
  stays_within (database_path r i) fs fs' → daemon_ok fs d → droppable fs i →
  fs !! trash_directory r i = None →
  daemon_ok fs' d ∧ droppable fs' i ∧ fs' !! trash_directory r i = None
  ∧ interrupted r fs' (entries d) (dropped i (entries d)).
Proof.
  intros Hw Hd Hdr Htr. assert (daemon_ok fs' d) as Hd' by (by eapply daemon_ok_within).
  split_and!; [done|by eapply droppable_within| |left; by apply daemon_ok_recoverable].
  destruct Hw as [Hown _]. by rewrite Hown; [|not_own].
Qed.

Lemma drop_database_spec n d fs :
  daemon_ok fs d → handles_ok d → (∀ i, i ∈ ids (entries d) → droppable fs i) →
  wp CrashOnly (drop_database n n d) fs (drop_post n d fs) (drop_crash n d).
Proof.
  intros Hd Hh Hdrop. unfold drop_database. rewrite String.eqb_refl. simpl.
  assert (∀ e : ProtocolFailure, drop_post n d fs (Err e, d) fs) as Hrefused.
  { intros e. split_and!; [done..|apply same_handles_refl|done|by left]. }
  destruct (find_name n (entries d)) as [e|] eqn:Hf; [|by apply wp_ret].
  pose proof (find_name_id _ _ _ Hf) as Hin. specialize (Hdrop _ Hin).
  pose proof Hd as [Hroot _ _]. rewrite Hroot. apply wp_bind, wp_query.
  destruct (exists_ fs (trash_directory r (id e))) eqn:Htr; [by apply wp_ret|].
  apply exists_false in Htr.
  destruct (daemon_databases d !! id e) as [h|] eqn:Hhd; [|by apply wp_ret].
  destruct (Hh _ _ Hhd) as (_ & Hpath & Hdb).
  destruct (handle_database h) as [db|] eqn:Hopen; [|by apply wp_ret]. specialize (Hdb db eq_refl).
  pose proof (λ fs' Hw, within_droppable (id e) fs fs' d Hw Hd Hdrop Htr) as Hstay.
  apply wp_bind. eapply wp_mono; [apply checkpoint_law| |]; rewrite Hdb; cycle 1.
  { intros fs' Hw. exists e. split; [done|]. by apply Hstay. }
  intros [res db'] fs1 [Hw1 Hdb']. destruct res as [[]|err]; cycle 1.
  { apply wp_ret. split_and!; [done|by apply (daemon_ok_same_catalog _ d); [|apply Hstay]| | | |right; by exists (id e)].
    - simpl. rewrite dom_insert_L. apply elem_of_dom_2 in Hhd. set_solver.
    - eapply same_handles_put_back; [done..|congruence].
    - intros i h'. simpl. rewrite lookup_insert_Some. intros [[<- <-]|[_ Hi]]; [|by apply Hh].
      destruct (Hh _ _ Hhd) as (Hhid & _). simpl. split_and!; [done|done|]. intros db'' [= <-]. congruence. }
  apply wp_bind. eapply wp_mono; [apply close_law| |]; rewrite Hdb'; cycle 1.
  { intros fs' Hw. exists e. split; [done|]. apply Hstay. by eapply stays_within_trans. }
  intros _ fs2 Hw2. destruct (Hstay fs2) as (Hd2 & Hdr2 & Htr2 & Hint2);
    [by eapply stays_within_trans|].
  apply commit_drop_spec; [|done..]. apply own_files_inside.
  by destruct (stays_within_trans _ _ _ _ Hw1 Hw2) as [Hown _].
Qed.

(** C20: Dropping a Database is crash-safe.  When the system calls do not fail and
    the process may die at any point: a successful drop has removed exactly that
    entry and its handle, the daemon agrees with a settled data directory, and
    the data file is kept in the trash; a refused or failed drop keeps the
    catalog and every handle, and a Database that was open is still open; and after a crash a restart recovers the catalog
    with or without the entry (or finds the torn-journal state). *)
Theorem drop_database_crash_safe n confirm d w :
  daemon_ok (w_fs w) d → handles_ok d → (∀ i, i ∈ ids (entries d) → droppable (w_fs w) i) →
  schedule_ok CrashOnly (w_faults w) →
  match drop_database n confirm d w with
  | (Some (Ok s, d'), w') =>
      n = confirm ∧ (∃ e, find_name n (entries d) = Some e ∧ s = summary e)
      ∧ entries d' = dropped (summary_id s) (entries d)
      ∧ daemon_databases d' = delete (summary_id s) (daemon_databases d)
      ∧ daemon_ok (w_fs w') d'
      ∧ is_file (w_fs w') (join (trash_directory r (summary_id s)) "database.nostdb") = true
  | (Some (Err _, d'), w') =>
      entries d' = entries d ∧ daemon_ok (w_fs w') d' ∧ same_handles d d'
  | (None, w') =>
      ∃ e, find_name n (entries d) = Some e
           ∧ interrupted r (w_fs w') (entries d) (dropped (id e) (entries d))
  end.
Proof.
  intros Hd Hh Hdrop Hsch. destruct (decide (n = confirm)) as [<-|Hne].
  - pose proof (drop_database_spec n d _ Hd Hh Hdrop w Hsch eq_refl) as Hwp.
    destruct (drop_database n n d w) as [[[[s|f] d']|] w']; [split; [done|]|..];
      unfold drop_post in Hwp; simpl in Hwp; naive_solver.
  - unfold drop_database. rewrite (proj2 (String.eqb_neq _ _) Hne). simpl.
    split_and!; [done..|apply same_handles_refl].
Qed.
End lifecycle.

(** ** A concrete data directory *)

Module Concrete.
Import CatalogTheorems.Concrete Toy.

Definition dk_config : DaemonConfig := config_new (mkPathBuf true root) "127.0.0.1:7878".

Definition running : DatabaseDaemon :=
  mkDatabaseDaemon dk_config (mkCredentials [x61] [x62]) store
    {[ id1 := mkManagedDatabase id1 (database_path root id1) (Some (database_path root id1)) ]}.

Definition id2 : string := "00000000-0000-4000-8000-000000000002".

Lemma running_ok : daemon_ok root fs running.
Proof. split; [reflexivity|exact old_settled|vm_compute; reflexivity]. Qed.

Lemma fs_lookup k : fs !! k = None ∨ k ∈ entries.*1.
Proof.
  destruct (fs !! k) as [n|] eqn:Hk; [|by left]. right.
  apply elem_of_list_to_map_2 in Hk. by apply list_elem_of_fmap_2 with (f := fst) in Hk.
Qed.

(** Nothing lies below a path that is no prefix of an existing entry. *)
Lemma fs_vacant p : Forall (λ k, bool_decide (p `prefix_of` k) = false) entries.*1 → vacant fs p.
Proof.
  intros Hall s. destruct (fs_lookup (p ++ s)) as [|Hin]; [done|].
  rewrite Forall_forall in Hall. specialize (Hall _ Hin). apply bool_decide_eq_false in Hall.
  destruct Hall. by apply prefix_app_r.
Qed.

Lemma id2_fresh : fresh_id root fs id2.
Proof.
  split; [reflexivity| |]; apply fs_vacant; vm_compute; repeat constructor.
Qed.

Lemma rename_database_atomic_witness :
  let w := World fs [NoFault; NoFault; CrashAt 0] 18 in
  match rename_database "knowledge" "notes" running w with
  | (Some (Ok _, _), _) => True
  | (Some (Err _, d'), w') =>
      d' = running ∧ interrupted root (w_fs w') old (renamed "knowledge" "notes" old)
  | (None, w') => interrupted root (w_fs w') old (renamed "knowledge" "notes" old)
  end.
Proof.
  intros w. pose proof (rename_database_atomic root "knowledge" "notes" running w running_ok) as [_ H].
  destruct (rename_database "knowledge" "notes" running w) as [[[[s|f] d']|] w'];
    [exact I|exact H|exact H].
Defined.

Lemma create_database_crash_safe_witness :
  match create_database id2 "notes" running (fresh fs 18) with
  | (Some (Ok s, d'), w') =>
      s = mkDatabaseSummary id2 "notes" "ready" ∧ Daemon.entries d' = created id2 "notes" old
      ∧ daemon_ok root (w_fs w') d'
  | _ => True
  end.
Proof.
  pose proof (create_database_crash_safe root id2 "notes" running (fresh fs 18)
    running_ok id2_fresh ltac:(constructor)) as [_ H].
  destruct (create_database id2 "notes" running (fresh fs 18)) as [[[[s|f] d']|] w']; try exact I.
  destruct H as (Hs & He & _ & Hd & _). split; [exact Hs|split; [exact He|exact Hd]].
Defined.

Lemma running_handles : handles_ok root running.
Proof.
  intros i h Hh. cbn [daemon_databases running] in Hh. unfold running in Hh. simpl in Hh.
  apply lookup_singleton_Some in Hh as [<- <-]. split_and!; [reflexivity|reflexivity|].
  by intros db [= <-].
Qed.

Lemma running_droppable i : i ∈ ids (Daemon.entries running) → droppable root fs i.
Proof.
  intros ->%list_elem_of_singleton. split; [intros _|]; apply fs_vacant; vm_compute; repeat constructor.
Qed.

Lemma drop_database_crash_safe_witness :
  match drop_database "knowledge" "knowledge" running (fresh fs 18) with
  | (Some (Ok s, d'), w') =>
      Daemon.entries d' = dropped (summary_id s) old ∧ daemon_ok root (w_fs w') d'
  | _ => True
  end.
Proof.
  pose proof (drop_database_crash_safe root "knowledge" "knowledge" running (fresh fs 18)
    running_ok running_handles running_droppable ltac:(constructor)) as H.
  destruct (drop_database "knowledge" "knowledge" running (fresh fs 18)) as [[[[s|f] d']|] w'];
    try exact I.
  destruct H as (_ & _ & He & _ & Hd & _). split; [exact He|exact Hd].
Defined.

(** Both operations do succeed without faults. *)
Lemma create_then_drop :
  let '(r1, w1) := create_database id2 "notes" running (fresh fs 18) in
  match r1 with
  | Some (Ok _, d1) =>
      match (drop_database "notes" "notes" d1 w1).1 with
      | Some (r2, d2) => is_ok r2 = true ∧ Daemon.entries d2 = old
      | None => False
      end
  | _ => False
  end.
Proof. vm_compute. split; reflexivity. Qed.

(** The system calls of a create whose directory sync fails after the new
    catalog was installed, and whose two rollback calls fail as well. *)
Definition sync_and_rollback_fail : list fault :=
  replicate 13 NoFault ++ [IoFail 0 "disk error"; IoFail 0 "disk error"; IoFail 0 "disk error"].

End Concrete.
