(* ===== verification/Directory.v ===== *)
(** * The daemon as a directory of Databases

    What the lifecycle operations of the daemon promise, without files: a
    finite map from names to stable identities.  Every history of requests on
    the daemon, with the process dying at any system call, is a history of that
    map, and a restart finds the map before or after the request that was
    interrupted. *)

From Stdlib Require Import ZArith Lia Ascii Sorted.
From stdpp Require Import base list strings gmap.
From S2P Require Import Prelude Fs Codec Catalog CatalogProofs CatalogAtomic CatalogRecovery CatalogTheorems.
From S2P Require Import Wire Messages Config Protocol Engine Daemon DaemonProofs.

Open Scope string_scope.
Open Scope list_scope.

(** ** The abstract directory *)

(** Names and the identities behind them. *)
Abbreviation directory := (gmap string string).

Inductive request : Type :=
| QCreate (new_id n : string)           (* [new_id] is what [Uuid::new_v4] gives *)
| QRename (n new_name : string)
| QDrop (n confirm_name : string)
| QSelect (n : string)
| QList.

Inductive answer : Type :=
| Answered (r : result DatabaseSummary ProtocolFailure)
| Listed (l : list DatabaseSummary).

Definition ready (n i : string) : DatabaseSummary := mkDatabaseSummary i n "ready".

(** Which answers a directory may give to a request, and what it is after it. *)
Definition allows (a : directory) (q : request) (ans : answer) (a' : directory) : Prop :=
  match q with
  | QCreate i n =>
      if negb (valid_database_name n) then ans = Answered (Err invalid_name) ∧ a' = a
      else match a !! n with
           | Some _ => ans = Answered (Err (already_exists n)) ∧ a' = a
           | None => (ans = Answered (Ok (ready n i)) ∧ a' = <[n := i]> a)
                     ∨ ∃ e, ans = Answered (Err e) ∧ a' = a
           end
  | QRename n m =>
      if negb (valid_database_name m) then ans = Answered (Err invalid_name) ∧ a' = a
      else match a !! m, a !! n with
           | Some _, _ => ans = Answered (Err (already_exists m)) ∧ a' = a
           | None, None => ans = Answered (Err (not_found n)) ∧ a' = a
           | None, Some i => ans = Answered (Ok (ready m i)) ∧ a' = <[m := i]> (delete n a)
           end
  | QDrop n confirm =>
      if negb (String.eqb n confirm) then
        ans = Answered (Err (failure ProtocolViolation
                "confirm_name must exactly equal the Database name")) ∧ a' = a
      else match a !! n with
           | None => ans = Answered (Err (not_found n)) ∧ a' = a
           | Some i => (ans = Answered (Ok (ready n i)) ∧ a' = delete n a)
                       ∨ ∃ e, ans = Answered (Err e) ∧ a' = a
           end
  | QSelect n =>
      ans = Answered (match a !! n with Some i => Ok (ready n i) | None => Err (not_found n) end)
      ∧ a' = a
  | QList =>
      (∃ l, ans = Listed l ∧ l ≡ₚ (λ '(n, i), ready n i) <$> map_to_list a
            ∧ StronglySorted string_lt (summary_name <$> l)) ∧ a' = a
  end.

(** A history of requests and answers. *)
Fixpoint allowed (a : directory) (qs : list request) (answers : list answer) (a' : directory) : Prop :=
  match qs, answers with
  | [], [] => a' = a
  | q :: qs', ans :: answers' => ∃ a1, allows a q ans a1 ∧ allowed a1 qs' answers' a'
  | _, _ => False
  end.

(** The identities the creates of a history bring. *)
Definition creates (qs : list request) : list string :=
  omap (λ q, match q with QCreate i _ => Some i | _ => None end) qs.

(** ** The directory of a catalog *)

Definition names_of (l : list CatalogDatabase) : directory :=
  list_to_map ((λ e, (name e, id e)) <$> l).
Definition names (c : Catalog) : directory := names_of (databases c).

Lemma names_of_lookup l n i :
  NoDup (name <$> l) → names_of l !! n = Some i ↔ ∃ e, e ∈ l ∧ name e = n ∧ id e = i.
Proof.
  intros Hnd. unfold names_of. rewrite <-elem_of_list_to_map.
  - rewrite list_elem_of_fmap. split; [intros (e & [= -> ->] & He); eauto|intros (e & He & <- & <-); eauto].
  - rewrite <-list_fmap_compose. done.
Qed.

(** Two directories with the same bindings are the same. *)
Lemma directory_eq (a a' : directory) : (∀ n i, a !! n = Some i ↔ a' !! n = Some i) → a = a'.
Proof. intros Ha. apply map_eq. intros n. apply option_eq, Ha. Qed.

Section names.
Context `{!Uuid}.
Implicit Types (c : Catalog).

Lemma valid_names c : valid_catalog c → NoDup (name <$> databases c).
Proof. intros [_ _ _ Hs]. by apply sorted_nodup. Qed.

Lemma names_lookup c n i :
  valid_catalog c → names c !! n = Some i ↔ ∃ e, e ∈ databases c ∧ name e = n ∧ id e = i.
Proof. intros Hv. by apply names_of_lookup, valid_names. Qed.

(** In a valid catalog the entry is its name, its identity and [ready]. *)
Lemma summary_ready c e : valid_catalog c → e ∈ databases c → summary e = ready (name e) (id e).
Proof.
  intros [_ He _ _] Hin. rewrite Forall_forall in He. unfold summary, ready. by rewrite (entry_ready _ (He e Hin)).
Qed.

Lemma find_name_names n c :
  valid_catalog c →
  match find_name n c with
  | Some e => e ∈ databases c ∧ name e = n ∧ names c !! n = Some (id e)
  | None => names c !! n = None
  end.
Proof.
  intros Hv. destruct (find_name n c) as [e|] eqn:Hf.
  - apply find_name_Some in Hf as [Hin Hn]. split_and!; [done|done|]. apply names_lookup; eauto.
  - apply eq_None_not_Some. intros [i (e & Hin & Hn & _)%names_lookup]; [|done].
    apply list_elem_of_In, (find_none _ _ Hf), String.eqb_neq in Hin. done.
Qed.

Lemma has_name_names n c : valid_catalog c → has_name n c = bool_decide (is_Some (names c !! n)).
Proof.
  intros Hv. apply eq_true_iff_eq. rewrite bool_decide_eq_true. unfold has_name. rewrite existsb_exists. split.
  - intros (e & Hin%list_elem_of_In & Hn%String.eqb_eq). exists (id e). apply names_lookup; eauto.
  - intros [i (e & Hin & Hn & _)%names_lookup]; [|done]. exists e.
    split; [by apply list_elem_of_In|by apply String.eqb_eq].
Qed.

Lemma names_created i n c :
  valid_catalog c → valid_catalog (created i n c) → names c !! n = None →
  names (created i n c) = <[n := i]> (names c).
Proof.
  intros Hv Hv' Hn. apply directory_eq. intros m j. rewrite names_lookup by done.
  setoid_rewrite (created_perm i n c). rewrite lookup_insert_Some, names_lookup by done. split.
  - intros (e & [->|Hin]%elem_of_cons & <- & <-); [by left|]. right. split; [|eauto].
    intros Heq. apply eq_None_not_Some in Hn. apply Hn. exists (id e). apply names_lookup; eauto.
  - intros [[<- <-]|[_ (e & Hin & <- & <-)]].
    + exists (mkCatalogDatabase i n "ready"). split; [by left|done].
    + exists e. split; [by right|done].
Qed.

Lemma same_entry c e e' : valid_catalog c → e ∈ databases c → e' ∈ databases c → name e = name e' → e = e'.
Proof.
  intros Hv%valid_names He He' Hn. revert Hv He He' Hn. induction (databases c) as [|x l IH]; simpl; [set_solver|].
  intros [Hx Hnd]%NoDup_cons [->|He]%elem_of_cons [->|He']%elem_of_cons Hn; [done| | |by apply IH].
  - exfalso. apply Hx. rewrite Hn. by apply list_elem_of_fmap_2.
  - exfalso. apply Hx. rewrite <-Hn. by apply list_elem_of_fmap_2.
Qed.

Lemma same_identity c e e' : valid_catalog c → e ∈ databases c → e' ∈ databases c → id e = id e' → e = e'.
Proof.
  intros [_ _ Hv _] He He' Hn. revert Hv He He' Hn. induction (databases c) as [|x l IH]; simpl; [set_solver|].
  intros [Hx Hnd]%NoDup_cons [->|He]%elem_of_cons [->|He']%elem_of_cons Hn; [done| | |by apply IH].
  - exfalso. apply Hx. rewrite Hn. by apply list_elem_of_fmap_2.
  - exfalso. apply Hx. rewrite <-Hn. by apply list_elem_of_fmap_2.
Qed.

(** Taking the entry of a name out takes the name out. *)
Lemma names_without c e m j :
  valid_catalog c → e ∈ databases c →
  (∃ x, x ∈ without_id (id e) (databases c) ∧ name x = m ∧ id x = j) ↔ delete (name e) (names c) !! m = Some j.
Proof.
  intros Hv He. rewrite lookup_delete_Some, names_lookup by done. setoid_rewrite elem_of_without_id. split.
  - intros (x & [Hin Hne] & <- & <-). split; [|eauto]. intros Hn. apply Hne. f_equal. by eapply same_entry.
  - intros [Hne (x & Hin & <- & <-)]. exists x. split_and!; try done. intros Hi. apply Hne.
    f_equal. symmetry. by eapply same_identity.
Qed.

Lemma names_dropped c e :
  valid_catalog c → e ∈ databases c → names (dropped (id e) c) = delete (name e) (names c).
Proof.
  intros Hv He. apply directory_eq. intros m j. rewrite <-names_without by done.
  apply names_lookup. by apply valid_dropped.
Qed.

Lemma names_renamed c next e m :
  valid_catalog c → valid_catalog next → e ∈ databases c → names c !! m = None →
  databases next ≡ₚ mkCatalogDatabase (id e) m "ready" :: without_id (id e) (databases c) →
  names next = <[m := id e]> (delete (name e) (names c)).
Proof.
  intros Hv Hv' He Hm Hperm. apply directory_eq. intros k j. rewrite names_lookup by done.
  setoid_rewrite Hperm. rewrite lookup_insert_Some, <-names_without by done. split.
  - intros (x & [->|Hin]%elem_of_cons & <- & <-); [by left|]. right. split; [|eauto].
    apply elem_of_without_id in Hin as [Hin _]. intros Heq. apply eq_None_not_Some in Hm. apply Hm.
    exists (id x). apply names_lookup; eauto.
  - intros [[<- <-]|[_ (x & Hin & <- & <-)]].
    + exists (mkCatalogDatabase (id e) m "ready"). split; [by left|done].
    + exists x. split; [by right|done].
Qed.

Lemma names_listed c :
  valid_catalog c →
  map summary (databases c) ≡ₚ (λ '(n, i), ready n i) <$> map_to_list (names c)
  ∧ StronglySorted string_lt (summary_name <$> map summary (databases c)).
Proof.
  intros Hv. split.
  - unfold names, names_of. rewrite map_to_list_to_map.
    + rewrite <-list_fmap_compose. assert (map summary (databases c) = ((λ '(n, i), ready n i) ∘ (λ e, (name e, id e)))
        <$> databases c) as ->; [|done]. apply map_ext_in. intros e He%list_elem_of_In. by apply (summary_ready c).
    + rewrite <-list_fmap_compose. by apply valid_names.
  - destruct Hv as [_ _ _ Hs]. rewrite <-list_fmap_compose. exact Hs.
Qed.
End names.

(** ** The daemon *)

Section refinement.
Context `{!Engine, !EngineLaws, !Uuid, !Json Catalog, !Json OperationJournal,
          !JsonLaws Catalog, !JsonLaws OperationJournal}.
Context (r : path).
Implicit Types (fs : fsys) (a : directory) (d : DatabaseDaemon).

Abbreviation dir_ n := (database_directory r n).
Abbreviation catalog_files :=
  [join r STATE_FILE; join r PREVIOUS_FILE; join r PENDING_FILE; join r OPERATION_FILE].

(** One request on the daemon. *)
Definition perform (q : request) (d : DatabaseDaemon) : io (answer * DatabaseDaemon) :=
  match q with
  | QCreate i n => let* (res, d') := create_database i n d in ret (Answered res, d')
  | QRename n m => let* (res, d') := rename_database n m d in ret (Answered res, d')
  | QDrop n confirm => let* (res, d') := drop_database n confirm d in ret (Answered res, d')
  | QSelect n => ret (Answered (select_database n d), d)
  | QList => ret (match list_databases d with Ok l => Listed l | Err e => Answered (Err e) end, d)
  end.

(** A history of requests, one after the other. *)
Fixpoint perform_all (qs : list request) (d : DatabaseDaemon) : io (list answer * DatabaseDaemon) :=
  match qs with
  | [] => ret ([], d)
  | q :: qs' =>
      let* (ans, d) := perform q d in
      let* (answers, d) := perform_all qs' d in
      ret (ans :: answers, d)
  end.

(** The daemon represents the directory: the catalog in memory is the durable
    one and has these names, handles are filed under their identities, and the
    places a drop moves storage to are free. *)
Record represents fs d a : Prop := {
  rp_ok : daemon_ok r fs d;
  rp_handles : handles_ok r d;
  rp_droppable i : i ∈ ids (entries d) → droppable r fs i;
  rp_names : names (entries d) = a
}.

(** Nothing is stored under the identity, in use, in the trash or set aside. *)
Definition unused fs (i : string) : Prop := fresh_id r fs i ∧ droppable r fs i.

(** Only the storage of [i] and the catalog files may differ. *)
Definition touches (i : string) fs fs' : Prop :=
  same_outside (dir_ i :: trash_directory r i :: catalog_files) fs fs'.

Ltac untouched H := apply H; intros ?; rewrite !elem_of_cons, elem_of_nil;
  intros [->|[->|[->|[->|[->|[->|[]]]]]]]; pne.

Lemma touches_droppable i j fs fs' : i ≠ j → touches i fs fs' → droppable r fs j → droppable r fs' j.
Proof.
  intros Hij Ht [Htr Ho].
  assert (∀ s, fs' !! (trash_directory r j ++ s) = fs !! (trash_directory r j ++ s)) as Hk.
  { intros s. untouched Ht. }
  split.
  - intros Hn s. rewrite Hk. apply Htr. specialize (Hk []). rewrite app_nil_r in Hk. by rewrite <-Hk.
  - intros s. rewrite <-(Ho s). untouched Ht.
Qed.

Lemma touches_unused i j fs fs' : i ≠ j → touches i fs fs' → unused fs j → unused fs' j.
Proof.
  intros Hij Ht [[Hu Hd Ho] Hdr]. split; [|by eapply touches_droppable].
  split; [done| |]; intros s; [rewrite <-(Hd s)|rewrite <-(Ho s)]; untouched Ht.
Qed.

(** Only the storage of [i] in use and the catalog files may differ. *)
Abbreviation stores_only i fs fs' := (same_outside (dir_ i :: catalog_files) fs fs').

Lemma stored_droppable i j fs fs' : stores_only i fs fs' → droppable r fs j → droppable r fs' j.
Proof.
  intros Hs [Htr Ho].
  assert (∀ k, ¬ dir_ i `prefix_of` k → (∀ f, f ∈ catalog_files → ¬ f `prefix_of` k) → fs' !! k = fs !! k) as Hk.
  { intros k Hd Hf. apply Hs. intros p [->|Hp]%elem_of_cons; [done|by apply Hf]. }
  assert (∀ s, fs' !! (trash_directory r j ++ s) = fs !! (trash_directory r j ++ s)) as Hk'.
  { intros s. apply Hk; [pne|]. intros f. rewrite !elem_of_cons, elem_of_nil.
    intros [->|[->|[->|[->|[]]]]]; pne. }
  split.
  - intros Hn s. rewrite Hk'. apply Htr. specialize (Hk' []). rewrite app_nil_r in Hk'. by rewrite <-Hk'.
  - intros s. rewrite <-(Ho s). apply Hk; [pne|]. intros f. rewrite !elem_of_cons, elem_of_nil.
    intros [->|[->|[->|[->|[]]]]]; pne.
Qed.

Lemma stored_unused i j fs fs' : i ≠ j → stores_only i fs fs' → unused fs j → unused fs' j.
Proof.
  intros Hij Hs. apply (touches_unused i); [done|]. eapply same_outside_mono; [|exact Hs]. set_solver.
Qed.

Lemma within_touches i fs fs' : stays_within (database_path r i) fs fs' → touches i fs fs'.
Proof.
  intros [Hown _]. eapply same_outside_mono; [|by eapply own_files_inside]. set_solver.
Qed.

Lemma within_drop i j fs fs' : stays_within (database_path r i) fs fs' → droppable r fs j → droppable r fs' j.
Proof.
  intros Hw Hd. destruct (decide (i = j)) as [->|Hne]; [by eapply droppable_within|].
  eapply touches_droppable; [done|by apply within_touches|done].
Qed.

(** *** After a crash *)

(** A restart finds the directory again. *)
Definition found_again fs a : Prop := ∃ c, recoverable r fs c ∧ names c = a.

(** The catalog is installed, but the journal was cut short. *)
Definition torn_journal fs a : Prop :=
  ∃ c, names c = a ∧ tree_ok r fs c ∧ stores fs (join r STATE_FILE) c ∧ journal_torn r fs.

Definition survives fs a a' : Prop := found_again fs a ∨ found_again fs a' ∨ torn_journal fs a.

Lemma interrupted_survives fs c next :
  interrupted r fs c next → survives fs (names c) (names next).
Proof.
  intros [Hc|[Hn|Ht]]; [left; by exists c|right; left; by exists next|right; right; by exists c].
Qed.

Lemma represents_valid fs d a : represents fs d a → valid_catalog (entries d).
Proof. intros [[_ [_ Hv _] _] _ _ _]. by apply validate_catalog_valid. Qed.

(** A request that changes nothing. *)
Lemma represents_unchanged q d a fs ans :
  represents fs d a → allows a q ans a →
  ∃ a', allows a q ans a' ∧ represents fs d a' ∧ ∀ j, j ∉ creates [q] → unused fs j → unused fs j.
Proof. intros Hr Ha. by exists a. Qed.

Abbreviation step_ok q fs a := (λ '(ans, d') fs',
  ∃ a', allows a q ans a' ∧ represents fs' d' a' ∧ ∀ j, j ∉ creates [q] → unused fs j → unused fs' j).
Abbreviation step_dies q a := (λ fs', ∃ ans a', allows a q ans a' ∧ survives fs' a a').

Lemma create_step i n d a fs :
  represents fs d a → unused fs i →
  wp CrashOnly (perform (QCreate i n) d) fs (step_ok (QCreate i n) fs a) (step_dies (QCreate i n) a).
Proof.
  intros Hr [Hfresh Hdr]. pose proof (represents_valid _ _ _ Hr) as Hv. pose proof Hr as [Hok Hh Hd Hn].
  pose proof (fresh_id_unknown _ _ _ _ (dk_settled _ _ _ Hok) Hfresh) as Hi.
  simpl perform. apply wp_bind.
  destruct (valid_database_name n) eqn:Hvn.
  2:{ unfold create_database. rewrite Hvn. apply wp_ret, wp_ret, represents_unchanged; [done|].
      unfold allows. by rewrite Hvn. }
  pose proof (has_name_names n _ Hv) as Hhas. rewrite Hn in Hhas.
  destruct (a !! n) as [i'|] eqn:Ha.
  { unfold create_database. rewrite Hvn, Hhas. rewrite bool_decide_true by done.
    apply wp_ret, wp_ret, represents_unchanged; [done|]. unfold allows. by rewrite Hvn, Ha. }
  rewrite bool_decide_false in Hhas by (by intros []).
  assert (valid_catalog (created i n (entries d))) as Hnext by (by apply valid_created; [|apply Hfresh|..]).
  assert (names (created i n (entries d)) = <[n := i]> a) as Hnames.
  { rewrite names_created, Hn; [done|done|done|]. by rewrite Hn. }
  assert (allows a (QCreate i n) (Answered (Ok (ready n i))) (<[n := i]> a)) as Hallow.
  { unfold allows. rewrite Hvn, Ha. by left. }
  eapply wp_mono; [by apply create_database_spec| |].
  - intros [[s|e] d'] fs' [Hout Hres]; apply wp_ret.
    + destruct Hres as (-> & _ & Hok' & db & Hdb & Heq). simpl in Heq, Hok'. exists (<[n := i]> a).
      split_and!; [done| |].
      * rewrite Heq in *. split; [done| | |done].
        -- intros j h. simpl. rewrite lookup_insert_Some. intros [[<- <-]|[_ Hj]]; [|by apply Hh].
           split_and!; [done|done|]. by intros db' [= <-].
        -- intros j [->|Hj]%created_ids; (eapply stored_droppable; [exact Hout|]); [done|by apply Hd].
      * intros j Hj. eapply stored_unused; [|done]. simpl in Hj. set_solver.
    + destruct Hres as [Heq Hok']. simpl in Heq, Hok'. subst d'. exists a. split_and!.
      * unfold allows. rewrite Hvn, Ha. right. by exists e.
      * split; [done|done| |done]. intros j Hj. eapply stored_droppable; [exact Hout|by apply Hd].
      * intros j Hj. eapply stored_unused; [|done]. simpl in Hj. set_solver.
  - intros fs' Hint%interrupted_survives. exists (Answered (Ok (ready n i))), (<[n := i]> a).
    split; [done|]. by rewrite Hnames, Hn in Hint.
Qed.

(** The catalog files changed, and nothing else. *)
Lemma represents_recatalogued fs fs' d next a :
  represents fs d a → same_except catalog_files fs fs' → settled r fs' next →
  (∀ i, i ∈ ids next → i ∈ ids (entries d)) →
  represents fs' (set_catalog (mkCatalogStore r next) d) (names next)
  ∧ ∀ j, unused fs j → unused fs' j.
Proof.
  intros [Hok Hh Hd _] Hsame Hset Hids.
  assert (∀ i, stores_only i fs fs') as Hs by (intros i; eapply same_except_outside; [|exact Hsame]; set_solver).
  split.
  - split; [|done| |done].
    + split; [done|done|]. rewrite Hsame by not_in. apply Hok.
    + intros i Hi%Hids. by eapply (stored_droppable i); [|apply Hd].
  - intros j. apply (stored_unused (String "x" j)); [|done].
    intros Heq%(f_equal String.length). simpl in Heq. lia.
Qed.

Lemma rename_step n m d a fs :
  represents fs d a →
  wp CrashOnly (perform (QRename n m) d) fs (step_ok (QRename n m) fs a) (step_dies (QRename n m) a).
Proof.
  intros Hr. pose proof (represents_valid _ _ _ Hr) as Hv. pose proof Hr as [Hok Hh Hd Hn].
  simpl perform. apply wp_bind. unfold rename_database.
  destruct (valid_database_name m) eqn:Hvm; cbn [negb].
  2:{ apply wp_ret, wp_ret, represents_unchanged; [done|]. unfold allows. by rewrite Hvm. }
  pose proof (has_name_names m _ Hv) as Hhas. rewrite Hn in Hhas.
  destruct (a !! m) as [i'|] eqn:Ham.
  { rewrite Hhas, bool_decide_true by done. apply wp_ret, wp_ret, represents_unchanged; [done|].
    unfold allows. by rewrite Hvm, Ham. }
  rewrite bool_decide_false in Hhas by (by intros []). rewrite Hhas.
  pose proof (find_name_names n _ Hv) as Hf. rewrite Hn in Hf.
  destruct (find_name n (entries d)) as [e|] eqn:Hfn.
  2:{ apply wp_ret, wp_ret, represents_unchanged; [done|]. unfold allows. by rewrite Hvm, Ham, Hf. }
  destruct Hf as (Hin & <- & Han).
  destruct (rename_entry_finds (id e) m (databases (entries d))) as [[l e'] Hre];
    [by apply list_elem_of_fmap_2|]. rewrite Hre.
  destruct (renamed_prepared _ _ _ _ _ _ _ _ Hok Hvm Hhas Hfn Hre) as (Hp & Hnext & -> & Hperm).
  set (next := mkCatalog (catalog_version (entries d)) (sort_by_name l)) in *.
  assert (names next = <[m := id e]> (delete (name e) a)) as Hnames.
  { rewrite <-Hn. apply names_renamed; try done. by rewrite Hn. }
  assert (allows a (QRename (name e) m) (Answered (Ok (ready m (id e)))) (names next)) as Hallow.
  { unfold allows. by rewrite Hvm, Ham, Han, Hnames. }
  assert (∀ fs', interrupted r fs' (entries d) next → step_dies (QRename (name e) m) a fs') as Hdies.
  { intros fs' Hint%interrupted_survives. rewrite Hn in Hint. eauto. }
  apply wp_bind. eapply wp_mono; [by apply transition_committed; [apply Hok|]| |done].
  intros [[[]|text] store] fs1; [|by intros (? & _)]. intros (-> & Hcm & Hsame1).
  apply wp_bind. eapply wp_mono; [by apply finish_spec| |].
  - intros res fs2 (_ & Hset & Hfin & Hsame2). apply wp_ret, wp_ret.
    destruct (represents_recatalogued fs fs2 d next a) as [Hr' Hu]; [done| |by apply Hset, Hfin| |].
    + eapply same_except_trans; [exact Hsame1|]. eapply same_except_mono; [|exact Hsame2]. set_solver.
    + intros i. unfold ids. rewrite Hperm, fmap_cons.
      intros [->|(x & -> & [Hx _]%elem_of_without_id)%list_elem_of_fmap]%elem_of_cons;
        [by apply (list_elem_of_fmap_2 id _ e)|by apply list_elem_of_fmap_2].
    + exists (names next). split_and!; [done|done|]. intros j _. apply Hu.
  - intros fs2 Hrc. apply Hdies. by apply recoverable_interrupted.
Qed.

Lemma drop_step n confirm d a fs :
  represents fs d a →
  wp CrashOnly (perform (QDrop n confirm) d) fs
    (step_ok (QDrop n confirm) fs a) (step_dies (QDrop n confirm) a).
Proof.
  intros Hr. pose proof (represents_valid _ _ _ Hr) as Hv. pose proof Hr as [Hok Hh Hd Hn].
  simpl perform. apply wp_bind. destruct (String.eqb_spec n confirm) as [<-|Hne].
  2:{ unfold drop_database. rewrite (proj2 (String.eqb_neq _ _) Hne). apply wp_ret, wp_ret, represents_unchanged; [done|].
      unfold allows. by rewrite (proj2 (String.eqb_neq _ _) Hne). }
  pose proof (find_name_names n _ Hv) as Hf. rewrite Hn in Hf.
  destruct (find_name n (entries d)) as [e|] eqn:Hfn.
  2:{ unfold drop_database. rewrite String.eqb_refl, Hfn. apply wp_ret, wp_ret, represents_unchanged; [done|].
      unfold allows. by rewrite String.eqb_refl, Hf. }
  destruct Hf as (Hin & Hne & Han).
  assert (names (dropped (id e) (entries d)) = delete n a) as Hnames.
  { rewrite <-Hne, <-Hn. by apply names_dropped. }
  assert (allows a (QDrop n n) (Answered (Ok (ready n (id e)))) (delete n a)) as Hallow.
  { unfold allows. rewrite String.eqb_refl, Han. by left. }
  eapply wp_mono; [by apply drop_database_spec| |].
  - intros [[s|err] d'] fs' Hres; apply wp_ret.
    + destruct Hres as (Ht & (e' & He' & Hs) & Hent & Hdbs & Hok' & _). simpl in *.
      rewrite Hfn in He'. injection He' as <-. subst s. simpl in *. exists (delete n a). split_and!.
      * rewrite (summary_ready (entries d) e Hv Hin), Hne. done.
      * split; [done| | |by rewrite Hent].
        -- intros j h. rewrite Hdbs. intros [_ Hj]%lookup_delete_Some. by apply Hh.
        -- intros j. rewrite Hent. intros [Hj Hjne]%dropped_ids.
           by eapply touches_droppable; [|exact Ht|apply Hd].
      * intros j _ Hu. eapply touches_unused; [|exact Ht|done]. intros <-.
        destruct Hu as [Hu _]. eapply fresh_id_unknown; [apply Hok|done|]. by apply (list_elem_of_fmap_2 id).
    + destruct Hres as (Hent & Hok' & _ & _ & Hh' & Hfs). simpl in *. exists a. split_and!.
      * unfold allows. rewrite String.eqb_refl, Han. right. by exists err.
      * split; [done|done| |by rewrite Hent]. intros j. rewrite Hent. intros Hj.
        destruct Hfs as [->|(i & _ & Hw)]; [by apply Hd|by eapply within_drop; [|apply Hd]].
      * intros j _ Hu. destruct Hfs as [->|(i & Hi & Hw)]; [done|].
        eapply touches_unused; [|by apply within_touches|done]. intros <-.
        destruct Hu as [Hu _]. by eapply fresh_id_unknown; [apply Hok|..].
  - intros fs' (e' & He' & Hint%interrupted_survives). rewrite Hfn in He'. injection He' as <-.
    rewrite Hn, Hnames in Hint. eauto.
Qed.

Lemma perform_step q d a fs :
  represents fs d a → (∀ i, i ∈ creates [q] → unused fs i) →
  wp CrashOnly (perform q d) fs (step_ok q fs a) (step_dies q a).
Proof.
  intros Hr Hu. pose proof (represents_valid _ _ _ Hr) as Hv. pose proof (rp_names _ _ _ Hr) as Hn.
  destruct q as [i n|n m|n confirm|n|].
  - apply create_step; [done|]. apply Hu. by left.
  - by apply rename_step.
  - by apply drop_step.
  - apply wp_ret, represents_unchanged; [done|]. simpl. split; [|done]. f_equal. unfold select_database.
    pose proof (find_name_names n _ Hv) as Hf. rewrite Hn in Hf.
    destruct (find_name n (entries d)) as [e|]; [|by rewrite Hf].
    destruct Hf as (Hin & <- & ->). by rewrite (summary_ready (entries d) e Hv Hin).
  - apply wp_ret, represents_unchanged; [done|]. simpl. split; [|done].
    destruct (names_listed _ Hv) as [Hperm Hs]. rewrite Hn in Hperm. by eexists.
Qed.

Lemma perform_all_spec qs d a fs :
  represents fs d a → NoDup (creates qs) → (∀ i, i ∈ creates qs → unused fs i) →
  wp CrashOnly (perform_all qs d) fs
    (λ '(answers, d') fs', ∃ a', allowed a qs answers a' ∧ represents fs' d' a')
    (λ fs', ∃ before q rest answers a1, qs = before ++ q :: rest ∧ allowed a before answers a1
            ∧ step_dies q a1 fs').
Proof.
  revert d a fs. induction qs as [|q qs IH]; intros d a fs Hr Hnd Hu; simpl.
  { apply wp_ret. by exists a. }
  assert (creates (q :: qs) = creates [q] ++ creates qs) as Hc by (by destruct q).
  rewrite Hc in *. apply NoDup_app in Hnd as (_ & Hdis & Hnd).
  apply wp_bind. eapply wp_mono; [apply (perform_step q d a); [done|]; intros i Hi; apply Hu; set_solver| |].
  - intros [ans d1] fs1 (a1 & Hal & Hr1 & Hu1). apply wp_bind.
    eapply wp_mono; [apply (IH d1 a1); [done|done|]| |].
    + intros i Hi. apply Hu1; [intros Hq; by apply (Hdis i)|apply Hu; set_solver].
    + intros [answers d2] fs2 (a2 & Hall & Hr2). apply wp_ret. exists a2. split; [|done]. by exists a1.
    + intros fs2 (before & q' & rest & answers & a2 & -> & Hall & Hdies).
      exists (q :: before), q', rest, (ans :: answers), a2. split_and!; [done|by exists a1|done].
  - intros fs1 Hdies. exists [], q, qs, [], a. by split_and!.
Qed.

(** What a fault-free start finds. *)
Lemma found_again_loads fs a u :
  found_again fs a →
  ∃ store w', load r (fresh fs u) = (Some (Ok store), w')
              ∧ names (catalog store) = a ∧ settled r (w_fs w') (catalog store).
Proof.
  intros (c & Hrc & <-).
  destruct (wp_returns _ _ _ _ u (load_spec r Calm fs c Hrc)) as (res & w' & Hrun & _ & Hok & Hst).
  specialize (Hok eq_refl). destruct res as [store|]; [|done]. destruct (Hst store eq_refl) as [-> Hs].
  by exists (mkCatalogStore r c), w'.
Qed.

(** C1: The daemon implements the directory.  Take a daemon that represents a
    directory and any history of create, rename, drop, select and list requests
    whose creates bring unused identities, and let the process die at any
    system call.  If the history is answered, the answers are ones the directory
    allows and the daemon represents the directory after them.  If the process
    dies, the requests before it were answered as the directory allows, and the
    next fault-free start finds the directory before or after the request that
    was interrupted (unless the journal was cut short while it was written,
    with the catalog before it still installed). *)
Theorem daemon_refines_directory qs d a w :
  represents (w_fs w) d a → NoDup (creates qs) → (∀ i, i ∈ creates qs → unused (w_fs w) i) →
  schedule_ok CrashOnly (w_faults w) →
  match perform_all qs d w with
  | (Some (answers, d'), w') => ∃ a', allowed a qs answers a' ∧ represents (w_fs w') d' a'
  | (None, w') =>
      ∃ before q rest answers a1 ans a2,
        qs = before ++ q :: rest ∧ allowed a before answers a1 ∧ allows a1 q ans a2
        ∧ (torn_journal (w_fs w') a1
           ∨ ∀ u, ∃ store w2, load r (fresh (w_fs w') u) = (Some (Ok store), w2)
                    ∧ (names (catalog store) = a1 ∨ names (catalog store) = a2)
                    ∧ settled r (w_fs w2) (catalog store))
  end.
Proof.
  intros Hr Hnd Hu Hs. pose proof (perform_all_spec qs d a _ Hr Hnd Hu w Hs eq_refl) as Hwp.
  destruct (perform_all qs d w) as [[[answers d']|] w']; [apply Hwp|].
  destruct Hwp as (_ & before & q & rest & answers & a1 & -> & Hall & ans & a2 & Hal & Hsv).
  exists before, q, rest, answers, a1, ans, a2. split_and!; [done|done|done|].
  destruct Hsv as [Hf|[Hf|Ht]]; [right|right|by left]; intros u;
    destruct (found_again_loads _ _ u Hf) as (store & w2 & Hrun & Hnm & Hset); exists store, w2; auto.
Qed.
End refinement.

(** ** A concrete history *)

Module Histories.
Import CatalogTheorems.Concrete Toy DaemonProofs.Concrete.

Definition initial : directory := names (Daemon.entries running).

Lemma running_represents : represents root fs running initial.
Proof. split; [exact running_ok|exact running_handles|exact running_droppable|reflexivity]. Qed.

Lemma id2_unused i : i ∈ [id2] → unused root fs i.
Proof.
  intros ->%list_elem_of_singleton. split; [exact id2_fresh|].
  split; [intros _|]; apply fs_vacant; vm_compute; repeat constructor.
Qed.

Definition requests : list request := [QCreate id2 "notes"; QRename "notes" "docs"; QList].

(** The answers of a run, without the daemon. *)
Definition answers_of (x : option (list answer * DatabaseDaemon)) : option (list answer) := fst <$> x.

(** Without a crash, and with one at the tenth system call. *)
Lemma daemon_refines_directory_witness :
  (∃ answers d' w' a', perform_all requests running (fresh fs 18) = (Some (answers, d'), w')
     ∧ allowed initial requests answers a' ∧ represents root (w_fs w') d' a')
  ∧ ∃ w', perform_all requests running (World fs (replicate 9 NoFault ++ [CrashAt 0]) 18) = (None, w')
      ∧ ∃ before q rest answers a1 ans a2,
          requests = before ++ q :: rest ∧ allowed initial before answers a1 ∧ allows a1 q ans a2.
Proof.
  pose proof (λ w Hw, daemon_refines_directory root requests running initial w Hw (NoDup_singleton id2)) as H.
  split.
  - specialize (H (fresh fs 18) running_represents id2_unused).
    assert (is_Some (answers_of (perform_all requests running (fresh fs 18)).1)) as Hn by (vm_compute; by eexists).
    destruct (perform_all requests running (fresh fs 18)) as [[[answers d']|] w']; [|by destruct Hn].
    destruct (H (Forall_nil_2 _)) as (a' & Hal & Hrp). exists answers, d', w', a'. split; [reflexivity|].
    split; [exact Hal|exact Hrp].
  - specialize (H (World fs (replicate 9 NoFault ++ [CrashAt 0]) 18) running_represents
      id2_unused ltac:(by repeat constructor)).
    assert (answers_of (perform_all requests running (World fs (replicate 9 NoFault ++ [CrashAt 0]) 18)).1 = None)
      as Hn by (vm_compute; reflexivity).
    destruct (perform_all requests running (World fs (replicate 9 NoFault ++ [CrashAt 0]) 18)) as [[[answers d']|] w'];
      [discriminate Hn|]. exists w'. split; [reflexivity|].
    destruct H as (before & q & rest & answers & a1 & ans & a2 & Hq & Hal & Hall & _).
    exists before, q, rest, answers, a1, ans, a2. split; [exact Hq|]. split; [exact Hal|exact Hall].
Defined.

End Histories.
