(* ===== verification/Restore.v ===== *)
(** * Snapshot restore and its recovery ([src/src/daemon.rs])

    Replacing the data file of a managed Database by an uploaded snapshot: the
    candidate is written and validated, a journal is written, the live file is
    set aside, the candidate is installed, and everything is cleaned up; at
    start-up an interrupted restore is completed or undone. *)

From Stdlib Require Import ZArith Lia Ascii.
From stdpp Require Import base list strings gmap.
From S2P Require Import Prelude Fs Codec Catalog Wire Messages Config Protocol Engine Daemon.

Open Scope string_scope.
Open Scope list_scope.

Record RestoreJournal : Type := mkRestoreJournal {
  restore_operation_version : Z;
  restore_database_id : string;
  restore_stage : string
}.

#[global] Instance RestoreJournal_eq_dec : EqDecision RestoreJournal.
Proof. solve_decision. Defined.

(** The files of a Database's directory that a restore uses. *)
Definition target_file (directory : path) : path := join directory "database.nostdb".
Definition candidate_file (directory : path) : path :=
  join directory "database.nostdb.restore-candidate".
Definition backup_file (directory : path) : path := join directory "database.nostdb.restore-backup".
Definition journal_file (directory : path) : path := join directory "restore-operation".

(** ** File helpers *)

Definition sync_restore_directory (directory : path) : io (result unit ServerError) :=
  io_map_err (λ e, "cannot sync restore directory " +:+ display directory +:+ ": " +:+ io_text e)
    (sync_dir directory).

(** Errors of the removal of a lock file are ignored. *)
Definition remove_sidecar (p : path) : io unit :=
  let* _ := remove_file (sidecar p) in ret tt.

Definition remove_file_and_sidecar (p : path) : io (result unit ServerError) :=
  let* present := query (λ fs, exists_ fs p) in
  let? _ := (if (present : bool) then io_map_err io_text (remove_file p) else ret (Ok tt)) in
  let* _ := remove_sidecar p in
  ret (Ok tt).

Definition remove_restore_file (p : path) : io (result unit ServerError) :=
  let* r := remove_file p in
  match r with
  | Ok _ => ret (Ok tt)
  | Err e =>
      if decide (kind e = NotFound) then ret (Ok tt)
      else ret (Err ("cannot remove " +:+ display p +:+ ": " +:+ io_text e))
  end.

Definition write_new_synced (p : path) (b : bytes) : io (result unit ProtocolFailure) :=
  let? _ := io_map_err (λ e, internal (io_text e)) (open_new default_mode p) in
  let* r := write_all_sync p b in
  match r with
  | Ok _ => ret (Ok tt)
  | Err e =>
      let* r := remove_file p in
      match r with
      | Ok _ => ret (Err (internal ("cannot persist " +:+ display p +:+ ": " +:+ io_text e)))
      | Err ce =>
          if decide (kind ce = NotFound) then
            ret (Err (internal ("cannot persist " +:+ display p +:+ ": " +:+ io_text e)))
          else
            ret (Err (internal ("cannot persist " +:+ display p +:+ ": " +:+ io_text e
                      +:+ "; cannot remove partial file: " +:+ io_text ce)))
      end
  end.

Definition write_restore_journal `{!Json RestoreJournal} (p : path) (i stage : string)
    : io (result unit ProtocolFailure) :=
  match to_vec_pretty (mkRestoreJournal 1 i stage) with
  | Err e => ret (Err (internal e))
  | Ok b => write_new_synced p b
  end.

Definition cleanup_unjournaled_restore_candidate (directory : path) : io (result unit ServerError) :=
  let target := target_file directory in
  let candidate := candidate_file directory in
  let backup := backup_file directory in
  let journal := journal_file directory in
  let* nothing := query (λ fs, exists_ fs journal
                               || (negb (exists_ fs candidate) && negb (exists_ fs backup))) in
  if (nothing : bool) then ret (Ok tt)
  else
    let* abandoned := query (λ fs, exists_ fs target && exists_ fs candidate
                                   && negb (exists_ fs backup)) in
    if (abandoned : bool) then
      let? _ := remove_file_and_sidecar candidate in
      sync_restore_directory directory
    else
      ret (Err "snapshot restore files exist without a journal; operator recovery is required").

Definition cleanup_uncommitted_restore (directory : path) : io (result unit ServerError) :=
  let? _ := remove_restore_file (candidate_file directory) in
  let* _ := remove_sidecar (candidate_file directory) in
  let? _ := sync_restore_directory directory in
  let? _ := remove_restore_file (journal_file directory) in
  sync_restore_directory directory.

(** Failures are only logged. *)
Definition cleanup_committed_restore (directory : path) : io unit :=
  let* r := remove_restore_file (backup_file directory) in
  match r with
  | Err _ => ret tt
  | Ok _ =>
      let* _ := remove_sidecar (backup_file directory) in
      let* r := sync_restore_directory directory in
      match r with
      | Err _ => ret tt
      | Ok _ =>
          let* r := remove_restore_file (journal_file directory) in
          let* _ := (match r with
                     | Err _ => ret (Ok tt)
                     | Ok _ => sync_restore_directory directory
                     end) in
          remove_sidecar (candidate_file directory)
      end
  end.

Section restore.
Context `{!Engine, !Json RestoreJournal}.

(** ** Restoring *)

Definition incompatible (text : string) : ProtocolFailure := failure SnapshotIncompatible text.
Definition recovery_required (text : string) : ProtocolFailure :=
  retryable_failure RecoveryRequired text.

(** A candidate is opened, checked, adopted and checkpointed; its handle is
    closed in any case. *)
Definition adopt_candidate {E} (refused : string → E) (candidate : path) : io (result unit E) :=
  let? proposed := io_map_err (λ e, refused (database_error_text e)) (engine_open candidate) in
  let* r := engine_check proposed in
  match r with
  | Err e =>
      let* _ := engine_close proposed in ret (Err (refused (database_error_text e)))
  | Ok false =>
      let* _ := engine_close proposed in
      ret (Err (refused "snapshot integrity check failed"))
  | Ok true =>
      let* (r, proposed) := engine_adopt_server_authority proposed in
      match r with
      | Err e =>
          let* _ := engine_close proposed in ret (Err (refused (database_error_text e)))
      | Ok _ =>
          let* (r, proposed) := engine_checkpoint proposed in
          let* _ := engine_close proposed in
          ret (map_err (λ e, refused (database_error_text e)) r)
      end
  end.

(** The uploaded bytes are written to the candidate, which is then adopted. *)
Definition prepare_candidate (candidate : path) (b : bytes) : io (result unit ProtocolFailure) :=
  let? _ := write_new_synced candidate b in
  adopt_candidate incompatible candidate.

(** What a restore gives: its result and the handle after it. *)
Definition restored : Type := result unit ProtocolFailure * ManagedDatabase.

(** The candidate and the journal are removed after [message]. *)
Definition cleanup_after (directory : path) (message : string) (e : ProtocolFailure)
    : io (result unit ProtocolFailure) :=
  let* r := cleanup_uncommitted_restore directory in
  match r with
  | Ok _ => ret (Err e)
  | Err ce =>
      ret (Err (recovery_required (message +:+ "; restore cleanup requires restart: " +:+ ce)))
  end.

(** Back on the live file after [message]: reopened, and the restore cleaned up. *)
Definition reopen_live (h : ManagedDatabase) (directory : path) (message not_reopened : string)
    : io restored :=
  let* r := engine_open (handle_path h) in
  match r with
  | Ok db =>
      let* r := cleanup_after directory message (internal message) in
      ret (r, set_database (Some db) h)
  | Err e =>
      ret (Err (recovery_required (message +:+ not_reopened +:+ database_error_text e)), h)
  end.

(** A [sync_restore_directory(..).map_err(internal)?] before [k]. *)
Definition synced (directory : path) (h : ManagedDatabase) (k : io restored) : io restored :=
  let* r := sync_restore_directory directory in
  match r with
  | Err e => ret (Err (internal e), h)
  | Ok _ => k
  end.

(** The installed snapshot does not open: it is removed and the backup returns. *)
Definition undo_installation (h : ManagedDatabase) (directory : path) (e : DatabaseError)
    : io restored :=
  let message := "installed snapshot could not reopen: " +:+ database_error_text e in
  let* r := remove_file (handle_path h) in
  match r with
  | Err re =>
      ret (Err (recovery_required (message +:+ "; cannot remove it for rollback: " +:+ io_text re)), h)
  | Ok _ =>
      let* _ := remove_sidecar (handle_path h) in
      synced directory h (
        let* r := rename (backup_file directory) (handle_path h) in
        match r with
        | Err re =>
            ret (Err (recovery_required
              (message +:+ "; cannot restore the live Database: " +:+ io_text re)), h)
        | Ok _ =>
            synced directory h
              (reopen_live h directory message "; restored live Database could not reopen: ")
        end)
  end.

(** With the live file set aside, the candidate takes its place. *)
Definition install_candidate (h : ManagedDatabase) (directory : path) : io restored :=
  let* r := rename (candidate_file directory) (handle_path h) in
  match r with
  | Err ie =>
      let message := "cannot install snapshot: " +:+ io_text ie in
      let* r := rename (backup_file directory) (handle_path h) in
      match r with
      | Err re =>
          ret (Err (recovery_required (message +:+ "; cannot restore the live Database: "
                    +:+ io_text re +:+ "; restart recovery is required")), h)
      | Ok _ =>
          synced directory h
            (reopen_live h directory message "; restored live Database could not reopen: ")
      end
  | Ok _ =>
      synced directory h (
        let* r := engine_open (handle_path h) in
        match r with
        | Ok db =>
            let* _ := cleanup_committed_restore directory in
            ret (Ok tt, set_database (Some db) h)
        | Err e => undo_installation h directory e
        end)
  end.

(** From the prepared journal on: the live database is closed and replaced. *)
Definition replace_live (h : ManagedDatabase) (directory : path) : io restored :=
  match handle_database h with
  | None => ret (Err unavailable, h)
  | Some current =>
      let* (r, current) := engine_checkpoint current in
      match r with
      | Err e =>
          let f := database_failure e None in
          let* r := cleanup_after directory (failure_message f) f in
          ret (r, set_database (Some current) h)
      | Ok _ =>
          let* _ := engine_close current in
          let h := set_database None h in
          let* r := rename (handle_path h) (backup_file directory) in
          match r with
          | Err e =>
              reopen_live h directory
                ("cannot move the live Database for snapshot installation: " +:+ io_text e)
                "; the live Database could not reopen: "
          | Ok _ => synced directory h (install_candidate h directory)
          end
      end
  end.

(** The closure of [restore_snapshot_with_operations]. *)
Definition restore_attempt (h : ManagedDatabase) (directory : path) (b : bytes) : io restored :=
  let* r := prepare_candidate (candidate_file directory) b in
  match r with
  | Err e => ret (Err e, h)
  | Ok _ =>
      let* r := write_restore_journal (journal_file directory) (handle_id h) "prepared" in
      match r with
      | Err e => ret (Err e, h)
      | Ok _ => synced directory h (replace_live h directory)
      end
  end.

(** An error before the journal leaves no candidate behind. *)
Definition discard_candidate (directory : path) : io unit :=
  let candidate := candidate_file directory in
  let* left_over := query (λ fs, exists_ fs candidate && negb (exists_ fs (journal_file directory))) in
  if (left_over : bool) then
    let* r := remove_file candidate in
    match r with
    | Err _ => ret tt
    | Ok _ =>
        let* _ := remove_sidecar candidate in
        let* _ := sync_restore_directory directory in
        ret tt
    end
  else ret tt.

Definition restore_snapshot (h : ManagedDatabase) (b : bytes) : io restored :=
  match b with
  | [] => ret (Err (incompatible "snapshot is empty"), h)
  | _ =>
      let directory := parent (handle_path h) in
      let* r := cleanup_unjournaled_restore_candidate directory in
      match r with
      | Err e => ret (Err (internal e), h)
      | Ok _ =>
          let* busy := query (λ fs, existsb (exists_ fs)
                         [candidate_file directory; backup_file directory; journal_file directory]) in
          if (busy : bool) then
            ret (Err (recovery_required
              "a previous snapshot restore requires daemon restart recovery"), h)
          else
            let* (r, h') := restore_attempt h directory b in
            let* _ := (if is_err r then discard_candidate directory else ret tt) in
            ret (r, h')
      end
  end.

(** [DatabaseDaemon::restore_snapshot] *)
Definition daemon_restore (n : string) (b : bytes) (d : DatabaseDaemon) : io (outcome unit) :=
  match handle_for_name n d with
  | Err e => fail e d
  | Ok h =>
      let* (r, h') := restore_snapshot h b in
      ret (r, set_databases (<[handle_id h := h']> (daemon_databases d)) d)
  end.

(** ** Recovery at start-up *)

Definition validate_recovered_snapshot (p : path) : io (result unit ServerError) :=
  let? db := io_map_err
      (λ e, "cannot open restored Database " +:+ display p +:+ ": " +:+ database_error_text e)
      (engine_open p) in
  let* report := engine_check db in
  let* _ := engine_close db in
  ret (match report with
       | Err e => Err ("cannot check restored Database " +:+ display p +:+ ": "
                       +:+ database_error_text e)
       | Ok true => Ok tt
       | Ok false => Err ("restored Database " +:+ display p +:+ " failed integrity validation")
       end).

Definition recover_or_accept_installed_snapshot (target backup : path)
    : io (result unit ServerError) :=
  let* validation := validate_recovered_snapshot target in
  match validation with
  | Ok _ => ret (Ok tt)
  | Err validation_error =>
      let* r := remove_file target in
      match r with
      | Err re =>
          ret (Err ("installed snapshot is invalid (" +:+ validation_error
            +:+ ") and cannot be removed: " +:+ io_text re
            +:+ "; original backup and recovery journal were retained"))
      | Ok _ =>
          let* _ := remove_sidecar target in
          let directory := parent target in
          let? _ := sync_restore_directory directory in
          let? _ := io_map_err
              (λ re, "installed snapshot is invalid (" +:+ validation_error
                 +:+ ") and the original backup could not be restored: " +:+ io_text re)
              (rename backup target) in
          let? _ := sync_restore_directory directory in
          io_map_err
            (λ re, "the installed snapshot was invalid (" +:+ validation_error
               +:+ ") and the restored original Database is also invalid: " +:+ re)
            (validate_recovered_snapshot target)
      end
  end.

(** The [match (target.exists(), candidate.exists(), backup.exists())]. *)
Definition settle_restore (directory : path) : io (result unit ServerError) :=
  let target := target_file directory in
  let candidate := candidate_file directory in
  let backup := backup_file directory in
  let* present := query (λ fs, (exists_ fs target, exists_ fs candidate, exists_ fs backup)) in
  match present with
  | (true, true, false) => remove_file_and_sidecar candidate
  | (false, true, true) =>
      let? _ := io_map_err (λ e, "cannot finish snapshot installation: " +:+ io_text e)
                  (rename candidate target) in
      let? _ := sync_restore_directory directory in
      recover_or_accept_installed_snapshot target backup
  | (true, false, true) => recover_or_accept_installed_snapshot target backup
  | (true, false, false) => ret (Ok tt)
  | (false, false, true) =>
      let? _ := io_map_err (λ e, "cannot roll back snapshot restore: " +:+ io_text e)
                  (rename backup target) in
      sync_restore_directory directory
  | _ => ret (Err "snapshot restore files are inconsistent; operator recovery is required")
  end.

(** The loop body of [recover_snapshot_operations] for one directory. *)
Definition recover_restore (directory : path) (file_name : string) : io (result unit ServerError) :=
  let journal_path := journal_file directory in
  let? _ := cleanup_unjournaled_restore_candidate directory in
  let* journaled := query (λ fs, exists_ fs journal_path) in
  if negb journaled then ret (Ok tt)
  else
    let? b := io_map_err io_text (read journal_path) in
    match from_slice b with
    | Err e => ret (Err ("invalid restore journal: " +:+ e))
    | Ok journal =>
        if negb (restore_operation_version journal =? 1)%Z
           || negb (String.eqb (restore_database_id journal) file_name) then
          ret (Err "restore journal identity or version is invalid; operator recovery is required")
        else if negb (String.eqb (restore_stage journal) "prepared") then
          ret (Err "restore journal stage is invalid; operator recovery is required")
        else
          let? _ := settle_restore directory in
          let? _ := remove_file_and_sidecar (candidate_file directory) in
          let? _ := remove_file_and_sidecar (backup_file directory) in
          let? _ := sync_restore_directory directory in
          let? _ := io_map_err io_text (remove_file journal_path) in
          sync_restore_directory directory
    end.

Fixpoint recover_each (databases : path) (names : list string) : io (result unit ServerError) :=
  match names with
  | [] => ret (Ok tt)
  | n :: names' =>
      let directory := join databases n in
      let* present := query (λ fs, is_dir fs directory) in
      if negb present then recover_each databases names'
      else
        let? _ := recover_restore directory n in
        recover_each databases names'
  end.

Definition recover_snapshot_operations (root : path) : io (result unit ServerError) :=
  let databases := join root "databases" in
  let* present := query (λ fs, is_dir fs databases) in
  if negb present then ret (Ok tt)
  else
    let? names := io_map_err (λ e, "cannot inspect restore state: " +:+ io_text e)
                    (read_dir databases) in
    recover_each databases names.
End restore.
