(* ===== verification/Slots.v ===== *)
(** * Database files of a directory as slots

    What restoring relies on in the engine, and a view of a directory as four
    slots (the live file, a candidate, a backup and a journal) on which every
    step of a restore is a small change. *)

From Stdlib Require Import ZArith Lia Ascii.
From stdpp Require Import base list strings gmap.
From S2P Require Import Prelude Fs Codec Catalog CatalogAtomic CatalogRecovery Wire Messages Config.
From S2P Require Import Protocol Engine Daemon DaemonProofs Restore.

Open Scope string_scope.
Open Scope list_scope.

(** ** What restore relies on in the engine

    [logical b] is the logical content of a database file, if it is a sound
    one.  Opening, checking, adopting, checkpointing and closing a database
    keep its logical content, also when they fail or the process dies in them;
    opening and checking a sound file succeeds unless the system calls fail;
    only a sound file passes the check. *)

Class Snapshots `{!Engine} : Type := {
  logical_state : Type;
  logical : bytes → option logical_state
}.

Definition node_logical `{Snapshots} (n : option node) : option logical_state :=
  match n with Some (NFile _ b) => logical b | _ => None end.

Definition node_is_file (n : option node) : bool :=
  match n with Some (NFile _ _) => true | _ => false end.

(** The file is still there with the same logical content. *)
Definition same_data `{Snapshots} (n n' : option node) : Prop :=
  node_is_file n' = node_is_file n ∧ node_logical n' = node_logical n.

#[global] Instance same_data_refl `{Snapshots} : Reflexive same_data.
Proof. by intros n. Qed.
#[global] Instance same_data_trans `{Snapshots} : Transitive same_data.
Proof. intros n1 n2 n3 [Ha Ha'] [Hb Hb']. split; congruence. Qed.

Definition keeps_data `{Snapshots} (p : path) (fs fs' : fsys) : Prop :=
  own_files p fs fs' ∧ same_data (fs !! p) (fs' !! p).

Class SnapshotLaws `{Snapshots} : Prop := {
  snapshot_open m p fs :
    wp m (engine_open p) fs
      (λ r fs', keeps_data p fs fs' ∧
                match r with
                | Ok db => edb_path db = p
                | Err _ => node_logical (fs !! p) = None ∨ errors m = true
                end) (keeps_data p fs);
  snapshot_check m db fs :
    wp m (engine_check db) fs
      (λ r fs', keeps_data (edb_path db) fs fs' ∧
                (r = Ok true → is_Some (node_logical (fs !! edb_path db))) ∧
                (errors m = false → is_Some (node_logical (fs !! edb_path db)) → r = Ok true))
      (keeps_data (edb_path db) fs);
  snapshot_adopt m db fs :
    wp m (engine_adopt_server_authority db) fs
      (λ '(_, db') fs', keeps_data (edb_path db) fs fs' ∧ edb_path db' = edb_path db)
      (keeps_data (edb_path db) fs);
  snapshot_checkpoint m db fs :
    wp m (engine_checkpoint db) fs
      (λ '(_, db') fs', keeps_data (edb_path db) fs fs' ∧ edb_path db' = edb_path db)
      (keeps_data (edb_path db) fs);
  snapshot_close m db fs :
    wp m (engine_close db) fs (λ _, keeps_data (edb_path db) fs) (keeps_data (edb_path db) fs)
}.

(** ** The four slots of a directory *)

Inductive slot : Type := Target | Candidate | Backup | Journal.

#[global] Instance slot_eq_dec : EqDecision slot.
Proof. solve_decision. Defined.

Record view : Type := mkView {
  v_target : option node;
  v_candidate : option node;
  v_backup : option node;
  v_journal : option node
}.

Definition get (s : slot) (v : view) : option node :=
  match s with
  | Target => v_target v
  | Candidate => v_candidate v
  | Backup => v_backup v
  | Journal => v_journal v
  end.

Definition set (s : slot) (n : option node) (v : view) : view :=
  match s with
  | Target => mkView n (v_candidate v) (v_backup v) (v_journal v)
  | Candidate => mkView (v_target v) n (v_backup v) (v_journal v)
  | Backup => mkView (v_target v) (v_candidate v) n (v_journal v)
  | Journal => mkView (v_target v) (v_candidate v) (v_backup v) n
  end.

Lemma view_ext v v' : (∀ s, get s v = get s v') → v = v'.
Proof.
  intros Hv. pose proof (Hv Target). pose proof (Hv Candidate). pose proof (Hv Backup).
  pose proof (Hv Journal). destruct v, v'. simpl in *. by subst.
Qed.

Lemma get_set s s' n v : get s (set s' n v) = if decide (s = s') then n else get s v.
Proof. by destruct s, s'. Qed.

(** Where the four files are: different names in one directory, none of which
    is the lock file of another. *)
Class Slots : Type := {
  slot_dir : path;
  slot_name : slot → string;
  slot_name_inj s s' : slot_name s = slot_name s' → s = s';
  slot_name_sidecar s s' : slot_name s ≠ slot_name s' +:+ ".lock"
}.

Definition slot_path `{Slots} (s : slot) : path := join slot_dir (slot_name s).

Definition not_dir (n : option node) : Prop := n ≠ Some NDir.

(** A mode in which system calls do not fail. *)
Class Faultless (m : mode) : Prop := faultless : errors m = false.

Section slots.
Context `{!Engine, !Snapshots, !SnapshotLaws, !Slots}.
Context {fs0 : fsys}.
Implicit Types (fs : fsys) (v : view) (m : mode).

Lemma slot_path_inj s s' : slot_path s = slot_path s' → s = s'.
Proof. intros Hn%join_inj. by apply slot_name_inj. Qed.

Lemma slot_not_sidecar s s' : slot_path s ≠ sidecar (slot_path s').
Proof. unfold slot_path. rewrite sidecar_join. intros Hn%join_inj. by apply slot_name_sidecar in Hn. Qed.

Lemma slot_inside s : slot_dir `prefix_of` slot_path s.
Proof. unfold slot_path. unfold join. by apply prefix_app_r. Qed.

Lemma sidecar_inside s : slot_dir `prefix_of` sidecar (slot_path s).
Proof. unfold slot_path. rewrite sidecar_join. unfold join. by apply prefix_app_r. Qed.

Lemma slot_not_dir s : slot_path s ≠ slot_dir.
Proof. unfold slot_path. intros Heq. apply (f_equal length) in Heq.
  unfold join in Heq. rewrite length_app in Heq. simpl in Heq. lia. Qed.

Lemma sidecar_not_dir s : sidecar (slot_path s) ≠ slot_dir.
Proof. unfold slot_path. rewrite sidecar_join. intros Heq. apply (f_equal length) in Heq.
  unfold join in Heq. rewrite length_app in Heq. simpl in Heq. lia. Qed.

(** [fs] shows [v] in the directory and is [fs0] outside it. *)
Record views fs v : Prop := {
  vw_dir : fs !! slot_dir = Some NDir;
  vw_slot s : fs !! slot_path s = get s v;
  vw_outside : same_outside [slot_dir] fs0 fs
}.

(** Changing one slot. *)
Lemma views_set fs v s fs' n :
  views fs v → same_except [slot_path s; sidecar (slot_path s)] fs fs' →
  fs' !! slot_path s = n → views fs' (set s n v).
Proof.
  intros [Hd Hs Ho] Hsame Hn. split.
  - rewrite Hsame; [done|]. rewrite !not_elem_of_cons.
    split_and!; [intros Heq; by apply (slot_not_dir s)|intros Heq; by apply (sidecar_not_dir s)|
      apply not_elem_of_nil].
  - intros s'. rewrite get_set. case_decide as Hss; [by subst|].
    rewrite Hsame; [apply Hs|]. rewrite !not_elem_of_cons.
    split_and!; [by intros ?%slot_path_inj|apply slot_not_sidecar|apply not_elem_of_nil].
  - intros k Hk. rewrite Hsame; [by apply Ho|]. specialize (Hk slot_dir ltac:(by left)).
    rewrite !not_elem_of_cons. split_and!; [| |apply not_elem_of_nil]; intros ->; apply Hk;
      [apply slot_inside|apply sidecar_inside].
Qed.

Lemma set_get s v : set s (get s v) v = v.
Proof. by destruct s, v. Qed.

Lemma views_sidecar fs v s fs' :
  views fs v → same_except [sidecar (slot_path s)] fs fs' → views fs' v.
Proof.
  intros Hv Hsame. rewrite <-(set_get s v). eapply views_set; [done| |].
  - eapply same_except_mono; [|exact Hsame]. set_solver.
  - rewrite Hsame; [apply Hv|]. intros ?%list_elem_of_singleton. by apply (slot_not_sidecar s s).
Qed.

(** A computation seen through the slots. *)
Definition wpv {A} m (c : io A) v (Q : A → view → Prop) (C : view → Prop) : Prop :=
  ∀ fs, views fs v →
    wp m c fs (λ a fs', ∃ v', views fs' v' ∧ Q a v') (λ fs', ∃ v', views fs' v' ∧ C v').

Lemma wpv_ret {A} m (a : A) v (Q : A → view → Prop) C : Q a v → wpv m (ret a) v Q C.
Proof. intros HQ fs Hv. apply wp_ret. eauto. Qed.

Lemma wpv_bind {A B} m (c : io A) (k : A → io B) v Q C :
  wpv m c v (λ a v', wpv m (k a) v' Q C) C → wpv m (bind c k) v Q C.
Proof.
  intros Hc fs Hv. apply wp_bind. eapply wp_mono; [by apply Hc| |done].
  intros a fs' (v' & Hv' & Hk). by apply Hk.
Qed.

Lemma wpv_try {A B E} m (c : io (result A E)) (k : A → io (result B E)) v Q C :
  wpv m c v (λ r v', match r with Ok a => wpv m (k a) v' Q C | Err e => Q (Err e) v' end) C →
  wpv m (try_bind c k) v Q C.
Proof.
  intros Hc fs Hv. apply wp_try. eapply wp_mono; [by apply Hc| |done].
  intros [a|e] fs' (v' & Hv' & Hk); [by apply Hk|eauto].
Qed.

Lemma wpv_map_err {A E F} m (f : E → F) (c : io (result A E)) v Q C :
  wpv m c v (λ r, Q (map_err f r)) C → wpv m (io_map_err f c) v Q C.
Proof. intros Hc fs Hv. apply wp_map_err. by apply Hc. Qed.

Lemma wpv_mono {A} m (c : io A) v (Q Q' : A → view → Prop) (C C' : view → Prop) :
  wpv m c v Q C → (∀ a v', Q a v' → Q' a v') → (∀ v', C v' → C' v') → wpv m c v Q' C'.
Proof.
  intros Hc HQ HC fs Hv. eapply wp_mono; [by apply Hc| |]; naive_solver.
Qed.

(** Tests for existence only see the slots. *)
Lemma wpv_query {A} m (q : fsys → A) (q' : view → A) v Q C :
  (∀ fs, views fs v → q fs = q' v) → Q (q' v) v → wpv m (query q) v Q C.
Proof. intros Hq HQ fs Hv. apply wp_query. rewrite (Hq fs Hv). eauto. Qed.

Definition here (s : slot) v : bool := match get s v with Some _ => true | None => false end.

Lemma exists_here fs v s : views fs v → exists_ fs (slot_path s) = here s v.
Proof. intros Hv. unfold exists_, here. by rewrite (vw_slot _ _ Hv). Qed.

(** ** Rules for the steps, when system calls do not fail *)

Section steps.
Context {m : mode} `{!Faultless m}.

Lemma no_errors (P : Prop) : errors m = true → P.
Proof. by rewrite faultless. Qed.

Lemma wpv_remove s v mo c Q C :
  get s v = Some (NFile mo c) → Q (Ok tt) (set s None v) → C v →
  wpv m (remove_file (slot_path s)) v Q C.
Proof.
  intros Hs HQ HC fs Hv. eapply wp_remove_file; [by rewrite (vw_slot _ _ Hv)| | |eauto].
  - exists (set s None v). split; [|done]. eapply views_set; [done| |by rewrite lookup_delete_eq].
    auto with nostdb.
  - intros He. by apply no_errors.
Qed.

Lemma wpv_remove_absent s v Q C :
  get s v = None → Q (Err Fs.not_found) v → C v → wpv m (remove_file (slot_path s)) v Q C.
Proof.
  intros Hs HQ HC fs Hv. eapply wp_remove_absent; [by rewrite (vw_slot _ _ Hv)|eauto| |eauto].
  intros He. by apply no_errors.
Qed.

Lemma wpv_sidecar s v Q C : Q tt v → C v → wpv m (remove_sidecar (slot_path s)) v Q C.
Proof.
  intros HQ HC fs Hv. apply wp_bind, wp_syscall; [| |eauto].
  - apply wp_ret. exists v. split; [|done]. apply (views_sidecar fs v s); [done|].
    unfold do_remove_file. repeat case_match; simpl; try apply same_except_refl.
    auto with nostdb.
  - intros He. by apply no_errors.
Qed.

Lemma wpv_sync v Q C : Q (Ok tt) v → C v → wpv m (sync_restore_directory slot_dir) v Q C.
Proof.
  intros HQ HC. apply wpv_map_err. intros fs Hv.
  apply wp_sync_dir; [apply Hv|eauto| |eauto]. intros He. by apply no_errors.
Qed.

Lemma set_none_absent s v : get s v = None → set s None v = v.
Proof. intros Hs. by rewrite <-Hs, set_get. Qed.

Lemma wpv_remove_restore_file s v Q C :
  not_dir (get s v) → Q (Ok tt) (set s None v) → C v →
  wpv m (remove_restore_file (slot_path s)) v Q C.
Proof.
  intros Hd HQ HC. unfold remove_restore_file. apply wpv_bind.
  destruct (get s v) as [[mo c|]|] eqn:Hs; [| |].
  - eapply wpv_remove; [done|by apply wpv_ret|done].
  - by destruct Hd.
  - rewrite set_none_absent in HQ by done. apply wpv_remove_absent; [done|by apply wpv_ret|done].
Qed.

Lemma wpv_remove_both s v Q C :
  not_dir (get s v) → Q (Ok tt) (set s None v) → C v → C (set s None v) →
  wpv m (remove_file_and_sidecar (slot_path s)) v Q C.
Proof.
  intros Hd HQ HC HC'. unfold remove_file_and_sidecar. apply wpv_bind.
  apply (wpv_query _ _ (here s)); [intros fs; apply exists_here|]. apply wpv_try. unfold here.
  destruct (get s v) as [[mo c|]|] eqn:Hs; [| |].
  - apply wpv_map_err. eapply wpv_remove; [done| |done]. simpl.
    apply wpv_bind, wpv_sidecar; [by apply wpv_ret|done].
  - by destruct Hd.
  - rewrite set_none_absent in HQ by done. apply wpv_ret.
    apply wpv_bind, wpv_sidecar; [by apply wpv_ret|done].
Qed.

Lemma wpv_rename s s' v mo c Q C :
  s ≠ s' → get s v = Some (NFile mo c) → not_dir (get s' v) →
  Q (Ok tt) (set s' (Some (NFile mo c)) (set s None v)) → C v →
  wpv m (rename (slot_path s) (slot_path s')) v Q C.
Proof.
  intros Hne Hs Hd HQ HC fs Hv.
  eapply wp_rename_file; [by rewrite (vw_slot _ _ Hv)| | | | |eauto].
  - unfold is_dir. rewrite (vw_slot _ _ Hv). by destruct (get s' v) as [[]|].
  - unfold slot_path; rewrite parent_join. apply Hv.
  - eexists. split; [|exact HQ].
    apply (views_set (delete (slot_path s) fs)); [apply (views_set fs); [exact Hv| |]| |].
    + auto with nostdb.
    + by rewrite lookup_delete_eq.
    + auto with nostdb.
    + by rewrite lookup_insert_eq.
  - intros He. by apply no_errors.
Qed.

Lemma wpv_write_new s v b Q C :
  get s v = None → (∀ mo, Q (Ok tt) (set s (Some (NFile mo b)) v)) →
  C v → (∀ mo n, C (set s (Some (NFile mo (take n b))) v)) →
  wpv m (write_new_synced (slot_path s) b) v Q C.
Proof.
  intros Hs HQ HC HC' fs Hv. unfold write_new_synced. apply wp_try, wp_map_err.
  assert (∀ mo c fs', same_except [slot_path s] fs fs' → fs' !! slot_path s = Some (NFile mo c) →
    views fs' (set s (Some (NFile mo c)) v)) as Hset.
  { intros mo c fs' Hsame Hc. eapply views_set; [done| |done].
    eapply same_except_mono; [|exact Hsame]. set_solver. }
  apply wp_open_new; [by rewrite (vw_slot _ _ Hv)| | | |eauto].
  - unfold slot_path; rewrite parent_join. apply Hv.
  - intros u. simpl. apply wp_bind. eapply wp_write_all_sync; [by rewrite lookup_insert_eq|..].
    + rewrite insert_insert_eq. apply wp_ret. eexists. split; [|apply HQ].
      apply Hset; [|by rewrite lookup_insert_eq].
      auto with nostdb.
    + intros He. by apply no_errors.
    + intros _ n. rewrite insert_insert_eq. eexists. split; [|apply HC'].
      apply Hset; [|by rewrite lookup_insert_eq].
      auto with nostdb.
  - intros He. by apply no_errors.
Qed.

(** An engine call on slot [s]: the slot keeps its data. *)
Lemma wpv_engine {A} s (c : io A) (R : A → option node → Prop) v Q C :
  (∀ fs, wp m c fs (λ a fs', keeps_data (slot_path s) fs fs' ∧ R a (fs !! slot_path s))
           (keeps_data (slot_path s) fs)) →
  (∀ a n, same_data (get s v) n → R a (get s v) → Q a (set s n v)) →
  (∀ n, same_data (get s v) n → C (set s n v)) →
  wpv m c v Q C.
Proof.
  intros Hc HQ HC fs Hv. eapply wp_mono; [apply Hc| |].
  - intros a fs' [[Hown Hdata] HR]. rewrite (vw_slot _ _ Hv) in *. eexists.
    split; [by eapply views_set|]. by apply HQ.
  - intros fs' [Hown Hdata]. rewrite (vw_slot _ _ Hv) in *. eexists.
    split; [by eapply views_set|]. by apply HC.
Qed.

Lemma wpv_open s v Q C :
  (∀ db n, edb_path db = slot_path s → same_data (get s v) n → Q (Ok db) (set s n v)) →
  (∀ e n, node_logical (get s v) = None → same_data (get s v) n → Q (Err e) (set s n v)) →
  (∀ n, same_data (get s v) n → C (set s n v)) →
  wpv m (engine_open (slot_path s)) v Q C.
Proof.
  intros HO HE HC. eapply (wpv_engine s _ (λ r n, match r with
    | Ok db => edb_path db = slot_path s
    | Err _ => node_logical n = None ∨ errors m = true end)); [intros fs; apply snapshot_open| |done].
  intros [db|e] n Hn HR; [by apply HO|]. destruct HR as [HR|HR]; [by apply HE|by apply no_errors].
Qed.

Lemma wpv_check s db v Q C :
  edb_path db = slot_path s →
  (∀ r n, same_data (get s v) n → (r = Ok true ↔ is_Some (node_logical (get s v))) →
     Q r (set s n v)) →
  (∀ n, same_data (get s v) n → C (set s n v)) →
  wpv m (engine_check db) v Q C.
Proof.
  intros Hdb HQ HC. eapply (wpv_engine s _ (λ r n, r = Ok true ↔ is_Some (node_logical n)));
    [|intros; by apply HQ|done].
  intros fs. rewrite <-Hdb. eapply wp_mono; [apply snapshot_check| |done].
  intros r fs' (Hk & Hsound & Hok). split; [done|]. split; [done|by apply Hok].
Qed.

Lemma wpv_checkpoint s db v Q C :
  edb_path db = slot_path s →
  (∀ r db' n, edb_path db' = slot_path s → same_data (get s v) n → Q (r, db') (set s n v)) →
  (∀ n, same_data (get s v) n → C (set s n v)) →
  wpv m (engine_checkpoint db) v Q C.
Proof.
  intros Hdb HQ HC. eapply (wpv_engine s _ (λ '(_, db') _, edb_path db' = slot_path s));
    [|intros [r db'] n Hn HR; by apply HQ|done].
  intros fs. rewrite <-Hdb. eapply wp_mono; [apply snapshot_checkpoint| |done]. by intros [].
Qed.

Lemma wpv_adopt s db v Q C :
  edb_path db = slot_path s →
  (∀ r db' n, edb_path db' = slot_path s → same_data (get s v) n → Q (r, db') (set s n v)) →
  (∀ n, same_data (get s v) n → C (set s n v)) →
  wpv m (engine_adopt_server_authority db) v Q C.
Proof.
  intros Hdb HQ HC. eapply (wpv_engine s _ (λ '(_, db') _, edb_path db' = slot_path s));
    [|intros [r db'] n Hn HR; by apply HQ|done].
  intros fs. rewrite <-Hdb. eapply wp_mono; [apply snapshot_adopt| |done]. by intros [].
Qed.

Lemma wpv_close s db v (Q : unit → view → Prop) C :
  edb_path db = slot_path s →
  (∀ n, same_data (get s v) n → Q tt (set s n v)) →
  (∀ n, same_data (get s v) n → C (set s n v)) →
  wpv m (engine_close db) v Q C.
Proof.
  intros Hdb HQ HC. eapply (wpv_engine s _ (λ _ _, True)); [|intros [] n Hn _; by apply HQ|done].
  intros fs. rewrite <-Hdb. eapply wp_mono; [apply snapshot_close| |done]. done.
Qed.

(** Adopting a candidate keeps its data; it succeeds on sound files only. *)
Lemma wpv_adopt_candidate {E} (refused : string → E) s v :
  wpv m (adopt_candidate refused (slot_path s)) v
    (λ r v', ∃ n, v' = set s n v ∧ same_data (get s v) n
             ∧ (r = Ok tt → is_Some (node_logical (get s v))))
    (λ v', ∃ n, v' = set s n v ∧ same_data (get s v) n).
Proof.
  set (f := get s v). assert (∀ n n', set s n' (set s n v) = set s n' v) as Hset by (by destruct s).
  assert (∀ n, get s (set s n v) = n) as Hget by (by destruct s).
  unfold adopt_candidate.
  apply wpv_try, wpv_map_err, (wpv_open s);
    [|intros e n _ Hn; by exists n|intros n Hn; by exists n].
  intros db n1 Hdb Hn1. simpl map_err. cbn beta iota.
  assert (∀ (r : result unit E) db' n2, edb_path db' = slot_path s → same_data f n2 →
    (r = Ok tt → is_Some (node_logical f)) →
    wpv m (let* _ := engine_close db' in ret r) (set s n2 v)
      (λ r v', ∃ n, v' = set s n v ∧ same_data f n ∧ (r = Ok tt → is_Some (node_logical f)))
      (λ v', ∃ n, v' = set s n v ∧ same_data f n)) as Hclose.
  { intros r db' n2 Hdb' Hn2 Hr. apply wpv_bind, (wpv_close s); [done| |]; intros n3; rewrite Hget, Hset.
    - intros Hn3. apply wpv_ret. exists n3. split_and!; [done|by etrans|done].
    - intros Hn3. exists n3. split; [done|by etrans]. }
  apply wpv_bind, (wpv_check s);
    [done| |intros n2; rewrite Hget, Hset; intros Hn2; exists n2; split; [done|by etrans]].
  intros rk n2. rewrite Hget, Hset. intros Hn2 Hr. assert (same_data f n2) as Hf2 by by etrans.
  destruct rk as [[]|e]; [|by apply Hclose..].
  assert (is_Some (node_logical f)) as Hsound.
  { destruct (proj1 Hr eq_refl) as [l Hl]. exists l. unfold f. by rewrite <-(proj2 Hn1). }
  apply wpv_bind, (wpv_adopt s); [done| |intros n3; rewrite Hget, Hset; intros Hn3; exists n3; split; [done|by etrans]].
  intros ra db3 n3 Hdb3. rewrite Hget, Hset. intros Hn3. assert (same_data f n3) as Hf3 by by etrans.
  destruct ra; [|by apply Hclose]. simpl.
  apply wpv_bind, (wpv_checkpoint s); [done| |intros n4; rewrite Hget, Hset; intros Hn4; exists n4; split; [done|by etrans]].
  intros rc db4 n4 Hdb4. rewrite Hget, Hset. intros Hn4. apply Hclose; [done|by etrans|done].
Qed.
End steps.
End slots.
