(* ===== verification/RestoreProofs.v ===== *)
(** * Snapshot restore survives crashes

    The daemon's restore and its recovery, step by step on the four slots of a
    Database's directory. *)

From Stdlib Require Import ZArith Lia Ascii.
From stdpp Require Import base list strings gmap.
From S2P Require Import Prelude Fs Codec Catalog CatalogAtomic CatalogRecovery Wire Messages Config.
From S2P Require Import Protocol Engine Daemon DaemonProofs Restore Slots.

Open Scope string_scope.
Open Scope list_scope.

(** ** States of a restore *)

Definition restore_slot_name (s : slot) : string :=
  match s with
  | Target => "database.nostdb"
  | Candidate => "database.nostdb.restore-candidate"
  | Backup => "database.nostdb.restore-backup"
  | Journal => "restore-operation"
  end.

Section restore.
Context `{!Engine, !Snapshots, !SnapshotLaws, !Json RestoreJournal, !JsonLaws RestoreJournal}.
Context (g : path) (name : string) (fs0 : fsys).
Implicit Types (fs : fsys) (v : view) (m : mode).

#[local] Instance restore_slots : Slots.
Proof.
  refine {| slot_dir := g; slot_name := restore_slot_name |};
    intros [] []; (done || discriminate).
Defined.

(** The files of the directory, as slots. *)
Ltac slots :=
  change (target_file g) with (Slots.slot_path Target) in *;
  change (candidate_file g) with (Slots.slot_path Candidate) in *;
  change (backup_file g) with (Slots.slot_path Backup) in *;
  change (journal_file g) with (Slots.slot_path Journal) in *.

Abbreviation wpv := (Slots.wpv (fs0:=fs0)).
Abbreviation views := (Slots.views (fs0:=fs0)).

Section steps.
Context (m : mode).
Hypothesis (Hm : errors m = false).
#[local] Instance mode_faultless : Faultless m := Hm.

Lemma wpv_sync_directory v Q C : Q (Ok tt) v → C v → wpv m (sync_restore_directory g) v Q C.
Proof. exact (Slots.wpv_sync v Q C). Qed.

Implicit Types (l : logical_state).

Definition journal_ok (n : option node) : Prop :=
  ∃ mo b, n = Some (NFile mo b) ∧ from_slice b = Ok (mkRestoreJournal 1 name "prepared").

(** Nothing under way; the Database has logical content [l]. *)
Definition quiet v l : Prop :=
  node_logical (v_target v) = Some l ∧ v_candidate v = None ∧ v_backup v = None
  ∧ v_journal v = None.

(** What an interrupted restore may leave, and what a restart makes of it: an
    abandoned candidate; a prepared restore whose live file is still in place;
    the live file set aside and the sound candidate waiting; the candidate
    installed; or only the backup left. *)
Inductive restorable v l : Prop :=
| abandoned : v_journal v = None → v_backup v = None → node_logical (v_target v) = Some l →
    not_dir (v_candidate v) → restorable v l
| prepared_live : journal_ok (v_journal v) → v_backup v = None →
    node_logical (v_target v) = Some l → not_dir (v_candidate v) → restorable v l
| set_aside : journal_ok (v_journal v) → v_target v = None →
    node_logical (v_candidate v) = Some l → node_is_file (v_backup v) = true → restorable v l
| installed_new : journal_ok (v_journal v) → v_candidate v = None →
    node_logical (v_target v) = Some l → node_is_file (v_backup v) = true → restorable v l
| backup_only : journal_ok (v_journal v) → v_target v = None → v_candidate v = None →
    node_logical (v_backup v) = Some l → restorable v l.

Lemma quiet_restorable v l : quiet v l → restorable v l.
Proof. intros (Ht & Hk & Hb & Hj). apply abandoned; try done. by rewrite Hk. Qed.

Lemma logical_file n l : node_logical n = Some l → ∃ mo b, n = Some (NFile mo b).
Proof. destruct n as [[mo b|]|]; simpl; [eauto|done..]. Qed.

Lemma logical_not_dir n l : node_logical n = Some l → not_dir n.
Proof. intros (mo & b & ->)%logical_file. done. Qed.

Lemma logical_here s v l : node_logical (get s v) = Some l → here s v = true.
Proof. intros (mo & b & Hs)%logical_file. unfold here. by rewrite Hs. Qed.

Lemma journal_here v : journal_ok (v_journal v) → here Journal v = true.
Proof. intros (mo & b & Hj & _). unfold here. simpl. by rewrite Hj. Qed.

Lemma file_cases n : node_is_file n = true → ∃ mo b, n = Some (NFile mo b).
Proof. destruct n as [[mo b|]|]; simpl; [eauto|done..]. Qed.

Lemma same_data_logical n n' l : same_data n n' → node_logical n = Some l → node_logical n' = Some l.
Proof. intros [_ Heq] Hl. by rewrite Heq. Qed.

(** *** Validation of an installed snapshot *)

Lemma validate_spec v l (C : view → Prop) :
  node_logical (v_target v) = Some l →
  (∀ n, same_data (v_target v) n → C (set Target n v)) →
  wpv m (validate_recovered_snapshot (slot_path Target)) v
    (λ r v', r = Ok tt ∧ ∃ n, same_data (v_target v) n ∧ v' = set Target n v) C.
Proof.
  intros Hl HC. unfold validate_recovered_snapshot. apply wpv_try, wpv_map_err, (wpv_open Target).
  - intros db n Hdb Hn. simpl. apply wpv_bind. eapply (wpv_check Target); [done| |].
    + intros r n2 Hn2 Hr. assert (r = Ok true) as ->.
      { apply Hr. simpl. eexists. by eapply same_data_logical. }
      apply wpv_bind. apply (wpv_close Target); [done| |].
      * intros n3 Hn3. apply wpv_ret. split; [done|]. exists n3. split; [|done].
        simpl in *. by etrans; [|etrans].
      * intros n3 Hn3. apply HC. simpl in *. by etrans; [|etrans].
    + intros n2 Hn2. apply HC. simpl in *. by etrans.
  - intros e n Hnone. simpl in Hnone. congruence.
  - done.
Qed.

(** *** Recovery *)

Lemma cleanup_unjournaled_spec v l :
  restorable v l →
  wpv m (cleanup_unjournaled_restore_candidate g) v
    (λ r v', r = Ok tt ∧ (quiet v' l ∨ (v' = v ∧ journal_ok (v_journal v))))
    (λ v', restorable v' l).
Proof.
  intros Hv. unfold cleanup_unjournaled_restore_candidate. slots. apply wpv_bind.
  apply (wpv_query _ _ (λ v, here Journal v || (negb (here Candidate v) && negb (here Backup v)))).
  { intros fs Hfs. by rewrite <-!(exists_here fs v _ Hfs). }
  destruct (decide (v_journal v = None)) as [Hj|Hj]; cycle 1.
  { assert (journal_ok (v_journal v)) as Hok by (by destruct Hv). rewrite journal_here by done.
    simpl. apply wpv_ret. auto. }
  assert (v_backup v = None ∧ node_logical (v_target v) = Some l ∧ not_dir (v_candidate v))
    as (Hb & Ht & Hk).
  { destruct Hv as [| (? & ? & ? & _) | (? & ? & ? & _) | (? & ? & ? & _) | (? & ? & ? & _)]; congruence || done. }
  assert (here Journal v = false ∧ here Backup v = false) as [-> Hbh]
    by (unfold here; simpl; by rewrite Hj, Hb).
  destruct (here Candidate v) eqn:Hkh; simpl; rewrite ?Hbh; simpl.
  - apply wpv_bind.
    apply (wpv_query _ _ (λ v, here Target v && here Candidate v && negb (here Backup v))).
    { intros fs Hfs. by rewrite <-!(exists_here fs v _ Hfs). }
    rewrite (logical_here Target v l), Hkh, Hbh by done. simpl.
    apply wpv_try, (wpv_remove_both Candidate); [done| |done|].
    + apply wpv_sync_directory; [split; [done|left; by split_and!]|]. by apply abandoned.
    + by apply abandoned.
  - apply wpv_ret. split; [done|]. left. split_and!; try done.
    unfold here in Hkh. simpl in Hkh. by destruct (v_candidate v).
Qed.

(** After the journal is settled the Database is in place. *)
Definition in_place v l : Prop :=
  journal_ok (v_journal v) ∧ node_logical (v_target v) = Some l ∧ v_candidate v = None
  ∧ not_dir (v_backup v).

Lemma in_place_restorable v l : in_place v l → restorable v l.
Proof.
  intros (Hj & Ht & Hk & Hb). destruct (v_backup v) as [[]|] eqn:Hbv.
  - apply installed_new; try done. by rewrite Hbv.
  - by destruct Hb.
  - apply prepared_live; try done. by rewrite Hk.
Qed.

Lemma accept_spec v l :
  journal_ok (v_journal v) → v_candidate v = None → node_logical (v_target v) = Some l →
  node_is_file (v_backup v) = true →
  wpv m (recover_or_accept_installed_snapshot (slot_path Target) (slot_path Backup)) v
    (λ r v', r = Ok tt ∧ in_place v' l) (λ v', restorable v' l).
Proof.
  intros Hj Hk Ht Hb. unfold recover_or_accept_installed_snapshot. slots. apply wpv_bind.
  eapply wpv_mono; [apply (validate_spec v l (λ v', restorable v' l)); [done|]| |done].
  - intros n Hn. apply installed_new; try done. by eapply same_data_logical.
  - intros r v' (-> & n & Hn & ->). apply wpv_ret. split; [done|].
    split_and!; try done; [by eapply same_data_logical|].
    simpl. by destruct (v_backup v) as [[]|].
Qed.

Lemma settle_spec v l :
  restorable v l → journal_ok (v_journal v) →
  wpv m (settle_restore g) v (λ r v', r = Ok tt ∧ in_place v' l) (λ v', restorable v' l).
Proof.
  intros Hv Hj. unfold settle_restore. slots. apply wpv_bind.
  apply (wpv_query _ _ (λ v, (here Target v, here Candidate v, here Backup v))).
  { intros fs Hfs. by rewrite <-!(exists_here fs v _ Hfs). }
  assert (∀ n, node_is_file n = true → not_dir n) as Hfile by (by intros [[]|]).
  assert (∀ s l, node_logical (get s v) = Some l → here s v = true) as Hlh
    by (intros s l'; apply logical_here).
  assert (∀ s, get s v = None → here s v = false) as Hnh by (intros s Hs; unfold here; by rewrite Hs).
  destruct Hv as [Hjn _ _ _|_ Hb Ht Hk|_ Ht Hk Hb|_ Hk Ht Hb|_ Ht Hk Hb].
  - destruct Hj as (? & ? & ? & _). congruence.
  - rewrite (Hlh Target l Ht), (Hnh Backup Hb). destruct (here Candidate v) eqn:Hkh.
    + apply (wpv_remove_both Candidate); [done| | |].
      * split; [done|]. split_and!; try done. simpl. by rewrite Hb.
      * by apply prepared_live.
      * by apply prepared_live.
    + apply wpv_ret. split; [done|]. split_and!; try done; [|by rewrite Hb].
      unfold here in Hkh. simpl in Hkh. by destruct (v_candidate v).
  - pose proof (logical_file _ _ Hk) as (mo & b & Hkf).
    rewrite (Hlh Candidate l Hk), (Hnh Target Ht). assert (here Backup v = true) as ->.
    { unfold here. simpl. by destruct (v_backup v) as [[]|]. }
    rewrite Hkf in Hk. apply wpv_try, wpv_map_err.
    eapply (wpv_rename Candidate Target); [done|exact Hkf|simpl; by rewrite Ht| |].
    + simpl. apply wpv_try, wpv_sync_directory.
      * apply accept_spec; done.
      * by apply installed_new.
    + apply set_aside; try done. by rewrite Hkf.
  - rewrite (Hlh Target l Ht), (Hnh Candidate Hk). assert (here Backup v = true) as ->.
    { unfold here. simpl. by destruct (v_backup v) as [[]|]. }
    by apply accept_spec.
  - pose proof (logical_file _ _ Hb) as (mo & b & Hbf).
    rewrite (Hlh Backup l Hb), (Hnh Target Ht), (Hnh Candidate Hk). rewrite Hbf in Hb.
    apply wpv_try, wpv_map_err.
    eapply (wpv_rename Backup Target); [done|exact Hbf|simpl; by rewrite Ht| |].
    + simpl. apply wpv_sync_directory.
      * split; [done|]. by split_and!.
      * apply prepared_live; try done. simpl. by rewrite Hk.
    + apply backup_only; try done. by rewrite Hbf.
Qed.

Lemma recover_restore_spec v l :
  restorable v l →
  wpv m (recover_restore g name) v (λ r v', r = Ok tt ∧ quiet v' l) (λ v', restorable v' l).
Proof.
  intros Hv. unfold recover_restore. slots. apply wpv_try.
  eapply wpv_mono; [by apply cleanup_unjournaled_spec| |done].
  intros r v1 (-> & [Hq|[-> Hj]]); apply wpv_bind;
    apply (wpv_query _ _ (here Journal)); try (intros fs Hfs; apply (exists_here fs _ Journal Hfs)).
  { assert (here Journal v1 = false) as ->; [|cbn [negb]; by apply wpv_ret].
    destruct Hq as (_ & _ & _ & Hj). unfold here. simpl. by rewrite Hj. }
  rewrite journal_here by done. simpl. pose proof Hj as (mo & b & Hjf & Hdec).
  apply wpv_try, wpv_map_err. intros fs Hfs.
  pose proof (vw_slot _ _ Hfs Journal) as Hread. simpl in Hread. rewrite Hjf in Hread.
  eapply wp_read_file; [apply content_Some; by exists mo| | |eauto];
    [|intros He; by apply no_errors].
  exists v. split; [done|]. simpl. rewrite Hdec. simpl. rewrite String.eqb_refl. simpl.
  clear fs Hfs Hread. apply wpv_try. eapply wpv_mono; [by apply settle_spec| |done].
  intros r v2 [-> Hp]. pose proof Hp as (Hj2 & Ht & Hk & Hb).
  apply wpv_try, (wpv_remove_both Candidate); [simpl; by rewrite Hk| | |];
    rewrite ?(set_none_absent Candidate) by done; [|by apply in_place_restorable..].
  assert (restorable (set Backup None v2) l) as Hr3.
  { apply prepared_live; try done. simpl. by rewrite Hk. }
  apply wpv_try, (wpv_remove_both Backup); [done| |by apply in_place_restorable|done].
  apply wpv_try, wpv_sync_directory; [|done]. apply wpv_try, wpv_map_err.
  destruct Hj2 as (mo2 & b2 & Hjf2 & _).
  eapply (wpv_remove Journal); [exact Hjf2| |done]. simpl.
  assert (quiet (mkView (v_target v2) (v_candidate v2) None None) l) as Hq by done.
  apply wpv_sync_directory; [done|]. by apply quiet_restorable.
Qed.

(** *** Restoring *)

(** A crash while the journal was being written. *)
Definition torn_restore v l : Prop :=
  node_logical (v_target v) = Some l ∧ v_backup v = None ∧ not_dir (v_candidate v)
  ∧ ∃ mo b e, v_journal v = Some (NFile mo b) ∧ from_slice (A:=RestoreJournal) b = Err e.

(** What a crash during a restore of [b] over [l] leaves. *)
Definition crashed (b : bytes) l v : Prop :=
  restorable v l ∨ (∃ l', logical b = Some l' ∧ restorable v l') ∨ torn_restore v l.

Lemma is_file_not_dir n n' : node_is_file n = true → same_data n n' → not_dir n'.
Proof. intros Hn [Hs _] ->. simpl in Hs. congruence. Qed.

Lemma prepare_candidate_spec v b :
  v_candidate v = None →
  wpv m (prepare_candidate (slot_path Candidate) b) v
    (λ r v', ∃ n, v' = set Candidate n v ∧ not_dir n
             ∧ (r = Ok tt → is_Some (logical b) ∧ node_logical n = logical b))
    (λ v', ∃ n, v' = set Candidate n v ∧ not_dir n).
Proof.
  intros Hk. unfold prepare_candidate. slots.
  apply wpv_try, (wpv_write_new Candidate);
    [done| |exists None; split; [by rewrite set_none_absent|done]|intros mo n; by eexists].
  intros mo. set (f := Some (NFile mo b)).
  assert (∀ n, same_data f n → not_dir n ∧ node_logical n = logical b) as Hf.
  { intros n Hn. split; [by eapply (is_file_not_dir f)|apply Hn]. }
  eapply wpv_mono; [apply (wpv_adopt_candidate incompatible Candidate)| |].
  - intros r v' (n & -> & Hn & Hr). destruct (Hf n Hn) as [Hd Hl]. exists n. split; [done|].
    split; [done|]. intros ->. split; [by apply Hr|done].
  - intros v' (n & -> & Hn). exists n. split; [done|by apply Hf].
Qed.

Lemma write_journal_spec v (Q : result unit ProtocolFailure → view → Prop) (C : view → Prop) :
  v_journal v = None →
  (∀ n, journal_ok n → Q (Ok tt) (set Journal n v)) →
  C v → (∀ n, journal_ok n → C (set Journal n v)) →
  (∀ mo b e, from_slice (A:=RestoreJournal) b = Err e → C (set Journal (Some (NFile mo b)) v)) →
  wpv m (write_restore_journal (slot_path Journal) name "prepared") v Q C.
Proof.
  intros Hj HQ HC HCok HCtorn. unfold write_restore_journal. slots.
  destruct (json_encodes (mkRestoreJournal 1 name "prepared")) as [enc Henc]. rewrite Henc.
  assert (∀ mo, journal_ok (Some (NFile mo enc))) as Hok.
  { intros mo. exists mo, enc. split; [done|]. by apply json_round_trip. }
  apply (wpv_write_new Journal); [done|intros mo; by apply HQ|done|].
  intros mo n. destruct (decide (n < length enc)) as [Hlt|Hge].
  - pose proof (json_torn _ _ _ Henc Hlt) as Ht.
    destruct (from_slice (take n enc)) as [|e] eqn:He; [done|]. by eapply HCtorn.
  - rewrite take_ge by lia. by apply HCok.
Qed.

Lemma cleanup_uncommitted_spec v l :
  journal_ok (v_journal v) → v_backup v = None → node_logical (v_target v) = Some l →
  not_dir (v_candidate v) →
  wpv m (cleanup_uncommitted_restore g) v (λ r v', r = Ok tt ∧ quiet v' l) (λ v', restorable v' l).
Proof.
  intros Hj Hb Ht Hk. unfold cleanup_uncommitted_restore. slots.
  assert (restorable (set Candidate None v) l) as H1' by (by apply prepared_live).
  assert (quiet (set Journal None (set Candidate None v)) l) as Hq by done.
  apply wpv_try, (wpv_remove_restore_file Candidate); [done| |by apply prepared_live].
  apply wpv_bind, (wpv_sidecar Candidate); [|done]. apply wpv_try, wpv_sync_directory; [|done].
  apply wpv_try, (wpv_remove_restore_file Journal); [|apply wpv_sync_directory; [done|by apply quiet_restorable]|done].
  simpl. by destruct Hj as (? & ? & -> & _).
Qed.

Lemma cleanup_committed_spec v l :
  journal_ok (v_journal v) → v_candidate v = None → node_logical (v_target v) = Some l →
  node_is_file (v_backup v) = true →
  wpv m (cleanup_committed_restore g) v (λ _ v', quiet v' l) (λ v', restorable v' l).
Proof.
  intros Hj Hk Ht Hb. unfold cleanup_committed_restore. slots.
  assert (restorable (set Backup None v) l) as H1'
    by (apply prepared_live; try done; simpl; by rewrite Hk).
  assert (quiet (set Journal None (set Backup None v)) l) as Hq by done.
  apply wpv_bind, (wpv_remove_restore_file Backup);
    [simpl; by destruct (v_backup v) as [[]|]| |by apply installed_new].
  apply wpv_bind, (wpv_sidecar Backup); [|done]. apply wpv_bind, wpv_sync_directory; [|done].
  apply wpv_bind, (wpv_remove_restore_file Journal); [| |done].
  - simpl. by destruct Hj as (? & ? & -> & _).
  - apply wpv_bind, wpv_sync_directory; [|by apply quiet_restorable].
    apply (wpv_sidecar Candidate); [done|by apply quiet_restorable].
Qed.

(** The handle of the Database whose directory this is, open on its file. *)
Definition handle_open (h : ManagedDatabase) : Prop :=
  handle_id h = name ∧ handle_path h = slot_path Target
  ∧ ∃ db, handle_database h = Some db ∧ edb_path db = slot_path Target.

(** How a restore over [l] ends, when it returns. *)
Definition restore_done (b : bytes) l (res : restored) v : Prop :=
  handle_open res.2 ∧
  match res.1 with
  | Ok _ => ∃ l', logical b = Some l' ∧ quiet v l'
  | Err _ => quiet v l
  end.

Lemma handle_reopened h db :
  handle_open h → edb_path db = slot_path Target → handle_open (set_database (Some db) h).
Proof. intros (Hi & Hp & _) Hdb. split_and!; [done|done|]. by exists db. Qed.

Lemma install_candidate_spec h v b l l' :
  handle_open (set_database (handle_database h) h) →
  journal_ok (v_journal v) → v_target v = None → logical b = Some l' →
  node_logical (v_candidate v) = Some l' → node_is_file (v_backup v) = true →
  wpv m (install_candidate (set_database None h) g) v (restore_done b l) (λ v', restorable v' l').
Proof.
  intros Hh Hj Ht Hb Hk Hbk. pose proof (logical_file _ _ Hk) as (mo & c & Hkf).
  destruct Hh as (Hid & Hpath & _). simpl in Hid, Hpath. unfold install_candidate. slots.
  cbn [handle_path set_database]. rewrite Hpath. apply wpv_bind.
  eapply (wpv_rename Candidate Target); [done|exact Hkf|simpl; by rewrite Ht| |by apply set_aside].
  set (v1 := set Target _ _).
  assert (node_logical (v_target v1) = Some l') as Ht1 by (by rewrite Hkf in Hk).
  assert (restorable v1 l') as Hr1 by (by apply installed_new).
  unfold synced. apply wpv_bind, wpv_sync_directory; [|done].
  apply wpv_bind, (wpv_open Target).
  - intros db n Hdb Hn. apply wpv_bind. eapply wpv_mono; [apply (cleanup_committed_spec _ l')| |done];
      [done|done|by eapply same_data_logical|done|].
    intros [] v2 Hq. apply wpv_ret. split; [|by exists l']. split_and!; [done|done|]. by exists db.
  - intros e n Hnone. simpl get in Hnone. congruence.
  - intros n Hn. apply installed_new; try done. by eapply same_data_logical.
Qed.

Lemma replace_live_spec h v b l l' :
  handle_open h → journal_ok (v_journal v) → v_backup v = None →
  node_logical (v_target v) = Some l → logical b = Some l' → node_logical (v_candidate v) = Some l' →
  wpv m (replace_live h g) v (restore_done b l) (λ v', restorable v' l ∨ restorable v' l').
Proof.
  intros Hh Hj Hb Ht Hl' Hk. pose proof Hh as (Hid & Hpath & db & Hdb & Hdbp).
  pose proof (logical_not_dir _ _ Hk) as Hknd.
  assert (∀ n, same_data (v_target v) n → restorable (set Target n v) l) as Hlive.
  { intros n Hn. apply prepared_live; try done. by eapply same_data_logical. }
  unfold replace_live. slots. rewrite Hdb. apply wpv_bind, (wpv_checkpoint Target);
    [done| |intros n Hn; left; by apply Hlive].
  intros r db1 n1 Hdb1 Hn1. simpl in Hn1.
  assert (node_logical n1 = Some l) as Hl1 by (by eapply same_data_logical).
  destruct r as [[]|e]; cycle 1.
  { apply wpv_bind. unfold cleanup_after. apply wpv_bind.
    eapply wpv_mono; [by apply (cleanup_uncommitted_spec _ l)| |auto].
    intros r v2 [-> Hq]. apply wpv_ret, wpv_ret. split; [by apply handle_reopened|done]. }
  apply wpv_bind, (wpv_close Target); [done| |].
  2: { intros n2 Hn2. left. apply Hlive. by etrans. }
  intros n2 Hn2. simpl in Hn2.
  assert (node_logical n2 = Some l) as Hl2 by (by eapply same_data_logical).
  destruct (logical_file _ _ Hl2) as (mo & c & ->).
  cbn [handle_path set_database]. rewrite Hpath. apply wpv_bind.
  eapply (wpv_rename Target Backup);
    [done|done|simpl; by rewrite Hb| |left; apply Hlive; by etrans].
  set (v2 := set Backup _ _). assert (restorable v2 l') as Hr2 by (by apply set_aside).
  unfold synced. apply wpv_bind, wpv_sync_directory; [|by right].
  eapply wpv_mono; [apply (install_candidate_spec h v2 b l l'); [by destruct h|done..]|done|auto].
Qed.

Lemma restore_attempt_spec h v b l :
  handle_open h → quiet v l →
  wpv m (restore_attempt h g b) v
    (λ res v', handle_open res.2 ∧
       match res.1 with
       | Ok _ => ∃ l', logical b = Some l' ∧ quiet v' l'
       | Err _ => v_journal v' = None ∧ v_backup v' = None ∧ node_logical (v_target v') = Some l
                  ∧ not_dir (v_candidate v')
       end) (crashed b l).
Proof.
  intros Hh (Ht & Hk & Hb & Hj). unfold restore_attempt. slots. apply wpv_bind.
  eapply wpv_mono; [by apply prepare_candidate_spec| |].
  2: { intros v1 (n & -> & Hn). left. by apply abandoned. }
  intros r v1 (n & -> & Hn & Hok). destruct r as [[]|e]; [|by apply wpv_ret].
  destruct (Hok eq_refl) as [[l' Hl'] Hnl]. rewrite Hl' in Hnl.
  pose proof Hh as (Hid & Hpath & _). rewrite Hid. apply wpv_bind, write_journal_spec.
  - done.
  - intros j Hjok. unfold synced. apply wpv_bind, wpv_sync_directory; [|left; by apply prepared_live].
    eapply wpv_mono; [by apply (replace_live_spec h _ b l l')| |].
    + intros [[[]|err] h'] v2 [Hh' Hres]; (split; [done|]); [done|].
      destruct Hres as (? & Hkn & ? & ?). simpl in *. split_and!; try done. by rewrite Hkn.
    + intros v2 [?|?]; [by left|right; left; eauto].
  - left. by apply abandoned.
  - intros j Hjok. left. by apply prepared_live.
  - intros mo bj e He. right. right. split_and!; try done. by exists mo, bj, e.
Qed.

Lemma discard_candidate_spec v l :
  v_journal v = None → v_backup v = None → node_logical (v_target v) = Some l →
  not_dir (v_candidate v) →
  wpv m (discard_candidate g) v (λ _ v', quiet v' l) (λ v', restorable v' l).
Proof.
  intros Hj Hb Ht Hk. unfold discard_candidate. slots. apply wpv_bind.
  apply (wpv_query _ _ (λ v, here Candidate v && negb (here Journal v))).
  { intros fs Hfs. by rewrite <-!(exists_here fs v _ Hfs). }
  assert (here Journal v = false) as -> by (unfold here; simpl; by rewrite Hj).
  assert (quiet (set Candidate None v) l) as Hq by done.
  destruct (v_candidate v) as [[mo c|]|] eqn:Hkv; [|by destruct Hk|].
  - assert (here Candidate v = true) as -> by (unfold here; simpl; by rewrite Hkv). simpl.
    apply wpv_bind. eapply (wpv_remove Candidate); [exact Hkv| |apply abandoned; try done; by rewrite Hkv].
    apply wpv_bind, (wpv_sidecar Candidate); [|by apply quiet_restorable].
    apply wpv_bind, wpv_sync_directory; [by apply wpv_ret|by apply quiet_restorable].
  - assert (here Candidate v = false) as -> by (unfold here; simpl; by rewrite Hkv). simpl.
    by apply wpv_ret.
Qed.

Lemma restore_snapshot_spec h v b l :
  handle_open h → quiet v l →
  wpv m (restore_snapshot h b) v (restore_done b l) (crashed b l).
Proof.
  intros Hh Hq. pose proof Hh as (_ & Hpath & _). unfold restore_snapshot. slots.
  destruct b as [|x b]; [by apply wpv_ret|]. rewrite Hpath.
  change (parent (slot_path Target)) with (parent (join g "database.nostdb")). rewrite parent_join.
  apply wpv_bind. eapply wpv_mono; [by apply cleanup_unjournaled_spec, quiet_restorable| |by left].
  intros r v1 (-> & Hcase). assert (quiet v1 l) as Hq1.
  { destruct Hcase as [?|[-> (? & ? & Hj & _)]]; [done|]. destruct Hq as (_ & _ & _ & ?). congruence. }
  clear Hcase. pose proof Hq1 as (Ht & Hk & Hbk & Hj). apply wpv_bind.
  apply (wpv_query _ _ (λ v, existsb (λ s, here s v) [Candidate; Backup; Journal])).
  { intros fs Hfs. simpl. by rewrite <-!(exists_here fs v1 _ Hfs). }
  assert (existsb (λ s, here s v1) [Candidate; Backup; Journal] = false) as ->.
  { unfold here. simpl. by rewrite Hk, Hbk, Hj. }
  apply wpv_bind. eapply wpv_mono; [by apply (restore_attempt_spec h v1 (x :: b) l)| |done].
  intros [res h'] v2 [Hh' Hres]. simpl in Hres. apply wpv_bind. destruct res as [[]|e]; simpl.
  - apply wpv_ret, wpv_ret. by split.
  - destruct Hres as (? & ? & ? & ?). eapply wpv_mono; [by apply (discard_candidate_spec v2 l)| |by left].
    intros [] v3 Hq3. apply wpv_ret. by split.
Qed.
End steps.
End restore.

(** The slots of the directory [g]. *)
Abbreviation slot_path g := (@Slots.slot_path (restore_slots g)).
Abbreviation views g fs0 := (@Slots.views (restore_slots g) fs0).

(** ** Theorems *)

Section theorems.
Context `{!Engine, !Snapshots, !SnapshotLaws, !Json RestoreJournal, !JsonLaws RestoreJournal}.
Context (g : path) (name : string).
Implicit Types (fs : fsys) (l : logical_state).

(** What a file system shows in the directory. *)
Definition view_of fs : view :=
  mkView (fs !! target_file g) (fs !! candidate_file g) (fs !! backup_file g) (fs !! journal_file g).

Lemma views_view_of fs : fs !! g = Some NDir → views g fs fs (view_of fs).
Proof. intros Hg. split; [done|by intros []|by intros k _]. Qed.

Lemma views_eq fs0 fs v : views g fs0 fs v → v = view_of fs.
Proof. intros [_ Hs _]. apply view_ext. intros s. rewrite <-Hs. by destruct s. Qed.

(** The Database in directory [g] has content [l] and no restore is under way. *)
Definition resting fs l : Prop := fs !! g = Some NDir ∧ quiet (view_of fs) l.

(** A restart can bring the Database to rest with content [l]. *)
Definition restartable fs l : Prop := fs !! g = Some NDir ∧ restorable name (view_of fs) l.

(** The restore journal was cut short; the live file is untouched. *)
Definition torn fs l : Prop := fs !! g = Some NDir ∧ torn_restore (view_of fs) l.

Lemma seen fs0 fs v : views g fs0 fs v →
  fs !! g = Some NDir ∧ v = view_of fs ∧ same_outside [g] fs0 fs.
Proof. intros Hv. split_and!; [apply Hv|by eapply views_eq|apply Hv]. Qed.

(** C4: Restoring a snapshot is atomic across crashes.  When the system calls do
    not fail and the process may die at any point: a successful restore leaves
    the Database open with exactly the logical content of the uploaded
    snapshot, a refused one leaves it open with its old content, in both cases
    with no restore file left; after a crash a restart recovers the old content
    or the new content, never a mixture (or the restore journal is torn and the
    live file untouched).  Nothing outside the Database's directory changes. *)
Theorem restore_snapshot_crash_safe h b l w :
  handle_open g name h → resting (w_fs w) l → schedule_ok CrashOnly (w_faults w) →
  let '(res, w') := restore_snapshot h b w in
  same_outside [g] (w_fs w) (w_fs w') ∧
  match res with
  | Some (Ok _, h') => handle_open g name h' ∧ ∃ l', logical b = Some l' ∧ resting (w_fs w') l'
  | Some (Err _, h') => handle_open g name h' ∧ resting (w_fs w') l
  | None =>
      restartable (w_fs w') l
      ∨ (∃ l', logical b = Some l' ∧ restartable (w_fs w') l')
      ∨ torn (w_fs w') l
  end.
Proof.
  intros Hh [Hg Hq] Hs.
  pose proof (restore_snapshot_spec g name (w_fs w) CrashOnly eq_refl h _ b l Hh Hq (w_fs w)
    (views_view_of _ Hg) w Hs eq_refl) as Hwp.
  destruct (restore_snapshot h b w) as [[[[[]|e] h']|] w'];
    destruct Hwp as [_ (v' & (Hg' & -> & Ho)%seen & Hres)]; (split; [done|]).
  - destruct Hres as [Hh' (l' & Hl' & Hq')]. split; [done|]. by exists l'.
  - destruct Hres as [Hh' Hq']. by split.
  - destruct Hres as [?|[(l' & ? & ?)|?]]; [by left|right; left; by exists l'|right; right; by split].
Qed.

(** Recovery completes an interrupted restore.  From every state a crashed
    restore or a crashed recovery can leave, a start without faults succeeds,
    removes every restore file and leaves the Database with exactly the content
    the state stands for. *)
Theorem recover_restore_completes fs l u :
  restartable fs l →
  ∃ w', recover_restore g name (fresh fs u) = (Some (Ok tt), w') ∧ resting (w_fs w') l
        ∧ same_outside [g] fs (w_fs w').
Proof.
  intros [Hg Hr].
  destruct (wp_returns _ _ _ _ u (recover_restore_spec g name fs Calm eq_refl _ l Hr fs
    (views_view_of _ Hg))) as (res & w' & Hrun & v' & (Hg' & -> & Ho)%seen & -> & Hq).
  by exists w'.
Qed.

(** Recovery of a restore tolerates its own interruption: a crash during
    recovery leaves a state that stands for the same content. *)
Theorem recover_restore_restartable l w :
  restartable (w_fs w) l → schedule_ok CrashOnly (w_faults w) →
  let '(res, w') := recover_restore g name w in
  match res with
  | Some r => r = Ok tt ∧ resting (w_fs w') l
  | None => restartable (w_fs w') l
  end.
Proof.
  intros [Hg Hr] Hs.
  pose proof (recover_restore_spec g name (w_fs w) CrashOnly eq_refl _ l Hr (w_fs w)
    (views_view_of _ Hg) w Hs eq_refl) as Hwp.
  destruct (recover_restore g name w) as [[res|] w'];
    destruct Hwp as [_ (v' & (Hg' & -> & _)%seen & Hres)].
  - by destruct Hres as [-> Hq].
  - by split.
Qed.

End theorems.

(** ** A concrete directory *)

Module Concrete.
Import Toy.

#[export] Instance journal_countable : Countable RestoreJournal.
Proof.
  apply (inj_countable'
    (λ j, (restore_operation_version j, restore_database_id j, restore_stage j))
    (λ '(v, i, s), mkRestoreJournal v i s)).
  by intros [].
Defined.

#[export] Instance journal_json : Json RestoreJournal := Reference.json.
#[export] Instance journal_json_laws : JsonLaws RestoreJournal := Reference.json_laws.

(** The content of a database file is all of it, when it starts with the byte 1. *)
#[export] Instance snapshots : Snapshots := {|
  logical_state := bytes;
  logical b := match b with x01 :: _ => Some b | _ => None end
|}.

Lemma keeps_data_refl p fs : keeps_data p fs fs.
Proof. split; [apply same_except_refl|done]. Qed.

#[export] Instance snapshot_laws : SnapshotLaws.
Proof.
  split.
  - intros m p fs. simpl. unfold open. apply wp_bind, wp_syscall.
    + unfold do_read. destruct (fs !! p) as [[mode b|]|] eqn:Hp; simpl; apply wp_ret;
        (split; [apply keeps_data_refl|]); simpl; rewrite ?Hp; [|by left..].
      destruct b as [|[] b]; simpl; auto.
    + intros He n text. apply wp_ret. split; [apply keeps_data_refl|by right].
    + intros _ n. apply keeps_data_refl.
  - refine (λ m (p : path) fs, _). simpl. unfold check. apply wp_bind, wp_syscall.
    + unfold do_read. destruct (fs !! p) as [[mode b|]|] eqn:Hp; simpl; apply wp_ret;
        (split; [apply keeps_data_refl|]); simpl; rewrite ?Hp;
        [|split; [done|by intros _ []]..].
      destruct b as [|[] b]; simpl; (split; [|]); try done; try (by intros _ []); eauto.
    + intros He n text. apply wp_ret. split; [apply keeps_data_refl|split; [done|congruence]].
    + intros _ n. apply keeps_data_refl.
  - intros m p fs. apply wp_ret. split; [apply keeps_data_refl|done].
  - intros m p fs. apply wp_ret. split; [apply keeps_data_refl|done].
  - intros m p fs. apply wp_ret, keeps_data_refl.
Qed.

Definition home : path := ["data"; "databases"; "d1"].
Definition live : bytes := [x01; x10].
Definition snapshot : bytes := [x01; x20].
Definition managed : ManagedDatabase :=
  mkManagedDatabase "d1" (target_file home) (Some (target_file home)).

Definition at_rest : fsys :=
  {[ home := NDir; target_file home := NFile default_mode live ]}.

Lemma managed_open : handle_open home "d1" managed.
Proof. split; [reflexivity|split; [reflexivity|by eexists]]. Qed.

Lemma at_rest_resting : resting home at_rest live.
Proof. split; [reflexivity|]. by vm_compute. Qed.

(** The process dies at the [n]th system call, after a partial effect. *)
Definition dies_at (n : nat) : world := World at_rest (replicate n NoFault ++ [CrashAt 2]) 18.

Lemma dies_schedule n : schedule_ok CrashOnly (w_faults (dies_at n)).
Proof.
  apply Forall_app. split; [|by repeat constructor]. apply Forall_replicate. done.
Qed.


(** The live file is set aside and the candidate not yet installed. *)
Definition set_aside_fs : fsys := w_fs (restore_snapshot managed snapshot (dies_at 11)).2.

Lemma set_aside_restartable : restartable home "d1" set_aside_fs snapshot.
Proof.
  split; [by vm_compute|]. apply set_aside; [|by vm_compute..].
  eexists _, _. split; vm_compute; reflexivity.
Qed.

Lemma dies_in_restore : (restore_snapshot managed snapshot (dies_at 11)).1 = None.
Proof. vm_cast_no_check (eq_refl (restore_snapshot managed snapshot (dies_at 11)).1). Qed.

Lemma restore_snapshot_crash_safe_witness :
  ∃ w', restore_snapshot managed snapshot (dies_at 11) = (None, w')
        ∧ same_outside [home] at_rest (w_fs w')
        ∧ (restartable home "d1" (w_fs w') live
           ∨ (∃ l', logical snapshot = Some l' ∧ restartable home "d1" (w_fs w') l')
           ∨ torn home (w_fs w') live).
Proof.
  pose proof (restore_snapshot_crash_safe home "d1" managed snapshot live (dies_at 11)
    managed_open at_rest_resting (dies_schedule 11)) as Hs.
  pose proof dies_in_restore as Hn.
  destruct (restore_snapshot managed snapshot (dies_at 11)) as [res w']. simpl in Hn. subst res.
  exists w'. split; [reflexivity|exact Hs].
Defined.

Lemma recover_restore_completes_witness :
  ∃ w', recover_restore home "d1" (fresh set_aside_fs 18) = (Some (Ok tt), w')
        ∧ resting home (w_fs w') snapshot ∧ same_outside [home] set_aside_fs (w_fs w').
Proof.
  exact (recover_restore_completes home "d1" set_aside_fs snapshot 18 set_aside_restartable).
Defined.

Lemma recover_restore_restartable_witness :
  let w := World set_aside_fs [NoFault; NoFault; NoFault; CrashAt 0] 18 in
  match recover_restore home "d1" w with
  | (Some r, w') => r = Ok tt ∧ resting home (w_fs w') snapshot
  | (None, w') => restartable home "d1" (w_fs w') snapshot
  end.
Proof.
  intros w. pose proof (recover_restore_restartable home "d1" snapshot w set_aside_restartable
    ltac:(by repeat constructor)) as Hr.
  destruct (recover_restore home "d1" w) as [[r|] w']; exact Hr.
Defined.

End Concrete.
