(* ===== verification/Startup.v ===== *)
(** * Initializing and opening a data directory ([src/src/daemon.rs])

    [DatabaseDaemon::initialize] creates a data directory, two credential files
    and a configuration, and takes back what it created when a step fails;
    [DatabaseDaemon::open] takes the exclusive lock, recovers interrupted
    restores and lifecycle operations, and opens every Database. *)

From Stdlib Require Import ZArith Lia Ascii.
From stdpp Require Import base list strings gmap.
From S2P Require Import Prelude Fs Codec Catalog Wire Messages Config Protocol Engine Daemon Restore.

Open Scope string_scope.
Open Scope list_scope.

(** ** Initialization *)

Record InitializationReport : Type := mkInitializationReport {
  report_config_path : PathBuf;
  report_data_directory : PathBuf;
  report_query_credential_file : PathBuf;
  report_admin_credential_file : PathBuf
}.

(** The two [Uuid::new_v4().simple()] texts, one after the other. *)
Definition generate_credential (u1 u2 : bytes) : bytes := u1 ++ u2.

Section startup.
Context `{!Engine, !Uuid, !SocketAddr, !Toml}.
Context `{!Json Catalog, !Json OperationJournal, !Json RestoreJournal}.
Context (cwd : path).

Definition absolute (p : PathBuf) : PathBuf :=
  if is_absolute p then p else path_join (mkPathBuf true cwd) p.

Definition ensure_new_path (p : PathBuf) (description : string) : io (result unit ServerError) :=
  let* r := metadata (located cwd p) in
  match r with
  | Ok _ => ret (Err (description +:+ " path " +:+ display_path p +:+ " already exists"))
  | Err e =>
      if decide (kind e = NotFound) then ret (Ok tt)
      else ret (Err ("cannot inspect " +:+ description +:+ " path " +:+ display_path p
                     +:+ ": " +:+ io_text e))
  end.

(** The credential files that were created, the administrator's first. *)
Definition created_credentials (c : DaemonConfig) (query_created admin_created : bool) : list path :=
  (if admin_created then [located cwd (admin_credential_file (authentication c))] else [])
  ++ (if query_created then [located cwd (query_credential_file (authentication c))] else []).

Definition rollback_daemon (c : DaemonConfig) (data_directory_existed query_created admin_created : bool)
    : io (result unit ServerError) :=
  let root := located cwd (data_directory c) in
  let* files := remove_each remove_file (created_credentials c query_created admin_created) in
  let* dirs := remove_each remove_dir [join root "credentials"] in
  let* r := rollback_initialization root data_directory_existed in
  ret (failures_result (files ++ dirs ++ match r with Ok _ => [] | Err e => [e] end)).

(** The closure of [initialize]: its result and which credential files exist after it. *)
Definition write_installation (c : DaemonConfig) (config_path : PathBuf) (query_token admin_token : bytes)
    : io (result unit ServerError * (bool * bool)) :=
  let* r := write_credential cwd (query_credential_file (authentication c)) query_token in
  match r with
  | Err e => ret (Err e, (false, false))
  | Ok _ =>
      let* r := write_credential cwd (admin_credential_file (authentication c)) admin_token in
      match r with
      | Err e => ret (Err e, (true, false))
      | Ok _ => let* r := write_new cwd c config_path in ret (r, (true, true))
      end
  end.

(** [query_token] and [admin_token] are what the two calls of [generate_credential] give. *)
Definition initialize_daemon (config_path data : PathBuf) (listen : string)
    (query_token admin_token : bytes)
    : io (result InitializationReport ServerError) :=
  let data := absolute data in
  let config_path := absolute config_path in
  let config := config_new data listen in
  match listen_address config with
  | Err e => ret (Err e)
  | Ok _ =>
      let? _ := ensure_new_path config_path "configuration" in
      let* existed := query (λ fs, exists_ fs (located cwd data)) in
      let? _ := initialize (located cwd data) in
      let* (result, (query_created, admin_created)) :=
        write_installation config config_path query_token admin_token in
      match result with
      | Err e =>
          let* rollback := rollback_daemon config existed query_created admin_created in
          ret (match rollback with
               | Ok _ => Err e
               | Err re => Err (e +:+ "; initialization rollback was incomplete: " +:+ re)
               end)
      | Ok _ =>
          ret (Ok (mkInitializationReport config_path data
                     (query_credential_file (authentication config))
                     (admin_credential_file (authentication config))))
      end
  end.

(** ** Opening *)

Definition lock_file (root : path) : path := join (join root "locks") "daemon.lock".

(** [owned] says whether another process holds the lock; [pid] is the text of
    the process identifier.  The lock itself is held until the process ends. *)
Definition acquire_data_directory_lock (owned : bool) (pid : bytes) (root : path)
    : io (result unit ServerError) :=
  let p := lock_file root in
  let? _ := io_map_err (λ e, "cannot open data-directory lock " +:+ display p +:+ ": " +:+ io_text e)
              (open_create default_mode p) in
  if owned then
    ret (Err ("data directory " +:+ display root
              +:+ " is already owned by another daemon: Resource temporarily unavailable (os error 11)"))
  else
    let? _ := io_map_err io_text (set_len_zero p) in
    io_map_err (λ e, "cannot persist daemon lock metadata: " +:+ io_text e)
      (write_all_sync p (String.list_byte_of_string "pid=" ++ pid ++ [newline])).

(** Dropping the handles opened so far, when opening fails. *)
Fixpoint close_each (hs : list edb) : io unit :=
  match hs with
  | [] => ret tt
  | db :: hs' => let* _ := engine_close db in close_each hs'
  end.

Definition source_baseline_error (n : string) : ServerError :=
  "managed Database `" +:+ n
  +:+ "` still has a human-readable-source synchronization baseline; import it explicitly".

(** One entry of the loop of [open]. *)
Definition open_entry (root : path) (e : CatalogDatabase) : io (result edb ServerError) :=
  let? db := io_map_err
      (λ err, "cannot open managed Database `" +:+ name e +:+ "`: " +:+ database_error_text err)
      (engine_open (database_path root (id e))) in
  let* r := engine_info db in
  match r with
  | Err err =>
      let* _ := engine_close db in
      ret (Err ("cannot inspect managed Database `" +:+ name e +:+ "`: "
                +:+ database_error_text err))
  | Ok info =>
      if info_source_enabled info then
        let* _ := engine_close db in ret (Err (source_baseline_error (name e)))
      else ret (Ok db)
  end.

Fixpoint open_entries (root : path) (l : list CatalogDatabase) (opened : list edb)
    (handles : gmap string ManagedDatabase) : io (result (gmap string ManagedDatabase) ServerError) :=
  match l with
  | [] => ret (Ok handles)
  | e :: l' =>
      let* r := open_entry root e in
      match r with
      | Err err => let* _ := close_each opened in ret (Err err)
      | Ok db =>
          open_entries root l' (opened ++ [db])
            (<[id e := mkManagedDatabase (id e) (database_path root (id e)) (Some db)]> handles)
      end
  end.

Definition open_daemon (owned : bool) (pid : bytes) (config : DaemonConfig)
    : io (result DatabaseDaemon ServerError) :=
  let root := located cwd (data_directory config) in
  let? _ := acquire_data_directory_lock owned pid root in
  let? _ := recover_snapshot_operations root in
  let? credentials := credentials_load cwd config in
  let? store := load root in
  let? handles := open_entries root (databases (catalog store)) [] ∅ in
  ret (Ok (mkDatabaseDaemon config credentials store handles)).

(** [DatabaseDaemon::authenticate] *)
Definition daemon_authenticates (d : DatabaseDaemon) (credential : bytes) : option ClientRole :=
  authenticate (daemon_credentials d) credential.
End startup.
