(* ===== verification/Import.v ===== *)
(** * Logical import ([src/src/daemon.rs])

    A logical package is written out as a source project below the Database's
    directory, compiled by the engine's synchronizer into a candidate snapshot,
    and installed like an uploaded snapshot; the project is removed again. *)

From Stdlib Require Import ZArith Lia Ascii.
From stdpp Require Import base list strings gmap.
From S2P Require Import Prelude Fs Codec Catalog Wire Messages Config Protocol Engine Daemon Restore.

Open Scope string_scope.
Open Scope list_scope.

(** ** Module paths

    [Path::components] of a relative or absolute Unix path: empty parts and
    inner [.] parts are skipped, a leading [.] is kept. *)

Inductive Component : Type := RootDir | CurDir | ParentDir | Normal (s : string).

#[global] Instance Component_eq_dec : EqDecision Component.
Proof. solve_decision. Defined.

Fixpoint split_on (c : ascii) (s : string) : list string :=
  match s with
  | "" => [""]
  | String a s' =>
      if Ascii.eqb a c then "" :: split_on c s'
      else match split_on c s' with
           | [] => [String a ""]
           | h :: t => String a h :: t
           end
  end.

Definition component (s : string) : list Component :=
  if String.eqb s "" || String.eqb s "." then []
  else if String.eqb s ".." then [ParentDir] else [Normal s].

Definition starts_with_slash (value : string) : bool :=
  match value with String a _ => Ascii.eqb a "/" | "" => false end.

Definition path_components (value : string) : list Component :=
  match split_on "/" value with
  | first :: rest =>
      (if starts_with_slash value then [RootDir]
       else if String.eqb first "." then [CurDir] else [])
      ++ flat_map component (first :: rest)
  | [] => []
  end.

(** [file_name.rsplitn(2, '.')] *)
Fixpoint rsplit_dot (s : string) : option (string * string) :=
  match s with
  | "" => None
  | String a s' =>
      match rsplit_dot s' with
      | Some (stem, extension) => Some (String a stem, extension)
      | None => if Ascii.eqb a "." then Some ("", s') else None
      end
  end.

(** [Path::extension] *)
Definition path_extension (value : string) : option string :=
  match last (path_components value) with
  | Some (Normal file) =>
      match rsplit_dot file with
      | Some ("", _) | None => None
      | Some (_, extension) => Some extension
      end
  | _ => None
  end.

Definition is_normal (c : Component) : bool := match c with Normal _ => true | _ => false end.

Definition component_text (c : Component) : list string :=
  match c with
  | Normal s => [s]
  | CurDir => ["."]
  | ParentDir => [".."]
  | RootDir => []
  end.

(** [PathBuf::from] of a text, up to equality of paths. *)
Definition path_from (value : string) : PathBuf :=
  mkPathBuf (starts_with_slash value) (flat_map component_text (path_components value)).

Definition safe_module_path (value : string) : result PathBuf ProtocolFailure :=
  if String.eqb value ""
     || is_absolute (path_from value)
     || existsb (λ component, negb (is_normal component)) (path_components value)
     || negb (bool_decide (path_extension value = Some "nost")) then
    Err (failure QueryError ("invalid logical module path `" +:+ value +:+ "`"))
  else Ok (path_from value).

(** The file that [base.join(value)] names: an absolute path replaces the base,
    [..] leads to the parent directory. *)
Fixpoint walk (at_ : path) (names : list string) : path :=
  match names with
  | [] => at_
  | n :: names' =>
      walk (if String.eqb n ".." then parent at_
            else if String.eqb n "." then at_ else join at_ n) names'
  end.

Definition joined_file (base : path) (value : PathBuf) : path :=
  walk (if is_absolute value then [] else base) (components value).

(** A path text that names a directory: the system refuses to open it as a file. *)
Definition names_directory (value : string) : bool :=
  match last (split_on "/" value) with
  | Some s => String.eqb s "" || String.eqb s "."
  | None => false
  end.

(** ** The package document *)

Record LogicalModuleDocument : Type := mkLogicalModuleDocument {
  document_path : string;
  document_module_id : string;
  document_source : string
}.

Record LogicalPackageDocument : Type := mkLogicalPackageDocument {
  document_package_version : Z;
  document_language_version : Z;
  document_settings : string;
  document_modules : list LogicalModuleDocument
}.

(** [serde_json::from_value::<LogicalPackageDocument>] *)
Class PackageCodec : Type := {
  package_from_value : Value → result LogicalPackageDocument string
}.

(** [nostdb_engine::ProjectConfig], [StableModuleId] and [Synchronizer]. *)
Class Projects : Type := {
  project : Type;
  stable_module_id : Type;
  stable_module_id_eq_dec :: EqDecision stable_module_id;
  project_load : path → io (result project string);
  parse_module_id : string → option stable_module_id;
  project_module_id : project → PathBuf → option stable_module_id;
  synchronize : path → path → io (result unit string)
}.

(** Loading a project only reads it; the synchronizer works below the project. *)
Class ProjectLaws `{Projects} : Prop := {
  project_load_law m p fs : wp m (project_load p) fs (λ _ fs', fs' = fs) (λ fs', fs' = fs);
  synchronize_law m source candidate fs :
    wp m (synchronize source candidate) fs
      (λ _ fs', same_outside [source] fs fs') (same_outside [source] fs)
}.

Section import.
Context `{!Engine, !Json RestoreJournal, !Projects, !PackageCodec}.

(** [fs::write(path, source)] for a module whose path text is [value]. *)
Definition write_module (value : string) (p : path) (source : string)
    : io (result unit io_error) :=
  if names_directory value then
    atomic (λ fs, (Err (if is_dir fs p then is_a_directory else Fs.not_found), fs))
  else write_file default_mode p (String.list_byte_of_string source).

(** The check of a path and the errors of an import: the daemon and the HTTP API
    each have their own. *)
Record ImportErrors (E : Type) : Type := mkImportErrors {
  checked_path : string → result PathBuf E;
  repeated_path : E;
  bad_module_id : string → E;
  module_id_mismatch : string → E;
  import_io : io_error → E
}.
Arguments checked_path {_}. Arguments repeated_path {_}. Arguments bad_module_id {_}.
Arguments module_id_mismatch {_}. Arguments import_io {_}.

Definition daemon_errors : ImportErrors ProtocolFailure := {|
  checked_path := safe_module_path;
  repeated_path := failure QueryError "logical package repeats a module path";
  bad_module_id _ := failure QueryError "invalid stable Module ID";
  module_id_mismatch value :=
    failure QueryError ("stable Module ID does not match settings.json for " +:+ value);
  import_io e := internal (io_text e)
|}.

(** The loop over the modules; [seen] holds the paths of the earlier ones. *)
Fixpoint write_modules {E} (errs : ImportErrors E) (storage : path) (config : project)
    (seen : list PathBuf) (modules : list LogicalModuleDocument) : io (result unit E) :=
  match modules with
  | [] => ret (Ok tt)
  | m :: modules' =>
      match checked_path errs (document_path m) with
      | Err e => ret (Err e)
      | Ok relative =>
          if decide (relative ∈ seen) then ret (Err (repeated_path errs))
          else
            match parse_module_id (document_module_id m) with
            | None => ret (Err (bad_module_id errs (document_path m)))
            | Some i =>
                if decide (project_module_id config relative = Some i) then
                  let p := joined_file storage relative in
                  let? _ := io_map_err (import_io errs) (create_dir_all (parent p)) in
                  let? _ := io_map_err (import_io errs)
                              (write_module (document_path m) p (document_source m)) in
                  write_modules errs storage config (relative :: seen) modules'
                else ret (Err (module_id_mismatch errs (document_path m)))
            end
      end
  end.

(** The project is written out and compiled: the bytes of the candidate. *)
Definition build_candidate (source_root : path) (package : LogicalPackageDocument)
    : io (result bytes ProtocolFailure) :=
  let storage := join source_root ".nostdb" in
  let fails := λ e : io_error, internal (io_text e) in
  let? _ := io_map_err fails (write_file default_mode (join storage "settings.json")
              (String.list_byte_of_string (document_settings package))) in
  let? config := io_map_err (failure QueryError) (project_load source_root) in
  let? _ := write_modules daemon_errors storage config [] (document_modules package) in
  let candidate := join storage "candidate.nostdb" in
  let? _ := io_map_err (failure QueryError) (synchronize source_root candidate) in
  io_map_err fails (read candidate).

(** A failed removal of the project is only logged. *)
Definition preserve_protocol_result_after_cleanup {T} (r : result T ProtocolFailure) (p : path)
    (cleanup : result unit io_error) : result T ProtocolFailure := r.

(** [suffix] is what [Uuid::new_v4] gives. *)
Definition import_logical (suffix : string) (h : ManagedDatabase) (package : LogicalPackageDocument)
    : io restored :=
  if negb (document_package_version package =? 1)%Z
     || negb (document_language_version package =? 1)%Z then
    ret (Err (failure QueryError "logical package and language versions must both be 1"), h)
  else
    let source_root := join (parent (handle_path h)) ("logical-import-" +:+ suffix) in
    let* r := create_dir_all (join source_root ".nostdb") in
    match r with
    | Err e => ret (Err (internal (io_text e)), h)
    | Ok _ =>
        let* r := build_candidate source_root package in
        let* (r, h') := (match r with
                         | Err e => ret (Err e, h)
                         | Ok b => restore_snapshot h b
                         end) in
        let* cleanup := remove_dir_all source_root in
        ret (preserve_protocol_result_after_cleanup r source_root cleanup, h')
    end.

(** [DatabaseDaemon::import_logical] *)
Definition daemon_import (suffix n : string) (package : Value) (d : DatabaseDaemon)
    : io (outcome Z) :=
  match package_from_value package with
  | Err e => fail (failure QueryError ("invalid logical package: " +:+ e)) d
  | Ok package =>
      match handle_for_name n d with
      | Err e => fail e d
      | Ok h =>
          let* (r, h') := import_logical suffix h package in
          ret (map_ok (λ _, len (document_modules package)) r,
               set_databases (<[handle_id h := h']> (daemon_databases d)) d)
      end
  end.
End import.
