(* ===== verification/ImportProofs.v ===== *)
(** * Logical import stays inside the Database's directory

    Which module paths are accepted, and that an import changes nothing but
    the Database's own directory, installs exactly the compiled package or
    keeps the old content, also when the process dies in it. *)

From Stdlib Require Import ZArith Lia Ascii.
From stdpp Require Import base list strings gmap.
From S2P Require Import Prelude Fs Codec Catalog CatalogAtomic CatalogRecovery Wire Messages Config.
From S2P Require Import Protocol Engine Daemon DaemonProofs Restore Slots RestoreProofs Import.

Open Scope string_scope.
Open Scope list_scope.

(** ** Module paths *)

Abbreviation letters := String.list_ascii_of_string.

(** A name that stays in its directory. *)
Definition plain_name (s : string) : Prop :=
  s ≠ "" ∧ s ≠ "." ∧ s ≠ ".." ∧ "/"%char ∉ letters s.

Lemma split_on_letters c s : Forall (λ p, c ∉ letters p) (split_on c s).
Proof.
  induction s as [|a s IH]; simpl; [repeat constructor; set_solver|].
  destruct (Ascii.eqb_spec a c) as [->|Hne]; [constructor; [set_solver|done]|].
  destruct (split_on c s) as [|h t]; [repeat constructor; set_solver|].
  inversion IH; subst. constructor; [simpl; set_solver|done].
Qed.

Lemma split_on_cons_ne c s : ∃ first rest, split_on c s = first :: rest.
Proof.
  destruct s as [|a s]; simpl; [eauto|]. destruct (Ascii.eqb a c); [eauto|].
  destruct (split_on c s); eauto.
Qed.

(** The names a path text consists of. *)
Definition path_names (value : string) : path :=
  filter (λ s, s ≠ "" ∧ s ≠ ".") (split_on "/" value).

Lemma component_cases s :
  (s = "" ∨ s = ".") ∧ component s = []
  ∨ s = ".." ∧ component s = [ParentDir]
  ∨ (s ≠ "" ∧ s ≠ ".") ∧ s ≠ ".." ∧ component s = [Normal s].
Proof.
  unfold component. destruct (String.eqb_spec s ""), (String.eqb_spec s "."),
    (String.eqb_spec s ".."); subst; simpl; naive_solver.
Qed.

Lemma components_normal l :
  existsb (λ c, negb (is_normal c)) (flat_map component l) = false ↔ ".." ∉ l.
Proof.
  induction l as [|s l IH]; simpl; [set_solver|]. rewrite existsb_app, orb_false_iff, IH.
  destruct (component_cases s) as [[Hs ->]|[[-> ->]|(Hs & Hd & ->)]]; simpl; set_solver.
Qed.

Lemma components_names l :
  ".." ∉ l → flat_map component l = Normal <$> filter (λ s, s ≠ "" ∧ s ≠ ".") l.
Proof.
  induction l as [|s l IH]; simpl; [done|]. intros Hn. rewrite IH by set_solver.
  destruct (component_cases s) as [[Hs ->]|[[-> ->]|(Hs & Hd & ->)]].
  - by rewrite filter_cons_False by naive_solver.
  - set_solver.
  - by rewrite filter_cons_True.
Qed.

Lemma names_of_normals l : flat_map component_text (Normal <$> l) = l.
Proof. induction l as [|s l IH]; simpl; [done|]. by f_equal. Qed.

(** The components of a relative text that has no leading [.] and no [..]. *)
Lemma path_components_exact value :
  starts_with_slash value = false →
  existsb (λ c, negb (is_normal c)) (path_components value) = false ↔
    head (split_on "/" value) ≠ Some "." ∧ ".." ∉ split_on "/" value.
Proof.
  intros Hs. unfold path_components. rewrite Hs.
  destruct (split_on_cons_ne "/" value) as (first & rest & ->).
  rewrite existsb_app, orb_false_iff, components_normal. simpl.
  destruct (String.eqb_spec first "."); simpl; naive_solver.
Qed.

Lemma path_components_names value :
  starts_with_slash value = false → head (split_on "/" value) ≠ Some "." →
  ".." ∉ split_on "/" value → path_components value = Normal <$> path_names value.
Proof.
  intros Hs Hh Hn. unfold path_components, path_names. rewrite Hs.
  destruct (split_on_cons_ne "/" value) as (first & rest & Heq). rewrite Heq in *.
  simpl in Hh. destruct (String.eqb_spec first "."); [congruence|]. by apply components_names.
Qed.

Lemma rsplit_dot_eq s stem extension :
  rsplit_dot s = Some (stem, extension) → s = stem +:+ "." +:+ extension.
Proof.
  revert stem extension. induction s as [|a s IH]; intros stem extension; simpl; [done|].
  destruct (rsplit_dot s) as [[stem' e]|].
  - intros [= <- <-]. rewrite (IH stem' e eq_refl). done.
  - destruct (Ascii.eqb_spec a "."); [|done]. by intros [= <- <-]; subst.
Qed.

Lemma rsplit_dot_nost stem : rsplit_dot (stem +:+ ".nost") = Some (stem, "nost").
Proof. induction stem as [|a stem IH]; [done|]. simpl. by rewrite IH. Qed.

Lemma split_on_cons c h t :
  c ∉ letters h → split_on c (h +:+ String c t) = h :: split_on c t.
Proof.
  induction h as [|a h IH]; intros Hh; simpl in *.
  - by rewrite Ascii.eqb_refl.
  - destruct (Ascii.eqb_spec a c); [set_solver|]. by rewrite IH by set_solver.
Qed.

Lemma split_on_single c h : c ∉ letters h → split_on c h = [h].
Proof.
  induction h as [|a h IH]; intros Hh; simpl in *; [done|].
  destruct (Ascii.eqb_spec a c); [set_solver|]. by rewrite IH by set_solver.
Qed.

Lemma split_on_concat l :
  l ≠ [] → Forall (λ p, "/"%char ∉ letters p) l → split_on "/" (String.concat "/" l) = l.
Proof.
  induction l as [|h t IH]; [done|]. intros _ Hall. inversion Hall as [|?? Hh Ht]; subst.
  destruct t as [|h' t]; [by apply split_on_single|].
  change (String.concat "/" (h :: h' :: t)) with (h +:+ String "/" (String.concat "/" (h' :: t))).
  rewrite split_on_cons by done. by rewrite IH.
Qed.

(** A name for a [.nost] file with a stem. *)
Definition module_file (s : string) : Prop := ∃ stem, stem ≠ "" ∧ s = stem +:+ ".nost".

(** What [safe_module_path] accepts names such a file strictly inside. *)
Definition module_path_ok (rel : path) : Prop :=
  Forall plain_name rel ∧ ∃ file, last rel = Some file ∧ module_file file.

Lemma path_extension_exact value :
  path_components value = Normal <$> path_names value →
  path_extension value = Some "nost" ↔ ∃ file, last (path_names value) = Some file ∧ module_file file.
Proof.
  intros Hc. unfold path_extension, module_file. rewrite Hc, fmap_last.
  destruct (last (path_names value)) as [f|]; simpl; [|naive_solver]. split.
  - destruct (rsplit_dot f) as [[stem e]|] eqn:Hf; [|done]. apply rsplit_dot_eq in Hf.
    destruct stem as [|a stem]; [done|]. intros [= ->]. exists f. split; [done|]. by exists (String a stem).
  - intros (? & [= <-] & stem & Hne & ->). rewrite rsplit_dot_nost. by destruct stem.
Qed.

Lemma starts_with_slash_false value :
  starts_with_slash value = false ↔ ∀ rest, value ≠ "/" +:+ rest.
Proof.
  destruct value as [|a value]; simpl; [done|]. destruct (Ascii.eqb_spec a "/") as [->|Hne].
  - split; [done|]. intros Hn. by destruct (Hn value).
  - split; [|done]. by intros _ rest [= ->].
Qed.

(** A text is accepted when its pieces between slashes are so. *)
Definition module_text_ok (value : string) : Prop :=
  (∀ rest, value ≠ "/" +:+ rest)
  ∧ head (split_on "/" value) ≠ Some "."
  ∧ ".." ∉ split_on "/" value
  ∧ ∃ file, last (path_names value) = Some file ∧ module_file file.

Lemma safe_module_path_iff value rel :
  safe_module_path value = Ok rel ↔ module_text_ok value ∧ rel = mkPathBuf false (path_names value).
Proof.
  unfold safe_module_path, module_text_ok. rewrite <-starts_with_slash_false. split.
  - case_match eqn:Hc; [done|]. intros [= <-].
    apply orb_false_iff in Hc as [[[Hv Hs]%orb_false_iff Hn]%orb_false_iff He]. simpl in Hs.
    apply (path_components_exact _ Hs) in Hn as [Hh Hn].
    pose proof (path_components_names _ Hs Hh Hn) as Hp.
    apply negb_false_iff, bool_decide_eq_true, (path_extension_exact _ Hp) in He.
    split; [done|]. unfold path_from. by rewrite Hs, Hp, names_of_normals.
  - intros [(Hs & Hh & Hn & He) ->].
    pose proof (path_components_names _ Hs Hh Hn) as Hp.
    rewrite (proj2 (path_components_exact _ Hs)) by done.
    rewrite (bool_decide_eq_true_2 (path_extension value = _)) by (by apply path_extension_exact).
    assert (String.eqb value "" = false) as -> by (apply String.eqb_neq; intros ->; naive_solver).
    unfold path_from. simpl. by rewrite Hs, Hp, names_of_normals.
Qed.

Lemma path_names_plain value : ".." ∉ split_on "/" value → Forall plain_name (path_names value).
Proof.
  intros Hn. apply Forall_forall. intros s [[Hne Hd] Hs]%list_elem_of_filter.
  pose proof (split_on_letters "/" value) as Hall. rewrite Forall_forall in Hall.
  split_and!; [done|done|congruence|by apply Hall].
Qed.

Lemma safe_module_path_ok value rel :
  safe_module_path value = Ok rel → ∃ names, rel = mkPathBuf false names ∧ module_path_ok names.
Proof.
  intros [(_ & _ & Hn & He) ->]%safe_module_path_iff. eexists. split; [done|].
  split; [by apply path_names_plain|done].
Qed.

Lemma walk_plain base names : Forall plain_name names → walk base names = base ++ names.
Proof.
  intros Hall. revert base. induction Hall as [|n names (_ & Hd & Hdd & _) _ IH]; intros base; simpl;
    [by rewrite app_nil_r|].
  rewrite (proj2 (String.eqb_neq _ _) Hdd), (proj2 (String.eqb_neq _ _) Hd), IH.
  unfold join. by rewrite <-app_assoc.
Qed.

Lemma joined_file_ok base names :
  module_path_ok names → joined_file base (mkPathBuf false names) = base ++ names.
Proof. intros [Hall _]. by apply walk_plain. Qed.

Lemma filter_plain l : Forall plain_name l → filter (λ s, s ≠ "" ∧ s ≠ ".") l = l.
Proof.
  induction 1 as [|s l (? & ? & _) _ IH]; [done|]. rewrite filter_cons_True by done. by rewrite IH.
Qed.

(** Plain names written with slashes are read back. *)
Lemma module_text_concat names :
  module_path_ok names →
  module_text_ok (String.concat "/" names) ∧ path_names (String.concat "/" names) = names.
Proof.
  intros [Hall He]. assert (names ≠ []) as Hne by (intros ->; naive_solver).
  assert (split_on "/" (String.concat "/" names) = names) as Hsplit.
  { apply split_on_concat; [done|]. eapply Forall_impl; [exact Hall|]. by intros s (_ & _ & _ & ?). }
  rewrite Forall_forall in Hall. assert (path_names (String.concat "/" names) = names) as Hnames.
  { unfold path_names. rewrite Hsplit. by apply filter_plain, Forall_forall. }
  split; [|done]. unfold module_text_ok. rewrite Hnames, Hsplit. split_and!; [| | |done].
  - intros rest Heq. rewrite Heq in Hsplit. simpl in Hsplit.
    destruct (Hall "") as (? & _); [|done]. rewrite <-Hsplit. by left.
  - destruct names as [|n names]; [done|]. simpl. destruct (Hall n) as (_ & ? & _); [by left|congruence].
  - intros Hin. by destruct (Hall ".." Hin) as (_ & _ & ? & _).
Qed.

(** C23: [safe_module_path] accepts exactly the texts that name a module inside.
    A text is accepted exactly when it does not start with a slash and, cut at
    its slashes, its first piece is not a dot, no piece is two dots and the last
    piece that is neither empty nor a dot is a [.nost] file with a stem; the path
    is the relative one of those pieces.  Joined to any directory it names a file
    strictly below it, reached by plain names; every such sequence of names,
    written with slashes, is accepted and read back; everything else is refused
    with a query error that quotes the text. *)
Theorem safe_module_path_exact :
  (∀ value rel, safe_module_path value = Ok rel ↔
     module_text_ok value ∧ rel = mkPathBuf false (path_names value))
  ∧ (∀ value rel base, safe_module_path value = Ok rel →
       ∃ names, joined_file base rel = base ++ names ∧ module_path_ok names)
  ∧ (∀ names, module_path_ok names →
       safe_module_path (String.concat "/" names) = Ok (mkPathBuf false names))
  ∧ (∀ value, ¬ module_text_ok value → safe_module_path value
       = Err (failure QueryError ("invalid logical module path `" +:+ value +:+ "`"))).
Proof.
  split_and!.
  - apply safe_module_path_iff.
  - intros value rel base (names & -> & Hok)%safe_module_path_ok. exists names.
    by rewrite joined_file_ok.
  - intros names [Hok Heq]%module_text_concat. apply safe_module_path_iff. by rewrite Heq.
  - intros value Hn. destruct (safe_module_path value) as [rel|e] eqn:Hv.
    + by apply safe_module_path_iff in Hv as [? _].
    + unfold safe_module_path in Hv. case_match; congruence.
Qed.

(** ** The project that is written out *)

(** The files of a package: its settings and its modules. *)
Definition package_file (settings : string) (modules : list LogicalModuleDocument)
    (rel : path) (b : bytes) : Prop :=
  (rel = ["settings.json"] ∧ b = String.list_byte_of_string settings)
  ∨ ∃ m, m ∈ modules ∧ safe_module_path (document_path m) = Ok (mkPathBuf false rel)
         ∧ b = String.list_byte_of_string (document_source m).

(** What lies below [storage] is exactly these files. *)
Definition holds_package (storage : path) (settings : string)
    (modules : list LogicalModuleDocument) (fs : fsys) : Prop :=
  ∀ rel b, content fs (storage ++ rel) = Some b ↔ package_file settings modules rel b.

Lemma module_not_settings rel : module_path_ok rel → rel ≠ ["settings.json"].
Proof.
  intros [_ (file & Hlast & stem & _ & ->)] ->. simpl in Hlast. injection Hlast as Heq.
  assert (rsplit_dot "settings.json" = Some (stem, "nost")) as Hr by (by rewrite Heq, rsplit_dot_nost).
  by vm_compute in Hr.
Qed.

(** Writing one more module, whose path is new. *)
Lemma holds_package_write storage settings modules m rel fs fs1 fs2 :
  holds_package storage settings modules fs →
  safe_module_path (document_path m) = Ok (mkPathBuf false rel) →
  (∀ m', m' ∈ modules → safe_module_path (document_path m') ≠ Ok (mkPathBuf false rel)) →
  (∀ k, content fs1 k = content fs k) →
  same_except [storage ++ rel] fs1 fs2 →
  content fs2 (storage ++ rel) = Some (String.list_byte_of_string (document_source m)) →
  holds_package storage settings (modules ++ [m]) fs2.
Proof.
  intros Hh Hm Hnew Hfs1 Hfs2 Hc rel' b. unfold package_file.
  destruct (decide (rel' = rel)) as [->|Hne].
  - rewrite Hc. split.
    + intros [= <-]. right. exists m. split; [set_solver|done].
    + intros [[-> _]|(m' & [Hin| ->%list_elem_of_singleton]%elem_of_app & Hm' & ->)]; [|by destruct (Hnew m')|done].
      apply safe_module_path_ok in Hm as (? & [= <-] & Hm). by apply module_not_settings in Hm.
  - assert (content fs2 (storage ++ rel') = content fs (storage ++ rel')) as ->.
    { rewrite <-Hfs1. unfold content. rewrite Hfs2; [done|].
      intros Heq%list_elem_of_singleton%app_inv_head. done. }
    rewrite (Hh rel' b). unfold package_file. split; [set_solver|].
    intros [?|(m' & [Hin| ->%list_elem_of_singleton]%elem_of_app & Hm' & ->)]; [by left|eauto|congruence].
Qed.

(** What compiling means: the synchronizer leaves, in the candidate, a database
    whose logical content is the compiled content of the project's files. *)
Class Compiler `{!Engine, !Snapshots} : Type := {
  compiled : (path → bytes → Prop) → logical_state → Prop
}.

Class CompilerLaws `{!Engine, !Snapshots, !Projects, !Compiler} : Prop := {
  synchronize_compiles m root candidate files fs :
    (∀ rel b, content fs (join root ".nostdb" ++ rel) = Some b ↔ files rel b) →
    wp m (synchronize root candidate) fs
      (λ r fs', r = Ok tt → ∀ b l, content fs' candidate = Some b → logical b = Some l →
                compiled files l)
      (λ _, True)
}.

(** [l] is what the package compiles to. *)
Definition compiles_to `{!Engine, !Snapshots, !Compiler} (package : LogicalPackageDocument) (l : logical_state) : Prop :=
  compiled (package_file (document_settings package) (document_modules package)) l.

Section project.
Context `{!Engine, !Json RestoreJournal, !Projects, !ProjectLaws, !PackageCodec}.
Context (mo : mode) (source : path).
Implicit Types (fs : fsys).

Local Abbreviation storage := (join source ".nostdb").

Lemma below_storage rel : source `prefix_of` storage ++ rel.
Proof. unfold join. rewrite <-app_assoc. by apply prefix_app_r. Qed.

(** A step that stays below the project, with the directories above in place. *)
Definition in_project fs fs' : Prop := same_outside [source] fs fs' ∧ grounded fs' source.

Lemma in_project_step fs fs1 fs2 :
  in_project fs fs1 → same_outside [source] fs1 fs2 → in_project fs fs2.
Proof.
  intros [Ho Hg] Hs. split; [by eapply same_outside_trans|by eapply grounded_below].
Qed.

Lemma write_module_spec value p text fs :
  source `prefix_of` p →
  wp mo (write_module value p text) fs
    (λ r fs', same_except [p] fs fs'
              ∧ (r = Ok tt → content fs' p = Some (String.list_byte_of_string text)))
    (same_except [p] fs).
Proof.
  intros Hp. unfold write_module. destruct (names_directory value); [|apply wp_write_file].
  apply wp_syscall; simpl; [|intros..]; auto with nostdb; (split; [auto with nostdb|done]).
Qed.

Lemma write_modules_spec config settings seen earlier modules fs0 fs :
  in_project fs0 fs → holds_package storage settings earlier fs →
  (∀ m rel, m ∈ earlier → safe_module_path (document_path m) = Ok (mkPathBuf false rel) → mkPathBuf false rel ∈ seen) →
  wp mo (write_modules daemon_errors storage config seen modules) fs
    (λ r fs', in_project fs0 fs'
              ∧ (r = Ok tt → holds_package storage settings (earlier ++ modules) fs'))
    (same_outside [source] fs0).
Proof.
  revert seen earlier fs. induction modules as [|m modules IH]; intros seen earlier fs Hp Hh Hseen; simpl.
  { apply wp_ret. rewrite app_nil_r. done. }
  destruct (safe_module_path (document_path m)) as [relative|] eqn:Hm; [|by apply wp_ret].
  destruct (safe_module_path_ok _ _ Hm) as (rel & -> & Hok).
  case_decide as Hin; [by apply wp_ret|].
  destruct (parse_module_id (document_module_id m)) as [i|]; [|by apply wp_ret].
  case_decide; [|by apply wp_ret].
  rewrite joined_file_ok by done.
  assert (source `prefix_of` parent (storage ++ rel)) as Hparent.
  { destruct Hok as [_ (file & Hl & _)]. destruct rel as [|x rel _] using rev_ind; [done|].
    rewrite app_assoc. change (_ ++ [x]) with (join (storage ++ rel) x). rewrite parent_join.
    apply below_storage. }
  apply wp_try, wp_map_err. eapply wp_mono; [apply wp_create_dir_all_adds| |].
  2: { intros fs1 Ha. eapply in_project_step; [done|].
       eapply adds_directories_below; [apply Hp|exact Hparent|exact Ha]. }
  intros r fs1 Ha. assert (in_project fs0 fs1) as Hp1.
  { eapply in_project_step; [done|]. eapply adds_directories_below; [apply Hp|exact Hparent|exact Ha]. }
  destruct r as [[]|e]; simpl; [|done].
  apply wp_try, wp_map_err. eapply wp_mono; [apply write_module_spec, below_storage| |].
  2: { intros fs2 Hs. eapply in_project_step; [done|]. eapply same_except_below; [apply below_storage|done]. }
  intros r fs2 [Hs Hc]. assert (in_project fs0 fs2) as Hp2.
  { eapply in_project_step; [done|]. eapply same_except_below; [apply below_storage|done]. }
  destruct r as [[]|e]; simpl; [|done]. specialize (Hc eq_refl).
  eapply wp_mono; [apply (IH (mkPathBuf false rel :: seen) (earlier ++ [m]) fs2); [done| |]| |done].
  - eapply holds_package_write; [done|done| |by intros k; eapply adds_directories_content|done|done].
    intros m' Hm' Heq. by eapply Hin, Hseen.
  - intros m' rel' [Hm'| ->%list_elem_of_singleton]%elem_of_app Heq; [right; by eapply Hseen|].
    rewrite Hm in Heq. injection Heq as ->. left.
  - intros r fs' [Hp' Hr]. split; [done|]. by rewrite <-app_assoc in Hr.
Qed.
Context `{!Snapshots, !Compiler, !CompilerLaws}.

(** The project is new: its storage directory is there and empty. *)
Definition new_project fs : Prop := ∀ rel, content fs (storage ++ rel) = None.

Lemma build_candidate_spec package fs :
  grounded fs source → new_project fs →
  wp mo (build_candidate source package) fs
    (λ r fs', same_outside [source] fs fs'
              ∧ ∀ b l, r = Ok b → logical b = Some l → compiles_to package l)
    (same_outside [source] fs).
Proof.
  intros Hg Hnew. assert (in_project fs fs) as Hp by (split; [apply same_outside_refl|done]).
  unfold build_candidate. apply wp_try, wp_map_err.
  eapply wp_mono; [apply wp_write_file| |].
  2: { intros fs1 Hs. eapply same_except_below; [apply (below_storage ["settings.json"])|done]. }
  intros r fs1 [Hs Hc]. assert (in_project fs fs1) as Hp1.
  { eapply in_project_step; [done|].
    eapply same_except_below; [apply (below_storage ["settings.json"])|done]. }
  destruct r as [[]|e]; simpl; [|by split; [apply Hp1|]]. specialize (Hc eq_refl).
  assert (holds_package storage (document_settings package) [] fs1) as Hh.
  { intros rel b. unfold package_file. destruct (decide (rel = ["settings.json"])) as [->|Hne].
    - change (storage ++ ["settings.json"]) with (join storage "settings.json"). rewrite Hc. set_solver.
    - assert (content fs1 (storage ++ rel) = None) as ->; [|set_solver].
      rewrite <-(Hnew rel). unfold content. rewrite Hs; [done|].
      by intros Heq%list_elem_of_singleton%app_inv_head. }
  apply wp_try, wp_map_err. eapply wp_mono; [apply project_load_law| |by intros fs2 ->; apply Hp1].
  intros r fs2 ->. destruct r as [config|e]; simpl; [|by split; [apply Hp1|]].
  apply wp_try. eapply wp_mono; [apply (write_modules_spec config (document_settings package) [] [] _ fs); [done|done|set_solver]| |done].
  intros r fs2 [Hp2 Hh2]. destruct r as [[]|e]; [|by split; [apply Hp2|]]. specialize (Hh2 eq_refl).
  apply wp_try, wp_map_err. eapply wp_mono; [apply wp_and; [apply synchronize_law|]| |].
  { by apply (synchronize_compiles mo source (join storage "candidate.nostdb")
      (package_file (document_settings package) (document_modules package))). }
  2: { intros fs3 [Ho _]. eapply same_outside_trans; [apply Hp2|done]. }
  intros r fs3 [Ho Hcomp]. assert (same_outside [source] fs fs3) as Ho3.
  { eapply same_outside_trans; [apply Hp2|done]. }
  destruct r as [[]|e]; simpl; [|by split]. specialize (Hcomp eq_refl).
  apply wp_map_err, wp_syscall; [|by split|done]. unfold do_read.
  destruct (fs3 !! join storage "candidate.nostdb") as [[mode c|]|] eqn:Hcand; simpl; (split; [done|]);
    [|done..].
  intros b l [= <-] Hl. eapply Hcomp; [|done]. apply content_Some. by eexists.
Qed.
End project.

(** ** The import *)

Section import_theorem.
Context `{!Engine, !Snapshots, !SnapshotLaws, !Json RestoreJournal, !JsonLaws RestoreJournal}.
Context `{!Projects, !ProjectLaws, !Compiler, !CompilerLaws}.
Context (g : path) (name suffix : string).
Implicit Types (fs : fsys) (l : logical_state).

Local Abbreviation source := (join g ("logical-import-" +:+ suffix)).

Lemma source_in_directory : g `prefix_of` source.
Proof. unfold join. by apply prefix_app_r. Qed.

Lemma project_not_slot s : ¬ source `prefix_of` slot_path g s.
Proof.
  unfold Slots.slot_path, join. intros [k Hk]. rewrite <-app_assoc in Hk.
  apply app_inv_head in Hk. by destruct s.
Qed.

(** Work below the project does not touch the Database. *)
Lemma views_project fs0 fs fs' v :
  views g fs0 fs v → same_outside [source] fs fs' → views g fs0 fs' v.
Proof.
  intros [Hd Hs Ho] Hsame. split.
  - rewrite (same_outside_lookup source fs); [done|done|]. intros [k Hk]. unfold join in Hk.
    apply (f_equal length) in Hk. rewrite !length_app in Hk. simpl in Hk. lia.
  - intros s. rewrite (same_outside_lookup source fs); [done|done|apply project_not_slot].
  - intros k Hk. rewrite (same_outside_lookup source fs); [by apply Ho|done|].
    intros Hin. apply (Hk g ltac:(by left)). etrans; [apply source_in_directory|done].
Qed.

(** How an import over [l] ends, and what a crash in it leaves. *)
Definition import_done (package : LogicalPackageDocument) l (res : restored) (v : view) : Prop :=
  handle_open g name res.2 ∧
  match res.1 with
  | Ok _ => ∃ l', compiles_to package l' ∧ quiet v l'
  | Err _ => quiet v l
  end.

Definition import_crashed (package : LogicalPackageDocument) l (v : view) : Prop :=
  restorable name v l ∨ (∃ l', compiles_to package l' ∧ restorable name v l') ∨ torn_restore v l.

Lemma restored_import package b l res v :
  (∀ l', logical b = Some l' → compiles_to package l') →
  restore_done g name b l res v → import_done package l res v.
Proof. intros Hc [Hh Hres]. split; [done|]. destruct res as [[[]|] h']; naive_solver. Qed.

Lemma crashed_import package b l v :
  (∀ l', logical b = Some l' → compiles_to package l') →
  crashed name b l v → import_crashed package l v.
Proof. unfold crashed, import_crashed. naive_solver. Qed.

Lemma done_crashed package l res v : import_done package l res v → import_crashed package l v.
Proof.
  intros [_ Hres]. unfold import_crashed. destruct res as [[[]|] h']; simpl in Hres;
    pose proof quiet_restorable; naive_solver.
Qed.

Lemma import_logical_spec h package l fs0 fs v :
  handle_open g name h → quiet v l → views g fs0 fs v → grounded fs source → vacant fs source →
  wp CrashOnly (import_logical suffix h package) fs
    (λ res fs', ∃ v', views g fs0 fs' v' ∧ import_done package l res v')
    (λ fs', ∃ v', views g fs0 fs' v' ∧ import_crashed package l v').
Proof.
  intros Hh Hq Hv Hg Hvac. pose proof Hh as (_ & Hpath & _). unfold import_logical.
  assert (∀ fs' v', views g fs0 fs' v' → quiet v' l →
    ∃ v', views g fs0 fs' v' ∧ import_crashed package l v') as Hold.
  { intros fs' v' ??. exists v'. split; [done|]. left. by apply quiet_restorable. }
  case_match; [apply wp_ret; by exists v|]. rewrite Hpath.
  change (parent (slot_path g Target)) with (parent (join g "database.nostdb")). rewrite parent_join.
  apply wp_bind. eapply wp_mono; [apply wp_create_dir_all_adds| |].
  2: { intros fs1 Ha. apply (Hold fs1 v); [|done]. eapply views_project; [done|].
       eapply adds_directories_below; [done|apply (below_storage source [])|].
       by rewrite app_nil_r. }
  intros r fs1 Ha. assert (same_outside [source] fs fs1) as Ho1.
  { eapply adds_directories_below; [done|apply (below_storage source [])|]. by rewrite app_nil_r. }
  assert (views g fs0 fs1 v) as Hv1 by by eapply views_project.
  destruct r as [[]|e]; [|apply wp_ret; by exists v].
  apply wp_bind. eapply wp_mono; [apply (build_candidate_spec CrashOnly source package fs1)| |].
  { by eapply grounded_below. }
  { intros rel. rewrite (adds_directories_content _ _ _ _ Ha). unfold content, join.
    by rewrite <-!app_assoc, (app_assoc g), Hvac. }
  2: { intros fs2 Ho2. eapply (Hold fs2 v); [|done]. by eapply views_project. }
  intros r fs2 [Ho2 Hcomp]. assert (views g fs0 fs2 v) as Hv2 by by eapply views_project.
  apply wp_bind. apply (wp_mono _ _ _ (λ res fs', ∃ v', views g fs0 fs' v' ∧ import_done package l res v')
    _ (λ fs', ∃ v', views g fs0 fs' v' ∧ import_crashed package l v')); [|  |done].
  { destruct r as [b|e]; [|apply wp_ret; by exists v].
    eapply wp_mono; [by apply (restore_snapshot_spec g name fs0 CrashOnly eq_refl h v b l)| |];
      [intros res fs3 (v3 & Hv3 & Hres)|intros fs3 (v3 & Hv3 & Hres)]; exists v3; (split; [done|]).
    - eapply restored_import; [|done]. eauto.
    - eapply crashed_import; [|done]. eauto. }
  intros [res h'] fs3 (v3 & Hv3 & Hdone).
  apply wp_bind. eapply wp_mono; [apply wp_remove_dir_all| |]; [intros cleanup fs4 Ho4|intros fs4 Ho4].
  - apply wp_ret. exists v3. split; [by eapply views_project|done].
  - exists v3. split; [by eapply views_project|]. by eapply done_crashed.
Qed.
(** C5: A logical import is atomic across crashes and never leaves the Database's
    directory.  When the system calls do not fail and the process may die at any
    point: a successful import leaves the Database open with a content that the
    synchronizer compiled from exactly the package's settings and modules, each
    in its own file; a refused import leaves the old content; after a crash a
    restart recovers the old or the compiled content (or the restore journal is
    torn and the live file untouched).  Nothing outside the Database's directory
    changes. *)
Theorem import_logical_crash_safe h package l w :
  handle_open g name h → resting g (w_fs w) l → grounded (w_fs w) g →
  vacant (w_fs w) source → schedule_ok CrashOnly (w_faults w) →
  let '(res, w') := import_logical suffix h package w in
  same_outside [g] (w_fs w) (w_fs w') ∧
  match res with
  | Some (Ok _, h') => handle_open g name h' ∧ ∃ l', compiles_to package l' ∧ resting g (w_fs w') l'
  | Some (Err _, h') => handle_open g name h' ∧ resting g (w_fs w') l
  | None =>
      restartable g name (w_fs w') l
      ∨ (∃ l', compiles_to package l' ∧ restartable g name (w_fs w') l')
      ∨ torn g (w_fs w') l
  end.
Proof.
  intros Hh [Hg Hq] Hgr Hvac Hs.
  pose proof (import_logical_spec h package l (w_fs w) (w_fs w) _ Hh Hq (views_view_of _ _ Hg)
    (grounded_join _ _ _ Hg Hgr) Hvac w Hs eq_refl) as Hwp.
  destruct (import_logical suffix h package w) as [[[[[]|e] h']|] w'];
    destruct Hwp as [_ (v' & (Hg' & -> & Ho)%seen & Hres)]; (split; [done|]).
  - destruct Hres as [Hh' (l' & Hl' & Hq')]. split; [done|]. by exists l'.
  - destruct Hres as [Hh' Hq']. by split.
  - destruct Hres as [?|[(l' & ? & ?)|?]]; [by left|right; left; by exists l'|right; right; by split].
Qed.
End import_theorem.

(** ** A concrete import *)

Module Project.
Import Toy Concrete.

(** A project has one module; its compilation is its settings. *)
#[export] Instance projects : Projects := {|
  project := unit;
  stable_module_id := string;
  project_load _ := ret (Ok tt);
  parse_module_id s := Some s;
  project_module_id _ rel := if decide (rel = mkPathBuf false ["main.nost"]) then Some "m1" else None;
  synchronize source candidate :=
    let* r := read (join (join source ".nostdb") "settings.json") in
    match r with
    | Err e => ret (Err (io_text e))
    | Ok b =>
        if decide (source `prefix_of` candidate) then
          io_map_err io_text (write_file default_mode candidate (x01 :: b))
        else ret (Err "the database lies outside the project")
    end
|}.

#[export] Instance project_laws : ProjectLaws.
Proof.
  split; [intros m p fs; by apply wp_ret|]. intros m source candidate fs. simpl.
  apply wp_bind, wp_syscall; [|intros; apply wp_ret; auto with nostdb|auto with nostdb].
  unfold do_read. destruct (fs !! join (join source ".nostdb") "settings.json") as [[mode b|]|]; simpl;
    [|apply wp_ret; auto with nostdb..].
  case_decide as Hp; [|apply wp_ret; auto with nostdb].
  apply wp_map_err. eapply wp_mono; [apply wp_write_file| |].
  - intros r fs' [Hs _]. by eapply same_except_below.
  - intros fs' Hs. by eapply same_except_below.
Qed.

#[export] Instance compiler : @Compiler engine snapshots := {|
  compiled files l := ∃ b, files ["settings.json"] b ∧ l = x01 :: b
|}.

#[export] Instance compiler_laws : CompilerLaws.
Proof.
  split. intros m source candidate files fs Hfiles. simpl.
  apply wp_bind, wp_syscall; [|intros; by apply wp_ret|done].
  unfold do_read.
  destruct (fs !! join (join source ".nostdb") "settings.json") as [[mode b|]|] eqn:Hb; simpl;
    [|by apply wp_ret..].
  case_decide; [|by apply wp_ret]. apply wp_map_err. eapply wp_mono; [apply wp_write_file| |done].
  intros r fs' [_ Hc] Hr b' l Hb' Hl. destruct r as [[]|]; [|done]. rewrite (Hc eq_refl) in Hb'.
  injection Hb' as <-. simpl in Hl. injection Hl as <-. exists b. split; [|done].
  apply (Hfiles ["settings.json"] b), content_Some. by eexists.
Qed.

Definition installed : fsys :=
  {[ ["data"] := NDir; ["data"; "databases"] := NDir; home := NDir;
     target_file home := NFile default_mode live ]}.

Definition package : LogicalPackageDocument :=
  mkLogicalPackageDocument 1 1 "{}" [mkLogicalModuleDocument "main.nost" "m1" "node A"].

Lemma installed_resting : resting home installed live.
Proof. split; [reflexivity|by vm_compute]. Qed.

Lemma installed_grounded : grounded installed home.
Proof.
  unfold home. intros k Hne [k' Hk] Hne'. destruct k as [|? [|? [|? [|]]]]; simplify_eq/=; vm_compute; reflexivity.
Qed.

Lemma installed_vacant : vacant installed (join home "logical-import-u1").
Proof.
  intros s. apply eq_None_not_Some. intros [n Hn]. revert Hn. unfold installed.
  rewrite !lookup_insert_Some, lookup_singleton_Some. naive_solver.
Qed.

Lemma import_succeeds :
  (import_logical "u1" managed package (fresh installed 18)).1 = Some (Ok tt, managed).
Proof. vm_cast_no_check (eq_refl (import_logical "u1" managed package (fresh installed 18)).1). Qed.

Lemma import_logical_crash_safe_witness :
  ∃ w', import_logical "u1" managed package (fresh installed 18)
        = (Some (Ok tt, managed), w')
        ∧ ∃ l', compiles_to package l' ∧ resting home (w_fs w') l'.
Proof.
  pose proof (import_logical_crash_safe home "d1" "u1" managed package live (fresh installed 18)
    managed_open installed_resting installed_grounded installed_vacant (Forall_nil_2 _)) as Hs.
  pose proof import_succeeds as Hn.
  destruct (import_logical "u1" managed package (fresh installed 18)) as [res w'].
  simpl in Hn. subst res. destruct Hs as (_ & _ & Hl). by exists w'.
Defined.

End Project.
