(* ===== verification/StartupProofs.v ===== *)
(** * Opening a data directory recovers it

    From every state that crashes during lifecycle operations and restores can
    leave, [open_daemon] settles the catalog and every Database; a crash inside
    it leaves such a state again; and what [initialize_daemon] creates opens as
    an empty server with the generated credentials. *)

From Stdlib Require Import ZArith Lia Ascii.
From stdpp Require Import base list strings gmap.
From S2P Require Import Prelude Fs Codec Catalog CatalogProofs CatalogAtomic CatalogRecovery.
From S2P Require Import CatalogTheorems Wire Messages Config ConfigProofs Protocol Engine.
From S2P Require Import Daemon DaemonProofs Restore Slots RestoreProofs Startup.

Open Scope string_scope.
Open Scope list_scope.

(** What [open] relies on in [EmbeddedDatabase::info]: it reads a sound file. *)
Class InfoLaws `{!Engine, !Snapshots} : Prop := {
  info_law m db fs :
    wp m (engine_info db) fs
      (λ r fs', keeps_data (edb_path db) fs fs' ∧
                (errors m = false → is_Some (node_logical (fs !! edb_path db)) → is_ok r = true))
      (keeps_data (edb_path db) fs)
}.

Section opening.
Context `{!Engine, !Snapshots, !SnapshotLaws, !InfoLaws, !Uuid}.
Context `{!Json Catalog, !Json OperationJournal, !Json RestoreJournal}.
Context `{!JsonLaws Catalog, !JsonLaws OperationJournal, !JsonLaws RestoreJournal}.
Context (r : path).
Implicit Types (fs : fsys) (c : Catalog) (n : string).

Abbreviation dir_ n := (database_directory r n).

(** ** States an interrupted server can leave *)

(** Changes strictly inside the Databases' directories, or of the lock file. *)
Definition inside fs fs' : Prop :=
  ∀ k, k ≠ lock_file r → (∀ n, dir_ n `prefix_of` k → k = dir_ n) → fs' !! k = fs !! k.

Lemma inside_trans fs1 fs2 fs3 : inside fs1 fs2 → inside fs2 fs3 → inside fs1 fs3.
Proof. intros Hi1 Hi2 k Hl Hk. by rewrite Hi2, Hi1. Qed.

Lemma inside_directory n fs fs' :
  same_outside [dir_ n] fs fs' → fs' !! dir_ n = fs !! dir_ n → inside fs fs'.
Proof.
  intros Hs Hd k _ Hk. destruct (decide (dir_ n `prefix_of` k)) as [Hin|Hout].
  - by rewrite (Hk n Hin).
  - by apply (same_outside_lookup (dir_ n)).
Qed.

Lemma inside_lock fs fs' : same_except [lock_file r] fs fs' → inside fs fs'.
Proof. intros Hs k Hl _. apply Hs. set_solver. Qed.

Lemma not_inside k : (∀ n, ¬ dir_ n `prefix_of` k) → ∀ n, dir_ n `prefix_of` k → k = dir_ n.
Proof. intros Hk n Hn. by destruct (Hk n). Qed.

Lemma directory_itself n : ∀ n', dir_ n' `prefix_of` dir_ n → dir_ n = dir_ n'.
Proof.
  intros n' [s Hs]. unfold database_directory, join in Hs. rewrite <-!app_assoc in Hs.
  apply app_inv_head in Hs. by injection Hs as <-.
Qed.

Ltac not_inside := first [apply directory_itself | apply not_inside; intros ?; unfold lock_file; pne].
Ltac stays H := rewrite H; [done|unfold lock_file; pne|not_inside].

Lemma recoverable_inside fs fs' c :
  recoverable r fs c → inside fs fs' →
  (∀ n, n ∈ ids c → is_file fs' (database_path r n) = true) → recoverable r fs' c.
Proof.
  intros [[T1 T2 T3 T4 T5 T6] Hval Hd HV HN HI HJ] Hin Hfiles. split.
  - split; try (by stays Hin).
    + intros n Hn. split; [|by apply Hfiles]. destruct (T5 n Hn) as [Hdir _]. by stays Hin.
    + intros n Hn Hs s. rewrite Hin in Hs; [|unfold lock_file; pne|not_inside].
      rewrite Hin; [by apply T6|unfold lock_file; pne|not_inside].
  - done.
  - unfold durable, stores, content. rewrite !Hin; first [done|unfold lock_file; pne|not_inside].
  - unfold is_dir. by stays Hin.
  - unfold is_dir. by stays Hin.
  - rewrite !Hin; first [done|unfold lock_file; pne|not_inside].
  - unfold journal_is, content. rewrite !Hin; try (unfold lock_file; pne); try not_inside.
    destruct HJ as [?|(j & Hj & Hv & Hset)]; [by left|right]. exists j. split; [done|]. split; [done|].
    destruct Hset as [?|[? Hset]]; [by left|right]. split; [done|].
    destruct (journal_kind j); [done..|]. destruct Hset as [Hu Hset]. split; [done|].
    rewrite Hin; [|unfold lock_file; pne|not_inside]. destruct Hset as [?|[? Hvac]]; [by left|right].
    split; [done|]. intros s. rewrite Hin; [by apply Hvac|unfold lock_file; pne|not_inside].
Qed.

(** No restore was under way in the directory. *)
Definition no_restore fs (g : path) : Prop :=
  fs !! candidate_file g = None ∧ fs !! backup_file g = None ∧ fs !! journal_file g = None.

(** Each Database of the catalog can be brought to rest with its content; in a
    directory the catalog does not know no restore is under way. *)
Record directories_ok fs c (contents : string → logical_state) : Prop := {
  do_known n : n ∈ ids c → restartable (dir_ n) n fs (contents n);
  do_unknown n : n ∉ ids c → fs !! dir_ n = Some NDir → no_restore fs (dir_ n)
}.

(** A data directory a server can be started on. *)
Record startable fs c (contents : string → logical_state) : Prop := {
  sa_catalog : ∃ fs0, recoverable r fs0 c ∧ inside fs0 fs;
  sa_directories : directories_ok fs c contents;
  sa_locks : fs !! join r "locks" = Some NDir;
  sa_lock : is_dir fs (lock_file r) = false
}.

(** Only what lies in a directory matters for its Database. *)
Lemma view_of_frame g fs fs' :
  (∀ k, g `prefix_of` k → fs' !! k = fs !! k) → view_of g fs' = view_of g fs.
Proof.
  intros Hsame. apply view_ext. intros s.
  assert (∀ f, get s (view_of g f) = f !! slot_path g s) as Hget by (by intros f; destruct s).
  rewrite !Hget. apply Hsame, (@slot_inside (restore_slots g)).
Qed.

Lemma restartable_frame g n fs fs' l :
  (∀ k, g `prefix_of` k → fs' !! k = fs !! k) → restartable g n fs l → restartable g n fs' l.
Proof.
  intros Hsame [Hg Hr]. split; [by rewrite Hsame|]. by rewrite (view_of_frame g fs fs').
Qed.

Lemma resting_frame g fs fs' l :
  (∀ k, g `prefix_of` k → fs' !! k = fs !! k) → resting g fs l → resting g fs' l.
Proof.
  intros Hsame [Hg Hr]. split; [by rewrite Hsame|]. by rewrite (view_of_frame g fs fs').
Qed.

Lemma resting_restartable g n fs l : resting g fs l → restartable g n fs l.
Proof. intros [Hg Hq]. split; [done|]. by apply quiet_restorable. Qed.

Lemma no_restore_frame g fs fs' :
  (∀ k, g `prefix_of` k → fs' !! k = fs !! k) → no_restore fs g → no_restore fs' g.
Proof.
  intros Hsame (Hk & Hb & Hj). unfold no_restore.
  rewrite !Hsame; [done|unfold candidate_file, backup_file, journal_file, join; by apply prefix_app_r..].
Qed.

(** Work in one Database's directory leaves the others alone. *)
Lemma other_directory n n' fs fs' k :
  same_outside [dir_ n] fs fs' → n' ≠ n → dir_ n' `prefix_of` k → fs' !! k = fs !! k.
Proof.
  intros Hs Hne [s ->]. apply (same_outside_lookup (dir_ n)); [done|]. intros [s' Heq].
  unfold database_directory, join in Heq. rewrite <-!app_assoc in Heq. apply app_inv_head in Heq.
  simpl in Heq. congruence.
Qed.

Lemma directories_ok_step n fs fs' c contents :
  directories_ok fs c contents → same_outside [dir_ n] fs fs' →
  (n ∈ ids c → restartable (dir_ n) n fs' (contents n)) →
  (n ∉ ids c → fs' !! dir_ n = Some NDir → no_restore fs' (dir_ n)) →
  directories_ok fs' c contents.
Proof.
  intros [Hk Hu] Hs Hn Hn'. split; intros n1 Hn1.
  - destruct (decide (n1 = n)) as [->|Hne]; [by apply Hn|].
    eapply restartable_frame; [|by apply Hk]. intros k. by eapply other_directory.
  - destruct (decide (n1 = n)) as [->|Hne]; [by apply Hn'|].
    rewrite (other_directory n n1 fs fs') by done. intros Hd.
    eapply no_restore_frame; [|by apply Hu]. intros k. by eapply other_directory.
Qed.

(** ** Recovering the restores *)

Section modes.
Context (m : mode) (Hm : errors m = false).

Lemma recover_one_spec n fs l :
  restartable (dir_ n) n fs l →
  wp m (recover_restore (dir_ n) n) fs
    (λ res fs', res = Ok tt ∧ resting (dir_ n) fs' l ∧ same_outside [dir_ n] fs fs')
    (λ fs', restartable (dir_ n) n fs' l ∧ same_outside [dir_ n] fs fs').
Proof.
  intros [Hg Hr]. eapply wp_mono;
    [apply (recover_restore_spec (dir_ n) n fs m Hm _ l Hr fs (views_view_of _ _ Hg))| |].
  - intros res fs' (v' & (Hg' & -> & Ho)%seen & -> & Hq). done.
  - intros fs' (v' & (Hg' & -> & Ho)%seen & Hr'). done.
Qed.

Lemma recover_nothing n g fs C :
  no_restore fs g → wp m (recover_restore g n) fs (λ res fs', res = Ok tt ∧ fs' = fs) C.
Proof.
  intros (Hk & Hb & Hj). unfold recover_restore, cleanup_unjournaled_restore_candidate.
  apply wp_try, wp_bind, wp_query. unfold exists_. rewrite Hk, Hb, Hj. simpl. apply wp_ret.
  apply wp_bind, wp_query. rewrite Hj. simpl. by apply wp_ret.
Qed.

Lemma lock_not_inside n : ¬ dir_ n `prefix_of` lock_file r.
Proof. unfold lock_file. pne. Qed.

(** The state of the loop over the directories, started on [fs0]. *)
Definition recovering fs0 c contents fs : Prop :=
  directories_ok fs c contents ∧ inside fs0 fs ∧ fs !! lock_file r = fs0 !! lock_file r.

Lemma recover_each_spec c contents fs0 names fs :
  recovering fs0 c contents fs → NoDup names →
  wp m (recover_each (join r "databases") names) fs
    (λ res fs', res = Ok tt ∧ recovering fs0 c contents fs'
       ∧ (∀ n, n ∈ names → n ∈ ids c → resting (dir_ n) fs' (contents n))
       ∧ (∀ n k, n ∉ names → dir_ n `prefix_of` k → fs' !! k = fs !! k))
    (recovering fs0 c contents).
Proof.
  revert fs. induction names as [|n names IH]; intros fs (Hd & Hin & Hlock) Hnd; simpl.
  { apply wp_ret. split_and!; [done|done|set_solver|done]. }
  apply NoDup_cons in Hnd as [Hn Hnd]. apply wp_bind, wp_query.
  change (join (join r "databases") n) with (dir_ n).
  destruct (is_dir fs (dir_ n)) eqn:Hdir; simpl; cycle 1.
  { eapply wp_mono; [by apply IH| |done]. intros res fs' (-> & Hrec & Hrest & Hother).
    split_and!; [done|done| |set_solver]. intros n' [->|Hn']%elem_of_cons Hk; [|by apply Hrest].
    destruct (do_known _ _ _ Hd n Hk) as [Hg _]. apply is_dir_true in Hg. congruence. }
  apply is_dir_true in Hdir. apply wp_try.
  destruct (decide (n ∈ ids c)) as [Hk|Hu]; cycle 1.
  { eapply wp_mono; [by apply (recover_nothing n (dir_ n) fs (recovering fs0 c contents)), Hd| |done].
    intros res fs' [-> ->]. eapply wp_mono; [by apply IH| |done].
    intros res fs' (-> & Hrec & Hrest & Hother). split_and!; [done|done| |set_solver].
    intros n' [->|Hn']%elem_of_cons Hk; [done|by apply Hrest]. }
  pose proof (do_known _ _ _ Hd n Hk) as Hr.
  assert (∀ fs', restartable (dir_ n) n fs' (contents n) → same_outside [dir_ n] fs fs' →
    recovering fs0 c contents fs') as Hstep.
  { intros fs' Hr' Ho. split_and!; [by eapply directories_ok_step| |].
    - eapply inside_trans; [done|]. eapply inside_directory; [done|].
      destruct Hr as [-> _], Hr' as [-> _]. done.
    - rewrite <-Hlock. apply (same_outside_lookup (dir_ n)); [done|apply lock_not_inside]. }
  eapply wp_mono; [by apply recover_one_spec| |intros fs' [??]; by apply Hstep].
  intros res fs1 (-> & Hrest1 & Ho1).
  eapply wp_mono; [apply IH; [apply Hstep; [by apply resting_restartable|done]|done]| |done].
  intros res fs' (-> & Hrec & Hrest & Hother). split_and!; [done|done| |].
  - intros n' [->|Hn']%elem_of_cons Hk'; [|by apply Hrest].
    eapply resting_frame; [|exact Hrest1]. intros k. by apply Hother.
  - intros n' k [Hne Hn']%not_elem_of_cons Hpre. rewrite (Hother n' k Hn' Hpre).
    by eapply other_directory.
Qed.
Lemma startable_databases fs c contents :
  startable fs c contents → fs !! join r "databases" = Some NDir.
Proof.
  intros [(fs0 & [Ht _ _ _ _ _ _] & Hin) _ _ _]. pose proof (to_databases _ _ _ Ht). by stays Hin.
Qed.

Lemma startable_inside fs fs' c contents :
  startable fs c contents → inside fs fs' → directories_ok fs' c contents →
  is_dir fs' (lock_file r) = false → startable fs' c contents.
Proof.
  intros [(fs0 & Hrc & Hin0) _ Hl _] Hin Hd Hlock. split; [|done| |done].
  - exists fs0. split; [done|by eapply inside_trans].
  - by stays Hin.
Qed.

(** Every Database at rest, and so the catalog recoverable. *)
Definition all_resting fs c (contents : string → logical_state) : Prop :=
  ∀ n, n ∈ ids c → resting (dir_ n) fs (contents n).

Lemma resting_stored fs n l : resting (dir_ n) fs l → is_file fs (database_path r n) = true.
Proof.
  intros [_ (Ht & _)]. simpl in Ht. apply logical_file in Ht as (mo & b & Ht). unfold is_file.
  change (database_path r n) with (target_file (dir_ n)). by rewrite Ht.
Qed.

Lemma startable_recoverable fs c contents :
  startable fs c contents → all_resting fs c contents → recoverable r fs c.
Proof.
  intros [(fs0 & Hrc & Hin) _ _ _] Hrest. eapply recoverable_inside; [done|done|].
  intros n Hn. by eapply resting_stored, Hrest.
Qed.

Lemma recover_snapshots_spec c contents fs :
  startable fs c contents →
  wp m (recover_snapshot_operations r) fs
    (λ res fs', res = Ok tt ∧ startable fs' c contents ∧ all_resting fs' c contents ∧ inside fs fs')
    (λ fs', startable fs' c contents).
Proof.
  intros Hsa. pose proof (startable_databases _ _ _ Hsa) as Hdir.
  assert (∀ fs', recovering fs c contents fs' → startable fs' c contents) as Hstep.
  { intros fs' (Hd & Hin & Hlock). eapply startable_inside; [done|done|done|]. unfold is_dir.
    rewrite Hlock. apply Hsa. }
  unfold recover_snapshot_operations. apply wp_bind, wp_query.
  rewrite (proj2 (is_dir_true _ _) Hdir). simpl. apply wp_try, wp_map_err.
  eapply wp_atomic; [unfold do_read_dir; by rewrite Hdir| |congruence|done]. simpl.
  eapply wp_mono; [apply (recover_each_spec c contents fs)| |done];
    [split_and!; [apply Hsa|by intros k _ _|done]|apply NoDup_children|].
  intros res fs' (-> & Hrec & Hrest & _). split_and!; [done|by apply Hstep| |apply Hrec].
  intros n Hn. apply Hrest; [|done]. apply elem_of_children.
  destruct (do_known _ _ _ (sa_directories _ _ _ Hsa) n Hn) as [Hg _]. by eexists.
Qed.

(** ** The lock *)

Lemma lock_spec pid fs :
  fs !! join r "locks" = Some NDir → is_dir fs (lock_file r) = false →
  wp m (acquire_data_directory_lock false pid r) fs
    (λ res fs', res = Ok tt ∧ same_except [lock_file r] fs fs' ∧ is_dir fs' (lock_file r) = false)
    (λ fs', same_except [lock_file r] fs fs' ∧ is_dir fs' (lock_file r) = false).
Proof.
  intros Hlocks Hlock. unfold acquire_data_directory_lock.
  assert (∀ fs' mo b, same_except [lock_file r] fs fs' →
    same_except [lock_file r] fs (<[lock_file r := NFile mo b]> fs')
    ∧ is_dir (<[lock_file r := NFile mo b]> fs') (lock_file r) = false) as Hput.
  { intros fs' mo b Hs. split; [by apply same_except_insert; [set_solver|]|].
    unfold is_dir. by rewrite lookup_insert_eq. }
  apply wp_try, wp_map_err, wp_bind, wp_umask. intros u.
  assert (∃ fs1 mo b, do_open_create (Z.land default_mode (Z.lnot u)) (lock_file r) fs = (Ok tt, fs1)
    ∧ same_except [lock_file r] fs fs1 ∧ fs1 !! lock_file r = Some (NFile mo b)) as
    (fs1 & mo & b & Hopen & Hs1 & Hf1).
  { unfold do_open_create, do_open_new. destruct (is_dir_false_cases _ _ Hlock) as [Hn|(mo & b & Hf)].
    - unfold exists_, lock_file at 3. rewrite Hn, parent_join, (proj2 (is_dir_true _ _) Hlocks).
      eexists _, _, _. split_and!; [done| |by rewrite lookup_insert_eq].
      by apply same_except_insert; [set_solver|].
    - rewrite Hf. by eexists _, _, _. }
  eapply wp_atomic; [exact Hopen| |congruence|by split]. simpl.
  apply wp_try, wp_map_err. eapply wp_atomic; [done| |congruence|].
  2: { intros _. split; [done|]. unfold is_dir. by rewrite Hf1. }
  unfold set_content. rewrite Hf1. simpl. apply wp_map_err.
  eapply wp_write_all_sync; [by rewrite lookup_insert_eq| |congruence|]; intros;
    rewrite ?insert_insert_eq; simpl; [split; [done|]|]; by apply Hput.
Qed.
(** ** The catalog *)

Lemma startable_tracked fs fs' c contents :
  startable fs c contents → tracked r fs fs' c → startable fs' c contents.
Proof.
  intros [_ [Hk Hu] Hlocks Hlock] [Hrc [Hkeep Hl]].
  assert (join r "locks" `prefix_of` lock_file r) as Hpre.
  { unfold lock_file, join. by apply prefix_app_r. }
  split; [by exists fs'| |by rewrite Hl|unfold is_dir; by rewrite Hl].
  split; intros n Hn; destruct (Hkeep n) as [Hsame|[Hn' Hg]].
  - eapply restartable_frame; [done|by apply Hk].
  - done.
  - rewrite Hsame by done. intros Hd. eapply no_restore_frame; [done|by apply Hu].
  - by rewrite Hg.
Qed.

Lemma all_resting_tracked fs fs' c contents :
  all_resting fs c contents → tracked r fs fs' c → all_resting fs' c contents.
Proof.
  intros Hrest [_ [Hkeep _]] n Hn. destruct (Hkeep n) as [Hsame|[? _]]; [|done].
  eapply resting_frame; [done|by apply Hrest].
Qed.

Lemma load_startable c contents fs :
  startable fs c contents → all_resting fs c contents →
  wp m (load r) fs
    (λ res fs', res = Ok (mkCatalogStore r c) ∧ settled r fs' c
                ∧ startable fs' c contents ∧ all_resting fs' c contents)
    (λ fs', startable fs' c contents).
Proof.
  intros Hsa Hrest. eapply wp_mono; [by apply load_spec, (startable_recoverable _ _ contents)| |].
  - intros res fs' (Htr & Hok & Hst). specialize (Hok Hm). destruct res as [store|]; [|done].
    destruct (Hst store eq_refl) as [-> Hs].
    split_and!; [done|done|by eapply startable_tracked|by eapply all_resting_tracked].
  - intros fs' Htr. by eapply startable_tracked.
Qed.

(** ** Opening the Databases *)

(** Settled, with every Database at rest. *)
Definition serving fs c contents : Prop :=
  settled r fs c ∧ startable fs c contents ∧ all_resting fs c contents.

Lemma keeps_data_stays p fs fs' : keeps_data p fs fs' → stays_within p fs fs'.
Proof. intros [Hown [Hf _]]. split; [done|]. exact Hf. Qed.

Lemma settled_within i fs fs' c :
  stays_within (database_path r i) fs fs' → settled r fs c → settled r fs' c.
Proof.
  intros [Hown Hfile] [[T1 T2 T3 T4 T5 T6] Hv [A1 (b & A2 & A2') A3 A4 A5]].
  assert (∀ k, ¬ dir_ i `prefix_of` k → fs' !! k = fs !! k) as Hout.
  { intros k Hk. by apply (same_outside_lookup (dir_ i)); [apply own_files_inside|]. }
  assert (∀ n, fs' !! dir_ n = fs !! dir_ n) as Hdir.
  { intros n. apply Hown. unfold database_path. rewrite sidecar_join, !not_elem_of_cons.
    split_and!; [pne|pne|apply not_elem_of_nil]. }
  split; [|done|].
  - split; try (by rewrite Hout by pne).
    + intros n Hn. destruct (T5 n Hn) as [Hd Hf]. split; [by rewrite Hdir|].
      destruct (decide (n = i)) as [->|Hne]; [by rewrite Hfile|].
      unfold is_file. rewrite Hout; [done|]. intros [s Heq].
      unfold database_path, database_directory, join in Heq. rewrite <-!app_assoc in Heq.
      apply app_inv_head in Heq. simpl in Heq. congruence.
    + intros n Hn Hd s. rewrite Hdir in Hd. rewrite Hout by pne. by apply T6.
  - split; unfold stores, content, is_dir; rewrite ?Hout by pne; try done. by exists b.
Qed.

Lemma resting_kept n fs fs' l :
  keeps_data (database_path r n) fs fs' → resting (dir_ n) fs l → resting (dir_ n) fs' l.
Proof.
  intros [Hown Hdata] [Hg (Ht & Hk & Hb & Hj)].
  assert (∀ s, s ≠ Target → fs' !! slot_path (dir_ n) s = fs !! slot_path (dir_ n) s) as Hslots.
  { intros s Hs. apply Hown. change (database_path r n) with (slot_path (dir_ n) Target).
    rewrite !not_elem_of_cons. split_and!; [by intros ?%slot_path_inj|apply slot_not_sidecar|apply not_elem_of_nil]. }
  split.
  - rewrite Hown; [done|]. change (database_path r n) with (slot_path (dir_ n) Target).
    rewrite !not_elem_of_cons. split_and!; [|intros Heq|apply not_elem_of_nil];
      [intros Heq; by apply (@slot_not_dir (restore_slots (dir_ n)) Target)|by apply (@sidecar_not_dir (restore_slots (dir_ n)) Target)].
  - assert (fs' !! candidate_file (dir_ n) = fs !! candidate_file (dir_ n)) by by apply (Hslots Candidate).
    assert (fs' !! backup_file (dir_ n) = fs !! backup_file (dir_ n)) by by apply (Hslots Backup).
    assert (fs' !! journal_file (dir_ n) = fs !! journal_file (dir_ n)) by by apply (Hslots Journal).
    unfold quiet, view_of. simpl in *.
    split_and!; try congruence. by apply (same_data_logical (fs !! target_file (dir_ n))).
Qed.

Lemma serving_kept n fs fs' c contents :
  n ∈ ids c → serving fs c contents → keeps_data (database_path r n) fs fs' →
  serving fs' c contents.
Proof.
  intros Hn (Hs & Hsa & Hrest) Hkeep.
  assert (same_outside [dir_ n] fs fs') as Ho by (apply own_files_inside, Hkeep).
  assert (all_resting fs' c contents) as Hrest'.
  { intros n' Hn'. destruct (decide (n' = n)) as [->|Hne]; [by eapply resting_kept, Hrest|].
    eapply resting_frame; [|by apply Hrest]. intros k. by eapply other_directory. }
  split_and!; [by eapply settled_within, Hs; apply keeps_data_stays| |done].
  eapply startable_inside; [done| | |].
  - eapply inside_directory; [done|]. destruct (Hrest n Hn) as [-> _], (Hrest' n Hn) as [-> _]. done.
  - eapply directories_ok_step; [apply Hsa|done| |done].
    intros _. by apply resting_restartable, Hrest'.
  - unfold is_dir. rewrite (same_outside_lookup (dir_ n) fs) by (done || apply lock_not_inside). apply Hsa.
Qed.

Lemma serving_logical n fs c contents :
  n ∈ ids c → serving fs c contents → is_Some (node_logical (fs !! database_path r n)).
Proof. intros Hn (_ & _ & Hrest). destruct (Hrest n Hn) as [_ (Ht & _)]. by eexists. Qed.

(** An open database of the catalog. *)
Definition opened_of c (db : edb) : Prop := ∃ n, n ∈ ids c ∧ edb_path db = database_path r n.

Lemma close_serving db fs c contents :
  opened_of c db → serving fs c contents →
  wp m (engine_close db) fs (λ _ fs', serving fs' c contents) (λ fs', serving fs' c contents).
Proof.
  intros (n & Hn & Hp) Hs. eapply wp_mono; [apply snapshot_close| |]; rewrite Hp; intros;
    by eapply serving_kept.
Qed.

Lemma close_each_spec dbs fs c contents :
  Forall (opened_of c) dbs → serving fs c contents →
  wp m (close_each dbs) fs (λ _ fs', serving fs' c contents) (λ fs', serving fs' c contents).
Proof.
  intros Hall. revert fs. induction Hall as [|db dbs Hdb _ IH]; intros fs Hs; simpl; [by apply wp_ret|].
  apply wp_bind. eapply wp_mono; [by apply close_serving| |done]. intros [] fs' Hs'. by apply IH.
Qed.

Lemma open_entry_spec e fs c contents :
  e ∈ databases c → serving fs c contents →
  wp m (open_entry r e) fs
    (λ res fs', serving fs' c contents
                ∧ match res with
                  | Ok db => edb_path db = database_path r (id e)
                  | Err err => err = source_baseline_error (name e)
                  end)
    (λ fs', serving fs' c contents).
Proof.
  intros He Hs. assert (id e ∈ ids c) as Hn by by apply list_elem_of_fmap_2.
  unfold open_entry. apply wp_try, wp_map_err. eapply wp_mono; [apply snapshot_open| |];
    cycle 1. { intros fs' Hk. by eapply serving_kept. }
  intros res fs1 [Hk Hres]. pose proof (serving_kept _ _ _ _ _ Hn Hs Hk) as Hs1.
  destruct res as [db|err]; simpl; cycle 1.
  { destruct (serving_logical _ _ _ _ Hn Hs) as [l Hl]. destruct Hres; congruence. }
  apply wp_bind. eapply wp_mono; [apply info_law| |]; rewrite Hres; cycle 1.
  { intros fs' Hk'. by eapply serving_kept. }
  intros res fs2 [Hk2 Hok]. pose proof (serving_kept _ _ _ _ _ Hn Hs1 Hk2) as Hs2.
  specialize (Hok Hm (serving_logical _ _ _ _ Hn Hs1)). destruct res as [info|]; [|done].
  destruct (info_source_enabled info); [|by apply wp_ret].
  apply wp_bind. eapply wp_mono; [by apply close_serving; [exists (id e)|]| |done].
  intros [] fs3 Hs3. by apply wp_ret.
Qed.

(** The handles of [l], opened on their files. *)
Definition handles_of (l : list CatalogDatabase) (hs : gmap string ManagedDatabase) : Prop :=
  (∀ i, is_Some (hs !! i) ↔ i ∈ id <$> l)
  ∧ ∀ i h, hs !! i = Some h →
      handle_id h = i ∧ handle_path h = database_path r i
      ∧ ∃ db, handle_database h = Some db ∧ edb_path db = database_path r i.

Lemma handles_of_insert l hs e db :
  handles_of l hs → edb_path db = database_path r (id e) →
  handles_of (l ++ [e])
    (<[id e := mkManagedDatabase (id e) (database_path r (id e)) (Some db)]> hs).
Proof.
  intros [Hdom Hh] Hdb. split.
  - intros i. rewrite fmap_app, elem_of_app, <-Hdom. simpl. rewrite list_elem_of_singleton.
    destruct (decide (i = id e)) as [->|Hne]; [rewrite lookup_insert_eq; naive_solver|].
    rewrite lookup_insert_ne by done. naive_solver.
  - intros i h. destruct (decide (i = id e)) as [->|Hne].
    + rewrite lookup_insert_eq. intros [= <-]. by split_and!; [| |exists db].
    + rewrite lookup_insert_ne by done. apply Hh.
Qed.

Lemma open_entries_spec l earlier opened hs fs c contents :
  databases c = earlier ++ l → Forall (opened_of c) opened → handles_of earlier hs →
  serving fs c contents →
  wp m (open_entries r l opened hs) fs
    (λ res fs', serving fs' c contents
                ∧ match res with
                  | Ok hs' => handles_of (databases c) hs'
                  | Err err => ∃ e, e ∈ databases c ∧ err = source_baseline_error (name e)
                  end)
    (λ fs', serving fs' c contents).
Proof.
  revert earlier opened hs fs. induction l as [|e l IH]; intros earlier opened hs fs Hc Hop Hh Hs; simpl.
  { apply wp_ret. split; [done|]. by rewrite Hc, app_nil_r. }
  assert (e ∈ databases c) as He by (rewrite Hc; set_solver).
  apply wp_bind. eapply wp_mono; [by apply open_entry_spec| |done].
  intros [db|err] fs' [Hs' Hres].
  - apply (IH (earlier ++ [e])); [by rewrite Hc, <-app_assoc| |by apply handles_of_insert|done].
    apply Forall_app. split; [done|]. constructor; [|done].
    exists (id e). split; [by apply list_elem_of_fmap_2|done].
  - apply wp_bind. eapply wp_mono; [by apply close_each_spec| |done].
    intros [] fs2 Hs2. apply wp_ret. split; [done|]. by exists e.
Qed.
End modes.
End opening.

(** ** Opening *)

Section open.
Context `{!Engine, !Snapshots, !SnapshotLaws, !InfoLaws, !Uuid, !SocketAddr, !Toml}.
Context `{!Json Catalog, !Json OperationJournal, !Json RestoreJournal}.
Context `{!JsonLaws Catalog, !JsonLaws OperationJournal, !JsonLaws RestoreJournal}.
Context (cwd : path) (config : DaemonConfig).
Implicit Types (fs : fsys) (c : Catalog).

Local Abbreviation r := (located cwd (data_directory config)).

(** A protected credential file, outside the Databases' directories. *)
Record credential_stored fs (p : PathBuf) (b : bytes) : Prop := {
  cs_file : ∃ mo, fs !! located cwd p = Some (NFile mo (b ++ [newline]))
                  ∧ Z.land (Z.land mo 0x1FF) 0x3F = 0%Z;
  cs_ok : credential_ok b;
  cs_lock : located cwd p ≠ lock_file r;
  cs_outside n : ¬ database_directory r n `prefix_of` located cwd p
}.

Record credentials_stored fs (creds : Credentials) : Prop := {
  cd_query : credential_stored fs (query_credential_file (authentication config)) (query_credential creds);
  cd_admin : credential_stored fs (admin_credential_file (authentication config)) (admin_credential creds);
  cd_differ : query_credential creds ≠ admin_credential creds
}.

Lemma credential_inside fs fs' p b :
  credential_stored fs p b → inside r fs fs' → credential_stored fs' p b.
Proof.
  intros [(mo & Hf & Hmo) Hok Hl Ho] Hin. split; try done. exists mo. rewrite Hin; [done|done|].
  intros n Hn. by destruct (Ho n).
Qed.

Lemma credentials_inside fs fs' creds :
  credentials_stored fs creds → inside r fs fs' → credentials_stored fs' creds.
Proof. intros [Hq Ha Hd] Hin. split; [by eapply credential_inside..|done]. Qed.

Lemma credentials_load_spec m creds fs (C : fsys → Prop) :
  errors m = false → (crashes m = true → C fs) → credentials_stored fs creds →
  wp m (credentials_load cwd config) fs (λ res fs', res = Ok creds ∧ fs' = fs) C.
Proof.
  intros Hm HC [[(mq & Hq & Hmq) Hokq _ _] [(ma & Ha & Hma) Hoka _ _] Hne]. unfold credentials_load.
  apply wp_try. eapply wp_mono; [by eapply wp_read_credential| |done].
  intros ? ? [-> ->]. apply wp_try. eapply wp_mono; [by eapply wp_read_credential| |done].
  intros ? ? [-> ->]. rewrite decide_False by done. apply wp_ret. by destruct creds.
Qed.

(** What opening gives for catalog [c]. *)
Definition open_result c creds (res : result DatabaseDaemon ServerError) : Prop :=
  match res with
  | Ok d =>
      daemon_config d = config ∧ daemon_credentials d = creds
      ∧ daemon_catalog d = mkCatalogStore r c ∧ handles_of r (databases c) (daemon_databases d)
  | Err e => ∃ entry, entry ∈ databases c ∧ e = source_baseline_error (name entry)
  end.

Lemma open_daemon_spec m pid creds c contents fs :
  errors m = false → startable r fs c contents → credentials_stored fs creds →
  wp m (open_daemon cwd false pid config) fs
    (λ res fs', serving r fs' c contents ∧ open_result c creds res)
    (λ fs', startable r fs' c contents).
Proof.
  intros Hm Hsa Hcr. unfold open_daemon. apply wp_try.
  assert (∀ fs', same_except [lock_file r] fs fs' ∧ is_dir fs' (lock_file r) = false →
    startable r fs' c contents) as Hlocked.
  { intros fs' [Hs Hl]. eapply startable_inside; [done|by apply inside_lock| |done].
    destruct (sa_directories _ _ _ _ Hsa) as [Hk Hu].
    assert (∀ n k, database_directory r n `prefix_of` k → fs' !! k = fs !! k) as Hsame.
    { intros n k Hk'. apply Hs. intros ->%list_elem_of_singleton. by apply (lock_not_inside r n). }
    split; intros n Hn; [|rewrite (Hsame n) by done; intros Hd].
    - eapply restartable_frame; [apply (Hsame n)|by apply Hk].
    - eapply no_restore_frame; [apply (Hsame n)|by apply Hu]. }
  eapply wp_mono; [apply (lock_spec r m Hm pid fs); apply Hsa| |done].
  intros res fs1 (-> & Hs1 & Hl1). specialize (Hlocked fs1 (conj Hs1 Hl1)).
  apply wp_try. eapply wp_mono; [by apply (recover_snapshots_spec r m Hm c contents)| |done].
  intros res fs2 (-> & Hsa2 & Hrest2 & Hin2).
  apply wp_try. eapply wp_mono; [by apply (credentials_load_spec m creds fs2 (λ fs', startable r fs' c contents));
    [| |eapply credentials_inside; [eapply credentials_inside; [|by apply inside_lock]|]]| |done].
  intros res fs3 [-> ->].
  apply wp_try. eapply wp_mono; [by apply (load_startable r m Hm c contents)| |done].
  intros res fs4 (-> & Hst & Hsa4 & Hrest4).
  apply wp_try. eapply wp_mono;
    [apply (open_entries_spec r m Hm (databases c) [] [] ∅ fs4 c contents)| |by intros fs5 (_ & ? & _)].
  { done. }
  { done. }
  { split; [|done]. intros i. simpl. rewrite lookup_empty, elem_of_nil. split; [by intros []|done]. }
  { done. }
  intros [hs|e] fs5 [Hserve Hres]; [apply wp_ret|]; done.
Qed.

(** C3: Opening recovers the data directory.  From every state that crashes in
    lifecycle operations, restores and earlier openings can leave (short of a
    torn journal), a start without faults returns; the catalog is the durable
    one, every Database is at rest with the content its directory stands for,
    no restore file is left; and the daemon holds the stored credentials, that
    catalog and one open handle per Database, unless a Database still has a
    source baseline, which the error names. *)
Theorem open_recovers pid creds c contents fs u :
  startable r fs c contents → credentials_stored fs creds →
  ∃ res w', open_daemon cwd false pid config (fresh fs u) = (Some res, w')
            ∧ serving r (w_fs w') c contents ∧ open_result c creds res.
Proof.
  intros Hsa Hcr.
  destruct (wp_returns _ _ _ _ u (open_daemon_spec Calm pid creds c contents fs eq_refl Hsa Hcr))
    as (res & w' & Hrun & Hres). eauto.
Qed.

(** C22: Opening tolerates its own interruption: a process that dies anywhere in
    [open] leaves a data directory that can be started with the same catalog and
    the same contents. *)
Theorem open_restartable pid creds c contents w :
  startable r (w_fs w) c contents → credentials_stored (w_fs w) creds →
  schedule_ok CrashOnly (w_faults w) →
  let '(res, w') := open_daemon cwd false pid config w in
  startable r (w_fs w') c contents ∧ ∀ o, res = Some o → open_result c creds o.
Proof.
  intros Hsa Hcr Hs.
  pose proof (open_daemon_spec CrashOnly pid creds c contents _ eq_refl Hsa Hcr w Hs eq_refl) as Hwp.
  destruct (open_daemon cwd false pid config w) as [[res|] w']; destruct Hwp as [_ Hwp].
  - destruct Hwp as [(_ & ? & _) ?]. naive_solver.
  - split; [done|]. naive_solver.
Qed.

(** C34: Two daemons never share a data directory: while another process owns the
    lock, opening fails and, whatever I/O errors and crashes strike, changes no
    file but the lock file, whose content it keeps. *)
Theorem owned_directory_refused pid w :
  let '(res, w') := open_daemon cwd true pid config w in
  (∀ o, res = Some o → is_err o = true)
  ∧ same_except [lock_file r] (w_fs w) (w_fs w')
  ∧ ∀ b, content (w_fs w) (lock_file r) = Some b → content (w_fs w') (lock_file r) = Some b.
Proof.
  assert (wp Hostile (open_daemon cwd true pid config) (w_fs w)
    (λ o fs', is_err o = true ∧ same_except [lock_file r] (w_fs w) fs'
       ∧ ∀ b, content (w_fs w) (lock_file r) = Some b → content fs' (lock_file r) = Some b)
    (λ fs', same_except [lock_file r] (w_fs w) fs'
       ∧ ∀ b, content (w_fs w) (lock_file r) = Some b → content fs' (lock_file r) = Some b)) as Hwp.
  { unfold open_daemon, acquire_data_directory_lock. apply wp_try, wp_try, wp_map_err, wp_bind, wp_umask.
    intros u. pose proof (open_create_except (Z.land default_mode (Z.lnot u)) (lock_file r) (w_fs w)) as Hex.
    apply wp_syscall; [|intros; simpl; by split_and!; [|apply same_except_refl|]|
      intros; by split; [apply same_except_refl|]].
    assert (∀ b, content (w_fs w) (lock_file r) = Some b →
      content (do_open_create (Z.land default_mode (Z.lnot u)) (lock_file r) (w_fs w)).2 (lock_file r)
      = Some b) as Hkeep.
    { intros b Hb. pose proof Hb as [mo Hf]%content_Some. unfold do_open_create. by rewrite Hf. }
    destruct (do_open_create (Z.land default_mode (Z.lnot u)) (lock_file r) (w_fs w)) as [[[]|e] fs'];
      simpl in *; [by apply wp_ret|done]. }
  specialize (Hwp w I eq_refl). destruct (open_daemon cwd true pid config w) as [[o|] w'];
    destruct Hwp as [_ Hwp]; naive_solver.
Qed.
End open.

(** ** A concrete start *)

Module Concrete.
Import CatalogTheorems.Concrete Toy RestoreProofs.Concrete.

#[export] Instance info_laws : InfoLaws.
Proof. split. intros m db fs. apply wp_ret. split; [apply keeps_data_refl|done]. Qed.

#[export] Existing Instance ConfigProofs.Concrete.socket.
#[export] Existing Instance ConfigProofs.Concrete.toml.
#[export] Existing Instance ConfigProofs.Concrete.toml_laws.

Definition config : DaemonConfig := config_new (mkPathBuf true CatalogTheorems.Concrete.root) "127.0.0.1:7878".
Definition credentials : Credentials := mkCredentials (repeat x61 32) (repeat x62 32).

Definition entries : list (path * node) :=
  CatalogTheorems.Concrete.entries ++
  [(["data"; "credentials"], NDir);
   (["data"; "credentials"; "client.token"], NFile 384 (query_credential credentials ++ [newline]));
   (["data"; "credentials"; "admin.token"], NFile 384 (admin_credential credentials ++ [newline]))].

Definition stopped : fsys := list_to_map entries.

(** What the restore was bringing. *)
Definition contents : string → @logical_state engine snapshots := λ _, [x01; x20].

Definition directory : path := database_directory CatalogTheorems.Concrete.root id1.

Definition handle1 : ManagedDatabase :=
  mkManagedDatabase id1 (target_file directory) (Some (target_file directory)).

(** A restore dies with the live file set aside and the candidate not installed. *)
Definition dying : world := World stopped (replicate 11 NoFault ++ [CrashAt 2]) 18.
Definition crashed_fs : fsys := w_fs (restore_snapshot handle1 [x01; x20] dying).2.

Lemma stopped_lookup k x : stopped !! k = Some x → (k, x) ∈ entries.
Proof. apply elem_of_list_to_map_2. Qed.

Lemma stopped_tree : tree_ok CatalogTheorems.Concrete.root stopped old.
Proof.
  split; try (vm_compute; reflexivity).
  - intros n ->%list_elem_of_singleton. split; vm_compute; reflexivity.
  - intros n Hn [x Hx%stopped_lookup]. exfalso.
    unfold entries, CatalogTheorems.Concrete.entries, database_directory, join, CatalogTheorems.Concrete.root in Hx.
    assert (n ≠ id1) by (intros ->; apply Hn; by left). simpl in Hx. set_unfold. naive_solver.
Qed.

Lemma stopped_recoverable : recoverable CatalogTheorems.Concrete.root stopped old.
Proof.
  split; try (vm_compute; reflexivity); try (left; vm_compute; reflexivity); [apply stopped_tree|].
  left. exists (document old). split; [vm_compute; reflexivity|]. by apply json_newline.
Qed.

Lemma stopped_resting : resting directory stopped [x01].
Proof. split; [reflexivity|by vm_compute]. Qed.

Lemma handle1_open : handle_open directory id1 handle1.
Proof. split; [reflexivity|split; [reflexivity|by eexists]]. Qed.

Lemma dying_schedule : schedule_ok CrashOnly (w_faults dying).
Proof. vm_compute. repeat constructor. Qed.

Lemma crashed_outside : same_outside [directory] stopped crashed_fs.
Proof.
  destruct stopped_resting as [Hg Hq].
  pose proof (restore_snapshot_spec directory id1 stopped CrashOnly eq_refl handle1 _ [x01; x20] _
    handle1_open Hq stopped (views_view_of _ _ Hg) dying dying_schedule eq_refl) as Hwp.
  unfold crashed_fs. destruct (restore_snapshot handle1 [x01; x20] dying) as [[res|] w'];
    destruct Hwp as [_ (v & (_ & _ & Ho)%seen & _)]; exact Ho.
Qed.

Lemma crashed_startable :
  startable CatalogTheorems.Concrete.root crashed_fs old contents.
Proof.
  split.
  - exists stopped. split; [apply stopped_recoverable|].
    eapply inside_directory; [apply crashed_outside|vm_compute; reflexivity].
  - split.
    + intros n ->%list_elem_of_singleton. split; [vm_compute; reflexivity|].
      apply set_aside; [|vm_compute; reflexivity..].
      eexists _, _. split; vm_compute; reflexivity.
    + intros n Hn Hd. exfalso. assert (n ≠ id1) as Hne by (intros ->; apply Hn; by left).
      pose proof (other_directory CatalogTheorems.Concrete.root id1 n stopped crashed_fs
        (database_directory CatalogTheorems.Concrete.root n) crashed_outside Hne (reflexivity _)) as Heq.
      apply (eq_trans (eq_sym Heq)), stopped_lookup in Hd. clear Heq.
      unfold entries, CatalogTheorems.Concrete.entries, database_directory, join, CatalogTheorems.Concrete.root in Hd.
      simpl in Hd. set_unfold. naive_solver.
  - vm_compute; reflexivity.
  - vm_compute; reflexivity.
Qed.

Lemma token_at p b :
  crashed_fs !! located [] p = Some (NFile 384 (b ++ [newline])) → credential_ok b →
  located [] p ≠ lock_file (located [] (data_directory config)) →
  (∀ n, ¬ database_directory (located [] (data_directory config)) n `prefix_of` located [] p) →
  credential_stored [] config crashed_fs p b.
Proof. intros Hf Hok Hl Ho. split; [|done..]. exists 384%Z. by split. Qed.

Lemma crashed_credentials : credentials_stored [] config crashed_fs credentials.
Proof.
  split; [| |discriminate]; (apply token_at; [vm_compute; reflexivity| |discriminate|]).
  - split; [discriminate|reflexivity].
  - intros n [s Hs]. discriminate Hs.
  - split; [discriminate|reflexivity].
  - intros n [s Hs]. discriminate Hs.
Qed.

Lemma open_recovers_witness :
  ∃ res w', open_daemon [] false [x37] config (fresh crashed_fs 18) = (Some res, w')
            ∧ serving CatalogTheorems.Concrete.root (w_fs w') old contents
            ∧ open_result [] config old credentials res.
Proof.
  exact (open_recovers [] config [x37] credentials old contents crashed_fs 18
    crashed_startable crashed_credentials).
Defined.

(** It does open, with the restored content. *)
Lemma crashed_opens :
  match (open_daemon [] false [x37] config (fresh crashed_fs 18)).1 with
  | Some (Ok d) => Daemon.entries d = old ∧ dom (daemon_databases d) = {[id1]}
  | _ => False
  end.
Proof. vm_compute. split; reflexivity. Qed.

Lemma open_restartable_witness :
  let '(res, w') := open_daemon [] false [x37] config (World crashed_fs (replicate 7 NoFault ++ [CrashAt 0]) 18) in
  startable CatalogTheorems.Concrete.root (w_fs w') old contents
  ∧ ∀ o, res = Some o → open_result [] config old credentials o.
Proof.
  apply (open_restartable [] config [x37] credentials old contents
    (World crashed_fs (replicate 7 NoFault ++ [CrashAt 0]) 18));
    [exact crashed_startable|exact crashed_credentials|].
  vm_compute. repeat constructor.
Defined.

End Concrete.
