(* ===== verification/Refusals.v ===== *)
(** * Data directories that no start accepts

    Three states that real failures leave and that [DatabaseDaemon::open]
    refuses for ever: a torn restore journal, a catalog that names storage
    which was moved away, and no catalog at all.  Each is an invariant of
    opening, under every schedule of I/O errors and crashes. *)

From Stdlib Require Import ZArith Lia Ascii.
From stdpp Require Import base list strings gmap.
From S2P Require Import Prelude Fs Codec Catalog CatalogAtomic CatalogRecovery CatalogTheorems Wire.
From S2P Require Import Messages Config Protocol Engine Daemon DaemonProofs Restore Slots RestoreProofs.
From S2P Require Import ConfigProofs Startup StartupProofs.

Open Scope string_scope.
Open Scope list_scope.

(** ** Computations that keep a property of the file system *)

Section keeping.
Context (P : fsys → Prop).
Implicit Types (fs : fsys).

(** Whatever faults strike, [P] holds when the computation returns or dies. *)
Definition keeps {A} (c : io A) : Prop := ∀ m fs, P fs → wp m c fs (λ _, P) P.

(** Moreover it never succeeds. *)
Definition refuses {A E} (c : io (result A E)) : Prop :=
  ∀ m fs, P fs → wp m c fs (λ r fs', is_err r = true ∧ P fs') P.

(** [P] does not depend on what lies at or below the paths. *)
Definition indifferent (ps : list path) : Prop := ∀ fs fs', same_outside ps fs fs' → P fs → P fs'.

Lemma keeps_ret {A} (a : A) : keeps (ret a).
Proof. intros m fs HP. by apply wp_ret. Qed.

Lemma keeps_query {A} (q : fsys → A) : keeps (query q).
Proof. intros m fs HP. by apply wp_query. Qed.

Lemma keeps_bind {A B} (c : io A) (k : A → io B) : keeps c → (∀ a, keeps (k a)) → keeps (bind c k).
Proof.
  intros Hc Hk m fs HP. apply wp_bind. eapply wp_mono; [by apply Hc| |done].
  intros a fs' HP'. by apply Hk.
Qed.

Lemma keeps_try {A B E} (c : io (result A E)) (k : A → io (result B E)) :
  keeps c → (∀ a, keeps (k a)) → keeps (try_bind c k).
Proof.
  intros Hc Hk m fs HP. apply wp_try. eapply wp_mono; [by apply Hc| |done].
  intros [a|e] fs' HP'; [by apply Hk|done].
Qed.

Lemma keeps_map_err {A E F} (f : E → F) (c : io (result A E)) : keeps c → keeps (io_map_err f c).
Proof. intros Hc m fs HP. apply wp_map_err. by apply Hc. Qed.

Lemma refuses_try {A B E} (c : io (result A E)) (k : A → io (result B E)) :
  keeps c → (∀ a, refuses (k a)) → refuses (try_bind c k).
Proof.
  intros Hc Hk m fs HP. apply wp_try. eapply wp_mono; [by apply Hc| |done].
  intros [a|e] fs' HP'; [by apply Hk|done].
Qed.

Lemma refuses_first {A B E} (c : io (result A E)) (k : A → io (result B E)) :
  refuses c → refuses (try_bind c k).
Proof.
  intros Hc m fs HP. apply wp_try. eapply wp_mono; [by apply Hc| |done].
  intros [a|e] fs' [He HP']; [done|by split].
Qed.

(** A call that changes nothing. *)
Lemma keeps_reading {A} (op : fsys → result A io_error * fsys) :
  (∀ fs, (op fs).2 = fs) → keeps (atomic op).
Proof. intros Hop m fs HP. apply wp_syscall; [by rewrite Hop|done..]. Qed.

(** A call that changes only what lies at or below the paths. *)
Lemma keeps_atomic {A} (op : fsys → result A io_error * fsys) ps :
  (∀ fs, same_outside ps fs (op fs).2) → indifferent ps → keeps (atomic op).
Proof. intros Hop Hi m fs HP. apply wp_syscall; [by eapply Hi|done..]. Qed.

Lemma remove_file_outside p fs : same_outside [p] fs (do_remove_file p fs).2.
Proof.
  unfold do_remove_file. repeat case_match; simpl; auto with nostdb.
  eapply (same_except_below p p); [done|auto with nostdb].
Qed.

Lemma rename_outside p q fs : same_outside [p; q] fs (do_rename p q fs).2.
Proof.
  unfold do_rename. destruct (fs !! p) as [[mo b|]|]; [|repeat case_decide; repeat case_match|];
    simpl; auto with nostdb.
  - repeat case_match; simpl; auto with nostdb. apply same_outside_rename_file.
  - match goal with H : nothing_below _ _ |- _ => rename H into Hbelow end.
    intros k Hk. rewrite move_tree_other.
    + rewrite lookup_delete_ne; [done|]. intros <-. by apply (Hk q); [set_solver|].
    + intros s. destruct (decide (s = [])) as [->|Hs]; [by rewrite app_nil_r, lookup_delete_eq|].
      rewrite lookup_delete_ne; [|intros Heq; apply Hs; by apply (app_inv_head q); rewrite app_nil_r].
      apply eq_None_not_Some. intros [n Hn]. apply (Hbelow _ _ Hn). split; [by apply prefix_app_r|].
      intros Heq. apply Hs, (app_inv_head q). by rewrite app_nil_r.
    + apply Hk. set_solver.
    + apply Hk. set_solver.
Qed.

Lemma keeps_remove_file p : indifferent [p] → keeps (remove_file p).
Proof. apply keeps_atomic, remove_file_outside. Qed.

Lemma keeps_rename p q : indifferent [p; q] → keeps (rename p q).
Proof. apply keeps_atomic, rename_outside. Qed.

Lemma keeps_read p : keeps (read p).
Proof. apply keeps_reading. intros fs. unfold do_read. by repeat case_match. Qed.

Lemma keeps_read_dir p : keeps (read_dir p).
Proof. apply keeps_reading. intros fs. unfold do_read_dir. by repeat case_match. Qed.

Lemma keeps_sync_dir p : keeps (sync_dir p).
Proof. apply keeps_reading. intros fs. by case_match. Qed.

Lemma keeps_remove_if_exists p : indifferent [p] → keeps (remove_if_exists p).
Proof.
  intros Hp. apply keeps_bind; [by apply keeps_remove_file|]. intros [[]|e]; [apply keeps_ret|].
  case_decide; apply keeps_ret.
Qed.
End keeping.

(** What lies below a directory on which [P] does not depend. *)
Lemma indifferent_below P g ps :
  indifferent P [g] → Forall (λ p, g `prefix_of` p) ps → indifferent P ps.
Proof.
  intros Hg Hps fs fs' Hs. apply Hg. intros k Hk. apply Hs. intros p Hp Hpk.
  rewrite Forall_forall in Hps. apply (Hk g); [by left|]. etrans; [by apply Hps|done].
Qed.

Lemma indifferent_join P g ns : indifferent P [g] → indifferent P (join g <$> ns).
Proof.
  intros Hg. eapply indifferent_below; [done|]. apply Forall_forall.
  intros p (n & -> & _)%list_elem_of_fmap. unfold join. by apply prefix_app_r.
Qed.

(** Splits a computation into its calls. *)
Ltac keeps_step :=
  lazymatch goal with
  | |- keeps _ (ret _) => apply keeps_ret
  | |- keeps _ (query _) => apply keeps_query
  | |- keeps _ (read _) => apply keeps_read
  | |- keeps _ (read_dir _) => apply keeps_read_dir
  | |- keeps _ (sync_dir _) => apply keeps_sync_dir
  | |- keeps _ (io_map_err _ _) => apply keeps_map_err
  | |- keeps _ (try_bind _ _) => apply keeps_try; [|intros ?]
  | |- keeps _ (bind _ _) => apply keeps_bind; [|intros ?]
  end.
Ltac keeping := repeat (keeps_step || case_match).

(** ** Recovering the restores of one directory *)

Section recovery_frame.
Context `{!Engine, !Snapshots, !SnapshotLaws, !Json RestoreJournal}.
Context (P : fsys → Prop) (g : path) (Hg : indifferent P [g]).

Lemma keeps_in_directory p n : p = join g n → keeps P (remove_file p).
Proof. intros ->. apply keeps_remove_file, (indifferent_join P g [n] Hg). Qed.

Lemma keeps_rename_in_directory p q n n' : p = join g n → q = join g n' → keeps P (rename p q).
Proof. intros -> ->. apply keeps_rename, (indifferent_join P g [n; n'] Hg). Qed.

Lemma keeps_sidecar n : keeps P (remove_sidecar (join g n)).
Proof. unfold remove_sidecar. rewrite sidecar_join. keeping. by eapply keeps_in_directory. Qed.

Lemma keeps_data_indifferent n fs fs' : keeps_data (join g n) fs fs' → P fs → P fs'.
Proof.
  intros [Hown _] HP. eapply (indifferent_join P g [n; n +:+ ".lock"] Hg); [|exact HP].
  simpl. rewrite <-sidecar_join. by eapply same_except_outside.
Qed.

Lemma keeps_validate n : keeps P (validate_recovered_snapshot (join g n)).
Proof.
  intros m fs HP. unfold validate_recovered_snapshot. apply wp_try, wp_map_err.
  eapply wp_mono; [apply snapshot_open| |by intros fs' Hk; eapply keeps_data_indifferent].
  intros [db|e] fs1 [Hk1 Hdb]; simpl; [|by eapply keeps_data_indifferent].
  assert (P fs1) as HP1 by by eapply keeps_data_indifferent.
  apply wp_bind. eapply wp_mono; [apply snapshot_check| |]; rewrite Hdb;
    [|by intros fs' Hk; eapply keeps_data_indifferent].
  intros res fs2 [Hk2 _]. assert (P fs2) as HP2 by by eapply keeps_data_indifferent.
  apply wp_bind. eapply wp_mono; [apply snapshot_close| |]; rewrite Hdb; intros;
    [apply wp_ret|]; by eapply keeps_data_indifferent.
Qed.

Lemma keeps_remove_with_sidecar n : keeps P (remove_file_and_sidecar (join g n)).
Proof.
  unfold remove_file_and_sidecar. keeps_step; [keeps_step|]. keeps_step.
  - case_match; keeping. by eapply keeps_in_directory.
  - keeps_step; [apply keeps_sidecar|keeps_step].
Qed.

Lemma keeps_sync : keeps P (sync_restore_directory g).
Proof. unfold sync_restore_directory. keeping. Qed.

Lemma keeps_accept : keeps P (recover_or_accept_installed_snapshot (target_file g) (backup_file g)).
Proof.
  unfold recover_or_accept_installed_snapshot. keeps_step; [apply keeps_validate|].
  case_match; [keeps_step|]. keeps_step; [by eapply keeps_in_directory|]. case_match; [|keeps_step].
  keeps_step; [apply keeps_sidecar|]. unfold target_file. rewrite parent_join.
  keeps_step; [apply keeps_sync|]. keeps_step; [apply keeps_map_err; by eapply keeps_rename_in_directory|].
  keeps_step; [apply keeps_sync|]. apply keeps_map_err, keeps_validate.
Qed.

Lemma keeps_settle : keeps P (settle_restore g).
Proof.
  unfold settle_restore. keeps_step; [keeps_step|]. repeat case_match;
    repeat first [ apply keeps_ret | apply keeps_remove_with_sidecar | apply keeps_accept | apply keeps_sync
                 | apply keeps_map_err; by eapply keeps_rename_in_directory
                 | apply keeps_try; [|intros ?] ].
Qed.

(** Whatever it finds there, recovering one directory stays in it. *)
Lemma keeps_recover_restore n : keeps P (recover_restore g n).
Proof.
  unfold recover_restore, cleanup_unjournaled_restore_candidate. keeps_step.
  { keeps_step; [keeps_step|]. case_match; [keeps_step|]. keeps_step; [keeps_step|].
    case_match; [|keeps_step]. keeps_step; [apply keeps_remove_with_sidecar|apply keeps_sync]. }
  keeps_step; [keeps_step|]. case_match; [keeps_step|]. keeps_step; [keeping|].
  repeat case_match; try apply keeps_ret.
  repeat first [ apply keeps_settle | apply keeps_remove_with_sidecar | apply keeps_sync
               | apply keeps_map_err; by eapply keeps_in_directory | apply keeps_try; [|intros ?] ].
Qed.
End recovery_frame.

Section opening_refused.
Context `{!Engine, !Snapshots, !SnapshotLaws, !Uuid, !SocketAddr, !Toml}.
Context `{!Json Catalog, !Json OperationJournal, !Json RestoreJournal}.
Context (cwd : path) (config : DaemonConfig).
Implicit Types (fs : fsys) (c : Catalog).

Local Abbreviation r := (located cwd (data_directory config)).
Local Abbreviation dir_ n := (database_directory r n).

Lemma keeps_lock P owned pid :
  indifferent P [lock_file r] → keeps P (acquire_data_directory_lock owned pid r).
Proof.
  intros Hl. assert (∀ b fs, same_outside [lock_file r] fs (set_content (lock_file r) b fs)) as Hset.
  { intros b fs. unfold set_content. repeat case_match; auto with nostdb.
    by apply (same_except_below (lock_file r) (lock_file r)); auto with nostdb. }
  unfold acquire_data_directory_lock. keeps_step.
  { apply keeps_map_err, keeps_bind; [intros m fs HP; by apply wp_umask|]. intros u.
    apply (keeps_atomic P _ [lock_file r]); [|done]. intros fs.
    eapply same_except_outside; [|apply open_create_except]. done. }
  case_match; [keeps_step|]. keeps_step.
  { apply keeps_map_err, (keeps_atomic P _ [lock_file r]); [|done]. intros fs. apply Hset. }
  apply keeps_map_err. unfold write_all_sync. keeps_step; [|by apply keeps_reading].
  intros m fs HP. apply wp_syscall; intros; eapply Hl; [apply Hset|done|apply Hset|done|apply Hset|done].
Qed.

Lemma keeps_credentials P : keeps P (credentials_load cwd config).
Proof.
  assert (∀ p, keeps P (read_credential cwd p)) as Hread.
  { intros p. unfold read_credential, validate_credential_permissions, metadata_mode, read_to_string.
    keeping; [intros m fs HP; by apply wp_umask|].
    apply keeps_reading. intros fs. by repeat case_match. }
  unfold credentials_load. keeps_step; [apply Hread|]. keeps_step; [apply Hread|].
  case_decide; keeps_step.
Qed.

Lemma keeps_recover_each P names :
  (∀ n, n ∈ names → indifferent P [dir_ n]
        ∨ ∀ fs, P fs → is_dir fs (dir_ n) = false) →
  keeps P (recover_each (join r "databases") names).
Proof.
  induction names as [|n names IH]; intros Hn; simpl; [keeps_step|].
  assert (keeps P (recover_each (join r "databases") names)) as Hrest
    by (apply IH; intros; apply Hn; by right).
  intros m fs HP. apply wp_bind, wp_query. change (join (join r "databases") n) with (dir_ n).
  destruct (is_dir fs (dir_ n)) eqn:Hd; simpl; [|by apply Hrest].
  destruct (Hn n ltac:(by left)) as [Hi|Habs]; [|by rewrite Habs in Hd].
  apply (keeps_try P (recover_restore (dir_ n) n) (λ _, recover_each (join r "databases") names));
    [by apply keeps_recover_restore|done|done].
Qed.

Lemma keeps_recover P :
  (∀ n, indifferent P [dir_ n] ∨ ∀ fs, P fs → is_dir fs (dir_ n) = false) →
  keeps P (recover_snapshot_operations r).
Proof.
  intros Hn. unfold recover_snapshot_operations. keeps_step; [keeps_step|].
  case_match; [keeps_step|]. keeps_step; [keeping|]. apply keeps_recover_each. auto.
Qed.

(** A state that recovery keeps and [load] refuses is refused by every start. *)
Lemma open_refuses P owned pid :
  indifferent P [lock_file r] →
  (∀ n, indifferent P [dir_ n] ∨ ∀ fs, P fs → is_dir fs (dir_ n) = false) →
  refuses P (load r) → refuses P (open_daemon cwd owned pid config).
Proof.
  intros Hl Hn Hload. unfold open_daemon. apply refuses_try; [by apply keeps_lock|intros _].
  apply refuses_try; [by apply keeps_recover|intros _].
  apply refuses_try; [apply keeps_credentials|intros creds]. by apply refuses_first.
Qed.

Lemma refuses_run {A} P (o : io (result A ServerError)) w :
  refuses P o → P (w_fs w) →
  let '(res, w') := o w in (∀ x, res = Some x → is_err x = true) ∧ P (w_fs w').
Proof.
  intros Hr HP. specialize (Hr Hostile (w_fs w) HP w I eq_refl).
  destruct (o w) as [[x|] w']; destruct Hr as [_ Hr]; naive_solver.
Qed.
End opening_refused.

(** ** A torn restore journal *)

Section torn_journal.
Context `{!Engine, !Snapshots, !SnapshotLaws, !Uuid, !SocketAddr, !Toml}.
Context `{!Json Catalog, !Json OperationJournal, !Json RestoreJournal}.
Context (cwd : path) (config : DaemonConfig).
Implicit Types (fs : fsys) (c : Catalog).

Local Abbreviation r := (located cwd (data_directory config)).
Local Abbreviation dir_ n := (database_directory r n).

(** The journal in the directory of Database [t] cannot be read; its live file
    still holds [l]. *)
Definition torn_directory (t : string) (l : logical_state) fs : Prop :=
  fs !! join r "databases" = Some NDir ∧ torn (dir_ t) fs l.

Lemma torn_directory_other t l p :
  ¬ p `prefix_of` join r "databases" → (∀ k, dir_ t `prefix_of` k → ¬ p `prefix_of` k) →
  indifferent (torn_directory t l) [p].
Proof.
  intros Hp Hin fs fs' Hs [Hd [Hg Ht]].
  assert (∀ k, dir_ t `prefix_of` k → fs' !! k = fs !! k) as Hsame.
  { intros k Hk. apply (same_outside_lookup p); [done|by apply Hin]. }
  split; [by rewrite (same_outside_lookup p fs)|]. split; [by rewrite Hsame|].
  by rewrite (view_of_frame (dir_ t) fs fs').
Qed.

Lemma torn_directory_lock t l : indifferent (torn_directory t l) [lock_file r].
Proof.
  apply torn_directory_other; [unfold lock_file; pne|]. intros k [s ->] [s' Heq].
  unfold lock_file, database_directory, join in Heq. rewrite <-!app_assoc in Heq.
  by apply app_inv_head in Heq.
Qed.

Lemma torn_directory_database t l n : n ≠ t → indifferent (torn_directory t l) [dir_ n].
Proof.
  intros Hne. apply torn_directory_other; [pne|]. intros k [s ->] [s' Heq].
  unfold database_directory, join in Heq. rewrite <-!app_assoc in Heq.
  apply app_inv_head in Heq. simpl in Heq. congruence.
Qed.

Lemma torn_restore_refused t l n : refuses (torn_directory t l) (recover_restore (dir_ t) n).
Proof.
  intros m fs HP. pose proof HP as [_ [Hg (Ht & Hb & Hk & mo & b & e & Hj & He)]]. simpl in Hj.
  assert (exists_ fs (journal_file (dir_ t)) = true) as Hex by (unfold exists_; by rewrite Hj).
  unfold recover_restore, cleanup_unjournaled_restore_candidate.
  apply wp_try, wp_bind, wp_query. rewrite Hex. simpl. apply wp_ret.
  apply wp_bind, wp_query. rewrite Hex. simpl. apply wp_try, wp_map_err.
  eapply wp_read_file; [apply content_Some; by eexists| |done|done]. simpl. rewrite He.
  by apply wp_ret.
Qed.

Lemma torn_loop_refused t l names :
  t ∈ names → refuses (torn_directory t l) (recover_each (join r "databases") names).
Proof.
  induction names as [|n names IH]; intros Ht; [by apply elem_of_nil in Ht|]. simpl.
  intros m fs HP. apply wp_bind, wp_query. change (join (join r "databases") n) with (dir_ n).
  destruct (decide (n = t)) as [->|Hne].
  - assert (is_dir fs (dir_ t) = true) as -> by (apply is_dir_true, HP). simpl.
    by apply (refuses_first _ _ (λ _, recover_each (join r "databases") names)), HP; apply torn_restore_refused.
  - assert (refuses (torn_directory t l) (recover_each (join r "databases") names)) as Hrest
      by (apply IH; set_solver).
    destruct (is_dir fs (dir_ n)); simpl; [|by apply Hrest].
    apply (refuses_try _ _ (λ _, recover_each (join r "databases") names)); [|done|done].
    by apply keeps_recover_restore, torn_directory_database.
Qed.

(** C36: A torn restore journal stops every start.  As long as the restore
    journal in one Database's directory cannot be read, opening the data
    directory never succeeds, whatever the other directories hold and whatever
    faults strike; it leaves that directory torn with its live file intact, so
    every later start fails as well. *)
Theorem torn_restore_journal_blocks_start t l owned pid w :
  torn_directory t l (w_fs w) →
  let '(res, w') := open_daemon cwd owned pid config w in
  (∀ x, res = Some x → is_err x = true) ∧ torn_directory t l (w_fs w').
Proof.
  intros HP. apply (refuses_run (torn_directory t l)); [|done]. unfold open_daemon.
  apply refuses_try; [apply keeps_lock, torn_directory_lock|intros _]. apply refuses_first.
  intros m fs Hfs. pose proof Hfs as [Hd [Hg _]]. unfold recover_snapshot_operations.
  apply wp_bind, wp_query. rewrite (proj2 (is_dir_true _ _) Hd). simpl.
  apply wp_try, wp_map_err, wp_syscall; [|done..]. unfold do_read_dir. rewrite Hd. simpl.
  apply torn_loop_refused; [|done]. apply elem_of_children. by eexists.
Qed.
End torn_journal.

(** ** Catalogs without their storage, and no catalog *)

Section catalogs.
Context `{!Engine, !Snapshots, !SnapshotLaws, !Uuid, !SocketAddr, !Toml}.
Context `{!Json Catalog, !Json OperationJournal, !Json RestoreJournal}.
Context `{!JsonLaws Catalog, !JsonLaws OperationJournal}.
Context (cwd : path) (config : DaemonConfig).
Implicit Types (fs : fsys) (c : Catalog).

Local Abbreviation r := (located cwd (data_directory config)).
Local Abbreviation dir_ n := (database_directory r n).
Local Abbreviation S_ := (join r STATE_FILE).
Local Abbreviation V_ := (join r PREVIOUS_FILE).
Local Abbreviation N_ := (join r PENDING_FILE).
Local Abbreviation J_ := (join r OPERATION_FILE).

(** The installed catalog lists Database [i], which has no directory. *)
Definition stranded c (i : string) fs : Prop :=
  stores fs S_ c ∧ i ∈ ids c ∧ fs !! dir_ i = None.

(** Neither the catalog nor its predecessor is there. *)
Definition no_catalog fs : Prop := fs !! S_ = None ∧ fs !! V_ = None.

Lemma stranded_other c i ps :
  (∀ p, p ∈ ps → ¬ p `prefix_of` S_ ∧ ¬ p `prefix_of` dir_ i) → indifferent (stranded c i) ps.
Proof.
  intros Hps fs fs' Hs (Hc & Hi & Hd). unfold stranded, stores, content.
  rewrite !Hs; [done|by intros p [_ ?]%Hps|by intros p [? _]%Hps].
Qed.

Lemma no_catalog_other ps :
  (∀ p, p ∈ ps → ¬ p `prefix_of` S_ ∧ ¬ p `prefix_of` V_) → indifferent no_catalog ps.
Proof.
  intros Hps fs fs' Hs [HS HV]. unfold no_catalog.
  rewrite !Hs; [done|by intros p [_ ?]%Hps|by intros p [? _]%Hps].
Qed.

(** The paths in a list are told apart one by one. *)
Ltac apart :=
  let p := fresh in let Hp := fresh in
  intros p Hp; rewrite ?elem_of_cons in Hp; unfold lock_file in Hp;
  destruct_or? Hp; try (by apply elem_of_nil in Hp); subst p; split; pne.

Lemma other_database i n : n ≠ i → ¬ dir_ n `prefix_of` dir_ i.
Proof.
  intros Hne [s Hs]. unfold database_directory, join in Hs. rewrite <-!app_assoc in Hs.
  apply app_inv_head in Hs. simpl in Hs. congruence.
Qed.

Lemma keeps_read_catalog P p : keeps P (read_catalog p).
Proof. unfold read_catalog. keeping. Qed.

Lemma stranded_atomic c i : keeps (stranded c i) (recover_atomic_state r).
Proof.
  unfold recover_atomic_state. keeps_step.
  { intros m fs HP. apply wp_bind, wp_query. destruct HP as [(b & [mo Hb]%content_Some & Hc) HP].
    unfold exists_ at 1. rewrite Hb. simpl. apply wp_ret. split; [|done]. exists b. split; [|done].
    apply content_Some. by eexists. }
  keeps_step.
  { keeping. apply keeps_rename, stranded_other. apart. }
  keeps_step.
  { keeps_step; [keeps_step|]. case_match; [|keeps_step]. keeps_step; [apply keeps_read_catalog|].
    apply keeps_remove_if_exists, stranded_other. apart. }
  keeping.
Qed.

Lemma stranded_complete c i j : keeps (stranded c i) (complete_operation r j).
Proof.
  unfold complete_operation. destruct (journal_kind j); [keeping..|].
  intros m fs HP. apply wp_bind, wp_query.
  destruct (decide (database_id j = i)) as [->|Hne].
  { assert (exists_ fs (dir_ i) = false) as -> by (apply exists_false, HP). by apply wp_ret. }
  assert (indifferent (stranded c i) [dir_ (database_id j); trash_directory r (database_id j)]) as Hi.
  { apply stranded_other. intros p [->| ->%list_elem_of_singleton]%elem_of_cons; (split; [pne|]);
      [by apply other_database|pne]. }
  destruct (exists_ fs (dir_ (database_id j))); [|by apply wp_ret]. revert m fs HP.
  change (keeps (stranded c i) (let* kept := query (λ fs, exists_ fs (trash_directory r (database_id j))) in
    if (kept : bool) then ret (Err "drop recovery found both active and trash storage")
    else io_map_err (λ e, "cannot finish interrupted Database drop: " +:+ io_text e)
           (rename (dir_ (database_id j)) (trash_directory r (database_id j))))).
  keeping. by apply keeps_rename.
Qed.

Lemma stranded_operation c i : keeps (stranded c i) (recover_operation r c).
Proof.
  assert (keeps (stranded c i) (remove_if_exists J_)) as Hj.
  { apply keeps_remove_if_exists, stranded_other. apart. }
  unfold recover_operation. keeps_step; [keeps_step|]. case_match; [keeps_step|].
  keeps_step; [keeping|]. case_match; [|keeps_step]. case_match; [keeps_step|].
  case_decide; [keeps_step; [done|keeps_step]|]. case_decide; [keeps_step|].
  keeps_step; [apply stranded_complete|done].
Qed.

Lemma stranded_storage fs l i :
  i ∈ id <$> l → fs !! dir_ i = None → is_err (validate_storage_entries fs r l) = true.
Proof.
  intros Hi Hd. induction l as [|e l IH]; [by apply elem_of_nil in Hi|]. simpl.
  apply elem_of_cons in Hi as [->|Hi].
  - unfold is_dir. by rewrite Hd.
  - destruct (_ || _); [done|by apply IH].
Qed.

Lemma stranded_load c i : refuses (stranded c i) (load r).
Proof.
  intros m fs HP. unfold load. apply wp_bind, wp_query. destruct (is_dir fs r); simpl; [|by apply wp_ret].
  revert m fs HP. apply (refuses_try _ (recover_atomic_state r)); [apply stranded_atomic|intros _].
  intros m fs HP. apply wp_try. eapply (wp_read_catalog m S_ c); [apply HP| |done|done].
  destruct (validate_catalog c); [|by apply wp_ret]. revert m fs HP.
  apply (refuses_try _ (recover_operation r c)); [apply stranded_operation|intros _].
  intros m fs HP. apply wp_try, wp_query. pose proof HP as (_ & Hi & Hd).
  pose proof (stranded_storage fs (databases c) i Hi Hd) as He.
  destruct (validate_storage_entries fs r (databases c)); done.
Qed.

(** Every start refuses a catalog whose storage is gone. *)
Lemma stranded_open c i owned pid : refuses (stranded c i) (open_daemon cwd owned pid config).
Proof.
  apply open_refuses; [apply stranded_other; apart| |apply stranded_load]. intros n.
  destruct (decide (n = i)) as [->|Hne].
  - right. intros fs (_ & _ & Hd). unfold is_dir. by rewrite Hd.
  - left. apply stranded_other. intros p ->%list_elem_of_singleton. split; [pne|by apply other_database].
Qed.

Lemma no_catalog_load : refuses no_catalog (load r).
Proof.
  intros m fs HP. unfold load. apply wp_bind, wp_query. destruct (is_dir fs r); simpl; [|by apply wp_ret].
  revert m fs HP. apply (refuses_first _ (recover_atomic_state r)).
  intros m fs [HS HV]. unfold recover_atomic_state. apply wp_try, wp_bind, wp_query. unfold exists_.
  rewrite HS, HV. simpl. apply wp_ret.
  apply (refuses_try no_catalog); [|intros _|by split].
  { keeping. apply keeps_rename, no_catalog_other. apart. }
  clear m fs HS HV. intros m fs [HS HV]. apply wp_try, wp_bind, wp_query. unfold exists_.
  rewrite HS. simpl. apply wp_ret. apply wp_bind, wp_query. rewrite HS. by apply wp_ret.
Qed.

Lemma no_catalog_open owned pid : refuses no_catalog (open_daemon cwd owned pid config).
Proof.
  apply open_refuses; [apply no_catalog_other; apart| |apply no_catalog_load]. intros n. left.
  apply no_catalog_other. intros p ->%list_elem_of_singleton. split; pne.
Qed.

(** C39: A transition started while only [server-state.previous] holds the
    catalog loses it.  A failed install whose rollback failed too leaves that
    state; from it the next transition, although no call fails for another
    reason, deletes the previous file, finds nothing to preserve, and returns an
    error with neither file left; from then on no start succeeds, whatever faults
    strike, and none brings a catalog back. *)
Theorem transition_loses_previous_catalog store next k i fs u :
  root store = r → validate_catalog next = Ok tt → fs !! r = Some NDir →
  fs !! S_ = None → stores fs V_ (catalog store) → fs !! N_ = None → fs !! J_ = None →
  (∃ w', transition store next k i (fresh fs u)
         = (Some (Err ("cannot preserve previous catalog: " +:+ io_text Fs.not_found), store), w')
         ∧ no_catalog (w_fs w'))
  ∧ ∀ owned pid w, no_catalog (w_fs w) →
      let '(res, w') := open_daemon cwd owned pid config w in
      (∀ x, res = Some x → is_err x = true) ∧ no_catalog (w_fs w').
Proof.
  intros Hroot Hnext Hr HS (b & [mo HV]%content_Some & _) HN HJ. split;
    [|intros; by apply (refuses_run no_catalog); [apply no_catalog_open|]].
  destruct (json_encodes (mkOperationJournal OPERATION_VERSION k i (catalog store) next)) as [jb Hjb].
  destruct (json_encodes next) as [nb Hnb].
  assert (wp Calm (transition store next k i) fs
    (λ '(res, store') fs', res = Err ("cannot preserve previous catalog: " +:+ io_text Fs.not_found)
       ∧ store' = store ∧ no_catalog fs') (λ _, False)) as Hwp.
  { unfold transition. rewrite Hnext, Hroot. apply wp_bind.
    eapply wp_write_json_new; [exact Hjb|done|by rewrite parent_join| |done..]. intros m1.
    apply wp_bind. unfold write_atomic. apply wp_try.
    eapply wp_write_json_new; [exact Hnb|by fs_simpl|by rewrite parent_join; fs_simpl| |done..]. intros m2.
    apply wp_try, wp_remove_if_exists; [unfold is_dir; fs_simpl; by rewrite HV| |done..].
    apply wp_try, wp_map_err, wp_rename_absent; [by fs_simpl| |done..]. simpl.
    apply wp_bind. eapply wp_remove_file; [by fs_simpl| |done..]. apply wp_ret.
    split_and!; [done..|]. split; by fs_simpl. }
  destruct (wp_returns _ _ _ _ u Hwp) as ([res store'] & w' & Hrun & -> & -> & Hno). by exists w'.
Qed.

Lemma created_listed i n c : i ∈ ids (created i n c).
Proof. unfold ids. rewrite created_perm. by left. Qed.

(** What follows a failed commit: the directory goes to [recovery]. *)
Lemma failed_create_moves new_id n (db : edb) (d : DatabaseDaemon) text store fs :
  directory_root d = r → edb_path db = database_path r new_id →
  stores fs S_ (created new_id n (entries d)) → fs !! dir_ new_id = Some NDir →
  fs !! join r "recovery" = Some NDir →
  vacant fs (join (join r "recovery") ("failed-create-" +:+ new_id)) →
  wp Calm
    (let* _ := engine_close db in
     let* _ := rename (dir_ new_id) (join (join r "recovery") ("failed-create-" +:+ new_id)) in
     ret (Err (internal text) : result DatabaseSummary ProtocolFailure, set_catalog store d)) fs
    (λ '(res, d') fs', res = Err (internal text) ∧ d' = set_catalog store d
       ∧ stranded (created new_id n (entries d)) new_id fs') (λ _, True).
Proof.
  intros Hroot Hdb (b & Hb & Hc) Hdir Hrec Hvac. apply wp_bind.
  eapply wp_mono; [apply snapshot_close| |done]; rewrite Hdb. intros _ fs1 [Hown _].
  assert (∀ k, ¬ dir_ new_id `prefix_of` k → fs1 !! k = fs !! k) as Hout.
  { intros k Hk. apply (same_outside_lookup (dir_ new_id)); [by apply own_files_inside|done]. }
  assert (fs1 !! dir_ new_id = Some NDir) as Hdir1.
  { rewrite Hown; [done|]. unfold database_path. rewrite sidecar_join. not_in. }
  apply wp_bind. eapply wp_rename_dir; [done|pne| |by rewrite parent_join, Hout by pne| |done|done].
  { intros s. rewrite Hout; [apply Hvac|pne]. }
  apply wp_ret. split_and!; [done..|]. split_and!; [|apply created_listed|].
  - exists b. split; [|done]. unfold content. rewrite move_tree_other; [by rewrite Hout by pne| |pne..].
    intros s. rewrite Hout; [apply Hvac|pne].
  - assert (move_tree (dir_ new_id) (join (join r "recovery") ("failed-create-" +:+ new_id)) fs1
      !! (dir_ new_id ++ []) = None) as Hgone; [|by rewrite app_nil_r in Hgone].
    apply move_tree_old; [|rewrite app_nil_r; pne]. intros s. rewrite Hout; [apply Hvac|pne].
Qed.

(** C40: A create that fails after its catalog was installed strands the data
    directory.  When [transition] reports an error although the new catalog is
    installed (its rollback failed) and no further call fails,
    [create_database] reports the error and moves the new storage away; the
    catalog still lists it, so from then on no start succeeds, whatever faults
    strike, and none repairs it. *)
Theorem failed_create_strands_catalog new_id n (db : edb) d text store wa wb wc w :
  directory_root d = r → valid_database_name n = true → has_name n (entries d) = false →
  create_dir (dir_ new_id) w = (Some (Ok tt), wa) →
  engine_create (database_path r new_id) wa = (Some (Ok db), wb) →
  edb_path db = database_path r new_id →
  transition (daemon_catalog d) (created new_id n (entries d)) Create new_id wb
    = (Some (Err text, store), wc) →
  w_faults wc = [] → stores (w_fs wc) S_ (created new_id n (entries d)) →
  w_fs wc !! dir_ new_id = Some NDir → w_fs wc !! join r "recovery" = Some NDir →
  vacant (w_fs wc) (join (join r "recovery") ("failed-create-" +:+ new_id)) →
  (∃ w', create_database new_id n d w = (Some (Err (internal text), set_catalog store d), w')
         ∧ stranded (created new_id n (entries d)) new_id (w_fs w'))
  ∧ ∀ owned pid w1, stranded (created new_id n (entries d)) new_id (w_fs w1) →
      let '(res, w2) := open_daemon cwd owned pid config w1 in
      (∀ x, res = Some x → is_err x = true)
      ∧ stranded (created new_id n (entries d)) new_id (w_fs w2).
Proof.
  intros Hroot Hn Hnew Hdir Hcreate Hdb Htr Hf Hst Hd Hrec Hvac. split;
    [|intros; by apply (refuses_run (stranded _ _)); [apply stranded_open|]].
  pose proof (failed_create_moves new_id n db d text store (w_fs wc) Hroot Hdb Hst Hd Hrec Hvac
    wc Hf eq_refl) as Hwp.
  unfold create_database. rewrite Hn, Hnew, Hroot. simpl. unfold bind at 1. rewrite Hdir.
  unfold bind at 1. rewrite Hcreate. unfold commit_create. rewrite Hroot.
  change (mkCatalog _ _) with (created new_id n (entries d)). unfold bind at 1. rewrite Htr.
  destruct (bind (engine_close db) _ wc) as [[[res d']|] w']; [|by destruct Hwp].
  destruct Hwp as [_ (-> & -> & Hs)]. by exists w'.
Qed.
End catalogs.

(** ** How the three states are reached *)

Module Concrete.
Import CatalogTheorems.Concrete Toy RestoreProofs.Concrete StartupProofs.Concrete.

Abbreviation data_root := CatalogTheorems.Concrete.root.
Abbreviation start := (open_daemon [] false [x37] config).

(** A restore dies after two bytes of its journal. *)
Definition cut : fsys :=
  w_fs (restore_snapshot handle1 [x01; x20] (World stopped (replicate 6 NoFault ++ [CrashAt 2]) 18)).2.

Lemma cut_directory : torn_directory [] config id1 [x01] cut.
Proof.
  split; [vm_compute; reflexivity|]. split; [vm_compute; reflexivity|].
  split_and!; [vm_compute; reflexivity..|by vm_compute|].
  eexists _, _, _. split; vm_compute; reflexivity.
Qed.

Lemma cut_start :
  (start (fresh cut 18)).1 = Some (Err ("invalid restore journal: " +:+ "invalid document")).
Proof. vm_cast_no_check (eq_refl (start (fresh cut 18)).1). Qed.

Lemma torn_restore_journal_blocks_start_witness :
  ∃ e w', start (fresh cut 18) = (Some (Err ("invalid restore journal: " +:+ e)), w')
          ∧ torn_directory [] config id1 [x01] (w_fs w').
Proof.
  pose proof (torn_restore_journal_blocks_start [] config id1 [x01] false [x37] (fresh cut 18)
    cut_directory) as Hs. pose proof cut_start as Hres.
  destruct (start (fresh cut 18)) as [res w']. destruct Hs as [_ Ht].
  exists "invalid document", w'. split; [|exact Ht]. apply (f_equal (λ x, (x, w')) Hres).
Defined.

(** The install rename fails and so does its rollback. *)
Definition preserved : fsys := (outcome fails_at_9_and_11 CatalogTheorems.Concrete.fs).2.

Lemma transition_loses_previous_catalog_witness :
  ∃ w', transition store new Rename id1 (fresh preserved 18)
        = (Some (Err ("cannot preserve previous catalog: " +:+ io_text Fs.not_found), store), w')
        ∧ no_catalog [] config (w_fs w')
        ∧ no_catalog [] config (w_fs (start (fresh (w_fs w') 18)).2).
Proof.
  destruct (transition_loses_previous_catalog [] config store new Rename id1 preserved 18)
    as [(w' & Hrun & Hno) Hstart]; [try (vm_compute; reflexivity)..|].
  - exists (document old). split; [vm_compute; reflexivity|]. by apply json_newline.
  - exists w'. split; [exact Hrun|]. split; [exact Hno|].
    specialize (Hstart false [x37] (fresh (w_fs w') 18) Hno).
    destruct (start (fresh (w_fs w') 18)) as [res w2]. apply Hstart.
Defined.

(** A create whose directory sync fails, and whose rollback fails. *)
Definition creating : world :=
  World CatalogTheorems.Concrete.fs DaemonProofs.Concrete.sync_and_rollback_fail 18.
Abbreviation second := DaemonProofs.Concrete.id2.
Abbreviation daemon := DaemonProofs.Concrete.running.

Definition second_db : @edb engine := database_path data_root second.

Definition made : world := (create_dir (database_directory data_root second) creating).2.
Definition filled : world := (engine_create (database_path data_root second) made).2.
Definition after_commit : world :=
  (transition store (created second "notes" old) Create second filled).2.

(** Nothing lies below a path that is no prefix of an existing entry. *)
Lemma vacant_entries fs p :
  forallb (λ k, negb (bool_decide (p `prefix_of` k))) (map_to_list fs).*1 = true → vacant fs p.
Proof.
  intros Hall s. apply eq_None_not_Some. intros [x Hx%elem_of_map_to_list].
  rewrite forallb_forall in Hall. specialize (Hall (p ++ s)).
  rewrite bool_decide_eq_true_2 in Hall by (by apply prefix_app_r).
  discriminate Hall. apply list_elem_of_In. by apply (list_elem_of_fmap_2 fst) in Hx.
Qed.

Lemma made_run : create_dir (database_directory data_root second) creating = (Some (Ok tt), made).
Proof. vm_cast_no_check (eq_refl (create_dir (database_directory data_root second) creating)). Qed.

Lemma filled_run : engine_create (database_path data_root second) made = (Some (Ok second_db), filled).
Proof. vm_cast_no_check (eq_refl (engine_create (database_path data_root second) made)). Qed.

Lemma committed_run :
  transition store (created second "notes" old) Create second filled
  = (Some (Err "cannot sync data directory: disk error", store), after_commit).
Proof.
  vm_cast_no_check (eq_refl (transition store (created second "notes" old) Create second filled)).
Qed.

Lemma installed_anyway : stores (w_fs after_commit) (join data_root STATE_FILE) (created second "notes" old).
Proof.
  exists (document (created second "notes" old)). split; [vm_compute; reflexivity|].
  by apply json_newline.
Qed.

Lemma directories_after :
  w_faults after_commit = []
  ∧ w_fs after_commit !! database_directory data_root second = Some NDir
  ∧ w_fs after_commit !! join data_root "recovery" = Some NDir.
Proof. vm_compute. repeat split. Qed.

Lemma recovery_free :
  vacant (w_fs after_commit) (join (join data_root "recovery") ("failed-create-" +:+ second)).
Proof. apply vacant_entries. vm_compute. reflexivity. Qed.

Lemma failed_create_strands_catalog_witness :
  ∃ w', create_database second "notes" daemon creating
        = (Some (Err (internal "cannot sync data directory: disk error"), set_catalog store daemon), w')
        ∧ stranded [] config (created second "notes" old) second (w_fs w')
        ∧ (∀ x, (start (fresh (w_fs w') 18)).1 = Some x → is_err x = true).
Proof.
  destruct directories_after as (Hf & Hd & Hr).
  destruct (failed_create_strands_catalog [] config second "notes" second_db daemon
    "cannot sync data directory: disk error" store made filled after_commit creating
    eq_refl eq_refl eq_refl made_run filled_run eq_refl committed_run Hf installed_anyway Hd Hr
    recovery_free) as [(w' & Hrun & Hs) Hstart].
  exists w'. split; [exact Hrun|]. split; [exact Hs|].
  specialize (Hstart false [x37] (fresh (w_fs w') 18) Hs).
  destruct (start (fresh (w_fs w') 18)) as [res w2]. apply Hstart.
Defined.
End Concrete.
