(* ===== verification/Setup.v ===== *)
(** * A new installation opens

    What [initialize_daemon] creates in a free place is a data directory that
    [open_daemon] starts on: the configuration loads back, the catalog is empty
    and the two generated credentials authenticate. *)

From Stdlib Require Import ZArith Lia Ascii.
From stdpp Require Import base list strings gmap.
From S2P Require Import Prelude Fs Codec Catalog CatalogProofs CatalogAtomic CatalogRecovery.
From S2P Require Import CatalogTheorems Wire Messages Config ConfigProofs Protocol Engine.
From S2P Require Import Daemon DaemonProofs Restore Slots RestoreProofs Startup StartupProofs.

Open Scope string_scope.
Open Scope list_scope.

Section layout.
Context `{!Uuid, !Json Catalog, !JsonLaws Catalog}.
Context (D : path).
Implicit Types (fs : fsys).

(** Only the tree below [D] and missing directories above it have changed. *)
Definition changes fs fs' : Prop :=
  ∀ k, fs' !! k = fs !! k ∨ D `prefix_of` k ∨ (k `prefix_of` D ∧ fs !! k = None ∧ fs' !! k = Some NDir).

Lemma changes_refl fs : changes fs fs.
Proof. by left. Qed.

Lemma changes_trans fs1 fs2 fs3 : changes fs1 fs2 → changes fs2 fs3 → changes fs1 fs3.
Proof.
  intros Hc1 Hc2 k. destruct (Hc2 k) as [->|[?|(? & Hn & ?)]]; [apply Hc1|by right; left|].
  destruct (Hc1 k) as [Heq|[?|(_ & _ & ?)]]; [|by right; left|congruence].
  right; right. rewrite <-Heq. done.
Qed.

Lemma changes_put fs fs' k n : D `prefix_of` k → changes fs fs' → changes fs (<[k := n]> fs').
Proof.
  intros Hk Hc k'. destruct (decide (k' = k)) as [->|]; [by right; left|].
  rewrite lookup_insert_ne by done. apply Hc.
Qed.

Lemma changes_drop fs fs' k : D `prefix_of` k → changes fs fs' → changes fs (delete k fs').
Proof.
  intros Hk Hc k'. destruct (decide (k' = k)) as [->|]; [by right; left|].
  rewrite lookup_delete_ne by done. apply Hc.
Qed.

(** A freshly laid out data directory: the five directories, empty, and the
    empty catalog. *)
Record laid_out fs : Prop := {
  lo_root : fs !! D = Some NDir;
  lo_layout n : n ∈ LAYOUT → fs !! join D n = Some NDir;
  lo_empty n s : n ∈ LAYOUT → s ≠ [] → fs !! (join D n ++ s) = None;
  lo_state : stores fs (join D STATE_FILE) empty_catalog;
  lo_pending : fs !! join D PENDING_FILE = None;
  lo_previous : fs !! join D PREVIOUS_FILE = None;
  lo_journal : fs !! join D OPERATION_FILE = None
}.

(** No credentials yet. *)
Definition no_credentials fs : Prop := ∀ s, fs !! (join D "credentials" ++ s) = None.

(** The place is free: nothing there, or an empty directory. *)
Record free fs : Prop := {
  fr_directories : directories_possible fs D;
  fr_empty s : s ≠ [] → fs !! (D ++ s) = None
}.

Lemma children_empty fs : (∀ s, s ≠ [] → fs !! (D ++ s) = None) → children fs D = [].
Proof.
  intros He. destruct (children fs D) as [|n ns] eqn:Hc; [done|].
  assert (n ∈ children fs D) as [x Hx]%elem_of_children by (rewrite Hc; left).
  unfold join in Hx. by rewrite He in Hx.
Qed.

Lemma joined n : D `prefix_of` join D n.
Proof. unfold join. by apply prefix_app_r. Qed.

(** The five directories are created, and the empty catalog installed. *)
Lemma write_empty_spec fs0 fs C :
  changes fs0 fs → fs !! D = Some NDir →
  (∀ s, s ≠ [] → fs !! (D ++ s) = None) →
  wp Calm (let* (made, created) := create_layout D LAYOUT [] in
           let* res := (match made with
                        | Err e => ret (Err e)
                        | Ok _ => write_atomic D empty_catalog true
                        end) in
           ret (res, created)) fs
    (λ '(res, _) fs', res = Ok tt ∧ laid_out fs' ∧ no_credentials fs' ∧ changes fs0 fs') C.
Proof.
  intros Hc HD He. destruct (json_encodes empty_catalog) as [enc Henc].
  assert (∀ n, fs !! join D n = None) as Hn by (intros n; by apply He).
  assert (∀ n s, fs !! (join D n ++ s) = None) as Hns.
  { intros n s. unfold join. rewrite <-app_assoc. by apply He. }
  apply wp_bind. unfold LAYOUT. cbn [create_layout].
  do 5 (apply wp_bind; eapply wp_atomic; [unfold do_create_dir, exists_, is_dir; rewrite parent_join;
      fs_simpl; rewrite Hn, HD; reflexivity| |done|done]; cbn [app create_layout]).
  apply wp_ret. apply wp_bind. unfold write_atomic. apply wp_try.
  eapply wp_write_json_new; [done|by fs_simpl|rewrite parent_join; by fs_simpl| |done..].
  intros mo. apply wp_bind, wp_query. unfold exists_. fs_simpl. rewrite Hn.
  apply wp_bind. eapply wp_rename_file;
    [by fs_simpl|unfold is_dir; fs_simpl; by rewrite Hn|rewrite parent_join; by fs_simpl| |done..].
  apply wp_bind, wp_map_err, wp_sync_dir; [by fs_simpl| |done..].
  apply wp_bind, wp_remove_if_exists; [unfold is_dir; fs_simpl; by rewrite Hn| |done..].
  apply wp_ret, wp_ret. split_and!; [done| |intros s; fs_simpl; apply Hns|repeat first [apply changes_drop; [apply joined|]
    |apply changes_put; [apply joined|]]; done].
  split.
  - by fs_simpl.
  - intros n Hin. unfold LAYOUT in Hin. set_unfold. destruct_or!; subst; by fs_simpl.
  - intros n s _ Hs. destruct s as [|x s]; [done|]. fs_simpl. apply Hns.
  - eexists. split; [eapply content_lookup; by fs_simpl|by apply json_newline].
  - by fs_simpl.
  - by fs_simpl.
  - fs_simpl. apply Hn.
Qed.

(** [CatalogStore::initialize] in a free place. *)
Lemma initialize_spec fs C :
  free fs →
  wp Calm (initialize D) fs
    (λ res fs', res = Ok (mkCatalogStore D empty_catalog) ∧ laid_out fs' ∧ no_credentials fs' ∧ changes fs fs') C.
Proof.
  intros [Hdirs He]. unfold initialize. apply wp_bind, wp_query. apply wp_try.
  assert (∀ fs', changes fs fs' → fs' !! D = Some NDir → (∀ s, s ≠ [] → fs' !! (D ++ s) = None) →
    wp Calm (let* (made, created) := create_layout D LAYOUT [] in
             let* res := (match made with
                          | Err e => ret (Err e)
                          | Ok _ => write_atomic D empty_catalog true
                          end) in
             match res with
             | Ok _ => ret (Ok (mkCatalogStore D empty_catalog))
             | Err e =>
                 let* rollback := rollback_created_directories D (exists_ fs D) created in
                 ret (with_rollback e rollback)
             end) fs'
      (λ res fs', res = Ok (mkCatalogStore D empty_catalog) ∧ laid_out fs' ∧ no_credentials fs' ∧ changes fs fs') C) as Hrest.
  { intros fs' Hc HD He'. intros w Hs Hfs. pose proof (write_empty_spec fs fs' C Hc HD He' w Hs Hfs) as Hw.
    revert Hw. unfold bind. destruct (create_layout D LAYOUT [] w) as [[[made created]|] w1]; [|done].
    destruct made as [[]|e]; simpl; [|naive_solver].
    destruct (write_atomic D empty_catalog true w1) as [[res|] w2]; [|done].
    simpl. intros (Hs2 & -> & Hl & Hnc & Hch). done. }
  destruct (exists_ fs D) eqn:Hex.
  - assert (fs !! D = Some NDir) as HD.
    { apply exists_true in Hex as [x Hx]. destruct Hdirs as [_ Hd].
      destruct (Hd D) as [Hn|?]; [done|congruence|done]. }
    apply wp_try, wp_map_err. eapply wp_atomic; [unfold do_read_dir; by rewrite HD| |done|done].
    rewrite children_empty by done. simpl. apply wp_ret. apply Hrest; [apply changes_refl|done|done].
  - apply wp_bind. eapply wp_mono; [by apply wp_create_dir_all| |done].
    intros res fs' (-> & HD & Hsame). apply wp_ret. apply Hrest; [|done|].
    + intros k. destruct (Hsame k) as [?|?]; [by left|by right; right].
    + intros s Hs. destruct (Hsame (D ++ s)) as [->|(Hpre & _)]; [by apply He|].
      apply prefix_length in Hpre. rewrite length_app in Hpre. destruct s; [done|]. simpl in Hpre. lia.
Qed.

(** ** Files written afterwards *)

(** What [write_new_file] leaves at [q]. *)
Definition wrote fs fs' (q : path) : Prop :=
  ∀ k, k ≠ q → fs' !! k = fs !! k ∨ (k `prefix_of` parent q ∧ fs !! k = None ∧ fs' !! k = Some NDir).

Lemma parent_prefix (q : path) : parent q `prefix_of` q.
Proof.
  destruct q as [|x q _] using rev_ind; [done|]. change (q ++ [x]) with (join q x).
  rewrite parent_join. unfold join. by apply prefix_app_r.
Qed.

Lemma wrote_changes fs fs' q : D `prefix_of` q → wrote fs fs' q → changes fs fs'.
Proof.
  intros Hq Hw k. destruct (decide (k = q)) as [->|Hne]; [by right; left|].
  destruct (Hw k Hne) as [?|(Hp & ? & ?)]; [by left|right].
  destruct (prefix_weak_total k D q) as [?|?]; [|done|right; done|by left].
  etrans; [exact Hp|apply parent_prefix].
Qed.

(** A file elsewhere leaves the tree as it is. *)
Lemma wrote_elsewhere fs fs' q k :
  ¬ D `prefix_of` q → wrote fs fs' q → D `prefix_of` k → fs' !! k = fs !! k.
Proof.
  intros Hq Hw Hk. destruct (Hw k) as [?|(Hp & _)]; [by intros ->|done|].
  destruct Hq. etrans; [exact Hk|]. etrans; [exact Hp|apply parent_prefix].
Qed.

(** Another free place stays free. *)
Lemma creatable_changes fs fs' (q : PathBuf) :
  creatable fs q → changes fs fs' → ¬ D `prefix_of` components q → ¬ components q `prefix_of` D →
  creatable fs' q.
Proof.
  intros (Ha & Hn & Hnone & Hroot & Hk) Hc HD Hq.
  assert (∀ k, k `prefix_of` parent (components q) →
    fs' !! k = fs !! k ∨ (fs !! k = None ∧ fs' !! k = Some NDir)) as Habove.
  { intros k Hp. destruct (Hc k) as [?|[HDk|(_ & ? & ?)]]; [by left| |by right].
    destruct HD. etrans; [exact HDk|]. etrans; [exact Hp|apply parent_prefix]. }
  split_and!; [done|done| |split].
  - destruct (Hc (components q)) as [->|[?|(? & _)]]; done.
  - destruct (Habove [] (prefix_nil _)) as [->|[? ?]]; [done|congruence].
  - intros k Hp. destruct (Habove k Hp) as [->|[_ ->]]; [by apply Hk|by right].
Qed.

(** The credential files of an installation. *)
Abbreviation token_ n := (join (join D "credentials") n).

Lemma directories_changes fs fs' :
  directories_possible fs D → changes fs fs' → fs' !! D = Some NDir → directories_possible fs' D.
Proof.
  intros [Hroot Hk] Hc HD. assert (∀ k, k `prefix_of` D → fs' !! k = None ∨ fs' !! k = Some NDir) as Hk'.
  { intros k Hp. destruct (Hc k) as [->|[Hp'|(_ & _ & ?)]]; [by apply Hk| |by right].
    assert (k = D) as -> by (by apply (anti_symm prefix)). by right. }
  split; [|done]. destruct (Hk' [] (prefix_nil _)) as [Hn|?]; [|done].
  destruct (Hc []) as [?|[HD'|(_ & ? & _)]]; [congruence| |congruence].
  by rewrite (prefix_nil_inv D HD') in HD.
Qed.

Lemma credential_creatable fs (q : PathBuf) n :
  is_absolute q = true → components q = token_ n → directories_possible fs D →
  fs !! token_ n = None → (fs !! join D "credentials" = None ∨ fs !! join D "credentials" = Some NDir) →
  creatable fs q.
Proof.
  intros Ha Hq [Hroot Hk] Hn Hc. split_and!; [done|rewrite Hq; by destruct D|by rewrite Hq|].
  rewrite Hq, parent_join. split; [done|]. intros k [s Hs].
  destruct s as [|x s _] using rev_ind; [rewrite app_nil_r in Hs; by subst|].
  unfold join in Hs. rewrite app_assoc in Hs. apply app_inj_tail in Hs as [-> _].
  apply Hk. by apply prefix_app_r.
Qed.

(** The layout does not depend on the credentials. *)
Lemma laid_out_frame fs fs' :
  laid_out fs → fs' !! D = fs !! D →
  (∀ n s, n ≠ "credentials" → fs' !! (join D n ++ s) = fs !! (join D n ++ s)) → laid_out fs'.
Proof.
  intros [L1 L2 L3 (b & L4 & L4') L5 L6 L7] HD Hsame.
  assert (∀ n, n ≠ "credentials" → fs' !! join D n = fs !! join D n) as Hj.
  { intros n Hn. specialize (Hsame n [] Hn). by rewrite !app_nil_r in Hsame. }
  assert (∀ n, n ∈ LAYOUT → n ≠ "credentials") as Hne by (intros n Hn ->; unfold LAYOUT in Hn; set_solver).
  split.
  - by rewrite HD.
  - intros n Hn. rewrite Hj by auto. by apply L2.
  - intros n s Hn Hs. rewrite Hsame by auto. by apply L3.
  - exists b. unfold content. by rewrite Hj.
  - by rewrite Hj.
  - by rewrite Hj.
  - by rewrite Hj.
Qed.

Lemma token_other n n' s : n' ≠ "credentials" → join D n' ++ s ≠ token_ n.
Proof.
  intros Hn Heq. unfold join in Heq. rewrite <-!app_assoc in Heq. apply app_inv_head in Heq.
  simpl in Heq. congruence.
Qed.

Lemma laid_out_token fs fs' n : laid_out fs → wrote fs fs' (token_ n) → laid_out fs'.
Proof.
  intros Hl Hw. eapply laid_out_frame; [done| |].
  - destruct (Hw D) as [?|(_ & Hn & _)]; [|done|].
    + intros Heq. apply (f_equal length) in Heq. unfold join in Heq. rewrite !length_app in Heq. simpl in Heq. lia.
    + by rewrite (lo_root _ Hl) in Hn.
  - intros n' s Hn'. destruct (Hw (join D n' ++ s)) as [?|(Hp & _)]; [by apply token_other|done|].
    rewrite parent_join in Hp. destruct Hp as [s' Hs']. unfold join in Hs'.
    rewrite <-!app_assoc in Hs'. apply app_inv_head in Hs'. simpl in Hs'. congruence.
Qed.
End layout.

(** ** The installation *)

Section setup.
Context `{!Engine, !Snapshots, !SnapshotLaws, !InfoLaws, !Uuid, !SocketAddr, !Toml, !TomlLaws}.
Context `{!Json Catalog, !Json OperationJournal, !Json RestoreJournal}.
Context `{!JsonLaws Catalog, !JsonLaws OperationJournal, !JsonLaws RestoreJournal}.
Implicit Types (fs : fsys).

Lemma laid_out_startable D fs contents : laid_out D fs → startable D fs empty_catalog contents.
Proof.
  intros [L1 L2 L3 L4 L5 L6 L7].
  assert (∀ n, fs !! database_directory D n = None) as Hnone.
  { intros n. unfold database_directory. apply (L3 "databases" [n]); [unfold LAYOUT; set_solver|done]. }
  assert (∀ n, n ∈ LAYOUT → fs !! join D n = Some NDir) as Hdirs by done. unfold LAYOUT in Hdirs.
  split; [|split| |].
  - exists fs. split; [|by intros k _ _]. split; try done.
    + split; try done; try (by apply Hdirs; set_solver); [set_solver|].
      intros n _ [x Hx]. congruence.
    + by left.
    + unfold is_dir. by rewrite L6.
    + unfold is_dir. by rewrite L5.
    + by left.
    + by left.
  - intros n Hn. unfold ids in Hn. simpl in Hn. set_solver.
  - intros n _. by rewrite Hnone.
  - apply Hdirs. set_solver.
  - assert (fs !! lock_file D = None) as Hlock.
    { apply (L3 "locks" ["daemon.lock"]); [unfold LAYOUT; set_solver|done]. }
    unfold is_dir. by rewrite Hlock.
Qed.

Context (cwd : path) (P data : PathBuf) (listen : string) (address : socket_addr).
Context (query_token admin_token : bytes) (contents : string → logical_state).
Context (Hdata : is_absolute data = true) (Hutf8 : path_utf8 data) (HP : is_absolute P = true).
Context (Hsocket : socket_parse listen = Ok address) (Hcanonical : trim listen = socket_to_string address).
Context (Hquery : credential_ok query_token) (Hadmin : credential_ok admin_token)
        (Hdiffer : query_token ≠ admin_token).
Context (Happart : ¬ components data `prefix_of` components P)
        (Happart' : ¬ components P `prefix_of` components data).

Local Abbreviation D := (components data).
Local Abbreviation config := (config_new data listen).
Local Abbreviation query_file := (query_credential_file (authentication config)).
Local Abbreviation admin_file := (admin_credential_file (authentication config)).
Local Abbreviation creds := (mkCredentials query_token admin_token).

Lemma config_ok : validate config = Ok tt ∧ paths_absolute config.
Proof. by eapply default_config_valid. Qed.

Lemma query_file_at : is_absolute query_file = true ∧ components query_file = join (join D "credentials") "client.token".
Proof. simpl. unfold path_join. simpl. rewrite Hdata. done. Qed.

Lemma admin_file_at : is_absolute admin_file = true ∧ components admin_file = join (join D "credentials") "admin.token".
Proof. simpl. unfold path_join. simpl. rewrite Hdata. done. Qed.

(** A protected credential file is in place. *)
Definition token_stored fs n (b : bytes) : Prop :=
  ∃ u, fs !! join (join D "credentials") n = Some (NFile (Z.land protected_mode (Z.lnot u)) (b ++ [newline])).

Lemma token_inside n : D `prefix_of` join (join D "credentials") n.
Proof. unfold join. rewrite <-app_assoc. by apply prefix_app_r. Qed.

Lemma wrote_token fs fs' n n' b :
  token_stored fs n b → n' ≠ n → wrote fs fs' (join (join D "credentials") n') → token_stored fs' n b.
Proof.
  intros (u & Hf) Hne Hw. exists u. destruct (Hw (join (join D "credentials") n)) as [->|(_ & ? & _)];
    [by intros ?%join_inj|done|congruence].
Qed.

(** Both credentials, then the configuration, are written. *)
Lemma write_installation_spec fs0 fs C :
  directories_possible fs0 D → creatable fs0 P →
  laid_out D fs → no_credentials D fs → changes D fs0 fs →
  wp Calm (write_installation cwd config P query_token admin_token) fs
    (λ '(res, _) fs', res = Ok tt ∧ laid_out D fs' ∧ token_stored fs' "client.token" query_token
       ∧ token_stored fs' "admin.token" admin_token
       ∧ ∃ mo src, to_string_pretty config = Ok src ∧ fs' !! components P = Some (NFile mo src)) C.
Proof.
  intros Hdirs Hcreate Hl Hnc Hch. unfold write_installation.
  destruct query_file_at as [Hqa Hq]. destruct admin_file_at as [Haa Ha].
  pose proof (directories_changes D fs0 fs Hdirs Hch (lo_root _ _ Hl)) as Hdirs1.
  apply wp_bind. eapply wp_mono; [apply (wp_write_new_file cwd query_file)| |done].
  { apply (credential_creatable D fs _ "client.token"); [done|done|done|apply (Hnc ["client.token"])|].
    left. specialize (Hnc []). by rewrite app_nil_r in Hnc. }
  rewrite Hq. intros res fs1 (-> & u1 & Hf1 & Hw1). fold (wrote fs fs1 (join (join D "credentials") "client.token")) in Hw1.
  assert (laid_out D fs1) as Hl1 by by eapply laid_out_token.
  assert (changes D fs0 fs1) as Hch1.
  { eapply changes_trans; [done|]. eapply wrote_changes; [apply token_inside|done]. }
  pose proof (directories_changes D fs0 fs1 Hdirs Hch1 (lo_root _ _ Hl1)) as Hdirs2.
  apply wp_bind. eapply wp_mono; [apply (wp_write_new_file cwd admin_file)| |done].
  { apply (credential_creatable D fs1 _ "admin.token"); [done|done|done| |].
    - destruct (Hw1 (join (join D "credentials") "admin.token")) as [->|(Hp & _)];
        [by intros ?%join_inj|apply (Hnc ["admin.token"])|].
      rewrite parent_join in Hp. apply prefix_length in Hp. unfold join in Hp. rewrite !length_app in Hp. simpl in Hp. lia.
    - destruct (Hw1 (join D "credentials")) as [->|(_ & _ & ?)]; [|left|by right].
      + intros Heq. apply (f_equal length) in Heq. unfold join in Heq. rewrite !length_app in Heq. simpl in Heq. lia.
      + specialize (Hnc []). by rewrite app_nil_r in Hnc. }
  rewrite Ha. intros res fs2 (-> & u2 & Hf2 & Hw2). fold (wrote fs1 fs2 (join (join D "credentials") "admin.token")) in Hw2.
  assert (laid_out D fs2) as Hl2 by by eapply laid_out_token.
  assert (token_stored fs2 "client.token" query_token) as Ht.
  { eapply wrote_token; [by exists u1| |done]. done. }
  assert (creatable fs2 P) as Hc2.
  { eapply creatable_changes; [done| |done|done]. eapply changes_trans; [done|].
    eapply wrote_changes; [apply token_inside|done]. }
  assert (token_stored fs2 "admin.token" admin_token) as Ht' by by exists u2.
  apply wp_bind. eapply wp_mono; [by apply wp_write_new; [apply config_ok|apply default_config_writable|]| |done].
  intros res fs3 (-> & mo & src & Hsrc & Hf3 & Hw3). fold (wrote fs2 fs3 (components P)) in Hw3.
  assert (∀ k, D `prefix_of` k → fs3 !! k = fs2 !! k) as Hsame by (intros k; by apply (wrote_elsewhere D fs2 fs3 (components P))).
  apply wp_ret. split_and!; [done| | | |by exists mo, src].
  - eapply laid_out_frame; [done|by apply Hsame|]. intros n s _. apply Hsame.
    unfold join. rewrite <-app_assoc. by apply prefix_app_r.
  - destruct Ht as (u & Ht). exists u. rewrite Hsame; [done|apply token_inside].
  - destruct Ht' as (u & Ht'). exists u. rewrite Hsame; [done|apply token_inside].
Qed.

Lemma token_credential fs n p b :
  token_stored fs n b → is_absolute p = true → components p = join (join D "credentials") n →
  credential_ok b → credential_stored cwd config fs p b.
Proof.
  intros (u & Hf) Ha Hp Hb.
  assert (located cwd p = join (join D "credentials") n) as Hloc by (unfold located; by rewrite Ha).
  assert (located cwd (data_directory config) = D) as HD by (unfold located; simpl; by rewrite Hdata).
  split.
  - eexists. rewrite Hloc, Hf. split; [done|apply private_mode].
  - done.
  - rewrite Hloc, HD. unfold lock_file. pne.
  - intros n'. rewrite Hloc, HD. pne.
Qed.

(** C6: A new installation works: initialize, load the configuration, open.  In a
    free place whose path is UTF-8, with a canonical listener and two different
    credentials, [initialize] succeeds, the configuration it wrote loads back, and opening it
    gives a server with an empty catalog that accepts the generated query
    credential as a query client and the generated administrator credential as
    an administrator. *)
Theorem initialize_then_open pid fs u :
  free D fs → creatable fs P →
  ∃ d w',
    (let? report := initialize_daemon cwd P data listen query_token admin_token in
     let? c := config_load cwd (report_config_path report) in
     open_daemon cwd false pid c) (fresh fs u) = (Some (Ok d), w')
    ∧ daemon_config d = config ∧ entries d = empty_catalog ∧ directory_root d = D
    ∧ daemon_databases d = ∅ ∧ serving D (w_fs w') empty_catalog contents
    ∧ daemon_authenticates d query_token = Some RoleQuery
    ∧ daemon_authenticates d admin_token = Some RoleAdmin.
Proof.
  intros Hfree Hcreate. destruct config_ok as [Hv Hpaths].
  assert (located cwd data = D) as HD by (unfold located; by rewrite Hdata).
  assert (located cwd P = components P) as HPl by (unfold located; by rewrite HP).
  enough (wp Calm (let? report := initialize_daemon cwd P data listen query_token admin_token in
     let? c := config_load cwd (report_config_path report) in open_daemon cwd false pid c) fs
    (λ res fs', serving D fs' empty_catalog contents
       ∧ open_result cwd config empty_catalog creds res) (λ _, True)) as Hwp.
  { destruct (wp_returns _ _ _ _ u Hwp) as (res & w' & -> & Hserve & Hres).
    destruct res as [d|e]; [|destruct Hres as (x & Hx & _); set_solver].
    destruct Hres as (Hcfg & Hcr & Hcat & Hdom & _). exists d, w'.
    unfold entries, directory_root, daemon_authenticates. rewrite Hcat, Hcr. split_and!; [done|done|done|exact HD| |done| |].
    - apply map_eq. intros i. rewrite lookup_empty. apply eq_None_not_Some. rewrite Hdom. set_solver.
    - unfold authenticate. simpl.
      assert (constant_time_equal query_token admin_token = false) as ->.
      { apply not_true_iff_false. by rewrite constant_time_equal_spec. }
      by rewrite (proj2 (constant_time_equal_spec query_token query_token)).
    - unfold authenticate. simpl. by rewrite (proj2 (constant_time_equal_spec admin_token admin_token)). }
  unfold initialize_daemon, absolute. rewrite Hdata, HP. cbv zeta.
  assert (listen_address config = Ok address) as -> by (unfold listen_address; simpl; by rewrite Hsocket).
  apply wp_try, wp_try. unfold ensure_new_path. apply wp_bind. rewrite HPl.
  eapply wp_atomic; [by rewrite (proj1 (proj2 (proj2 Hcreate)))| |done|done]. simpl. apply wp_ret.
  apply wp_bind, wp_query. rewrite HD. apply wp_try.
  eapply (wp_mono _ _ _ _ _ (λ _, True)); [by apply initialize_spec| |done].
  intros res fs1 (-> & Hl & Hnc & Hch). apply wp_bind.
  eapply (wp_mono _ _ _ _ _ (λ _, True)); [by apply (write_installation_spec fs fs1); [apply Hfree|..]| |done].
  intros [res [qc ac]] fs2 (-> & Hl2 & Hq & Ha & mo & src & Hsrc & Hf). apply wp_ret. simpl.
  apply wp_try. eapply (wp_mono _ _ _ _ _ (λ _, True)); [by eapply wp_config_load| |done]. intros res fs3 [-> ->].
  eapply wp_mono; [apply (open_daemon_spec cwd config Calm pid creds empty_catalog contents fs2); [done| |]| |done].
  - simpl. rewrite HD. by apply laid_out_startable.
  - split; simpl; [| |done].
    + by eapply token_credential; [| | |].
    + by eapply token_credential; [| | |].
  - simpl. rewrite HD. done.
Qed.
End setup.

(** ** A concrete installation *)

Module Concrete.
Import CatalogTheorems.Concrete Toy RestoreProofs.Concrete StartupProofs.Concrete.

Definition data : PathBuf := mkPathBuf true ["srv"; "nostdb"].
Definition config_path : PathBuf := mkPathBuf true ["etc"; "nostdb"; "server.toml"].
Definition disk : fsys := {[ [] := NDir ]}.

Lemma disk_lookup k : k ≠ [] → disk !! k = None.
Proof. intros Hk. by apply lookup_singleton_ne. Qed.

Lemma disk_directories p : directories_possible disk p.
Proof.
  split; [apply lookup_singleton_eq|]. intros k _. destruct k; [by right|left]. by apply disk_lookup.
Qed.

Lemma initialize_then_open_witness :
  ∃ d w',
    (let? report := initialize_daemon [] config_path data "127.0.0.1:7878" (repeat x61 32) (repeat x62 32) in
     let? c := config_load [] (report_config_path report) in
     open_daemon [] false [x37] c) (fresh disk 18) = (Some (Ok d), w')
    ∧ daemon_config d = config_new data "127.0.0.1:7878" ∧ Daemon.entries d = empty_catalog
    ∧ directory_root d = components data
    ∧ daemon_databases d = ∅ ∧ serving (components data) (w_fs w') empty_catalog contents
    ∧ daemon_authenticates d (repeat x61 32) = Some RoleQuery
    ∧ daemon_authenticates d (repeat x62 32) = Some RoleAdmin.
Proof.
  apply (initialize_then_open [] config_path data "127.0.0.1:7878" ("127.0.0.1:7878" : @socket_addr ConfigProofs.Concrete.socket)
    (repeat x61 32) (repeat x62 32) contents); try reflexivity.
  - repeat constructor; by eexists.
  - split; [discriminate|reflexivity].
  - split; [discriminate|reflexivity].
  - discriminate.
  - intros [s Hs]. discriminate Hs.
  - intros [s Hs]. discriminate Hs.
  - split; [apply disk_directories|]. intros s _. apply disk_lookup. discriminate.
  - split_and!; [reflexivity|discriminate|by apply disk_lookup|apply disk_directories].
Defined.

End Concrete.
