(* ===== verification/Api.v ===== *)
(** * The HTTP API ([src/src/api.rs], [src/src/lib.rs])

    The authenticated preview API for one database: sessions with queued
    transactions, queries with limits and a wall-clock timeout, metrics,
    snapshot and logical export and import.  A handler takes the shared
    application state and gives its response and the state after it; where the
    source releases a lock between two steps, the steps are definitions of
    their own. *)

From Stdlib Require Import ZArith Lia Ascii.
From stdpp Require Import base list strings gmap.
From S2P Require Import Prelude Fs Codec Catalog Wire Messages Config Protocol Engine.
From S2P Require Import Daemon Restore Import.

Open Scope string_scope.
Open Scope list_scope.

Definition SERVER_PROTOCOL_VERSION : Z := 1.

(** ** Configuration *)

Record ServerConfig : Type := mkServerConfig {
  database_file : PathBuf;             (* [database_path] *)
  api_key : bytes;
  server_query_limits : QueryLimits;   (* [query_limits] *)
  query_timeout : Z;                   (* a [Duration], in nanoseconds *)
  request_body_bytes : Z;
  snapshot_body_bytes : Z;
  server_max_sessions : Z;             (* [max_sessions] *)
  server_max_statements : Z            (* [max_transaction_statements] *)
}.

Definition from_secs (seconds : Z) : Z := seconds * 1000000000.
Definition from_millis (milliseconds : Z) : Z := milliseconds * 1000000.

Definition server_config_new (p : PathBuf) (key : bytes) : ServerConfig := {|
  database_file := p;
  api_key := key;
  server_query_limits := mkQueryLimits 10000 (64 * 1024 * 1024) 10000000 1000000;
  query_timeout := from_secs 30;
  request_body_bytes := 1024 * 1024;
  snapshot_body_bytes := 1024 * 1024 * 1024;
  server_max_sessions := 1024;
  server_max_statements := 1000
|}.

Definition server_config_validate (c : ServerConfig) : result unit ServerError :=
  match api_key c with
  | [] => Err "API key must not be empty"
  | _ =>
      if (query_timeout c =? 0)%Z || (request_body_bytes c =? 0)%Z
         || (snapshot_body_bytes c <? request_body_bytes c)%Z
         || (server_max_sessions c =? 0)%Z || (server_max_statements c =? 0)%Z then
        Err "server limits must be positive and consistent"
      else Ok tt
  end.

(** ** Metrics: counters of 64 bits *)

Record Metrics : Type := mkMetrics {
  requests : Z;
  queries : Z;
  query_errors : Z;
  auth_failures : Z;
  timeouts : Z;
  sessions_created : Z;
  snapshot_restores : Z
}.

Definition metrics_default : Metrics := mkMetrics 0 0 0 0 0 0 0.

(** [fetch_add(1, Ordering::Relaxed)] wraps around. *)
Definition fetch_add (z : Z) : Z := ((z + 1) mod 2 ^ 64)%Z.

Definition count_request (m : Metrics) : Metrics :=
  mkMetrics (fetch_add (requests m)) (queries m) (query_errors m) (auth_failures m) (timeouts m)
    (sessions_created m) (snapshot_restores m).
Definition count_query (m : Metrics) : Metrics :=
  mkMetrics (requests m) (fetch_add (queries m)) (query_errors m) (auth_failures m) (timeouts m)
    (sessions_created m) (snapshot_restores m).
Definition count_query_error (m : Metrics) : Metrics :=
  mkMetrics (requests m) (queries m) (fetch_add (query_errors m)) (auth_failures m) (timeouts m)
    (sessions_created m) (snapshot_restores m).
Definition count_auth_failure (m : Metrics) : Metrics :=
  mkMetrics (requests m) (queries m) (query_errors m) (fetch_add (auth_failures m)) (timeouts m)
    (sessions_created m) (snapshot_restores m).
Definition count_timeout (m : Metrics) : Metrics :=
  mkMetrics (requests m) (queries m) (query_errors m) (auth_failures m) (fetch_add (timeouts m))
    (sessions_created m) (snapshot_restores m).
Definition count_session (m : Metrics) : Metrics :=
  mkMetrics (requests m) (queries m) (query_errors m) (auth_failures m) (timeouts m)
    (fetch_add (sessions_created m)) (snapshot_restores m).
Definition count_restore (m : Metrics) : Metrics :=
  mkMetrics (requests m) (queries m) (query_errors m) (auth_failures m) (timeouts m)
    (sessions_created m) (fetch_add (snapshot_restores m)).

Definition line (s : string) : string := s +:+ String (ascii_of_nat 10) "".

Definition render (m : Metrics) (active_sessions : Z) : string :=
  line "# TYPE nostdb_http_requests_total counter"
  +:+ line ("nostdb_http_requests_total " +:+ show (requests m))
  +:+ line "# TYPE nostdb_queries_total counter"
  +:+ line ("nostdb_queries_total " +:+ show (queries m))
  +:+ line ("nostdb_query_errors_total " +:+ show (query_errors m))
  +:+ line ("nostdb_auth_failures_total " +:+ show (auth_failures m))
  +:+ line ("nostdb_query_timeouts_total " +:+ show (timeouts m))
  +:+ line ("nostdb_sessions_created_total " +:+ show (sessions_created m))
  +:+ line ("nostdb_snapshot_restores_total " +:+ show (snapshot_restores m))
  +:+ line "# TYPE nostdb_sessions_active gauge"
  +:+ line ("nostdb_sessions_active " +:+ show active_sessions).

(** ** Responses and errors *)

Definition OK : Z := 200.
Definition CREATED : Z := 201.
Definition NO_CONTENT : Z := 204.
Definition BAD_REQUEST : Z := 400.
Definition UNAUTHORIZED : Z := 401.
Definition NOT_FOUND : Z := 404.
Definition REQUEST_TIMEOUT : Z := 408.
Definition CONFLICT : Z := 409.
Definition PAYLOAD_TOO_LARGE : Z := 413.
Definition UNPROCESSABLE_ENTITY : Z := 422.
Definition TOO_MANY_REQUESTS : Z := 429.
Definition INTERNAL_SERVER_ERROR : Z := 500.

Record ApiError : Type := mkApiError {
  status : Z;
  error_code : string;
  error_message : string
}.

Definition bad_request (message : string) : ApiError :=
  mkApiError BAD_REQUEST "bad_request" message.
Definition internal_error (message : string) : ApiError :=
  mkApiError INTERNAL_SERVER_ERROR "internal_error" message.

Definition session_not_found : ApiError :=
  mkApiError NOT_FOUND "session_not_found" "session does not exist".

Definition snapshot_incompatible (message : string) : ApiError :=
  mkApiError UNPROCESSABLE_ENTITY "incompatible_snapshot" message.

Inductive Body : Type :=
| JsonBody (v : Value)
| TextBody (s : string)
| StreamBody (chunks : list bytes)    (* [application/x-ndjson] *)
| FileBody (b : bytes)                (* [application/vnd.nostdb.database] *)
| NoBody.

Record Response : Type := mkResponse { response_status : Z; response_body : Body }.

(** [ErrorBody] *)
Definition error_body (code message : string) : Value :=
  object [("error", object [("code", Str code); ("message", Str message)])].

Definition into_response (e : ApiError) : Response :=
  mkResponse (status e) (JsonBody (error_body (error_code e) (error_message e))).

Definition json_response (v : Value) : Response := mkResponse OK (JsonBody v).

(** ** Requests *)

Record RequestLimits : Type := mkRequestLimits {
  request_max_rows : option Z;
  request_max_memory_bytes : option Z;
  request_max_operations : option Z;
  request_max_traversals : option Z;
  timeout_ms : option Z
}.

Record QueryRequest : Type := mkQueryRequest {
  request_query : string;
  request_parameters : list (string * Value);
  request_stream : bool;
  request_read_only : bool;
  request_limits : option RequestLimits
}.

(** [serde_json] on the bodies the API takes, and on the rows it streams. *)
Class HttpCodec : Type := {
  query_request_from_slice : bytes → result QueryRequest string;
  package_from_slice : bytes → result LogicalPackageDocument string;
  value_to_vec : Value → result bytes string
}.

(** [nostdb_engine::prepare] *)
Class Prepare : Type := { prepare : string → result unit string }.

(** [EmbeddedDatabase::schemas] and [unresolved], with what the API shows of them. *)
Record SchemaInfo : Type := mkSchemaInfo {
  schema_identity : Value;
  schema_state : Value;
  schema_properties : list (Value * Value);   (* name and type *)
  schema_constraints : Value
}.

Record UnresolvedEntry : Type := mkUnresolvedEntry {
  unresolved_kind : Value;
  unresolved_internal_id : Value;
  unresolved_identity : Value;
  unresolved_state : Value
}.

Class Listings `{!Engine} : Type := {
  engine_schemas : edb → io (result (list SchemaInfo) DatabaseError);
  engine_unresolved : edb → io (result (list UnresolvedEntry) DatabaseError)
}.

(** ** Comparison of the key *)

Definition constant_time_equal (left right : bytes) : bool :=
  let difference := Z.lxor (len left) (len right) in
  let difference :=
    fold_left (λ d i, Z.lor d (Z.lxor (byte_at left i) (byte_at right i)))
      (seq 0 (Nat.max (length left) (length right))) difference in
  (difference =? 0)%Z.

Fixpoint strip_bytes (prefix value : bytes) : option bytes :=
  match prefix, value with
  | [], _ => Some value
  | x :: prefix', y :: value' => if decide (x = y) then strip_bytes prefix' value' else None
  | _ :: _, [] => None
  end.

(** ** Limits *)

Definition capped (configured : Z) (requested : option Z) : Z :=
  Z.min (match requested with Some v => v | None => configured end) configured.

Definition effective (c : ServerConfig) (l : RequestLimits)
    : result (QueryLimits * Z) ApiError :=
  let configured := server_query_limits c in
  let limits := mkQueryLimits (capped (limit_rows configured) (request_max_rows l))
                  (capped (limit_memory_bytes configured) (request_max_memory_bytes l))
                  (capped (limit_operations configured) (request_max_operations l))
                  (capped (limit_traversals configured) (request_max_traversals l)) in
  let timeout := capped (query_timeout c) (from_millis <$> timeout_ms l) in
  if (timeout =? 0)%Z then Err (bad_request "timeout_ms must be positive")
  else Ok (limits, timeout).

(** [request.limits.map_or(Ok((configured)), |limits| limits.effective(&state))] *)
Definition effective_limits (c : ServerConfig) (l : option RequestLimits)
    : result (QueryLimits * Z) ApiError :=
  match l with
  | None => Ok (server_query_limits c, query_timeout c)
  | Some l => effective c l
  end.

(** [usize::try_from(..)] is the identity on 64 bits. *)
Definition effective_limit (c : ServerConfig) (limit : option Z) : Z :=
  Z.min (match limit with Some v => v | None => limit_rows (server_query_limits c) end)
    (limit_rows (server_query_limits c)).

(** ** Errors of the database, carried as text across the worker *)

(** [DatabaseFailure::from] and its [Display] *)
Definition failure_text (e : DatabaseError) : string :=
  match e with
  | QueryFailure true text => "resource_limit|" +:+ text
  | QueryFailure false text => "query_error|" +:+ text
  | StorageFailure _ text => "database_error|" +:+ text
  end.

(** [str::strip_prefix] *)
Fixpoint strip_string (prefix value : string) : option string :=
  match prefix, value with
  | "", _ => Some value
  | String a prefix', String b value' => if Ascii.eqb a b then strip_string prefix' value' else None
  | String _ _, "" => None
  end.

Definition database_message (message : string) : ApiError :=
  match strip_string "resource_limit|" message with
  | Some m => mkApiError TOO_MANY_REQUESTS "resource_limit" m
  | None =>
      match strip_string "query_error|" message with
      | Some m => mkApiError BAD_REQUEST "query_error" m
      | None =>
          match strip_string "database_error|" message with
          | Some m => mkApiError INTERNAL_SERVER_ERROR "database_error" m
          | None => internal_error message
          end
      end
  end.

(** [str::contains] *)
Fixpoint contains (needle value : string) : bool :=
  match strip_string needle value with
  | Some _ => true
  | None => match value with "" => false | String _ value' => contains needle value' end
  end.

Definition cancelled_text : string := "query execution cancelled".

(** What a worker gives: its result, or the text of a [JoinError]. *)
Definition joined (A : Type) : Type := result (result A string) string.

Definition join_result {A} (r : joined A) : result A ApiError :=
  match r with
  | Ok (Ok value) => Ok value
  | Ok (Err message) => Err (database_message message)
  | Err error => Err (internal_error ("query worker failed: " +:+ error))
  end.

(** ** Sessions *)

Record Session : Type := mkSession { transaction_statements : option (list (string * Parameters)) }.

Section api.
Context `{!Engine, !Listings, !Projects, !FloatCast, !PrepareWrite, !Prepare, !HttpCodec}.

(** The shared state: [None] is a database that was taken out and not put
    back; [lock_poisoned] is the mutex after a worker panicked holding it. *)
Record AppState : Type := mkAppState {
  app_database : option edb;
  lock_poisoned : bool;
  app_sessions : gmap string Session;
  app_metrics : Metrics;
  app_config : ServerConfig
}.

Definition with_db (db : option edb) (s : AppState) : AppState :=
  mkAppState db (lock_poisoned s) (app_sessions s) (app_metrics s) (app_config s).
Definition with_sessions (m : gmap string Session) (s : AppState) : AppState :=
  mkAppState (app_database s) (lock_poisoned s) m (app_metrics s) (app_config s).
Definition poison (s : AppState) : AppState :=
  mkAppState (app_database s) true (app_sessions s) (app_metrics s) (app_config s).
Definition count (f : Metrics → Metrics) (s : AppState) : AppState :=
  mkAppState (app_database s) (lock_poisoned s) (app_sessions s) (f (app_metrics s)) (app_config s).

(** [AppState::new]: opens the database, or creates it when the file is absent. *)
Definition app_state_new (cwd : path) (c : ServerConfig) : io (result AppState ServerError) :=
  match server_config_validate c with
  | Err e => ret (Err e)
  | Ok _ =>
      let p := located cwd (database_file c) in
      let fails := io_map_err database_error_text in
      let* present := query (λ fs, exists_ fs p) in
      let? db :=
        (if (present : bool) then fails (engine_open p)
         else
           let? _ := match parent_to_create (database_file c) with
                     | Some d => io_map_err (λ e, "cannot create database directory: " +:+ io_text e)
                                   (create_dir_all (located cwd d))
                     | None => ret (Ok tt)
                     end in
           fails (engine_create p)) in
      let* info := engine_info db in
      match info with
      | Err e => let* _ := engine_close db in ret (Err (database_error_text e))
      | Ok info =>
          if info_source_enabled info then
            let* _ := engine_close db in
            ret (Err "server mode refuses a database with a human-readable-source synchronization baseline; import an NDB-only snapshot")
          else ret (Ok (mkAppState (Some db) false ∅ metrics_default c))
      end
  end.

(** What a handler gives. *)
Definition handled (A : Type) : Type := result A ApiError * AppState.

Definition create_session (new_id : string) (s : AppState) : handled Response :=
  if (server_max_sessions (app_config s) <=? Z.of_nat (size (app_sessions s)))%Z then
    (Err (mkApiError TOO_MANY_REQUESTS "session_limit" "maximum session count reached"), s)
  else
    (Ok (mkResponse CREATED (JsonBody (object [("session_id", Str new_id)]))),
     count count_session (with_sessions (<[new_id := mkSession None]> (app_sessions s)) s)).

Definition delete_session (i : string) (s : AppState) : handled Response :=
  match app_sessions s !! i with
  | None => (Err session_not_found, s)
  | Some _ => (Ok (mkResponse NO_CONTENT NoBody), with_sessions (delete i (app_sessions s)) s)
  end.

Definition no_transaction : ApiError :=
  mkApiError CONFLICT "no_transaction" "session has no active transaction".

Definition begin (i : string) (s : AppState) : handled Response :=
  match app_sessions s !! i with
  | None => (Err session_not_found, s)
  | Some (mkSession (Some _)) =>
      (Err (mkApiError CONFLICT "transaction_active" "session already has an active transaction"), s)
  | Some (mkSession None) =>
      (Ok (json_response (object [("status", Str "active")])),
       with_sessions (<[i := mkSession (Some [])]> (app_sessions s)) s)
  end.

(** [session.transaction.take()] of [commit] and [rollback] *)
Definition take_transaction (i : string) (s : AppState) : handled (list (string * Parameters)) :=
  match app_sessions s !! i with
  | None => (Err session_not_found, s)
  | Some (mkSession None) => (Err no_transaction, s)
  | Some (mkSession (Some statements)) =>
      (Ok statements, with_sessions (<[i := mkSession None]> (app_sessions s)) s)
  end.

Definition rollback (i : string) (s : AppState) : handled Response :=
  let '(r, s') := take_transaction i s in
  (map_ok (λ _, json_response (object [("status", Str "rolled_back")])) r, s').

(** ** Queries *)

Definition parse_query (c : ServerConfig) (body : bytes) : result QueryRequest ApiError :=
  if (request_body_bytes c <? len body)%Z then
    Err (mkApiError PAYLOAD_TOO_LARGE "request_too_large"
           "JSON request body exceeds the configured limit")
  else map_err bad_request (query_request_from_slice body).

Definition require_read_only (r : QueryRequest) : result unit ApiError :=
  if request_read_only r then
    map_err (λ e, mkApiError BAD_REQUEST "query_error" ("read-only query required: " +:+ e))
      (prepare (request_query r))
  else Ok tt.

(** A body that was accepted, with its converted parameters. *)
Definition accept_query (c : ServerConfig) (body : bytes)
    : result (QueryRequest * Parameters) ApiError :=
  let^ r := parse_query c body in
  let^ _ := require_read_only r in
  let^ ps := map_err bad_request (parameters (request_parameters r)) in
  Ok (r, ps).

(** What the clock and the scheduler do to one worker: how long it waits for a
    thread, how long until it is done, whether the engine notices that its
    token was cancelled, and whether the worker panics. *)
Record Clock : Type := mkClock {
  has_deadline : bool;        (* [Instant::checked_add] gave one *)
  waited : Z;
  took : Z;
  notices : bool;
  panics : option string
}.

Definition timer_fires (timeout : Z) (k : Clock) : bool := (timeout <? took k)%Z.

(** The blocking closure of [execute_one] and [execute_batch]. *)
Definition worker {A} (timeout : Z) (k : Clock)
    (run : bool → edb → io (result A DatabaseError * edb)) (s : AppState)
    : io (joined A * AppState) :=
  if has_deadline k && (timeout <=? waited k)%Z then ret (Ok (Err cancelled_text), s)
  else if lock_poisoned s then ret (Ok (Err "database lock is poisoned"), s)
  else
    match app_database s with
    | None => ret (Ok (Err "database is temporarily unavailable"), s)
    | Some db =>
        let* (r, db') := run (timer_fires timeout k && notices k) db in
        match panics k with
        | Some text => ret (Err text, poison (with_db (Some db') s))
        | None => ret (Ok (map_err failure_text r), with_db (Some db') s)
        end
    end.

Definition timeout_error {A} (message : string) (s : AppState) : handled A :=
  (Err (mkApiError REQUEST_TIMEOUT "query_timeout" message), count count_timeout s).

(** A committed result is reported as success also after the timer fired. *)
Definition finish_timeout {A} (r : joined A) (message : string) (s : AppState) : handled A :=
  match r with
  | Ok (Ok value) => (Ok value, s)
  | Ok (Err error) =>
      if contains cancelled_text error then timeout_error message s
      else (Err (database_message error), s)
  | Err error => (Err (internal_error ("query worker failed after timeout: " +:+ error)), s)
  end.

(** The [match tokio::time::timeout(..).await] of both. *)
Definition await_worker {A} (timeout : Z) (k : Clock) (message : string)
    (run : bool → edb → io (result A DatabaseError * edb)) (s : AppState) : io (handled A) :=
  let* (r, s) := worker timeout k run (count count_query s) in
  ret (
    if timer_fires timeout k then finish_timeout r message s
    else
      match r with
      | Ok (Err error) =>
          if contains cancelled_text error then timeout_error message s
          else (join_result r, count count_query_error s)
      | Ok (Ok _) => (join_result r, s)
      | Err _ => (join_result r, count count_query_error s)
      end).

Definition execute_one (q : string) (ps : Parameters) (limits : QueryLimits) (timeout : Z)
    (k : Clock) (s : AppState) : io (handled StatementResult) :=
  await_worker timeout k "query exceeded the configured wall-clock timeout"
    (λ cancelled db, engine_execute_limited db q ps limits cancelled) s.

Definition execute_batch (statements : list (string * Parameters)) (k : Clock) (s : AppState)
    : io (handled (list StatementResult)) :=
  await_worker (query_timeout (app_config s)) k
    "transaction exceeded the configured wall-clock timeout"
    (λ cancelled db, engine_execute_transaction_limited db statements
                       (server_query_limits (app_config s)) cancelled) s.

(** The rows of a stream, each on its own line. *)
Definition stream_chunks (r : QueryResult) : result (list bytes) ApiError :=
  let encode v := map_err internal_error (value_to_vec v) in
  let^ head := encode (object [("columns", Array (map Str (columns r)));
                               ("ordered", Bool (ordered r))]) in
  let^ rows := collect (map (λ row, encode (row_object (columns r) row)) (rows r)) in
  Ok (flat_map (λ b, [b; [newline]]) (head :: rows)).

Definition response (r : StatementResult) (streaming : bool) : result Response ApiError :=
  match streaming, r with
  | true, Read q => map_ok (λ chunks, mkResponse OK (StreamBody chunks)) (stream_chunks q)
  | _, _ => Ok (json_response (statement r))
  end.

(** Execution with the request's limits, and its response. *)
Definition run_query (r : QueryRequest) (ps : Parameters) (k : Clock) (s : AppState)
    : io (handled Response) :=
  match effective_limits (app_config s) (request_limits r) with
  | Err e => ret (Err e, s)
  | Ok (limits, timeout) =>
      let* (res, s') := execute_one (request_query r) ps limits timeout k s in
      ret (match res with Err e => Err e | Ok v => response v (request_stream r) end, s')
  end.

Definition query_handler (body : bytes) (k : Clock) (s : AppState) : io (handled Response) :=
  match accept_query (app_config s) body with
  | Err e => ret (Err e, s)
  | Ok (r, ps) => run_query r ps k s
  end.

(** The part of [session_query] under the lock: [None] when the session has no
    transaction and the query runs on its own. *)
Definition queue_query (i : string) (r : QueryRequest) (ps : Parameters) (s : AppState)
    : option (handled Response) :=
  match app_sessions s !! i with
  | None => Some (Err session_not_found, s)
  | Some (mkSession None) => None
  | Some (mkSession (Some statements)) =>
      Some (
        match request_limits r with
        | Some _ =>
            (Err (bad_request "per-request limits are not accepted inside a transaction; the server transaction budget applies at commit"), s)
        | None =>
            if (server_max_statements (app_config s) <=? len statements)%Z then
              (Err (mkApiError TOO_MANY_REQUESTS "transaction_statement_limit"
                      "transaction statement limit reached"), s)
            else if is_err (prepare (request_query r)) && negb (prepare_write_ok (request_query r)) then
              (Err (bad_request "query is not valid or supported"), s)
            else
              let statements' := statements ++ [(request_query r, ps)] in
              (Ok (json_response (object [("status", Str "queued");
                                          ("statement_count", json_int (len statements'))])),
               with_sessions (<[i := mkSession (Some statements')]> (app_sessions s)) s)
        end)
  end.

Definition session_query (i : string) (body : bytes) (k : Clock) (s : AppState)
    : io (handled Response) :=
  match accept_query (app_config s) body with
  | Err e => ret (Err e, s)
  | Ok (r, ps) =>
      match queue_query i r ps s with
      | Some h => ret h
      | None => run_query r ps k s
      end
  end.

(** The second half of [commit]: the statements leave the session first. *)
Definition commit_statements (statements : list (string * Parameters)) (k : Clock) (s : AppState)
    : io (handled Response) :=
  let* (r, s') := execute_batch statements k s in
  ret (map_ok (λ results, json_response (object [("status", Str "committed");
                                                 ("results", Array (map statement results))])) r, s').

Definition commit (i : string) (k : Clock) (s : AppState) : io (handled Response) :=
  match take_transaction i s with
  | (Err e, s') => ret (Err e, s')
  | (Ok statements, s') => commit_statements statements k s'
  end.
End api.
