(* ===== verification/ApiAdmin.v ===== *)
(** * The administration and the routes of the HTTP API ([src/src/api.rs])

    Listings, export and import of snapshots and logical packages, and the
    router with its authentication. *)

From Stdlib Require Import ZArith Lia Ascii.
From stdpp Require Import base list strings gmap.
From S2P Require Import Prelude Fs Codec Catalog Wire Messages Config Protocol Engine.
From S2P Require Import Daemon Restore Import Api.

Open Scope string_scope.
Open Scope list_scope.

(** [Path::with_extension] of a file name *)
Definition file_stem (name : string) : string :=
  match rsplit_dot name with
  | Some ("", _) | None => name
  | Some (stem, _) => stem
  end.

Definition with_extension (p : path) (extension : string) : path :=
  match last p with
  | None => p
  | Some name => join (parent p) (file_stem name +:+ "." +:+ extension)
  end.

Definition import_file (target : path) (suffix : string) : path :=
  with_extension target ("ndb.import-" +:+ suffix).
Definition backup_copy (target : path) (suffix : string) : path :=
  with_extension target ("ndb.backup-" +:+ suffix).

Definition health : Response :=
  json_response (object [("status", Str "ok"); ("protocol_version", json_int SERVER_PROTOCOL_VERSION)]).

(** [schemas.truncate(limit)] and whether it cut anything *)
Definition bounded {A} (limit : Z) (l : list A) : list A * bool :=
  (take (Z.to_nat limit) l, (limit <? len l)%Z).

Definition safe_relative (value : string) : result PathBuf ApiError :=
  if String.eqb value ""
     || is_absolute (path_from value)
     || existsb (λ component, negb (is_normal component)) (path_components value)
     || negb (bool_decide (path_extension value = Some "nost")) then
    Err (bad_request ("invalid logical module path `" +:+ value +:+ "`"))
  else Ok (path_from value).

Definition api_errors : ImportErrors ApiError := {|
  checked_path := safe_relative;
  repeated_path := bad_request "logical package repeats a module path";
  bad_module_id value := bad_request ("invalid stable_module_id for " +:+ value);
  module_id_mismatch value :=
    bad_request ("stable_module_id does not match settings.json for " +:+ value);
  import_io e := internal_error (io_text e)
|}.

Definition invalid_package (text : string) : ApiError :=
  mkApiError UNPROCESSABLE_ENTITY "invalid_logical_package" text.

Definition unsupported_package (text : string) : ApiError :=
  mkApiError UNPROCESSABLE_ENTITY "unsupported_logical_package" text.

Section admin.
Context `{!Engine, !Listings, !Projects, !FloatCast, !PrepareWrite, !Prepare, !HttpCodec}.
Context (cwd : path).

(** ** Listings *)

Definition metrics_handler (s : AppState) : handled Response :=
  (Ok (mkResponse OK (TextBody (render (app_metrics s) (Z.of_nat (size (app_sessions s)))))), s).

(** A blocking closure that borrows the database. *)
Definition with_guard {A} (s : AppState) (f : edb → io (result A string)) : io (result A string) :=
  if lock_poisoned s then ret (Err "database lock is poisoned")
  else
    match app_database s with
    | None => ret (Err "database is temporarily unavailable")
    | Some db => f db
    end.

(** [.map_err(ApiError::internal)] around such a closure. *)
Definition guarded (s : AppState) (f : edb → io (result Value string)) : io (handled Response) :=
  let* r := with_guard s f in
  ret (map_err internal_error (map_ok json_response r), s).

Definition catalog_json (info : DatabaseInfo) (counts : DatabaseCounts) : Value :=
  object [("protocol_version", json_int SERVER_PROTOCOL_VERSION);
          ("database", object [
             ("ndb_format_version", json_int (info_ndb_format_version info));
             ("schema_revision", json_int (info_schema_revision info));
             ("value_codec_version", json_int (info_value_codec_version info));
             ("checksum_codec_version", json_int (info_checksum_codec_version info));
             ("generation", json_int (info_generation info));
             ("logical_checksum", Str (hex_digits 16 (info_logical_checksum info)));
             ("source_enabled", Bool (info_source_enabled info))]);
          ("counts", object [
             ("schemas", json_int (count_schemas counts));
             ("nodes", json_int (count_nodes counts));
             ("edges", json_int (count_edges counts));
             ("adjacency", json_int (count_adjacency counts));
             ("properties", json_int (count_properties counts))])].

Definition catalog_handler (s : AppState) : io (handled Response) :=
  guarded s (λ db,
    let? info := io_map_err database_error_text (engine_info db) in
    let? counts := io_map_err database_error_text (engine_counts db) in
    ret (Ok (catalog_json info counts))).

Definition schema_json (x : SchemaInfo) : Value :=
  object [("identity", schema_identity x); ("state", schema_state x);
          ("properties", Array (map (λ '(n, t), object [("name", n); ("type", t)])
                                   (schema_properties x)));
          ("constraints", schema_constraints x)].

Definition unresolved_json (x : UnresolvedEntry) : Value :=
  object [("kind", unresolved_kind x); ("internal_id", unresolved_internal_id x);
          ("identity", unresolved_identity x); ("state", unresolved_state x)].

(** A listing under [key], cut at the limit. *)
Definition listing_json {A} (key : string) (show_entry : A → Value) (limit : Z) (l : list A) : Value :=
  let '(shown, truncated) := bounded limit l in
  object [(key, Array (map show_entry shown)); ("returned", json_int (len shown));
          ("truncated", Bool truncated)].

(** The requested [limit] is what the query string gave. *)
Definition schema_handler (request : result (option Z) string) (s : AppState) : io (handled Response) :=
  match request with
  | Err e => ret (Err (bad_request e), s)
  | Ok limit =>
      guarded s (λ db,
        let? l := io_map_err database_error_text (engine_schemas db) in
        ret (Ok (listing_json "schemas" schema_json (effective_limit (app_config s) limit) l)))
  end.

Definition unresolved_handler (request : result (option Z) string) (s : AppState)
    : io (handled Response) :=
  match request with
  | Err e => ret (Err (bad_request e), s)
  | Ok limit =>
      guarded s (λ db,
        let? l := io_map_err database_error_text (engine_unresolved db) in
        ret (Ok (listing_json "entries" unresolved_json (effective_limit (app_config s) limit) l)))
  end.

(** ** Snapshots *)

Definition database_location (s : AppState) : path := located cwd (database_file (app_config s)).

Definition export_snapshot (s : AppState) : io (handled Response) :=
  if lock_poisoned s then ret (Err (internal_error "database lock is poisoned"), s)
  else
    match app_database s with
    | None => ret (Err (internal_error "database is temporarily unavailable"), s)
    | Some db =>
        let* (r, db') := engine_checkpoint db in
        let s := with_db (Some db') s in
        match r with
        | Err e => ret (Err (internal_error (database_error_text e)), s)
        | Ok _ =>
            let* r := read (database_location s) in
            ret (map_err (λ e, internal_error (io_text e))
                   (map_ok (λ b, mkResponse OK (FileBody b)) r), s)
        end
    end.

(** The uploaded bytes are written, and opened, checked, adopted and checkpointed. *)
Definition prepare_upload (temporary : path) (body : bytes) : io (result unit ApiError) :=
  let fails := λ e : io_error, internal_error (io_text e) in
  let? _ := io_map_err fails (open_new default_mode temporary) in
  let? _ := io_map_err fails (write_all_sync temporary body) in
  adopt_candidate snapshot_incompatible temporary.

(** [*guard = EmbeddedDatabase::open(target).ok()] before an error. *)
Definition reopen_after (target : path) (message : string) (s : AppState) : io (handled unit) :=
  let* r := engine_open target in
  ret (Err (internal_error message),
       with_db (match r with Ok db => Some db | Err _ => None end) s).

(** The database is closed: its file is set aside and the upload takes its place. *)
Definition install_upload (target temporary backup : path) (s : AppState) : io (handled unit) :=
  let* r := rename target backup in
  match r with
  | Err e => reopen_after target ("cannot preserve current snapshot: " +:+ io_text e) s
  | Ok _ =>
      let* r := rename temporary target in
      match r with
      | Err e =>
          let* _ := rename backup target in
          reopen_after target ("cannot install compatible snapshot: " +:+ io_text e) s
      | Ok _ =>
          let* r := engine_open target in
          match r with
          | Ok db =>
              let s := with_db (Some db) s in
              let* r := remove_file backup in
              ret (map_err (λ e, internal_error ("snapshot restored but backup cleanup failed: "
                                                 +:+ io_text e)) r, s)
          | Err e =>
              let* _ := remove_file target in
              let* _ := rename backup target in
              reopen_after target ("restored snapshot could not reopen: "
                                   +:+ database_error_text e) s
          end
      end
  end.

(** The closure of [restore_snapshot]. *)
Definition restore_upload (target temporary backup : path) (body : bytes) (s : AppState)
    : io (handled unit) :=
  let* r := prepare_upload temporary body in
  match r with
  | Err e => ret (Err e, s)
  | Ok _ =>
      if lock_poisoned s then ret (Err (internal_error "database lock is poisoned"), s)
      else
        match app_database s with
        | None => ret (Err (internal_error "database is temporarily unavailable"), s)
        | Some current =>
            let s := with_db None s in
            let* (r, current) := engine_checkpoint current in
            let* _ := engine_close current in
            match r with
            | Err e => ret (Err (snapshot_incompatible (database_error_text e)), s)
            | Ok _ => install_upload target temporary backup s
            end
        end
  end.

(** [suffix] is what [Uuid::new_v4] gives. *)
Definition restore_snapshot (suffix : string) (body : bytes) (s : AppState) : io (handled unit) :=
  let target := database_location s in
  let temporary := import_file target suffix in
  let* (r, s) := restore_upload target temporary (backup_copy target suffix) body s in
  let* left_over := query (λ fs, exists_ fs temporary) in
  let* _ := (if (left_over : bool) then remove_file temporary else ret (Ok tt)) in
  ret (r, s).

Definition import_snapshot (suffix : string) (body : bytes) (s : AppState) : io (handled Response) :=
  match body with
  | [] => ret (Err (bad_request "snapshot body is empty"), s)
  | _ =>
      let* (r, s) := restore_snapshot suffix body s in
      ret (match r with
           | Err e => (Err e, s)
           | Ok _ => (Ok (json_response (object [("status", Str "restored");
                                                 ("bytes", json_int (len body))])),
                      count count_restore s)
           end)
  end.

(** ** Logical packages *)

Definition export_logical (s : AppState) : io (handled Response) :=
  let* r := with_guard s engine_export_logical in
  ret (map_err (mkApiError UNPROCESSABLE_ENTITY "logical_export_failed")
         (map_ok (λ p, json_response (package_document p)) r), s).

(** The package is written out and compiled; the candidate is adopted. *)
Definition build_package (directory : path) (package : LogicalPackageDocument)
    : io (result bytes ApiError) :=
  let storage := join directory ".nostdb" in
  let fails := λ e : io_error, internal_error (io_text e) in
  let refused := λ e : DatabaseError, snapshot_incompatible (database_error_text e) in
  let? _ := io_map_err fails (write_file default_mode (join storage "settings.json")
              (String.list_byte_of_string (document_settings package))) in
  let? config := io_map_err invalid_package (project_load directory) in
  let? _ := write_modules api_errors storage config [] (document_modules package) in
  let candidate_path := join storage "candidate.nostdb" in
  let? _ := io_map_err invalid_package (synchronize directory candidate_path) in
  let? candidate := io_map_err refused (engine_open candidate_path) in
  let* (r, candidate) := engine_adopt_server_authority candidate in
  match r with
  | Err e => let* _ := engine_close candidate in ret (Err (refused e))
  | Ok _ =>
      let* (r, candidate) := engine_checkpoint candidate in
      let* _ := engine_close candidate in
      match r with
      | Err e => ret (Err (refused e))
      | Ok _ => io_map_err fails (read candidate_path)
      end
  end.

(** [suffix] and [import_suffix] are what the two calls of [Uuid::new_v4] give;
    a failed removal of the directory is only logged. *)
Definition import_logical_package (import_suffix suffix : string) (package : LogicalPackageDocument)
    (s : AppState) : io (handled unit) :=
  let directory := join (parent (database_location s)) (".nostdb-logical-import-" +:+ import_suffix) in
  let* r := create_dir_all (join directory ".nostdb") in
  match r with
  | Err e => ret (Err (internal_error (io_text e)), s)
  | Ok _ =>
      let* r := build_package directory package in
      let* (r, s) := (match r with
                      | Err e => ret (Err e, s)
                      | Ok b => restore_snapshot suffix b s
                      end) in
      let* _ := remove_dir_all directory in
      ret (r, s)
  end.

Definition import_logical (import_suffix suffix : string) (body : bytes) (s : AppState)
    : io (handled Response) :=
  if (request_body_bytes (app_config s) <? len body)%Z then
    ret (Err (mkApiError PAYLOAD_TOO_LARGE "request_too_large"
                "logical package exceeds the configured JSON body limit"), s)
  else
    match package_from_slice body with
    | Err e => ret (Err (bad_request e), s)
    | Ok package =>
        if negb (document_package_version package =? 1)%Z then
          ret (Err (unsupported_package "logical package_version must be 1"), s)
        else if negb (document_language_version package =? 1)%Z then
          ret (Err (unsupported_package "logical language_version must be 1"), s)
        else
          let* (r, s) := import_logical_package import_suffix suffix package s in
          ret (map_ok (λ _, json_response (object [("status", Str "imported");
                 ("modules", json_int (len (document_modules package)))])) r, s)
    end.

(** ** Routes *)

(** The routes of [public_routes] and [protected_routes], with what a handler
    takes from the request, the clock and [Uuid::new_v4]. *)
Inductive Route : Type :=
| GetHealth
| GetMetrics
| PostQuery (body : bytes) (k : Clock)
| GetCatalog
| GetSchema (limit : result (option Z) string)
| GetUnresolved (limit : result (option Z) string)
| PostSession (new_id : string)
| DeleteSession (i : string)
| PostBegin (i : string)
| PostSessionQuery (i : string) (body : bytes) (k : Clock)
| PostCommit (i : string) (k : Clock)
| PostRollback (i : string)
| GetSnapshot
| PutSnapshot (suffix : string) (body : bytes)
| GetLogical
| PutLogical (import_suffix suffix : string) (body : bytes).

Definition protected (r : Route) (s : AppState) : io (handled Response) :=
  match r with
  | GetHealth => ret (Ok health, s)
  | GetMetrics => ret (metrics_handler s)
  | PostQuery body k => query_handler body k s
  | GetCatalog => catalog_handler s
  | GetSchema limit => schema_handler limit s
  | GetUnresolved limit => unresolved_handler limit s
  | PostSession new_id => ret (create_session new_id s)
  | DeleteSession i => ret (delete_session i s)
  | PostBegin i => ret (begin i s)
  | PostSessionQuery i body k => session_query i body k s
  | PostCommit i k => commit i k s
  | PostRollback i => ret (rollback i s)
  | GetSnapshot => export_snapshot s
  | PutSnapshot suffix body => import_snapshot suffix body s
  | GetLogical => export_logical s
  | PutLogical import_suffix suffix body => import_logical import_suffix suffix body s
  end.

(** [HeaderValue::to_str] gives a text when every byte is visible ASCII, a space
    or a tab. *)
Definition is_visible_ascii (b : byte) : bool :=
  ((32 <=? byte_value b) && (byte_value b <? 127) || (byte_value b =? 9))%Z.

Definition header_text (value : bytes) : option bytes :=
  if forallb is_visible_ascii value then Some value else None.

(** The [Authorization] header's key, when it is a bearer token. *)
Definition supplied_key (authorization : option bytes) : option bytes :=
  match authorization with
  | Some value =>
      match header_text value with
      | Some text => strip_bytes (String.list_byte_of_string "Bearer ") text
      | None => None
      end
  | None => None
  end.

Definition authorized (authorization : option bytes) (c : ServerConfig) : bool :=
  match supplied_key authorization with
  | Some key => Api.constant_time_equal key (api_key c)
  | None => false
  end.

(** The router: [healthz] is public, everything else goes through [authenticate]. *)
Definition serve (authorization : option bytes) (r : Route) (s : AppState)
    : io (Response * AppState) :=
  match r with
  | GetHealth => ret (health, s)
  | _ =>
      let s := count count_request s in
      if authorized authorization (app_config s) then
        let* (res, s) := protected r s in
        ret (match res with Ok response => response | Err e => into_response e end, s)
      else
        ret (into_response (mkApiError UNAUTHORIZED "unauthorized" "invalid API key"),
             count count_auth_failure s)
  end.
End admin.
