(* ===== verification/ApiProofs.v ===== *)
(** * Properties of the HTTP API

    A streamed response carries what the JSON response carries; sessions stay within their limits under every interleaving; the outcome of a query
    is reported truthfully whatever the timer does; and what its restore leaves
    after a crash. *)

From Stdlib Require Import ZArith Lia Ascii.
From stdpp Require Import base list strings gmap.
From S2P Require Import Prelude Fs Codec Catalog CatalogAtomic CatalogRecovery Wire Messages Config.
From S2P Require Import ConfigProofs Protocol Engine Daemon DaemonProofs Restore Slots RestoreProofs.
From S2P Require Import Import ImportProofs Api ApiAdmin.

Open Scope string_scope.
Open Scope list_scope.

(** ** Streamed responses *)

(** The lines of a text in which every line is ended by a newline. *)
Fixpoint lines (b : bytes) : list bytes :=
  match b with
  | [] => []
  | x :: b' =>
      if decide (x = newline) then [] :: lines b'
      else match lines b' with [] => [[x]] | l :: ls => (x :: l) :: ls end
  end.

Lemma lines_cons l b : newline ∉ l → lines (l ++ newline :: b) = l :: lines b.
Proof.
  induction l as [|x l IH]; intros Hl; simpl.
  - done.
  - rewrite decide_False by set_solver. by rewrite IH by set_solver.
Qed.

Lemma lines_chunks l :
  Forall (λ b, newline ∉ b) l → lines (concat (flat_map (λ b, [b; [newline]]) l)) = l.
Proof.
  induction 1 as [|b l Hb _ IH]; [done|]. simpl. by rewrite lines_cons, IH.
Qed.

(** A row of the JSON response, keyed by its columns; a missing cell is null. *)
Definition keyed (cols : list string) (cells : list Value) : Value :=
  object (imap (λ i c, (c, default Null (cells !! i))) cols).

Lemma row_pairs_imap n cols row :
  row_pairs n cols row
  = imap (λ i c, (c, default Null (map query_value_json row !! (n + i)))) cols.
Proof.
  revert n. induction cols as [|c cols IH]; intros n; [done|]. simpl. rewrite IH. f_equal.
  - rewrite Nat.add_0_r, list_lookup_fmap. by destruct (row !! n).
  - apply imap_ext. intros i c' _. simpl. by rewrite Nat.add_succ_r.
Qed.

Lemma row_object_keyed cols row : row_object cols row = keyed cols (map query_value_json row).
Proof. unfold row_object, keyed. by rewrite row_pairs_imap. Qed.

(** Compact JSON has no line break: white space is not written and control
    characters in strings are escaped. *)
Class HttpCodecLaws `{!HttpCodec} : Prop := {
  value_to_vec_line v b : value_to_vec v = Ok b → newline ∉ b
}.

Section streaming.
Context `{!HttpCodec, !HttpCodecLaws}.

Lemma encode_rows cols l bs :
  collect (map (λ row, map_err internal_error (value_to_vec (row_object cols row))) l) = Ok bs →
  Forall2 (λ b v, value_to_vec v = Ok b) bs (map (keyed cols) (map (map query_value_json) l)).
Proof.
  revert bs. induction l as [|row l IH]; intros bs; simpl; [by intros [= <-]|].
  rewrite row_object_keyed. destruct (value_to_vec _) as [b|] eqn:Hb; simpl; [|done].
  destruct (collect _) as [bs'|] eqn:Hbs; simpl; [|done]. intros [= <-]. constructor; [done|by apply IH].
Qed.

Lemma encode_rows_error cols l e :
  collect (map (λ row, map_err internal_error (value_to_vec (row_object cols row))) l) = Err e →
  ∃ v text, value_to_vec v = Err text ∧ e = internal_error text.
Proof.
  induction l as [|row l IH]; simpl; [done|].
  destruct (value_to_vec _) as [b|text] eqn:Hb; simpl; [|intros [= <-]; eauto].
  destruct (collect _); simpl; [done|]. intros [= <-]. by apply IH.
Qed.

Lemma encoded_lines bs vs :
  Forall2 (λ b v, value_to_vec v = Ok b) bs vs → Forall (λ b, newline ∉ b) bs.
Proof. induction 1; constructor; [by eapply value_to_vec_line|done]. Qed.

(** C18: A streamed response carries what the JSON response carries.  The lines
    of the stream are one header and one line per row, in order: the header
    encodes the [columns] and [ordered] members of the JSON response, and the
    line of a row encodes the object that gives each column the cell the JSON
    response lists at its position.  Streaming fails only with an internal error
    whose text is that of a value that could not be encoded, and a write is
    answered alike in both modes. *)
Theorem stream_matches_json :
  (∀ q, match response (Read q) true with
        | Ok r =>
            ∃ chunks cols order cells,
              r = mkResponse OK (StreamBody chunks)
              ∧ response (Read q) false
                = Ok (json_response (object [("kind", Str "read");
                        ("result", object [("columns", Array (map Str cols));
                                           ("rows", Array (map Array cells));
                                           ("ordered", Bool order)])]))
              ∧ Forall2 (λ b v, value_to_vec v = Ok b) (lines (concat chunks))
                  (object [("columns", Array (map Str cols)); ("ordered", Bool order)]
                   :: map (keyed cols) cells)
        | Err e => ∃ v text, value_to_vec v = Err text ∧ e = internal_error text
        end)
  ∧ (∀ w, response (Write w) true = response (Write w) false).
Proof.
  split; [|done]. intros q. simpl. unfold stream_chunks.
  destruct (value_to_vec (object _)) as [h|] eqn:Hh; simpl; [|eauto].
  destruct (collect _) as [bs|] eqn:Hbs; simpl; [|by eapply encode_rows_error].
  eexists _, (columns q), (ordered q), (map (map query_value_json) (rows q)).
  split_and!; [done|by rewrite map_map|].
  assert (Forall2 (λ b v, value_to_vec v = Ok b) (h :: bs)
    (object [("columns", Array (map Str (columns q))); ("ordered", Bool (ordered q))]
     :: map (keyed (columns q)) (map (map query_value_json) (rows q)))) as Hall
    by (constructor; [done|by apply encode_rows]).
  change (concat _) with (concat (flat_map (λ b, [b; [newline]]) (h :: bs))).
  rewrite lines_chunks; [done|by eapply encoded_lines].
Qed.
End streaming.

(** ** Errors of the database *)

Lemma strip_string_app p s : strip_string p (p +:+ s) = Some s.
Proof. induction p as [|a p IH]; simpl; [done|]. by rewrite Ascii.eqb_refl. Qed.

(** The response a database error stands for. *)
Definition error_response (e : DatabaseError) : ApiError :=
  match e with
  | QueryFailure true text => mkApiError TOO_MANY_REQUESTS "resource_limit" text
  | QueryFailure false text => mkApiError BAD_REQUEST "query_error" text
  | StorageFailure _ text => mkApiError INTERNAL_SERVER_ERROR "database_error" text
  end.

Lemma database_message_failure e : database_message (failure_text e) = error_response e.
Proof.
  destruct e as [[]|]; unfold failure_text, database_message, error_response.
  - by rewrite (strip_string_app "resource_limit|").
  - assert (strip_string "resource_limit|" ("query_error|" +:+ text) = None) as -> by done.
    by rewrite (strip_string_app "query_error|").
  - assert (strip_string "resource_limit|" ("database_error|" +:+ text) = None) as -> by done.
    assert (strip_string "query_error|" ("database_error|" +:+ text) = None) as -> by done.
    by rewrite (strip_string_app "database_error|").
Qed.

Section api.
Context `{!Engine, !Listings, !Projects, !FloatCast, !PrepareWrite, !Prepare, !HttpCodec}.
Implicit Types (s : AppState).

(** The engine is reached: there is a database, the lock is sound, the worker
    started in time and does not panic. *)
Record reached timeout (k : Clock) s db : Prop := {
  re_database : app_database s = Some db;
  re_lock : lock_poisoned s = false;
  re_started : has_deadline k && (timeout <=? waited k)%Z = false;
  re_finished : panics k = None
}.

(** C13: A query's outcome is reported truthfully.  When the engine was reached, a
    result it returned (and so a write it committed) is the response also when
    the timer fired first, never a timeout; an error it returned is a timeout
    exactly when its text says that the execution was cancelled, and otherwise
    the status, code and text of that error; the database handle the engine
    gave back is kept. *)
Theorem outcome_reported {A} timeout k message
    (run : bool → edb → io (result A DatabaseError * edb)) s db w res db' w' :
  reached timeout k s db →
  run (timer_fires timeout k && notices k) db w = (Some (res, db'), w') →
  ∃ s', await_worker timeout k message run s w
        = (Some (match res with
                 | Ok v => Ok v
                 | Err e => if contains cancelled_text (failure_text e)
                            then Err (mkApiError REQUEST_TIMEOUT "query_timeout" message)
                            else Err (error_response e)
                 end, s'), w')
        ∧ app_database s' = Some db' ∧ app_sessions s' = app_sessions s.
Proof.
  intros [Hdb Hl Hst Hp] Hrun. unfold await_worker, worker, bind. simpl.
  rewrite Hst, Hl, Hdb. simpl. rewrite Hrun, Hp. simpl.
  destruct res as [v|e]; simpl; [destruct (timer_fires timeout k); by eexists|].
  rewrite database_message_failure.
  destruct (timer_fires timeout k), (contains cancelled_text (failure_text e)); by eexists.
Qed.

(** ** Sessions *)

(** The sections of the handlers that hold the lock of the sessions, and
    everything that does not touch the sessions. *)
Inductive segment : Type :=
| SCreate (new_id : string)
| SDelete (i : string)
| SBegin (i : string)
| SQueue (i : string) (r : QueryRequest) (ps : Parameters)
| STake (i : string)
| SOther (db : option edb) (poisoned : bool) (m : Metrics).

Definition run_segment (x : segment) s : AppState :=
  match x with
  | SCreate new_id => (create_session new_id s).2
  | SDelete i => (delete_session i s).2
  | SBegin i => (begin i s).2
  | SQueue i r ps => match queue_query i r ps s with Some h => h.2 | None => s end
  | STake i => (take_transaction i s).2
  | SOther db poisoned m => mkAppState db poisoned (app_sessions s) m (app_config s)
  end.

(** A statement the engine can prepare. *)
Definition supported (q : string) : Prop := is_err (prepare q) = false ∨ prepare_write_ok q = true.

(** Sessions and transactions within their limits, every queued statement
    supported. *)
Definition session_ok (c : ServerConfig) (x : Session) : Prop :=
  match transaction_statements x with
  | None => True
  | Some l => (len l <= server_max_statements c)%Z ∧ Forall (λ '(q, _), supported q) l
  end.

Definition sessions_ok s : Prop :=
  (Z.of_nat (size (app_sessions s)) <= server_max_sessions (app_config s))%Z
  ∧ map_Forall (λ _ x, session_ok (app_config s) x) (app_sessions s).

Lemma sessions_ok_update i x old s :
  sessions_ok s → app_sessions s !! i = Some old → session_ok (app_config s) x →
  sessions_ok (with_sessions (<[i := x]> (app_sessions s)) s).
Proof.
  intros [Hn Hall] Hi Hx. split; simpl.
  - rewrite map_size_insert_Some; [done|by eexists].
  - by apply map_Forall_insert_2.
Qed.

Lemma run_segment_ok x s :
  (0 <= server_max_statements (app_config s))%Z →
  sessions_ok s → sessions_ok (run_segment x s) ∧ app_config (run_segment x s) = app_config s.
Proof.
  intros Hpos Hs. pose proof Hs as [Hn Hall]. destruct x as [n|i|i|i r ps|i|db p m]; simpl.
  - unfold create_session. destruct (Z.leb_spec (server_max_sessions (app_config s))
      (Z.of_nat (size (app_sessions s)))) as [|Hlt]; simpl; [done|]. split; [|done]. split; simpl.
    + rewrite map_size_insert. destruct (app_sessions s !! n); simpl; lia.
    + by apply map_Forall_insert_2.
  - unfold delete_session. destruct (app_sessions s !! i); simpl; [|done]. split; [|done]. split; simpl.
    + rewrite map_size_delete. destruct (app_sessions s !! i); simpl; lia.
    + by apply map_Forall_delete.
  - unfold begin. destruct (app_sessions s !! i) as [[[|]]|] eqn:Hi; simpl; try done.
    split; [|done]. by eapply sessions_ok_update.
  - unfold queue_query. destruct (app_sessions s !! i) as [[[l|]]|] eqn:Hi; simpl; try done.
    destruct (request_limits r); simpl; [done|].
    destruct (Z.leb_spec (server_max_statements (app_config s)) (len l)); simpl; [done|].
    destruct (is_err (prepare (request_query r)) && negb (prepare_write_ok (request_query r))) eqn:Hp;
      simpl; [done|]. split; [|done]. eapply sessions_ok_update; [done..|].
    pose proof (Hall i _ Hi) as Hok. unfold session_ok in *. simpl in *.
    unfold len in *. rewrite length_app. simpl. split; [lia|]. apply Forall_app. split; [apply Hok|].
    constructor; [|done]. apply andb_false_iff in Hp as [Hp|Hp%negb_false_iff]; [by left|by right].
  - unfold take_transaction. destruct (app_sessions s !! i) as [[[|]]|] eqn:Hi; simpl; try done.
    split; [|done]. by eapply sessions_ok_update.
  - done.
Qed.

(** C14: Sessions stay within their limits under every interleaving.  However the
    locked sections of concurrent requests interleave, and whatever happens to
    the database in between: there are never more sessions than configured, no
    transaction holds more statements than configured, and every statement
    queued is one the engine can prepare. *)
Theorem sessions_invariant xs s :
  (0 <= server_max_statements (app_config s))%Z → app_sessions s = ∅ →
  (0 <= server_max_sessions (app_config s))%Z →
  sessions_ok (foldl (λ s x, run_segment x s) s xs).
Proof.
  intros Hpos Hempty Hmax.
  assert (sessions_ok s) as Hs.
  { split; rewrite Hempty; [by rewrite map_size_empty|apply map_Forall_empty]. }
  clear Hempty Hmax. revert s Hpos Hs. induction xs as [|x xs IH]; intros s Hpos Hs; simpl; [done|].
  destruct (run_segment_ok x s Hpos Hs) as [Hs' Hc]. apply IH; [by rewrite Hc|done].
Qed.

(** ** Authentication *)

Lemma strip_bytes_Some p v key : strip_bytes p v = Some key ↔ v = p ++ key.
Proof.
  revert v key. induction p as [|x p IH]; intros v key; simpl; [naive_solver|].
  destruct v as [|y v]; [naive_solver|]. case_decide; [|naive_solver]. subst. rewrite IH. naive_solver.
Qed.

(** The header that carries a key. *)
Definition bearer (key : bytes) : bytes := String.list_byte_of_string "Bearer " ++ key.

Lemma authorized_exact authorization c :
  authorized authorization c = true ↔
  authorization = Some (bearer (api_key c)) ∧ forallb is_visible_ascii (api_key c) = true.
Proof.
  unfold authorized, supplied_key, header_text. destruct authorization as [v|]; [|naive_solver].
  assert (∀ key, forallb is_visible_ascii (bearer key) = forallb is_visible_ascii key) as Hv by done.
  destruct (forallb is_visible_ascii v) eqn:Hvis.
  - destruct (strip_bytes (String.list_byte_of_string "Bearer ") v) as [key|] eqn:Hk.
    + apply strip_bytes_Some in Hk as ->. change (Config.constant_time_equal key (api_key c) = true ↔
        Some (bearer key) = Some (bearer (api_key c)) ∧ forallb is_visible_ascii (api_key c) = true).
      rewrite constant_time_equal_spec. split; [by intros <-|]. by intros [[= ->] _].
    + split; [done|]. intros [[= ->] _]. assert (strip_bytes (String.list_byte_of_string "Bearer ") (bearer (api_key c)) = Some (api_key c))
        by (by apply strip_bytes_Some). congruence.
  - split; [done|]. intros [[= ->] Hkey]. rewrite Hv in Hvis. congruence.
Qed.

(** C15: Without the key nothing happens.  A request to any route but [healthz]
    whose [Authorization] header is not exactly [Bearer] and the configured key
    is answered with 401; it reaches neither the file system nor the database
    nor the sessions, only the two counters change; with the key the request is
    handled.  A configured key that is not visible ASCII cannot be carried by
    the header: then every request is refused. *)
Theorem unauthorized_changes_nothing cwd authorization r s w :
  r ≠ GetHealth →
  let refused := (Some (into_response (mkApiError UNAUTHORIZED "unauthorized" "invalid API key"),
                        count count_auth_failure (count count_request s)), w) in
  let readable := forallb is_visible_ascii (api_key (app_config s)) in
  (authorization ≠ Some (bearer (api_key (app_config s))) → serve cwd authorization r s w = refused)
  ∧ (readable = false → serve cwd authorization r s w = refused)
  ∧ (authorization = Some (bearer (api_key (app_config s))) → readable = true →
     serve cwd authorization r s
     = (let* (res, s') := protected cwd r (count count_request s) in
        ret (match res with Ok response => response | Err e => into_response e end, s'))).
Proof.
  intros Hr refused readable. pose proof (authorized_exact authorization (app_config s)) as Hauth.
  assert (authorized authorization (app_config s) = false → serve cwd authorization r s w = refused) as Hno.
  { intros Hf. unfold serve. destruct r; try done; simpl; by rewrite Hf. }
  split_and!.
  - intros Ha. apply Hno, not_true_iff_false. rewrite Hauth. by intros [].
  - intros Hk. apply Hno, not_true_iff_false. rewrite Hauth. intros [_ Hk']. unfold readable in Hk. congruence.
  - intros Ha Hk. assert (authorized authorization (app_config s) = true) as Ht by (by apply Hauth).
    unfold serve. destruct r; try done; simpl; by rewrite Ht.
Qed.

(** ** A database that was taken out *)

(** The handler ends without a database, if it ends. *)
Definition stays_lost {A} (c : io (handled A)) : Prop :=
  ∀ w h w', c w = (Some h, w') → app_database h.2 = None.

Lemma stays_lost_ret {A} (h : handled A) : app_database h.2 = None → stays_lost (ret h).
Proof. intros Hh w h' w' [= <- _]. done. Qed.

Lemma stays_lost_bind {A B} (c : io B) (k : B → io (handled A)) :
  (∀ b, stays_lost (k b)) → stays_lost (bind c k).
Proof.
  intros Hk w h w'. unfold bind. destruct (c w) as [[b|] w1]; [|done]. apply Hk.
Qed.

Lemma stays_lost_then {A B} (c : io (handled B)) (k : handled B → io (handled A)) :
  stays_lost c → (∀ h, app_database h.2 = None → stays_lost (k h)) → stays_lost (bind c k).
Proof.
  intros Hc Hk w h w'. unfold bind. destruct (c w) as [[b|] w1] eqn:Hrun; [|done].
  apply Hk. by eapply Hc.
Qed.

Lemma await_lost {A} timeout k m (run : bool → edb → io (result A DatabaseError * edb)) s :
  app_database s = None → stays_lost (await_worker timeout k m run s).
Proof.
  intros Hs w h w'. unfold await_worker, worker, bind. simpl. rewrite Hs.
  destruct (has_deadline k && (timeout <=? waited k)%Z); simpl;
    [|destruct (lock_poisoned s)]; simpl; intros [= <- _]; by destruct (timer_fires timeout k).
Qed.

Lemma run_query_lost q ps k s : app_database s = None → stays_lost (run_query q ps k s).
Proof.
  intros Hs. unfold run_query. destruct (effective_limits _ _) as [[lim t]|]; [|by apply stays_lost_ret].
  apply stays_lost_then; [by apply await_lost|]. intros [res s'] Hs'. by apply stays_lost_ret.
Qed.

Lemma guarded_lost s (f : edb → io (result Value string)) :
  app_database s = None → stays_lost (guarded s f).
Proof. intros Hs. apply stays_lost_bind. intros r. by apply stays_lost_ret. Qed.

Lemma restore_lost cwd suffix body s :
  app_database s = None → stays_lost (restore_snapshot cwd suffix body s).
Proof.
  intros Hs. apply stays_lost_then.
  - unfold restore_upload. apply stays_lost_bind. intros [[]|e]; [|by apply stays_lost_ret].
    destruct (lock_poisoned s); [by apply stays_lost_ret|]. rewrite Hs. by apply stays_lost_ret.
  - intros [r s'] Hs'. do 2 (apply stays_lost_bind; intros ?). by apply stays_lost_ret.
Qed.

Lemma import_lost cwd i1 i2 body s :
  app_database s = None → stays_lost (import_logical cwd i1 i2 body s).
Proof.
  intros Hs. unfold import_logical. case_match; [by apply stays_lost_ret|].
  destruct (package_from_slice body) as [p|]; [|by apply stays_lost_ret].
  do 2 (case_match; [by apply stays_lost_ret|]). apply stays_lost_then.
  - unfold import_logical_package. apply stays_lost_bind. intros [[]|e]; [|by apply stays_lost_ret].
    apply stays_lost_bind. intros [b|e]; apply stays_lost_then.
    + by apply restore_lost.
    + intros [r s'] Hs'. apply stays_lost_bind. intros _. by apply stays_lost_ret.
    + by apply stays_lost_ret.
    + intros [r s'] Hs'. apply stays_lost_bind. intros _. by apply stays_lost_ret.
  - intros [r s'] Hs'. by apply stays_lost_ret.
Qed.

Lemma protected_lost cwd r s : app_database s = None → stays_lost (protected cwd r s).
Proof.
  intros Hs. destruct r; simpl; try (by apply stays_lost_ret).
  - unfold query_handler. destruct (accept_query _ _) as [[q ps]|]; [by apply run_query_lost|by apply stays_lost_ret].
  - by apply guarded_lost.
  - unfold schema_handler. destruct limit; [by apply guarded_lost|by apply stays_lost_ret].
  - unfold unresolved_handler. destruct limit; [by apply guarded_lost|by apply stays_lost_ret].
  - apply stays_lost_ret. unfold create_session. by case_match.
  - apply stays_lost_ret. unfold delete_session. by case_match.
  - apply stays_lost_ret. unfold begin. by repeat case_match.
  - unfold session_query. destruct (accept_query _ _) as [[q ps]|]; [|by apply stays_lost_ret].
    destruct (queue_query i q ps s) as [h|] eqn:Hq; [|by apply run_query_lost].
    apply stays_lost_ret. revert Hq. unfold queue_query. repeat case_match; intros [= <-]; done.
  - unfold commit, take_transaction. destruct (app_sessions s !! i) as [[[l|]]|]; try (by apply stays_lost_ret).
    apply stays_lost_then; [by apply await_lost|]. intros [res s'] Hs'. by apply stays_lost_ret.
  - apply stays_lost_ret. unfold rollback, take_transaction. by destruct (app_sessions s !! i) as [[[|]]|].
  - unfold export_snapshot. rewrite Hs. case_match; by apply stays_lost_ret.
  - unfold import_snapshot. destruct body; [by apply stays_lost_ret|].
    apply stays_lost_then; [by apply restore_lost|]. intros [[[]|e] s'] Hs'; by apply stays_lost_ret.
  - unfold export_logical. apply stays_lost_bind. intros r. by apply stays_lost_ret.
  - by apply import_lost.
Qed.

Lemma serve_lost cwd authorization r s w res s' w' :
  app_database s = None → serve cwd authorization r s w = (Some (res, s'), w') →
  app_database s' = None.
Proof.
  intros Hs. pose proof (protected_lost cwd r (count count_request s) Hs) as Hp. unfold serve, bind.
  destruct r; try (by intros [= _ <- _]); (case_match; [|by intros [= _ <- _]]);
    match goal with |- context [protected cwd ?x ?y ?z] =>
      destruct (protected cwd x y z) as [[[ro so]|] wo] eqn:Hrun end;
    intros [= _ -> _]; by apply Hp in Hrun.
Qed.

(** A sequence of requests and their responses. *)
Fixpoint serve_all (cwd : path) (l : list (option bytes * Route)) (s : AppState)
    : io (list Response * AppState) :=
  match l with
  | [] => ret ([], s)
  | (authorization, r) :: l' =>
      let* (res, s) := serve cwd authorization r s in
      let* (out, s) := serve_all cwd l' s in
      ret (res :: out, s)
  end.

Lemma serve_all_lost cwd l s w out s' w' :
  app_database s = None → serve_all cwd l s w = (Some (out, s'), w') → app_database s' = None.
Proof.
  revert s w out. induction l as [|[authorization r] l IH]; intros s w out Hs; simpl; [by intros [= _ <- _]|].
  unfold bind. destruct (serve cwd authorization r s w) as [[[res s1]|] w1] eqn:Hrun; [|done].
  apply serve_lost in Hrun; [|done].
  destruct (serve_all cwd l s1 w1) as [[[out1 s2]|] w2] eqn:Hall; [|done]. intros [= _ -> ->].
  by eapply IH.
Qed.

(** The checkpoint of the current database fails in a restore. *)
Lemma restore_loses target temporary backup body s current w w1 e db w2 w3 :
  prepare_upload temporary body w = (Some (Ok tt), w1) → lock_poisoned s = false →
  app_database s = Some current → engine_checkpoint current w1 = (Some (Err e, db), w2) →
  engine_close db w2 = (Some tt, w3) →
  restore_upload target temporary backup body s w
  = (Some (Err (snapshot_incompatible (database_error_text e)), with_db None s), w3).
Proof.
  intros Hprep Hl Hdb Hck Hclose. unfold restore_upload, bind. by rewrite Hprep, Hl, Hdb, Hck, Hclose.
Qed.

(** C38: An upload can lose the server its database until a restart.  When the
    uploaded snapshot is sound but the checkpoint of the current database fails,
    the upload is answered with 422 and the server is left without a database,
    although the database's file was not touched by the restore; whatever
    requests follow, in whatever worlds, the server never has a database again. *)
Theorem lost_database_stays_lost cwd authorization suffix body s current w w1 e db w2 w3 :
  authorized authorization (app_config s) = true → body ≠ [] →
  lock_poisoned s = false → app_database s = Some current →
  prepare_upload (import_file (database_location cwd s) suffix) body w = (Some (Ok tt), w1) →
  engine_checkpoint current w1 = (Some (Err e, db), w2) →
  engine_close db w2 = (Some tt, w3) → w_faults w3 = [] →
  ∃ s' w', serve cwd authorization (PutSnapshot suffix body) s w
           = (Some (into_response (snapshot_incompatible (database_error_text e)), s'), w')
  ∧ app_database s' = None
  ∧ same_except [import_file (database_location cwd s) suffix] (w_fs w3) (w_fs w')
  ∧ ∀ requests v out s'' v',
      serve_all cwd requests s' v = (Some (out, s''), v') → app_database s'' = None.
Proof.
  intros Hauth Hbody Hl Hdb Hprep Hck Hclose Hf.
  set (t := import_file (database_location cwd s) suffix) in *.
  set (s1 := with_db None (count count_request s)).
  pose proof (restore_loses (database_location cwd s) t (backup_copy (database_location cwd s) suffix)
    body (count count_request s) current w w1 e db w2 w3 Hprep Hl Hdb Hck Hclose) as Hrun.
  assert (∃ w', (let* left_over := query (λ fs, exists_ fs t) in
      let* _ := (if (left_over : bool) then remove_file t else ret (Ok tt)) in
      ret (Err (snapshot_incompatible (database_error_text e)) : result unit ApiError, s1)) w3
      = (Some (Err (snapshot_incompatible (database_error_text e)), s1), w')
      ∧ same_except [t] (w_fs w3) (w_fs w')) as (w' & Hclean & Hsame).
  { unfold bind, query. destruct (exists_ (w_fs w3) t); [|eexists; split; [done|apply same_except_refl]].
    unfold remove_file, atomic, syscall. rewrite Hf. unfold do_remove_file.
    destruct (w_fs w3 !! t) as [[]|]; (eexists; split; [done|]); simpl; auto with nostdb. }
  exists s1, w'. split_and!;
    [|done|done|intros requests v out s2 v' Hall; by apply (serve_all_lost cwd requests s1 v out s2 v')].
  unfold serve. change (app_config (count count_request s)) with (app_config s). rewrite Hauth.
  simpl. unfold import_snapshot. destruct body as [|b0 body]; [done|].
  unfold restore_snapshot at 1. change (database_location cwd (count count_request s)) with (database_location cwd s).
  unfold bind at 1. unfold bind at 1. unfold bind at 1. fold t. rewrite Hrun. fold s1.
  unfold bind in Hclean |- *. by rewrite Hclean.
Qed.
End api.

(** ** A concrete server *)

Module Served.
Import Toy RestoreProofs.Concrete Project.

#[local] Instance listings : @Listings engine := {|
  engine_schemas _ := ret (Ok []);
  engine_unresolved _ := ret (Ok [])
|}.
#[local] Instance float_cast : FloatCast := {| int_as_f64 z := z |}.
#[local] Instance prepare_write : PrepareWrite := {| prepare_write_ok s := String.eqb s "CREATE ()" |}.
#[local] Instance prepares : Prepare :=
  {| prepare s := if String.eqb s "RETURN 1" then Ok tt else Err "not a read" |}.
(** A printer of one line: strings in quotes, raw line breaks dropped. *)
Fixpoint print_value (v : Value) : string :=
  match v with
  | Null => "null"
  | Bool b => if b then "true" else "false"
  | Num (PosInt z | NegInt z | Flt z) => show z
  | Str s => "'" +:+ s +:+ "'"
  | Array l => "[" +:+ String.concat "," (map print_value l) +:+ "]"
  | Object l =>
      "{" +:+ String.concat "," (map (λ '(k, v), k +:+ ":" +:+ print_value v) l) +:+ "}"
  end.

#[local] Instance http_codec : HttpCodec := {|
  query_request_from_slice _ := Err "unreadable";
  package_from_slice _ := Err "unreadable";
  value_to_vec v := Ok (filter (λ b, b ≠ newline) (String.list_byte_of_string (print_value v)))
|}.

#[local] Instance http_codec_laws : HttpCodecLaws.
Proof. split. intros v b [= <-] [? _]%list_elem_of_filter. done. Qed.

(** Two rows, one of them short. *)
Definition table : QueryResult :=
  mkQueryResult ["n"; "m"] [[QInteger 1; QString "a"]; [QInteger 2]] true.

Definition table_stream : list string :=
  ["{columns:['n','m'],ordered:true}"; "{m:'a',n:1}"; "{m:null,n:2}"].

Lemma stream_matches_json_witness :
  ∃ chunks, response (Read table) true = Ok (mkResponse OK (StreamBody chunks))
  ∧ lines (concat chunks) = map String.list_byte_of_string table_stream.
Proof.
  pose proof (proj1 stream_matches_json table) as Hs.
  destruct (response (Read table) true) as [r|e] eqn:Hr; [|vm_compute in Hr; discriminate Hr].
  destruct Hs as (chunks & cols & order & cells & -> & _ & _). exists chunks. split; [done|].
  vm_compute in Hr. injection Hr as <-. vm_compute. reflexivity.
Defined.

Definition key : bytes := String.list_byte_of_string "k".
Definition file : path := ["srv"; "main.nostdb"].
Definition settings : ServerConfig :=
  mkServerConfig (mkPathBuf true file) key (mkQueryLimits 1 1 1 1) 10 100 100 1 1.
Definition state : AppState := mkAppState (Some file) false ∅ metrics_default settings.

(** The timer fires, but the write was done and is not cancelled any more. *)
Definition late : Clock := mkClock true 0 20 false None.

Lemma outcome_reported_witness :
  ∃ s', execute_one "CREATE ()" [] (mkQueryLimits 1 1 1 1) 10 late state (fresh ∅ 18)
        = (Some (Ok (Read (mkQueryResult [] [] true)), s'), fresh ∅ 18)
        ∧ app_database s' = Some file ∧ app_sessions s' = app_sessions state.
Proof.
  exact (outcome_reported 10 late "query exceeded the configured wall-clock timeout"
    (λ cancelled db, engine_execute_limited db "CREATE ()" [] (mkQueryLimits 1 1 1 1) cancelled)
    state file (fresh ∅ 18) (Ok (Read (mkQueryResult [] [] true))) file (fresh ∅ 18)
    ltac:(by split) eq_refl).
Defined.

(** A second session and a second statement are refused. *)
Definition statement_of (s : string) : QueryRequest := mkQueryRequest s [] false false None.

Definition history : list segment :=
  [SCreate "a"; SCreate "b"; SBegin "a"; SQueue "a" (statement_of "CREATE ()") [];
   SQueue "a" (statement_of "RETURN 1") []; SOther None true metrics_default; STake "a"; SDelete "a"].

Lemma sessions_invariant_witness :
  sessions_ok (foldl (λ s x, run_segment x s) state history)
  ∧ app_sessions (foldl (λ s x, run_segment x s) state (take 5 history))
    = {["a" := mkSession (Some [("CREATE ()", [])])]}.
Proof.
  split; [|vm_compute; reflexivity].
  apply (sessions_invariant history state); [discriminate|reflexivity|discriminate].
Defined.

Lemma unauthorized_changes_nothing_witness :
  serve [] (Some (String.list_byte_of_string "Bearer x")) GetMetrics state (fresh ∅ 18)
  = (Some (into_response (mkApiError UNAUTHORIZED "unauthorized" "invalid API key"),
           count count_auth_failure (count count_request state)), fresh ∅ 18).
Proof.
  pose proof (unauthorized_changes_nothing [] (Some (String.list_byte_of_string "Bearer x")) GetMetrics state
    (fresh ∅ 18) ltac:(discriminate)) as [Hu _]. apply Hu. discriminate.
Defined.

End Served.

(** A server whose current database cannot be checkpointed. *)

Module Losing.
Import Toy Served.

Definition sick : Engine := {|
  edb := path;
  edb_path p := p;
  engine_create := create;
  engine_open := open;
  engine_close _ := ret tt;
  engine_checkpoint p :=
    ret (if decide (p = file) then Err (StorageFailure false "disk full") else Ok tt, p);
  engine_adopt_server_authority p := ret (Ok tt, p);
  engine_info _ := ret (Ok (mkDatabaseInfo 1 1 1 1 1 0 false));
  engine_counts _ := ret (Ok (mkDatabaseCounts 0 0 0 0 0));
  engine_check := check;
  engine_execute_limited p _ _ _ _ := ret (Ok (Read (mkQueryResult [] [] true)), p);
  engine_execute_transaction_limited p _ _ _ := ret (Ok [], p);
  engine_export_logical _ := ret (Ok (mkLogicalPackage 1 "{}" []))
|}.

Definition sick_listings : @Listings sick := {|
  engine_schemas _ := ret (Ok []);
  engine_unresolved _ := ret (Ok [])
|}.
#[local] Existing Instance sick.
#[local] Existing Instance sick_listings.
#[local] Existing Instance Served.float_cast.
#[local] Existing Instance Served.prepare_write.
#[local] Existing Instance Served.prepares.
#[local] Existing Instance Served.http_codec.
#[local] Existing Instance Project.projects.

Definition sick_state : @AppState sick :=
  @mkAppState sick (Some (file : @edb sick)) false ∅ metrics_default settings.

Definition disk : fsys := {[ ["srv"] := NDir; file := NFile default_mode [x01] ]}.
Definition uploaded : world := (prepare_upload (import_file file "u1") [x01; x20] (fresh disk 18)).2.

(** The upload is refused, and the catalog is not served any more. *)
Lemma lost_database_stays_lost_witness :
  ∃ s' w', serve [] (Some (bearer key)) (PutSnapshot "u1" [x01; x20]) sick_state (fresh disk 18)
           = (Some (into_response (snapshot_incompatible "disk full"), s'), w')
  ∧ app_database s' = None
  ∧ (∀ out s'' v', serve_all [] [(Some (bearer key), GetCatalog)] s' w' = (Some (out, s''), v') →
       app_database s'' = None).
Proof.
  destruct (lost_database_stays_lost [] (Some (bearer key)) "u1" [x01; x20] sick_state file
    (fresh disk 18) uploaded (StorageFailure false "disk full") file uploaded uploaded)
    as (s' & w' & Hrun & Hdb & _ & Hlater); [vm_compute; (reflexivity || discriminate)..|].
  exists s', w'. split; [exact Hrun|]. split; [exact Hdb|]. intros out s'' v'. apply Hlater.
Defined.
End Losing.
