(* ===== verification/ApiRestore.v ===== *)
(** * Restoring a snapshot over HTTP

    [restore_snapshot] of [src/src/api.rs] uses no journal: what it leaves when
    it returns and when the process dies in it, and what the next start makes
    of that. *)

From Stdlib Require Import ZArith Lia Ascii.
From stdpp Require Import base list strings gmap.
From S2P Require Import Prelude Fs Codec Catalog CatalogAtomic CatalogRecovery Wire Messages Config.
From S2P Require Import ConfigProofs Protocol Engine Daemon DaemonProofs Restore Slots RestoreProofs.
From S2P Require Import Import ImportProofs Api ApiAdmin.

Open Scope string_scope.
Open Scope list_scope.

(** ** The names of the files *)

(** [str::rsplit] at the last dot: what follows it has no dot. *)
Lemma rsplit_dot_last s stem ext : rsplit_dot s = Some (stem, ext) → rsplit_dot ext = None.
Proof.
  revert stem. induction s as [|a s IH]; intros stem; simpl; [done|].
  destruct (rsplit_dot s) as [[stem' e]|] eqn:Hs; [intros [= <- <-]; by eapply IH|].
  case_match; [|done]. by intros [= <- <-].
Qed.

Lemma rsplit_dot_dot a b : rsplit_dot (a +:+ String "." b) ≠ None.
Proof.
  induction a as [|x a IH]; simpl.
  - destruct (rsplit_dot b) as [[]|]; discriminate.
  - destruct (rsplit_dot (a +:+ String "." b)) as [[]|]; [discriminate|by destruct IH].
Qed.

(** A file name is its stem, or its stem with an extension that has no dot. *)
Lemma file_stem_spec name :
  name = file_stem name ∨ ∃ ext, name = file_stem name +:+ String "." ext ∧ rsplit_dot ext = None.
Proof.
  unfold file_stem. destruct (rsplit_dot name) as [[[|a stem] ext]|] eqn:Hs; [by left| |by left].
  right. exists ext. split; [by apply rsplit_dot_eq|by eapply rsplit_dot_last].
Qed.

Lemma append_assoc (s t u : string) : (s +:+ t) +:+ u = s +:+ (t +:+ u).
Proof. induction s as [|a s IH]; [done|]. exact (f_equal (String a) IH). Qed.

Lemma append_cancel s t u : s +:+ t = s +:+ u → t = u.
Proof. apply (inj (String.append s)). Qed.

(** The files of a restore: [Journal] stands for none. *)
Definition http_slot_tag (s : slot) : ascii * string :=
  match s with
  | Target => ("t"%char, "")
  | Candidate => ("i"%char, "mport-")
  | Backup => ("b"%char, "ackup-")
  | Journal => ("n"%char, "one-")
  end.

Definition http_slot_name (name suffix : string) (s : slot) : string :=
  match s with
  | Target => name
  | _ => let '(c, t) := http_slot_tag s in
         file_stem name +:+ String "." ("ndb" +:+ String "." (String c (t +:+ suffix)))
  end.

Lemma string_app_self s t : s ≠ s +:+ String "." t.
Proof. induction s as [|a s IH]; [discriminate|]. intros Heq. by injection Heq. Qed.

Section names.
Context (name suffix : string).

(** The name is not the stem with two more extensions. *)
Lemma name_not_below t : name ≠ file_stem name +:+ String "." ("ndb" +:+ String "." t).
Proof.
  destruct (file_stem_spec name) as [He|(ext & He & Hd)]; rewrite He at 1.
  - apply string_app_self.
  - intros Heq%append_cancel. assert (ext = "ndb" +:+ String "." t) as -> by congruence.
    by apply rsplit_dot_dot in Hd.
Qed.

Lemma below_not_lock c t :
  c ≠ "l"%char → file_stem name +:+ String "." ("ndb" +:+ String "." (String c t)) ≠ name +:+ ".lock".
Proof.
  intros Hc. destruct (file_stem_spec name) as [He|(ext & He & Hd)]; rewrite He at 2.
  - by intros Heq%append_cancel.
  - rewrite append_assoc. change (String "." ext +:+ ".lock") with (String "." (ext +:+ ".lock")).
    intros Heq%append_cancel.
    assert ("ndb" +:+ String "." (String c t) = ext +:+ ".lock") as Hx by congruence. clear Heq He.
    destruct ext as [|? [|? [|? [|? e]]]]; simplify_eq/=.
    by apply (rsplit_dot_dot "ndb" e).
Qed.

#[local] Instance http_slots (d : path) : Slots.
Proof.
  refine {| slot_dir := d; slot_name := http_slot_name name suffix |}.
  - intros [] [] Heq; try done; simpl in Heq; exfalso;
      first [by apply name_not_below in Heq|by symmetry in Heq; apply name_not_below in Heq|
             by apply append_cancel in Heq].
  - intros [] [] Heq; simpl in Heq;
      first [by apply string_app_self in Heq|by apply below_not_lock in Heq|
             rewrite append_assoc in Heq; first [by apply name_not_below in Heq|by apply append_cancel in Heq]].
Defined.
End names.

Section restore.
Context `{!Engine, !Snapshots, !SnapshotLaws}.
Context (cwd d : path) (name suffix : string) (body : bytes).
Implicit Types (s : AppState) (v : view) (l : logical_state).

#[local] Instance location : Slots := http_slots name suffix d.
Abbreviation slot_path := Slots.slot_path.

(** The database has content [l]; nothing else of a restore lies around. *)
Definition served v l : Prop :=
  node_logical (v_target v) = Some l ∧ v_candidate v = None ∧ v_backup v = None.

(** What a process that dies in [restore_snapshot] can leave: the old database,
    the new one, or none, with the old one under the name of the backup and the
    new one under the name of the upload. *)
Inductive interrupted v l : Prop :=
| still_old : node_logical (v_target v) = Some l → v_backup v = None → interrupted v l
| in_between l' : logical body = Some l' → v_target v = None →
    node_logical (v_backup v) = Some l → node_logical (v_candidate v) = Some l' → interrupted v l
| already_new l' : logical body = Some l' → node_logical (v_target v) = Some l' →
    v_candidate v = None → interrupted v l.

Lemma with_extension_join e : with_extension (join d name) e = join d (file_stem name +:+ "." +:+ e).
Proof. unfold with_extension. rewrite parent_join. unfold join. by rewrite last_snoc. Qed.

Lemma sound_is_file n l : node_logical n = Some l → ∃ mo b, n = Some (NFile mo b).
Proof. destruct n as [[mo b|]|]; [by eexists _, _|done..]. Qed.

Section steps.
Context (m : mode) `{!Faultless m} (fs0 : fsys).
Abbreviation wpv := (Slots.wpv (fs0:=fs0)).

Lemma prepare_upload_spec v l :
  served v l →
  wpv m (prepare_upload (slot_path Candidate) body) v
    (λ r v', ∃ mo b, v' = set Candidate (Some (NFile mo b)) v ∧ logical b = logical body
             ∧ (r = Ok tt → is_Some (logical body)))
    (λ v', interrupted v' l).
Proof.
  intros (Ht & Hc & Hb). unfold prepare_upload.
  assert (∀ n, interrupted (set Candidate n v) l) as Hint by (intros n; by apply still_old).
  intros fs Hv. apply wp_try, wp_map_err, wp_open_new;
    [by rewrite (vw_slot _ _ Hv)|unfold slot_path; rewrite parent_join; apply Hv| | |].
  - intros u. apply wp_try, wp_map_err.
    assert (∀ mo c, Slots.views (fs0:=fs0)
      (<[slot_path Candidate:=NFile mo c]> (<[slot_path Candidate:=NFile mo []]> fs))
      (set Candidate (Some (NFile mo c)) v)) as Hset.
    { intros mo c. rewrite insert_insert_eq. apply (views_set fs); [done| |by rewrite lookup_insert_eq].
      auto with nostdb. }
    eapply wp_write_all_sync; [by rewrite lookup_insert_eq|..].
    + simpl. eapply wp_mono; [apply (wpv_adopt_candidate snapshot_incompatible Candidate _ _ (Hset _ body))| |].
      * intros r fs' (v' & Hv' & n & -> & Hn & Hr). simpl in *. destruct Hn as [Hf Hn].
        destruct n as [[mo b|]|]; try done. eexists. split; [exact Hv'|]. by exists mo, b.
      * intros fs' (v' & Hv' & n & -> & Hn). eexists. split; [exact Hv'|]. apply Hint.
    + intros He. by apply no_errors.
    + intros _ n. eexists. split; [apply Hset|apply Hint].
  - intros He. by apply no_errors.
  - intros _. exists v. split; [done|]. by apply still_old.
Qed.

Lemma install_upload_spec s v l l' mo b :
  node_logical (v_target v) = Some l → v_candidate v = Some (NFile mo b) → v_backup v = None →
  logical b = logical body → logical body = Some l' →
  wpv m (install_upload (slot_path Target) (slot_path Candidate) (slot_path Backup) s) v
    (λ '(r, s') v', r = Ok tt ∧ served v' l'
       ∧ ∃ db, s' = with_db (Some db) s ∧ edb_path db = slot_path Target)
    (λ v', interrupted v' l).
Proof.
  intros Ht Hc Hb Hbody Hl'. destruct (sound_is_file _ _ Ht) as (mt & ct & Hct).
  rewrite Hct in Ht. unfold install_upload. apply wpv_bind.
  eapply (wpv_rename Target Backup); [done|exact Hct|by simpl; rewrite Hb| |by apply still_old; rewrite ?Hct].
  apply wpv_bind. simpl.
  eapply (wpv_rename Candidate Target); [done|exact Hc|done| |].
  2:{ eapply in_between; simpl; [done|done|done|]. rewrite Hc. simpl. by rewrite Hbody. }
  simpl. apply wpv_bind, (wpv_open Target); simpl.
  - intros db n Hdb Hn. apply wpv_bind.
    assert (node_logical n = Some l') as Hnl by (destruct Hn as [_ ->]; simpl; by rewrite Hbody).
    eapply (wpv_remove Backup); [done| |by eapply already_new].
    apply wpv_ret. simpl. split_and!; [done|done|by exists db].
  - intros e n Hnone. simpl in Hnone. congruence.
  - intros n Hn. eapply already_new; [done| |done]. destruct Hn as [_ Hn]. simpl in *. by rewrite Hn, Hbody.
Qed.

Lemma restore_upload_spec s current v l :
  lock_poisoned s = false → app_database s = Some current → edb_path current = slot_path Target →
  served v l →
  wpv m (restore_upload (slot_path Target) (slot_path Candidate) (slot_path Backup) body s) v
    (λ '(r, s') v', match r with
       | Ok _ => ∃ l', logical body = Some l' ∧ served v' l'
                       ∧ ∃ db, s' = with_db (Some db) s ∧ edb_path db = slot_path Target
       | Err _ => node_logical (v_target v') = Some l ∧ v_backup v' = None
                  ∧ is_Some (v_candidate v') ∧ not_dir (v_candidate v')
                  ∧ (s' = s ∨ s' = with_db None s)
       end)
    (λ v', interrupted v' l).
Proof.
  intros Hlock Hdb Hpath Hv. unfold restore_upload. apply wpv_bind.
  eapply wpv_mono; [by apply prepare_upload_spec| |done].
  destruct Hv as (Ht & Hc & Hb). intros r v' (mo & b & -> & Hlb & Hr).
  destruct r as [[]|e]; [|apply wpv_ret; simpl; split_and!; auto; done].
  destruct (Hr eq_refl) as [l' Hl']. rewrite Hlock, Hdb.
  apply wpv_bind, (wpv_checkpoint Target); [done| |].
  2:{ intros n [_ Hn]. apply still_old; [|done]. simpl in *. congruence. }
  intros rc db n Hdb' [_ Hn]. apply wpv_bind, (wpv_close Target); [done| |].
  2:{ intros n' [_ Hn']. apply still_old; [|done]. simpl in *. congruence. }
  intros n' [_ Hn']. simpl in *. destruct rc as [[]|e].
  - eapply wpv_mono; [eapply (install_upload_spec (with_db None s) _ l l' mo b); simpl; [congruence|done|done|done|done]| |done].
    intros [r2 s2] v2 (-> & Hs & db2 & -> & Hp). exists l'. split_and!; [done|done|]. by exists db2.
  - apply wpv_ret. simpl. split_and!; [congruence|done|done|done|by right].
Qed.

Lemma http_restore_spec s current v l :
  database_location cwd s = slot_path Target →
  lock_poisoned s = false → app_database s = Some current → edb_path current = slot_path Target →
  served v l →
  wpv m (ApiAdmin.restore_snapshot cwd suffix body s) v
    (λ '(r, s') v', match r with
       | Ok _ => ∃ l', logical body = Some l' ∧ served v' l'
                       ∧ ∃ db, s' = with_db (Some db) s ∧ edb_path db = slot_path Target
       | Err _ => served v' l ∧ (s' = s ∨ s' = with_db None s)
       end)
    (λ v', interrupted v' l).
Proof.
  intros Hloc Hlock Hdb Hpath Hv. unfold ApiAdmin.restore_snapshot.
  assert (import_file (database_location cwd s) suffix = slot_path Candidate) as ->.
  { rewrite Hloc. apply with_extension_join. }
  assert (backup_copy (database_location cwd s) suffix = slot_path Backup) as ->.
  { rewrite Hloc. apply with_extension_join. }
  rewrite Hloc. apply wpv_bind. eapply wpv_mono; [by eapply restore_upload_spec| |done].
  intros [r s'] v' Hr. apply wpv_bind, (wpv_query _ _ (here Candidate)); [intros fs; apply exists_here|].
  unfold here. simpl. destruct r as [[]|e].
  - destruct Hr as (l' & Hl' & Hs & Hdb'). pose proof Hs as (_ & -> & _).
    apply wpv_bind, wpv_ret, wpv_ret. by exists l'.
  - destruct Hr as (Ht & Hb & [n Hn] & Hd & Hs'). rewrite Hn in *. destruct n as [mo b|]; [|done].
    apply wpv_bind. eapply (wpv_remove Candidate); [exact Hn| |by apply still_old].
    apply wpv_ret. by split_and!.
Qed.
End steps.

(** The files of the directory, as the theorems name them. *)
Definition http_view (fs : fsys) : view :=
  mkView (fs !! join d name) (fs !! import_file (join d name) suffix)
    (fs !! backup_copy (join d name) suffix) (fs !! slot_path Journal).

Lemma seen_http fs0 fs v :
  Slots.views (fs0:=fs0) fs v → v = http_view fs ∧ same_outside [d] fs0 fs.
Proof.
  intros [_ Hs Ho]. split; [|done]. apply view_ext. intros x. rewrite <-Hs. destruct x; try done; simpl.
  - unfold import_file. by rewrite with_extension_join.
  - unfold backup_copy. by rewrite with_extension_join.
Qed.

Lemma views_http fs : fs !! d = Some NDir → Slots.views (fs0:=fs) fs (http_view fs).
Proof.
  intros Hd. split; [done| |by intros k _]. intros []; simpl; try done.
  - unfold import_file. by rewrite with_extension_join.
  - unfold backup_copy. by rewrite with_extension_join.
Qed.

#[local] Instance crash_only_faultless : Faultless CrashOnly := eq_refl.

(** C12: Restoring over HTTP, without a journal.  When system calls do not fail:
    success installs the uploaded content, leaves neither of the two extra
    files and serves the new file; an error keeps the old content and leaves
    neither file; and a process that dies leaves the old database, the new one,
    or, between the two renames, no database file but both contents under the
    other two names.  Nothing outside the directory changes. *)
Theorem http_restore_outcome s current l w :
  database_location cwd s = join d name →
  lock_poisoned s = false → app_database s = Some current → edb_path current = join d name →
  w_fs w !! d = Some NDir → served (http_view (w_fs w)) l →
  schedule_ok CrashOnly (w_faults w) →
  let (res, w') := ApiAdmin.restore_snapshot cwd suffix body s w in
  same_outside [d] (w_fs w) (w_fs w')
  ∧ match res with
    | Some (Ok _, s') => ∃ l', logical body = Some l' ∧ served (http_view (w_fs w')) l'
                         ∧ ∃ db, s' = with_db (Some db) s ∧ edb_path db = join d name
    | Some (Err _, s') => served (http_view (w_fs w')) l ∧ (s' = s ∨ s' = with_db None s)
    | None => interrupted (http_view (w_fs w')) l
    end.
Proof.
  intros Hloc Hlock Hdb Hpath Hd Hserved Hs.
  pose proof (http_restore_spec CrashOnly (w_fs w) s current _ l Hloc Hlock Hdb Hpath Hserved
    _ (views_http _ Hd) w Hs eq_refl) as Hwp.
  destruct (ApiAdmin.restore_snapshot cwd suffix body s w) as [[[[]]|] w'];
    destruct Hwp as [_ (v' & (-> & Ho)%seen_http & Hres)]; by split.
Qed.

(** ** The next start *)

(** A new database is empty and was not compiled from sources; creating it works
    where its directory exists and system calls do not fail. *)
Class Creation : Type := {
  empty_state : logical_state;
  creation_law m p fs : fs !! p = None →
    wp m (engine_create p) fs
      (λ r fs', own_files p fs fs' ∧
                match r with
                | Ok db => edb_path db = p ∧ node_logical (fs' !! p) = Some empty_state
                | Err _ => errors m = true ∨ fs !! parent p ≠ Some NDir
                end) (own_files p fs);
  info_law m db fs :
    wp m (engine_info db) fs
      (λ r fs', keeps_data (edb_path db) fs fs' ∧
                (node_logical (fs !! edb_path db) = Some empty_state →
                 errors m = true ∨ ∃ i, r = Ok i ∧ info_source_enabled i = false))
      (keeps_data (edb_path db) fs)
}.

Lemma own_target_slots fs fs' x :
  own_files (join d name) fs fs' → x ≠ Target → fs' !! slot_path x = fs !! slot_path x.
Proof.
  change (join d name) with (slot_path Target). intros Ho Hx. apply Ho. rewrite !not_elem_of_cons. split_and!; [| |apply not_elem_of_nil].
  - by intros ?%slot_path_inj.
  - apply slot_not_sidecar.
Qed.

Lemma directories_slots fs fs' x : with_directories fs d fs' → fs' !! slot_path x = fs !! slot_path x.
Proof.
  intros [_ Hsame]. destruct (Hsame (slot_path x)) as [|(Hp & _)]; [done|].
  apply prefix_length in Hp. unfold Slots.slot_path, join in Hp. rewrite length_app in Hp. simpl in Hp. lia.
Qed.

(** C37: After a restore that was interrupted between its two renames the next
    start serves an empty database.  [AppState::new] finds no file, creates a
    new database in its place and never looks at the two files that hold the
    old and the new content. *)
Theorem interrupted_restore_starts_empty `{!Creation} c fs u l l' :
  server_config_validate c = Ok tt → database_file c = mkPathBuf true (join d name) →
  directories_possible fs d → fs !! join d name = None →
  node_logical (fs !! backup_copy (join d name) suffix) = Some l →
  node_logical (fs !! import_file (join d name) suffix) = Some l' →
  ∃ s db w', app_state_new cwd c (fresh fs u) = (Some (Ok s), w')
    ∧ app_database s = Some db ∧ edb_path db = join d name
    ∧ node_logical (w_fs w' !! join d name) = Some empty_state
    ∧ node_logical (w_fs w' !! backup_copy (join d name) suffix) = Some l
    ∧ node_logical (w_fs w' !! import_file (join d name) suffix) = Some l'.
Proof.
  unfold backup_copy, import_file. rewrite !with_extension_join.
  intros Hval Hfile Hdirs Ht Hb Hc.
  assert (wp Calm (app_state_new cwd c) fs (λ r fs',
    ∃ s db, r = Ok s ∧ app_database s = Some db ∧ edb_path db = join d name
      ∧ node_logical (fs' !! join d name) = Some empty_state
      ∧ ∀ x, x ≠ Target → fs' !! slot_path x = fs !! slot_path x) (λ _, True)) as Hwp.
  { unfold app_state_new. rewrite Hval, Hfile. apply wp_bind, wp_query.
    assert (located cwd (mkPathBuf true (join d name)) = join d name) as -> by done.
    rewrite (proj2 (exists_false _ _) Ht). apply wp_try, wp_try.
    assert (parent_to_create (mkPathBuf true (join d name)) = Some (mkPathBuf true d)) as ->.
    { unfold parent_to_create, path_parent, components. destruct (join d name) eqn:Hj; [by destruct d|].
      rewrite <-Hj. fold (parent (join d name)). by rewrite parent_join. }
    apply wp_map_err. eapply (wp_mono _ _ _ _ _ (λ _, True)); [by apply wp_create_dir_all| |done].
    intros r fs1 (-> & Hdir). simpl. apply wp_map_err.
    assert (fs1 !! join d name = None) as Ht1 by (rewrite <-Ht; by apply (directories_slots fs fs1 Target)).
    eapply wp_mono; [by apply creation_law| |done].
    intros [db|e] fs2 [Hown Hr]; simpl in Hr |- *.
    2:{ destruct Hr as [|Hp]; [done|]. rewrite parent_join in Hp. by destruct Hp, Hdir. }
    destruct Hr as [Hdb Hemp]. apply wp_bind. eapply wp_mono; [apply info_law| |done].
    rewrite Hdb. intros r fs3 [[Hown3 [_ Hl3]] Hinfo].
    destruct (Hinfo Hemp) as [|(i & -> & Hi)]; [done|]. rewrite Hi. apply wp_ret.
    eexists _, db. split_and!; [done|done|done|congruence|]. intros x Hx.
    rewrite (own_target_slots fs2 fs3), (own_target_slots fs1 fs2), (directories_slots fs fs1); done. }
  destruct (wp_returns _ _ _ _ u Hwp) as (r & w' & Hrun & s & db & -> & Hs & Hdb & Hemp & Hrest).
  exists s, db, w'. split_and!; [done..| |].
  - rewrite <-Hb. f_equal. by apply (Hrest Backup).
  - rewrite <-Hc. f_equal. by apply (Hrest Candidate).
Qed.
End restore.

(** ** A concrete server *)

Module Http.
Import Toy RestoreProofs.Concrete.

Definition key : bytes := String.list_byte_of_string "k".
Definition file : path := ["srv"; "main.nostdb"].
Definition settings : ServerConfig := server_config_new (mkPathBuf true file) key.
Definition state : AppState := mkAppState (Some file) false ∅ metrics_default settings.

Definition serving : fsys :=
  {[ [] := NDir; ["srv"] := NDir; file := NFile default_mode live ]}.

(** The process dies at the second rename. *)
Definition dies : world := World serving (replicate 6 NoFault ++ [CrashAt 0]) 18.

Definition after_death : fsys := w_fs (ApiAdmin.restore_snapshot [] "u1" snapshot state dies).2.

#[export] Instance creation : Creation.
Proof.
  refine {| empty_state := [x01] : @logical_state engine snapshots |}.
  - intros m p fs Hp. simpl. unfold create.
    destruct (decide (fs !! parent p = Some NDir)) as [Hd|Hd].
    + apply wp_bind, wp_open_new; [done|done| | |auto with nostdb].
      * intros u. apply wp_bind. eapply wp_write_all_sync; [by rewrite lookup_insert_eq|..].
        -- rewrite insert_insert_eq. apply wp_ret. rewrite lookup_insert_eq. auto with nostdb.
        -- intros He n text. rewrite insert_insert_eq. apply wp_ret. auto with nostdb.
        -- intros _ n. rewrite insert_insert_eq. auto with nostdb.
      * intros He text. apply wp_ret. auto with nostdb.
    + apply wp_bind, wp_bind, wp_umask. intros u.
      apply (wp_atomic _ _ (Err Fs.not_found) fs);
        [|apply wp_ret; auto with nostdb|intros He text; apply wp_ret; auto with nostdb|auto with nostdb].
      unfold do_open_new. rewrite (proj2 (exists_false _ _) Hp). unfold is_dir.
      destruct (fs !! parent p) as [[]|]; done.
  - intros m p fs. apply wp_ret. split; [apply keeps_data_refl|]. intros _. right. by eexists.
Defined.

(** Whether a run succeeded, failed or died. *)
Definition run_of {A} (r : option (handled A)) : option bool :=
  match r with Some (Ok _, _) => Some true | Some (Err _, _) => Some false | None => None end.

Lemma http_restore_outcome_witness :
  (∃ s' w', ApiAdmin.restore_snapshot [] "u1" snapshot state (fresh serving 18) = (Some (Ok tt, s'), w')
            ∧ served (http_view ["srv"] "main.nostdb" "u1" (w_fs w')) snapshot)
  ∧ interrupted snapshot (http_view ["srv"] "main.nostdb" "u1" after_death) live.
Proof.
  pose proof (λ w, http_restore_outcome [] ["srv"] "main.nostdb" "u1" snapshot state file live w
    eq_refl eq_refl eq_refl eq_refl) as Hr. split.
  - specialize (Hr (fresh serving 18) ltac:(vm_compute; reflexivity) ltac:(by vm_compute) (Forall_nil_2 _)).
    assert (run_of (ApiAdmin.restore_snapshot [] "u1" snapshot state (fresh serving 18)).1 = Some true) as Hs'
      by (vm_compute; reflexivity).
    destruct (ApiAdmin.restore_snapshot [] "u1" snapshot state (fresh serving 18)) as [[[[[]|] s']|] w'];
      simpl in Hs'; try discriminate Hs'. exists s', w'. split; [reflexivity|].
    destruct Hr as (_ & l' & Hl' & Hserved & _). simpl in Hl'. injection Hl' as <-. exact Hserved.
  - specialize (Hr dies ltac:(vm_compute; reflexivity) ltac:(by vm_compute) ltac:(by repeat constructor)).
    unfold after_death.
    assert (run_of (ApiAdmin.restore_snapshot [] "u1" snapshot state dies).1 = None) as Hn
      by (vm_compute; reflexivity).
    destruct (ApiAdmin.restore_snapshot [] "u1" snapshot state dies) as [[[[]]|] w'];
      simpl in Hn; try discriminate Hn. exact (proj2 Hr).
Defined.

Lemma interrupted_restore_starts_empty_witness :
  ∃ s db w', app_state_new [] settings (fresh after_death 18) = (Some (Ok s), w')
    ∧ app_database s = Some db ∧ edb_path db = file
    ∧ node_logical (w_fs w' !! file) = Some [x01]
    ∧ node_logical (w_fs w' !! backup_copy file "u1") = Some live
    ∧ node_logical (w_fs w' !! import_file file "u1") = Some snapshot.
Proof.
  apply (interrupted_restore_starts_empty (H2:=creation) [] ["srv"] "main.nostdb" "u1" settings after_death 18
           (live : @logical_state engine snapshots) snapshot);
    try (vm_compute; reflexivity).
  split; [vm_compute; reflexivity|]. intros k Hk.
  destruct Hk as [k' Hk]. destruct k as [|a [|b k]]; simplify_eq/=; right; vm_compute; reflexivity.
Defined.
End Http.
