(* ===== verification/Cli.v ===== *)
(** * The command-line programs ([src/src/bin/nostd.rs], [src/src/main.rs])

    The two programs as functions of their arguments and environment: parsing
    of options, the lookup of the configuration file, and the dispatch to
    initialization, the daemon and the HTTP server.  A program that prints
    gives its output lines; [bind] and serving are arguments. *)

From Stdlib Require Import ZArith NArith Lia Ascii.
From stdpp Require Import base list strings gmap pretty.
From S2P Require Import Prelude Fs Codec Catalog Wire Messages Config Protocol Engine.
From S2P Require Import Daemon Restore Startup Import Api.

Open Scope string_scope.
Open Scope list_scope.

(** ** Texts *)

Definition decimal_digit (c : ascii) : option Z :=
  let n := Z.of_nat (nat_of_ascii c) in
  if (48 <=? n)%Z && (n <=? 57)%Z then Some (n - 48)%Z else None.

(** The digits of [u64::from_str], with overflow checked at each. *)
Fixpoint digits_value (acc : Z) (s : string) : option Z :=
  match s with
  | "" => Some acc
  | String c s' =>
      match decimal_digit c with
      | None => None
      | Some d =>
          let v := (acc * 10 + d)%Z in
          if (v <? 2 ^ 64)%Z then digits_value v s' else None
      end
  end.

(** [str::parse::<u64>]: a sign [+] is accepted before digits. *)
Definition parse_u64 (s : string) : option Z :=
  match s with
  | "" => None
  | String "+" "" => None
  | String "+" s' => digits_value 0 s'
  | _ => digits_value 0 s
  end.

Definition number (value : string) : result Z string :=
  ok_or (parse_u64 value) ("`" +:+ value +:+ "` is not a valid non-negative integer").

(** ** Options *)

(** The loop [while index < arguments.len() { .. }]; [None] is a loop that did
    not end within the fuel. *)
Fixpoint while_arguments {S} (step : nat → S → result (nat * S) string) (count fuel index : nat) (st : S)
    : option (result S string) :=
  if (index <? count)%nat then
    match fuel with
    | O => None
    | Datatypes.S fuel' =>
        match step index st with
        | Err e => Some (Err e)
        | Ok (index', st') => while_arguments step count fuel' index' st'
        end
    end
  else Some (Ok st).

(** [value]: the argument after the option, and the index that is now at it. *)
Definition value (arguments : list string) (index : nat) : result (string * nat) string :=
  ok_or ((λ v, (v, S index)) <$> arguments !! S index) "option requires a value".

Record InitOptions : Type := mkInitOptions {
  init_data_directory : PathBuf;
  init_config_path : PathBuf;
  init_listen : string
}.

Definition default_listen : string := "127.0.0.1:7878".

(** The variables of [parse_init]. *)
Record init_vars : Type := mkInitVars {
  var_data_directory : option PathBuf;
  var_config_path : option PathBuf;
  var_listen : string
}.

Definition init_step (arguments : list string) (index : nat) (st : init_vars)
    : result (nat * init_vars) string :=
  let option := nth index arguments "" in
  if String.eqb option "--data-dir" then
    let^ (v, index) := value arguments index in
    Ok (S index, mkInitVars (Some (path_from v)) (var_config_path st) (var_listen st))
  else if String.eqb option "--config" then
    let^ (v, index) := value arguments index in
    Ok (S index, mkInitVars (var_data_directory st) (Some (path_from v)) (var_listen st))
  else if String.eqb option "--listen" then
    let^ (v, index) := value arguments index in
    Ok (S index, mkInitVars (var_data_directory st) (var_config_path st) v)
  else Err ("unknown init option `" +:+ option +:+ "`").

Definition parse_init (default_config_path : PathBuf) (arguments : list string)
    : option (result InitOptions string) :=
  let loop := while_arguments (init_step arguments) (length arguments) (length arguments) 0
                (mkInitVars None None default_listen) in
  (λ r, let^ st := r in
        let^ data_directory := ok_or (var_data_directory st) "init requires --data-dir PATH" in
        Ok (mkInitOptions data_directory (default default_config_path (var_config_path st))
              (var_listen st))) <$> loop.

Definition serve_step (arguments : list string) (index : nat) (st : option PathBuf)
    : result (nat * option PathBuf) string :=
  let option := nth index arguments "" in
  if String.eqb option "--config" then
    let^ (v, index) := value arguments index in Ok (S index, Some (path_from v))
  else Err ("unknown serve option `" +:+ option +:+ "`").

Definition parse_serve (default_config_path : PathBuf) (arguments : list string)
    : option (result PathBuf string) :=
  (λ r, let^ st := r in Ok (default default_config_path st))
    <$> while_arguments (serve_step arguments) (length arguments) (length arguments) 0 None.

(** ** The configuration file *)

(** [env::var_os(name).filter(|value| !value.is_empty()).map(PathBuf::from)] *)
Definition environment_path (environment : string → option string) (n : string) : option PathBuf :=
  match environment n with
  | Some "" | None => None
  | Some v => Some (path_from v)
  end.

Definition select_default_config_path (config_path nostdb_home : option PathBuf)
    (platform_default : PathBuf) : PathBuf :=
  match config_path with
  | Some p => p
  | None =>
      match nostdb_home with
      | Some p => path_join p (path_from "config/server.toml")
      | None => platform_default
      end
  end.

(** On Linux. *)
Definition platform_default_config_path : PathBuf := path_from "/etc/nostdb/server.toml".

Definition default_config_path (environment : string → option string) : PathBuf :=
  select_default_config_path (environment_path environment "NOSTDB_CONFIG")
    (environment_path environment "NOSTDB_HOME") platform_default_config_path.

(** ** The daemon's program *)

Definition is_help (a : string) : bool := String.eqb a "-h" || String.eqb a "--help".
Definition help_requested (arguments : list string) : bool := existsb is_help arguments.

(** The three help texts, by name. *)
Inductive help_text : Type := HELP | INIT_HELP | SERVE_HELP.

(** What [run] of [nostd] does with its arguments. *)
Inductive nostd_command : Type :=
| ShowHelp (text : help_text)
| ShowVersion
| Initialize (options : InitOptions)
| Serve (config_path : PathBuf).

Definition unknown_command (c : string) (help : string) : string :=
  "unknown command `" +:+ c +:+ "`" +:+ String (ascii_of_nat 10) (String (ascii_of_nat 10) help).

Definition nostd_parse (help : string) (environment : string → option string) (arguments : list string)
    : option (result nostd_command string) :=
  let config := default_config_path environment in
  match arguments with
  | [] => Some (Ok (ShowHelp HELP))
  | first :: rest =>
      if is_help first then Some (Ok (ShowHelp HELP))
      else if String.eqb first "-V" || String.eqb first "--version" then
        Some (match rest with
              | [] => Ok ShowVersion
              | _ => Err "--version does not accept arguments"
              end)
      else if String.eqb first "init" then
        if help_requested rest then Some (Ok (ShowHelp INIT_HELP))
        else (map_ok Initialize) <$> parse_init config rest
      else if String.eqb first "serve" then
        if help_requested rest then Some (Ok (ShowHelp SERVE_HELP))
        else (map_ok Serve) <$> parse_serve config rest
      else Some (Err (unknown_command first help))
  end.

Section programs.
Context `{!Engine, !Uuid, !SocketAddr, !Toml}.
Context `{!Json Catalog, !Json OperationJournal, !Json RestoreJournal}.
Context (cwd : path).

(** What [initialize] prints. *)
Definition report_lines (r : InitializationReport) : list string :=
  ["initialized NostDB data directory";
   "config: " +:+ display_path (report_config_path r);
   "data: " +:+ display_path (report_data_directory r);
   "client credential: " +:+ display_path (report_query_credential_file r);
   "admin credential: " +:+ display_path (report_admin_credential_file r)].

(** [initialize]; the credentials are what the random source gives. *)
Definition nostd_initialize (query_token admin_token : bytes) (options : InitOptions)
    : io (result (list string) string) :=
  let? report := initialize_daemon cwd (init_config_path options) (init_data_directory options)
                   (init_listen options) query_token admin_token in
  ret (Ok (report_lines report)).

(** [serve]: the configuration is loaded and the address parsed, the data
    directory opened, and only then the listener bound; the lock is held and
    recovery done before the first connection. *)
Definition nostd_serve (owned : bool) (pid : bytes)
    (init_tracing : io (result unit string))
    (bind_listener : socket_addr → io (result unit string))
    (serve_database_protocol : DatabaseDaemon → io (result unit ServerError))
    (config_path : PathBuf) : io (result (list string) string) :=
  let? config := config_load cwd config_path in
  let? address := ret (listen_address config) in
  let? _ := init_tracing in
  let? daemon := open_daemon cwd owned pid config in
  let? _ := io_map_err (λ e, "cannot bind database protocol listener "
                             +:+ socket_to_string address +:+ ": " +:+ e) (bind_listener address) in
  let? _ := serve_database_protocol daemon in
  ret (Ok []).

(** The exit code of [main]. *)
Definition exit_code {A} (r : result A string) : Z := match r with Ok _ => 0 | Err _ => 2 end.
End programs.

(** ** The HTTP server's program *)

(** The variables of [parse_arguments]. *)
Record server_vars : Type := mkServerVars {
  var_database : option string;
  var_api_key : option string;
  var_server_listen : string;
  var_timeout_ms : option Z;
  var_max_rows : option Z;
  var_max_memory_bytes : option Z;
  var_max_operations : option Z;
  var_max_traversals : option Z
}.

Definition server_option (option v : string) (st : server_vars) : result server_vars string :=
  let '(mkServerVars d k l t r m o tr) := st in
  if String.eqb option "--database" then Ok (mkServerVars (Some v) k l t r m o tr)
  else if String.eqb option "--api-key" then Ok (mkServerVars d (Some v) l t r m o tr)
  else if String.eqb option "--listen" then Ok (mkServerVars d k v t r m o tr)
  else if String.eqb option "--timeout-ms" then
    let^ n := number v in Ok (mkServerVars d k l (Some n) r m o tr)
  else if String.eqb option "--max-rows" then
    let^ n := number v in Ok (mkServerVars d k l t (Some n) m o tr)
  else if String.eqb option "--max-memory-bytes" then
    let^ n := number v in Ok (mkServerVars d k l t r (Some n) o tr)
  else if String.eqb option "--max-operations" then
    let^ n := number v in Ok (mkServerVars d k l t r m (Some n) tr)
  else if String.eqb option "--max-traversals" then
    let^ n := number v in Ok (mkServerVars d k l t r m o (Some n))
  else Err ("unknown option `" +:+ option +:+ "`").

Definition server_step (arguments : list string) (index : nat) (st : server_vars)
    : result (nat * server_vars) string :=
  let option := nth index arguments "" in
  let index := S index in
  let^ v := ok_or (arguments !! index) (option +:+ " requires a value") in
  let^ st := server_option option v st in
  Ok (S index, st).

(** The limits given on the command line replace the defaults. *)
Definition configured (database key : string) (st : server_vars) : ServerConfig :=
  let c := server_config_new (path_from database) (String.list_byte_of_string key) in
  let l := server_query_limits c in
  mkServerConfig (database_file c) (api_key c)
    (mkQueryLimits (default (limit_rows l) (var_max_rows st))
       (default (limit_memory_bytes l) (var_max_memory_bytes st))
       (default (limit_operations l) (var_max_operations st))
       (default (limit_traversals l) (var_max_traversals st)))
    (default (query_timeout c) (from_millis <$> var_timeout_ms st))
    (request_body_bytes c) (snapshot_body_bytes c) (server_max_sessions c) (server_max_statements c).

Definition parse_arguments `{!SocketAddr} (environment_key : option string) (arguments : list string)
    : option (result (option (socket_addr * ServerConfig)) string) :=
  if help_requested arguments then Some (Ok None)
  else
    (λ r, let^ st := r in
          let^ database := ok_or (var_database st) "--database is required" in
          let^ key := ok_or (var_api_key st) "--api-key or NOSTDB_API_KEY is required" in
          let^ address := map_err (λ e, "invalid --listen address: " +:+ e)
                            (socket_parse (var_server_listen st)) in
          Ok (Some (address, configured database key st)))
      <$> while_arguments (server_step arguments) (length arguments) (length arguments) 0
            (mkServerVars None environment_key default_listen None None None None None).

(** [run]: the database is opened before the listener is bound.  [None] is a
    request for help. *)
Definition server_run `{!Engine, !SocketAddr} (cwd : path) (init_tracing : io (result unit string))
    (bind_listener : socket_addr → io (result unit string))
    (serve_router : AppState → io (result unit string))
    (parsed : result (option (socket_addr * ServerConfig)) string) : io (result (option unit) string) :=
  let? p := ret parsed in
  match p with
  | None => ret (Ok None)
  | Some (address, config) =>
      let? _ := init_tracing in
      let? state := app_state_new cwd config in
      let? _ := io_map_err (λ e, "cannot bind " +:+ socket_to_string address +:+ ": " +:+ e)
                  (bind_listener address) in
      let? _ := io_map_err (λ e, "HTTP server failed: " +:+ e) (serve_router state) in
      ret (Ok (Some tt))
  end.
