(* ===== verification/CliProofs.v ===== *)
(** * Properties of the command-line programs

    The loops over the arguments end, and read the arguments as pairs of an
    option and its value; which command lines are accepted and with which
    options; numbers; and a command line printed from a configuration is read
    back as that configuration. *)

From Stdlib Require Import ZArith NArith Lia Ascii.
From stdpp Require Import base list strings gmap pretty.
From S2P Require Import Prelude Fs Codec Catalog Wire Messages Config Protocol Engine.
From S2P Require Import Daemon Restore Startup Import Api Cli.

Open Scope string_scope.
Open Scope list_scope.

(** ** Arguments as pairs *)

(** The arguments from left to right: [set] takes an option and its value,
    [missing] is the error of an option at the end. *)
Fixpoint read_pairs {S} (set : string → string → S → result S string) (missing : string → string)
    (arguments : list string) (st : S) : result S string :=
  match arguments with
  | [] => Ok st
  | [option] => Err (missing option)
  | option :: v :: rest => let^ st := set option v st in read_pairs set missing rest st
  end.

Section loop.
Context {S : Type} (set : string → string → S → result S string) (missing : string → string).
Context (arguments : list string) (step : nat → S → result (nat * S) string).
Hypothesis step_pair : ∀ i st o, arguments !! i = Some o →
  step i st = match arguments !! Datatypes.S i with
              | Some v => map_ok (λ st, (Datatypes.S (Datatypes.S i), st)) (set o v st)
              | None => Err (missing o)
              end.

Lemma while_read_pairs fuel index st :
  (length arguments - index ≤ fuel)%nat →
  while_arguments step (length arguments) fuel index st
  = Some (read_pairs set missing (drop index arguments) st).
Proof.
  revert index st. induction fuel as [|fuel IH]; intros index st Hf; simpl.
  - destruct (Nat.ltb_spec index (length arguments)); [lia|]. by rewrite drop_ge by lia.
  - destruct (Nat.ltb_spec index (length arguments)) as [Hlt|]; [|by rewrite drop_ge by lia].
    destruct (lookup_lt_is_Some_2 arguments index Hlt) as [o Ho].
    rewrite (drop_S _ _ _ Ho), (step_pair _ st _ Ho).
    destruct (arguments !! Datatypes.S index) as [v|] eqn:Hv.
    + rewrite (drop_S _ _ _ Hv). simpl. destruct (set o v st); simpl; [|done]. apply IH. lia.
    + apply lookup_ge_None in Hv. by rewrite (drop_ge arguments (Datatypes.S index)) by lia.
Qed.
End loop.

(** ** The three parsers without indices *)

Definition init_set (option v : string) (st : init_vars) : result init_vars string :=
  if String.eqb option "--data-dir" then
    Ok (mkInitVars (Some (path_from v)) (var_config_path st) (var_listen st))
  else if String.eqb option "--config" then
    Ok (mkInitVars (var_data_directory st) (Some (path_from v)) (var_listen st))
  else if String.eqb option "--listen" then
    Ok (mkInitVars (var_data_directory st) (var_config_path st) v)
  else Err ("unknown init option `" +:+ option +:+ "`").

Definition init_missing (option : string) : string :=
  if String.eqb option "--data-dir" || String.eqb option "--config" || String.eqb option "--listen"
  then "option requires a value" else "unknown init option `" +:+ option +:+ "`".

Definition serve_set (option v : string) (_ : Datatypes.option PathBuf)
    : result (Datatypes.option PathBuf) string :=
  if String.eqb option "--config" then Ok (Some (path_from v))
  else Err ("unknown serve option `" +:+ option +:+ "`").

Definition serve_missing (option : string) : string :=
  if String.eqb option "--config" then "option requires a value"
  else "unknown serve option `" +:+ option +:+ "`".

Lemma init_loop arguments st :
  while_arguments (init_step arguments) (length arguments) (length arguments) 0 st
  = Some (read_pairs init_set init_missing arguments st).
Proof.
  rewrite (while_read_pairs init_set init_missing) by
    (try lia; intros i s o Ho; unfold init_step, init_set, init_missing, value;
     rewrite (nth_lookup_Some _ _ _ _ Ho);
     destruct (String.eqb o "--data-dir"), (String.eqb o "--config"), (String.eqb o "--listen"),
       (arguments !! S i); done).
  by rewrite drop_0.
Qed.

Lemma serve_loop arguments st :
  while_arguments (serve_step arguments) (length arguments) (length arguments) 0 st
  = Some (read_pairs serve_set serve_missing arguments st).
Proof.
  rewrite (while_read_pairs serve_set serve_missing) by
    (try lia; intros i s o Ho; unfold serve_step, serve_set, serve_missing, value;
     rewrite (nth_lookup_Some _ _ _ _ Ho);
     destruct (String.eqb o "--config"), (arguments !! S i); done).
  by rewrite drop_0.
Qed.

Definition server_missing (option : string) : string := option +:+ " requires a value".

Lemma server_loop arguments st :
  while_arguments (server_step arguments) (length arguments) (length arguments) 0 st
  = Some (read_pairs server_option server_missing arguments st).
Proof.
  rewrite (while_read_pairs server_option server_missing).
  - by rewrite drop_0.
  - intros i s o Ho. unfold server_step, server_missing. rewrite (nth_lookup_Some _ _ _ _ Ho).
    destruct (arguments !! S i) as [v|]; simpl; [|done]. by destruct (server_option o v s).
  - lia.
Qed.

(** C30: Reading a command line ends.  Whatever the arguments, each of the three
    parsers and the dispatch of [nostd] gives a result: their loops end within
    as many rounds as there are arguments. *)
Theorem command_lines_end `{!SocketAddr} :
  (∀ d arguments, is_Some (parse_init d arguments))
  ∧ (∀ d arguments, is_Some (parse_serve d arguments))
  ∧ (∀ key arguments, is_Some (parse_arguments key arguments))
  ∧ (∀ help environment arguments, is_Some (nostd_parse help environment arguments)).
Proof.
  assert (∀ d arguments, is_Some (parse_init d arguments)) as Hi.
  { intros. unfold parse_init. rewrite init_loop. by eexists. }
  assert (∀ d arguments, is_Some (parse_serve d arguments)) as Hs.
  { intros. unfold parse_serve. rewrite serve_loop. by eexists. }
  split_and!; [done|done| |].
  - intros key arguments. unfold parse_arguments. destruct (help_requested arguments); [by eexists|].
    rewrite server_loop. by eexists.
  - intros help environment [|first rest]; simpl; [by eexists|]. repeat case_match; try by eexists.
    + destruct (Hi (default_config_path environment) rest) as [r ->]. by eexists.
    + destruct (Hs (default_config_path environment) rest) as [r ->]. by eexists.
Qed.

(** ** Which command lines are accepted *)

(** A list of options with their values as arguments. *)
Definition flat (pairs : list (string * string)) : list string :=
  flat_map (λ '(option, v), [option; v]) pairs.

(** The value given last for an option. *)
Definition last_value (n : string) (pairs : list (string * string)) : option string :=
  last (omap (λ '(option, v), if String.eqb option n then Some v else None) pairs).

Lemma last_value_cons n o v pairs :
  last_value n ((o, v) :: pairs)
  = match last_value n pairs with
    | Some w => Some w
    | None => if String.eqb o n then Some v else None
    end.
Proof.
  unfold last_value. simpl. destruct (String.eqb o n); simpl.
  - rewrite last_cons. by destruct (last _).
  - by destruct (last _).
Qed.

(** Reading succeeds on lists of pairs only. *)
Lemma read_pairs_flat {S} set missing arguments (st st' : S) :
  read_pairs set missing arguments st = Ok st' → ∃ pairs, arguments = flat pairs.
Proof.
  remember (length arguments) as n eqn:Hn. revert arguments st Hn.
  induction (lt_wf n) as [n _ IH]. intros [|o [|v rest]] st ->; simpl; [by exists []|done|].
  destruct (set o v st) as [st1|]; simpl; [|done]. intros Hr.
  destruct (IH (length rest) ltac:(simpl; lia) rest st1 eq_refl Hr) as [pairs ->].
  by exists ((o, v) :: pairs).
Qed.

Definition init_known (o : string) : Prop := o = "--data-dir" ∨ o = "--config" ∨ o = "--listen".

Lemma init_set_Ok o v st st' :
  init_set o v st = Ok st' ↔
  init_known o
  ∧ st' = mkInitVars (if String.eqb o "--data-dir" then Some (path_from v) else var_data_directory st)
            (if String.eqb o "--config" then Some (path_from v) else var_config_path st)
            (if String.eqb o "--listen" then v else var_listen st).
Proof.
  unfold init_set, init_known.
  destruct (String.eqb_spec o "--data-dir"), (String.eqb_spec o "--config"),
    (String.eqb_spec o "--listen"); subst; try done; naive_solver.
Qed.

(** What the options say, over what the variables held. *)
Definition init_result (pairs : list (string * string)) (st : init_vars) : init_vars :=
  mkInitVars (match last_value "--data-dir" pairs with
              | Some v => Some (path_from v) | None => var_data_directory st end)
    (match last_value "--config" pairs with
     | Some v => Some (path_from v) | None => var_config_path st end)
    (match last_value "--listen" pairs with Some v => v | None => var_listen st end).

Lemma init_pairs pairs st st' :
  read_pairs init_set init_missing (flat pairs) st = Ok st' ↔
  Forall (λ '(o, _), init_known o) pairs ∧ st' = init_result pairs st.
Proof.
  revert st. induction pairs as [|[o v] pairs IH]; intros st.
  - simpl. unfold init_result. simpl. destruct st. split; [intros [= <-]|intros [_ ->]]; done.
  - change (flat ((o, v) :: pairs)) with (o :: v :: flat pairs). simpl.
    destruct (init_set o v st) as [st1|e] eqn:Hset; simpl.
    + apply init_set_Ok in Hset as [Hk ->]. rewrite IH, Forall_cons. unfold init_result.
      rewrite !last_value_cons. simpl.
      assert (∀ (P : Prop) x y, x = y → (P ∧ st' = x ↔ (init_known o ∧ P) ∧ st' = y)) as Hand by naive_solver.
      apply Hand. f_equal; repeat case_match; done.
    + split; [done|]. intros [[Hk _]%Forall_cons _]. exfalso.
      assert (init_set o v st = Ok _) as Hok by (by apply init_set_Ok). congruence.
Qed.

(** C31: What [nostd init] accepts.  A command line is accepted exactly when it is
    a sequence of the three options, each with a value, with [--data-dir] among
    them; of an option given more than once the last value counts, and without
    [--config] and [--listen] the defaults are used. *)
Theorem init_options_exact d arguments o :
  parse_init d arguments = Some (Ok o) ↔
  ∃ pairs directory,
    arguments = flat pairs ∧ Forall (λ '(n, _), init_known n) pairs
    ∧ last_value "--data-dir" pairs = Some directory
    ∧ o = mkInitOptions (path_from directory)
            (match last_value "--config" pairs with Some v => path_from v | None => d end)
            (default default_listen (last_value "--listen" pairs)).
Proof.
  unfold parse_init. rewrite init_loop. simpl. split.
  - destruct (read_pairs _ _ _ _) as [st|] eqn:Hr; simpl; [|done].
    destruct (read_pairs_flat _ _ _ _ _ Hr) as [pairs ->]. apply init_pairs in Hr as [Hk ->].
    unfold init_result. simpl. destruct (last_value "--data-dir" pairs) as [directory|] eqn:Hd; [|done].
    intros [= <-]. exists pairs, directory. split_and!; [done|done|done|].
    by destruct (last_value "--config" pairs), (last_value "--listen" pairs).
  - intros (pairs & directory & -> & Hk & Hd & ->).
    rewrite (proj2 (init_pairs pairs _ _) (conj Hk eq_refl)). unfold init_result. simpl. rewrite Hd. simpl.
    by destruct (last_value "--config" pairs), (last_value "--listen" pairs).
Qed.

(** ** Numbers *)

Lemma decimal_digit_char n : (n < 10)%N → decimal_digit (pretty_N_char n) = Some (Z.of_N n).
Proof.
  intros Hn. assert (n = 0 ∨ n = 1 ∨ n = 2 ∨ n = 3 ∨ n = 4 ∨ n = 5 ∨ n = 6 ∨ n = 7 ∨ n = 8 ∨ n = 9)%N
    as Hc by lia. by destruct_or! Hc; subst.
Qed.

Lemma digits_value_go x s :
  (0 < x)%N →
  digits_value 0 (pretty_N_go x s) = if (Z.of_N x <? 2 ^ 64)%Z then digits_value (Z.of_N x) s else None.
Proof.
  revert s. induction (N.lt_wf_0 x) as [x _ IH]. intros s Hx.
  rewrite pretty_N_go_step by done.
  assert (Z.of_N x = Z.of_N (x `div` 10) * 10 + Z.of_N (x `mod` 10))%Z as Hdiv.
  { rewrite (N.div_mod x 10) at 1 by done. lia. }
  assert (x `mod` 10 < 10)%N as Hmod by (by apply N.mod_lt).
  destruct (decide (x `div` 10 = 0)%N) as [H0|H0].
  - rewrite H0, pretty_N_go_0. simpl. rewrite decimal_digit_char by done.
    rewrite H0 in Hdiv. by rewrite Hdiv.
  - rewrite IH by (try (apply N.div_lt; [done|lia]); lia). destruct (Z.ltb_spec (Z.of_N (x `div` 10)) (2 ^ 64)).
    + simpl. rewrite decimal_digit_char by done. by rewrite Hdiv.
    + destruct (Z.ltb_spec (Z.of_N x) (2 ^ 64)); [|done]. 
      pose proof (N2Z.is_nonneg (x `div` 10)). pose proof (N2Z.is_nonneg (x `mod` 10)).
      generalize dependent (Z.of_N (x `div` 10)). generalize dependent (Z.of_N (x `mod` 10)). lia.
Qed.

Lemma pretty_go_head x s :
  (0 < x)%N → ∃ n t, pretty_N_go x s = String (pretty_N_char n) t.
Proof.
  revert s. induction (N.lt_wf_0 x) as [x _ IH]. intros s Hx.
  rewrite pretty_N_go_step by done. destruct (decide (x `div` 10 = 0)%N) as [H0|H0].
  - rewrite H0, pretty_N_go_0. by eexists _, _.
  - apply IH; [by apply N.div_lt|by apply N.neq_0_lt_0].
Qed.

Lemma number_show n :
  (0 <= n)%Z →
  number (show n) = if (n <? 2 ^ 64)%Z then Ok n
                    else Err ("`" +:+ show n +:+ "` is not a valid non-negative integer").
Proof.
  intros Hn. destruct n as [|p|p]; [done| |lia]. unfold number, show.
  change (pretty (Z.pos p)) with (pretty_N_go (N.pos p) "").
  assert (parse_u64 (pretty_N_go (N.pos p) "") = digits_value 0 (pretty_N_go (N.pos p) "")) as ->.
  { destruct (pretty_go_head (N.pos p) "" ltac:(lia)) as (n & t & ->).
    unfold pretty_N_char. by repeat case_match. }
  rewrite digits_value_go by lia. simpl Z.of_N. by destruct (Z.pos p <? 2 ^ 64)%Z.
Qed.

(** ** Printing a command line *)

(** The command line that asks for a configuration. *)
Definition print_arguments `{!SocketAddr} (address : socket_addr) (database key : string)
    (l : QueryLimits) (timeout : Z) : list string :=
  flat [("--database", database); ("--api-key", key); ("--listen", socket_to_string address);
        ("--timeout-ms", show timeout); ("--max-rows", show (limit_rows l));
        ("--max-memory-bytes", show (limit_memory_bytes l)); ("--max-operations", show (limit_operations l));
        ("--max-traversals", show (limit_traversals l))].

Definition in_u64 (z : Z) : Prop := (0 <= z < 2 ^ 64)%Z.

Lemma number_in_u64 z : in_u64 z → number (show z) = Ok z.
Proof. intros [Hz Hlt]. rewrite number_show by done. by rewrite (proj2 (Z.ltb_lt _ _) Hlt). Qed.

(** The options that take a number. *)
Definition numeric_options : list string :=
  ["--timeout-ms"; "--max-rows"; "--max-memory-bytes"; "--max-operations"; "--max-traversals"].

Lemma numeric_option_error option v st e :
  option ∈ numeric_options → number v = Err e → server_option option v st = Err e.
Proof.
  intros Ho Hv. destruct st. unfold numeric_options in Ho. rewrite !elem_of_cons in Ho.
  destruct_or? Ho; try (by apply elem_of_nil in Ho); subst option; simpl; by rewrite Hv.
Qed.

(** Reading goes on behind the pairs that were accepted. *)
Lemma read_pairs_app {S} set missing pairs rest (st : S) :
  read_pairs set missing (flat pairs ++ rest) st
  = result_bind (read_pairs set missing (flat pairs) st) (read_pairs set missing rest).
Proof.
  revert st. induction pairs as [|[o v] pairs IH]; intros st; simpl; [done|].
  destruct (set o v st) as [st'|e]; simpl; [apply IH|done].
Qed.

(** What the arguments before an option leave, if they are accepted. *)
Definition read_so_far (environment_key : option string) (pairs : list (string * string))
    : result server_vars string :=
  read_pairs server_option server_missing (flat pairs)
    (mkServerVars None environment_key default_listen None None None None None).

(** C32: The server's command line round trip.  Without a request for help, the
    printed arguments for an address, a database, a key, limits and a timeout are
    read back as exactly these, whatever [NOSTDB_API_KEY] says; the other limits
    are the defaults.  Under each of the five numeric options, wherever it
    stands, a number that does not fit 64 bits is refused: with an error that
    quotes it when the options before it are accepted, and otherwise with the
    error of the first one that is not. *)
Theorem server_arguments_round_trip `{!SocketAddr, !SocketAddrLaws} environment_key text address database key l timeout :
  socket_parse text = Ok address →
  in_u64 timeout → in_u64 (limit_rows l) → in_u64 (limit_memory_bytes l) →
  in_u64 (limit_operations l) → in_u64 (limit_traversals l) →
  help_requested (print_arguments address database key l timeout) = false →
  parse_arguments environment_key (print_arguments address database key l timeout)
  = Some (Ok (Some (address,
      let c := server_config_new (path_from database) (String.list_byte_of_string key) in
      mkServerConfig (database_file c) (api_key c) l (from_millis timeout) (request_body_bytes c)
        (snapshot_body_bytes c) (server_max_sessions c) (server_max_statements c))))
  ∧ (∀ earlier option n later,
       option ∈ numeric_options → (2 ^ 64 <= n)%Z →
       help_requested (flat earlier ++ [option; show n] ++ later) = false →
       parse_arguments environment_key (flat earlier ++ [option; show n] ++ later)
       = Some (Err (match read_so_far environment_key earlier with
                    | Ok _ => "`" +:+ show n +:+ "` is not a valid non-negative integer"
                    | Err e => e
                    end))).
Proof.
  intros Hs Ht Hr Hm Ho Htr Hh. unfold parse_arguments. rewrite Hh. rewrite server_loop. split.
  - unfold print_arguments. simpl. unfold server_option; simpl.
    rewrite (number_in_u64 timeout Ht). simpl. rewrite (number_in_u64 _ Hr). simpl.
    rewrite (number_in_u64 _ Hm). simpl. rewrite (number_in_u64 _ Ho). simpl.
    rewrite (number_in_u64 _ Htr). simpl. rewrite (socket_round_trip text address Hs). simpl.
    unfold configured. simpl. by destruct l.
  - intros earlier option n later Hopt Hn Hh'. rewrite Hh', server_loop, read_pairs_app.
    fold (read_so_far environment_key earlier).
    destruct (read_so_far environment_key earlier) as [st|e]; [|done]. cbn [result_bind app read_pairs].
    rewrite (numeric_option_error option (show n) st
      ("`" +:+ show n +:+ "` is not a valid non-negative integer")); [done|done|].
    rewrite number_show by lia. by rewrite (proj2 (Z.ltb_ge _ _) Hn).
Qed.

Module Shell.

#[local] Instance socket : SocketAddr :=
  {| socket_addr := string; socket_parse s := Ok s; socket_to_string s := s |}.
#[local] Instance socket_laws : SocketAddrLaws.
Proof. split. by intros s a [= <-]. Qed.

Lemma server_arguments_round_trip_witness :
  parse_arguments (Some "from-environment")
    ["--database"; "main.nostdb"; "--api-key"; "k"; "--listen"; "127.0.0.1:80"; "--timeout-ms"; "7";
     "--max-rows"; "5"; "--max-memory-bytes"; "1"; "--max-operations"; "2";
     "--max-traversals"; "3"]
  = Some (Ok (Some ("127.0.0.1:80",
      mkServerConfig (path_from "main.nostdb") (String.list_byte_of_string "k")
        (mkQueryLimits 5 1 2 3) 7000000 1048576 1073741824 1024 1000)))
  ∧ parse_arguments None ["--listen"; "127.0.0.1:80"; "--timeout-ms"; "18446744073709551616"]
    = Some (Err "`18446744073709551616` is not a valid non-negative integer").
Proof.
  destruct (server_arguments_round_trip (H:=socket) None "127.0.0.1:80" "127.0.0.1:80" "main.nostdb"
    "k" (mkQueryLimits 5 1 2 3) 7) as [_ Hrefused];
    [reflexivity|(split; vm_compute; congruence)..|reflexivity|]. split.
  - refine (proj1 (server_arguments_round_trip (H:=socket) (Some "from-environment") "127.0.0.1:80"
      "127.0.0.1:80" "main.nostdb" "k" (mkQueryLimits 5 1 2 3) 7 _ _ _ _ _ _ _));
      [reflexivity|(split; vm_compute; congruence)..|reflexivity].
  - apply (Hrefused [("--listen", "127.0.0.1:80")] "--timeout-ms" (2 ^ 64)%Z []);
      [left|vm_compute; congruence|reflexivity].
Defined.

End Shell.
